(* ===== verification/_CoqProject ===== *)
-Q . S2P
Prelude.v
Errors.v
Runtime.v
Lifecycle.v
Retry.v
Hooks.v
Health.v
Runner.v
Connect.v
TxManager.v
Database.v
Cache.v
Worker.v
Strconv.v
Utf8.v
Json.v
Rfc3339.v
JsonStruct.v
Server.v
Orders.v
Handlers.v
Trace.v
Flight.v
Stack.v
System.v
App.v
