(* ===== verification/Prelude.v ===== *)
(** * go-bootkit: a verification development

    go-bootkit is a Go toolkit for services: a runner that starts components,
    waits for their readiness, serves their health and stops them (core), and
    components for PostgreSQL (databasekit), Redis (cachekit), background tasks
    (workerkit) and HTTP (serverkit), with an example service (examples/orders).
    This library models that code and proves what makes it correct. Definitions
    keep the names of the source where they can; each is executable, and witnesses
    evaluate it on concrete inputs.

    ** The program

    A component embeds [core.Lifecycle]: its [Connect] closure acquires the
    resource and returns a stop closure; [Start] connects, signals readiness and
    blocks; [Stop] runs the closure. [ApplicationRunner] starts all services in an
    errgroup, watches their readiness against a deadline, and on the first error
    or cancellation stops them in reverse order within a time budget. A component
    may provide health checks, which the runner registers with the health
    [Aggregator]; the aggregator evaluates them concurrently, collapses and caches
    results. [TxManager] runs functions in transactions of any [TxProvider], whose
    implementation is [PostgresDB] over pgx. [Cache] is implemented by
    [RedisCache] and by [MemoryCache]. The order service runs on the last two.

    ** Files, in dependency order

    - Prelude: 64-bit arithmetic, labelled transition systems (reachability,
      invariants by rule induction, measures), list and option lemmas, the hint
      database and the tactics of the library.
    - Errors: Go errors as values, wrapping, [errors.Is], [errors.Join].
    - Runtime: the effect monad [M]: virtual time, contexts with deadlines and
      cancellation, [select], timers, panics, deferred calls, blocking.
    - Lifecycle (core/lifecycle.go): concurrent [Start], [Stop] and [WaitReady] as
      a transition system over the struct, its mutex and the ready channel, one
      program counter per goroutine.
    - Retry (core/retry/retry.go): [Do] with its backoff, jitter and cancellation.
    - Hooks (core/hooks.go, core/otelkit/hooks.go): the observability seam.
    - Health (core/healthkit/health.go): checks, registration, evaluation with
      cache and timeouts, the HTTP handler, in virtual time.
    - Runner (core/runner.go, core/component.go): options, health wiring, the
      start supervisor as a transition system, shutdown in virtual time, and [Run] as
      a relation that also covers a [Start] that panics or never returns.
    - Connect: the dialling step that PostgresDB and RedisCache share, over an
      interface to the driver.
    - TxManager (databasekit/txmanager.go): [WithTx], [QuerierFromContext], the
      readiness gate; the contract [TxLaws] of a provider; programs of statements
      and nested blocks, and their atomic meaning. Contract and meaning have a
      parameter [lossy]: whether a commit that reports an error may have taken
      effect and a savepoint whose rollback reports an error may stay.
    - Database (databasekit/adapter.go, database.go): the pgx adapters and
      [PostgresDB], which keep [TxLaws] with lossy failures if pgx keeps [PgxLaws],
      its documented behaviour.
    - Cache (cachekit): the interfaces, [RedisCache], [MemoryCache]; the contract
      [CacheLaws] of a cache, which both keep.
    - Worker (workerkit): enqueue options, the asynq client and server components,
      the in-memory client.
    - Strconv, Utf8, Json, Rfc3339, JsonStruct: what the code uses of strconv,
      unicode/utf8, encoding/json and the JSON of package time, on bytes: the
      scanner and the printer of JSON values, the contents of string literals,
      numbers and times, structs read and written by the names of their fields;
      and cachekit's [JSONCodec] over them. [ToJson], [FromJson] and [JsonLaws] are
      what a type promises.
    - Server (serverkit/server.go): the HTTP server component, the router and JSON
      error responses.
    - Orders (examples/orders: order.go, repository.go, service.go, config.go,
      worker.go): proved against [TxLaws], [QueryLaws] and [CacheLaws].
    - Handlers (examples/orders/handler.go): from the bytes of a request to the
      bytes of the response.
    - Trace (core/trace_handler.go): the slog handler that adds trace identifiers.
    - Flight (core/healthkit/health.go): concurrent evaluations with singleflight,
      as a transition system, and what the labels of a run say of its results.
    - Stack: the order service on [PostgresDB] and [RedisCache] with the JSON codec.
    - System: the runner's supervisor, the [Lifecycle] of each of its services and
      the shutdown loop, composed into one transition system.
    - App (examples/orders/main.go, tracing.go): the function run: configuration,
      tracing, the wiring of all components, [Run], and the deferred flush.

    ** How the code is modelled

    Sequential code is a function of the monad [M S] over the state [S] it touches;
    a closure that assigns a captured variable runs on the state with that variable
    ([with_local], [local_provider]). Time is a clock in nanoseconds that calls
    move; a context is the instant and the error of its end; a channel that is only
    closed is the instant of its closing. Outcomes are return, panic and blocking
    for ever, and theorems that something returns say so. Integers are [Z] with the
    wrap-around of int64 written out where the code can overflow. Code that is
    concurrent by nature (Lifecycle, the start supervisor, Flight, System) is a partial
    step function on labels, a label naming the goroutine that moves and what its
    environment answers; theorems quantify over all interleavings. The atomic
    steps are those between which another goroutine can observe a difference: a
    critical section that calls nothing is one step, the calls out of it are not.

    Code outside the repository is a parameter: pgx, go-redis, asynq, net/http,
    chi, slog, singleflight, crypto/rand, the OpenTelemetry meter and SDK and CIDR
    parsing; so are the local time zone and the texts of encoding/json's errors. What the code relies on is stated as the laws of
    a class ([PgxLaws], [PoolLaws], [RedisLaws], [AsynqLaws], [SingleflightLaws])
    and every law has an instance, so that no theorem is vacuous.

    ** What the theorems show

    - Lifecycle: a stop closure runs at most once, and exactly once when the
      goroutines are done; ready implies that the closure is registered, and a
      [Start] that [Stop] has overtaken never signals; every schedule ends.
    - Retry: how often and when the function is called and what [Do] returns,
      the length of every single sleep and its bounds on int64, cancellation.
    - Health and Flight: an evaluation reports exactly the failing checks, is
      cached for the TTL, ends within the timeouts; under concurrency, one
      evaluation per kind, true and fresh results for every caller, no caller
      waits for ever.
    - Runner: when the services have started or failed, all of them are stopped
      exactly once in reverse order whatever fails, within the budget; what [Run]
      returns of the start error and the stop errors; the result of the supervisor;
      wiring of hooks and checks.
    - TxManager and Database: nested transactions refine all-or-nothing blocks,
      also when operations of the database fail and when the function panics; what
      may remain of a block when its commit or the rollback of its savepoint
      fails; the same of PostgresDB over pgx; no pool leaks.
    - Cache: both caches are maps that may lose entries, MemoryCache is exactly a
      map; no client leaks.
    - System: in every interleaving of the whole, what a service acquired has been
      released exactly once when [Run] is over, a service is stopped only after all
      that were registered after it, and every run ends.
    - Worker and Server: options, readiness gate, bounded stop; router; error
      responses are read back.
    - Orders and Stack: an order is placed entirely or not at all, reads are
      current while no invalidation and no commit fails, products survive the JSON
      codec of the cache, totals and their overflow, a race that leaves a stale
      entry; and that this holds on PostgreSQL and Redis.
    - Handlers: what the endpoints answer to every body and which effect they have;
      requests are decoded as they were sent and unknown members refused,
      responses are read back.
    - App: what main.go wires in every environment, the routes of the service
      included, and that it releases all of it, the HTTP server first, the database
      last and then the tracer, and which exit status it ends with.

    ** Bounds and fuel

    Only the parser of JSON values has fuel: two calls per byte, which is enough
    ([value_fuel], [parse_total]), because every value uses up a byte; nesting is
    limited to 10000 as in encoding/json. [month_of] tries the twelve months. All
    else is structural: [Do] recurs on the attempts left, the shutdown loop on the
    index, the scanners on the text. Transition systems have measures that bound the
    length of every run.

    ** Not modelled

    The attributes of log lines, and their texts except where a theorem speaks of
    them; headers of HTTP requests, those of responses other than Content-Type, and
    errors of writing a response; row locks (the relation of the SQL statements is
    sequential, so FOR UPDATE changes nothing in it);
    the routing of chi and the muxes of net/http and asynq, of which the models
    keep what is registered; offsets of time zones that are not whole minutes; TTL
    expiry inside caches other than as loss of entries. Planned: multi-row queries
    end to end, the components' [Connect] closures inside the composed system. *)

From stdpp Require Import base list list_numbers numbers strings pretty gmap.
From Stdlib Require Import ZArith Lia.

(** ** Scopes and notations *)

Declare Scope go_scope.
Delimit Scope go_scope with go.

(** ** Machine integers

    Go's [int64], [int] and [time.Duration] are 64-bit two's complement. A
    value is a [Z]; every arithmetic operation of the source that can leave the
    range is wrapped explicitly with [wrap64]. *)

Definition min_int64 : Z := (- 2 ^ 63)%Z.
Definition max_int64 : Z := (2 ^ 63 - 1)%Z.

Definition wrap64 (z : Z) : Z := ((z + 2 ^ 63) mod 2 ^ 64 - 2 ^ 63)%Z.

Definition in_int64 (z : Z) : Prop := (min_int64 ≤ z ≤ max_int64)%Z.

(** Saturation, as [time.Time.Sub] does when a difference overflows. *)
Definition sat64 (z : Z) : Z := Z.max min_int64 (Z.min max_int64 z).

(** Untyped constants of package [time], in nanoseconds. *)
Definition Millisecond : Z := 1000000%Z.
Definition Second : Z := (1000 * Millisecond)%Z.

(** [1 << n] at type [int64] with a non-negative count. *)
Definition shl1_64 (n : Z) : Z := wrap64 (Z.shiftl 1 n).

(** Integer division of Go truncates toward zero. *)
Definition quot64 (a b : Z) : Z := wrap64 (Z.quot a b).

Definition mul64 (a b : Z) : Z := wrap64 (a * b).
Definition add64 (a b : Z) : Z := wrap64 (a + b).
Definition sub64 (a b : Z) : Z := wrap64 (a - b).

(** Decimal rendering of an integer, [%d]. *)
Definition sprint_d (z : Z) : string := pretty z.

(** ** Labelled transition systems

    Concurrent components are modelled as a partial step function on labels:
    [step l s = Some s'] when the action [l] (which goroutine moves, and what
    its environment answers) is enabled in [s]. Interleavings are sequences of
    labels, so runs can be evaluated. *)

Section LTS.
Context {St L : Type} (step : L → St → option St).

Fixpoint run_labels (ls : list L) (s : St) : option St :=
  match ls with
  | [] => Some s
  | l :: ls' => match step l s with Some s' => run_labels ls' s' | None => None end
  end.

Inductive reachable (s0 : St) : St → Prop :=
| reach_refl : reachable s0 s0
| reach_step s l s' : reachable s0 s → step l s = Some s' → reachable s0 s'.

Lemma reachable_trans s0 s1 s2 :
  reachable s0 s1 → reachable s1 s2 → reachable s0 s2.
Proof. intros H1. induction 1; eauto using reachable. Qed.

Lemma reachable_front s0 l s1 s2 :
  step l s0 = Some s1 → reachable s1 s2 → reachable s0 s2.
Proof. intros Hs. apply reachable_trans. eauto using reachable. Qed.

Lemma run_labels_reachable ls s s' : run_labels ls s = Some s' → reachable s s'.
Proof.
  revert s. induction ls as [|l ls IH]; intros s H; simpl in H.
  - injection H as <-. constructor.
  - destruct (step l s) as [s1|] eqn:E; [|done].
    eapply reachable_front; eauto.
Qed.

Lemma run_labels_app ls1 ls2 s :
  run_labels (ls1 ++ ls2) s = run_labels ls1 s ≫= run_labels ls2.
Proof.
  revert s. induction ls1 as [|l ls1 IH]; intros s; simpl; [done|].
  destruct (step l s); [apply IH|done].
Qed.

Lemma reachable_run_labels s s' :
  reachable s s' → ∃ ls, run_labels ls s = Some s'.
Proof.
  induction 1 as [|s1 l s2 _ [ls IH] Hstep]; [by exists []|].
  exists (ls ++ [l]). rewrite run_labels_app, IH. simpl. by rewrite Hstep.
Qed.

(** Rule induction on reachability: an invariant that holds initially and is
    preserved by every step holds in every reachable state. *)
Lemma invariant_reachable (I : St → Prop) s0 s :
  I s0 → (∀ l s1 s2, I s1 → step l s1 = Some s2 → I s2) →
  reachable s0 s → I s.
Proof. intros H0 Hstep. induction 1; eauto. Qed.

(** A [nat] measure that every step decreases bounds the length of runs. *)
Lemma run_labels_measure (m : St → nat) ls s s' :
  (∀ l s1 s2, step l s1 = Some s2 → m s2 < m s1) →
  run_labels ls s = Some s' → length ls + m s' ≤ m s.
Proof.
  intros Hm. revert s. induction ls as [|l ls IH]; intros s H; simpl in *.
  - injection H as <-. lia.
  - destruct (step l s) as [s1|] eqn:E; [|done].
    specialize (Hm _ _ _ E). specialize (IH _ H). lia.
Qed.
End LTS.

(** The last positive value among those given, or else the default. *)
Definition last_positive (dflt : Z) (l : list Z) : Z :=
  foldl (λ acc n, if (n >? 0)%Z then n else acc) dflt l.

(** ** Generic lemmas *)

Lemma wrap64_id z : in_int64 z → wrap64 z = z.
Proof.
  unfold in_int64, wrap64, min_int64, max_int64. intros H.
  rewrite Z.mod_small; lia.
Qed.

Lemma wrap64_range z : in_int64 (wrap64 z).
Proof.
  unfold in_int64, wrap64, min_int64, max_int64.
  pose proof (Z.mod_pos_bound (z + 2 ^ 63) (2 ^ 64)). lia.
Qed.

(** The value of a wrapped integer differs from the exact one by a multiple of
    [2^64]. *)
Lemma wrap64_cong z : ∃ k, wrap64 z = (z + k * 2 ^ 64)%Z.
Proof.
  unfold wrap64. exists (- ((z + 2 ^ 63) / 2 ^ 64))%Z.
  pose proof (Z.div_mod (z + 2 ^ 63) (2 ^ 64)). lia.
Qed.

Lemma flat_map_insert_perm {A B} (f : A → list B) (l : list A) i x :
  l !! i = Some x →
  ∃ rest, flat_map f l ≡ₚ f x ++ rest ∧
          ∀ y, flat_map f (<[i:=y]> l) ≡ₚ f y ++ rest.
Proof.
  intros Hi. exists (flat_map f (take i l ++ drop (S i) l)).
  split; [|intros y].
  - rewrite <-(take_drop_middle l i x Hi) at 1.
    rewrite !flat_map_app. simpl. rewrite Permutation_app_swap_app. done.
  - rewrite insert_take_drop by (by eapply lookup_lt_Some).
    rewrite !flat_map_app. simpl. rewrite Permutation_app_swap_app. done.
Qed.

Lemma Forall_insert_at {A} (P : A → Prop) (l : list A) i y :
  Forall P l → P y → Forall P (<[i:=y]> l).
Proof. intros. by apply Forall_insert. Qed.

Lemma NoDup_sub {A} (l k : list A) : l ⊆+ k → NoDup k → NoDup l.
Proof.
  intros [k' Hk]%submseteq_Permutation. rewrite Hk, NoDup_app. tauto.
Qed.

Lemma Forall_submseteq {A} (P : A → Prop) (l k : list A) : l ⊆+ k → Forall P k → Forall P l.
Proof.
  intros [k' Hk]%submseteq_Permutation. rewrite Hk, Forall_app. tauto.
Qed.

(** Replacing one element of a list changes a count by that element's share. *)
Definition count {A} (f : A → bool) (l : list A) : nat := length (List.filter f l).

Lemma count_insert {A} (f : A → bool) (l : list A) i x y :
  l !! i = Some x →
  count f (<[i:=y]> l) + (if f x then 1 else 0) = count f l + (if f y then 1 else 0).
Proof.
  unfold count. revert i. induction l as [|z l IH]; intros [|i] H; simplify_eq/=.
  - destruct (f x), (f y); simpl; lia.
  - specialize (IH _ H). destruct (f z); simpl; lia.
Qed.

Lemma count_0 {A} (f : A → bool) (l : list A) i x :
  count f l = 0 → l !! i = Some x → f x = false.
Proof.
  unfold count. revert i. induction l as [|z l IH]; intros [|i] H0 H; simplify_eq/=.
  - by destruct (f x).
  - destruct (f z); [done|]. eauto.
Qed.

Lemma count_1_unique {A} (f : A → bool) (l : list A) i j x y :
  count f l ≤ 1 → l !! i = Some x → l !! j = Some y → f x = true → f y = true → i = j.
Proof.
  unfold count. revert i j. induction l as [|z l IH]; intros i j Hc Hi Hj Hx Hy; [done|].
  destruct i as [|i], j as [|j]; simplify_eq/=; [done|..].
  - rewrite Hx in Hc. simpl in Hc. exfalso.
    assert (count f l = 0) as H0 by (unfold count; lia).
    pose proof (count_0 f l j y H0 Hj). congruence.
  - rewrite Hy in Hc. simpl in Hc. exfalso.
    assert (count f l = 0) as H0 by (unfold count; lia).
    pose proof (count_0 f l i x H0 Hi). congruence.
  - f_equal. apply (IH i j); try done. destruct (f z); simpl in Hc; lia.
Qed.

Lemma list_sum_insert_lt {A} (f : A → nat) (l : list A) i x y :
  l !! i = Some x → f y < f x →
  list_sum (map f (<[i:=y]> l)) < list_sum (map f l).
Proof.
  revert i. induction l as [|z l IH]; intros [|i] H Hlt; simplify_eq/=; [lia|].
  specialize (IH _ H Hlt). lia.
Qed.

Lemma list_max_ge (l : list nat) x : In x l → x ≤ list_max l.
Proof. induction l as [|y l IH]; simpl; [done|]. intros [->|Hx]; [lia|]. specialize (IH Hx). lia. Qed.

Lemma last_positive_default d l :
  last_positive d l = if (last_positive 0 l >? 0)%Z then last_positive 0 l else d.
Proof.
  unfold last_positive. induction l as [|n l IH] using rev_ind; [done|].
  rewrite !foldl_app. simpl. destruct (Z.gtb_spec n 0) as [H|H].
  - by destruct (Z.gtb_spec n 0); [|lia].
  - exact IH.
Qed.

Lemma last_positive_pos d l : (0 < d)%Z → (0 < last_positive d l)%Z.
Proof.
  unfold last_positive. revert d. induction l as [|n l IH]; intros d Hd; simpl; [done|].
  apply IH. destruct (Z.gtb_spec n 0); lia.
Qed.

(** ** Automation *)

Create HintDb bootkit.
Create Rewrite HintDb go_errors.

#[export] Hint Resolve wrap64_range wrap64_id run_labels_reachable : bootkit.
#[export] Hint Constructors reachable : bootkit.

(** Goals about the range of int64. *)
Ltac int64 := unfold in_int64, min_int64, max_int64 in *; first [done | lia | nia].

(** Case analysis on every [match] and [if] that blocks the hypothesis [H] or
    the goal, closing the impossible branches. *)
Ltac destruct_matches :=
  repeat (case_match; simplify_eq/=; try done).

Ltac destruct_matches_in H :=
  lazymatch type of H with
  | context [match ?x with _ => _ end] =>
      let E := fresh "E" in
      destruct x eqn:E; simplify_eq/=; try done;
      try destruct_matches_in E; try destruct_matches_in H
  | _ => idtac
  end.

Ltac Zbool :=
  repeat match goal with
  | H : (_ <=? _)%Z = true |- _ => apply Z.leb_le in H
  | H : (_ <=? _)%Z = false |- _ => apply Z.leb_gt in H
  | H : (_ <? _)%Z = true |- _ => apply Z.ltb_lt in H
  | H : (_ <? _)%Z = false |- _ => apply Z.ltb_ge in H
  | H : (_ =? _)%Z = true |- _ => apply Z.eqb_eq in H
  | H : (_ =? _)%Z = false |- _ => apply Z.eqb_neq in H
  end.
