(* ===== verification/Errors.v ===== *)
(** * Errors of Go: values, wrapping, [errors.Is] and [errors.Join]

    An [error] value of the source is a tree: a sentinel compared by identity,
    an error made on the spot, an error formatted with [%w] verbs, or a joined
    error. The nil error is [None]. *)

From stdpp Require Import base list strings.
From Stdlib Require Import Ascii.
From S2P Require Import Prelude.

(** The package-level error variables that the code compares by identity. *)
Inductive sentinel : Type :=
| Canceled | DeadlineExceeded            (* context *)
| ErrNoRows | ErrTxClosed                (* databasekit *)
| pgx_ErrNoRows | pgx_ErrTxClosed        (* pgx *)
| ErrCacheMiss                           (* cachekit *)
| redis_Nil                              (* go-redis *)
| ErrNotFound | ErrInsufficientStock     (* examples/orders *)
| ErrServerClosed.                       (* net/http *)

#[global] Instance sentinel_eq_dec : EqDecision sentinel.
Proof. solve_decision. Defined.

Inductive error : Type :=
| Sentinel (s : sentinel)
| ErrorString (msg : string)
| WrapError (msg : string) (errs : list error)
| JoinError (errs : list error).

Definition sentinel_text (s : sentinel) : string :=
  match s with
  | Canceled => "context canceled"
  | DeadlineExceeded => "context deadline exceeded"
  | ErrNoRows => "databasekit: no rows in result set"
  | ErrTxClosed => "databasekit: transaction is closed"
  | pgx_ErrNoRows => "no rows in result set"
  | pgx_ErrTxClosed => "tx is closed"
  | ErrCacheMiss => "cache miss"
  | redis_Nil => "redis: nil"
  | ErrNotFound => "not found"
  | ErrInsufficientStock => "insufficient stock"
  | ErrServerClosed => "http: Server closed"
  end.

(** The newline that [errors.Join] puts between messages. *)
Definition newline : string := String "010"%char EmptyString.

(** [err.Error()]. *)
Fixpoint Error (e : error) : string :=
  match e with
  | Sentinel s => sentinel_text s
  | ErrorString m => m
  | WrapError m _ => m
  | JoinError es => String.concat newline (map Error es)
  end.

(** [errors.Is(err, target)] for a sentinel target. *)
Fixpoint errors_Is (e : error) (target : sentinel) : bool :=
  match e with
  | Sentinel s => bool_decide (s = target)
  | ErrorString _ => false
  | WrapError _ es => existsb (λ e', errors_Is e' target) es
  | JoinError es => existsb (λ e', errors_Is e' target) es
  end.

(** [errors.Is] on a possibly nil error. *)
Definition Is (e : option error) (target : sentinel) : bool :=
  match e with Some e' => errors_Is e' target | None => false end.

(** [errors.Join]: nil when there is no error. *)
Definition errors_Join (es : list error) : option error :=
  match es with [] => None | _ => Some (JoinError es) end.

(** [fmt.Errorf(prefix + "%w" , err)], the shape most call sites use. *)
Definition Errorf_w (prefix : string) (e : error) : error :=
  WrapError (prefix +:+ Error e) [e].

(** ** Lemmas *)

Lemma errors_Is_Errorf_w p e t : errors_Is (Errorf_w p e) t = errors_Is e t.
Proof. simpl. by rewrite orb_false_r. Qed.

Lemma errors_Join_None es : errors_Join es = None ↔ es = [].
Proof. by destruct es. Qed.

Lemma errors_Join_Is es t :
  Is (errors_Join es) t = existsb (λ e, errors_Is e t) es.
Proof. by destruct es. Qed.

Lemma existsb_elem {A} (f : A → bool) (l : list A) :
  existsb f l = true ↔ ∃ x, x ∈ l ∧ f x = true.
Proof.
  rewrite existsb_exists. by setoid_rewrite list_elem_of_In.
Qed.

Lemma existsb_perm {A} (f : A → bool) (l1 l2 : list A) :
  l1 ≡ₚ l2 → existsb f l1 = existsb f l2.
Proof.
  induction 1; simpl; try congruence.
  by rewrite !orb_assoc, (orb_comm (f y)).
Qed.

(** Errors that report the same set of causes: the order in which joined
    errors arrive does not matter to [errors.Is]. *)
Definition same_causes (e1 e2 : option error) : Prop :=
  ∀ t, Is e1 t = Is e2 t.

#[global] Instance same_causes_equiv : Equivalence same_causes.
Proof.
  split.
  - by intros e t.
  - intros e1 e2 H t. by rewrite H.
  - intros e1 e2 e3 H1 H2 t. by rewrite H1.
Qed.

#[global] Instance errors_Join_proper :
  Proper ((≡ₚ) ==> same_causes) errors_Join.
Proof.
  intros l1 l2 Hp t. rewrite !errors_Join_Is. by apply existsb_perm.
Qed.

#[export] Hint Rewrite errors_Is_Errorf_w errors_Join_Is : go_errors.
