(* ===== verification/Runtime.v ===== *)
(** * The Go runtime the components rely on

    Virtual time, contexts, channel waits and the effect monad.

    A sequential computation is a function on a [World]: the current instant of
    a virtual clock (nanoseconds), the outcomes of the runtime's free choices
    between ready [select] branches, and the state [S] the computation works
    on. It returns, panics or blocks for ever. The environment (when a context
    is cancelled, when a channel is closed, how long a call takes) is given by
    instants, and the theorems quantify over all of them. *)

From stdpp Require Import base list strings.
From Stdlib Require Import ZArith Lia.
From S2P Require Import Prelude Errors.

(** ** Outcomes and the effect monad *)

Inductive Result (A : Type) : Type :=
| Ret (a : A)
| Panic (msg : string)
| Block.
Arguments Ret {A} a.
Arguments Panic {A} msg.
Arguments Block {A}.

Record World (S : Type) : Type := mkWorld {
  clock : Z;            (* time.Now(), in nanoseconds *)
  coins : list bool;    (* pending choices between ready select branches *)
  heap  : S
}.
Arguments mkWorld {S} _ _ _.
Arguments clock {S} _.
Arguments coins {S} _.
Arguments heap {S} _.

Definition M (S A : Type) : Type := World S → Result A * World S.

Definition ret {S A} (a : A) : M S A := λ w, (Ret a, w).

Definition bind {S A B} (m : M S A) (k : A → M S B) : M S B := λ w,
  match m w with
  | (Ret a, w') => k a w'
  | (Panic p, w') => (Panic p, w')
  | (Block, w') => (Block, w')
  end.

Definition mpanic {S A} (msg : string) : M S A := λ w, (Panic msg, w).
Definition mget {S} : M S S := λ w, (Ret (heap w), w).
Definition mput {S} (s : S) : M S unit := λ w, (Ret tt, mkWorld (clock w) (coins w) s).
Definition mmodify {S} (f : S → S) : M S unit := λ w,
  (Ret tt, mkWorld (clock w) (coins w) (f (heap w))).

(** [time.Now()]. *)
Definition now {S} : M S Z := λ w, (Ret (clock w), w).

Notation "x <- m ;; k" := (bind m (λ x, k))
  (at level 100, m at next level, right associativity) : go_scope.
Notation "m ;;; k" := (bind m (λ _, k))
  (at level 100, k at level 200, right associativity) : go_scope.

(** [defer d] in a function whose remaining body is [m]: [d] runs when [m]
    returns and when it panics; its result is discarded, but its own panic
    replaces the outcome. *)
Definition with_defer {S A B} (m : M S A) (d : M S B) : M S A := λ w,
  match m w with
  | (Block, w') => (Block, w')
  | (r, w') =>
      match d w' with
      | (Ret _, w'') => (r, w'')
      | (Panic p, w'') => (Panic p, w'')
      | (Block, w'') => (Block, w'')
      end
  end.

(** Running a computation on one part of a larger state. *)
Definition zoom {S T A} (get : T → S) (set : S → T → T) (m : M S A) : M T A := λ w,
  let '(r, w') := m (mkWorld (clock w) (coins w) (get (heap w))) in
  (r, mkWorld (clock w') (coins w') (set (heap w') (heap w))).

(** A variable [l] local to the function whose body is [m], captured by the
    closures it makes. *)
Definition with_local {S L A} (l : L) (m : M (S * L) A) : M S (A * L) := λ w,
  let '(r, w') := m (mkWorld (clock w) (coins w) (heap w, l)) in
  (match r with
   | Ret a => Ret (a, (heap w').2)
   | Panic p => Panic p
   | Block => Block
   end, mkWorld (clock w') (coins w') (heap w').1).

(** ** Time *)

(** The clock never runs backwards. *)
Definition advance_to {S} (t : Z) (w : World S) : World S :=
  mkWorld (Z.max (clock w) t) (coins w) (heap w).

(** A channel that is only ever closed (a [chan struct{}] used as a signal, a
    timer, [ctx.Done()]) is the instant at which it becomes ready. *)
Definition Signal : Type := option Z.

(** [select] over two such channels: the earlier one wins; when both are ready
    at the same instant the runtime picks either. [true] is the first branch. *)
Definition select2 {S} (a b : Signal) : M S bool := λ w,
  match a, b with
  | None, None => (Block, w)
  | Some ta, None => (Ret true, advance_to ta w)
  | None, Some tb => (Ret false, advance_to tb w)
  | Some ta, Some tb =>
      let ta' := Z.max (clock w) ta in
      let tb' := Z.max (clock w) tb in
      if (ta' <? tb')%Z then (Ret true, advance_to ta w)
      else if (tb' <? ta')%Z then (Ret false, advance_to tb w)
      else match coins w with
           | c :: cs => (Ret c, mkWorld ta' cs (heap w))
           | [] => (Ret true, advance_to ta w)
           end
  end.

(** [time.NewTimer(d).C]: ready at once when [d] is not positive. *)
Definition NewTimer {S} (d : Z) : M S Signal := λ w,
  (Ret (Some (clock w + Z.max 0 d)%Z), w).

(** Work outside the model that takes [d] and yields [a]. *)
Definition takes {S A} (d : Z) (a : A) : M S A := λ w,
  (Ret a, advance_to (clock w + d) w).

(** ** Contexts *)

(** When the context becomes done and with which error; and the framework
    transaction stored in it under the private key [txKey], as a handle. *)
Record Context : Type := mkContext {
  ctx_done : option (Z * error);
  ctx_tx : option nat
}.

Definition Background : Context := mkContext None None.

Definition Done (ctx : Context) : Signal := fst <$> ctx_done ctx.

(** [ctx.Err()] at an instant. *)
Definition Err_at (ctx : Context) (t : Z) : option error :=
  match ctx_done ctx with
  | Some (d, e) => if (d <=? t)%Z then Some e else None
  | None => None
  end.

Definition ctx_Err {S} (ctx : Context) : M S (option error) := λ w,
  (Ret (Err_at ctx (clock w)), w).

(** [context.WithTimeout(parent, d)] called at instant [t]: done at the earlier
    of the parent and the timer; a parent that is already done wins. *)
Definition WithTimeout (parent : Context) (t d : Z) : Context :=
  let dl := (t + Z.max 0 d)%Z in
  match ctx_done parent with
  | Some (p, e) =>
      if (p <=? dl)%Z then parent
      else mkContext (Some (dl, Sentinel DeadlineExceeded)) (ctx_tx parent)
  | None => mkContext (Some (dl, Sentinel DeadlineExceeded)) (ctx_tx parent)
  end.

(** [context.WithValue(ctx, txKey{}, tx)]. *)
Definition WithTxValue (parent : Context) (tx : nat) : Context :=
  mkContext (ctx_done parent) (Some tx).

(** A context whose error, once done, is never nil. [ctx_done] stores an
    [error], so this holds by construction; what can fail to hold is that the
    error is one of the two the package defines. *)
Definition std_ctx (ctx : Context) : Prop :=
  match ctx_done ctx with
  | Some (_, e) => e = Sentinel Canceled ∨ e = Sentinel DeadlineExceeded
  | None => True
  end.

(** ** Lemmas *)

Section MonadLaws.
Context {S : Type}.

Lemma bind_ret_l {A B} (a : A) (k : A → M S B) w : bind (ret a) k w = k a w.
Proof. done. Qed.

Lemma bind_assoc {A B C} (m : M S A) (k : A → M S B) (h : B → M S C) w :
  bind (bind m k) h w = bind m (λ a, bind (k a) h) w.
Proof. unfold bind. by destruct (m w) as [[] ?]. Qed.

Lemma bind_Ret {A B} (m : M S A) (k : A → M S B) w a w' :
  m w = (Ret a, w') → bind m k w = k a w'.
Proof. unfold bind. by intros ->. Qed.

Lemma bind_Ret_inv {A B} (m : M S A) (k : A → M S B) w b w2 :
  bind m k w = (Ret b, w2) → ∃ a w1, m w = (Ret a, w1) ∧ k a w1 = (Ret b, w2).
Proof. unfold bind. destruct (m w) as [[a| |] w1] eqn:E; try done. eauto. Qed.
End MonadLaws.

(** Running the next call: [H] says what it returns. *)
Tactic Notation "run" uconstr(H) := rewrite (bind_Ret _ _ _ _ _ H).
Tactic Notation "run" uconstr(H) "in" hyp(K) := rewrite (bind_Ret _ _ _ _ _ H) in K.

(** The clock of a computation does not run backwards. *)
Definition monotone {S A} (m : M S A) : Prop :=
  ∀ w, (clock w ≤ clock (m w).2)%Z.

(** A computation that returns without taking time. *)
Definition instant {S A} (m : M S A) : Prop :=
  ∀ w, ∃ a w', m w = (Ret a, w') ∧ clock w' = clock w.

Lemma instant_ret {S A} (a : A) : instant (S:=S) (ret a).
Proof. intros w. by eexists _, _. Qed.

Section Monotone.
Context {S : Type}.

Lemma monotone_ret {A} (a : A) : monotone (S:=S) (ret a).
Proof. intros w. simpl. lia. Qed.

Lemma monotone_bind {A B} (m : M S A) (k : A → M S B) :
  monotone m → (∀ a, monotone (k a)) → monotone (bind m k).
Proof.
  intros Hm Hk w. unfold bind. specialize (Hm w).
  destruct (m w) as [[a| |] w1]; simpl in *; [|lia..].
  specialize (Hk a w1). lia.
Qed.

Lemma monotone_select2 a b : monotone (S:=S) (select2 a b).
Proof.
  intros w. unfold select2. destruct a, b; simpl; try lia.
  destruct (_ <? _)%Z; simpl; [lia|].
  destruct (_ <? _)%Z; simpl; [lia|].
  destruct (coins w); simpl; lia.
Qed.

Lemma monotone_takes {A} d (a : A) : monotone (S:=S) (takes d a).
Proof. intros w. simpl. lia. Qed.
End Monotone.

(** What a [select] over two signals can have seen. *)
Lemma select2_cases {S} a b (w w' : World S) c :
  select2 a b w = (Ret c, w') →
  heap w' = heap w ∧ (clock w ≤ clock w')%Z ∧
  ∃ t, (if c then a else b) = Some t ∧ clock w' = Z.max (clock w) t ∧
       match (if c then b else a) with
       | Some t' => (clock w' ≤ Z.max (clock w) t')%Z
       | None => True
       end.
Proof.
  unfold select2, advance_to.
  destruct a as [ta|], b as [tb|]; intros H; simplify_eq/=.
  - destruct (Z.ltb_spec (Z.max (clock w) ta) (Z.max (clock w) tb));
      [simplify_eq/=|
       destruct (Z.ltb_spec (Z.max (clock w) tb) (Z.max (clock w) ta));
         [simplify_eq/=|destruct (coins w) as [|[] cs]; simplify_eq/=]];
      (split; [done|split; [lia|eexists; split; [done|lia]]]).
  - split; [done|]. split; [lia|]. eauto.
  - split; [done|]. split; [lia|]. eauto.
Qed.

Lemma select2_returns {S} a b (w : World S) :
  a ≠ None ∨ b ≠ None → ∃ c w', select2 a b w = (Ret c, w').
Proof.
  unfold select2. intros H. destruct a as [ta|], b as [tb|]; eauto; [|naive_solver].
  destruct (_ <? _)%Z; [eauto|]. destruct (_ <? _)%Z; [eauto|].
  destruct (coins w); eauto.
Qed.

Lemma Err_at_mono ctx t t' e :
  (t ≤ t')%Z → Err_at ctx t = Some e → Err_at ctx t' = Some e.
Proof.
  unfold Err_at. destruct (ctx_done ctx) as [[d e']|]; [|done].
  intros Ht H. destruct (Z.leb_spec d t); [|done].
  destruct (Z.leb_spec d t'); [done|lia].
Qed.

(** A derived context is done no later than its own deadline. *)
Lemma WithTimeout_deadline parent t d :
  ∃ t' e, ctx_done (WithTimeout parent t d) = Some (t', e) ∧
          (t' ≤ t + Z.max 0 d)%Z.
Proof.
  unfold WithTimeout. destruct (ctx_done parent) as [[p e]|] eqn:E.
  - destruct (Z.leb_spec p (t + Z.max 0 d)%Z); simpl;
      [rewrite E|]; (eexists _, _; split; [done|lia]).
  - eexists _, _; split; [done|lia].
Qed.

(** A child of a context that is done is done at once, with the same error. *)
Lemma WithTimeout_done parent t d e :
  Err_at parent t = Some e → WithTimeout parent t d = parent.
Proof.
  unfold Err_at, WithTimeout. destruct (ctx_done parent) as [[p e']|]; [|done].
  destruct (Z.leb_spec p t); [|done]. intros [= ->].
  destruct (Z.leb_spec p (t + Z.max 0 d)); [done|lia].
Qed.

#[export] Hint Resolve monotone_ret monotone_bind monotone_select2 monotone_takes : bootkit.
