(* ===== verification/Lifecycle.v ===== *)
(** * core/lifecycle.go: the embeddable start/stop primitive

    [Lifecycle] is shared by concurrent callers of [Start], [Stop] and
    [WaitReady]. The model is a labelled transition system: one program counter
    per goroutine, the shared struct, and a record of the stop closures that
    [Connect] has handed out and of the ones that were invoked. A label says
    which goroutine moves and, where the code asks its environment (Connect, a
    stop closure, the context), what it answers.

    The sequential readers [WaitReady] used by the other components are at the
    end, as computations of the effect monad. *)

From stdpp Require Import base list strings.
From Stdlib Require Import ZArith Lia.
From S2P Require Import Prelude Errors Runtime.

(** ** State *)

(** The struct. A stop closure is named by the number of the [Connect] call
    that returned it; [ready] is [None] until [readyOnce] has made the channel,
    then whether it is closed. *)
Record Lifecycle : Type := mkLifecycle {
  Connect_set : bool;          (* l.Connect != nil *)
  mu : option nat;             (* the goroutine that holds l.mu *)
  ready : option bool;
  stopFunc : option nat;
  stopped : bool
}.

Definition NewLifecycle (connect : bool) : Lifecycle :=
  mkLifecycle connect None None None false.

(** Where a goroutine is. *)
Inductive pc : Type :=
(* Start *)
| SInit                                (* about to call l.initReady *)
| SCheck                               (* about to test l.Connect == nil *)
| SConnect                             (* inside l.Connect(ctx) *)
| SLock (stop : option nat)            (* about to take l.mu *)
| SAbort (stop : option nat)           (* saw l.stopped: about to run stop *)
| SClose                               (* about to close(l.ready) *)
| SWait                                (* <-ctx.Done() *)
(* Stop *)
| PLock                                (* about to take l.mu *)
| PHeld                                (* holds l.mu *)
| PRun (c : nat)                       (* holds l.mu, inside l.stopFunc(ctx) *)
(* Ready / WaitReady *)
| RInit
| RWait
(* finished *)
| Finished (err : option error)
| Crashed.                             (* panic *)

(** What the environment answers when the moving goroutine asks it. *)
Inductive answer : Type :=
| Go                                   (* nothing is asked *)
| ConnectOk (has_stop : bool)          (* Connect returned (stop, nil) *)
| ConnectErr (e : error)               (* Connect returned an error *)
| ClosureRet (e : option error)        (* a stop closure returned *)
| CtxDone (e : error).                 (* ctx.Done() fired; e = ctx.Err() *)

Record State : Type := mkState {
  lc : Lifecycle;
  threads : list pc;
  connects : list bool;      (* Connect calls that succeeded, and whether each
                                returned a non-nil stop closure *)
  invoked : list nat         (* stop closures that have returned, latest first *)
}.

(** ** Operations *)

(** [initReady]: [readyOnce] makes the channel on the first call only. *)
Definition initReady (l : Lifecycle) : Lifecycle :=
  match ready l with
  | None => mkLifecycle (Connect_set l) (mu l) (Some false) (stopFunc l) (stopped l)
  | Some _ => l
  end.

Definition set_mu (o : option nat) (l : Lifecycle) : Lifecycle :=
  mkLifecycle (Connect_set l) o (ready l) (stopFunc l) (stopped l).
Definition set_stopFunc (o : option nat) (l : Lifecycle) : Lifecycle :=
  mkLifecycle (Connect_set l) (mu l) (ready l) o (stopped l).
Definition set_stopped (l : Lifecycle) : Lifecycle :=
  mkLifecycle (Connect_set l) (mu l) (ready l) (stopFunc l) true.
Definition set_closed (l : Lifecycle) : Lifecycle :=
  mkLifecycle (Connect_set l) (mu l) (Some true) (stopFunc l) (stopped l).

Definition err_no_connect : error :=
  ErrorString "core.Lifecycle: Connect closure is not set".

(** The critical section of [Start] (lock, test, store, unlock). It calls
    nothing and cannot block once it has the lock, so it is one step. *)
Definition start_section (stop : option nat) (l : Lifecycle) : Lifecycle * pc :=
  if stopped l then (l, SAbort stop) else (set_stopFunc stop l, SClose).

(** What [Stop] does on entry to its critical section. The lock is kept while
    the closure runs and released by the deferred unlock. *)
Definition stop_section (l : Lifecycle) : Lifecycle * pc :=
  if stopped l then (set_mu None l, Finished None)
  else match stopFunc l with
       | Some c => (set_stopped l, PRun c)
       | None => (set_mu None (set_stopped l), Finished None)
       end.

(** One step of [Start]. *)
Definition step_start (p : pc) (a : answer) (s : State) : option (State * pc) :=
  let l := lc s in
  match p, a with
  | SInit, Go => Some (mkState (initReady l) (threads s) (connects s) (invoked s), SCheck)
  | SCheck, Go =>
      if Connect_set l then Some (s, SConnect) else Some (s, Finished (Some err_no_connect))
  | SConnect, ConnectErr e => Some (s, Finished (Some e))
  | SConnect, ConnectOk true =>
      Some (mkState l (threads s) (connects s ++ [true]) (invoked s),
            SLock (Some (length (connects s))))
  | SConnect, ConnectOk false =>
      Some (mkState l (threads s) (connects s ++ [false]) (invoked s), SLock None)
  | SLock stop, Go =>
      match mu l with
      | Some _ => None
      | None => let '(l', p') := start_section stop l in
                Some (mkState l' (threads s) (connects s) (invoked s), p')
      end
  | SAbort None, Go => Some (s, Finished None)
  | SAbort (Some c), ClosureRet e =>
      Some (mkState l (threads s) (connects s) (c :: invoked s), Finished e)
  | SClose, Go =>
      match ready l with
      | Some false => Some (mkState (set_closed l) (threads s) (connects s) (invoked s), SWait)
      | _ => Some (s, Crashed)
      end
  | SWait, CtxDone e => Some (s, Finished (Some e))
  | _, _ => None
  end.

(** One step of [Stop] by goroutine [i]. *)
Definition step_stop (i : nat) (p : pc) (a : answer) (s : State) : option (State * pc) :=
  let l := lc s in
  match p, a with
  | PLock, Go =>
      match mu l with
      | Some _ => None
      | None => Some (mkState (set_mu (Some i) l) (threads s) (connects s) (invoked s), PHeld)
      end
  | PHeld, Go =>
      let '(l', p') := stop_section l in
      Some (mkState l' (threads s) (connects s) (invoked s), p')
  | PRun c, ClosureRet e =>
      Some (mkState (set_mu None l) (threads s) (connects s) (c :: invoked s), Finished e)
  | _, _ => None
  end.

(** One step of [WaitReady]: [Ready()] makes the channel if needed, then the
    [select] takes whichever of readiness and [ctx.Done()] is available. *)
Definition step_wait (p : pc) (a : answer) (s : State) : option (State * pc) :=
  match p, a with
  | RInit, Go =>
      Some (mkState (initReady (lc s)) (threads s) (connects s) (invoked s), RWait)
  | RWait, Go =>
      match ready (lc s) with Some true => Some (s, Finished None) | _ => None end
  | RWait, CtxDone e => Some (s, Finished (Some e))
  | _, _ => None
  end.

Definition step_thread (i : nat) (p : pc) (a : answer) (s : State) : option (State * pc) :=
  match p with
  | SInit | SCheck | SConnect | SLock _ | SAbort _ | SClose | SWait => step_start p a s
  | PLock | PHeld | PRun _ => step_stop i p a s
  | RInit | RWait => step_wait p a s
  | Finished _ | Crashed => None
  end.

(** A crashed goroutine takes the process down: nothing moves after it. *)
Definition crashed (s : State) : bool :=
  existsb (λ p, match p with Crashed => true | _ => false end) (threads s).

Definition step (l : nat * answer) (s : State) : option State :=
  let '(i, a) := l in
  if crashed s then None else
  match threads s !! i with
  | None => None
  | Some p =>
      match step_thread i p a s with
      | None => None
      | Some (s', p') =>
          Some (mkState (lc s') (<[i:=p']> (threads s)) (connects s') (invoked s'))
      end
  end.

(** An instance created by [NewLifecycle] on which the calls [ts] are made. *)
Definition entry (p : pc) : bool :=
  match p with SInit | PLock | RInit => true | _ => false end.

Definition initial (connect : bool) (ts : list pc) : State :=
  mkState (NewLifecycle connect) ts [] [].

Definition is_start (p : pc) : bool :=
  match p with
  | SInit | SCheck | SConnect | SLock _ | SAbort _ | SClose | SWait => true
  | _ => false
  end.

(** The closures a goroutine is responsible for. *)
Definition owned (p : pc) : list nat :=
  match p with
  | SLock (Some c) | SAbort (Some c) | PRun c => [c]
  | _ => []
  end.

Definition held (l : Lifecycle) : list nat :=
  if stopped l then [] else match stopFunc l with Some c => [c] | None => [] end.

(** Every place a stop closure can be: with a goroutine that will run it, in
    [stopFunc] of an instance not yet stopped, or already invoked. *)
Definition places (s : State) : list nat :=
  flat_map owned (threads s) ++ held (lc s) ++ invoked s.

(** ** Waiting for readiness, sequentially

    [WaitReady(ctx, ready)] as the components call it: the ready channel is the
    instant at which it will be closed, if ever. *)
Definition WaitReady {S} (ctx : Context) (rd : Signal) : M S (option error) :=
  (b <- select2 rd (Done ctx) ;;
   if (b : bool) then ret None else ctx_Err ctx)%go.

(** ** Step inversion *)

Lemma step_inv i a s s' :
  step (i, a) s = Some s' →
  ∃ p s1 p', crashed s = false ∧ threads s !! i = Some p ∧
    step_thread i p a s = Some (s1, p') ∧
    s' = mkState (lc s1) (<[i:=p']> (threads s)) (connects s1) (invoked s1).
Proof.
  unfold step. destruct (crashed s) eqn:Hc; [done|].
  destruct (threads s !! i) as [p|] eqn:Hp; [|done].
  destruct (step_thread i p a s) as [[s1 p']|] eqn:Hs; [|done].
  intros [= <-]. eauto 10.
Qed.

(** Splits a step into the cases of the program text. *)
Ltac step_cases H :=
  let p := fresh "p" in let s1 := fresh "s1" in let p' := fresh "p'" in
  let Hc := fresh "Hcrash" in let Hp := fresh "Hp" in let Hst := fresh "Hst" in
  apply step_inv in H as (p & s1 & p' & Hc & Hp & Hst & ->);
  unfold step_thread, step_start, step_stop, step_wait, start_section, stop_section in Hst;
  destruct p; simpl in Hst; try discriminate Hst;
  destruct_matches_in Hst.

(** ** Where the stop closures are *)

(** Moving one goroutine changes only its own share of the closures. *)
Lemma places_split s i p :
  threads s !! i = Some p →
  ∃ rest, places s ≡ₚ owned p ++ rest ++ held (lc s) ++ invoked s ∧
    ∀ l' p' cs inv',
      places (mkState l' (<[i:=p']> (threads s)) cs inv') ≡ₚ
      owned p' ++ rest ++ held l' ++ inv'.
Proof.
  intros Hp. destruct (flat_map_insert_perm owned _ _ _ Hp) as (rest & H1 & H2).
  exists rest. unfold places; simpl. split; [|intros l' p' cs inv'].
  - by rewrite H1, <-app_assoc.
  - by rewrite H2, <-app_assoc.
Qed.

Lemma held_initReady l : held (initReady l) = held l.
Proof. unfold initReady, held. by destruct (ready l). Qed.

Lemma places_step i a s s' :
  step (i, a) s = Some s' →
  (connects s' = connects s ∧ places s' ⊆+ places s) ∨
  (connects s' = connects s ++ [false] ∧ places s' ⊆+ places s) ∨
  (connects s' = connects s ++ [true] ∧
   places s' ⊆+ length (connects s) :: places s).
Proof.
  intros H. apply step_inv in H as (p & s1 & p' & Hc & Hp & Hst & ->).
  destruct (places_split s i p Hp) as (rest & -> & Hnew). rewrite Hnew. clear Hnew Hp Hc.
  unfold step_thread, step_start, step_stop, step_wait, start_section, stop_section in Hst.
  destruct p; simpl in Hst; try discriminate Hst;
    destruct_matches_in Hst; rewrite ?held_initReady;
    first [left; split; [done|] | right; left; split; [done|] | right; right; split; [done|]].
  all: unfold held; simpl;
    repeat match goal with
    | H : stopped _ = _ |- _ => rewrite H
    | H : stopFunc _ = _ |- _ => rewrite H
    end; simpl; solve_submseteq.
Qed.

(** Each closure is in one place only, and was returned by a [Connect] call. *)
Definition inv_places (s : State) : Prop :=
  NoDup (places s) ∧ Forall (λ c, connects s !! c = Some true) (places s).

Lemma inv_places_step l s s' :
  inv_places s → step l s = Some s' → inv_places s'.
Proof.
  destruct l as [i a]. intros [Hnd Hall] Hs. unfold inv_places.
  assert (∀ b, Forall (λ c, (connects s ++ [b]) !! c = Some true) (places s)) as Happ.
  { intros b. eapply Forall_impl; [exact Hall|]. intros c Hc. by apply lookup_app_l_Some. }
  destruct (places_step _ _ _ _ Hs) as [[-> Hp]|[[-> Hp]|[-> Hp]]].
  - split; [by eapply NoDup_sub|]. by eapply Forall_submseteq.
  - split; [by eapply NoDup_sub|]. by eapply Forall_submseteq.
  - split.
    + eapply NoDup_sub; [done|]. apply NoDup_cons. split; [|done].
      intros Hin. rewrite Forall_forall in Hall. specialize (Hall _ Hin).
      apply lookup_lt_Some in Hall. lia.
    + eapply Forall_submseteq; [done|]. constructor; [|done].
      by rewrite lookup_app_r, Nat.sub_diag by lia.
Qed.

Lemma initial_places connect ts :
  Forall entry ts → places (initial connect ts) = [].
Proof.
  intros H. unfold places, initial; simpl. rewrite app_nil_r.
  induction H as [|p ts Hp _ IH]; simpl; [done|]. by destruct p.
Qed.

Lemma inv_places_reachable connect ts s :
  Forall entry ts → reachable step (initial connect ts) s → inv_places s.
Proof.
  intros H. apply invariant_reachable; [|intros ???; apply inv_places_step].
  unfold inv_places. rewrite initial_places by done. split; constructor.
Qed.

(** ** The mutex *)

Definition holds (p : pc) : bool :=
  match p with PHeld | PRun _ => true | _ => false end.

Lemma mutex_step i a s s' :
  step (i, a) s = Some s' →
  ∃ p p', threads s !! i = Some p ∧ threads s' = <[i:=p']> (threads s) ∧
    ((mu (lc s') = mu (lc s) ∧ holds p' = holds p) ∨
     (mu (lc s) = None ∧ mu (lc s') = Some i ∧ holds p' = true) ∨
     (holds p = true ∧ mu (lc s') = None ∧ holds p' = false)).
Proof.
  intros H. step_cases H; simpl; eexists _, _; (split; [exact Hp|]; split; [done|]);
    rewrite ?E; try (left; split; reflexivity); eauto.
  all: left; split; [|reflexivity]; unfold initReady; by destruct (ready _).
Qed.

(** The lock is held by exactly the goroutine inside [Stop]'s critical
    section. *)
Definition inv_mu (s : State) : Prop :=
  ∀ j, mu (lc s) = Some j ↔ ∃ p, threads s !! j = Some p ∧ holds p = true.

Lemma inv_mu_step l s s' : inv_mu s → step l s = Some s' → inv_mu s'.
Proof.
  destruct l as [i a]. intros Hinv Hs j.
  destruct (mutex_step _ _ _ _ Hs) as (p & p' & Hp & -> & Hcase).
  assert (i < length (threads s)) as Hlt by (by eapply lookup_lt_Some).
  assert (Hi := Hinv i). assert (Hj := Hinv j). clear Hs Hinv.
  destruct (decide (j = i)) as [->|Hne].
  - rewrite list_lookup_insert_eq by done.
    destruct Hcase as [[-> Hh]|[(H1 & -> & H3)|(H1 & -> & H3)]].
    + rewrite Hi, Hp. split; intros (? & [= ->] & ?); eauto with congruence.
    + split; eauto.
    + split; [done|]. intros (? & [= ->] & ?). congruence.
  - rewrite list_lookup_insert_ne by done. rewrite <-Hj.
    destruct Hcase as [[-> Hh]|[(-> & -> & H3)|(H1 & -> & H3)]]; [done|..].
    + split; congruence.
    + split; [done|]. intros Hmj. destruct Hi as [_ Hi]. rewrite Hi in Hmj by eauto.
      congruence.
Qed.

Lemma inv_mu_reachable connect ts s :
  Forall entry ts → reachable step (initial connect ts) s → inv_mu s.
Proof.
  intros H. apply invariant_reachable; [|intros ???; apply inv_mu_step].
  intros j. simpl. split; [done|]. intros (p & Hp & Hh).
  eapply Forall_lookup_1 in Hp; [|done]. by destruct p.
Qed.

(** ** Progress and termination *)

(** A goroutine that has not returned. *)
Definition unfinished (p : pc) : bool :=
  match p with Finished _ | Crashed => false | _ => true end.

(** It only waits for its environment: for the context to be cancelled, or for
    readiness. *)
Definition waiting (p : pc) : bool :=
  match p with SWait | RWait => true | _ => false end.

Definition rank (p : pc) : nat :=
  match p with
  | SInit => 6 | SCheck => 5 | SConnect => 4 | SLock _ => 3 | SAbort _ => 2
  | SClose => 2 | SWait => 1
  | PLock => 3 | PHeld => 2 | PRun _ => 1
  | RInit => 2 | RWait => 1
  | Finished _ | Crashed => 0
  end.

Definition measure (s : State) : nat := list_sum (map rank (threads s)).

Lemma step_decreases l s s' : step l s = Some s' → measure s' < measure s.
Proof.
  destruct l as [i a]. intros H. unfold measure.
  assert (∃ p p', threads s !! i = Some p ∧ threads s' = <[i:=p']> (threads s) ∧
    rank p' < rank p) as (p & p' & Hp & -> & Hr).
  { step_cases H; simpl; eexists _, _; (split; [exact Hp|]; split; [done|]); simpl; lia. }
  by eapply list_sum_insert_lt.
Qed.

(** A goroutine can move unless it waits for the lock. *)
Lemma enabled_unless_locked s i p :
  crashed s = false → threads s !! i = Some p → unfinished p = true →
  (mu (lc s) = None ∨ holds p = true) →
  ∃ a s', step (i, a) s = Some s'.
Proof.
  intros Hc Hp Hu Hmu. unfold step. rewrite Hc.
  assert (∃ a, is_Some (step_thread i p a s)) as (a & [s1 p'] & Hst).
  { destruct p; try discriminate Hu; simpl.
    - by exists Go.
    - exists Go. simpl. by destruct (Connect_set _).
    - by exists (ConnectOk false).
    - exists Go. simpl. destruct Hmu as [->|]; [|done]. by destruct (start_section _ _).
    - destruct stop; [by exists (ClosureRet None)|by exists Go].
    - exists Go. simpl. by destruct (ready _) as [[]|].
    - by exists (CtxDone (Sentinel Canceled)).
    - exists Go. simpl. by destruct Hmu as [->|].
    - exists Go. simpl. by destruct (stop_section _).
    - by exists (ClosureRet None).
    - by exists Go.
    - by exists (CtxDone (Sentinel Canceled)). }
  exists a. rewrite Hp, Hst. eauto.
Qed.

Lemma progress s i p :
  inv_mu s → crashed s = false → threads s !! i = Some p → unfinished p = true →
  ∃ j a s', (j = i ∨ mu (lc s) = Some j) ∧ step (j, a) s = Some s'.
Proof.
  intros Hinv Hc Hp Hu. destruct (mu (lc s)) as [j|] eqn:Hm.
  - destruct (proj1 (Hinv j) Hm) as (q & Hq & Hh).
    destruct (enabled_unless_locked s j q) as (a & s' & Hs); auto.
    { by destruct q. }
    exists j, a, s'. auto.
  - destruct (enabled_unless_locked s i p) as (a & s' & Hs); auto.
    exists i, a, s'. auto.
Qed.


(** ** One call of Start

    The framework calls [Start] once per component. Under that use nothing is
    lost: every closure [Connect] returned is in one of the [places]. *)

(** No closure is dropped unless a [Start] overwrites [stopFunc]. *)
Lemma places_keep i a s s' :
  step (i, a) s = Some s' →
  (∀ o, threads s !! i = Some (SLock o) → stopFunc (lc s) = None) →
  (connects s' = connects s ∧ places s ⊆+ places s') ∨
  (connects s' = connects s ++ [false] ∧ places s ⊆+ places s') ∨
  (connects s' = connects s ++ [true] ∧
   length (connects s) :: places s ⊆+ places s').
Proof.
  intros H Hstop. apply step_inv in H as (p & s1 & p' & Hc & Hp & Hst & ->).
  destruct (places_split s i p Hp) as (rest & -> & Hnew). rewrite Hnew. clear Hnew Hc.
  unfold step_thread, step_start, step_stop, step_wait, start_section, stop_section in Hst.
  destruct p; simpl in Hst; try discriminate Hst;
    try specialize (Hstop _ Hp); destruct_matches_in Hst; rewrite ?held_initReady;
    first [left; split; [done|] | right; left; split; [done|] | right; right; split; [done|]].
  all: unfold held; simpl;
    repeat match goal with
    | H : stopped _ = _ |- _ => rewrite H
    | H : stopFunc _ = _ |- _ => rewrite H
    end; simpl; solve_submseteq.
Qed.

(** Facts tied to the position of the one [Start]. *)
Definition phase (s : State) (p : pc) : Prop :=
  let l := lc s in
  match p with
  | SInit => connects s = [] ∧ stopFunc l = None ∧ ready l ≠ Some true
  | SCheck | SConnect => connects s = [] ∧ stopFunc l = None ∧ ready l = Some false
  | SLock o | SAbort o =>
      connects s = [bool_decide (is_Some o)] ∧ (∀ c, o = Some c → c = 0) ∧
      stopFunc l = None ∧ ready l = Some false
  | SClose => ready l = Some false ∧
      connects s = [bool_decide (is_Some (stopFunc l))] ∧ (∀ c, stopFunc l = Some c → c = 0)
  | SWait => ready l = Some true
  | Crashed => False
  | _ => True
  end.

Definition inv_single (s : State) : Prop :=
  count is_start (threads s) ≤ 1 ∧
  (∀ i p, threads s !! i = Some p → phase s p) ∧
  (∀ c, connects s !! c = Some true → c ∈ places s) ∧
  (ready (lc s) = Some true →
   connects s = [bool_decide (is_Some (stopFunc (lc s)))] ∧
   (∀ c, stopFunc (lc s) = Some c → c = 0)).

(** A step outside [Start] leaves what [Start] relies on alone. *)
Lemma nonstart_frame i a s s' p :
  step (i, a) s = Some s' → threads s !! i = Some p → is_start p = false →
  connects s' = connects s ∧ stopFunc (lc s') = stopFunc (lc s) ∧
  (ready (lc s') = ready (lc s) ∨ ready (lc s) = None ∧ ready (lc s') = Some false) ∧
  ∃ p', threads s' = <[i:=p']> (threads s) ∧ is_start p' = false ∧ p' ≠ Crashed.
Proof.
  intros H Hp' Hns. step_cases H; simpl; split_and?; eauto.
  all: unfold initReady; destruct (ready (lc _)) eqn:?; simpl; eauto.
Qed.

Lemma phase_nonstart s p : is_start p = false → p ≠ Crashed → phase s p.
Proof. by destruct p. Qed.

(** A step of [Start] re-establishes its own facts. *)
Lemma start_phase i a s s' p :
  step (i, a) s = Some s' → threads s !! i = Some p → is_start p = true →
  phase s p →
  ∃ p', threads s' = <[i:=p']> (threads s) ∧ phase s' p' ∧
    (ready (lc s') = Some true →
     (ready (lc s) = Some true ∧ connects s' = connects s ∧ stopFunc (lc s') = stopFunc (lc s)) ∨
     connects s' = [bool_decide (is_Some (stopFunc (lc s')))] ∧
     (∀ c, stopFunc (lc s') = Some c → c = 0)).
Proof.
  intros H Hp' Hst Hph. step_cases H; simplify_eq/=; destruct_and?;
    (eexists; split; [reflexivity|]); simpl;
    repeat match goal with H : connects _ = _ |- _ => rewrite H end; simpl.
  - unfold initReady. destruct (ready (lc s)) as [[]|] eqn:?; naive_solver.
  - naive_solver.
  - naive_solver.
  - split; [naive_solver|congruence].
  - split; [naive_solver|congruence].
  - naive_solver.
  - naive_solver.
  - split; [naive_solver|congruence].
  - naive_solver.
  - naive_solver.
  - congruence.
  - naive_solver.
  - congruence.
  - naive_solver.
Qed.

Definition all_placed (s : State) : Prop :=
  ∀ c, connects s !! c = Some true → c ∈ places s.

Lemma all_placed_step i a s s' :
  (∀ o, threads s !! i = Some (SLock o) → stopFunc (lc s) = None) →
  all_placed s → step (i, a) s = Some s' → all_placed s'.
Proof.
  intros Hno Hpl Hs c. destruct (places_keep _ _ _ _ Hs Hno) as [[-> Hk]|[[-> Hk]|[-> Hk]]].
  - intros Hc. eapply elem_of_submseteq; eauto.
  - intros [Hc|[_ Hc]]%lookup_app_Some; [eapply elem_of_submseteq; eauto|].
    by apply list_lookup_singleton_Some in Hc as [_ ?].
  - intros [Hc|[Hge Hc]]%lookup_app_Some;
      (eapply elem_of_submseteq; [|exact Hk]); [right; auto|].
    apply list_lookup_singleton_Some in Hc as [Hc _].
    replace c with (length (connects s)) by lia. left.
Qed.

Lemma inv_single_start i a s s' p :
  inv_single s → step (i, a) s = Some s' → all_placed s' →
  threads s !! i = Some p → is_start p = true → inv_single s'.
Proof.
  intros (Hcnt & Hph & _ & Hrd) Hs Hpl' Hp Hsp.
  assert (i < length (threads s)) as Hlt by (by eapply lookup_lt_Some).
  destruct (start_phase _ _ _ _ _ Hs Hp Hsp (Hph _ _ Hp)) as (p' & Ht & Hph' & Hrd').
  split_and!; [..|exact Hpl'|].
  - pose proof (count_insert is_start _ _ _ p' Hp) as Hc. rewrite Hsp, <-Ht in Hc.
    destruct (is_start p'); lia.
  - intros j q Hq. rewrite Ht in Hq. destruct (decide (j = i)) as [->|Hne].
    { rewrite list_lookup_insert_eq in Hq by done. by simplify_eq. }
    rewrite list_lookup_insert_ne in Hq by done. apply phase_nonstart.
    + destruct (is_start q) eqn:Hsq; [|done].
      by destruct Hne; eapply (count_1_unique is_start); eauto.
    + intros ->. by apply (Hph _ _ Hq).
  - intros Hr. destruct (Hrd' Hr) as [(Hr0 & -> & ->)|?]; auto.
Qed.

Lemma inv_single_other i a s s' p :
  inv_single s → step (i, a) s = Some s' → all_placed s' →
  threads s !! i = Some p → is_start p = false → inv_single s'.
Proof.
  intros (Hcnt & Hph & _ & Hrd) Hs Hpl' Hp Hsp.
  assert (i < length (threads s)) as Hlt by (by eapply lookup_lt_Some).
  destruct (nonstart_frame _ _ _ _ _ Hs Hp Hsp) as (Hc & Hst & Hr & p' & Ht & Hsp' & Hncr).
  split_and!; [..|exact Hpl'|].
  - pose proof (count_insert is_start _ _ _ p' Hp) as Hn. rewrite Hsp, Hsp', <-Ht in Hn. lia.
  - intros j q Hq. rewrite Ht in Hq. destruct (decide (j = i)) as [->|Hne].
    { rewrite list_lookup_insert_eq in Hq by done. simplify_eq. by apply phase_nonstart. }
    rewrite list_lookup_insert_ne in Hq by done. specialize (Hph _ _ Hq).
    destruct Hr as [Hr|[Hn Hr]]; destruct q; simpl in *; rewrite ?Hc, ?Hst, ?Hr;
      intuition congruence.
  - rewrite Hc, Hst. destruct Hr as [->|[? ->]]; [done|congruence].
Qed.

Lemma inv_single_step l s s' : inv_single s → step l s = Some s' → inv_single s'.
Proof.
  destruct l as [i a]. intros Hinv Hs.
  assert (∃ p, threads s !! i = Some p) as [p Hp].
  { apply step_inv in Hs as (p & ? & ? & ? & Hp & _). eauto. }
  assert (all_placed s') as Hpl.
  { destruct Hinv as (_ & Hph & Hpl & _). eapply all_placed_step; [|exact Hpl|exact Hs].
    intros o Ho. apply (Hph _ _ Ho). }
  destruct (is_start p) eqn:Hsp; eauto using inv_single_start, inv_single_other.
Qed.

Lemma inv_single_reachable connect ts s :
  Forall entry ts → count is_start ts ≤ 1 →
  reachable step (initial connect ts) s → inv_single s.
Proof.
  intros He Hc. apply invariant_reachable; [|intros ???; apply inv_single_step].
  split_and!; simpl; [done|..|done|done].
  intros i p Hp. eapply Forall_lookup_1 in Hp; [|done]. by destruct p.
Qed.

(** No goroutine of a single-[Start] instance panics. *)
Lemma inv_single_not_crashed s : inv_single s → crashed s = false.
Proof.
  intros (_ & Hph & _). unfold crashed. apply not_true_iff_false.
  rewrite existsb_elem. intros (p & [i Hi]%list_elem_of_lookup & Hp).
  specialize (Hph _ _ Hi). by destruct p.
Qed.

(** ** Stop calls set the flag *)

(** Until the flag is set, every [Stop] call made is still before its test. *)
Definition inv_stops (ts : list pc) (s : State) : Prop :=
  stopped (lc s) = true ∨
  ∀ i, ts !! i = Some PLock →
       threads s !! i = Some PLock ∨ threads s !! i = Some PHeld.

Lemma stopped_step i a s s' :
  step (i, a) s = Some s' →
  (stopped (lc s) = true → stopped (lc s') = true) ∧
  ∃ p p', threads s !! i = Some p ∧ threads s' = <[i:=p']> (threads s) ∧
    (p = PLock → p' = PHeld) ∧ (p = PHeld → stopped (lc s') = true).
Proof.
  intros H. step_cases H; simpl.
  all: split; [first [congruence | unfold initReady; by destruct (ready (lc _))]|].
  all: eexists _, _; split_and!; [exact Hp|reflexivity|..]; simpl; congruence.
Qed.

Lemma inv_stops_step ts l s s' :
  inv_stops ts s → step l s = Some s' → inv_stops ts s'.
Proof.
  destruct l as [i a]. intros Hinv H.
  destruct (stopped_step _ _ _ _ H) as (Hmono & p & p' & Hp & Ht & HL & HH).
  destruct Hinv as [Hst|Hinv]; [left; auto|].
  destruct (stopped (lc s')) eqn:Hst'; [by left|right].
  intros j Hj. rewrite Ht. destruct (decide (j = i)) as [->|Hne];
    [rewrite list_lookup_insert_eq by (by eapply lookup_lt_Some)
    |rewrite list_lookup_insert_ne by done; auto].
  destruct (Hinv i Hj) as [Hq|Hq]; simplify_eq; [rewrite HL by done; auto|].
  by discriminate HH.
Qed.

(** ** The released closures *)

Lemma places_finished s :
  Forall (λ p, unfinished p = false) (threads s) → stopped (lc s) = true →
  places s = invoked s.
Proof.
  intros Hf Hst. unfold places, held. rewrite Hst.
  replace (flat_map owned (threads s)) with (@nil nat); [done|].
  induction Hf as [|p ps Hp _ IH]; simpl; [done|]. rewrite <-IH. by destruct p.
Qed.

Lemma stops_finished ts s i :
  inv_stops ts s → ts !! i = Some PLock →
  Forall (λ p, unfinished p = false) (threads s) → stopped (lc s) = true.
Proof.
  intros [?|Hinv] Hi Hf; [done|].
  destruct (Hinv i Hi) as [Hp|Hp]; by apply (Forall_lookup_1 _ _ _ _ Hf) in Hp.
Qed.

(** An instance that was stopped before any [Start] stored a closure is never
    signalled ready. *)
Definition overtaken (s : State) : Prop :=
  stopped (lc s) = true ∧ ready (lc s) ≠ Some true ∧ Forall (λ p, p ≠ SClose) (threads s).

Lemma overtaken_step l s s' : overtaken s → step l s = Some s' → overtaken s'.
Proof.
  destruct l as [i a]. intros (Hst & Hrd & Hcl) H. unfold overtaken. step_cases H; simpl in *;
    unfold initReady in *; try (destruct (ready (lc s)) as [[]|] eqn:?); try done;
    split_and!; simpl; try congruence; try (by apply Forall_insert);
    by destruct (Forall_lookup_1 _ _ _ _ Hcl Hp).
Qed.

(** ** Theorems *)

(** C1. However many [Start] and [Stop] calls run concurrently on one
    [Lifecycle], in whatever order, no stop closure returned by [Connect] is
    invoked twice. *)
Theorem lifecycle_stop_at_most_once connect ts s :
  Forall entry ts → reachable step (initial connect ts) s → NoDup (invoked s).
Proof.
  intros He Hr. destruct (inv_places_reachable _ _ _ He Hr) as [Hnd _].
  unfold places in Hnd. by apply NoDup_app in Hnd as (_ & _ & (_ & _ & ?)%NoDup_app).
Qed.

Lemma lifecycle_stop_at_most_once_witness :
  ∃ s, reachable step (initial true [SInit; PLock; PLock]) s ∧
       invoked s = [0] ∧ NoDup (invoked s).
Proof.
  assert (∃ s, run_labels step
    [(0, Go); (0, Go); (0, ConnectOk true); (0, Go); (1, Go); (1, Go);
     (1, ClosureRet None); (2, Go); (2, Go)] (initial true [SInit; PLock; PLock]) = Some s
    ∧ invoked s = [0]) as (s & Hrun & Hinv) by (eexists; split; vm_compute; reflexivity).
  apply run_labels_reachable in Hrun. exists s. split; [done|]. split; [done|].
  apply (lifecycle_stop_at_most_once true [SInit; PLock; PLock]); [|done].
  repeat constructor.
Defined.

(** C2. With one [Start] and at least one [Stop], once every call has returned,
    the closures that were invoked are exactly the ones [Connect] returned, each
    once: nothing is released twice and nothing leaks, also when [Stop] overtakes
    a [Start] that is still connecting. *)
Theorem lifecycle_stop_exactly_once connect ts s i :
  Forall entry ts → count is_start ts ≤ 1 → ts !! i = Some PLock →
  reachable step (initial connect ts) s →
  Forall (λ p, unfinished p = false) (threads s) →
  NoDup (invoked s) ∧ ∀ c, c ∈ invoked s ↔ connects s !! c = Some true.
Proof.
  intros He Hone Hi Hr Hf.
  assert (inv_stops ts s) as Hst.
  { revert Hr. apply invariant_reachable; [right; simpl; auto|].
    intros ???; apply inv_stops_step. }
  eapply stops_finished in Hst; [|done..].
  destruct (inv_places_reachable _ _ _ He Hr) as [Hnd Hall].
  destruct (inv_single_reachable _ _ _ He Hone Hr) as (_ & _ & Hpl & _).
  pose proof (places_finished _ Hf Hst) as Heq. rewrite Heq in Hnd, Hall.
  rewrite Forall_forall in Hall.
  split; [done|]. intros c. split; [auto|]. rewrite <-Heq. auto.
Qed.

Lemma lifecycle_stop_exactly_once_witness :
  ∃ s, connects s = [true] ∧ invoked s = [0] ∧
    (NoDup (invoked s) ∧ ∀ c, c ∈ invoked s ↔ connects s !! c = Some true).
Proof.
  assert (∃ s, run_labels step
    [(0, Go); (0, Go); (1, Go); (1, Go); (0, ConnectOk true); (0, Go);
     (0, ClosureRet None)] (initial true [SInit; PLock]) = Some s
    ∧ connects s = [true] ∧ invoked s = [0]
    ∧ threads s = [Finished None; Finished None])
    as (s & Hrun & Hc & Hinv & Ht) by (eexists; split_and!; vm_compute; reflexivity).
  exists s. split; [done|]. split; [done|].
  apply (lifecycle_stop_exactly_once true [SInit; PLock] s 1).
  - repeat constructor.
  - vm_compute. lia.
  - reflexivity.
  - by eapply run_labels_reachable.
  - rewrite Ht. repeat constructor.
Defined.

(** C26. Readiness is only signalled for a component that a later [Stop] will
    release. For calls of which at most one is a [Start], in every interleaving: no
    goroutine panics closing the channel twice; if the ready channel is closed
    then the one [Connect] has succeeded and [stopFunc] holds the closure it
    returned, nil when it returned nil; in particular the channel is open as long
    as no [Connect] has succeeded. And a [Start] overtaken by [Stop] never signals:
    once [stopped] is set while the channel is open and no [Start] is between
    storing its closure and closing the channel, the channel stays open for good. *)
Theorem lifecycle_ready_registered connect ts s :
  Forall entry ts → count is_start ts ≤ 1 →
  reachable step (initial connect ts) s →
  crashed s = false ∧
  (ready (lc s) = Some true →
   (connects s = [true] ∧ stopFunc (lc s) = Some 0) ∨
   (connects s = [false] ∧ stopFunc (lc s) = None)) ∧
  (overtaken s → ∀ s', reachable step s s' → ready (lc s') ≠ Some true).
Proof.
  intros He Hone Hr. pose proof (inv_single_reachable _ _ _ He Hone Hr) as Hinv.
  split; [by apply inv_single_not_crashed|]. split.
  - destruct Hinv as (_ & _ & _ & Hrd). intros Hready.
    destruct (Hrd Hready) as [-> Hz].
    destruct (stopFunc (lc s)) as [c|]; [left|right]; [|done].
    by rewrite (Hz c eq_refl).
  - intros Ho s' Hs'.
    assert (overtaken s') as (_ & ? & _); [|done].
    revert Hs'. apply invariant_reachable; [done|]. intros ???; apply overtaken_step.
Qed.

Lemma lifecycle_ready_registered_witness :
  ∃ s, ready (lc s) = Some true ∧
   crashed s = false ∧
   (connects s = [true] ∧ stopFunc (lc s) = Some 0 ∨
    connects s = [false] ∧ stopFunc (lc s) = None).
Proof.
  assert (∃ s, run_labels step
    [(1, Go); (0, Go); (0, Go); (0, ConnectOk true); (0, Go); (0, Go); (1, Go)]
    (initial true [SInit; RInit; PLock]) = Some s ∧ ready (lc s) = Some true)
    as (s & Hrun & Hrd) by (eexists; split; vm_compute; reflexivity).
  exists s. split; [done|].
  destruct (lifecycle_ready_registered true [SInit; RInit; PLock] s) as (H1 & H2 & _).
  - repeat constructor.
  - vm_compute. lia.
  - by eapply run_labels_reachable.
  - split; [done|]. by apply H2.
Defined.

(** C28. Every interleaving of [Start], [Stop] and [WaitReady] calls is finite (at
    most six steps per call), and one that cannot be continued has returned from
    every call, or a goroutine panicked: there is no deadlock on the mutex. *)
Theorem lifecycle_terminates connect ts ls s :
  Forall entry ts →
  run_labels step ls (initial connect ts) = Some s →
  length ls ≤ 6 * length ts ∧
  ((∀ l, step l s = None) → crashed s = true ∨ Forall (λ p, unfinished p = false) (threads s)).
Proof.
  intros He Hrun. split.
  - pose proof (run_labels_measure step measure ls _ _ step_decreases Hrun) as Hl.
    assert (measure (initial connect ts) ≤ 6 * length ts); [|lia].
    unfold measure; simpl. clear Hrun Hl. induction He as [|p ts Hp _ IH]; simpl; [lia|].
    destruct p; simpl in *; try done; lia.
  - intros Hstuck. destruct (crashed s) eqn:Hc; [by left|right].
    apply run_labels_reachable in Hrun. apply Forall_lookup_2. intros i p Hp.
    destruct (unfinished p) eqn:Hu; [|done].
    destruct (progress s i p) as (j & a & s' & _ & Hs); eauto using inv_mu_reachable.
    by rewrite Hstuck in Hs.
Qed.

Lemma lifecycle_terminates_witness :
  ∃ s, run_labels step [(0, Go); (0, Go)] (initial true [PLock]) = Some s ∧
    2 ≤ 6 * 1 ∧
    ((∀ l, step l s = None) →
     crashed s = true ∨ Forall (λ p, unfinished p = false) (threads s)).
Proof.
  eexists. split; [vm_compute; reflexivity|].
  apply (lifecycle_terminates true [PLock] [(0, Go); (0, Go)]).
  - repeat constructor.
  - vm_compute. reflexivity.
Defined.

(** A second [Start] on the same instance closes the ready channel again: the
    process panics, and the closure of the first connection is overwritten. *)
Theorem lifecycle_double_start :
  ∃ s, run_labels step
    [(0, Go); (0, Go); (0, ConnectOk true); (0, Go); (0, Go);
     (1, Go); (1, Go); (1, ConnectOk true); (1, Go); (1, Go)]
    (initial true [SInit; SInit]) = Some s ∧
    crashed s = true ∧ connects s = [true; true] ∧ 0 ∉ places s.
Proof.
  eexists. split; [vm_compute; reflexivity|].
  split; [reflexivity|]. split; [reflexivity|]. by apply (bool_decide_unpack _).
Qed.

(** ** WaitReady *)

Lemma WaitReady_returns {S} ctx rd (w : World S) :
  (rd = None → ctx_done ctx ≠ None) →
  ∃ r w', WaitReady ctx rd w = (Ret r, w') ∧ heap w' = heap w.
Proof.
  intros Hg. destruct (select2_returns rd (Done ctx) w) as (b & w1 & Hs).
  { destruct rd; [by left|right]. unfold Done. specialize (Hg eq_refl).
    by destruct (ctx_done ctx). }
  assert (∃ r, WaitReady ctx rd w = (Ret r, w1)) as [r Hr].
  { unfold WaitReady. run Hs. destruct b; eexists; reflexivity. }
  exists r, w1. split; [done|]. by apply select2_cases in Hs as [? _].
Qed.

Lemma WaitReady_too_late {S} ctx rd (w : World S) d e :
  ctx_done ctx = Some (d, e) →
  match rd with Some t => (Z.max (clock w) d < t)%Z | None => True end →
  WaitReady ctx rd w = (Ret (Some e), advance_to d w).
Proof.
  intros Hd Hr.
  assert (select2 rd (Done ctx) w = (Ret false, advance_to d w)) as Hs.
  { unfold Done, select2. rewrite Hd. simpl. destruct rd as [t|]; [|done].
    destruct (Z.ltb_spec (Z.max (clock w) t) (Z.max (clock w) d)); [lia|].
    destruct (Z.ltb_spec (Z.max (clock w) d) (Z.max (clock w) t)); [done|lia]. }
  unfold WaitReady. run Hs. unfold ctx_Err, Err_at. rewrite Hd. simpl.
  destruct (Z.leb_spec d (Z.max (clock w) d)); [done|lia].
Qed.

Lemma WaitReady_Ret {S} ctx rd (w w' : World S) r :
  WaitReady ctx rd w = (Ret r, w') →
  heap w' = heap w ∧ (clock w ≤ clock w')%Z ∧
  match r with
  | None => ∃ t, rd = Some t ∧ (t ≤ clock w')%Z
  | Some e => Err_at ctx (clock w') = Some e
  end.
Proof.
  unfold WaitReady. intros (b & w1 & Hsel & Hk)%bind_Ret_inv.
  apply select2_cases in Hsel as (Hh & Hc & t & Ht & Hck & _). destruct b.
  - injection Hk as <- <-. split_and!; eauto with lia.
  - injection Hk as <- <-. unfold Done in Ht.
    destruct (ctx_done ctx) as [[d e]|] eqn:Hd; simplify_eq/=.
    unfold Err_at. rewrite Hd. destruct (Z.leb_spec t (clock w1)); [|lia].
    by split_and!.
Qed.

(** [WaitReady] returns nil only once the channel is closed and an error only
    once the context is done, with the context's error; it never panics, blocks
    only if neither ever happens, and honours the caller's deadline: when the
    context is done at [d] it has returned by [d] (or at once if [d] is past). *)
Theorem WaitReady_honours_deadline {S} ctx rd (w : World S) :
  match WaitReady ctx rd w with
  | (Ret None, w') => ∃ t, rd = Some t ∧ clock w' = Z.max (clock w) t
  | (Ret (Some e), w') => Err_at ctx (clock w') = Some e
  | (Panic _, _) => False
  | (Block, _) => rd = None ∧ ctx_done ctx = None
  end ∧
  (∀ d e, ctx_done ctx = Some (d, e) →
     (clock (WaitReady ctx rd w).2 ≤ Z.max (clock w) d)%Z).
Proof.
  destruct (decide (rd = None ∧ ctx_done ctx = None)) as [[-> Hn]|Hsome].
  { unfold WaitReady, bind, select2, Done. rewrite Hn. simpl. split; [done|congruence]. }
  destruct (select2_returns rd (Done ctx) w) as (b & w1 & Hsel).
  { unfold Done. destruct rd, (ctx_done ctx); simpl; naive_solver. }
  destruct (WaitReady ctx rd w) as [r w'] eqn:E.
  assert (r = Ret (if b then None else Err_at ctx (clock w1)) ∧ w' = w1) as [-> ->].
  { unfold WaitReady, bind in E. rewrite Hsel in E. destruct b; by injection E as <- <-. }
  clear E. apply select2_cases in Hsel as (_ & _ & t & Ht & Hck & Hother). simpl.
  split.
  - destruct b; [eauto|]. unfold Done, Err_at in *.
    destruct (ctx_done ctx) as [[d e]|]; simplify_eq/=.
    destruct (Z.leb_spec t (clock w1)) as [Hle|]; [|lia]. simpl.
    destruct (Z.leb_spec t (clock w1)); [done|lia].
  - intros d e Hd. unfold Done in *. rewrite Hd in *. destruct b; simplify_eq/=; lia.
Qed.
