(* ===== verification/Retry.v ===== *)
(** * core/retry/retry.go: bounded retry with exponential backoff and jitter

    [Do] is a computation of the effect monad. The random source of package
    crypto/rand is an argument, [rand_Int max], which yields a number or fails.
    The loop runs on the number of iterations left, which is exactly
    [maxAttempts - attempt]. *)

From stdpp Require Import base list strings.
From Stdlib Require Import ZArith Lia.
From S2P Require Import Prelude Errors Runtime.

Section Retry.
Context {St : Type}.
Context (rand_Int : Z → M St (option Z)).

(** [baseBackoff * time.Duration(1<<attempt)], wrapping at 64 bits. *)
Definition backoff (baseBackoff attempt : Z) : Z :=
  mul64 baseBackoff (shl1_64 attempt).

(** The jitter: below half of the base, and 0 when the half is 0 or the
    random source fails. *)
Definition jitter (baseBackoff : Z) : M St Z :=
  (let half := quot64 baseBackoff 2 in
   if (half >? 0)%Z then
     n <- rand_Int half ;;
     match n with
     | Some n' => ret n'
     | None => ret 0%Z
     end
   else ret 0%Z)%go.

Fixpoint Do_loop (ctx : Context) (maxAttempts baseBackoff : Z)
    (fn : Context → M St (option error)) (left : nat) (attempt : Z) : M St (option error) :=
  match left with
  | O => ret None
  | S left' =>
      (e <- ctx_Err ctx ;;
       match e with
       | Some e' => ret (Some e')
       | None =>
           r <- fn ctx ;;
           match r with
           | None => ret None
           | Some err =>
               if (attempt =? maxAttempts - 1)%Z then ret (Some err)
               else
                 j <- jitter baseBackoff ;;
                 timer <- NewTimer (add64 (backoff baseBackoff attempt) j) ;;
                 b <- select2 (Done ctx) timer ;;
                 if (b : bool) then ctx_Err ctx
                 else Do_loop ctx maxAttempts baseBackoff fn left' (attempt + 1)
           end
       end)%go
  end.

Definition err_attempts (maxAttempts : Z) : error :=
  ErrorString ("retry: maxAttempts must be positive, got " +:+ sprint_d maxAttempts).

Definition Do (ctx : Context) (maxAttempts baseBackoff : Z)
    (fn : Context → M St (option error)) : M St (option error) :=
  if (maxAttempts <=? 0)%Z then ret (Some (err_attempts maxAttempts))
  else Do_loop ctx maxAttempts baseBackoff fn (Z.to_nat maxAttempts) 0.
End Retry.

(** ** Observing the calls

    A call log beside the state: the instant of each call of [fn] and what it
    returned. *)

Notation Log := (list (Z * option error)).

Definition with_log {St X A} (m : M St A) : M (St * X) A :=
  zoom fst (λ s t, (s, t.2)) m.

Definition logged {St} (fn : Context → M St (option error)) (ctx : Context) :
    M (St * Log) (option error) :=
  (t <- now ;;
   r <- with_log (fn ctx) ;;
   _ <- mmodify (λ x, (x.1, x.2 ++ [(t, r)])) ;;
   ret r)%go.

(** The same with the instant at which the call returned. *)
Record Call : Type := mkCall { c_start : Z; c_end : Z; c_result : option error }.

Definition timed {St} (fn : Context → M St (option error)) (ctx : Context) :
    M (St * list Call) (option error) :=
  (t <- now ;;
   r <- with_log (fn ctx) ;;
   t' <- now ;;
   _ <- mmodify (λ x, (x.1, x.2 ++ [mkCall t t' r])) ;;
   ret r)%go.

(** What a run that made the calls [new], had [left] attempts and returned [r]
    at instant [t] must satisfy. *)
Record retry_run (ctx : Context) (left : nat) (new : Log) (r : option error) (t : Z) : Prop := {
  run_bound : length new ≤ left;
  run_live : Forall (λ c, Err_at ctx c.1 = None) new;
  run_failed : ∀ i c, new !! i = Some c → S i < length new → c.2 ≠ None;
  run_result :
    match r with
    | None => ∃ tc, last new = Some (tc, None)
    | Some e =>
        (length new = left ∧ ∃ tc, last new = Some (tc, Some e)) ∨
        (Err_at ctx t = Some e ∧ ∀ c, last new = Some c → c.2 ≠ None)
    end
}.

(** ** Lemmas *)

Lemma with_log_inv {St X A} (m : M St A) (w : World (St * X)) r w' :
  with_log m w = (r, w') →
  (heap w').2 = (heap w).2 ∧
  m (mkWorld (clock w) (coins w) (heap w).1) = (r, mkWorld (clock w') (coins w') (heap w').1).
Proof.
  unfold with_log, zoom. destruct (m _) as [r1 w1] eqn:E. intros [= <- <-]. simpl.
  split; [done|]. by destruct w1.
Qed.

Lemma logged_inv {St} (fn : Context → M St (option error)) ctx w r w' :
  logged fn ctx w = (Ret r, w') → (heap w').2 = (heap w).2 ++ [(clock w, r)].
Proof.
  unfold logged. intros (t & w1 & H1 & H2)%bind_Ret_inv. injection H1 as <- <-.
  apply bind_Ret_inv in H2 as (r1 & w2 & H2 & H3).
  apply with_log_inv in H2 as [Hl _].
  apply bind_Ret_inv in H3 as (u & w3 & H3 & H4). injection H3 as <- <-.
  injection H4 as <- <-. simpl. by rewrite Hl.
Qed.

Lemma timed_inv {St} (fn : Context → M St (option error)) ctx w r w' :
  timed fn ctx w = (Ret r, w') → (heap w').2 = (heap w).2 ++ [mkCall (clock w) (clock w') r].
Proof.
  unfold timed. intros (t & w1 & H1 & H2)%bind_Ret_inv. injection H1 as <- <-.
  apply bind_Ret_inv in H2 as (r1 & w2 & H2 & H3).
  apply with_log_inv in H2 as [Hl _].
  apply bind_Ret_inv in H3 as (t' & w3 & H3 & H4). injection H3 as <- <-.
  apply bind_Ret_inv in H4 as (u & w3 & H3 & H4). injection H3 as <- <-.
  injection H4 as <- <-. simpl. by rewrite Hl.
Qed.

Lemma jitter_log {St X} (rnd : Z → M St (option Z)) base (w : World (St * X)) j w' :
  jitter (λ m, with_log (rnd m)) base w = (Ret j, w') → (heap w').2 = (heap w).2.
Proof.
  unfold jitter. destruct (_ >? _)%Z; [|by intros [= <- <-]].
  intros (n & w1 & H1 & H2)%bind_Ret_inv. apply with_log_inv in H1 as [H1 _].
  destruct n; injection H2 as <- <-; done.
Qed.

(** One more failed call in front of a run. *)
Lemma retry_run_cons ctx left new r t tc e :
  Err_at ctx tc = None → new ≠ [] →
  retry_run ctx left new r t → retry_run ctx (S left) ((tc, Some e) :: new) r t.
Proof.
  intros Htc Hne [Hb Hl Hf Hr]. destruct new as [|c new]; [done|]. constructor.
  - simpl in *. lia.
  - by constructor.
  - intros [|i] c' Hc Hi; simplify_eq/=; [done|]. eapply Hf; [done|simpl; lia].
  - destruct r as [e'|]; [|done]. destruct Hr as [[Hlen ?]|?]; [left|right; done].
    split; [by simpl in *; lia|done].
Qed.

Lemma retry_run_done ctx left tc e e' t :
  Err_at ctx tc = None → Err_at ctx t = Some e' →
  retry_run ctx (S left) [(tc, Some e)] (Some e') t.
Proof.
  intros Htc He. constructor; simpl; [lia|by repeat constructor|..].
  - intros [|i] c; simpl; [lia|done].
  - right. split; [done|]. by intros c [= <-].
Qed.

Lemma select_ctx_first {St} ctx timer (w w' : World St) :
  select2 (Done ctx) timer w = (Ret true, w') →
  ∃ e, ctx_Err ctx w' = (Ret (Some e), w') ∧ Err_at ctx (clock w') = Some e.
Proof.
  intros (_ & _ & t & Ht & Hck & _)%select2_cases. unfold ctx_Err, Done, Err_at in *.
  destruct (ctx_done ctx) as [[d e]|]; simplify_eq/=. exists e.
  destruct (Z.leb_spec t (clock w')); [done|lia].
Qed.

Lemma Do_loop_run {St} (rnd : Z → M St (option Z)) ctx n base fn left attempt w r w' :
  (attempt + Z.of_nat left = n)%Z → 0 < left →
  Do_loop (λ m, with_log (rnd m)) ctx n base (logged fn) left attempt w = (Ret r, w') →
  ∃ new, (heap w').2 = (heap w).2 ++ new ∧
    (new = [] → ∃ e, r = Some e ∧ Err_at ctx (clock w') = Some e) ∧
    (new ≠ [] → retry_run ctx left new r (clock w')).
Proof.
  revert attempt w. induction left as [|left IH]; intros attempt w Hn Hpos H; [lia|].
  simpl in H. apply bind_Ret_inv in H as (e & w1 & H1 & H). injection H1 as <- <-.
  destruct (Err_at ctx (clock w)) as [e0|] eqn:Herr.
  { injection H as <- <-. exists []. rewrite app_nil_r. split_and!; [done|eauto|done]. }
  apply bind_Ret_inv in H as (r1 & w1 & H1 & H). apply logged_inv in H1.
  destruct r1 as [err|].
  2:{ injection H as <- <-. exists [(clock w, None)]. split; [done|]. split; [done|].
      intros _. constructor; simpl; [lia|by repeat constructor| |eauto].
      intros [|i] c; simpl; [lia|done]. }
  destruct (Z.eqb_spec attempt (n - 1)) as [Heq|Hne].
  { injection H as <- <-. exists [(clock w, Some err)]. split; [done|]. split; [done|].
    intros _. constructor; simpl; [lia|by repeat constructor| |].
    - intros [|i] c; simpl; [lia|done].
    - left. split; [lia|eauto]. }
  apply bind_Ret_inv in H as (j & w2 & H2 & H). apply jitter_log in H2.
  apply bind_Ret_inv in H as (tm & w3 & H3 & H). injection H3 as <- <-.
  apply bind_Ret_inv in H as (b & w3 & H3 & H).
  assert (heap w3 = heap w2) as Hh3 by (by apply select2_cases in H3 as (? & _)).
  destruct b.
  { apply select_ctx_first in H3 as (e & He & Herr3). rewrite He in H. injection H as <- <-.
    exists [(clock w, Some err)]. rewrite Hh3, H2, H1. split; [done|]. split; [done|].
    intros _. by apply retry_run_done. }
  apply IH in H as (new & Hlog & Hnil & Hcons); [|lia..].
  exists ((clock w, Some err) :: new). rewrite Hlog, Hh3, H2, H1, <-app_assoc.
  split; [done|]. split; [done|]. intros _. destruct (decide (new = [])) as [->|Hnew].
  - destruct (Hnil eq_refl) as (e & -> & He). by apply retry_run_done.
  - by apply retry_run_cons; auto.
Qed.

(** ** Timing *)

Lemma backoff_exact base k :
  (0 < base)%Z → (0 ≤ k)%Z → (base * 2 ^ k ≤ max_int64)%Z → backoff base k = (base * 2 ^ k)%Z.
Proof.
  intros Hb Hk Hle. unfold backoff, mul64, shl1_64. rewrite Z.shiftl_1_l.
  assert (0 < 2 ^ k)%Z by (apply Z.pow_pos_nonneg; lia).
  rewrite (wrap64_id (2 ^ k)); [apply wrap64_id|]; int64.
Qed.

Section Timing.
Context {St : Type} (rand_Int : Z → M St (option Z)) (fn : Context → M St (option error)).
Context (base : Z).

(** crypto/rand.Int yields a number below its bound, and at once. *)
Hypothesis rand_range : ∀ m w, (0 < m)%Z →
  ∃ o w', rand_Int m w = (Ret o, w') ∧ clock w' = clock w ∧
    ∀ n, o = Some n → (0 ≤ n < m)%Z.
Hypothesis fn_instant : ∀ ctx, instant (fn ctx).

Lemma jitter_bound w :
  (min_int64 ≤ base ≤ max_int64)%Z →
  ∃ j w', jitter rand_Int base w = (Ret j, w') ∧ clock w' = clock w ∧
    (0 ≤ j ≤ Z.max 0 (base / 2))%Z.
Proof.
  intros Hr. unfold jitter, quot64.
  assert (min_int64 ≤ Z.quot base 2 ≤ max_int64)%Z.
  { unfold min_int64, max_int64 in *. pose proof (Z.quot_rem' base 2).
    pose proof (Z.rem_bound_abs base 2). lia. }
  rewrite wrap64_id by done. destruct (Z.gtb_spec (Z.quot base 2) 0) as [Hpos|].
  - destruct (rand_range (Z.quot base 2) w) as (o & w' & Ho & Hc & Hn); [lia|].
    unfold bind. rewrite Ho.
    assert (0 < base)%Z by (pose proof (Z.quot_rem' base 2);
      pose proof (Z.rem_bound_abs base 2); lia).
    rewrite Z.quot_div_nonneg in Hn by lia.
    destruct o as [n|]; (eexists _, w'; split; [done|]); split; try done; [|lia].
    specialize (Hn n eq_refl). lia.
  - eexists _, w. split; [done|]. split; [done|lia].
Qed.

(** The context's deadline bounds the whole loop. *)
Lemma Do_loop_deadline ctx d e n left attempt w :
  (min_int64 ≤ base ≤ max_int64)%Z → ctx_done ctx = Some (d, e) →
  ∃ r w', Do_loop rand_Int ctx n base fn left attempt w = (Ret r, w') ∧
    (clock w ≤ clock w' ≤ Z.max (clock w) d)%Z.
Proof.
  intros Hr Hd. revert attempt w. induction left as [|left IH]; intros attempt w; simpl.
  { eexists _, w. split; [done|lia]. }
  unfold bind, ctx_Err. destruct (Err_at ctx (clock w)) as [e0|].
  { eexists _, w. split; [done|lia]. }
  destruct (fn_instant ctx w) as (r1 & w1 & -> & H1).
  destruct r1 as [err|]; [|eexists _, w1; split; [done|lia]].
  destruct (attempt =? n - 1)%Z; [eexists _, w1; split; [done|lia]|].
  destruct (jitter_bound w1 Hr) as (j & w2 & -> & H2 & _). simpl.
  destruct (select2_returns (Done ctx)
    (Some (clock w2 + Z.max 0 (add64 (backoff base attempt) j))%Z) w2) as (b & w3 & Hs);
    [by right|]. rewrite Hs.
  apply select2_cases in Hs as (_ & H3 & t & Ht & Hck & Ho).
  unfold Done in *. rewrite Hd in *.
  destruct b; simplify_eq/=; [eexists _, w3; split; [done|lia]|].
  destruct (IH (attempt + 1)%Z w3) as (r & w' & -> & Hw'). eexists _, w'. split; [done|lia].
Qed.
End Timing.

(** The sleep between two calls, the first of which was attempt [k]: the backoff and
    a jitter below half the base. *)
Definition slept (base k : Z) (c c' : Call) : Prop :=
  ∃ j, (c_start c' = c_end c + base * 2 ^ k + j)%Z ∧ (0 ≤ j)%Z ∧ (j < base / 2 ∨ j = 0)%Z.

Section Sleeps.
Context {St : Type} (rnd : Z → M St (option Z)) (fn : Context → M St (option error)) (base : Z).
Hypothesis rnd_range : ∀ m w, (0 < m)%Z →
  ∃ o w', rnd m w = (Ret o, w') ∧ clock w' = clock w ∧ ∀ n, o = Some n → (0 ≤ n < m)%Z.
Hypothesis base_pos : (0 < base)%Z.

Lemma jitter_small {X} (w : World (St * X)) j w' :
  (base ≤ max_int64)%Z → jitter (λ m, with_log (rnd m)) base w = (Ret j, w') →
  clock w' = clock w ∧ (0 ≤ j)%Z ∧ (j < base / 2 ∨ j = 0)%Z.
Proof.
  intros Hmax. unfold jitter, quot64. rewrite Z.quot_div_nonneg by lia.
  assert (0 ≤ base / 2 ≤ base)%Z by (split; [apply Z.div_pos; lia|apply Z.div_le_upper_bound; lia]).
  rewrite wrap64_id by int64.
  destruct (Z.gtb_spec (base / 2) 0) as [Hpos|]; [|intros [= <- <-]; lia].
  intros (o & w1 & H1 & H2)%bind_Ret_inv. apply with_log_inv in H1 as [_ H1].
  destruct (rnd_range (base / 2) (mkWorld (clock w) (coins w) (heap w).1)) as (o' & w2 & Ho & Hc & Hn); [lia|].
  rewrite H1 in Ho. injection Ho as <- <-. simpl in Hc.
  destruct o as [x|]; injection H2 as <- <-; [specialize (Hn x eq_refl)|]; lia.
Qed.

Lemma Do_loop_sleeps ctx n left attempt w r w' :
  (0 ≤ attempt)%Z → (attempt + Z.of_nat left = n)%Z → (base * 2 ^ (n - 2) + base / 2 ≤ max_int64)%Z →
  Do_loop (λ m, with_log (rnd m)) ctx n base (timed fn) left attempt w = (Ret r, w') →
  ∃ new, (heap w').2 = (heap w).2 ++ new ∧ (∀ c, new !! 0 = Some c → c_start c = clock w) ∧
    ∀ i c c', new !! i = Some c → new !! S i = Some c' → slept base (attempt + Z.of_nat i) c c'.
Proof.
  intros Ha Hn Hmax. revert attempt w Ha Hn. induction left as [|left IH]; intros attempt w Ha Hn H.
  { injection H as <- <-. exists []. by rewrite app_nil_r. }
  simpl in H. apply bind_Ret_inv in H as (e & w1 & H1 & H). injection H1 as <- <-.
  destruct (Err_at ctx (clock w)) as [e0|]; [injection H as <- <-; exists []; by rewrite app_nil_r|].
  apply bind_Ret_inv in H as (r1 & w1 & H1 & H). apply timed_inv in H1.
  assert (∃ new, (heap w1).2 = (heap w).2 ++ new ∧ (∀ c, new !! 0 = Some c → c_start c = clock w) ∧
    ∀ i c c', new !! i = Some c → new !! S i = Some c' → slept base (attempt + Z.of_nat i) c c') as Hone.
  { eexists. split; [exact H1|]. split; [by intros c [= <-]|]. by intros [|i] c c'. }
  destruct r1 as [err|]; [|by injection H as <- <-].
  destruct (Z.eqb_spec attempt (n - 1)) as [Heq|Hne]; [by injection H as <- <-|].
  apply bind_Ret_inv in H as (j & w2 & H2 & H). apply jitter_log in H2 as Hl2.
  assert (2 ^ attempt ≤ 2 ^ (n - 2))%Z as Hp by (apply Z.pow_le_mono_r; lia).
  assert (0 < 2 ^ attempt)%Z as Hpw by (apply Z.pow_pos_nonneg; lia).
  assert (base * 1 ≤ base * 2 ^ attempt ≤ base * 2 ^ (n - 2))%Z as Hbk
    by (split; apply Z.mul_le_mono_nonneg_l; lia).
  assert (0 ≤ base / 2)%Z as Hhalf by (apply Z.div_pos; lia).
  apply jitter_small in H2 as (Hck2 & Hj0 & Hj); [|lia].
  apply bind_Ret_inv in H as (tm & w4 & H4 & H). injection H4 as <- <-.
  apply bind_Ret_inv in H as (b & w3 & H3 & H).
  apply select2_cases in H3 as (Hh3 & _ & t & Ht & Hck & _). destruct b.
  { unfold ctx_Err in H. injection H as <- <-. rewrite Hh3, Hl2. exact Hone. }
  rewrite backoff_exact in Ht by lia. unfold add64 in Ht. rewrite wrap64_id in Ht by int64. injection Ht as <-.
  apply IH in H as (new & Hlog & Hhd & Hgap); [|lia..].
  exists (mkCall (clock w) (clock w1) (Some err) :: new). rewrite Hlog, Hh3, Hl2, H1, <-app_assoc.
  split; [done|]. split; [by intros c [= <-]|].
  intros [|i] c c' Hc Hc'; simpl in Hc.
  - injection Hc as <-. exists j. rewrite (Hhd c' Hc'), Z.add_0_r. simpl. lia.
  - replace (attempt + Z.of_nat (S i))%Z with (attempt + 1 + Z.of_nat i)%Z by lia. by eapply Hgap.
Qed.
End Sleeps.

(** When the operation and the random source return, so does [Do]. *)
Section DoReturns.
Context {St : Type} (rnd : Z → M St (option Z)) (ctx : Context)
  (fn : Context → M St (option error)).
Hypothesis rnd_returns : ∀ m w, ∃ x w', rnd m w = (Ret x, w').
Hypothesis fn_returns : ∀ w, ∃ r w', fn ctx w = (Ret r, w').

Lemma Do_loop_returns n base left attempt w :
  ∃ r w', Do_loop rnd ctx n base fn left attempt w = (Ret r, w').
Proof.
  revert attempt w. induction left as [|left IH]; intros attempt w; [by eexists _, _|].
  simpl. rewrite (bind_Ret (ctx_Err ctx) _ w _ _ eq_refl).
  destruct (Err_at ctx (clock w)); [by eexists _, _|].
  destruct (fn_returns w) as (r & w1 & Hf). run Hf.
  destruct r as [e|]; [|by eexists _, _].
  destruct (_ =? _)%Z; [by eexists _, _|].
  assert (∃ j w2, jitter rnd base w1 = (Ret j, w2)) as (j & w2 & Hj).
  { unfold jitter. destruct (_ >? _)%Z; [|by eexists _, _].
    destruct (rnd_returns (quot64 base 2) w1) as (x & w2 & Hx). run Hx.
    destruct x; by eexists _, _. }
  run Hj.
  rewrite (bind_Ret (NewTimer _) _ w2 _ _ eq_refl).
  destruct (select2_returns (Done ctx)
    (Some (clock w2 + Z.max 0 (add64 (backoff base attempt) j))%Z) w2) as (b & w3 & Hs); [by right|].
  run Hs. destruct b; [by eexists _, _|apply IH].
Qed.

Lemma Do_returns n base w : ∃ r w', Do rnd ctx n base fn w = (Ret r, w').
Proof. unfold Do. destruct (_ <=? _)%Z; [by eexists _, _|apply Do_loop_returns]. Qed.
End DoReturns.

(** ** Theorems *)

(** C8. What [Do] does with its function when [maxAttempts] is positive, for every
    behaviour of the function, of the random source and of the context: [fn] is called at most [maxAttempts]
    times and never once the context is done; every call but the last failed; nil
    is returned exactly when the last call succeeded; and an error is either the
    one of the last attempt, all attempts being used up, or the error of a context
    that is done. *)
Theorem Do_calls {St} (rnd : Z → M St (option Z)) ctx n base fn w r w' :
  (0 < n)%Z → (heap w).2 = [] →
  Do (λ m, with_log (rnd m)) ctx n base (logged fn) w = (Ret r, w') →
  ((heap w').2 = [] ∧ ∃ e, r = Some e ∧ Err_at ctx (clock w') = Some e) ∨
  ((heap w').2 ≠ [] ∧ retry_run ctx (Z.to_nat n) (heap w').2 r (clock w')).
Proof.
  intros Hn H0 H. unfold Do in H. destruct (Z.leb_spec n 0); [lia|].
  apply Do_loop_run in H as (new & Hlog & Hnil & Hcons); [|lia..].
  rewrite H0 in Hlog. simpl in Hlog. rewrite Hlog.
  destruct (decide (new = [])) as [->|Hne]; [left|right]; eauto.
Qed.

Lemma Do_calls_witness :
  let rnd := λ _, ret (Some 0%Z) in
  let fn := λ _, (n <- mget ;; _ <- mput (S n) ;;
                  ret (if n =? 2 then None else Some (ErrorString "down")))%go in
  let w := mkWorld 0 [] (0, []) in
  ∃ r w', Do (λ m, with_log (rnd m)) Background 5 (100 * Millisecond) (logged fn) w = (Ret r, w') ∧
    r = None ∧ length (heap w').2 = 3 ∧
    (((heap w').2 = [] ∧ ∃ e, r = Some e ∧ Err_at Background (clock w') = Some e) ∨
     ((heap w').2 ≠ [] ∧ retry_run Background 5 (heap w').2 r (clock w'))).
Proof.
  eexists _, _. split; [vm_compute; reflexivity|]. split; [reflexivity|]. split; [reflexivity|].
  eapply (Do_calls (λ _, ret (Some 0%Z)) Background 5 (100 * Millisecond)
    (λ _, (n <- mget ;; _ <- mput (S n) ;;
           ret (if n =? 2 then None else Some (ErrorString "down")))%go) (mkWorld 0 [] (0, [])));
    [lia|reflexivity|vm_compute; reflexivity].
Defined.



(** C25. The sleep is interruptible: with a context that is done at [d], [Do]
    returns, and by [d] (at once if [d] is past), whatever the base backoff, the
    number of attempts and the outcomes of an instantaneous [fn]. *)
Theorem Do_honours_deadline {St} (rand_Int : Z → M St (option Z)) fn base ctx d e n w :
  (∀ m w, (0 < m)%Z → ∃ o w', rand_Int m w = (Ret o, w') ∧ clock w' = clock w ∧
     ∀ k, o = Some k → (0 ≤ k < m)%Z) →
  (∀ ctx, instant (fn ctx)) → in_int64 base → ctx_done ctx = Some (d, e) →
  ∃ r w', Do rand_Int ctx n base fn w = (Ret r, w') ∧
    (clock w ≤ clock w' ≤ Z.max (clock w) d)%Z.
Proof.
  intros Hr Hi Hb Hd. unfold Do. destruct (n <=? 0)%Z.
  { eexists _, w. split; [done|lia]. }
  by eapply Do_loop_deadline.
Qed.

Lemma Do_honours_deadline_witness :
  ∃ r w', Do (λ _, ret None) (mkContext (Some (250 * Millisecond, Sentinel Canceled)%Z) None)
      10 (100 * Millisecond) (λ _, ret (Some (ErrorString "down"))) (mkWorld 0 [] tt)
      = (Ret r, w') ∧
    (0 ≤ clock w' ≤ Z.max 0 (250 * Millisecond))%Z.
Proof.
  eapply (Do_honours_deadline (λ _, ret None) (λ _, ret (Some (ErrorString "down")))
    (100 * Millisecond) (mkContext (Some (250 * Millisecond, Sentinel Canceled)%Z) None)
    (250 * Millisecond) (Sentinel Canceled) 10 (mkWorld 0 [] tt)).
  - intros m w Hm'. eexists _, w. split; [reflexivity|]. split; [reflexivity|]. discriminate.
  - intros ctx. apply instant_ret.
  - unfold in_int64, min_int64, max_int64, Millisecond. lia.
  - reflexivity.
Defined.


(** ** Reasoning about a retried operation

    What every failed attempt preserves holds when [Do] fails, and what a
    successful attempt establishes holds when [Do] succeeds. *)
Section DoInvariant.
Context {St : Type} (rnd : Z → M St (option Z)) (ctx : Context)
  (fn : Context → M St (option error)) (I Q : St → Prop).
Hypothesis rnd_keeps : ∀ m w x w', rnd m w = (Ret x, w') → I (heap w) → I (heap w').
Hypothesis fn_keeps : ∀ w r w', fn ctx w = (Ret r, w') → I (heap w) →
  match r with None => Q (heap w') | Some _ => I (heap w') end.

Lemma jitter_keeps base w j w' : jitter rnd base w = (Ret j, w') → I (heap w) → I (heap w').
Proof.
  unfold jitter. destruct (_ >? _)%Z; [|by intros [= <- <-]].
  intros (n & w1 & H1 & H2)%bind_Ret_inv HI.
  destruct n; injection H2 as <- <-; eauto.
Qed.

Lemma Do_loop_keeps n base left attempt w r w' :
  Z.of_nat left = (n - attempt)%Z → 0 < left →
  Do_loop rnd ctx n base fn left attempt w = (Ret r, w') → I (heap w) →
  match r with None => Q (heap w') | Some _ => I (heap w') end.
Proof.
  revert attempt w. induction left as [|left IH]; intros attempt w Hl Hpos H HI; [lia|].
  simpl in H. apply bind_Ret_inv in H as (oe & w1 & H1 & H). injection H1 as <- <-.
  destruct (Err_at ctx (clock w)); [by injection H as <- <-|].
  apply bind_Ret_inv in H as (r1 & w1 & H1 & H). apply fn_keeps in H1; [|done].
  destruct r1 as [err|]; [|by injection H as <- <-].
  destruct (Z.eqb_spec attempt (n - 1)); [by injection H as <- <-|].
  apply bind_Ret_inv in H as (j & w2 & H2 & H). apply jitter_keeps in H2; [|done].
  apply bind_Ret_inv in H as (tm & w4 & H4 & H). injection H4 as <- <-.
  apply bind_Ret_inv in H as (b & w3 & H3 & H).
  apply select2_cases in H3 as (Hh & _ & t & Ht & Hck & _). rewrite <-Hh in H2. destruct b.
  - unfold ctx_Err, Err_at, Done in *. destruct (ctx_done ctx) as [[d e]|]; [|done].
    injection Ht as ->. destruct (Z.leb_spec t (clock w3)); [|lia]. by injection H as <- <-.
  - eapply IH; [|..|exact H|done]; lia.
Qed.

Lemma Do_keeps n base w r w' :
  Do rnd ctx n base fn w = (Ret r, w') → I (heap w) →
  match r with None => Q (heap w') | Some _ => I (heap w') end.
Proof.
  unfold Do. destruct (Z.leb_spec n 0); [by intros [= <- <-]|].
  intros Hrun. eapply Do_loop_keeps; [|..|exact Hrun]; lia.
Qed.
End DoInvariant.
