(* ===== verification/Hooks.v ===== *)
(** * core/hooks.go and core/otelkit/hooks.go: the observability seam

    A [Hooks] value is what an implementation does on each callback; here, the
    list of observable events the call emits. [NoOpHooks] emits none; the
    OpenTelemetry implementation records measurements on its instruments. *)

From stdpp Require Import base list strings.
From Stdlib Require Import ZArith Lia.
From S2P Require Import Prelude Errors.

Inductive attribute : Type :=
| AttrString (key value : string)
| AttrBool (key : string) (value : bool).

(** What can be observed from outside: a recorded measurement, a log line, or
    the callback itself as seen by a custom implementation. *)
Inductive Event : Type :=
| HistogramRecord (instrument : string) (value : Z) (attrs : list attribute)
| CounterAdd (instrument : string) (value : Z) (attrs : list attribute)
| LogError (msg : string) (err : error)
| Callback (method name : string) (duration : Z) (err : option error).

Record Hooks : Type := mkHooks {
  OnComponentStart : string → Z → option error → list Event;
  OnComponentStop : string → Z → option error → list Event;
  OnHealthEvaluated : string → Z → option error → list Event
}.

Definition NoOpHooks : Hooks :=
  mkHooks (λ _ _ _, []) (λ _ _ _, []) (λ _ _ _, []).

(** A custom implementation that just notes its calls. *)
Definition RecordingHooks : Hooks :=
  mkHooks (λ n d e, [Callback "OnComponentStart" n d e])
          (λ n d e, [Callback "OnComponentStop" n d e])
          (λ n d e, [Callback "OnHealthEvaluated" n d e]).

(** ** OpenTelemetry *)

(** The four instruments, by name. *)
Record OTelHooks : Type := mkOTelHooks {
  startDuration : string;
  stopDuration : string;
  healthDuration : string;
  healthErrorsTotal : string
}.

(** Instruments are made by the meter, which may refuse: [meter name] is the
    error it returns, if any. *)
Definition NewHooks (meter : string → option error) : OTelHooks + error :=
  let n1 := "bootkit.component.start.duration" in
  let n2 := "bootkit.component.stop.duration" in
  let n3 := "bootkit.health.duration" in
  let n4 := "bootkit.health.errors.total" in
  match meter n1 with
  | Some e => inr e
  | None =>
      match meter n2 with
      | Some e => inr e
      | None =>
          match meter n3 with
          | Some e => inr e
          | None =>
              match meter n4 with
              | Some e => inr e
              | None => inl (mkOTelHooks n1 n2 n3 n4)
              end
          end
      end
  end.

(** [duration.Milliseconds()]. *)
Definition Milliseconds (d : Z) : Z := Z.quot d Millisecond.

Definition is_err (e : option error) : bool := match e with Some _ => true | None => false end.

Definition OTel_OnComponentStart (h : OTelHooks) (name : string) (d : Z) (e : option error) :
    list Event :=
  [HistogramRecord (startDuration h) (Milliseconds d)
     [AttrString "component" name; AttrBool "error" (is_err e)]].

Definition OTel_OnComponentStop (h : OTelHooks) (name : string) (d : Z) (e : option error) :
    list Event :=
  [HistogramRecord (stopDuration h) (Milliseconds d)
     [AttrString "component" name; AttrBool "error" (is_err e)]].

Definition OTel_OnHealthEvaluated (h : OTelHooks) (kind : string) (d : Z) (e : option error) :
    list Event :=
  let attrs := [AttrString "kind" kind; AttrBool "error" (is_err e)] in
  HistogramRecord (healthDuration h) (Milliseconds d) attrs ::
  (if is_err e then [CounterAdd (healthErrorsTotal h) 1 attrs] else []).

(** [OTelHooks] as a [core.Hooks]. *)
Definition otel_hooks (h : OTelHooks) : Hooks :=
  mkHooks (OTel_OnComponentStart h) (OTel_OnComponentStop h) (OTel_OnHealthEvaluated h).

(** ** Lemmas *)

(** The hooks exist only if the meter accepted all four instruments. *)
Lemma NewHooks_ok meter h :
  NewHooks meter = inl h →
  h = mkOTelHooks "bootkit.component.start.duration" "bootkit.component.stop.duration"
        "bootkit.health.duration" "bootkit.health.errors.total" ∧
  meter (startDuration h) = None ∧ meter (stopDuration h) = None ∧
  meter (healthDuration h) = None ∧ meter (healthErrorsTotal h) = None.
Proof. unfold NewHooks. intros H. destruct_matches_in H. Qed.

Definition counted (instrument : string) (ev : Event) : Z :=
  match ev with
  | CounterAdd i v _ => if decide (i = instrument) then v else 0%Z
  | _ => 0%Z
  end.

(** The sum an error counter shows after a series of evaluations. *)
Definition counter_total (instrument : string) (evs : list Event) : Z :=
  foldr (λ ev n, counted instrument ev + n)%Z 0%Z evs.

Lemma counter_total_app i l1 l2 :
  counter_total i (l1 ++ l2) = (counter_total i l1 + counter_total i l2)%Z.
Proof. unfold counter_total. induction l1; simpl; lia. Qed.
