(* ===== verification/Health.v ===== *)
(** * core/healthkit/health.go: the health check aggregator

    [Aggregator] holds the registered checks per kind and one cached result per
    kind. [evaluate] serves a fresh cached result or runs all checks of the kind
    concurrently, each under its own timeout, joins their errors, stores the
    result and reports to the hook.

    A check is a function of the context it receives and of the instant it is
    started at: it returns at some instant, panics or never returns. The checks
    of one evaluation start together and the evaluation ends with the last of
    them. The order in which failing goroutines send on the error channel is the
    scheduler's: it is the argument [arrival]. *)

From stdpp Require Import base list strings gmap.
From Stdlib Require Import ZArith Lia.
From S2P Require Import Prelude Errors Runtime Hooks.

(** ** Data *)

(** [type Kind int]; any integer is a Kind. *)
Notation Kind := Z (only parsing).
Definition Liveness : Kind := 0%Z.
Definition Readiness : Kind := 1%Z.
Definition Startup : Kind := 2%Z.

Definition Kind_String (k : Kind) : string :=
  if (k =? Liveness)%Z then "liveness"
  else if (k =? Readiness)%Z then "readiness"
  else if (k =? Startup)%Z then "startup"
  else "unknown".

Record Check : Type := mkCheck {
  Fn : Context → Z → Result (Z * option error);
  Name : string;
  CheckKind : Kind;
  Timeout : Z
}.

Record cachedResult : Type := mkCached { cr_err : option error; cr_at : Z }.

Record Aggregator : Type := mkAggregator {
  cache : list (option cachedResult);                    (* [3]atomic.Value *)
  checks : gmap Z (list Check);
  cacheTTL : Z;
  hook : option (Kind → Z → option error → list Event)   (* what a call emits *)
}.

(** The aggregator and what its hook has emitted so far. *)
Record HState : Type := mkHState { agg : Aggregator; hook_calls : list Event }.

Definition set_agg (a : Aggregator) (s : HState) : HState := mkHState a (hook_calls s).

(** ** Construction and registration *)

Definition defaultCacheTTLFloor : Z := Second.
Definition defaultTimeout : Z := (300 * Millisecond)%Z.

Definition NewAggregator (ttl : Z) : Aggregator :=
  let ttl' := if (ttl =? 0)%Z then defaultCacheTTLFloor
              else if (ttl <? 0)%Z then 0%Z else ttl in
  mkAggregator [None; None; None] ∅ ttl' None.

Definition Register1 (c : Check) (a : Aggregator) : Aggregator :=
  let c' := if (Timeout c <=? 0)%Z
            then mkCheck (Fn c) (Name c) (CheckKind c) defaultTimeout else c in
  mkAggregator (cache a)
    (<[CheckKind c := default [] (checks a !! CheckKind c) ++ [c']]> (checks a))
    (cacheTTL a) (hook a).

Fixpoint Register (cs : list Check) (a : Aggregator) : Aggregator :=
  match cs with
  | [] => a
  | c :: cs' => Register cs' (Register1 c a)
  end.

(** A nil hook removes the one that was set. *)
Definition SetHook (h : option (Kind → Z → option error → list Event)) (a : Aggregator) : Aggregator :=
  mkAggregator (cache a) (checks a) (cacheTTL a) h.

(** The liveness/readiness pair of an infrastructure component. *)
Definition StandardChecks (name : string) (readyFn : Context → Z → Result (Z * option error)) :
    list Check :=
  [ mkCheck (λ _ t, Ret (t, None)) (name +:+ "-liveness") Liveness 0;
    mkCheck readyFn (name +:+ "-readiness") Readiness (2 * Second) ].

(** ** Evaluation *)

(** Indexing the array with a Kind outside [0, 2] panics. *)
Definition cache_index (k : Kind) : option nat :=
  if (0 <=? k)%Z && (k <? 3)%Z then Some (Z.to_nat k) else None.

Definition cache_get (a : Aggregator) (i : nat) : option cachedResult :=
  match cache a !! i with Some r => r | None => None end.

Definition cache_put (i : nat) (r : cachedResult) (a : Aggregator) : Aggregator :=
  mkAggregator (<[i := Some r]> (cache a)) (checks a) (cacheTTL a) (hook a).

Definition index_panic : string := "runtime error: index out of range".

(** The cached result, when it is young enough at instant [t]. *)
Definition cache_hit (k : Kind) (t : Z) (a : Aggregator) : Result (option cachedResult) :=
  if (cacheTTL a >? 0)%Z then
    match cache_index k with
    | None => Panic index_panic
    | Some i =>
        match cache_get a i with
        | Some res =>
            if (sat64 (t - cr_at res) <? cacheTTL a)%Z then Ret (Some res) else Ret None
        | None => Ret None
        end
    end
  else Ret None.

(** One goroutine of an evaluation started at [t]: when it ends, and the error
    it sends, if any. *)
Definition run_check (ctx : Context) (t : Z) (c : Check) : Result (Z * option error) :=
  match Fn c (WithTimeout ctx t (Timeout c)) t with
  | Ret (t', e) => Ret (Z.max t t', Errorf_w (Name c +:+ ": ") <$> e)
  | Panic m => Panic m
  | Block => Block
  end.

(** All goroutines: a panic in one of them takes the process down; [wg.Wait]
    returns only when every one of them is done. *)
Fixpoint wait_all (rs : list (Result (Z * option error))) : Result (list (Z * option error)) :=
  match rs with
  | [] => Ret []
  | r :: rs' =>
      match r, wait_all rs' with
      | Panic m, _ => Panic m
      | _, Panic m => Panic m
      | Block, _ => Block
      | _, Block => Block
      | Ret x, Ret xs => Ret (x :: xs)
      end
  end.

Definition sent (rs : list (Z * option error)) : list error := omap snd rs.

Definition last_end (t : Z) (rs : list (Z * option error)) : Z :=
  foldr (λ r m, Z.max r.1 m) t rs.

Section Evaluate.
Context (arrival : list error → list error).

(** The function passed to [flight.Do]. *)
Definition evaluate_live (ctx : Context) (k : Kind) : M HState (option error) :=
  (t <- now ;;
   s <- mget ;;
   let cs := default [] (checks (agg s) !! k) in
   match wait_all (map (run_check ctx t) cs) with
   | Panic m => mpanic m
   | Block => λ w, (Block, w)
   | Ret rs =>
       _ <- takes (last_end t rs - t) tt ;;
       let finalErr := errors_Join (arrival (sent rs)) in
       t1 <- now ;;
       match cache_index k with
       | None => mpanic index_panic
       | Some i =>
           _ <- mmodify (λ s, set_agg (cache_put i (mkCached finalErr t1) (agg s)) s) ;;
           ret finalErr
       end
   end)%go.

Definition run_hook (k : Kind) (d : Z) (err : option error) : M HState unit :=
  mmodify (λ s, match hook (agg s) with
                | Some h => mkHState (agg s) (hook_calls s ++ h k d err)
                | None => s
                end).

Definition evaluate (ctx : Context) (k : Kind) : M HState (option error) :=
  (t <- now ;;
   s <- mget ;;
   match cache_hit k t (agg s) with
   | Panic m => mpanic m
   | Block => λ w, (Block, w)
   | Ret (Some res) => ret (cr_err res)
   | Ret None =>
       err <- evaluate_live ctx k ;;
       t1 <- now ;;
       _ <- run_hook k (sat64 (t1 - t)) err ;;
       ret err
   end)%go.

(** A response: the status, the Content-Type that was set, if any, and the body. *)
Record Response : Type := mkResponse { status : Z; content_type : string; body : string }.

(** [Handler(kind)] serving one request whose context is [ctx]. *)
Definition Handler (k : Kind) (ctx : Context) : M HState Response :=
  (err <- evaluate ctx k ;;
   match err with
   | Some e => ret (mkResponse 503 "" (Error e))
   | None => ret (mkResponse 200 "" "ok")
   end)%go.
End Evaluate.

(** ** Well-formedness *)

(** Three cache slots, and in the bucket of a kind only checks of that kind with
    a positive timeout. *)
Definition agg_wf (a : Aggregator) : Prop :=
  length (cache a) = 3 ∧ (0 ≤ cacheTTL a)%Z ∧
  map_Forall (λ k cs, Forall (λ c, CheckKind c = k ∧ (0 < Timeout c)%Z) cs) (checks a).

(** ** Registration *)

Lemma NewAggregator_wf ttl : agg_wf (NewAggregator ttl).
Proof.
  unfold agg_wf, NewAggregator, defaultCacheTTLFloor, Second, Millisecond. simpl.
  split; [done|]. split; [|apply map_Forall_empty].
  destruct (ttl =? 0)%Z; [lia|]. destruct (Z.ltb_spec ttl 0); lia.
Qed.

Lemma Register1_wf c a : agg_wf a → agg_wf (Register1 c a).
Proof.
  intros (Hl & Ht & Hc). split; [done|]. split; [done|]. simpl.
  apply map_Forall_insert_2; [|done]. apply Forall_app. split.
  - destruct (checks a !! CheckKind c) as [cs|] eqn:E; [|constructor].
    by apply (Hc (CheckKind c)).
  - repeat constructor; destruct (Z.leb_spec (Timeout c) 0); simpl;
      unfold defaultTimeout, Millisecond; auto; lia.
Qed.

Lemma Register_wf cs a : agg_wf a → agg_wf (Register cs a).
Proof. revert a. induction cs; simpl; auto using Register1_wf. Qed.

Lemma SetHook_wf h a : agg_wf a → agg_wf (SetHook h a).
Proof. by intros (? & ? & ?). Qed.

Lemma cache_put_wf i r a : agg_wf a → agg_wf (cache_put i r a).
Proof. intros (? & ? & ?). split; [|done]. simpl. by rewrite length_insert. Qed.

(** The check as [Register] stores it. *)
Definition normalize (c : Check) : Check :=
  if (Timeout c <=? 0)%Z
  then mkCheck (Fn c) (Name c) (CheckKind c) defaultTimeout else c.

Definition bucket (a : Aggregator) (k : Kind) : list Check := default [] (checks a !! k).

Lemma Register_bucket cs a k :
  bucket (Register cs a) k =
  bucket a k ++ map normalize (List.filter (λ c, (CheckKind c =? k)%Z) cs).
Proof.
  revert a. induction cs as [|c cs IH]; intros a; simpl; [by rewrite app_nil_r|].
  rewrite IH. unfold bucket at 1. simpl. destruct (Z.eqb_spec (CheckKind c) k) as [<-|Hne].
  - rewrite lookup_insert_eq. simpl. by rewrite <-app_assoc.
  - by rewrite lookup_insert_ne.
Qed.

Lemma Register_frame cs a :
  cache (Register cs a) = cache a ∧ cacheTTL (Register cs a) = cacheTTL a ∧
  hook (Register cs a) = hook a.
Proof.
  revert a. induction cs as [|c cs IH]; intros a; simpl; [done|]. apply (IH (Register1 c a)).
Qed.

(** ** Evaluation *)

Lemma wait_all_Ret rs xs : wait_all rs = Ret xs ↔ rs = map Ret xs.
Proof.
  revert xs. induction rs as [|r rs IH]; intros xs; simpl.
  - split; [by intros [= <-]|]. by destruct xs.
  - destruct r as [x| |], (wait_all rs) as [ys| |];
      (split; [intros H|intros H; destruct xs; simplify_eq/=]); try done.
    + injection H as <-. simpl. f_equal. by apply IH.
    + f_equal. f_equal. symmetry. by injection (proj2 (IH xs) eq_refl).
    + by discriminate (proj2 (IH xs) eq_refl).
    + by discriminate (proj2 (IH xs) eq_refl).
Qed.

Lemma last_end_ge t rs : (t ≤ last_end t rs)%Z.
Proof. induction rs; simpl; lia. Qed.

Lemma last_end_le t b rs :
  (t ≤ b)%Z → Forall (λ r, (r.1 ≤ b)%Z) rs → (last_end t rs ≤ b)%Z.
Proof. intros Ht. induction 1; simpl; lia. Qed.

Lemma cache_index_Some k i : cache_index k = Some i ↔ (0 ≤ k < 3)%Z ∧ i = Z.to_nat k.
Proof.
  unfold cache_index. destruct (Z.leb_spec 0 k), (Z.ltb_spec k 3); simpl;
    (split; [intros [=]|intros [??]]); subst; try lia; auto.
Qed.

Section EvaluateLemmas.
Context (arrival : list error → list error).

(** The outcome of a live evaluation, as one equation. *)
Lemma evaluate_live_eq ctx k w rs :
  (0 ≤ k < 3)%Z →
  map (run_check ctx (clock w)) (bucket (agg (heap w)) k) = map Ret rs →
  let err := errors_Join (arrival (sent rs)) in
  let t1 := last_end (clock w) rs in
  evaluate_live arrival ctx k w =
  (Ret err, mkWorld t1 (coins w)
     (set_agg (cache_put (Z.to_nat k) (mkCached err t1) (agg (heap w))) (heap w))).
Proof.
  intros Hk Hrs. simpl. unfold evaluate_live, bind, now, mget, takes, advance_to.
  fold (bucket (agg (heap w)) k).
  rewrite (proj2 (wait_all_Ret _ rs) Hrs).
  rewrite (proj2 (cache_index_Some k (Z.to_nat k))) by done. simpl.
  pose proof (last_end_ge (clock w) rs).
  replace (Z.max (clock w) (clock w + (last_end (clock w) rs - clock w)))%Z
    with (last_end (clock w) rs) by lia. done.
Qed.

Lemma evaluate_live_inv ctx k w r w' :
  evaluate_live arrival ctx k w = (Ret r, w') →
  ∃ rs, (0 ≤ k < 3)%Z ∧
    map (run_check ctx (clock w)) (bucket (agg (heap w)) k) = map Ret rs ∧
    r = errors_Join (arrival (sent rs)) ∧
    w' = mkWorld (last_end (clock w) rs) (coins w)
      (set_agg (cache_put (Z.to_nat k) (mkCached r (last_end (clock w) rs)) (agg (heap w)))
         (heap w)).
Proof.
  intros H. pose proof H as H'. unfold evaluate_live, bind, now, mget in H.
  fold (bucket (agg (heap w)) k) in H.
  destruct (wait_all _) as [rs| |] eqn:Hw; [|done..].
  apply wait_all_Ret in Hw. exists rs. unfold takes in H.
  destruct (cache_index k) as [i|] eqn:Hi; [|done].
  apply cache_index_Some in Hi as [Hk ->].
  rewrite (evaluate_live_eq ctx k w rs Hk Hw) in H'. by simplify_eq.
Qed.

(** An evaluation that does not return has stored nothing. *)
Lemma evaluate_live_heap ctx k w r w' :
  evaluate_live arrival ctx k w = (r, w') →
  match r with Ret _ => True | _ => heap w' = heap w end.
Proof.
  unfold evaluate_live, bind, now, mget, takes.
  destruct (wait_all _) as [rs| |]; [destruct (cache_index k)|..]; by intros [= <- <-].
Qed.

(** A miss runs the checks, then reports to the hook. *)
Lemma evaluate_miss ctx k w :
  cache_hit k (clock w) (agg (heap w)) = Ret None →
  evaluate arrival ctx k w =
  (err <- evaluate_live arrival ctx k ;;
   t1 <- now ;;
   _ <- run_hook k (sat64 (t1 - clock w)) err ;;
   ret err)%go w.
Proof. intros H. unfold evaluate, bind, now, mget. by rewrite H. Qed.

Lemma evaluate_hit ctx k w res :
  cache_hit k (clock w) (agg (heap w)) = Ret (Some res) →
  evaluate arrival ctx k w = (Ret (cr_err res), w).
Proof. intros H. unfold evaluate, bind, now, mget. by rewrite H. Qed.

Lemma run_hook_eq k d err w :
  run_hook k d err w =
  (Ret tt, mkWorld (clock w) (coins w)
     (mkHState (agg (heap w))
        (hook_calls (heap w) ++
         match hook (agg (heap w)) with Some h => h k d err | None => [] end))).
Proof.
  unfold run_hook, mmodify. destruct (hook _); [done|].
  rewrite app_nil_r. by destruct (heap w).
Qed.

(** What a live evaluation of an in-range kind does to the state. *)
Definition evaluated (k : Kind) (t0 t1 : Z) (err : option error) (s : HState) : HState :=
  mkHState (cache_put (Z.to_nat k) (mkCached err t1) (agg s))
    (hook_calls s ++
     match hook (agg s) with Some h => h k (sat64 (t1 - t0)) err | None => [] end).

Lemma evaluate_miss_eq ctx k w rs :
  (0 ≤ k < 3)%Z →
  cache_hit k (clock w) (agg (heap w)) = Ret None →
  map (run_check ctx (clock w)) (bucket (agg (heap w)) k) = map Ret rs →
  let err := errors_Join (arrival (sent rs)) in
  let t1 := last_end (clock w) rs in
  evaluate arrival ctx k w =
  (Ret err, mkWorld t1 (coins w) (evaluated k (clock w) t1 err (heap w))).
Proof.
  intros Hk Hmiss Hrs. rewrite evaluate_miss by done.
  unfold bind, now. rewrite (evaluate_live_eq ctx k w rs Hk Hrs).
  by rewrite run_hook_eq.
Qed.
End EvaluateLemmas.

(** ** Outcomes of the checks *)

Definition check_result (ctx : Context) (t : Z) (c : Check) : Result (Z * option error) :=
  Fn c (WithTimeout ctx t (Timeout c)) t.

(** The check returns, with whatever result. *)
Definition returns (ctx : Context) (t : Z) (c : Check) : Prop :=
  ∃ t' e, check_result ctx t c = Ret (t', e).

Definition passes (ctx : Context) (t : Z) (c : Check) : Prop :=
  ∃ t', check_result ctx t c = Ret (t', None).

(** The errors of the failing checks, in registration order. *)
Definition failures (ctx : Context) (t : Z) (cs : list Check) : list error :=
  omap (λ c, match check_result ctx t c with
             | Ret (_, Some e) => Some (Errorf_w (Name c +:+ ": ") e)
             | _ => None
             end) cs.

Lemma run_checks_Ret ctx t cs :
  Forall (returns ctx t) cs →
  ∃ rs, map (run_check ctx t) cs = map Ret rs ∧ sent rs = failures ctx t cs.
Proof.
  induction 1 as [|c cs (t' & e & Hc) _ (rs & IH1 & IH2)]; [by exists []|].
  exists ((Z.max t t', Errorf_w (Name c +:+ ": ") <$> e) :: rs). simpl.
  rewrite IH1. unfold run_check. fold (check_result ctx t c). rewrite Hc. split; [done|].
  unfold sent, failures in *. simpl.
  destruct e; simpl; by rewrite IH2.
Qed.

Lemma failures_nil ctx t cs :
  Forall (returns ctx t) cs → failures ctx t cs = [] ↔ Forall (passes ctx t) cs.
Proof.
  induction 1 as [|c cs (t' & e & Hc) _ IH]; [by split|].
  unfold failures in *. simpl. rewrite Forall_cons, <-IH. unfold passes. rewrite Hc.
  destruct e; simpl; naive_solver.
Qed.

(** When every check returns by [b], so does the evaluation. *)
Lemma run_checks_bound ctx t cs rs b :
  (t ≤ b)%Z → map (run_check ctx t) cs = map Ret rs →
  Forall (λ c, ∀ t' e, check_result ctx t c = Ret (t', e) → (t' ≤ b)%Z) cs →
  (last_end t rs ≤ b)%Z.
Proof.
  intros Ht Hrs Hc. apply last_end_le; [done|].
  revert rs Hrs. induction Hc as [|c cs Hc _ IH]; intros [|[t' e] rs] Hrs; simplify_eq/=; constructor; auto.
  unfold run_check in *. fold (check_result ctx t c) in *.
  destruct (check_result ctx t c) as [[t2 e2]| |] eqn:E; simplify_eq/=.
  specialize (Hc _ _ eq_refl). lia.
Qed.

Lemma cache_hit_after k i r t a :
  cache_index k = Some i → length (cache a) = 3 → (cr_at r ≤ t < cr_at r + cacheTTL a)%Z →
  cache_hit k t (cache_put i r a) = Ret (Some r).
Proof.
  intros Hi Hl Ht. unfold cache_hit. simpl. destruct (Z.gtb_spec (cacheTTL a) 0); [|lia].
  rewrite Hi. unfold cache_get; simpl.
  apply cache_index_Some in Hi as [Hk ->].
  rewrite list_lookup_insert_eq by lia.
  unfold sat64, min_int64, max_int64. destruct (Z.ltb_spec (Z.max (- 2 ^ 63)
    (Z.min (2 ^ 63 - 1) (t - cr_at r))) (cacheTTL a)); [done|lia].
Qed.

Lemma cache_hit_expired k t a i r :
  cache_index k = Some i → cache_get a i = Some r → (cacheTTL a ≤ max_int64)%Z →
  (cr_at r + cacheTTL a ≤ t)%Z → cache_hit k t a = Ret None.
Proof.
  intros Hi Hg Hm Ht. unfold cache_hit. destruct (cacheTTL a >? 0)%Z; [|done].
  rewrite Hi, Hg. unfold sat64, min_int64, max_int64 in *.
  destruct (Z.ltb_spec (Z.max (- 2 ^ 63) (Z.min (2 ^ 63 - 1) (t - cr_at r))) (cacheTTL a));
    [lia|done].
Qed.

Lemma cache_hit_disabled k t a : (cacheTTL a ≤ 0)%Z → cache_hit k t a = Ret None.
Proof. intros H. unfold cache_hit. destruct (Z.gtb_spec (cacheTTL a) 0); [lia|done]. Qed.

(** ** Theorems *)

(** C9. A live evaluation tells the truth. For a kind of the three, with no fresh
    cached result, and checks that all return: [evaluate] returns; the result is nil
    exactly when every registered check of the kind passed under its own timeout;
    otherwise it joins one error per failing check, wrapped with the check's name,
    in some order; and the result is cached with the instant of completion. *)
Theorem evaluate_reports_checks arrival ctx k w :
  (∀ l, arrival l ≡ₚ l) → (0 ≤ k < 3)%Z → agg_wf (agg (heap w)) →
  cache_hit k (clock w) (agg (heap w)) = Ret None →
  Forall (returns ctx (clock w)) (bucket (agg (heap w)) k) →
  ∃ err w', evaluate arrival ctx k w = (Ret err, w') ∧
    (err = None ↔ Forall (passes ctx (clock w)) (bucket (agg (heap w)) k)) ∧
    (∃ es, es ≡ₚ failures ctx (clock w) (bucket (agg (heap w)) k) ∧ err = errors_Join es) ∧
    cache_get (agg (heap w')) (Z.to_nat k) = Some (mkCached err (clock w')).
Proof.
  intros Ha Hk (Hlen & _) Hmiss Hret.
  destruct (run_checks_Ret _ _ _ Hret) as (rs & Hrs & Hsent).
  rewrite (evaluate_miss_eq arrival ctx k w rs Hk Hmiss Hrs).
  eexists _, _. split; [done|]. split_and!.
  - rewrite errors_Join_None, <-failures_nil, <-Hsent by done. split; intros E.
    + apply Permutation_nil_r. by rewrite <-E, Ha.
    + apply Permutation_nil_r. by rewrite Ha, E.
  - eexists. split; [|done]. by rewrite Ha, Hsent.
  - unfold cache_get; simpl. rewrite list_lookup_insert_eq; [done|lia].
Qed.

(** A concrete aggregator: a passing and a failing readiness check. *)
Definition sample_checks : list Check :=
  StandardChecks "db" (λ _ t, Ret (t + 5 * Millisecond, None)%Z) ++
  StandardChecks "redis" (λ _ t, Ret (t + 9 * Millisecond, Some (ErrorString "refused"))%Z).

Definition sample_state : HState := mkHState (Register sample_checks (NewAggregator 0)) [].

Lemma evaluate_reports_checks_witness :
  ∃ err w', evaluate id Background Readiness (mkWorld 0 [] sample_state) = (Ret err, w') ∧
    (err = None ↔ Forall (passes Background 0) (bucket (agg sample_state) Readiness)) ∧
    (∃ es, es ≡ₚ failures Background 0 (bucket (agg sample_state) Readiness) ∧
       err = errors_Join es) ∧
    cache_get (agg (heap w')) (Z.to_nat Readiness) = Some (mkCached err (clock w')).
Proof.
  apply (evaluate_reports_checks id Background Readiness (mkWorld 0 [] sample_state)).
  - reflexivity.
  - unfold Readiness. lia.
  - apply Register_wf, NewAggregator_wf.
  - reflexivity.
  - repeat constructor; eexists _, _; reflexivity.
Defined.

(** C12. Caching. After a live evaluation that completed at [t1] with a positive
    TTL, a probe of the same kind by any caller at an instant in [t1, t1 + TTL)
    returns the same result and changes nothing: no check runs and the hook is
    silent. From [t1 + TTL] on the entry is stale and is not served. *)
Theorem evaluate_cached arrival ctx k w err w1 ctx2 w2 :
  agg_wf (agg (heap w)) → (cacheTTL (agg (heap w)) ≤ max_int64)%Z →
  cache_hit k (clock w) (agg (heap w)) = Ret None →
  evaluate arrival ctx k w = (Ret err, w1) → heap w2 = heap w1 →
  let ttl := cacheTTL (agg (heap w)) in
  ((clock w1 ≤ clock w2 < clock w1 + ttl)%Z →
   evaluate arrival ctx2 k w2 = (Ret err, w2)) ∧
  ((clock w1 + ttl ≤ clock w2)%Z → cache_hit k (clock w2) (agg (heap w2)) = Ret None).
Proof.
  intros (Hlen & _) Hmax Hmiss He Hh. pose proof He as He'.
  rewrite evaluate_miss in He by done.
  apply bind_Ret_inv in He as (r & w3 & Hl & _).
  apply evaluate_live_inv in Hl as (rs & Hk & Hrs & _ & _).
  rewrite (evaluate_miss_eq arrival ctx k w rs Hk Hmiss Hrs) in He'. simplify_eq/=.
  rewrite Hh. simpl. assert (cache_index k = Some (Z.to_nat k)) as Hi
    by (by apply cache_index_Some).
  split; intros Ht.
  - erewrite evaluate_hit; [|rewrite Hh; apply cache_hit_after; [done|lia|exact Ht]]. done.
  - eapply (cache_hit_expired _ _ _ _ (mkCached _ (last_end (clock w) rs)));
      [done| |done|exact Ht].
    unfold cache_get; simpl. rewrite list_lookup_insert_eq; [done|lia].
Qed.

Lemma evaluate_cached_witness :
  ∃ err w1, evaluate id Background Readiness (mkWorld 0 [] sample_state) = (Ret err, w1) ∧
    clock w1 = (9 * Millisecond)%Z ∧
    let w2 := mkWorld (500 * Millisecond)%Z [] (heap w1) in
    ((clock w1 ≤ clock w2 < clock w1 + Second)%Z →
     evaluate id (mkContext (Some (0%Z, Sentinel Canceled)) None) Readiness w2 = (Ret err, w2)) ∧
    ((clock w1 + Second ≤ clock w2)%Z →
     cache_hit Readiness (clock w2) (agg (heap w2)) = Ret None).
Proof.
  eexists _, _. split; [reflexivity|]. split; [reflexivity|].
  apply (evaluate_cached id Background Readiness (mkWorld 0 [] sample_state)).
  - apply Register_wf, NewAggregator_wf.
  - vm_compute. discriminate.
  - reflexivity.
  - reflexivity.
  - reflexivity.
Defined.

(** An evaluation is bounded by the registered timeouts: when every check
    returns by the time its own context is done, [evaluate] returns within the
    largest timeout registered for the kind, and within the caller's own deadline. *)
Theorem evaluate_bounded arrival ctx k w b :
  (0 ≤ k < 3)%Z → cache_hit k (clock w) (agg (heap w)) = Ret None →
  Forall (λ c, ∃ t' e, check_result ctx (clock w) c = Ret (t', e) ∧
     ∀ d, Done (WithTimeout ctx (clock w) (Timeout c)) = Some d →
          (t' ≤ Z.max (clock w) d)%Z)
    (bucket (agg (heap w)) k) →
  Forall (λ c, (Timeout c ≤ b)%Z) (bucket (agg (heap w)) k) → (0 ≤ b)%Z →
  ∃ err w', evaluate arrival ctx k w = (Ret err, w') ∧
    (clock w ≤ clock w' ≤ clock w + b)%Z ∧
    (∀ d e, ctx_done ctx = Some (d, e) → (clock w' ≤ Z.max (clock w) d)%Z).
Proof.
  intros Hk Hmiss Hret Htmo Hb.
  destruct (run_checks_Ret ctx (clock w) (bucket (agg (heap w)) k)) as (rs & Hrs & _).
  { eapply Forall_impl; [exact Hret|]. intros c (t' & e & H & _). by eexists _, _. }
  rewrite (evaluate_miss_eq arrival ctx k w rs Hk Hmiss Hrs).
  eexists _, _. split; [done|]. simpl. split; [split; [apply last_end_ge|]|].
  - eapply run_checks_bound; [lia|done|].
    rewrite Forall_forall in *. intros c Hc t' e He.
    destruct (Hret c Hc) as (t2 & e2 & He2 & Hdl). rewrite He in He2. simplify_eq.
    destruct (WithTimeout_deadline ctx (clock w) (Timeout c)) as (d & e3 & Hd & Hle).
    specialize (Hdl d). unfold Done in Hdl. rewrite Hd in Hdl. specialize (Hdl eq_refl).
    specialize (Htmo c Hc). simpl in Htmo. lia.
  - intros d e0 Hd. eapply run_checks_bound; [lia|done|].
    rewrite Forall_forall in *. intros c Hc t' e He.
    destruct (Hret c Hc) as (t2 & e2 & He2 & Hdl). rewrite He in He2. simplify_eq.
    unfold Done, WithTimeout in Hdl. rewrite Hd in Hdl.
    destruct (Z.leb_spec d (clock w + Z.max 0 (Timeout c)));
      (rewrite ?Hd in Hdl; simpl in Hdl; specialize (Hdl _ eq_refl); lia).
Qed.

Lemma evaluate_bounded_witness :
  ∃ err w', evaluate id Background Readiness (mkWorld 0 [] sample_state) = (Ret err, w') ∧
    (0 ≤ clock w' ≤ 0 + 2 * Second)%Z ∧
    (∀ d e, ctx_done Background = Some (d, e) → (clock w' ≤ Z.max 0 d)%Z).
Proof.
  apply (evaluate_bounded id Background Readiness (mkWorld 0 [] sample_state) (2 * Second)).
  - unfold Readiness. lia.
  - reflexivity.
  - constructor; [|constructor; [|constructor]];
      (eexists _, _; split; [reflexivity|]; intros d [= <-]; vm_compute; discriminate).
  - constructor; [|constructor; [|constructor]]; vm_compute; discriminate.
  - unfold Second, Millisecond. lia.
Defined.

(** ** Sequences of operations *)

(** A call on the aggregator. *)
Inductive op : Type :=
| OpRegister (cs : list Check)
| OpSetHook (h : option (Kind → Z → option error → list Event))
| OpEvaluate (ctx : Context) (k : Kind).

Definition run_op (arrival : list error → list error) (o : op) (w : World HState) :
    World HState :=
  match o with
  | OpRegister cs => mkWorld (clock w) (coins w) (set_agg (Register cs (agg (heap w))) (heap w))
  | OpSetHook h => mkWorld (clock w) (coins w) (set_agg (SetHook h (agg (heap w))) (heap w))
  | OpEvaluate ctx k => (evaluate arrival ctx k w).2
  end.

Definition registered (ops : list op) : list Check :=
  flat_map (λ o, match o with OpRegister cs => cs | _ => [] end) ops.

(** An evaluation, whatever its outcome, leaves the checks, the TTL and the
    number of slots alone, and the slots of the other kinds. *)
Lemma evaluate_frame arrival ctx k w :
  let w' := (evaluate arrival ctx k w).2 in
  checks (agg (heap w')) = checks (agg (heap w)) ∧
  cacheTTL (agg (heap w')) = cacheTTL (agg (heap w)) ∧
  length (cache (agg (heap w'))) = length (cache (agg (heap w))) ∧
  ∀ i, i ≠ Z.to_nat k → cache_get (agg (heap w')) i = cache_get (agg (heap w)) i.
Proof.
  destruct (evaluate arrival ctx k w) as [r w'] eqn:E. simpl.
  unfold evaluate, bind, now, mget, mpanic, ret in E.
  destruct (cache_hit k (clock w) (agg (heap w))) as [[res|]| |] eqn:Hh; try (by simplify_eq).
  destruct (evaluate_live arrival ctx k w) as [r1 w1] eqn:Hl.
  assert (w' = match r1 with
    | Ret err => (run_hook k (sat64 (clock w1 - clock w)) err w1).2 | _ => w1 end) as ->.
  { destruct r1; by simplify_eq/=. }
  destruct r1 as [err| |].
  - apply evaluate_live_inv in Hl as (rs & Hk & Hrs & -> & ->). rewrite run_hook_eq. simpl.
    split_and!; [done|done|by rewrite length_insert|].
    intros i Hi. unfold cache_get; simpl. by rewrite list_lookup_insert_ne.
  - by rewrite (evaluate_live_heap arrival ctx k w (Panic msg) w1 Hl).
  - by rewrite (evaluate_live_heap arrival ctx k w Block w1 Hl).
Qed.

Lemma run_op_inv arrival o w k :
  agg_wf (agg (heap w)) →
  agg_wf (agg (heap (run_op arrival o w))) ∧
  bucket (agg (heap (run_op arrival o w))) k =
  bucket (agg (heap w)) k ++
  map normalize (List.filter (λ c, (CheckKind c =? k)%Z) (registered [o])).
Proof.
  intros Hwf. destruct o as [cs|h|ctx k']; simpl; rewrite ?app_nil_r.
  - split; [by apply Register_wf|apply Register_bucket].
  - split; [by apply SetHook_wf|done].
  - destruct (evaluate_frame arrival ctx k' w) as (Hc & Ht & Hl & _).
    destruct Hwf as (? & ? & ?). unfold agg_wf, bucket. rewrite Hc, Ht, Hl. done.
Qed.

(** After any sequence of registrations, hook changes and evaluations
    (returning, panicking or blocked) on a new aggregator, the aggregator is well
    formed: three cache slots, every check filed under its own kind with a positive
    timeout; and the checks of a kind are exactly the registered ones of that kind,
    in registration order, with 300ms in place of a missing timeout. *)
Theorem Aggregator_invariant arrival ttl ops t cs k :
  let w := foldl (λ w o, run_op arrival o w) (mkWorld t cs (mkHState (NewAggregator ttl) [])) ops in
  agg_wf (agg (heap w)) ∧
  bucket (agg (heap w)) k =
  map normalize (List.filter (λ c, (CheckKind c =? k)%Z) (registered ops)).
Proof.
  simpl. set (w0 := mkWorld _ _ _).
  assert (∀ ops' w, agg_wf (agg (heap w)) →
    agg_wf (agg (heap (foldl (λ w o, run_op arrival o w) w ops'))) ∧
    bucket (agg (heap (foldl (λ w o, run_op arrival o w) w ops'))) k =
    bucket (agg (heap w)) k ++
    map normalize (List.filter (λ c, (CheckKind c =? k)%Z) (registered ops'))) as Hgen.
  { induction ops' as [|o ops' IH]; intros w Hwf; simpl; [by rewrite app_nil_r|].
    destruct (run_op_inv arrival o w k Hwf) as [Hwf' Hb].
    destruct (IH _ Hwf') as [? ->]. split; [done|]. rewrite Hb, <-app_assoc.
    unfold registered at 3. simpl. by rewrite app_nil_r, List.filter_app, map_app. }
  apply (Hgen ops w0), NewAggregator_wf.
Qed.

(** C33. A probe whose client is gone poisons the cache. Let the only check of a
    kind behave like a ping: it fails with its context's error when that context is
    done and passes otherwise. If a probe arrives with an already cancelled request
    context, the failure it provokes is cached, and every probe of the kind in the
    next TTL is told the backend is down, although the check would pass for it. *)
Theorem evaluate_caches_cancelled_probe arrival ctx k w c t2 cs2 :
  (∀ l, arrival l ≡ₚ l) → (0 ≤ k < 3)%Z → agg_wf (agg (heap w)) →
  cache_hit k (clock w) (agg (heap w)) = Ret None → bucket (agg (heap w)) k = [c] →
  (∀ ctx t, Fn c ctx t = Ret (t, Err_at ctx t)) →
  Err_at ctx (clock w) = Some (Sentinel Canceled) →
  (clock w ≤ t2 < clock w + cacheTTL (agg (heap w)))%Z →
  ∃ e w1, evaluate arrival ctx k w = (Ret (Some e), w1) ∧ errors_Is e Canceled = true ∧
    passes Background t2 c ∧
    evaluate arrival Background k (mkWorld t2 cs2 (heap w1)) =
      (Ret (Some e), mkWorld t2 cs2 (heap w1)).
Proof.
  intros Ha Hk Hwf Hmiss Hb Hfn Hctx Ht2. pose proof Hwf as (Hlen & _ & Hall).
  assert (0 < Timeout c)%Z as Htmo.
  { unfold bucket in Hb. destruct (checks (agg (heap w)) !! k) as [cs|] eqn:E; [|done].
    simpl in Hb. subst cs. specialize (Hall _ _ E). simpl in Hall.
    by apply Forall_cons_1 in Hall as [[_ ?] _]. }
  set (e0 := Errorf_w (Name c +:+ ": ") (Sentinel Canceled)).
  assert (map (run_check ctx (clock w)) (bucket (agg (heap w)) k) =
          map Ret [(clock w, Some e0)]) as Hrs.
  { rewrite Hb. simpl. unfold run_check. rewrite (WithTimeout_done _ _ _ _ Hctx), Hfn, Hctx.
    simpl. by rewrite Z.max_id. }
  pose proof (evaluate_miss_eq arrival ctx k w _ Hk Hmiss Hrs) as He. simpl in He.
  rewrite (proj1 (Permutation_singleton_r _ _) (Ha [e0])), Z.max_id in He. simpl in He.
  eexists _, _. split; [exact He|]. split; [done|]. split.
  - exists t2. unfold check_result. rewrite Hfn. unfold Err_at, WithTimeout. simpl.
    destruct (Z.leb_spec (t2 + Z.max 0 (Timeout c)) t2); [lia|done].
  - eapply (evaluate_hit arrival Background k (mkWorld t2 cs2 _) (mkCached _ (clock w))).
    apply cache_hit_after; [by apply cache_index_Some|done|exact Ht2].
Qed.

Definition ping_state : HState :=
  mkHState (Register [mkCheck (λ ctx t, Ret (t, Err_at ctx t)) "redis-readiness" Readiness
    (2 * Second)] (NewAggregator 0)) [].

Lemma evaluate_caches_cancelled_probe_witness :
  ∃ e w1, evaluate id (mkContext (Some (0%Z, Sentinel Canceled)) None) Readiness
            (mkWorld 10 [] ping_state) = (Ret (Some e), w1) ∧
    errors_Is e Canceled = true ∧
    passes Background 20 (mkCheck (λ ctx t, Ret (t, Err_at ctx t)) "redis-readiness" Readiness
      (2 * Second)) ∧
    evaluate id Background Readiness (mkWorld 20 [] (heap w1)) =
      (Ret (Some e), mkWorld 20 [] (heap w1)).
Proof.
  apply (evaluate_caches_cancelled_probe id (mkContext (Some (0%Z, Sentinel Canceled)) None)
    Readiness (mkWorld 10 [] ping_state)).
  - reflexivity.
  - unfold Readiness. lia.
  - apply Register_wf, NewAggregator_wf.
  - reflexivity.
  - reflexivity.
  - reflexivity.
  - reflexivity.
  - vm_compute. split; congruence.
Defined.
