(* ===== verification/Runner.v ===== *)
(** * core/runner.go and core/component.go: the application runner

    [ApplicationRunner] wires health checks, supervises the concurrent [Start]
    calls of its services and shuts the services down in reverse order within a
    total time budget.

    - Options and [healthWiring] are functions on the runner.
    - [shutdownOrchestrator] is sequential: a computation of the effect monad in
      virtual time, over the state [S] the components share.
    - [startSupervisor] runs goroutines in an errgroup: a labelled transition
      system. A label says which goroutine moves and what its environment
      answers.
    - [Run] composes the three, as a relation with the state the supervisor ends in;
      a [Start] may return, panic or never return. *)

From stdpp Require Import base list strings gmap.
From Stdlib Require Import ZArith Lia.
From S2P Require Import Prelude Errors Runtime Hooks Health.

(** ** Components *)

(** A [Component]; whether it is also a [Readyable] with a non-nil channel, and
    the checks it contributes if it is a [HealthCheckProvider]. *)
Record Component (S : Type) : Type := mkComponent {
  Component_Name : string;
  Component_Stop : Context → M S (option error);
  Component_Readyable : bool;
  Component_HealthChecks : option (list Check)
}.
Arguments mkComponent {S}.
Arguments Component_Name {S}.
Arguments Component_Stop {S}.
Arguments Component_Readyable {S}.
Arguments Component_HealthChecks {S}.

Record ApplicationRunner (S : Type) : Type := mkRunner {
  logger : bool;                           (* r.logger != nil *)
  services : list (Component S);
  healthAggregator : option Aggregator;    (* a pointer, possibly nil *)
  startDeadline : Z;
  shutdownTimeout : Z;
  hooks : Hooks
}.
Arguments mkRunner {S}.
Arguments logger {S}.
Arguments services {S}.
Arguments healthAggregator {S}.
Arguments startDeadline {S}.
Arguments shutdownTimeout {S}.
Arguments hooks {S}.

(** ** Options *)

Section Options.
Context {S : Type}.
Notation Runner := (ApplicationRunner S).
Notation Option := (Runner → Runner).

Definition WithLogger (l : bool) : Option := λ a,
  mkRunner l (services a) (healthAggregator a) (startDeadline a) (shutdownTimeout a) (hooks a).

Definition WithShutdownTimeout (d : Z) : Option := λ a,
  if (d >? 0)%Z then
    mkRunner (logger a) (services a) (healthAggregator a) (startDeadline a) d (hooks a)
  else a.

Definition WithStartDeadline (d : Z) : Option := λ a,
  if (d >? 0)%Z then
    mkRunner (logger a) (services a) (healthAggregator a) d (shutdownTimeout a) (hooks a)
  else a.

Definition WithServices (cs : list (Component S)) : Option := λ a,
  mkRunner (logger a) (services a ++ cs) (healthAggregator a) (startDeadline a)
    (shutdownTimeout a) (hooks a).

Definition WithHooks (h : option Hooks) : Option := λ a,
  match h with
  | Some h' => mkRunner (logger a) (services a) (healthAggregator a) (startDeadline a)
                 (shutdownTimeout a) h'
  | None => a
  end.

Definition WithHealthAggregator (agg : option Aggregator) : Option := λ a,
  mkRunner (logger a) (services a) agg (startDeadline a) (shutdownTimeout a) (hooks a).

Definition WithHealthCacheTTL (d : Z) : Option :=
  WithHealthAggregator (Some (NewAggregator d)).

Definition NewApplicationRunner (options : list Option) : Runner :=
  foldl (λ a o, o a)
    (mkRunner false [] (Some (NewAggregator 0)) 0 (15 * Second) NoOpHooks) options.

Definition HealthAggregator (r : Runner) : option Aggregator := healthAggregator r.

(** ** Health wiring *)

Definition wire_checks (cs : list (Component S)) (a : Aggregator) : Aggregator :=
  foldl (λ a c, match Component_HealthChecks c with
                | Some chks => Register chks a
                | None => a
                end) a cs.

Definition healthWiring (r : Runner) : Result Runner :=
  match healthAggregator r with
  | None => Panic "invalid memory address or nil pointer dereference"
  | Some a =>
      let a1 := SetHook (Some (λ k d e, OnHealthEvaluated (hooks r) (Kind_String k) d e)) a in
      Ret (WithHealthAggregator (Some (wire_checks (services r) a1)) r)
  end.

(** ** Shutdown *)

(** The components' state and the events observed so far. *)
Record RState : Type := mkRState { comps : S; events : list Event }.

Definition emit (evs : list Event) : M RState unit :=
  mmodify (λ s, mkRState (comps s) (events s ++ evs)).

Definition call_component {A} (m : M S A) : M RState A :=
  zoom comps (λ s t, mkRState s (events t)) m.

Definition shutdown_err (name : string) (e : error) : error :=
  WrapError (name +:+ ": shutdown error: " +:+ Error e) [e].

(** The body of the loop for index [i]. Returns the error to report, if any,
    and the time left. *)
Definition shutdown_one (r : Runner) (ctx : Context) (i : nat) (svc : Component S)
    (remaining : Z) : M RState (option error * Z) :=
  (let budget := quot64 remaining (Z.of_nat i + 1) in
   start <- now ;;
   let shCtx := WithTimeout ctx start budget in
   stopErr <- call_component (Component_Stop svc shCtx) ;;
   t1 <- now ;;
   _ <- emit (OnComponentStop (hooks r) (Component_Name svc) (sat64 (t1 - start)) stopErr) ;;
   let wrapped := shutdown_err (Component_Name svc) <$> stopErr in
   _ <- emit (match wrapped with
              | Some e => if logger r then [LogError "Service shutdown error" e] else []
              | None => []
              end) ;;
   t2 <- now ;;
   let left := sub64 remaining (sat64 (t2 - start)) in
   ret (wrapped, if (left <? 0)%Z then 0%Z else left))%go.

(** [for i := n-1; i >= 0; i--]. *)
Fixpoint shutdown_loop (r : Runner) (ctx : Context) (n : nat) (remaining : Z) :
    M RState (list error) :=
  match n with
  | O => ret []
  | Datatypes.S i =>
      match services r !! i with
      | None => mpanic index_panic
      | Some svc =>
          (res <- shutdown_one r ctx i svc remaining ;;
           rest <- shutdown_loop r ctx i res.2 ;;
           ret (match res.1 with Some e => e :: rest | None => rest end))%go
      end
  end.

Definition shutdownOrchestrator (r : Runner) (ctx : Context) : M RState (list error) :=
  shutdown_loop r ctx (length (services r)) (shutdownTimeout r).

(** The end of [Run]: whatever the supervisor reported, shut down and join. *)
Definition Run_shutdown (r : Runner) (ctx : Context) (startErr : option error) :
    M RState (option error) :=
  (shutdownErrs <- shutdownOrchestrator r ctx ;;
   ret (errors_Join (option_list startErr ++ shutdownErrs)))%go.
End Options.

(** ** The start supervisor *)

(** The readiness watcher of a service: absent, waiting in its [select], or
    returned, with nil or with an error. *)
Inductive watch : Type := NoWatch | Watching | WatchOk | WatchFailed.

#[global] Instance watch_eq_dec : EqDecision watch.
Proof. solve_decision. Defined.

(** One service under supervision. *)
Record svc : Type := mkSvc {
  s_name : string;
  s_start : option (option error);  (* None while Start runs, then what it returned *)
  s_ready : bool;                   (* its ready channel is closed *)
  s_cancel : bool;                  (* cancelSvc has been called *)
  s_watch : watch
}.

(** The errgroup: [gctx] is [ctx.Err()] of the group context, [gerr] the first
    error a goroutine returned. *)
Record Sup : Type := mkSup {
  svcs : list svc;
  parent : option error;
  gctx : option error;
  gerr : option error;
  sup_events : list Event
}.

Inductive slabel : Type :=
| StartReturns (i : nat) (e : option error) (d : Z)
| BecomesReady (i : nat)
| WatchReady (i : nat)
| WatchTimeout (i : nat)
| WatchCtx (i : nat)
| ParentDone (e : error).

(** A goroutine of the group returns [r]: the first error is kept and cancels
    the group context. *)
Definition group_return (r : option error) (s : Sup) : Sup :=
  match r, gerr s with
  | Some e, None =>
      mkSup (svcs s) (parent s) (Some (default (Sentinel Canceled) (gctx s))) (Some e)
        (sup_events s)
  | _, _ => s
  end.

Definition set_svc (i : nat) (v : svc) (s : Sup) : Sup :=
  mkSup (<[i:=v]> (svcs s)) (parent s) (gctx s) (gerr s) (sup_events s).

Definition sup_emit (evs : list Event) (s : Sup) : Sup :=
  mkSup (svcs s) (parent s) (gctx s) (gerr s) (sup_events s ++ evs).

(** What the start goroutine returns for the error of [Start]. *)
Definition start_error (name : string) (e : option error) : option error :=
  match e with
  | Some e' => if errors_Is e' Canceled then None else Some (Errorf_w (name +:+ ": ") e')
  | None => None
  end.

Section Supervisor.
Context (hk : Hooks) (deadline_text : string).

Definition deadline_error (name : string) : error :=
  ErrorString (name +:+ ": start deadline exceeded (" +:+ deadline_text +:+ ")").

Definition sup_step (l : slabel) (s : Sup) : option Sup :=
  match l with
  | StartReturns i e d =>
      match svcs s !! i with
      | Some v =>
          match s_start v with
          | None =>
              let v' := mkSvc (s_name v) (Some e) (s_ready v) true (s_watch v) in
              Some (group_return (start_error (s_name v) e)
                      (sup_emit (OnComponentStart hk (s_name v) d e) (set_svc i v' s)))
          | Some _ => None
          end
      | None => None
      end
  | BecomesReady i =>
      match svcs s !! i with
      | Some v =>
          if s_ready v then None
          else Some (set_svc i (mkSvc (s_name v) (s_start v) true (s_cancel v) (s_watch v)) s)
      | None => None
      end
  | WatchReady i =>
      match svcs s !! i with
      | Some v =>
          if decide (s_watch v = Watching) then
            if s_ready v
            then Some (set_svc i (mkSvc (s_name v) (s_start v) true (s_cancel v) WatchOk) s)
            else None
          else None
      | None => None
      end
  | WatchTimeout i =>
      match svcs s !! i with
      | Some v =>
          if decide (s_watch v = Watching) then
            Some (group_return (Some (deadline_error (s_name v)))
              (set_svc i (mkSvc (s_name v) (s_start v) (s_ready v) true WatchFailed) s))
          else None
      | None => None
      end
  | WatchCtx i =>
      match svcs s !! i with
      | Some v =>
          if decide (s_watch v = Watching) then
            match gctx s with
            | Some e =>
                Some (group_return (Some e)
                  (set_svc i (mkSvc (s_name v) (s_start v) (s_ready v) (s_cancel v) WatchFailed) s))
            | None => None
            end
          else None
      | None => None
      end
  | ParentDone e =>
      match parent s with
      | None => Some (mkSup (svcs s) (Some e)
                        (Some (default e (gctx s))) (gerr s) (sup_events s))
      | Some _ => None
      end
  end.
End Supervisor.

(** A watcher is started for a [Readyable] service when a deadline is set. *)
Definition supervise {S} (r : ApplicationRunner S) (c : Component S) : svc :=
  mkSvc (Component_Name c) None false false
    (if (startDeadline r >? 0)%Z && Component_Readyable c then Watching else NoWatch).

Definition sup_initial {S} (r : ApplicationRunner S) : Sup :=
  mkSup (map (supervise r) (services r)) None None None [].

(** [eg.Wait()] returns [gerr] once every goroutine has returned. *)
Definition sup_done (s : Sup) : Prop :=
  Forall (λ v, is_Some (s_start v) ∧ s_watch v ≠ Watching) (svcs s).

(** [svcCtx] is done. *)
Definition svc_ctx_done (s : Sup) (v : svc) : bool :=
  s_cancel v || match gctx s with Some _ => true | None => false end.

(** No goroutine of the service has reported an error to the group. *)
Definition benign (v : svc) : bool :=
  match s_start v with
  | Some e => match start_error (s_name v) e with None => true | Some _ => false end
  | None => true
  end && negb (bool_decide (s_watch v = WatchFailed)).

(** ** Run *)

(** [signal.NotifyContext(parent, ...)], when the first of the signals arrives at
    [sig]. *)
Definition NotifyContext (parent : Context) (sig : Signal) : Context :=
  match sig, ctx_done parent with
  | None, _ => parent
  | Some t, Some (d, e) =>
      if (d <=? t)%Z then parent else mkContext (Some (t, Sentinel Canceled)) (ctx_tx parent)
  | Some t, None => mkContext (Some (t, Sentinel Canceled)) (ctx_tx parent)
  end.

Section Run.
Context {S : Type} (dtext : string).
(** What the [Start] calls, together, may make of the state of the components. *)
Context (starts : S → S → Prop).

(** The start phase under the context [ctx], from [w] to [w1]: the supervisor goes
    through some interleaving to the state [sup], which takes some time; it has seen
    the context done iff it is done by then. *)
Record start_phase (r : ApplicationRunner S) (ctx : Context) (w : World RState) (sup : Sup)
    (w1 : World RState) : Prop := mkStartPhase {
  sp_reachable : reachable (sup_step (hooks r) dtext) (sup_initial r) sup;
  sp_clock : (clock w ≤ clock w1)%Z;
  sp_parent : parent sup = Err_at ctx (clock w1);
  sp_comps : starts (comps (heap w)) (comps (heap w1));
  sp_events : events (heap w1) = events (heap w) ++ sup_events sup
}.

(** [Run(ctx)] from the world [w], with a signal arriving at [sig] or never; [sup] is
    where the supervisor ends. The health checks are wired and the services started.
    When every goroutine has returned, the services are shut down under the same
    context. As long as one has not, neither has [Run]; if one panics, the process
    ends, without a shutdown. *)
Inductive Run (r : ApplicationRunner S) (sig : Signal) (parent_ctx : Context) (w : World RState) :
    Sup → Result (option error) → World RState → Prop :=
| Run_panics m : healthWiring r = Panic m → Run r sig parent_ctx w (sup_initial r) (Panic m) w
| Run_waits r1 sup w1 :
    healthWiring r = Ret r1 →
    start_phase r1 (NotifyContext parent_ctx sig) w sup w1 → ¬ sup_done sup →
    Run r sig parent_ctx w sup Block w1
| Run_crashes r1 sup w1 v m :
    healthWiring r = Ret r1 →
    start_phase r1 (NotifyContext parent_ctx sig) w sup w1 → v ∈ svcs sup → s_start v = None →
    Run r sig parent_ctx w sup (Panic m) w1
| Run_returns r1 sup w1 res w2 :
    healthWiring r = Ret r1 →
    start_phase r1 (NotifyContext parent_ctx sig) w sup w1 → sup_done sup →
    Run_shutdown r1 (NotifyContext parent_ctx sig) (gerr sup) w1 = (res, w2) →
    Run r sig parent_ctx w sup res w2.
End Run.

(** ** Observing the Stop calls

    [probe i c] is the component [c], registered at position [i], that also
    notes each call of its [Stop]. *)

Record StopCall : Type := mkStopCall {
  sc_index : nat; sc_ctx : Context; sc_start : Z; sc_end : Z; sc_err : option error }.

Definition probe {S} (i : nat) (c : Component S) : Component (S * list StopCall) :=
  mkComponent (Component_Name c)
    (λ ctx,
      (t <- now ;;
       e <- zoom fst (λ s x, (s, x.2)) (Component_Stop c ctx) ;;
       t1 <- now ;;
       _ <- mmodify (λ x, (x.1, x.2 ++ [mkStopCall i ctx t t1 e])) ;;
       ret e)%go)
    (Component_Readyable c) (Component_HealthChecks c).

(** [Start] does not call [Stop]: it leaves the notes alone. *)
Definition unnoted {S} (starts : S → S → Prop) (x y : S * list StopCall) : Prop :=
  starts x.1 y.1 ∧ y.2 = x.2.

(** [Stop] always returns; the clock does not run backwards. *)
Definition stop_returns {S} (c : Component S) : Prop :=
  ∀ ctx w, ∃ e w', Component_Stop c ctx w = (Ret e, w') ∧ (clock w ≤ clock w')%Z.

(** [Stop] always returns, and by the time its context is done. *)
Definition stop_respects {S} (c : Component S) : Prop :=
  ∀ ctx w d e, ctx_done ctx = Some (d, e) →
    ∃ e' w', Component_Stop c ctx w = (Ret e', w') ∧
      (clock w ≤ clock w' ≤ Z.max (clock w) d)%Z.

(** The calls of a shutdown of the services below [n], from instant [t] with
    [remaining] left: indices, contexts and instants are determined by how long
    each call took. *)
Fixpoint schedule (ctx : Context) (n : nat) (remaining t : Z) (calls : list StopCall) (t' : Z) :
    Prop :=
  match n, calls with
  | O, [] => t' = t
  | Datatypes.S i, c :: calls' =>
      sc_index c = i ∧ sc_start c = t ∧ (t ≤ sc_end c)%Z ∧
      sc_ctx c = WithTimeout ctx t (quot64 remaining (Z.of_nat i + 1)) ∧
      let left := sub64 remaining (sat64 (sc_end c - t)) in
      schedule ctx i (if (left <? 0)%Z then 0%Z else left) (sc_end c) calls' t'
  | _, _ => False
  end.

(** The errors reported for a list of calls. *)
Definition call_errors {S} (cs : list (Component S)) (calls : list StopCall) : list error :=
  omap (λ k, match cs !! sc_index k with
             | Some c => shutdown_err (Component_Name c) <$> sc_err k
             | None => None
             end) calls.

Section Shutdown.
Context {S : Type} (cs : list (Component S)) (r : ApplicationRunner (S * list StopCall)).
Hypothesis services_probed : services r = imap probe cs.
Context (ctx : Context).
(** A bound on the return of every Stop, as a function of its context. *)
Context (limit : Context → Z → Z → Prop).
Hypothesis stops : ∀ c ctx' w, c ∈ cs →
  (∃ t' d, ctx' = WithTimeout ctx t' d) →
  ∃ e w', Component_Stop c ctx' w = (Ret e, w') ∧
    (clock w ≤ clock w')%Z ∧ limit ctx' (clock w) (clock w').

Notation log w := ((comps (heap w)).2).

Lemma shutdown_one_eq i c remaining w :
  cs !! i = Some c →
  let shCtx := WithTimeout ctx (clock w) (quot64 remaining (Z.of_nat i + 1)) in
  ∃ e w', shutdown_one r ctx i (probe i c) remaining w =
      (Ret (shutdown_err (Component_Name c) <$> e,
            let left := sub64 remaining (sat64 (clock w' - clock w)) in
            if (left <? 0)%Z then 0%Z else left), w') ∧
    (clock w ≤ clock w')%Z ∧ limit shCtx (clock w) (clock w') ∧
    log w' = log w ++ [mkStopCall i shCtx (clock w) (clock w') e].
Proof.
  intros Hc shCtx.
  destruct (stops c shCtx (mkWorld (clock w) (coins w) (comps (heap w)).1))
    as (e & w1 & Hs & Hmono & Hlim);
    [by eapply list_elem_of_lookup_2|by eexists _, _|].
  destruct (shutdown_one r ctx i (probe i c) remaining w) as [res w'] eqn:E.
  unfold shutdown_one, bind, now, call_component, zoom, emit, mmodify in E. simpl in E.
  unfold bind, now, zoom in E. simpl in E. fold shCtx in E. rewrite Hs in E. simpl in *.
  injection E as <- Hw. assert (clock w' = clock w1) as Hck by (by rewrite <-Hw).
  exists e, w'. rewrite Hck. split; [reflexivity|]. rewrite <-Hw. done.
Qed.

Lemma shutdown_loop_schedule n remaining w :
  n ≤ length cs →
  ∃ errs w' calls, shutdown_loop r ctx n remaining w = (Ret errs, w') ∧
    log w' = log w ++ calls ∧
    schedule ctx n remaining (clock w) calls (clock w') ∧
    Forall (λ k, limit (sc_ctx k) (sc_start k) (sc_end k)) calls ∧
    errs = call_errors cs calls.
Proof.
  revert remaining w. induction n as [|i IH]; intros remaining w Hn.
  { exists [], w, []. by rewrite app_nil_r. }
  destruct (lookup_lt_is_Some_2 cs i) as [c Hc]; [lia|].
  destruct (shutdown_one_eq i c remaining w Hc) as (e & w1 & Hone & Hmono & Hlim & Hlog).
  set (left := let left := sub64 remaining (sat64 (clock w1 - clock w)) in
               if (left <? 0)%Z then 0%Z else left) in *.
  destruct (IH left w1) as (errs & w' & calls & Hloop & Hlog' & Hsch & Hl & Herr); [lia|].
  eexists _, w', (mkStopCall i _ (clock w) (clock w1) e :: calls). split_and!.
  - simpl. rewrite services_probed, list_lookup_imap, Hc. simpl.
    unfold bind. rewrite Hone. simpl. rewrite Hloop. reflexivity.
  - rewrite Hlog', Hlog, <-app_assoc. reflexivity.
  - simpl. split_and!; [done|done|done|done|exact Hsch].
  - by constructor.
  - unfold call_errors in *. simpl. rewrite Hc, Herr. by destruct e.
Qed.
End Shutdown.

Lemma schedule_indices ctx n rem t calls t' :
  schedule ctx n rem t calls t' → map sc_index calls = rev (seq 0 n).
Proof.
  revert rem t calls. induction n as [|i IH]; intros rem t [|c calls] H; simpl in H; try done.
  destruct H as (Hi & _ & _ & _ & H). rewrite seq_S, rev_app_distr. simpl.
  rewrite Hi. f_equal. by eapply IH.
Qed.

(** Every call returned by the time its context was done. *)
Definition in_time (ctx : Context) (t t' : Z) : Prop :=
  ∀ d e, ctx_done ctx = Some (d, e) → (t' ≤ Z.max t d)%Z.

Lemma budget_exact rem i :
  (0 ≤ rem ≤ max_int64)%Z → (0 ≤ i)%Z →
  quot64 rem (i + 1) = (rem / (i + 1))%Z ∧ (0 ≤ rem / (i + 1) ≤ rem)%Z.
Proof.
  intros Hr Hi. assert (0 ≤ rem / (i + 1) ≤ rem)%Z as Hb.
  { split; [apply Z.div_pos; lia|]. apply Z.div_le_upper_bound; nia. }
  unfold quot64. rewrite Z.quot_div_nonneg by lia.
  rewrite wrap64_id; [done|]. int64.
Qed.

(** One iteration that keeps to its budget. *)
Lemma schedule_step ctx i rem t c calls t' :
  (0 ≤ rem ≤ max_int64)%Z → in_time (sc_ctx c) (sc_start c) (sc_end c) →
  schedule ctx (S i) rem t (c :: calls) t' →
  let b := (rem / (Z.of_nat i + 1))%Z in
  (0 ≤ b ≤ rem)%Z ∧ sc_start c = t ∧ sc_ctx c = WithTimeout ctx t b ∧
  (0 ≤ sc_end c - t ≤ b)%Z ∧
  schedule ctx i (rem - (sc_end c - t)) (sc_end c) calls t'.
Proof.
  intros Hr Hin (Hi & Hs & Hle & Hctx & H).
  destruct (budget_exact rem (Z.of_nat i) Hr) as [Hb Hrange]; [lia|].
  rewrite Hb in Hctx. simpl.
  destruct (WithTimeout_deadline ctx t (rem / (Z.of_nat i + 1))) as (d & e & Hd & Hdle).
  rewrite Hctx in Hin. specialize (Hin _ _ Hd). rewrite Hs in Hin.
  rewrite Z.max_r in Hdle by lia.
  assert (0 ≤ sc_end c - t ≤ rem / (Z.of_nat i + 1))%Z by lia.
  unfold sat64, sub64 in H.
  rewrite Z.min_r, Z.max_r in H by (unfold min_int64, max_int64 in *; lia).
  rewrite wrap64_id in H by int64.
  destruct (Z.ltb_spec (rem - (sc_end c - t)) 0); [lia|]. done.
Qed.

Lemma schedule_total ctx n rem t calls t' :
  (0 ≤ rem ≤ max_int64)%Z → Forall (λ k, in_time (sc_ctx k) (sc_start k) (sc_end k)) calls →
  schedule ctx n rem t calls t' → (t ≤ t' ≤ t + rem)%Z.
Proof.
  intros Hr Hall. revert n rem t Hr. induction Hall as [|c calls Hc _ IH];
    intros [|i] rem t Hr H; try done.
  - simpl in H. lia.
  - apply schedule_step in H as (Hb & _ & _ & He & H); [|done..].
    apply IH in H; lia.
Qed.

(** If at least [q] per service is left, every service gets at least [q]. *)
Lemma schedule_fair q ctx n rem t calls t' :
  (0 ≤ q)%Z → (q * Z.of_nat n ≤ rem ≤ max_int64)%Z →
  Forall (λ k, in_time (sc_ctx k) (sc_start k) (sc_end k)) calls →
  schedule ctx n rem t calls t' →
  Forall (λ k, ∃ b, (q ≤ b)%Z ∧ sc_ctx k = WithTimeout ctx (sc_start k) b) calls.
Proof.
  intros Hq Hr Hall. revert n rem t Hr. induction Hall as [|c calls Hc _ IH];
    intros [|i] rem t Hr H; try done.
  assert (0 ≤ rem)%Z by nia.
  apply schedule_step in H as (Hb & Hs & Hctx & He & H); [|lia|done].
  assert (q ≤ rem / (Z.of_nat i + 1))%Z by (apply Z.div_le_lower_bound; lia).
  constructor.
  - exists (rem / (Z.of_nat i + 1))%Z. by rewrite Hs.
  - eapply IH; [|exact H].
    pose proof (Z.mul_div_le rem (Z.of_nat i + 1)). nia.
Qed.

Lemma schedule_done ctx e n rem t calls t' :
  Err_at ctx t = Some e → schedule ctx n rem t calls t' →
  Forall (λ k, sc_ctx k = ctx ∧ Err_at (sc_ctx k) (sc_start k) = Some e) calls.
Proof.
  revert rem t calls. induction n as [|i IH]; intros rem t [|c calls] He H; try done.
  destruct H as (_ & Hs & Hle & Hctx & H). rewrite (WithTimeout_done _ _ _ _ He) in Hctx.
  constructor; [by rewrite Hctx, Hs|].
  eapply IH; [|exact H]. by eapply Err_at_mono.
Qed.

(** ** A sample application

    Components that need [d] to stop and give up when their context is done. *)
Definition graceful (name : string) (d : Z) : Component unit :=
  mkComponent name
    (λ ctx, (t <- now ;;
             b <- select2 (Some (t + d)%Z) (Done ctx) ;;
             if (b : bool) then ret None else ctx_Err ctx)%go)
    true None.

Lemma graceful_returns name d : stop_returns (graceful name d).
Proof.
  intros ctx w. simpl. unfold bind, now.
  destruct (select2_returns (Some (clock w + d)%Z) (Done ctx) w) as (b & w1 & Hs); [by left|].
  rewrite Hs. apply select2_cases in Hs as (_ & Hm & _).
  destruct b; simpl; eexists _, w1; by split.
Qed.

Lemma graceful_respects name d : stop_respects (graceful name d).
Proof.
  intros ctx w dl e Hd. simpl. unfold bind, now.
  destruct (select2_returns (Some (clock w + d)%Z) (Done ctx) w) as (b & w1 & Hs); [by left|].
  rewrite Hs. apply select2_cases in Hs as (_ & Hm & t & Ht & Hck & Ho).
  unfold Done in *. rewrite Hd in *.
  destruct b; simplify_eq/=; (eexists _, w1; split; [reflexivity|lia]).
Qed.

Definition sample_services : list (Component unit) :=
  [graceful "db" Second; graceful "api" (20 * Second)%Z].

Definition sample_runner : ApplicationRunner (unit * list StopCall) :=
  NewApplicationRunner [WithServices (imap probe sample_services)].

Definition sample_world : World (RState (S := unit * list StopCall)) :=
  mkWorld 0 [] (mkRState (tt, []) []).

(** ** Theorems: shutdown *)

(** C5. Shutdown reaches every service. For any services whose [Stop] returns,
    with or without an error, [shutdownOrchestrator] returns after calling every
    [Stop] exactly once, in reverse registration order, one after the other; the
    errors it reports are exactly those of the failing calls, wrapped with the
    service's name, in that order. *)
Theorem shutdown_stops_all {S} (cs : list (Component S)) (r : ApplicationRunner (S * list StopCall)) ctx w :
  services r = imap probe cs → Forall stop_returns cs →
  ∃ errs w' calls, shutdownOrchestrator r ctx w = (Ret errs, w') ∧
    (comps (heap w')).2 = (comps (heap w)).2 ++ calls ∧
    map sc_index calls = rev (seq 0 (length cs)) ∧
    errs = call_errors cs calls.
Proof.
  intros Hs Hr. unfold shutdownOrchestrator.
  destruct (shutdown_loop_schedule cs r Hs ctx (λ _ _ _, True)) with
    (n := length cs) (remaining := shutdownTimeout r) (w := w)
    as (errs & w' & calls & Hl & Hlog & Hsch & _ & Herr); [|done|].
  { intros c ctx' w0 Hc _. rewrite Forall_forall in Hr.
    destruct (Hr c Hc ctx' w0) as (e & w1 & ? & ?). eauto. }
  exists errs, w', calls. rewrite Hs, length_imap. split_and!; try done.
  by eapply schedule_indices.
Qed.

Lemma shutdown_stops_all_witness :
  ∃ errs w' calls, shutdownOrchestrator sample_runner Background sample_world = (Ret errs, w') ∧
    (comps (heap w')).2 = (comps (heap sample_world)).2 ++ calls ∧
    map sc_index calls = rev (seq 0 (length sample_services)) ∧
    errs = call_errors sample_services calls.
Proof.
  apply (shutdown_stops_all sample_services sample_runner Background sample_world).
  - reflexivity.
  - repeat constructor; apply graceful_returns.
Defined.

(** C29. The shutdown budget. With a positive [shutdownTimeout] and services whose
    [Stop] returns by the time its context is done, the whole shutdown takes at most
    [shutdownTimeout]; and unless the caller's context ends first, each of the [n]
    services is given at least a [1/n] share of it. *)
Theorem shutdown_within_budget {S} (cs : list (Component S)) (r : ApplicationRunner (S * list StopCall)) ctx w :
  services r = imap probe cs → Forall stop_respects cs → cs ≠ [] →
  (0 < shutdownTimeout r ≤ max_int64)%Z →
  ∃ errs w' calls, shutdownOrchestrator r ctx w = (Ret errs, w') ∧
    (comps (heap w')).2 = (comps (heap w)).2 ++ calls ∧
    (clock w ≤ clock w' ≤ clock w + shutdownTimeout r)%Z ∧
    Forall (λ k, ∃ b, (shutdownTimeout r / Z.of_nat (length cs) ≤ b)%Z ∧
                      sc_ctx k = WithTimeout ctx (sc_start k) b) calls.
Proof.
  intros Hs Hr Hne Ht. unfold shutdownOrchestrator.
  destruct (shutdown_loop_schedule cs r Hs ctx in_time) with
    (n := length cs) (remaining := shutdownTimeout r) (w := w)
    as (errs & w' & calls & Hl & Hlog & Hsch & Hin & _); [|done|].
  { intros c ctx' w0 Hc (t' & d & ->). rewrite Forall_forall in Hr.
    destruct (WithTimeout_deadline ctx t' d) as (d0 & e0 & Hd & _).
    destruct (Hr c Hc _ w0 _ _ Hd) as (e & w1 & ? & ? & Hle). eexists _, _. split_and!; eauto.
    intros d1 e1 Hd1. rewrite Hd in Hd1. by simplify_eq. }
  exists errs, w', calls. rewrite Hs, length_imap. split_and!; try done.
  - eapply schedule_total in Hsch; [lia|lia|done].
  - eapply schedule_total in Hsch; [lia|lia|done].
  - eapply schedule_fair; [| |done|exact Hsch].
    + apply Z.div_pos; [lia|]. destruct cs; [done|simpl; lia].
    + split; [|lia]. rewrite Z.mul_comm. apply Z.mul_div_le.
      destruct cs; [done|simpl; lia].
Qed.

Lemma shutdown_within_budget_witness :
  ∃ errs w' calls, shutdownOrchestrator sample_runner Background sample_world = (Ret errs, w') ∧
    (comps (heap w')).2 = (comps (heap sample_world)).2 ++ calls ∧
    (0 ≤ clock w' ≤ 0 + shutdownTimeout sample_runner)%Z ∧
    Forall (λ k, ∃ b, (shutdownTimeout sample_runner / Z.of_nat (length sample_services) ≤ b)%Z ∧
                      sc_ctx k = WithTimeout Background (sc_start k) b) calls.
Proof.
  apply (shutdown_within_budget sample_services sample_runner Background sample_world).
  - reflexivity.
  - repeat constructor; apply graceful_respects.
  - discriminate.
  - vm_compute. split; congruence.
Defined.

(** C30. After a signal nobody is shut down gracefully. When the context [Run]
    passes on is already done as the shutdown begins (which is how [Run] normally
    ends: by SIGINT/SIGTERM or by the caller's context), every [Stop] is handed that
    very context, already done; the budget computed from [shutdownTimeout] never
    takes effect. *)
Theorem shutdown_after_cancel_has_no_grace {S} (cs : list (Component S)) (r : ApplicationRunner (S * list StopCall)) ctx e w :
  services r = imap probe cs → Forall stop_returns cs →
  Err_at ctx (clock w) = Some e →
  ∃ errs w' calls, shutdownOrchestrator r ctx w = (Ret errs, w') ∧
    (comps (heap w')).2 = (comps (heap w)).2 ++ calls ∧ length calls = length cs ∧
    Forall (λ k, sc_ctx k = ctx ∧ Err_at (sc_ctx k) (sc_start k) = Some e) calls.
Proof.
  intros Hs Hr He. unfold shutdownOrchestrator.
  destruct (shutdown_loop_schedule cs r Hs ctx (λ _ _ _, True)) with
    (n := length cs) (remaining := shutdownTimeout r) (w := w)
    as (errs & w' & calls & Hl & Hlog & Hsch & _ & _); [|done|].
  { intros c ctx' w0 Hc _. rewrite Forall_forall in Hr.
    destruct (Hr c Hc ctx' w0) as (e' & w1 & ? & ?). eauto. }
  exists errs, w', calls. rewrite Hs, length_imap. split_and!; try done.
  - rewrite <-(length_map sc_index), (schedule_indices _ _ _ _ _ _ Hsch).
    by rewrite length_rev, length_seq.
  - by eapply schedule_done.
Qed.

(** The API server of the sample application would have needed its 7.5s share. *)
Lemma shutdown_after_cancel_has_no_grace_witness :
  let ctx := mkContext (Some (0%Z, Sentinel Canceled)) None in
  ∃ errs w' calls, shutdownOrchestrator sample_runner ctx sample_world = (Ret errs, w') ∧
    (comps (heap w')).2 = (comps (heap sample_world)).2 ++ calls ∧
    length calls = length sample_services ∧
    Forall (λ k, sc_ctx k = ctx ∧ Err_at (sc_ctx k) (sc_start k) = Some (Sentinel Canceled)) calls.
Proof.
  apply (shutdown_after_cancel_has_no_grace sample_services sample_runner _ _ sample_world).
  - reflexivity.
  - repeat constructor; apply graceful_returns.
  - reflexivity.
Defined.


(** ** The supervisor *)

Definition all_benign (s : Sup) : Prop := Forall (λ v, benign v = true) (svcs s).

(** Where the error of the group can come from: a failed [Start], a missed start
    deadline, or, for a service whose watcher was still waiting, the caller's
    context. *)
Definition origin (dtext : string) (p : option error) (v : svc) (e : error) : Prop :=
  (∃ x, s_start v = Some x ∧ start_error (s_name v) x = Some e) ∨
  (s_watch v = WatchFailed ∧ (e = deadline_error dtext (s_name v) ∨ p = Some e)).

(** The group has an error iff some goroutine reported one; until then its
    context is the caller's; its context is done as soon as it has an error. *)
Record inv_group (dtext : string) (s : Sup) : Prop := {
  ig_err : gerr s = None ↔ all_benign s;
  ig_ctx : gerr s = None → gctx s = parent s;
  ig_cancel : is_Some (gerr s) → is_Some (gctx s);
  ig_parent : is_Some (parent s) → is_Some (gctx s);
  ig_origin e : gerr s = Some e → ∃ v, v ∈ svcs s ∧ origin dtext (parent s) v e
}.

Lemma all_benign_set s i v v' (P : Prop) :
  svcs s !! i = Some v → (benign v' = true ↔ benign v = true ∧ P) →
  all_benign (set_svc i v' s) ↔ all_benign s ∧ P.
Proof.
  intros Hi Hv. unfold all_benign. simpl.
  assert (i < length (svcs s)) by (by eapply lookup_lt_Some).
  split.
  - intros Hf. assert (benign v' = true) as Hv'.
    { apply (Forall_lookup_1 _ _ i v' Hf). by apply list_lookup_insert_eq. }
    split; [|by apply Hv]. apply Forall_lookup_2. intros j u Hj.
    destruct (decide (j = i)) as [->|Hne]; [simplify_eq; by apply Hv|].
    apply (Forall_lookup_1 _ _ j u Hf). by rewrite list_lookup_insert_ne.
  - intros [Hf ?]. apply Forall_insert; [done|]. apply Hv. split; [|done].
    by apply (Forall_lookup_1 _ _ i v Hf).
Qed.

(** Replacing a service by one with the same reports keeps the origins. *)
Lemma origin_set dtext p s i v v' e :
  svcs s !! i = Some v → (origin dtext p v e → origin dtext p v' e) →
  (∃ u, u ∈ svcs s ∧ origin dtext p u e) →
  ∃ u, u ∈ <[i:=v']> (svcs s) ∧ origin dtext p u e.
Proof.
  intros Hi Hv (u & Hu & Ho). apply list_elem_of_lookup_1 in Hu as [j Hj].
  assert (i < length (svcs s)) by (by eapply lookup_lt_Some).
  destruct (decide (j = i)) as [->|Hne]; simplify_eq.
  - exists v'. split; [|by apply Hv]. eapply list_elem_of_lookup_2. by apply list_lookup_insert_eq.
  - exists u. split; [|done]. eapply list_elem_of_lookup_2. by rewrite list_lookup_insert_ne.
Qed.

(** A goroutine of service [i] returns [r] to the group, the service becoming
    [v']. *)
Lemma inv_group_return dtext s i v v' r evs :
  inv_group dtext s → svcs s !! i = Some v →
  (benign v' = true ↔ benign v = true ∧ r = None) →
  (∀ e, origin dtext (parent s) v e → origin dtext (parent s) v' e) →
  (∀ e, r = Some e → gerr s = None → origin dtext (parent s) v' e) →
  inv_group dtext (group_return r (sup_emit evs (set_svc i v' s))).
Proof.
  intros [H1 H2 H3 H4 H5] Hi Hv Ho Hr. pose proof (all_benign_set s i v v' _ Hi Hv) as Hins.
  assert (i < length (svcs s)) by (by eapply lookup_lt_Some).
  unfold group_return. change (gerr (sup_emit evs (set_svc i v' s))) with (gerr s).
  destruct r as [e|]; [destruct (gerr s) as [e1|] eqn:Hg|].
  - split; simpl; rewrite ?Hg; try done.
    + split; [done|]. by intros [_ [=]]%Hins.
    + intros e0 He0. eapply origin_set; eauto.
  - split; simpl; rewrite ?Hg; try done; try (by intros; eexists).
    + split; [done|]. by intros [_ [=]]%Hins.
    + intros e0 [= <-]. exists v'. split; [|by apply Hr].
      eapply list_elem_of_lookup_2. by apply list_lookup_insert_eq.
  - replace (match gerr s with Some _ | _ => sup_emit evs (set_svc i v' s) end)
      with (sup_emit evs (set_svc i v' s)) by (by destruct (gerr s)).
    split; simpl; try done.
    + split; [intros Hg; apply Hins; split; [by apply H1|done]|intros [? _]%Hins; by apply H1].
    + intros e0 He0. eapply origin_set; eauto.
Qed.

Lemma sup_emit_nil s : sup_emit [] s = s.
Proof. destruct s. unfold sup_emit. simpl. by rewrite app_nil_r. Qed.

Lemma group_return_set_svc r i v' s :
  group_return r (set_svc i v' s) = group_return r (sup_emit [] (set_svc i v' s)).
Proof. by rewrite sup_emit_nil. Qed.

Lemma set_svc_return i v' s : set_svc i v' s = group_return None (sup_emit [] (set_svc i v' s)).
Proof. rewrite sup_emit_nil. done. Qed.

#[local] Arguments group_return : simpl never.

Lemma inv_group_step hk dtext l s s' :
  inv_group dtext s → sup_step hk dtext l s = Some s' → inv_group dtext s'.
Proof.
  intros HI Hs. destruct l as [i e d|i|i|i|i|e]; simpl in Hs.
  - destruct (svcs s !! i) as [v|] eqn:Hi; [|done].
    destruct (s_start v) eqn:Hst; [done|]. injection Hs as <-.
    eapply inv_group_return; [done|exact Hi|..]; unfold benign, origin; simpl; rewrite ?Hst.
    + destruct (start_error (s_name v) e), (negb _); simpl; naive_solver.
    + intros e0 [(x & [=] & _)|?]. by right.
    + intros e0 He0 _. left. eauto.
  - destruct (svcs s !! i) as [v|] eqn:Hi; [|done].
    destruct (s_ready v) eqn:Hst; [done|]. injection Hs as <-. rewrite set_svc_return.
    eapply inv_group_return; [done|exact Hi|..]; unfold benign, origin; simpl; naive_solver.
  - destruct (svcs s !! i) as [v|] eqn:Hi; [|done].
    destruct (decide (s_watch v = Watching)) as [Hw|]; [|done].
    destruct (s_ready v) eqn:Hst; [|done]. injection Hs as <-. rewrite set_svc_return.
    eapply inv_group_return; [done|exact Hi|..]; unfold benign, origin; simpl; rewrite ?Hw;
      naive_solver.
  - destruct (svcs s !! i) as [v|] eqn:Hi; [|done].
    destruct (decide (s_watch v = Watching)) as [Hw|]; [|done].
    injection Hs as <-. rewrite group_return_set_svc.
    eapply inv_group_return; [done|exact Hi|..]; unfold benign, origin; simpl; rewrite ?Hw.
    + rewrite andb_false_r. naive_solver.
    + naive_solver.
    + naive_solver.
  - destruct (svcs s !! i) as [v|] eqn:Hi; [|done].
    destruct (decide (s_watch v = Watching)) as [Hw|]; [|done].
    destruct (gctx s) as [e|] eqn:Hg; [|done].
    injection Hs as <-. rewrite group_return_set_svc.
    eapply inv_group_return; [done|exact Hi|..]; unfold benign, origin; simpl; rewrite ?Hw.
    + rewrite andb_false_r. naive_solver.
    + naive_solver.
    + intros e0 [= <-] Hn. right. split; [done|]. right. rewrite <-Hg. symmetry. by apply HI.
  - destruct (parent s) as [e1|] eqn:Hp; [done|]. injection Hs as <-.
    destruct HI as [H1 H2 H3 H4 H5]. split; simpl; eauto.
    + intros Hn. rewrite (H2 Hn), Hp. done.
    + intros e0 He0. destruct (H5 e0 He0) as (v & Hv & Ho). exists v. split; [done|].
      destruct Ho as [?|(? & [?|?])]; unfold origin; rewrite ?Hp in *; naive_solver.
Qed.

Lemma sup_initial_inv {S} (r : ApplicationRunner S) dtext : inv_group dtext (sup_initial r).
Proof.
  split; simpl; try done; try by intros [? [=]].
  split; [intros _|done]. apply Forall_fmap, Forall_true. intros c.
  unfold benign, supervise. simpl. by destruct (_ && _).
Qed.

Lemma sup_reachable_inv {S} hk dtext (r : ApplicationRunner S) s :
  reachable (sup_step hk dtext) (sup_initial r) s → inv_group dtext s.
Proof.
  apply invariant_reachable; [apply sup_initial_inv|]. intros. by eapply inv_group_step.
Qed.

(** What is left for the supervisor to do. *)
Definition svc_work (v : svc) : nat :=
  (if s_start v then 0 else 1) + (if s_ready v then 0 else 1) +
  (if decide (s_watch v = Watching) then 1 else 0).

Definition sup_work (s : Sup) : nat :=
  list_sum (map svc_work (svcs s)) + (if parent s then 0 else 1).

Lemma group_return_svcs r s : svcs (group_return r s) = svcs s.
Proof. unfold group_return. by destruct r, (gerr s). Qed.

Lemma group_return_parent r s : parent (group_return r s) = parent s.
Proof. unfold group_return. by destruct r, (gerr s). Qed.

Lemma sup_work_lt r evs s i v v' :
  svcs s !! i = Some v → svc_work v' < svc_work v →
  sup_work (group_return r (sup_emit evs (set_svc i v' s))) < sup_work s.
Proof.
  intros Hi Hlt. unfold sup_work. rewrite group_return_svcs, group_return_parent. simpl.
  pose proof (list_sum_insert_lt svc_work _ _ _ v' Hi Hlt). lia.
Qed.

Lemma sup_step_work hk dtext l s s' :
  sup_step hk dtext l s = Some s' → sup_work s' < sup_work s.
Proof.
  intros Hs. destruct l as [i e d|i|i|i|i|e]; simpl in Hs.
  1-5: destruct (svcs s !! i) as [v|] eqn:Hi; [|done].
  - destruct (s_start v) eqn:Hst; [done|]. injection Hs as <-.
    eapply sup_work_lt; [exact Hi|]. unfold svc_work. simpl. rewrite Hst. lia.
  - destruct (s_ready v) eqn:Hst; [done|]. injection Hs as <-. rewrite set_svc_return.
    eapply sup_work_lt; [exact Hi|]. unfold svc_work. simpl. rewrite Hst. lia.
  - destruct (decide (s_watch v = Watching)) as [Hw|] eqn:Ed; [|done].
    destruct (s_ready v) eqn:Hst; [|done]. injection Hs as <-. rewrite set_svc_return.
    eapply sup_work_lt; [exact Hi|]. unfold svc_work. simpl. rewrite Hst, Ed. simpl. lia.
  - destruct (decide (s_watch v = Watching)) as [Hw|] eqn:Ed; [|done].
    injection Hs as <-. rewrite group_return_set_svc.
    eapply sup_work_lt; [exact Hi|]. unfold svc_work. simpl. rewrite Ed. simpl. lia.
  - destruct (decide (s_watch v = Watching)) as [Hw|] eqn:Ed; [|done].
    destruct (gctx s); [|done]. injection Hs as <-. rewrite group_return_set_svc.
    eapply sup_work_lt; [exact Hi|]. unfold svc_work. simpl. rewrite Ed. simpl. lia.
  - unfold sup_work. destruct (parent s); [done|]. injection Hs as <-. simpl. lia.
Qed.

Lemma sup_initial_work {S} (r : ApplicationRunner S) :
  sup_work (sup_initial r) ≤ 3 * length (services r) + 1.
Proof.
  unfold sup_work, sup_initial. cbn [svcs parent].
  induction (services r) as [|c cs IH]; [simpl; lia|]. cbn [map list_sum length foldr].
  assert (svc_work (supervise r c) ≤ 3) by (unfold svc_work; simpl; case_decide; simpl; lia).
  fold (list_sum (map svc_work (map (supervise r) cs))). lia.
Qed.

(** An error, once the group has it, stays. *)
Lemma gerr_sticky hk dtext l s s' e :
  sup_step hk dtext l s = Some s' → gerr s = Some e → gerr s' = Some e.
Proof.
  intros Hs He.
  assert (∀ r s0, gerr s0 = Some e → gerr (group_return r s0) = Some e) as Hret.
  { intros r s0 H0. unfold group_return. by destruct r; rewrite ?H0. }
  destruct l; simpl in Hs; destruct_matches_in Hs; simplify_eq; try done; by apply Hret.
Qed.

Lemma gerr_sticky_reachable hk dtext s s' e :
  reachable (sup_step hk dtext) s s' → gerr s = Some e → gerr s' = Some e.
Proof. induction 1; intros; [done|]. eapply gerr_sticky; eauto. Qed.

(** ** Theorems: the supervisor *)

(** C22. What [startSupervisor] reports. In every interleaving the group has no
    error iff every [Start] that has returned did so with nil or with an error
    that is [context.Canceled], and no readiness watcher failed; an error it has
    is that of a failed [Start] under the service's name, of a missed start
    deadline, or the caller's context error seen by a watcher; and from the
    moment there is an error, or the caller's context is done, the context of
    every service is done. *)
Theorem supervisor_result {S} hk dtext (r : ApplicationRunner S) s :
  reachable (sup_step hk dtext) (sup_initial r) s →
  (gerr s = None ↔ ∀ v, v ∈ svcs s →
     s_watch v ≠ WatchFailed ∧
     ∀ e, s_start v = Some (Some e) → errors_Is e Canceled = true) ∧
  (∀ e, gerr s = Some e → ∃ v, v ∈ svcs s ∧ origin dtext (parent s) v e) ∧
  (is_Some (gerr s) ∨ is_Some (parent s) → ∀ v, svc_ctx_done s v = true).
Proof.
  intros Hr. destruct (sup_reachable_inv _ _ _ _ Hr) as [H1 H2 H3 H4 H5].
  split_and!; [|done|].
  - rewrite H1. unfold all_benign. rewrite Forall_forall.
    apply forall_proper. intros v. apply forall_proper. intros _.
    unfold benign, start_error. rewrite andb_true_iff, negb_true_iff, bool_decide_eq_false.
    destruct (s_start v) as [[e|]|]; [|naive_solver..].
    destruct (errors_Is e Canceled) eqn:E; naive_solver.
  - intros H v. unfold svc_ctx_done. destruct H as [H|H]; [apply H3 in H|apply H4 in H];
      destruct H as [x ->]; by rewrite orb_true_r.
Qed.

Lemma supervisor_result_witness :
  let r := NewApplicationRunner [WithServices sample_services] in
  ∃ s, run_labels (sup_step NoOpHooks "0s")
         [StartReturns 0 (Some (ErrorString "dial tcp")) 5] (sup_initial r) = Some s ∧
    (∀ e, gerr s = Some e → ∃ v, v ∈ svcs s ∧ origin "0s" (parent s) v e) ∧
    (is_Some (gerr s) ∨ is_Some (parent s) → ∀ v, svc_ctx_done s v = true).
Proof.
  intros r. eexists. split; [reflexivity|].
  eapply (supervisor_result NoOpHooks "0s" r). eapply run_labels_reachable.
  instantiate (1 := [StartReturns 0 (Some (ErrorString "dial tcp")) 5]). reflexivity.
Defined.

(** The supervisor cannot spin: with [n] services no interleaving has more
    than [3n+1] steps; and a readiness watcher never blocks [eg.Wait] for good: a
    state in which no watcher can move has no watcher waiting, so that [eg.Wait]
    returns as soon as every [Start] has returned. *)
Theorem supervisor_terminates {S} hk dtext (r : ApplicationRunner S) ls s :
  run_labels (sup_step hk dtext) ls (sup_initial r) = Some s →
  length ls ≤ 3 * length (services r) + 1 ∧
  ((∀ i, sup_step hk dtext (WatchTimeout i) s = None) →
   Forall (λ v, is_Some (s_start v)) (svcs s) → sup_done s).
Proof.
  intros Hrun. split.
  - apply (run_labels_measure _ sup_work) in Hrun; [|apply sup_step_work].
    pose proof (sup_initial_work r). lia.
  - intros Hstuck Hst. apply Forall_lookup_2. intros i v Hi.
    split; [by apply (Forall_lookup_1 _ _ i v Hst)|]. intros Hw.
    specialize (Hstuck i). simpl in Hstuck. rewrite Hi in Hstuck.
    by rewrite decide_True in Hstuck.
Qed.

Lemma supervisor_terminates_witness :
  let r := NewApplicationRunner [WithServices sample_services] in
  length [StartReturns 0 None 5] ≤ 3 * length (services r) + 1.
Proof.
  intros r. edestruct (supervisor_terminates NoOpHooks "0s" r [StartReturns 0 None 5]) as [H _].
  - reflexivity.
  - exact H.
Defined.

(** C31. A clean stop during startup is reported as a failure. A readiness watcher
    that is still waiting when the caller's context is done returns that
    context's error unfiltered (the start goroutine filters [context.Canceled]);
    the group then keeps it, so [Run] returns an error although no service
    failed. *)
Theorem stop_during_startup_is_an_error {S} hk dtext (r : ApplicationRunner S) i c e :
  services r !! i = Some c → Component_Readyable c = true → (0 < startDeadline r)%Z →
  ∃ s, run_labels (sup_step hk dtext) [ParentDone e; WatchCtx i] (sup_initial r) = Some s ∧
    Forall (λ v, s_start v = None) (svcs s) ∧
    ∀ s', reachable (sup_step hk dtext) s s' → gerr s' = Some e.
Proof.
  intros Hi Hrd Hd. simpl. rewrite list_lookup_fmap, Hi. simpl.
  assert ((startDeadline r >? 0)%Z = true) as -> by (apply Z.gtb_lt; lia).
  rewrite Hrd. simpl. eexists. split; [reflexivity|]. split.
  - unfold group_return. simpl. apply Forall_insert; [|done].
    apply Forall_fmap, Forall_true. done.
  - intros s' Hs'. by eapply gerr_sticky_reachable.
Qed.

Lemma stop_during_startup_is_an_error_witness :
  let r := NewApplicationRunner [WithServices sample_services; WithStartDeadline Second] in
  ∃ s, run_labels (sup_step NoOpHooks "1s") [ParentDone (Sentinel Canceled); WatchCtx 0]
         (sup_initial r) = Some s ∧
    Forall (λ v, s_start v = None) (svcs s) ∧
    ∀ s', reachable (sup_step NoOpHooks "1s") s s' → gerr s' = Some (Sentinel Canceled).
Proof.
  intros r.
  apply (stop_during_startup_is_an_error NoOpHooks "1s" r 0 (graceful "db" Second));
    reflexivity.
Defined.


(** ** Theorems: Run *)

Lemma healthWiring_services {S} (r r1 : ApplicationRunner S) :
  healthWiring r = Ret r1 →
  services r1 = services r ∧ shutdownTimeout r1 = shutdownTimeout r ∧
  startDeadline r1 = startDeadline r ∧ hooks r1 = hooks r.
Proof. unfold healthWiring. destruct (healthAggregator r); [|done]. by intros [= <-]. Qed.

Lemma sup_initial_wired {S} (r r1 : ApplicationRunner S) :
  healthWiring r = Ret r1 → sup_initial r1 = sup_initial r ∧ hooks r1 = hooks r.
Proof.
  intros (Hs & _ & Hd & Hh)%healthWiring_services. split; [|done]. unfold sup_initial. rewrite Hs. f_equal.
  unfold supervise. by rewrite Hd.
Qed.

(** No error is reported iff no call failed. *)
Lemma call_errors_nil {S} (cs : list (Component S)) calls :
  Forall (λ k, sc_index k < length cs) calls →
  call_errors cs calls = [] ↔ Forall (λ k, sc_err k = None) calls.
Proof.
  induction 1 as [|k calls Hk _ IH]; [done|]. unfold call_errors in *. simpl.
  destruct (lookup_lt_is_Some_2 cs (sc_index k) Hk) as [c ->]. rewrite Forall_cons, <-IH.
  destruct (sc_err k); simpl; [|tauto]. split; [done|by intros [? _]].
Qed.

Lemma indices_bounded (calls : list StopCall) n :
  map sc_index calls = rev (seq 0 n) → Forall (λ k, sc_index k < n) calls.
Proof.
  intros Hi. change (Forall ((λ i, i < n) ∘ sc_index) calls). apply Forall_fmap.
  change (sc_index <$> calls) with (map sc_index calls). rewrite Hi. apply Forall_forall. intros i Hin.
  apply list_elem_of_In, in_rev, in_seq in Hin. lia.
Qed.

Lemma join_nil {S} (cs : list (Component S)) startErr calls :
  map sc_index calls = rev (seq 0 (length cs)) →
  errors_Join (option_list startErr ++ call_errors cs calls) = None ↔
  startErr = None ∧ Forall (λ k, sc_err k = None) calls.
Proof.
  intros Hi. rewrite errors_Join_None, app_nil, (call_errors_nil cs calls) by (by apply indices_bounded).
  destruct startErr; naive_solver.
Qed.

(** What [Run] does, given where the supervisor ends. *)
Definition run_outcome {S} (cs : list (Component S)) (sup : Sup) (w : World (RState (S := S * list StopCall)))
    (res : Result (option error)) (w' : World (RState (S := S * list StopCall))) : Prop :=
  (sup_done sup ∧ ∃ calls, (comps (heap w')).2 = (comps (heap w)).2 ++ calls ∧
     map sc_index calls = rev (seq 0 (length cs)) ∧
     res = Ret (errors_Join (option_list (gerr sup) ++ call_errors cs calls)) ∧
     (res = Ret None ↔ gerr sup = None ∧ Forall (λ k, sc_err k = None) calls)) ∨
  (¬ sup_done sup ∧ (comps (heap w')).2 = (comps (heap w)).2 ∧ ∀ e, res ≠ Ret e).

Lemma Run_spec {S} (cs : list (Component S)) dtext starts (r : ApplicationRunner (S * list StopCall)) sig ctx w
    sup res w' :
  services r = imap probe cs → Forall stop_returns cs →
  is_Some (healthAggregator r) →
  Run dtext (unnoted starts) r sig ctx w sup res w' →
  reachable (sup_step (hooks r) dtext) (sup_initial r) sup ∧ run_outcome cs sup w res w'.
Proof.
  intros Hs Hr [a Ha] HR.
  destruct HR as [m Hw|r1 sup w1 Hw HP Hd|r1 sup w1 v m Hw HP Hv Hst|r1 sup w1 res w2 Hw HP Hd Hsh].
  { unfold healthWiring in Hw. by rewrite Ha in Hw. }
  all: destruct (sup_initial_wired r r1 Hw) as [Hi Hhk]; destruct HP as [Hreach _ _ [_ Hlog] _]; simpl in Hlog;
    rewrite Hi, Hhk in Hreach; (split; [done|]).
  - by right.
  - right. split_and!; [|done|done]. unfold sup_done. rewrite Forall_forall. intros Hall.
    destruct (Hall v Hv) as [[? ?] _]. congruence.
  - apply healthWiring_services in Hw as (Hs1 & _). rewrite Hs in Hs1.
    destruct (shutdown_loop_schedule cs r1 Hs1 (NotifyContext ctx sig) (λ _ _ _, True)) with
      (n := length cs) (remaining := shutdownTimeout r1) (w := w1)
      as (errs & w3 & calls & Hl & Hlog3 & Hsch & _ & Herr); [|done|].
    { intros k ctx0 w0 Hk _. rewrite Forall_forall in Hr.
      destruct (Hr k Hk ctx0 w0) as (e & w4 & ? & ?). eauto. }
    unfold Run_shutdown, shutdownOrchestrator, bind in Hsh.
    rewrite Hs1, length_imap, Hl in Hsh. simpl in Hsh. injection Hsh as <- <-.
    apply schedule_indices in Hsch as Hidx.
    left. split; [done|]. exists calls. rewrite Hlog3, Hlog, Herr. split_and!; try done.
    rewrite <-(join_nil cs (gerr sup) calls Hidx). split; [by intros [= ?]|by intros ->].
Qed.

(** C7. [Run] cleans up after any start. For services whose [Stop] returns, with an
    error or nil, whatever their [Start] did, as long
    as it did not call [Stop], and wherever the supervisor ended: [Run] of a runner
    with an aggregator returns if and only if every [Start] and every watcher has
    returned. It has then stopped every service exactly once, in reverse order, also
    those that failed to start, and returns the join of the supervisor's error, if
    any, and of the errors of the failing [Stop] calls: nil iff there is neither. If
    a [Start] panics or never returns, nothing is stopped. *)
Theorem Run_stops_all {S} (cs : list (Component S)) dtext starts (r : ApplicationRunner (S * list StopCall)) sig ctx
    w sup res w' :
  services r = imap probe cs → Forall stop_returns cs →
  is_Some (healthAggregator r) →
  Run dtext (unnoted starts) r sig ctx w sup res w' →
  reachable (sup_step (hooks r) dtext) (sup_initial r) sup ∧
  ((sup_done sup ∧ ∃ calls, (comps (heap w')).2 = (comps (heap w)).2 ++ calls ∧
      map sc_index calls = rev (seq 0 (length cs)) ∧
      res = Ret (errors_Join (option_list (gerr sup) ++ call_errors cs calls)) ∧
      (res = Ret None ↔ gerr sup = None ∧ Forall (λ k, sc_err k = None) calls)) ∨
   (¬ sup_done sup ∧ (comps (heap w')).2 = (comps (heap w)).2 ∧ ∀ e, res ≠ Ret e)).
Proof. apply Run_spec. Qed.

(** The database fails to start; the API server stops when told to. *)
Definition failed_start : list slabel :=
  [StartReturns 0 (Some (ErrorString "dial tcp")) 5; StartReturns 1 (Some (Sentinel Canceled)) 6].

Definition anything (x y : unit) : Prop := True.

Lemma sample_run : ∃ sup res w', Run "0s" (unnoted anything) sample_runner None Background sample_world sup res w' ∧
  gerr sup = Some (Errorf_w "db: " (ErrorString "dial tcp")) ∧ sup_done sup.
Proof.
  eexists _, _, _. split; [eapply (Run_returns _ _ _ _ _ _ _ _ sample_world)|].
  - reflexivity.
  - split; [eapply (run_labels_reachable _ failed_start); reflexivity|vm_compute; discriminate|reflexivity|done|].
    reflexivity.
  - repeat constructor; simpl; eauto.
  - vm_compute. reflexivity.
  - split; [reflexivity|].
    repeat (apply Forall_cons_2; [by split; [eexists|]|]). apply Forall_nil_2.
Qed.

Lemma Run_stops_all_witness :
  ∃ sup res w', Run "0s" (unnoted anything) sample_runner None Background sample_world sup res w' ∧
    gerr sup = Some (Errorf_w "db: " (ErrorString "dial tcp")) ∧
    ∃ calls, (comps (heap w')).2 = [] ++ calls ∧ map sc_index calls = [1; 0] ∧
      res = Ret (errors_Join (option_list (gerr sup) ++ call_errors sample_services calls)).
Proof.
  destruct sample_run as (sup & res & w' & H & He & Hd). exists sup, res, w'. split; [exact H|]. split; [exact He|].
  destruct (Run_stops_all sample_services "0s" anything sample_runner None Background sample_world sup res w')
    as [_ [(_ & calls & Hl & Hi & Hres & _)|(Hn & _)]].
  - reflexivity.
  - repeat constructor; apply graceful_returns.
  - by eexists.
  - exact H.
  - exists calls. by split_and!.
  - by destruct Hn.
Defined.

(** ** Theorems: options and wiring *)

(** The options the package exports. *)
Inductive runner_option (S : Type) : (ApplicationRunner S → ApplicationRunner S) → Prop :=
| ro_logger l : runner_option S (WithLogger l)
| ro_timeout d : runner_option S (WithShutdownTimeout d)
| ro_deadline d : runner_option S (WithStartDeadline d)
| ro_services cs : runner_option S (WithServices cs)
| ro_hooks h : runner_option S (WithHooks h)
| ro_ttl d : runner_option S (WithHealthCacheTTL d)
| ro_agg a : agg_wf a → runner_option S (WithHealthAggregator (Some a)).

(** What every runner the package builds satisfies. *)
Definition runner_wf {S} (r : ApplicationRunner S) : Prop :=
  (0 < shutdownTimeout r)%Z ∧ (0 ≤ startDeadline r)%Z ∧
  ∃ a, healthAggregator r = Some a ∧ agg_wf a.

Lemma runner_option_wf {S} o (r : ApplicationRunner S) :
  runner_option S o → runner_wf r → runner_wf (o r).
Proof.
  intros Ho (Ht & Hd & a & Ha & Hw). destruct Ho; unfold runner_wf; simpl.
  - eauto.
  - unfold WithShutdownTimeout. destruct (Z.gtb_spec d 0); simpl; eauto.
  - unfold WithStartDeadline. destruct (Z.gtb_spec d 0); simpl; split_and!; eauto; lia.
  - eauto.
  - destruct h; simpl; eauto.
  - eauto using NewAggregator_wf.
  - eauto.
Qed.

Lemma NewApplicationRunner_wf {S} (os : list (ApplicationRunner S → ApplicationRunner S)) :
  Forall (runner_option S) os → runner_wf (NewApplicationRunner os).
Proof.
  intros Hos. unfold NewApplicationRunner.
  assert (∀ r, runner_wf r → runner_wf (foldl (λ a o, o a) r os)) as H.
  { induction Hos as [|o os Ho _ IH]; simpl; eauto using runner_option_wf. }
  apply H. split; [done|]. split; [done|]. eexists. split; [done|]. apply NewAggregator_wf.
Qed.

(** All the checks the services contribute, in registration order. *)
Definition contributed {S} (cs : list (Component S)) : list Check :=
  flat_map (λ c, default [] (Component_HealthChecks c)) cs.

Lemma wire_checks_Register {S} (cs : list (Component S)) a :
  wire_checks cs a = Register (contributed cs) a.
Proof.
  unfold wire_checks. revert a. induction cs as [|c cs IH]; intros a; simpl; [done|].
  rewrite IH. destruct (Component_HealthChecks c) as [chks|]; simpl; [|done].
  revert a. induction chks as [|k chks IHc]; intros a; simpl; [done|]. by rewrite IHc.
Qed.

(** Construction and wiring. A runner built with any exported options (an
    aggregator passed in being well-formed) has a positive shutdown budget and an
    aggregator; wiring it does not panic, changes nothing but the aggregator, adds
    to the checks of each kind exactly those the services contribute for it, in
    registration order and with a positive timeout each, and makes every
    evaluation report to the runner's hooks. *)
Theorem wiring_correct {S} (os : list (ApplicationRunner S → ApplicationRunner S)) :
  Forall (runner_option S) os →
  let r := NewApplicationRunner os in
  (0 < shutdownTimeout r)%Z ∧
  ∃ a a', healthAggregator r = Some a ∧
    healthWiring r = Ret (WithHealthAggregator (Some a') r) ∧ agg_wf a' ∧
    (∀ k, bucket a' k = bucket a k ++
       map normalize (List.filter (λ c, (CheckKind c =? k)%Z) (contributed (services r)))) ∧
    hook a' = Some (λ k d e, OnHealthEvaluated (hooks r) (Kind_String k) d e).
Proof.
  intros Hos r. destruct (NewApplicationRunner_wf os Hos) as (Ht & _ & a & Ha & Hw).
  split; [done|]. fold r in Ha. unfold healthWiring. rewrite Ha. eexists a, _.
  split_and!; [done|reflexivity|..].
  - rewrite wire_checks_Register. by apply Register_wf, SetHook_wf.
  - intros k. by rewrite wire_checks_Register, Register_bucket.
  - rewrite wire_checks_Register.
    by rewrite (proj2 (proj2 (Register_frame (contributed (services r)) _))).
Qed.

Definition checked_service : Component unit :=
  mkComponent "db" (λ _, ret None) true (Some (StandardChecks "db" (λ _ t, Ret (t, None)))).

Lemma wiring_correct_witness :
  let r := NewApplicationRunner [WithServices [checked_service]; WithHealthCacheTTL 0] in
  ∃ a a', healthAggregator r = Some a ∧
    healthWiring r = Ret (WithHealthAggregator (Some a') r) ∧
    bucket a' Readiness = bucket a Readiness ++
       map normalize (List.filter (λ c, (CheckKind c =? Readiness)%Z) (contributed (services r))).
Proof.
  intros r.
  destruct (wiring_correct [WithServices [checked_service]; WithHealthCacheTTL 0])
    as (_ & a & a' & H1 & H2 & _ & H3 & _).
  - repeat constructor.
  - exists a, a'. split_and!; [exact H1|exact H2|apply H3].
Defined.

(** A non-positive start deadline does not disable the deadline: the option
    is ignored, so that a deadline set by an earlier option stays in force and
    [Readyable] services are still watched. *)
Theorem WithStartDeadline_nonpositive_keeps {S} (os : list (ApplicationRunner S → ApplicationRunner S)) d d' c :
  (d ≤ 0)%Z → (0 < d')%Z → Component_Readyable c = true →
  let r := NewApplicationRunner (os ++ [WithStartDeadline d'; WithStartDeadline d]) in
  startDeadline r = d' ∧ s_watch (supervise r c) = Watching.
Proof.
  intros Hd Hd' Hc r. assert (startDeadline r = d') as Hr.
  { unfold r, NewApplicationRunner. rewrite foldl_app. simpl. unfold WithStartDeadline.
    destruct (Z.gtb_spec d 0); [lia|]. destruct (Z.gtb_spec d' 0); [done|lia]. }
  split; [done|]. unfold supervise. simpl. rewrite Hr, Hc.
  destruct (Z.gtb_spec d' 0); [done|lia].
Qed.

Lemma WithStartDeadline_nonpositive_keeps_witness :
  let r := NewApplicationRunner ([] ++ [WithStartDeadline Second; WithStartDeadline 0]) in
  startDeadline r = Second ∧ s_watch (supervise r (graceful "db" 0)) = Watching.
Proof.
  apply (WithStartDeadline_nonpositive_keeps [] 0 Second (graceful "db" 0)).
  - lia.
  - reflexivity.
  - reflexivity.
Defined.
