(* ===== verification/Connect.v ===== *)
(** * The connect step of the infrastructure components

    [PostgresDB] and [RedisCache] keep their connection in a field that [Connect]
    fills: it dials with [retry.Do], and each attempt opens a connection, pings it
    and closes it again when the ping fails, the successful one being captured in
    a local variable. This file has the attempt, over an interface to the driver,
    and shows that dialling leaks nothing. *)

From stdpp Require Import base list strings gmap sets.
From Stdlib Require Import ZArith Lia.
From S2P Require Import Prelude Errors Runtime Retry.

(** ** State and operations *)

(** The connection field of a component, nil before it connects, and the state of
    the driver. *)
Record Conn (S : Type) : Type := mkConn { conn : option nat; driver : S }.
Arguments mkConn {S}.
Arguments conn {S}.
Arguments driver {S}.

(** Running the driver. *)
Definition on_driver {S A} (m : M S A) : M (Conn S) A :=
  zoom driver (λ s t, mkConn (conn t) s) m.

Definition nil_panic : string := "invalid memory address or nil pointer dereference".

(** crypto/rand, used for the jitter: the outcome of a draw at each instant. *)
Definition rand_Int {T} (rnd : Z → Z → option Z) (m : Z) : M T (option Z) := λ w,
  (Ret (rnd (clock w) m), w).

(** One attempt. The captured variable is the second component of the state. *)
Definition dial_attempt {S} (open : M S (nat + error)) (ping : nat → M S (option error))
    (close : nat → M S unit) : M (Conn S * option nat) (option error) :=
  let run {A} (m : M S A) : M (Conn S * option nat) A :=
    zoom fst (λ s t, (s, t.2)) (on_driver m) in
  (r <- run open ;;
   match r with
   | inr createErr => ret (Some createErr)
   | inl p =>
       pingErr <- run (ping p) ;;
       match pingErr with
       | Some e => _ <- run (close p) ;; ret (Some e)
       | None => _ <- mmodify (λ x, (x.1, Some p)) ;; ret None
       end
   end)%go.

(** ** What dialling relies on

    Opening yields a connection that was not open, or fails and opens none;
    pinging opens and closes nothing; closing closes. Every call returns. *)
Class DialLaws {S} (open : M S (nat + error)) (ping : nat → M S (option error))
    (close : nat → M S unit) (opened : S → gset nat) : Prop := {
  dial_open w :
    ∃ r w', open w = (Ret r, w') ∧
      match r with
      | inl p => p ∉ opened (heap w) ∧ opened (heap w') = {[p]} ∪ opened (heap w)
      | inr _ => opened (heap w') = opened (heap w)
      end;
  dial_ping p w : ∃ r w', ping p w = (Ret r, w') ∧ opened (heap w') = opened (heap w);
  dial_close p w :
    ∃ w', close p w = (Ret tt, w') ∧ opened (heap w') = opened (heap w) ∖ {[p]}
}.

(** ** Lemmas *)

(** Lifting a call of the driver to the component. *)
Lemma on_driver_Ret {S A} (m : M S A) (w : World (Conn S)) r w1 :
  m (mkWorld (clock w) (coins w) (driver (heap w))) = (Ret r, w1) →
  on_driver m w = (Ret r, mkWorld (clock w1) (coins w1) (mkConn (conn (heap w)) (heap w1))).
Proof. unfold on_driver, zoom. by intros ->. Qed.

Section Dial.
Context {S : Type} (rnd : Z → Z → option Z) (open : Context → M S (nat + error))
  (ping : Context → nat → M S (option error)) (close : nat → M S unit) (opened : S → gset nat).
Context `{DL : !∀ ctx, DialLaws (open ctx) (ping ctx) close opened}.

Notation attempt := (λ ctx, dial_attempt (open ctx) (ping ctx) close).

(** A driver call inside an attempt. *)
Lemma attempt_call {A} (m : M S A) c k o s (v : option nat) r c1 k1 s1 :
  m (mkWorld c k s) = (Ret r, mkWorld c1 k1 s1) →
  zoom fst (λ s t, (s, t.2)) (on_driver m) (mkWorld c k (mkConn o s, v)) =
  (Ret r, mkWorld c1 k1 (mkConn o s1, v)).
Proof. intros H. unfold zoom, on_driver, zoom. simpl. by rewrite H. Qed.

(** No attempt has succeeded yet: nothing is open that was not open before. *)
Definition not_yet (P : gset nat) (o : option nat) (x : Conn S * option nat) : Prop :=
  opened (driver x.1) = P ∧ conn x.1 = o.

(** One has: exactly one more connection is open, the captured one. *)
Definition connected (P : gset nat) (o : option nat) (x : Conn S * option nat) : Prop :=
  ∃ p, x.2 = Some p ∧ p ∉ P ∧ opened (driver x.1) = {[p]} ∪ P ∧ conn x.1 = o.

Lemma dial_attempt_spec ctx P o w :
  not_yet P o (heap w) →
  ∃ r w', attempt ctx w = (Ret r, w') ∧
    match r with None => connected P o (heap w') | Some _ => not_yet P o (heap w') end.
Proof.
  destruct w as [c k [[o' s] v]]. intros [HP Ho]. simpl in HP, Ho. subst o' P.
  unfold dial_attempt.
  destruct (dial_open (DialLaws := DL ctx) (mkWorld c k s)) as (r & [c1 k1 s1] & Hnew & Hr).
  run (attempt_call _ _ _ _ _ _ _ _ _ _ Hnew). simpl in Hr.
  destruct r as [p|e]; [|by eexists _, _]. destruct Hr as [Hp Hpools].
  destruct (dial_ping (DialLaws := DL ctx) p (mkWorld c1 k1 s1)) as (r & [c2 k2 s2] & Hping & Hr).
  run (attempt_call _ _ _ _ _ _ _ _ _ _ Hping).
  simpl in Hr. rewrite Hpools in Hr. destruct r as [e|].
  - destruct (dial_close (DialLaws := DL ctx) p (mkWorld c2 k2 s2)) as ([c3 k3 s3] & Hclose & Hc).
    run (attempt_call _ _ _ _ _ _ _ _ _ _ Hclose).
    eexists _, _. split; [reflexivity|]. split; [|done]. simpl in *. rewrite Hc, Hr. set_solver.
  - eexists _, _. split; [reflexivity|]. exists p. by split_and!.
Qed.

(** All attempts together, with the captured variable. *)
Lemma dial_retry_spec ctx n b (w : World (Conn S)) :
  ∃ r w', with_local None (Do (rand_Int rnd) ctx n b attempt) w = (Ret r, w') ∧
    match r.1 with
    | None => connected (opened (driver (heap w))) (conn (heap w)) (heap w', r.2)
    | Some _ => not_yet (opened (driver (heap w))) (conn (heap w)) (heap w', r.2)
    end.
Proof.
  set (P := opened (driver (heap w))). set (o := conn (heap w)).
  set (w0 := mkWorld (clock w) (coins w) (heap w, @None nat)).
  destruct (Do_returns (rand_Int rnd) ctx attempt) with
    (n := n) (base := b) (w := w0) as (r & w' & Hrun).
  { intros m w1. by eexists _, _. }
  { intros w1. edestruct (dial_attempt_spec ctx) as (? & ? & ? & _); [by split|eauto]. }
  exists (r, (heap w').2). eexists. split.
  { unfold with_local. fold w0. rewrite Hrun. reflexivity. }
  simpl. rewrite <-surjective_pairing.
  eapply (Do_keeps _ ctx _ (not_yet P o) (connected P o)); [..|exact Hrun|by split].
  - by intros m w1 x w2 [= <- <-].
  - intros w1 r1 w2 Hc Hi. destruct (dial_attempt_spec ctx P o w1 Hi) as (? & ? & Hc' & ?).
    rewrite Hc in Hc'. by simplify_eq.
Qed.
End Dial.
