(* ===== verification/TxManager.v ===== *)
(** * databasekit/txmanager.go: transactions over a pgx-free seam

    The interfaces [Querier], [Tx] and [TxProvider] are a record of operations:
    a transaction is a handle, and each query operation takes the target it runs
    on, the pool or a transaction. [TxManager] is code over that record.

    [TxLaws] states what the transaction manager relies on. It is stated against
    an abstract database, a stack of open transactions over committed data, and
    the theorems about [WithTx] are proved from it alone; the pgx adapters
    discharge it in the file about the adapters. Its parameter [lossy] says whether
    a [Commit] that reports an error may have taken effect, and whether the changes
    under a savepoint may stay when its [Rollback] reports an error. *)

From stdpp Require Import base list strings gmap.
From Stdlib Require Import ZArith Lia.
From S2P Require Import Prelude Errors Runtime Lifecycle.

(** ** Interfaces *)

(** Arguments of statements and columns of rows ([any]). *)
Inductive Value : Type :=
| VInt (z : Z)
| VString (s : string)
| VNull.

#[global] Instance Value_eq_dec : EqDecision Value.
Proof. solve_decision. Defined.

(** [Row]: a single [Scan], which fills its destinations or fails. *)
Record Row (S : Type) : Type := mkRow { Row_Scan : M S (list Value * option error) }.
Arguments mkRow {S}.
Arguments Row_Scan {S}.

(** [Rows]: a cursor. *)
Record Rows (S : Type) : Type := mkRows {
  Rows_Next : M S bool;
  Rows_Scan : M S (list Value * option error);
  Rows_Err : M S (option error);
  Rows_Close : M S unit
}.
Arguments mkRows {S}.
Arguments Rows_Next {S}.
Arguments Rows_Scan {S}.
Arguments Rows_Err {S}.
Arguments Rows_Close {S}.

(** What a query runs on: the provider itself or one of its transactions. *)
Inductive target : Type := Pool | InTx (h : nat).

(** [TxProvider] with the transactions it opens, and its readiness channel when
    it is a [core.Readyable]. *)
Record TxProvider (S : Type) : Type := mkTxProvider {
  Exec : target → Context → string → list Value → M S (Z * option error);
  Query : target → Context → string → list Value → M S (Rows S + error);
  QueryRow : target → Context → string → list Value → M S (Row S);
  Begin : target → Context → M S (nat + error);
  Commit : nat → Context → M S (option error);
  Rollback : nat → Context → M S (option error);
  Readyable : option Signal
}.
Arguments mkTxProvider {S}.
Arguments Exec {S}.
Arguments Query {S}.
Arguments QueryRow {S}.
Arguments Begin {S}.
Arguments Commit {S}.
Arguments Rollback {S}.
Arguments Readyable {S}.

(** [Querier]: the three query methods, whatever they run on. *)
Record Querier (S : Type) : Type := mkQuerier {
  Q_Exec : Context → string → list Value → M S (Z * option error);
  Q_Query : Context → string → list Value → M S (Rows S + error);
  Q_QueryRow : Context → string → list Value → M S (Row S)
}.
Arguments mkQuerier {S}.
Arguments Q_Exec {S}.
Arguments Q_Query {S}.
Arguments Q_QueryRow {S}.

Section TxManager.
Context {S : Type}.
Notation P := (TxProvider S).

(** A provider or a transaction seen as a [Querier]. *)
Definition as_querier (p : P) (t : target) : Querier S :=
  mkQuerier (Exec p t) (Query p t) (QueryRow p t).

Definition errRow (e : error) : Row S := mkRow (ret ([], Some e)).

(** ** The readiness gate *)

Definition readyQuerier_wait (p : P) (ctx : Context) : M S (option error) :=
  match Readyable p with
  | Some rd =>
      (err <- WaitReady ctx rd ;;
       ret (Errorf_w "pool not ready: " <$> err))%go
  | None => ret None
  end.

Definition readyQuerier_Exec (p : P) (ctx : Context) (sql : string) (args : list Value) :
    M S (Z * option error) :=
  (err <- readyQuerier_wait p ctx ;;
   match err with
   | Some e => ret (0%Z, Some e)
   | None => Exec p Pool ctx sql args
   end)%go.

Definition readyQuerier_Query (p : P) (ctx : Context) (sql : string) (args : list Value) :
    M S (Rows S + error) :=
  (err <- readyQuerier_wait p ctx ;;
   match err with
   | Some e => ret (inr e)
   | None => Query p Pool ctx sql args
   end)%go.

Definition readyQuerier_QueryRow (p : P) (ctx : Context) (sql : string) (args : list Value) :
    M S (Row S) :=
  (err <- readyQuerier_wait p ctx ;;
   match err with
   | Some e => ret (errRow e)
   | None => QueryRow p Pool ctx sql args
   end)%go.

Definition readyQuerier (p : P) : Querier S :=
  mkQuerier (readyQuerier_Exec p) (readyQuerier_Query p) (readyQuerier_QueryRow p).

(** ** The transaction manager *)

Definition TxFromContext (ctx : Context) : option nat := ctx_tx ctx.

Definition QuerierFromContext (p : P) (ctx : Context) : Querier S :=
  match TxFromContext ctx with
  | Some tx => as_querier p (InTx tx)
  | None =>
      match Readyable p with
      | Some _ => readyQuerier p
      | None => as_querier p Pool
      end
  end.

Definition rollback_failed (fnErr rollbackErr : error) : error :=
  WrapError ("transaction failed: " +:+ Error fnErr +:+ ", rollback failed: " +:+ Error rollbackErr)
    [fnErr; rollbackErr].

Definition commit_failed (commitErr : error) : error :=
  Errorf_w "failed to commit transaction: " commitErr.

(** [WithTx] from the point where the transaction [tx] is open. *)
Definition WithTx_body (p : P) (ctx : Context) (tx : nat) (fn : Context → M S (option error)) :
    M S (option error) :=
  with_defer
    (fnErr <- fn (WithTxValue ctx tx) ;;
     match fnErr with
     | Some e =>
         rollbackErr <- Rollback p tx ctx ;;
         match rollbackErr with
         | Some re =>
             if errors_Is re ErrTxClosed then ret (Some e)
             else ret (Some (rollback_failed e re))
         | None => ret (Some e)
         end
     | None =>
         commitErr <- Commit p tx ctx ;;
         match commitErr with
         | Some ce => ret (Some (commit_failed ce))
         | None => ret None
         end
     end)%go
    (Rollback p tx ctx).

(** [WithTx] opens a savepoint in the transaction of the context, or a
    transaction of the provider once it is ready. *)
Definition WithTx_begin (p : P) (ctx : Context) : M S (nat + error) :=
  match TxFromContext ctx with
  | Some existingTx =>
      (r <- Begin p (InTx existingTx) ctx ;;
       match r with
       | inl tx => ret (inl tx)
       | inr e =>
           ret (inr (Errorf_w "failed to begin nested transaction (savepoint): " e))
       end)%go
  | None =>
      (waitErr <- match Readyable p with
                  | Some rd => WaitReady ctx rd
                  | None => ret None
                  end ;;
       match waitErr with
       | Some e => ret (inr (Errorf_w "pool not ready: " e))
       | None =>
           r <- Begin p Pool ctx ;;
           match r with
           | inl tx => ret (inl tx)
           | inr e => ret (inr (Errorf_w "failed to begin transaction: " e))
           end
       end)%go
  end.

Definition WithTx (p : P) (ctx : Context) (fn : Context → M S (option error)) :
    M S (option error) :=
  (r <- WithTx_begin p ctx ;;
   match r with
   | inr e => ret (Some e)
   | inl tx => WithTx_body p ctx tx fn
   end)%go.
End TxManager.

(** ** What a provider promises

    The abstract database: committed data and the open transactions, innermost
    first, each with the data it sees. *)
Record Abs (D : Type) : Type := mkAbs { base : D; opened : list (nat * D) }.
Arguments mkAbs {D}.
Arguments base {D}.
Arguments opened {D}.

Section Abs.
Context {D : Type}.

(** The data the innermost level sees. *)
Definition cur (a : Abs D) : D :=
  match opened a with (_, d) :: _ => d | [] => base a end.

Definition set_cur (d : D) (a : Abs D) : Abs D :=
  match opened a with
  | (h, _) :: rest => mkAbs (base a) ((h, d) :: rest)
  | [] => mkAbs d []
  end.

Definition push (h : nat) (a : Abs D) : Abs D := mkAbs (base a) ((h, cur a) :: opened a).

(** Forgetting the innermost level. *)
Definition pop (a : Abs D) : Abs D := mkAbs (base a) (tail (opened a)).

(** Handing the data of the innermost level to the enclosing one. *)
Definition merge (a : Abs D) : Abs D := set_cur (cur a) (pop a).

(** Some transaction is open. *)
Definition inside (a : Abs D) : bool := match opened a with [] => false | _ :: _ => true end.

(** The innermost level, as a target. *)
Definition top (a : Abs D) : target :=
  match opened a with (h, _) :: _ => InTx h | [] => Pool end.

Definition handles (a : Abs D) : list nat := map fst (opened a).
End Abs.

(** The contract. [exec_sem sql args d r d'] is the meaning of a statement: it
    may take the data [d] to [d'] with the result [r]. Every call returns.
    - [Begin] on the innermost level opens a level that sees the same data, or
      fails and changes nothing.
    - [Commit] of the innermost level hands its data to the enclosing level; if
      it fails, the level has been dropped or is still open.
    - [Rollback] of the innermost level drops it.
    - [Rollback] of a transaction that is no longer open changes nothing, and
      if it reports an error, that is [ErrTxClosed].
    With [lossy], the two failures that a client cannot see through are possible
    as well: a [Commit] that reports an error may have taken effect (the
    acknowledgement was lost), and the [Rollback] of a savepoint that reports an
    error, which is then not [ErrTxClosed], may have left the changes in the
    enclosing transaction (it was not carried out, for instance because its context
    was done). A real transaction whose rollback fails is dropped, with its
    connection. Without [lossy], what failed had no effect. *)
Class TxLaws (lossy : bool) {S D : Type} (p : TxProvider S) (abs : S → Abs D)
    (exec_sem : string → list Value → D → Z * option error → D → Prop) : Prop := {
  law_exec ctx sql args w :
    ∃ r w' d', Exec p (top (abs (heap w))) ctx sql args w = (Ret r, w') ∧
      exec_sem sql args (cur (abs (heap w))) r d' ∧ abs (heap w') = set_cur d' (abs (heap w));
  law_begin ctx w :
    ∃ r w', Begin p (top (abs (heap w))) ctx w = (Ret r, w') ∧
      match r with
      | inl h => h ∉ handles (abs (heap w)) ∧ abs (heap w') = push h (abs (heap w))
      | inr _ => abs (heap w') = abs (heap w)
      end;
  law_commit ctx w h :
    top (abs (heap w)) = InTx h →
    ∃ r w', Commit p h ctx w = (Ret r, w') ∧
      match r with
      | None => abs (heap w') = merge (abs (heap w))
      | Some _ => abs (heap w') = pop (abs (heap w)) ∨ abs (heap w') = abs (heap w) ∨
          (lossy = true ∧ abs (heap w') = merge (abs (heap w)))
      end;
  law_rollback ctx w h :
    top (abs (heap w)) = InTx h →
    ∃ r w', Rollback p h ctx w = (Ret r, w') ∧
      (abs (heap w') = pop (abs (heap w)) ∨
       (lossy = true ∧ inside (pop (abs (heap w))) = true ∧ abs (heap w') = merge (abs (heap w)) ∧
        ∃ e, r = Some e ∧ errors_Is e ErrTxClosed = false));
  law_rollback_closed ctx w h :
    h ∉ handles (abs (heap w)) →
    ∃ r w', Rollback p h ctx w = (Ret r, w') ∧ abs (heap w') = abs (heap w) ∧
      match r with Some e => errors_Is e ErrTxClosed = true | None => True end
}.

(** ** Programs

    Go code that talks to the database through the transaction manager: it
    executes statements on the [Querier] of its context, runs transactional
    blocks, looks at the results, and in the end returns an error, nil or
    panics. Any Go code in between is the continuation. *)
Inductive prog : Type :=
| PReturn (e : option error)
| PPanic (m : string)
| PExec (sql : string) (args : list Value) (k : Z * option error → prog)
| PWithTx (body : prog) (k : option error → prog).

Fixpoint run_prog {S} (p : TxProvider S) (c : prog) (ctx : Context) : M S (option error) :=
  match c with
  | PReturn e => ret e
  | PPanic m => mpanic m
  | PExec sql args k =>
      (r <- Q_Exec (QuerierFromContext p ctx) ctx sql args ;; run_prog p (k r) ctx)%go
  | PWithTx body k =>
      (e <- WithTx p ctx (run_prog p body) ;; run_prog p (k e) ctx)%go
  end.

(** The errors with which a block can fail before it begins. *)
Definition refusal (nested : bool) (e : error) : Prop :=
  ∃ cause, if nested
    then e = Errorf_w "failed to begin nested transaction (savepoint): " cause
    else e = Errorf_w "pool not ready: " cause ∨ e = Errorf_w "failed to begin transaction: " cause.

(** What is left of the changes [d1] of a block that began with [d] and failed:
    nothing, or, where failures are lossy, all of them. *)
Definition kept {D : Type} (lossy : bool) (d d1 d' : D) : Prop :=
  d' = d ∨ (lossy = true ∧ d' = d1).

(** The meaning of a program on plain data, with [PWithTx] as an all-or-nothing
    block. [nested] says whether it runs inside a block; only outside of one can
    the readiness gate fail, and only inside of one can a failed rollback leave the
    changes of the block behind. *)
Section Atomic.
Context (lossy : bool) {D : Type} (exec_sem : string → list Value → D → Z * option error → D → Prop).

Inductive atomic : bool → prog → D → Result (option error) → D → Prop :=
| A_return nested e d : atomic nested (PReturn e) d (Ret e) d
| A_panic nested m d : atomic nested (PPanic m) d (Panic m) d
| A_exec nested sql args k d r d1 res d2 :
    exec_sem sql args d r d1 → atomic nested (k r) d1 res d2 →
    atomic nested (PExec sql args k) d res d2
| A_exec_not_ready sql args k d e res d2 :
    atomic false (k (0%Z, Some (Errorf_w "pool not ready: " e))) d res d2 →
    atomic false (PExec sql args k) d res d2
| A_block_refused nested body k d e res d2 :
    refusal nested e → atomic nested (k (Some e)) d res d2 →
    atomic nested (PWithTx body k) d res d2
| A_block_commit nested body k d d1 res d2 :
    atomic true body d (Ret None) d1 → atomic nested (k None) d1 res d2 →
    atomic nested (PWithTx body k) d res d2
| A_block_commit_failed nested body k d d1 d' e res d2 :
    atomic true body d (Ret None) d1 → kept lossy d d1 d' →
    atomic nested (k (Some (commit_failed e))) d' res d2 →
    atomic nested (PWithTx body k) d res d2
| A_block_failed nested body k d d1 e res d2 :
    atomic true body d (Ret (Some e)) d1 →
    atomic nested (k (Some e)) d res d2 →
    atomic nested (PWithTx body k) d res d2
| A_block_rollback_failed nested body k d d1 d' e re res d2 :
    atomic true body d (Ret (Some e)) d1 → kept (lossy && nested) d d1 d' →
    atomic nested (k (Some (rollback_failed e re))) d' res d2 →
    atomic nested (PWithTx body k) d res d2
| A_block_panic nested body k d d1 d' m :
    atomic true body d (Panic m) d1 → kept (lossy && nested) d d1 d' →
    atomic nested (PWithTx body k) d (Panic m) d'.
End Atomic.

(** What is left of a block on [d] that reported [e], where [done] is what it does
    when it succeeds: nothing; or, where failures are lossy, all of it after a failed
    commit; or part of it after the failed rollback of a savepoint. *)
Definition tx_failed {D : Type} (lossy nested : bool) (d : D) (e : error) (done : D → Prop) (d' : D) : Prop :=
  d' = d ∨ (lossy = true ∧ (∃ ce, e = commit_failed ce) ∧ done d') ∨
  (lossy = true ∧ nested = true ∧ ∃ e0 re, e = rollback_failed e0 re).

(** ** Lemmas *)

Section AbsLemmas.
Context {D : Type}.

Lemma cur_set_cur (d : D) a : cur (set_cur d a) = d.
Proof. destruct a as [b [|[h x] o]]; done. Qed.

Lemma set_cur_set_cur (d d' : D) a : set_cur d (set_cur d' a) = set_cur d a.
Proof. destruct a as [b [|[h x] o]]; done. Qed.

Lemma set_cur_cur (a : Abs D) : set_cur (cur a) a = a.
Proof. destruct a as [b [|[h x] o]]; done. Qed.

Lemma top_set_cur (d : D) a : top (set_cur d a) = top a.
Proof. destruct a as [b [|[h x] o]]; done. Qed.

Lemma handles_set_cur (d : D) a : handles (set_cur d a) = handles a.
Proof. destruct a as [b [|[h x] o]]; done. Qed.

Lemma pop_push_set_cur h (d : D) a : pop (set_cur d (push h a)) = a.
Proof. by destruct a as [b [|[h' x] o]]. Qed.

Lemma pop_push h (a : Abs D) : pop (push h a) = a.
Proof. by destruct a as [b [|[h' x] o]]. Qed.

Lemma cur_push h (a : Abs D) : cur (push h a) = cur a.
Proof. done. Qed.

Lemma merge_push_set_cur h (d : D) a : merge (set_cur d (push h a)) = set_cur d a.
Proof. unfold merge. by rewrite cur_set_cur, pop_push_set_cur. Qed.
End AbsLemmas.

(** The readiness gate returns: the provider is not gated, or becomes ready, or
    the context ends. *)
Definition gate_ok {S} (p : TxProvider S) (ctx : Context) : Prop :=
  match Readyable p with
  | Some None => ctx_done ctx ≠ None
  | _ => True
  end.

(** The transaction on the context is the innermost open one. *)
Definition ctx_target (ctx : Context) : target :=
  match TxFromContext ctx with Some h => InTx h | None => Pool end.

Definition in_tx (ctx : Context) : bool :=
  match TxFromContext ctx with Some _ => true | None => false end.

Lemma inside_in_tx {D} ctx (a : Abs D) : ctx_target ctx = top a → inside a = in_tx ctx.
Proof. unfold ctx_target, in_tx, inside, top. by destruct (TxFromContext ctx), (opened a) as [|[]]. Qed.

Section Refinement.
Context {lossy : bool} {S D : Type} (p : TxProvider S) (abs : S → Abs D)
  (exec_sem : string → list Value → D → Z * option error → D → Prop).
Context `{L : !TxLaws lossy p abs exec_sem}.

Lemma readyQuerier_wait_returns ctx w :
  gate_ok p ctx →
  ∃ r w', readyQuerier_wait p ctx w = (Ret r, w') ∧ heap w' = heap w ∧
    match r with Some e => ∃ c, e = Errorf_w "pool not ready: " c | None => True end.
Proof.
  intros Hg. unfold readyQuerier_wait, gate_ok in *. destruct (Readyable p) as [rd|].
  - destruct (WaitReady_returns ctx rd w) as (r & w' & Hr & Hh); [by intros ->|].
    run Hr. eexists _, w'. split_and!; [done|done|].
    destruct r; simpl; eauto.
  - by eexists _, w.
Qed.

(** A statement runs on the innermost level, unless the gate refuses it. *)
Lemma exec_refines ctx sql args w :
  gate_ok p ctx → ctx_target ctx = top (abs (heap w)) →
  ∃ r w' d', Q_Exec (QuerierFromContext p ctx) ctx sql args w = (Ret r, w') ∧
    abs (heap w') = set_cur d' (abs (heap w)) ∧
    (exec_sem sql args (cur (abs (heap w))) r d' ∨
     (in_tx ctx = false ∧ d' = cur (abs (heap w)) ∧
      ∃ c, r = (0%Z, Some (Errorf_w "pool not ready: " c)))).
Proof.
  intros Hg Ht. unfold QuerierFromContext, ctx_target, in_tx in *.
  destruct (TxFromContext ctx) as [h|].
  - simpl. rewrite Ht. destruct (law_exec (TxLaws := L) ctx sql args w) as (r & w' & d' & ? & ? & ?).
    eauto 10.
  - destruct (Readyable p) eqn:Hr; simpl.
    + destruct (readyQuerier_wait_returns ctx w Hg) as (r & w1 & Hw & Hh & He).
      unfold readyQuerier_Exec. run Hw. destruct r as [e|].
      * destruct He as [c ->]. eexists _, w1, _. split; [reflexivity|].
        rewrite Hh. split; [symmetry; apply set_cur_cur|]. right. eauto.
      * rewrite Ht, <-Hh.
        destruct (law_exec (TxLaws := L) ctx sql args w1) as (r & w' & d' & ? & ? & ?). eauto 10.
    + rewrite Ht. destruct (law_exec (TxLaws := L) ctx sql args w) as (r & w' & d' & ? & ? & ?).
      eauto 10.
Qed.

(** Opening a block. *)
Lemma WithTx_begin_refines ctx w :
  gate_ok p ctx → ctx_target ctx = top (abs (heap w)) →
  ∃ r w', WithTx_begin p ctx w = (Ret r, w') ∧
    match r with
    | inl h => h ∉ handles (abs (heap w)) ∧ abs (heap w') = push h (abs (heap w))
    | inr e => refusal (in_tx ctx) e ∧ abs (heap w') = abs (heap w)
    end.
Proof.
  intros Hg Ht. unfold WithTx_begin, ctx_target, in_tx, refusal in *.
  destruct (TxFromContext ctx) as [h|].
  - rewrite Ht. destruct (law_begin (TxLaws := L) ctx w) as (r & w' & Hb & Hr).
    run Hb. destruct r as [h'|e]; eexists _, w'; (split; [reflexivity|]);
      simpl; eauto.
  - assert (∃ r w1, match Readyable p with Some rd => WaitReady ctx rd | None => ret None end w
                    = (Ret r, w1) ∧ heap w1 = heap w) as (r & w1 & Hw & Hh).
    { unfold gate_ok in Hg. destruct (Readyable p) as [rd|]; [|by eexists _, w].
      apply WaitReady_returns. by intros ->. }
    run Hw. destruct r as [e|].
    { eexists _, w1. split; [reflexivity|]. rewrite Hh. eauto. }
    rewrite Ht, <-Hh.
    destruct (law_begin (TxLaws := L) ctx w1) as (r & w' & Hb & Hr).
    run Hb. destruct r as [h'|e]; eexists _, w'; (split; [reflexivity|]);
      simpl; eauto.
Qed.

(** Rolling back the block [h] opened on [a]: it is gone, and so are its changes,
    unless the rollback of a savepoint failed. *)
Lemma rollback_open ctx h d a w :
  abs (heap w) = set_cur d (push h a) →
  ∃ r w' d', Rollback p h ctx w = (Ret r, w') ∧ abs (heap w') = set_cur d' a ∧
    kept (lossy && inside a) (cur a) d d' ∧
    (d' = cur a ∨ ∃ e, r = Some e ∧ errors_Is e ErrTxClosed = false).
Proof.
  intros Hd. destruct (law_rollback (TxLaws := L) ctx w h) as (r & w' & Hr & Ha).
  { by rewrite Hd, top_set_cur. }
  exists r, w'. rewrite Hd, merge_push_set_cur, pop_push_set_cur in Ha. unfold kept.
  destruct Ha as [Ha|(-> & -> & Ha & He)]; [exists (cur a)|exists d]; rewrite ?set_cur_cur; eauto 10.
Qed.

Lemma rollback_gone ctx h w :
  h ∉ handles (abs (heap w)) →
  ∃ r w', Rollback p h ctx w = (Ret r, w') ∧ abs (heap w') = abs (heap w).
Proof.
  intros Hh. destruct (law_rollback_closed (TxLaws := L) ctx w h Hh) as (r & w' & ? & ? & _). eauto.
Qed.

(** A block whose body has the outcome [res] on the data of the new level. *)
Definition block_outcome (a : Abs D) (d1 : D) (res r : Result (option error)) (d' : D) : Prop :=
  match res with
  | Ret None => (r = Ret None ∧ d' = d1) ∨
      ((∃ e, r = Ret (Some (commit_failed e))) ∧ kept lossy (cur a) d1 d')
  | Ret (Some e) => (r = Ret (Some e) ∧ d' = cur a) ∨
      ((∃ re, r = Ret (Some (rollback_failed e re))) ∧ kept (lossy && inside a) (cur a) d1 d')
  | Panic m => r = Panic m ∧ kept (lossy && inside a) (cur a) d1 d'
  | Block => False
  end.

Lemma WithTx_body_refines ctx h fn a w res w1 d1 :
  abs (heap w) = push h a → h ∉ handles a →
  fn (WithTxValue ctx h) w = (res, w1) → res ≠ Block →
  abs (heap w1) = set_cur d1 (push h a) →
  ∃ r w2 d', WithTx_body p ctx h fn w = (r, w2) ∧ abs (heap w2) = set_cur d' a ∧
    block_outcome a d1 res r d'.
Proof.
  intros Hw Hh Hfn Hb Ha. unfold WithTx_body, with_defer, bind. rewrite Hfn.
  assert (∀ w2 d2, abs (heap w2) = set_cur d2 a →
    ∃ r3 w3, Rollback p h ctx w2 = (Ret r3, w3) ∧ abs (heap w3) = set_cur d2 a) as Hgone.
  { intros w2 d2 H2. destruct (rollback_gone ctx h w2) as (r3 & w3 & ? & ?);
      [by rewrite H2, handles_set_cur|]. rewrite H2 in *. eauto. }
  destruct res as [[e|]|m|]; [..|done].
  - destruct (rollback_open ctx h _ _ _ Ha) as (r1 & w2 & d2 & Hr & Ha2 & Hk & Hre). rewrite Hr.
    destruct (Hgone w2 d2 Ha2) as (r3 & w3 & Hr3 & Ha3).
    destruct r1 as [re|]; [destruct (errors_Is re ErrTxClosed) eqn:Hcl|]; simpl; rewrite Hr3;
      (eexists _, w3, d2; split; [reflexivity|]; split; [done|]); simpl; [left|right; by eauto|left].
    + split; [done|]. destruct Hre as [?|(? & [= <-] & ?)]; congruence.
    + split; [done|]. by destruct Hre as [?|(? & [=] & _)].
  - destruct (law_commit (TxLaws := L) ctx w1 h) as (r1 & w2 & Hc & Ha2).
    { by rewrite Ha, top_set_cur. }
    rewrite Hc. rewrite Ha, merge_push_set_cur, pop_push_set_cur in Ha2. destruct r1 as [ce|]; simpl.
    + assert (∃ r3 w3 d3, Rollback p h ctx w2 = (Ret r3, w3) ∧ abs (heap w3) = set_cur d3 a ∧
        kept lossy (cur a) d1 d3) as (r3 & w3 & d3 & Hr3 & Ha3 & Hk).
      { unfold kept. destruct Ha2 as [Ha2|[Ha2|[-> Ha2]]].
        - rewrite <-(set_cur_cur a) in Ha2. destruct (Hgone _ _ Ha2) as (? & ? & ? & ?). eauto 10.
        - destruct (rollback_open ctx h _ _ _ Ha2) as (? & ? & d3 & ? & ? & Hk & _).
          unfold kept in Hk. rewrite andb_true_iff in Hk. eexists _, _, d3. split_and!; [done..|]. tauto.
        - destruct (Hgone _ _ Ha2) as (? & ? & ? & ?). eauto 10. }
      rewrite Hr3. eexists _, w3, d3. split; [reflexivity|]. split; [done|]. right. eauto.
    + destruct (Hgone _ _ Ha2) as (r3 & w3 & Hr3 & Ha3). rewrite Hr3.
      eexists _, w3, d1. split; [reflexivity|]. split; [done|]. by left.
  - destruct (rollback_open ctx h _ _ _ Ha) as (r1 & w2 & d2 & Hr & Ha2 & Hk & _). rewrite Hr.
    by eexists _, w2, d2.
Qed.

(** What a caller knows of a block that failed. *)
Lemma block_failed a d1 res e d' (done : D → Prop) nested :
  block_outcome a d1 res (Ret (Some e)) d' → nested = inside a → (res = Ret None → done d1) →
  tx_failed lossy nested (cur a) e done d'.
Proof.
  intros H -> Hd. unfold tx_failed. destruct res as [[e0|]|m|]; simpl in H; [..|done].
  - destruct H as [[_ ->]|[[re [= ->]] [->|[[? ?]%andb_true_iff ->]]]]; [by left|by left|].
    right. right. split_and!; [done..|]. by exists e0, re.
  - destruct H as [[[=] _]|[[ce [= ->]] [->|[? ->]]]]; [by left|]. right. left.
    split_and!; [done|by exists ce|by apply Hd].
  - by destruct H as [[=] _].
Qed.

(** Running a program through the transaction manager is running it on plain
    data with atomic blocks; the stack of open transactions is left as it was. *)
Definition refines (c : prog) : Prop := ∀ ctx w,
  gate_ok p ctx → ctx_target ctx = top (abs (heap w)) →
  ∃ res w' d', run_prog p c ctx w = (res, w') ∧ res ≠ Block ∧
    atomic lossy exec_sem (in_tx ctx) c (cur (abs (heap w))) res d' ∧
    abs (heap w') = set_cur d' (abs (heap w)).

Lemma refines_exec sql args k : (∀ r, refines (k r)) → refines (PExec sql args k).
Proof.
  intros IH ctx w Hg Ht. simpl.
  destruct (exec_refines ctx sql args w Hg Ht) as (r & w1 & d1 & Hx & Ha & Hor).
  run Hx.
  destruct (IH r ctx w1 Hg) as (res & w2 & d2 & Hrun & Hnb & Hat & Ha2).
  { by rewrite Ha, top_set_cur. }
  exists res, w2, d2. rewrite Ha2, Ha, set_cur_set_cur. rewrite Ha, cur_set_cur in Hat.
  split_and!; try done. destruct Hor as [Hs|(Hin & -> & c & ->)].
  - by eapply A_exec.
  - rewrite Hin in *. by eapply A_exec_not_ready.
Qed.

(** What follows a block that has left the data [d]. *)
Lemma refines_continue (m : M S (option error)) k ctx a w1 w3 r d :
  (∀ e, refines (k e)) → gate_ok p ctx → ctx_target ctx = top a →
  m w1 = (Ret r, w3) → abs (heap w3) = set_cur d a →
  ∃ res w' d', bind m (λ e, run_prog p (k e) ctx) w1 = (res, w') ∧ res ≠ Block ∧
    atomic lossy exec_sem (in_tx ctx) (k r) d res d' ∧ abs (heap w') = set_cur d' a.
Proof.
  intros IH Hg Ht Hm Hd. run Hm.
  destruct (IH r ctx w3 Hg) as (res & w' & d' & ? & ? & Hat & Ha).
  { by rewrite Hd, top_set_cur. }
  rewrite Hd, cur_set_cur in Hat. rewrite Hd, set_cur_set_cur in Ha. eauto 10.
Qed.

Lemma refines_block body k :
  refines body → (∀ e, refines (k e)) → refines (PWithTx body k).
Proof.
  intros IHb IH ctx w Hg Ht. simpl. unfold WithTx. rewrite bind_assoc.
  destruct (WithTx_begin_refines ctx w Hg Ht) as (r & w1 & Hx & Hr).
  run Hx. destruct r as [h|e].
  2:{ destruct Hr as [Href Ha]. rewrite <-(set_cur_cur (abs (heap w))) in Ha.
      edestruct (refines_continue (ret (Some e)) k) as (res & w2 & d2 & ? & ? & ? & ?);
        [done..|reflexivity|exact Ha|].
      exists res, w2, d2. split_and!; [done|done| |done]. by eapply A_block_refused. }
  destruct Hr as [Hh Ha].
  destruct (IHb (WithTxValue ctx h) w1) as (res & w2 & d2 & Hrun & Hnb & Hat & Ha2);
    [done|by rewrite Ha|].
  rewrite Ha in Ha2, Hat. rewrite cur_push in Hat.
  destruct (WithTx_body_refines ctx h (run_prog p body) _ _ _ _ _ Ha Hh Hrun Hnb Ha2)
    as (r & w3 & d' & Hbody & Hd & Hcase).
  pose proof (λ r, refines_continue (WithTx_body p ctx h (run_prog p body)) k ctx
    (abs (heap w)) w1 w3 r d' IH Hg Ht) as Hcont.
  change (in_tx (WithTxValue ctx h)) with true in Hat. rewrite <-(inside_in_tx _ _ Ht) in Hcont |- *.
  destruct res as [[e|]|m|]; [..|done].
  - destruct Hcase as [[-> ->]|[[re ->] Hk]];
      destruct (Hcont _ Hbody Hd) as (res' & w' & d'' & ? & ? & ? & ?);
      exists res', w', d''; (split_and!; [done|done| |done]).
    + by eapply A_block_failed.
    + by eapply A_block_rollback_failed.
  - destruct Hcase as [[-> ->]|[[e ->] Hk]];
      destruct (Hcont _ Hbody Hd) as (res' & w' & d'' & ? & ? & ? & ?);
      exists res', w', d''; (split_and!; [done|done| |done]).
    + by eapply A_block_commit.
    + by eapply A_block_commit_failed.
  - destruct Hcase as [-> Hk]. unfold bind. rewrite Hbody. eexists _, w3, _.
    split_and!; [reflexivity|done|by eapply A_block_panic|done].
Qed.

Lemma run_prog_refines c : refines c.
Proof.
  induction c; eauto using refines_exec, refines_block; intros ctx w Hg Ht;
    (eexists _, w, _; split_and!; [reflexivity|done|constructor|by rewrite set_cur_cur]).
Qed.
End Refinement.

(** ** A reference database

    Savepoints as PostgreSQL has them: releasing or rolling back a transaction
    also ends those opened inside it. Each operation may fail, as the list of
    faults says. With [lossy], a commit that fails has taken effect, and a rollback
    of a savepoint that fails has not. *)
Record StackDB (D : Type) : Type := mkStackDB { sdb : Abs D; faults : list (option error) }.
Arguments mkStackDB {D}.
Arguments sdb {D}.
Arguments faults {D}.

Section StackDB.
Context (lossy : bool) {D : Type} (exec_fn : string → list Value → D → (Z * option error) * D).

(** The levels enclosing [h]. *)
Fixpoint below (h : nat) (o : list (nat * D)) : list (nat * D) :=
  match o with
  | [] => []
  | (h', _) :: o' => if Nat.eqb h h' then o' else below h o'
  end.

Definition is_open (t : target) (a : Abs D) : bool :=
  match t with Pool => true | InTx h => bool_decide (h ∈ handles a) end.

Definition fresh_handle (a : Abs D) : nat := Datatypes.S (list_max (handles a)).

Definition closed_error : error := Sentinel ErrTxClosed.

(** One operation on [t]: refused when [t] is closed; else it fails with the next
    fault, or does [f]. *)
Definition db_op {A} (t : target) (fail : error → A) (drop : error → Abs D → Abs D)
    (f : Abs D → A * Abs D) : M (StackDB D) A := λ w,
  let a := sdb (heap w) in
  if is_open t a then
    match faults (heap w) with
    | Some e :: fs => (Ret (fail e), mkWorld (clock w) (coins w) (mkStackDB (drop e a) fs))
    | fs => (Ret (f a).1, mkWorld (clock w) (coins w) (mkStackDB (f a).2 (tail fs)))
    end
  else (Ret (fail closed_error), w).

Definition leave (h : nat) (a : Abs D) : Abs D := mkAbs (base a) (below h (opened a)).

(** An error that says that the transaction is closed. *)
Definition says_closed (e : error) : bool := errors_Is e ErrTxClosed || errors_Is e pgx_ErrTxClosed.

Definition sdb_Exec (t : target) (ctx : Context) (sql : string) (args : list Value) :
    M (StackDB D) (Z * option error) :=
  db_op t (λ e, (0%Z, Some e)) (λ _, id) (λ a,
    ((exec_fn sql args (cur a)).1, set_cur (exec_fn sql args (cur a)).2 a)).

Definition sdb_Begin (t : target) (ctx : Context) : M (StackDB D) (nat + error) :=
  db_op t inr (λ _, id) (λ a, (inl (fresh_handle a), push (fresh_handle a) a)).

Definition sdb_Commit (h : nat) (ctx : Context) : M (StackDB D) (option error) :=
  db_op (InTx h) Some (λ _ a, if lossy then set_cur (cur a) (leave h a) else leave h a)
    (λ a, (None, set_cur (cur a) (leave h a))).

Definition sdb_Rollback (h : nat) (ctx : Context) : M (StackDB D) (option error) :=
  db_op (InTx h) Some
    (λ e a, if lossy && inside (leave h a) && negb (says_closed e) then set_cur (cur a) (leave h a) else leave h a)
    (λ a, (None, leave h a)).

(** Queries are not used by the programs above; they fail. *)
Definition stackdb (rd : option Signal) : TxProvider (StackDB D) :=
  mkTxProvider sdb_Exec (λ _ _ _ _, ret (inr (ErrorString "unsupported")))
    (λ _ _ _ _, ret (errRow (ErrorString "unsupported")))
    sdb_Begin sdb_Commit sdb_Rollback rd.

Definition stack_sem (sql : string) (args : list Value) (d : D) (r : Z * option error) (d' : D) :
    Prop :=
  exec_fn sql args d = (r, d') ∨ (∃ e, r = (0%Z, Some e) ∧ d' = d).

Lemma is_open_top a : is_open (top a) a = true.
Proof.
  destruct a as [b [|[h d] o]]; [done|]. apply bool_decide_eq_true_2. simpl. constructor.
Qed.

Lemma leave_top h a : top a = InTx h → leave h a = pop a.
Proof.
  destruct a as [b [|[h' d] o]]; [done|]. intros [= ->]. unfold leave. simpl.
  by rewrite Nat.eqb_refl.
Qed.

Lemma fresh_handle_fresh (a : Abs D) : fresh_handle a ∉ handles a.
Proof.
  intros Hin%list_elem_of_In. unfold fresh_handle in Hin.
  apply list_max_ge in Hin. lia.
Qed.

(** An operation on an open target. *)
Lemma db_op_open {A} t (fail : error → A) dr f w :
  is_open t (sdb (heap w)) = true →
  ∃ r w', db_op t fail dr f w = (Ret r, w') ∧
    ((∃ e, r = fail e ∧ sdb (heap w') = dr e (sdb (heap w))) ∨
     (r, sdb (heap w')) = f (sdb (heap w))).
Proof.
  intros Ho. unfold db_op. rewrite Ho.
  destruct (faults (heap w)) as [|[e|] fs]; (eexists _, _; split; [reflexivity|]); simpl.
  - right. by destruct (f _).
  - left. eauto.
  - right. by destruct (f _).
Qed.

(** Rolling back the innermost level. *)
Lemma sdb_Rollback_open ctx w h :
  top (sdb (heap w)) = InTx h →
  ∃ r w', sdb_Rollback h ctx w = (Ret r, w') ∧
    (sdb (heap w') = pop (sdb (heap w)) ∨
     (lossy = true ∧ inside (pop (sdb (heap w))) = true ∧ sdb (heap w') = merge (sdb (heap w)) ∧
      ∃ e, r = Some e ∧ says_closed e = false)).
Proof.
  intros Ht.
  edestruct (db_op_open (A := option error) (InTx h)) as (r & w' & Hop & Hr);
    [rewrite <-Ht; apply is_open_top|].
  destruct Hr as [(e & -> & Hs)|Hs]; eexists _, w'; (split; [exact Hop|]).
  - rewrite Hs, leave_top by done. unfold merge.
    destruct lossy; [|by left]. destruct (inside (pop (sdb (heap w)))) eqn:Hin; [|by left].
    destruct (says_closed e) eqn:He; [by left|]. right. simpl. split_and!; eauto.
  - injection Hs as -> Hs. left. by rewrite Hs, leave_top.
Qed.

#[global] Instance stackdb_laws rd : TxLaws lossy (stackdb rd) sdb stack_sem.
Proof.
  split.
  - intros ctx sql args w.
    edestruct (db_op_open (A := Z * option error)) as (r & w' & Hop & Hr); [apply is_open_top|].
    destruct Hr as [(e & -> & Hs)|Hs]; eexists _, w', _; (split; [exact Hop|]).
    + split; [right; eauto|]. by rewrite Hs, set_cur_cur.
    + injection Hs as -> Hs. split; [left; apply surjective_pairing|done].
  - intros ctx w.
    edestruct (db_op_open (A := nat + error)) as (r & w' & Hop & Hr); [apply is_open_top|].
    destruct Hr as [(e & -> & Hs)|Hs]; eexists _, w'; (split; [exact Hop|]); [done|].
    injection Hs as -> Hs. split; [apply fresh_handle_fresh|done].
  - intros ctx w h Ht.
    edestruct (db_op_open (A := option error) (InTx h)) as (r & w' & Hop & Hr);
      [rewrite <-Ht; apply is_open_top|].
    destruct Hr as [(e & -> & Hs)|Hs]; eexists _, w'; (split; [exact Hop|]).
    + rewrite Hs, leave_top by done. destruct lossy; auto.
    + injection Hs as -> Hs. by rewrite Hs, leave_top.
  - intros ctx w h Ht. destruct (sdb_Rollback_open ctx w h Ht) as (r & w' & Hr & Hc).
    exists r, w'. split; [done|]. destruct Hc as [?|(? & ? & ? & e & -> & [He _]%orb_false_iff)]; [by left|].
    right. split_and!; [done..|]. by exists e.
  - intros ctx w h Hh. eexists _, w. unfold stackdb, Rollback, sdb_Rollback, db_op, is_open.
    rewrite bool_decide_eq_false_2 by done. by split_and!.
Qed.
End StackDB.

(** ** Single-row queries

    What [QueryRow] and [Scan] promise, as [law_exec] does for statements: the
    query may also change the data. *)
Class QueryLaws {S D : Type} (p : TxProvider S) (abs : S → Abs D)
    (query_sem : string → list Value → D → list Value * option error → D → Prop) : Prop := {
  law_query ctx sql args w :
    ∃ r w' d', (row <- QueryRow p (top (abs (heap w))) ctx sql args ;; Row_Scan row)%go w = (Ret r, w') ∧
      query_sem sql args (cur (abs (heap w))) r d' ∧ abs (heap w') = set_cur d' (abs (heap w))
}.

(** ** Closures that capture a local variable

    A function passed to [WithTx] that assigns to a variable [l : L] of its caller
    runs on the state with that variable; the provider does not touch it. *)
Section Local.
Context {S L : Type}.

Definition on_fst {A} (m : M S A) : M (S * L) A := zoom fst (λ s t, (s, t.2)) m.

Definition on_fst_row (r : Row S) : Row (S * L) := mkRow (on_fst (Row_Scan r)).

Definition on_fst_rows (r : Rows S) : Rows (S * L) :=
  mkRows (on_fst (Rows_Next r)) (on_fst (Rows_Scan r)) (on_fst (Rows_Err r)) (on_fst (Rows_Close r)).

Definition local_provider (p : TxProvider S) : TxProvider (S * L) :=
  mkTxProvider
    (λ t ctx sql args, on_fst (Exec p t ctx sql args))
    (λ t ctx sql args, (r <- on_fst (Query p t ctx sql args) ;;
       match r with inl rows => ret (inl (on_fst_rows rows)) | inr e => ret (inr e) end)%go)
    (λ t ctx sql args, (r <- on_fst (QueryRow p t ctx sql args) ;; ret (on_fst_row r))%go)
    (λ t ctx, on_fst (Begin p t ctx))
    (λ h ctx, on_fst (Commit p h ctx))
    (λ h ctx, on_fst (Rollback p h ctx))
    (Readyable p).

Lemma on_fst_Ret {A} (m : M S A) (w : World (S * L)) r w1 :
  m (mkWorld (clock w) (coins w) (heap w).1) = (Ret r, w1) →
  on_fst m w = (Ret r, mkWorld (clock w1) (coins w1) (heap w1, (heap w).2)).
Proof. unfold on_fst, zoom. by intros ->. Qed.

Lemma on_fst_snd {A} (m : M S A) (w : World (S * L)) : (heap (on_fst m w).2).2 = (heap w).2.
Proof. unfold on_fst, zoom. by destruct (m _). Qed.

Context {D : Type} (p : TxProvider S) (abs : S → Abs D).

#[global] Instance local_laws lossy sem `{TL : !TxLaws lossy p abs sem} :
  TxLaws lossy (local_provider p) (λ x, abs x.1) sem.
Proof.
  split.
  - intros ctx sql args w.
    destruct (law_exec (TxLaws := TL) ctx sql args (mkWorld (clock w) (coins w) (heap w).1))
      as (r & w' & d' & Hr & ? & ?).
    eexists r, _, d'. split; [by apply on_fst_Ret|done].
  - intros ctx w.
    destruct (law_begin (TxLaws := TL) ctx (mkWorld (clock w) (coins w) (heap w).1)) as (r & w' & Hr & ?).
    eexists r, _. split; [by apply on_fst_Ret|done].
  - intros ctx w h Ht.
    destruct (law_commit (TxLaws := TL) ctx (mkWorld (clock w) (coins w) (heap w).1) h Ht)
      as (r & w' & Hr & ?).
    eexists r, _. split; [by apply on_fst_Ret|done].
  - intros ctx w h Ht.
    destruct (law_rollback (TxLaws := TL) ctx (mkWorld (clock w) (coins w) (heap w).1) h Ht)
      as (r & w' & Hr & ?).
    eexists r, _. split; [by apply on_fst_Ret|done].
  - intros ctx w h Hh.
    destruct (law_rollback_closed (TxLaws := TL) ctx (mkWorld (clock w) (coins w) (heap w).1) h Hh)
      as (r & w' & Hr & ?).
    eexists r, _. split; [by apply on_fst_Ret|done].
Qed.

#[global] Instance local_query_laws qsem `{QL : !QueryLaws p abs qsem} :
  QueryLaws (local_provider p) (λ x, abs x.1) qsem.
Proof.
  split. intros ctx sql args w.
  destruct (law_query (QueryLaws := QL) ctx sql args (mkWorld (clock w) (coins w) (heap w).1))
    as (r & w' & d' & Hr & ? & ?).
  apply bind_Ret_inv in Hr as (row & [c1 k1 s1] & Hq & Hs).
  exists r, (mkWorld (clock w') (coins w') (heap w', (heap w).2)), d'. split; [|done].
  simpl. rewrite bind_assoc.
  run (on_fst_Ret _ _ _ _ Hq). rewrite bind_ret_l. simpl.
  by rewrite (on_fst_Ret _ (mkWorld c1 k1 (s1, (heap w).2)) _ _ Hs).
Qed.

(** The variable is as the function left it. *)
Lemma WithTx_body_local ctx h fn (w : World (S * L)) res w1 :
  fn (WithTxValue ctx h) w = (res, w1) →
  (heap (WithTx_body (local_provider p) ctx h fn w).2).2 = (heap w1).2.
Proof.
  intros Hfn. unfold WithTx_body, with_defer, bind. rewrite Hfn.
  pose proof (λ w, on_fst_snd (Rollback p h ctx) w) as Hrb.
  pose proof (on_fst_snd (Commit p h ctx) w1) as Hcm.
  assert (∀ w2 (r : Result (option error)), (heap w2).2 = (heap w1).2 →
    (heap (match r with
           | Block => (Block, w2)
           | _ => match Rollback (local_provider p) h ctx w2 with
                  | (Ret _, w'') => (r, w'')
                  | (Panic p0, w'') => (Panic p0, w'')
                  | (Block, w'') => (Block, w'')
                  end
           end).2).2 = (heap w1).2) as Hend.
  { intros w2 r H2. specialize (Hrb w2). simpl in *.
    destruct r; simpl; destruct (on_fst _ w2) as [[] ?]; simpl in *; congruence. }
  simpl in *. destruct res as [[e|]|m|]; simpl.
  - specialize (Hrb w1). destruct (on_fst (Rollback p h ctx) w1) as [[[re|]| |] w2]; simpl in *.
    + destruct (errors_Is re ErrTxClosed); [apply (Hend _ (Ret (Some e)))|apply (Hend _ (Ret (Some _)))]; done.
    + by apply (Hend _ (Ret (Some e))).
    + by apply (Hend _ (Panic msg)).
    + done.
  - destruct (on_fst (Commit p h ctx) w1) as [[[ce|]| |] w2]; simpl in *.
    + by apply (Hend _ (Ret (Some _))).
    + by apply (Hend _ (Ret None)).
    + by apply (Hend _ (Panic msg)).
    + done.
  - by apply (Hend _ (Panic m)).
  - done.
Qed.
End Local.

(** ** A sample database and program *)

(** [PUT k v] stores an integer; anything else is a syntax error. *)
Definition kv_exec (sql : string) (args : list Value) (d : gmap string Z) :
    (Z * option error) * gmap string Z :=
  match args with
  | [VString k; VInt v] =>
      if String.eqb sql "PUT" then ((1%Z, None), <[k := v]> d)
      else ((0%Z, Some (ErrorString "syntax error")), d)
  | _ => ((0%Z, Some (ErrorString "syntax error")), d)
  end.

Definition kv_world (fs : list (option error)) : World (StackDB (gmap string Z)) :=
  mkWorld 0 [] (mkStackDB (mkAbs ∅ []) fs).

Definition kv_db (lossy : bool) : TxProvider (StackDB (gmap string Z)) :=
  stackdb lossy kv_exec (Some (Some 5%Z)).

(** An outer block that stores [a], tries to store [b] in a nested block that
    fails, ignores that failure and succeeds. *)
Definition sample_prog : prog :=
  PWithTx
    (PExec "PUT" [VString "a"; VInt 1] (λ _,
       PWithTx (PExec "PUT" [VString "b"; VInt 2] (λ _, PReturn (Some (ErrorString "no b"))))
         (λ _, PReturn None)))
    PReturn.

Example sample_prog_runs :
  let '(r, w) := run_prog (kv_db false) sample_prog Background (kv_world []) in
  r = Ret None ∧ opened (sdb (heap w)) = [] ∧
  base (sdb (heap w)) !! "a" = Some 1%Z ∧ base (sdb (heap w)) !! "b" = None.
Proof. vm_compute. auto. Qed.

(** When the commit of the outer block fails, nothing is stored; or all of it, when
    only the acknowledgement was lost. *)
Definition commit_fault : list (option error) := [None; None; None; None; None; Some (ErrorString "lost")].

Example sample_prog_commit_fails :
  let run lossy := run_prog (kv_db lossy) sample_prog Background (kv_world commit_fault) in
  (run false).1 = Ret (Some (commit_failed (ErrorString "lost"))) ∧ (run true).1 = (run false).1 ∧
  base (sdb (heap (run false).2)) !! "a" = None ∧ base (sdb (heap (run true).2)) !! "a" = Some 1%Z.
Proof. vm_compute. auto. Qed.

(** The rollback of the nested block fails: the transaction around it goes on and
    commits what the nested block was to undo. *)
Example failed_savepoint_rollback_commits :
  let '(r, w) := run_prog (kv_db true) sample_prog Background
                   (kv_world [None; None; None; None; Some (Sentinel DeadlineExceeded)]) in
  r = Ret None ∧ base (sdb (heap w)) !! "a" = Some 1%Z ∧ base (sdb (heap w)) !! "b" = Some 2%Z.
Proof. vm_compute. auto. Qed.

(** ** Theorems *)

(** C3. Transactions refine atomic blocks. For every provider that keeps [TxLaws],
    whose readiness gate does not wait forever, and every program that executes
    statements and runs (nested) [WithTx] blocks, started on the innermost open
    transaction: running it through the transaction manager always ends, in a
    return or a panic, and the result and the data are those of the program run on
    plain data with all-or-nothing blocks, failures of the provider's own
    operations included; no transaction is left open and the enclosing ones keep
    their place. For a provider whose failed commits and failed savepoint rollbacks
    may have been carried out or not ([lossy]), so may the block that reports one. *)
Theorem run_prog_is_atomic lossy {S D} (p : TxProvider S) (abs : S → Abs D) exec_sem c ctx w :
  TxLaws lossy p abs exec_sem → gate_ok p ctx → ctx_target ctx = top (abs (heap w)) →
  ∃ res w' d', run_prog p c ctx w = (res, w') ∧ res ≠ Block ∧
    atomic lossy exec_sem (in_tx ctx) c (cur (abs (heap w))) res d' ∧
    abs (heap w') = set_cur d' (abs (heap w)).
Proof. intros L. by apply run_prog_refines. Qed.

Lemma run_prog_is_atomic_witness :
  ∃ res w' d', run_prog (kv_db false) sample_prog Background (kv_world []) = (res, w') ∧ res ≠ Block ∧
    atomic false (stack_sem kv_exec) false sample_prog ∅ res d' ∧
    sdb (heap w') = set_cur d' (mkAbs ∅ []).
Proof.
  apply (run_prog_is_atomic false (kv_db false) sdb (stack_sem kv_exec) sample_prog Background (kv_world [])).
  - apply stackdb_laws.
  - exact I.
  - reflexivity.
Defined.

(** C4. [WithTx] is all or nothing, as far as the provider is. For a provider that
    keeps [TxLaws] and whose readiness gate does not wait forever, around any
    program, in or outside a transaction, on the innermost open one, [WithTx] ends
    and leaves the open transactions as they were. If it returns nil, the body
    returned nil and exactly the body's changes are visible at the enclosing level.
    If it returns an error or panics, none of the body's changes are, with at most
    three exceptions, which need a provider whose failures are lossy, and which
    leave all of them: the commit reported an error after it took effect, which
    [WithTx] reports as a failed commit; or, in a nested block only, the rollback of
    the savepoint failed, which is reported together with the error of the body,
    and is lost if the body panicked. *)
Theorem WithTx_all_or_nothing lossy {S D} (p : TxProvider S) (abs : S → Abs D) exec_sem body ctx w :
  TxLaws lossy p abs exec_sem → gate_ok p ctx → ctx_target ctx = top (abs (heap w)) →
  let ran r d' := atomic lossy exec_sem true body (cur (abs (heap w))) r d' in
  ∃ res w' d', WithTx p ctx (run_prog p body) w = (res, w') ∧ abs (heap w') = set_cur d' (abs (heap w)) ∧
    match res with
    | Ret None => ran (Ret None) d'
    | Ret (Some e) => d' = cur (abs (heap w)) ∨
        (lossy = true ∧ (∃ ce, e = commit_failed ce) ∧ ran (Ret None) d') ∨
        (lossy = true ∧ in_tx ctx = true ∧ ∃ e0 re, e = rollback_failed e0 re ∧ ran (Ret (Some e0)) d')
    | Panic m => d' = cur (abs (heap w)) ∨ (lossy = true ∧ in_tx ctx = true ∧ ran (Panic m) d')
    | Block => False
    end.
Proof.
  intros L Hg Ht ran. unfold WithTx.
  destruct (WithTx_begin_refines p abs exec_sem ctx w Hg Ht) as (r & w1 & Hx & Hr).
  run Hx. destruct r as [h|e].
  2:{ eexists _, w1, (cur (abs (heap w))). split; [reflexivity|]. rewrite set_cur_cur.
      destruct Hr. split; [done|]. by left. }
  destruct Hr as [Hh Ha].
  destruct (run_prog_refines p abs exec_sem body (WithTxValue ctx h) w1)
    as (res & w2 & d2 & Hrun & Hnb & Hat & Ha2); [done|by rewrite Ha|].
  rewrite Ha in Ha2, Hat. change (ran res d2) in Hat.
  destruct (WithTx_body_refines p abs exec_sem ctx h (run_prog p body) _ _ _ _ _ Ha Hh Hrun Hnb Ha2)
    as (r & w3 & d' & Hbody & Hd & Hcase).
  exists r, w3, d'. split; [done|]. split; [done|].
  unfold block_outcome, kept in Hcase. rewrite (inside_in_tx _ _ Ht) in Hcase.
  destruct res as [[e|]|m|]; [..|done].
  - destruct Hcase as [[-> ->]|[[re ->] [->|[[Hl Hi]%andb_true_iff ->]]]]; [by left|by left|].
    right. right. split_and!; [done|done|]. by exists e, re.
  - destruct Hcase as [[-> ->]|[[e ->] [->|[Hl ->]]]]; [done|by left|].
    right. left. split_and!; [done|by exists e|done].
  - destruct Hcase as [-> [->|[[Hl Hi]%andb_true_iff ->]]]; [by left|by right].
Qed.

Lemma WithTx_all_or_nothing_witness :
  let body := PExec "PUT" [VString "a"; VInt 1] (λ _, PPanic "boom") in
  ∃ res w' d', WithTx (kv_db true) Background (run_prog (kv_db true) body) (kv_world []) = (res, w') ∧
    sdb (heap w') = set_cur d' (mkAbs ∅ []) ∧
    match res with
    | Ret None => atomic true (stack_sem kv_exec) true body ∅ (Ret None) d'
    | Ret (Some e) => d' = ∅ ∨
        (true = true ∧ (∃ ce, e = commit_failed ce) ∧ atomic true (stack_sem kv_exec) true body ∅ (Ret None) d') ∨
        (true = true ∧ false = true ∧
         ∃ e0 re, e = rollback_failed e0 re ∧ atomic true (stack_sem kv_exec) true body ∅ (Ret (Some e0)) d')
    | Panic m => d' = ∅ ∨ (true = true ∧ false = true ∧ atomic true (stack_sem kv_exec) true body ∅ (Panic m) d')
    | Block => False
    end.
Proof.
  intros body.
  apply (WithTx_all_or_nothing true (kv_db true) sdb (stack_sem kv_exec) body Background (kv_world [])).
  - apply stackdb_laws.
  - exact I.
  - reflexivity.
Defined.

(** The error of the body is never lost, whatever the rollback says. *)
Lemma WithTx_keeps_cause {S} (p : TxProvider S) ctx fn w tx w1 e w2 e' w3 t :
  WithTx_begin p ctx w = (Ret (inl tx), w1) →
  fn (WithTxValue ctx tx) w1 = (Ret (Some e), w2) →
  WithTx p ctx fn w = (Ret e', w3) → errors_Is e t = true → Is e' t = true.
Proof.
  intros Hb Hf Hw Ht. unfold WithTx in Hw. run Hb in Hw.
  unfold WithTx_body, with_defer, bind in Hw. rewrite Hf in Hw.
  destruct (Rollback p tx ctx w2) as [[r| |] w4]; [|by destruct (Rollback p tx ctx w4) as [[]]|done].
  assert (∃ e1, Is (Some e1) t = true ∧ e' = Some e1) as (e1 & ? & ->); [|done].
  destruct r as [re|]; [destruct (errors_Is re ErrTxClosed)|]; simpl in Hw;
    destruct (Rollback p tx ctx w4) as [[?| |] ?]; simplify_eq;
    (eexists; split; [|done]); simpl; by rewrite ?Ht.
Qed.

(** The readiness gate. While a gated provider is not ready by the deadline of
    the context, and there is no transaction on the context, no statement, query
    or transaction reaches the provider: each call ends when the context is done,
    with the context's error under "pool not ready", the error of a single-row
    query showing at [Scan]; [WithTx] does not run its function. *)
Theorem not_ready_not_reached {S} (p : TxProvider S) ctx rd d e w sql args fn :
  Readyable p = Some rd → TxFromContext ctx = None → ctx_done ctx = Some (d, e) →
  match rd with Some t => (Z.max (clock w) d < t)%Z | None => True end →
  let err := Errorf_w "pool not ready: " e in
  let w' := advance_to d w in
  let q := QuerierFromContext p ctx in
  Q_Exec q ctx sql args w = (Ret (0%Z, Some err), w') ∧
  Q_Query q ctx sql args w = (Ret (inr err), w') ∧
  (r <- Q_QueryRow q ctx sql args ;; Row_Scan r)%go w = (Ret ([], Some err), w') ∧
  WithTx p ctx fn w = (Ret (Some err), w').
Proof.
  intros Hr Hn Hd Ht err w' q.
  pose proof (WaitReady_too_late ctx rd w d e Hd Ht) as Hw.
  unfold q, QuerierFromContext, WithTx, WithTx_begin. rewrite Hn, Hr. simpl.
  unfold readyQuerier_Exec, readyQuerier_Query, readyQuerier_QueryRow, readyQuerier_wait.
  rewrite Hr. unfold bind. by rewrite Hw.
Qed.

Lemma not_ready_not_reached_witness :
  let ctx := mkContext (Some (3%Z, Sentinel DeadlineExceeded)) None in
  let err := Errorf_w "pool not ready: " (Sentinel DeadlineExceeded) in
  WithTx (kv_db false) ctx (λ _, ret None) (kv_world []) = (Ret (Some err), advance_to 3 (kv_world [])).
Proof.
  intros ctx err.
  apply (not_ready_not_reached (kv_db false) ctx (Some 5%Z) 3 (Sentinel DeadlineExceeded) (kv_world [])
    "SELECT" [] (λ _, ret None)).
  - reflexivity.
  - reflexivity.
  - reflexivity.
  - simpl. lia.
Defined.
