(* ===== verification/Database.v ===== *)
(** * databasekit/adapter.go and database.go: the pgx adapters and PostgresDB

    pgx is outside the repository. It is the record [pgx] of operations, with a
    pool and a transaction named by a handle each, and what the code relies on is
    stated as two classes: [PgxLaws], its transactions as they are documented, and
    [PoolLaws], the life of its pools. The adapters turn [PgxLaws] into the
    [TxLaws] of the transaction manager, with lossy failures. *)

From stdpp Require Import base list strings gmap sets.
From Stdlib Require Import ZArith Lia.
From S2P Require Import Prelude Errors Runtime Lifecycle Retry Connect Health TxManager.

(** ** pgx *)

(** [pgxpool.Config]: the two fields the code sets, and the rest as parsed. *)
Record Config : Type := mkConfig { MaxConns : Z; MinConns : Z; parsed : string }.

(** What implements [pgxProvider]: a pool or a transaction. *)
Inductive pgxProvider : Type := src_pool (p : nat) | src_tx (h : nat).

Record pgx (S CommandTag : Type) : Type := mkPgx {
  RowsAffected : CommandTag → Z;
  pgx_Exec : pgxProvider → Context → string → list Value → M S (CommandTag * option error);
  pgx_Query : pgxProvider → Context → string → list Value → M S (Rows S + error);
  pgx_QueryRow : pgxProvider → Context → string → list Value → M S (Row S);
  pgx_Begin : pgxProvider → Context → M S (nat + error);
  pgx_Commit : nat → Context → M S (option error);
  pgx_Rollback : nat → Context → M S (option error);
  ParseConfig : string → Config + error;
  NewWithConfig : Context → Config → M S (nat + error);
  pool_Ping : nat → Context → M S (option error);
  pool_Close : nat → M S unit
}.
Arguments mkPgx {S CommandTag}.
Arguments RowsAffected {S CommandTag}.
Arguments pgx_Exec {S CommandTag}.
Arguments pgx_Query {S CommandTag}.
Arguments pgx_QueryRow {S CommandTag}.
Arguments pgx_Begin {S CommandTag}.
Arguments pgx_Commit {S CommandTag}.
Arguments pgx_Rollback {S CommandTag}.
Arguments ParseConfig {S CommandTag}.
Arguments NewWithConfig {S CommandTag}.
Arguments pool_Ping {S CommandTag}.
Arguments pool_Close {S CommandTag}.

(** ** The adapters *)

Section Adapters.
Context {S CommandTag : Type} (drv : pgx S CommandTag).

Definition pgxRowAdapter (row : Row S) : Row S :=
  mkRow (r <- Row_Scan row ;;
         if Is r.2 pgx_ErrNoRows then ret (r.1, Some (Sentinel ErrNoRows)) else ret r)%go.

Definition pgxRowsAdapter (rows : Rows S) : Rows S :=
  mkRows (Rows_Next rows) (Rows_Scan rows) (Rows_Err rows) (Rows_Close rows).

Definition pgxProviderAdapter_Exec (src : pgxProvider) (ctx : Context) (sql : string)
    (args : list Value) : M S (Z * option error) :=
  (r <- pgx_Exec drv src ctx sql args ;;
   ret (RowsAffected drv r.1, r.2))%go.

Definition pgxProviderAdapter_Query (src : pgxProvider) (ctx : Context) (sql : string)
    (args : list Value) : M S (Rows S + error) :=
  (r <- pgx_Query drv src ctx sql args ;;
   match r with
   | inr e => ret (inr e)
   | inl rows => ret (inl (pgxRowsAdapter rows))
   end)%go.

Definition pgxProviderAdapter_QueryRow (src : pgxProvider) (ctx : Context) (sql : string)
    (args : list Value) : M S (Row S) :=
  (r <- pgx_QueryRow drv src ctx sql args ;; ret (pgxRowAdapter r))%go.

(** [newPgxTxAdapter] wraps the transaction; the handle stays the same. *)
Definition newPgxTxAdapter (tx : nat) : nat := tx.

Definition pgxProviderAdapter_Begin (src : pgxProvider) (ctx : Context) : M S (nat + error) :=
  (r <- pgx_Begin drv src ctx ;;
   match r with
   | inr e => ret (inr e)
   | inl tx => ret (inl (newPgxTxAdapter tx))
   end)%go.

Definition pgxTxAdapter_Commit (tx : nat) (ctx : Context) : M S (option error) :=
  pgx_Commit drv tx ctx.

Definition pgxTxAdapter_Rollback (tx : nat) (ctx : Context) : M S (option error) :=
  (err <- pgx_Rollback drv tx ctx ;;
   if Is err pgx_ErrTxClosed then ret (Some (Sentinel ErrTxClosed)) else ret err)%go.

(** What an adapter wraps, for a provider over the pool [pool]. *)
Definition src_of (pool : nat) (t : target) : pgxProvider :=
  match t with Pool => src_pool pool | InTx h => src_tx h end.

Definition NewPoolProvider (pool : nat) : TxProvider S :=
  mkTxProvider (λ t, pgxProviderAdapter_Exec (src_of pool t))
    (λ t, pgxProviderAdapter_Query (src_of pool t))
    (λ t, pgxProviderAdapter_QueryRow (src_of pool t))
    (λ t, pgxProviderAdapter_Begin (src_of pool t))
    pgxTxAdapter_Commit pgxTxAdapter_Rollback None.
End Adapters.

(** ** PostgresDB *)

(** The fields fixed at construction ([Lifecycle] and [pool] apart). *)
Record PostgresDB : Type := mkPostgresDB {
  db_name : string;
  connStr : string;
  db_logger : bool;
  maxConns : Z;          (* int32 *)
  minConns : Z;          (* int32 *)
  retryAttempts : Z;
  retryBackoff : Z
}.

Definition WithDBName (n : string) (db : PostgresDB) : PostgresDB :=
  mkPostgresDB n (connStr db) (db_logger db) (maxConns db) (minConns db) (retryAttempts db)
    (retryBackoff db).

Definition WithMaxConns (n : Z) (db : PostgresDB) : PostgresDB :=
  if (n >? 0)%Z then
    mkPostgresDB (db_name db) (connStr db) (db_logger db) n (minConns db) (retryAttempts db)
      (retryBackoff db)
  else db.

Definition WithMinConns (n : Z) (db : PostgresDB) : PostgresDB :=
  if (n >? 0)%Z then
    mkPostgresDB (db_name db) (connStr db) (db_logger db) (maxConns db) n (retryAttempts db)
      (retryBackoff db)
  else db.

Definition WithLogger (l : bool) (db : PostgresDB) : PostgresDB :=
  mkPostgresDB (db_name db) (connStr db) l (maxConns db) (minConns db) (retryAttempts db)
    (retryBackoff db).

Definition WithConnectRetry (attempts backoff : Z) (db : PostgresDB) : PostgresDB :=
  if (attempts >? 0)%Z && (backoff >? 0)%Z then
    mkPostgresDB (db_name db) (connStr db) (db_logger db) (maxConns db) (minConns db) attempts
      backoff
  else db.

(** The pool field and the state of pgx: a [Conn], whose [conn] is the pool. *)

Section PostgresDB.
Context {S CommandTag : Type} (drv : pgx S CommandTag).
(** crypto/rand, used for the jitter. *)
Context (rnd : Z → Z → option Z).

Definition buildPoolConfig (db : PostgresDB) : Config + error :=
  match ParseConfig drv (connStr db) with
  | inr e => inr (Errorf_w "failed to parse connection string: " e)
  | inl c =>
      let c1 := if (maxConns db >? 0)%Z then mkConfig (maxConns db) (MinConns c) (parsed c) else c in
      let c2 := if (minConns db >? 0)%Z then mkConfig (MaxConns c1) (minConns db) (parsed c1)
                else c1 in
      inl c2
  end.

(** Without the [Lifecycle], whose [Connect] is [connect] below. *)
Definition NewPostgresDB (cs : string) (options : list (PostgresDB → PostgresDB)) :
    (PostgresDB * Config) + error :=
  if String.eqb cs "" then inr (ErrorString "connection string cannot be empty")
  else
    let db := foldl (λ d o, o d) (mkPostgresDB "postgres-db" cs false 0 0 0 0) options in
    match buildPoolConfig db with
    | inr e => inr e
    | inl c => inl (db, c)
    end.

Definition on_driver_row (r : Row S) : Row (Conn S) := mkRow (on_driver (Row_Scan r)).

Definition on_driver_rows (r : Rows S) : Rows (Conn S) :=
  mkRows (on_driver (Rows_Next r)) (on_driver (Rows_Scan r)) (on_driver (Rows_Err r))
    (on_driver (Rows_Close r)).

(** The function given to [retry.Do]. *)
Definition connect_attempt (config : Config) (ctx : Context) :
    M (Conn S * option nat) (option error) :=
  dial_attempt (NewWithConfig drv ctx config) (λ p, pool_Ping drv p ctx) (pool_Close drv).

(** The stop closure reads the field when it runs. *)
Definition db_stop (ctx : Context) : M (Conn S) (option error) :=
  (s <- mget ;;
   match conn s with
   | None => mpanic nil_panic
   | Some p => _ <- on_driver (pool_Close drv p) ;; ret None
   end)%go.

(** The [Connect] closure of the lifecycle. *)
Definition connect (db : PostgresDB) (config : Config) (ctx : Context) :
    M (Conn S) ((Context → M (Conn S) (option error)) + error) :=
  (let attempts := if (retryAttempts db <=? 0)%Z then 1%Z else retryAttempts db in
   r <- with_local None
          (Do (rand_Int rnd) ctx attempts (retryBackoff db) (connect_attempt config)) ;;
   match r.1 with
   | Some e => ret (inr (Errorf_w "failed to connect to database: " e))
   | None => _ <- mmodify (λ s, mkConn r.2 (driver s)) ;; ret (inl db_stop)
   end)%go.

(** ** Queries *)

Definition err_no_pool : error := ErrorString "database pool is not initialized".

Definition db_exec (ctx : Context) (sql : string) (args : list Value) :
    M (Conn S) (Z * option error) :=
  (s <- mget ;;
   match conn s with
   | None => ret (0%Z, Some err_no_pool)
   | Some p =>
       r <- on_driver (pgx_Exec drv (src_pool p) ctx sql args) ;;
       ret (RowsAffected drv r.1, r.2)
   end)%go.

Definition db_query (ctx : Context) (sql : string) (args : list Value) :
    M (Conn S) (Rows (Conn S) + error) :=
  (s <- mget ;;
   match conn s with
   | None => ret (inr err_no_pool)
   | Some p =>
       r <- on_driver (pgx_Query drv (src_pool p) ctx sql args) ;;
       match r with
       | inr e => ret (inr e)
       | inl rows => ret (inl (on_driver_rows (pgxRowsAdapter rows)))
       end
   end)%go.

Definition db_queryRow (ctx : Context) (sql : string) (args : list Value) :
    M (Conn S) (Row (Conn S)) :=
  (s <- mget ;;
   match conn s with
   | None => ret (errRow err_no_pool)
   | Some p =>
       r <- on_driver (pgx_QueryRow drv (src_pool p) ctx sql args) ;;
       ret (on_driver_row (pgxRowAdapter r))
   end)%go.

Definition db_begin (ctx : Context) : M (Conn S) (nat + error) :=
  (s <- mget ;;
   match conn s with
   | None => ret (inr err_no_pool)
   | Some p =>
       r <- on_driver (pgx_Begin drv (src_pool p) ctx) ;;
       match r with
       | inr e => ret (inr e)
       | inl tx => ret (inl (newPgxTxAdapter tx))
       end
   end)%go.

(** [TxProvider()]: the pool's methods are those of [db]; a transaction's are
    those of [pgxTxAdapter]. [ready] is the channel of the lifecycle. *)
Definition txProviderAdapter (ready : Signal) : TxProvider (Conn S) :=
  mkTxProvider
    (λ t ctx sql args, match t with
       | Pool => db_exec ctx sql args
       | InTx h => on_driver (pgxProviderAdapter_Exec drv (src_tx h) ctx sql args)
       end)
    (λ t ctx sql args, match t with
       | Pool => db_query ctx sql args
       | InTx h =>
           (r <- on_driver (pgxProviderAdapter_Query drv (src_tx h) ctx sql args) ;;
            match r with
            | inr e => ret (inr e)
            | inl rows => ret (inl (on_driver_rows rows))
            end)%go
       end)
    (λ t ctx sql args, match t with
       | Pool => db_queryRow ctx sql args
       | InTx h =>
           (r <- on_driver (pgxProviderAdapter_QueryRow drv (src_tx h) ctx sql args) ;;
            ret (on_driver_row r))%go
       end)
    (λ t ctx, match t with
       | Pool => db_begin ctx
       | InTx h => on_driver (pgxProviderAdapter_Begin drv (src_tx h) ctx)
       end)
    (λ h ctx, on_driver (pgxTxAdapter_Commit drv h ctx))
    (λ h ctx, on_driver (pgxTxAdapter_Rollback drv h ctx))
    (Some ready).
End PostgresDB.

(** [HealthChecks()]: the readiness check reads the pool field when it runs and
    pings the pool. *)
Definition PostgresDB_HealthChecks (db : PostgresDB) (pool_at : Z → option nat)
    (ping : nat → Context → Z → Result (Z * option error)) : list Check :=
  StandardChecks (db_name db) (λ ctx t,
    match pool_at t with
    | None => Ret (t, Some (ErrorString "db is not initialized"))
    | Some p => ping p ctx t
    end).

(** ** What the code relies on

    The transactions of pgx, after the documentation of pgx.Tx: Commit "commits the
    transaction if this is a real transaction or releases the savepoint if this is a
    pseudo nested transaction"; Rollback "rolls back the transaction if this is a
    real transaction or rolls back to the savepoint if this is a pseudo nested
    transaction"; both report ErrTxClosed when the transaction is already closed,
    and "any other failure of a real transaction will result in the connection being
    closed", upon which the server drops the transaction.

    Nothing is promised of a failed Commit: the server may have committed and only
    the answer been lost. Nor of a failed Rollback to a savepoint: the connection
    stays open and the changes may stay in the enclosing transaction. [sem] is the
    meaning of a statement. *)
Class PgxLaws {S CommandTag D : Type} (drv : pgx S CommandTag) (pl : nat) (abs : S → Abs D)
    (sem : string → list Value → D → CommandTag * option error → D → Prop) : Prop := {
  pgx_law_exec ctx sql args w :
    ∃ r w' d', pgx_Exec drv (src_of pl (top (abs (heap w)))) ctx sql args w = (Ret r, w') ∧
      sem sql args (cur (abs (heap w))) r d' ∧ abs (heap w') = set_cur d' (abs (heap w));
  pgx_law_begin ctx w :
    ∃ r w', pgx_Begin drv (src_of pl (top (abs (heap w)))) ctx w = (Ret r, w') ∧
      match r with
      | inl h => h ∉ handles (abs (heap w)) ∧ abs (heap w') = push h (abs (heap w))
      | inr _ => abs (heap w') = abs (heap w)
      end;
  pgx_law_commit ctx w h :
    top (abs (heap w)) = InTx h →
    ∃ r w', pgx_Commit drv h ctx w = (Ret r, w') ∧
      match r with
      | None => abs (heap w') = merge (abs (heap w))
      | Some _ => abs (heap w') = pop (abs (heap w)) ∨ abs (heap w') = abs (heap w) ∨
          abs (heap w') = merge (abs (heap w))
      end;
  pgx_law_rollback ctx w h :
    top (abs (heap w)) = InTx h →
    ∃ r w', pgx_Rollback drv h ctx w = (Ret r, w') ∧
      (abs (heap w') = pop (abs (heap w)) ∨
       (inside (pop (abs (heap w))) = true ∧ abs (heap w') = merge (abs (heap w)) ∧
        ∃ e, r = Some e ∧ says_closed e = false));
  pgx_law_rollback_closed ctx w h :
    h ∉ handles (abs (heap w)) →
    ∃ r w', pgx_Rollback drv h ctx w = (Ret r, w') ∧ abs (heap w') = abs (heap w) ∧
      match r with Some e => errors_Is e pgx_ErrTxClosed = true | None => True end
}.

(** The pools of pgx: creating, pinging and closing them keeps [DialLaws]. *)
Class PoolLaws {S CommandTag : Type} (drv : pgx S CommandTag) (pools : S → gset nat) : Prop :=
  pool_laws ctx c ::
    DialLaws (NewWithConfig drv ctx c) (λ p, pool_Ping drv p ctx) (pool_Close drv) pools.

(** ** The adapters keep the laws of the transaction manager *)

(** The meaning of a statement as the framework reports it: the number of rows
    instead of the tag. *)
Definition rows_sem {S CommandTag D} (drv : pgx S CommandTag)
    (sem : string → list Value → D → CommandTag * option error → D → Prop)
    (sql : string) (args : list Value) (d : D) (r : Z * option error) (d' : D) : Prop :=
  ∃ tag, r.1 = RowsAffected drv tag ∧ sem sql args d (tag, r.2) d'.

(** ... or the refusal of a database without a pool. *)
Definition guarded_sem {D} (sem : string → list Value → D → Z * option error → D → Prop)
    (sql : string) (args : list Value) (d : D) (r : Z * option error) (d' : D) : Prop :=
  sem sql args d r d' ∨ (r = (0%Z, Some err_no_pool) ∧ d' = d).

Section AdapterLaws.
Context {S CommandTag D : Type} (drv : pgx S CommandTag) (abs : S → Abs D)
  (sem : string → list Value → D → CommandTag * option error → D → Prop).

Lemma adapter_rollback_closed pl `{!PgxLaws drv pl abs sem} ctx w h :
  h ∉ handles (abs (heap w)) →
  ∃ r w', pgxTxAdapter_Rollback drv h ctx w = (Ret r, w') ∧ abs (heap w') = abs (heap w) ∧
    match r with Some e => errors_Is e ErrTxClosed = true | None => True end.
Proof.
  intros Hh. unfold pgxTxAdapter_Rollback.
  destruct (pgx_law_rollback_closed (drv := drv) (pl := pl) ctx w h Hh) as (r & w' & Hr & Ha & He).
  run Hr.
  destruct r as [e|]; simpl; [rewrite He|]; by eexists _, w'.
Qed.

Lemma adapter_rollback pl `{!PgxLaws drv pl abs sem} ctx w h :
  top (abs (heap w)) = InTx h →
  ∃ r w', pgxTxAdapter_Rollback drv h ctx w = (Ret r, w') ∧
    (abs (heap w') = pop (abs (heap w)) ∨
     (true = true ∧ inside (pop (abs (heap w))) = true ∧ abs (heap w') = merge (abs (heap w)) ∧
      ∃ e, r = Some e ∧ errors_Is e ErrTxClosed = false)).
Proof.
  intros Ht. unfold pgxTxAdapter_Rollback.
  destruct (pgx_law_rollback (drv := drv) (pl := pl) ctx w h Ht) as (r & w' & Hr & Ha).
  run Hr. destruct Ha as [Ha|(Hin & Ha & e & -> & He)].
  - destruct (Is r pgx_ErrTxClosed); eexists _, w'; eauto.
  - apply orb_false_iff in He as [He1 He2]. simpl. rewrite He2. eexists _, w'. split; [reflexivity|]. right.
    split_and!; [done..|]. by exists e.
Qed.

Lemma adapter_commit pl `{!PgxLaws drv pl abs sem} ctx w h :
  top (abs (heap w)) = InTx h →
  ∃ r w', pgxTxAdapter_Commit drv h ctx w = (Ret r, w') ∧
    match r with
    | None => abs (heap w') = merge (abs (heap w))
    | Some _ => abs (heap w') = pop (abs (heap w)) ∨ abs (heap w') = abs (heap w) ∨
        (true = true ∧ abs (heap w') = merge (abs (heap w)))
    end.
Proof.
  intros Ht. destruct (pgx_law_commit (drv := drv) (pl := pl) ctx w h Ht) as (r & w' & Hr & Ha).
  exists r, w'. split; [done|]. destruct r; [|done]. destruct Ha as [?|[?|?]]; auto.
Qed.

Lemma adapter_exec pl `{!PgxLaws drv pl abs sem} ctx sql args w :
  ∃ r w' d', pgxProviderAdapter_Exec drv (src_of pl (top (abs (heap w)))) ctx sql args w = (Ret r, w') ∧
    rows_sem drv sem sql args (cur (abs (heap w))) r d' ∧ abs (heap w') = set_cur d' (abs (heap w)).
Proof.
  unfold pgxProviderAdapter_Exec.
  destruct (pgx_law_exec (drv := drv) (pl := pl) ctx sql args w) as ([tag e] & w' & d' & Hr & Hs & Ha).
  run Hr. eexists _, w', d'. split; [reflexivity|].
  split; [by exists tag|done].
Qed.

Lemma adapter_begin pl `{!PgxLaws drv pl abs sem} ctx w :
  ∃ r w', pgxProviderAdapter_Begin drv (src_of pl (top (abs (heap w)))) ctx w = (Ret r, w') ∧
    match r with
    | inl h => h ∉ handles (abs (heap w)) ∧ abs (heap w') = push h (abs (heap w))
    | inr _ => abs (heap w') = abs (heap w)
    end.
Proof.
  unfold pgxProviderAdapter_Begin.
  destruct (pgx_law_begin (drv := drv) (pl := pl) ctx w) as (r & w' & Hr & Ha).
  run Hr. destruct r; by eexists _, w'.
Qed.

#[global] Instance NewPoolProvider_laws pl `{!PgxLaws drv pl abs sem} :
  TxLaws true (NewPoolProvider drv pl) abs (rows_sem drv sem).
Proof.
  split; simpl.
  - apply (adapter_exec pl).
  - apply (adapter_begin pl).
  - apply (adapter_commit pl).
  - apply (adapter_rollback pl).
  - apply (adapter_rollback_closed pl).
Qed.

Lemma db_exec_adapter p ctx sql args (w : World (Conn S)) :
  conn (heap w) = Some p →
  db_exec drv ctx sql args w = on_driver (pgxProviderAdapter_Exec drv (src_pool p) ctx sql args) w.
Proof.
  intros Hp. unfold db_exec, on_driver, pgxProviderAdapter_Exec, zoom, bind, mget. rewrite Hp.
  destruct (pgx_Exec drv _ _ _ _ _) as [[] ?]; simpl; by rewrite Hp.
Qed.

Lemma db_begin_adapter p ctx (w : World (Conn S)) :
  conn (heap w) = Some p →
  db_begin drv ctx w = on_driver (pgxProviderAdapter_Begin drv (src_pool p) ctx) w.
Proof.
  intros Hp. unfold db_begin, on_driver, pgxProviderAdapter_Begin, zoom, bind, mget. rewrite Hp.
  destruct (pgx_Begin drv _ _ _) as [[[]| |] ?]; simpl; by rewrite Hp.
Qed.

#[global] Instance txProviderAdapter_laws rd `{!∀ pl, PgxLaws drv pl abs sem} :
  TxLaws true (txProviderAdapter drv rd) (λ s, abs (driver s)) (guarded_sem (rows_sem drv sem)).
Proof.
  split; simpl.
  - intros ctx sql args w.
    set (w0 := mkWorld (clock w) (coins w) (driver (heap w))).
    destruct (top (abs (driver (heap w)))) as [|h] eqn:Ht; [destruct (conn (heap w)) as [p|] eqn:Hp|].
    + destruct (adapter_exec p ctx sql args w0) as (r & w' & d' & Hr & Hs & Ha).
      simpl in Hr. rewrite Ht in Hr. cbn [src_of] in Hr.
      rewrite (db_exec_adapter p ctx sql args w Hp), (on_driver_Ret _ _ _ _ Hr).
      eexists _, _, d'. split; [reflexivity|]. split; [by left|done].
    + unfold db_exec, bind, mget. rewrite Hp. eexists _, w, _. split; [reflexivity|].
      split; [by right|]. by rewrite set_cur_cur.
    + destruct (adapter_exec 0 ctx sql args w0) as (r & w' & d' & Hr & Hs & Ha).
      simpl in Hr. rewrite Ht in Hr. cbn [src_of] in Hr. rewrite (on_driver_Ret _ _ _ _ Hr).
      eexists _, _, d'. split; [reflexivity|]. split; [by left|done].
  - intros ctx w. set (w0 := mkWorld (clock w) (coins w) (driver (heap w))).
    destruct (top (abs (driver (heap w)))) as [|h] eqn:Ht; [destruct (conn (heap w)) as [p|] eqn:Hp|].
    + destruct (adapter_begin p ctx w0) as (r & w' & Hr & Ha). simpl in Hr. rewrite Ht in Hr. cbn [src_of] in Hr.
      rewrite (db_begin_adapter p ctx w Hp), (on_driver_Ret _ _ _ _ Hr). by eexists _, _.
    + unfold db_begin, bind, mget. rewrite Hp. by eexists _, w.
    + destruct (adapter_begin 0 ctx w0) as (r & w' & Hr & Ha). simpl in Hr. rewrite Ht in Hr. cbn [src_of] in Hr.
      rewrite (on_driver_Ret _ _ _ _ Hr). by eexists _, _.
  - intros ctx w h Ht. set (w0 := mkWorld (clock w) (coins w) (driver (heap w))).
    destruct (adapter_commit 0 ctx w0 h Ht) as (r & w' & Hr & Ha).
    rewrite (on_driver_Ret _ _ _ _ Hr). by eexists _, _.
  - intros ctx w h Ht. set (w0 := mkWorld (clock w) (coins w) (driver (heap w))).
    destruct (adapter_rollback 0 ctx w0 h Ht) as (r & w' & Hr & Ha).
    rewrite (on_driver_Ret _ _ _ _ Hr). by eexists _, _.
  - intros ctx w h Hh. set (w0 := mkWorld (clock w) (coins w) (driver (heap w))).
    destruct (adapter_rollback_closed 0 ctx w0 h Hh) as (r & w' & Hr & Ha).
    rewrite (on_driver_Ret _ _ _ _ Hr). by eexists _, _.
Qed.
End AdapterLaws.

(** ** A sample driver

    The savepoint stack as a PostgreSQL server behind pgx, with the outcomes of
    future pings. *)
Record PgState : Type := mkPgState {
  server : StackDB (gmap string Z); open_pools : gset nat; pings : list (option error) }.

Definition on_server {A} (m : M (StackDB (gmap string Z)) A) : M PgState A :=
  zoom server (λ s t, mkPgState s (open_pools t) (pings t)) m.

Definition of_src (src : pgxProvider) : target :=
  match src with src_pool _ => Pool | src_tx h => InTx h end.

(** pgx's own error for a closed transaction. *)
Definition pgx_closed (e : option error) : option error :=
  if Is e ErrTxClosed then Some (Sentinel pgx_ErrTxClosed) else e.

Definition new_pool (s : PgState) : nat := S (list_max (elements (open_pools s))).

Definition sample_pgx : pgx PgState Z :=
  mkPgx id
    (λ src ctx sql args, on_server (sdb_Exec kv_exec (of_src src) ctx sql args))
    (λ _ _ _ _, ret (inr (ErrorString "unsupported")))
    (λ _ _ _ _, ret (mkRow (ret ([], Some (Sentinel pgx_ErrNoRows)))))
    (λ src ctx, on_server (sdb_Begin (of_src src) ctx))
    (λ h ctx, on_server (sdb_Commit true h ctx))
    (λ h ctx, (r <- on_server (sdb_Rollback true h ctx) ;; ret (pgx_closed r))%go)
    (λ s, inl (mkConfig 4 0 s))
    (λ _ _ w, (Ret (inl (new_pool (heap w))),
       mkWorld (clock w) (coins w)
         (mkPgState (server (heap w)) ({[new_pool (heap w)]} ∪ open_pools (heap w)) (pings (heap w)))))
    (λ _ _ w, (Ret (default None (head (pings (heap w)))),
       mkWorld (clock w) (coins w)
         (mkPgState (server (heap w)) (open_pools (heap w)) (tail (pings (heap w))))))
    (λ p w, (Ret tt, mkWorld (clock w) (coins w)
         (mkPgState (server (heap w)) (open_pools (heap w) ∖ {[p]}) (pings (heap w))))).

#[global] Instance sample_pool_laws : PoolLaws sample_pgx open_pools.
Proof.
  intros ctx c. split.
  - intros w. eexists _, _. split; [reflexivity|]. split; [|done].
    rewrite <-elem_of_elements. intros Hin%list_elem_of_In. unfold new_pool in Hin.
    apply list_max_ge in Hin. lia.
  - intros p w. by eexists _, _.
  - intros p w. by eexists.
Qed.

Definition pg_abs (s : PgState) : Abs (gmap string Z) := sdb (server s).

Lemma on_server_Ret {A} (m : M (StackDB (gmap string Z)) A) (w : World PgState) r w1 :
  m (mkWorld (clock w) (coins w) (server (heap w))) = (Ret r, w1) →
  on_server m w = (Ret r, mkWorld (clock w1) (coins w1)
                     (mkPgState (heap w1) (open_pools (heap w)) (pings (heap w)))).
Proof. unfold on_server, zoom. by intros ->. Qed.

Lemma of_src_of pl t : of_src (src_of pl t) = t.
Proof. by destruct t. Qed.

#[global] Instance sample_pgx_laws pl : PgxLaws sample_pgx pl pg_abs (stack_sem kv_exec).
Proof.
  pose proof (stackdb_laws true kv_exec None) as [H1 H2 H3 H4 H5]. split.
  - intros ctx sql args w. destruct (H1 ctx sql args (mkWorld (clock w) (coins w) (server (heap w))))
      as (r & w' & d' & Hr & Hs & Ha).
    eexists r, _, d'. simpl in *. rewrite of_src_of. split; [by apply on_server_Ret|done].
  - intros ctx w. destruct (H2 ctx (mkWorld (clock w) (coins w) (server (heap w))))
      as (r & w' & Hr & Ha).
    eexists r, _. simpl in *. rewrite of_src_of. split; [by apply on_server_Ret|done].
  - intros ctx w h Ht. destruct (H3 ctx (mkWorld (clock w) (coins w) (server (heap w))) h Ht)
      as (r & w' & Hr & Ha).
    eexists r, _. split; [by apply on_server_Ret|]. destruct r; [|done]. destruct Ha as [?|[?|[_ ?]]]; auto.
  - intros ctx w h Ht.
    destruct (sdb_Rollback_open true ctx (mkWorld (clock w) (coins w) (server (heap w))) h Ht) as (r & w' & Hr & Ha).
    eexists _, _. simpl. run (on_server_Ret _ _ _ _ Hr). split; [reflexivity|].
    destruct Ha as [?|(_ & ? & ? & e & -> & He)]; [by left|]. right. unfold pgx_closed. simpl.
    assert (errors_Is e ErrTxClosed = false) as -> by (by apply orb_false_iff in He as [? _]).
    split_and!; [done..|]. by exists e.
  - intros ctx w h Hh. destruct (H5 ctx (mkWorld (clock w) (coins w) (server (heap w))) h Hh)
      as (r & w' & Hr & Ha & He).
    eexists _, _. simpl. run (on_server_Ret _ _ _ _ Hr).
    split; [reflexivity|]. split; [done|]. unfold pgx_closed.
    destruct r as [e|]; simpl; [by rewrite He|done].
Qed.

Definition sample_pg_world (ps : list (option error)) : World (Conn PgState) :=
  mkWorld 0 [] (mkConn None (mkPgState (mkStackDB (mkAbs ∅ []) []) ∅ ps)).

Definition sample_db : PostgresDB :=
  WithConnectRetry 3 Second (mkPostgresDB "postgres-db" "postgres://" false 0 0 0 0).

(** ** Theorems *)

(** C14. Transactions over PostgresDB. If pgx keeps its documented contract, and the
    database is or becomes ready or the context ends, then for every program of
    statements and nested [WithTx] blocks over the provider of a [PostgresDB],
    connected or not, the run ends with the result and the data of the program with
    all-or-nothing blocks, where a block whose commit fails, and a nested block whose
    rollback fails, may have been carried out all the same; statements may
    additionally be refused because there is no pool, without effect. *)
Theorem postgres_transactions_atomic {S CommandTag D} (drv : pgx S CommandTag) (abs : S → Abs D) sem rd c ctx w :
  (∀ pl, PgxLaws drv pl abs sem) →
  rd ≠ None ∨ ctx_done ctx ≠ None →
  ctx_target ctx = top (abs (driver (heap w))) →
  ∃ res w' d', run_prog (txProviderAdapter drv rd) c ctx w = (res, w') ∧ res ≠ Block ∧
    atomic true (guarded_sem (rows_sem drv sem)) (in_tx ctx) c (cur (abs (driver (heap w)))) res d' ∧
    abs (driver (heap w')) = set_cur d' (abs (driver (heap w))).
Proof.
  intros L Hg Ht.
  apply (run_prog_refines (txProviderAdapter drv rd) (λ s, abs (driver s)) _ c ctx w); [|done].
  unfold gate_ok. simpl. destruct rd; [done|]. by destruct Hg.
Qed.

Lemma postgres_transactions_atomic_witness :
  ∃ res w' d', run_prog (txProviderAdapter sample_pgx (Some 0%Z)) sample_prog Background
                 (sample_pg_world []) = (res, w') ∧ res ≠ Block ∧
    atomic true (guarded_sem (rows_sem sample_pgx (stack_sem kv_exec))) false sample_prog ∅ res d' ∧
    pg_abs (driver (heap w')) = set_cur d' (mkAbs ∅ []).
Proof.
  apply (postgres_transactions_atomic sample_pgx pg_abs (stack_sem kv_exec) (Some 0%Z) sample_prog
    Background (sample_pg_world [])).
  - intros pl. apply sample_pgx_laws.
  - left. discriminate.
  - reflexivity.
Defined.

(** C34. Connecting leaks no pool. [Connect] of a [PostgresDB] always returns. If it
    fails, every pool it opened on the way has been closed again and the pool field
    is untouched; if it succeeds, exactly one more pool is open, it is the one in
    the pool field, and running the stop closure it returned closes it. *)
Theorem connect_leaks_no_pool {S CommandTag} (drv : pgx S CommandTag) (pools : S → gset nat) rnd db config ctx w :
  PoolLaws drv pools →
  ∃ r w', connect drv rnd db config ctx w = (Ret r, w') ∧
    match r with
    | inr _ => pools (driver (heap w')) = pools (driver (heap w)) ∧ conn (heap w') = conn (heap w)
    | inl stop =>
        ∃ p, conn (heap w') = Some p ∧ p ∉ pools (driver (heap w)) ∧
          pools (driver (heap w')) = {[p]} ∪ pools (driver (heap w)) ∧
          ∀ shCtx, ∃ w2, stop shCtx w' = (Ret None, w2) ∧
            pools (driver (heap w2)) = pools (driver (heap w))
    end.
Proof.
  intros PL. unfold connect.
  set (n := if (retryAttempts db <=? 0)%Z then 1%Z else retryAttempts db).
  destruct (dial_retry_spec rnd (λ ctx, NewWithConfig drv ctx config) (λ ctx p, pool_Ping drv p ctx)
    (pool_Close drv) pools ctx n (retryBackoff db) w) as ([r v] & w1 & Hrun & Hr).
  run Hrun. simpl in *. destruct r as [e|]; [by eexists _, w1|].
  destruct Hr as (p & Hv & Hp & Hpools & Ho). simpl in Hv. subst v. eexists _, _. split; [reflexivity|].
  exists p. split_and!; simpl in *; try done. intros shCtx.
  unfold db_stop, bind, mget. simpl.
  destruct (dial_close (DialLaws := PL ctx config) p (mkWorld (clock w1) (coins w1) (driver (heap w1))))
    as (w2 & Hc & Hpc).
  erewrite on_driver_Ret by exact Hc. eexists. split; [reflexivity|]. simpl in *.
  rewrite Hpc, Hpools. set_solver.
Qed.

(** The first ping fails, the second one succeeds. *)
Lemma connect_leaks_no_pool_witness :
  let w := sample_pg_world [Some (ErrorString "refused"); None] in
  ∃ r w', connect sample_pgx (λ _ _, None) sample_db (mkConfig 4 0 "") Background w = (Ret r, w') ∧
    match r with
    | inr _ => open_pools (driver (heap w')) = open_pools (driver (heap w)) ∧
               conn (heap w') = conn (heap w)
    | inl stop =>
        ∃ p, conn (heap w') = Some p ∧ p ∉ open_pools (driver (heap w)) ∧
          open_pools (driver (heap w')) = {[p]} ∪ open_pools (driver (heap w)) ∧
          ∀ shCtx, ∃ w2, stop shCtx w' = (Ret None, w2) ∧
            open_pools (driver (heap w2)) = open_pools (driver (heap w))
    end.
Proof.
  intros w. apply (connect_leaks_no_pool sample_pgx open_pools (λ _ _, None) sample_db
    (mkConfig 4 0 "") Background w). apply sample_pool_laws.
Defined.

Example connect_second_attempt :
  let '(r, w') := connect sample_pgx (λ _ _, None) sample_db (mkConfig 4 0 "") Background
                    (sample_pg_world [Some (ErrorString "refused"); None]) in
  match r with Ret (inl _) => true | _ => false end = true ∧ clock w' = Second ∧ conn (heap w') = Some 1.
Proof. vm_compute. auto. Qed.

(** The options of the package, as data. *)
Inductive postgres_option : Type :=
| O_DBName (n : string) | O_MaxConns (n : Z) | O_MinConns (n : Z) | O_Logger (l : bool)
| O_ConnectRetry (a b : Z).

Definition apply_option (o : postgres_option) : PostgresDB → PostgresDB :=
  match o with
  | O_DBName n => WithDBName n
  | O_MaxConns n => WithMaxConns n
  | O_MinConns n => WithMinConns n
  | O_Logger l => WithLogger l
  | O_ConnectRetry a b => WithConnectRetry a b
  end.

Definition max_of (o : postgres_option) : option Z :=
  match o with O_MaxConns n => Some n | _ => None end.
Definition min_of (o : postgres_option) : option Z :=
  match o with O_MinConns n => Some n | _ => None end.

Lemma apply_options_sizes db opts :
  let db' := foldl (λ d o, o d) db (map apply_option opts) in
  connStr db' = connStr db ∧
  maxConns db' = last_positive (maxConns db) (omap max_of opts) ∧
  minConns db' = last_positive (minConns db) (omap min_of opts).
Proof.
  unfold last_positive. revert db. induction opts as [|o opts IH]; intros db; simpl; [done|].
  specialize (IH (apply_option o db)). simpl in IH. destruct IH as (-> & -> & ->).
  destruct o; simpl; unfold WithMaxConns, WithMinConns, WithConnectRetry;
    try destruct (_ >? _)%Z; try destruct (_ >? _)%Z; simpl; auto.
Qed.

(** Pool sizing. [NewPostgresDB] with any options fails exactly on an empty
    connection string or one that pgx cannot parse, with the cause in the error;
    otherwise the pool configuration is the parsed one, with each size replaced by
    the last positive value an option gave for it, if any. *)
Theorem NewPostgresDB_config {S CommandTag} (drv : pgx S CommandTag) cs opts :
  NewPostgresDB drv cs (map apply_option opts) =
  if String.eqb cs "" then inr (ErrorString "connection string cannot be empty")
  else match ParseConfig drv cs with
       | inr e => inr (Errorf_w "failed to parse connection string: " e)
       | inl c => inl (foldl (λ d o, o d) (mkPostgresDB "postgres-db" cs false 0 0 0 0)
                         (map apply_option opts),
                       mkConfig (last_positive (MaxConns c) (omap max_of opts))
                         (last_positive (MinConns c) (omap min_of opts)) (parsed c))
       end.
Proof.
  unfold NewPostgresDB, buildPoolConfig. destruct (String.eqb cs ""); [done|].
  destruct (apply_options_sizes (mkPostgresDB "postgres-db" cs false 0 0 0 0) opts)
    as (Hc & Hmax & Hmin).
  cbv zeta. rewrite Hc, Hmax, Hmin. simpl. destruct (ParseConfig drv cs) as [c|e]; [|done].
  rewrite (last_positive_default (MaxConns c)), (last_positive_default (MinConns c)).
  destruct c. simpl. by destruct (_ >? 0)%Z, (_ >? 0)%Z.
Qed.

(** A single-row query of a provider and its [Scan]. *)
Definition query_row {S} (p : TxProvider S) (t : target) (ctx : Context) (sql : string)
    (args : list Value) : M S (list Value * option error) :=
  (r <- QueryRow p t ctx sql args ;; Row_Scan r)%go.

(** Errors of single-row queries. Whatever pgx's row reports at [Scan], the
    framework row reports: [ErrNoRows] when it is (or wraps) pgx's no-rows error,
    and otherwise the same error and columns; this holds on a connected pool, in a
    transaction, and for a provider over a bare pool. Without a pool the query
    fails at [Scan], not at the call. *)
Theorem query_row_errors {S CommandTag} (drv : pgx S CommandTag) rd pl t ctx sql args s c k vs e w' :
  (r <- pgx_QueryRow drv (src_of pl t) ctx sql args ;; Row_Scan r)%go (mkWorld c k s) = (Ret (vs, e), w') →
  let e' := if Is e pgx_ErrNoRows then Some (Sentinel ErrNoRows) else e in
  query_row (NewPoolProvider drv pl) t ctx sql args (mkWorld c k s) = (Ret (vs, e'), w') ∧
  query_row (txProviderAdapter drv rd) t ctx sql args (mkWorld c k (mkConn (Some pl) s)) =
    (Ret (vs, e'), mkWorld (clock w') (coins w') (mkConn (Some pl) (heap w'))) ∧
  query_row (txProviderAdapter drv rd) Pool ctx sql args (mkWorld c k (mkConn None s)) =
    (Ret ([], Some err_no_pool), mkWorld c k (mkConn None s)).
Proof.
  intros (row & [c1 k1 s1] & Hq & Hs)%bind_Ret_inv e'.
  assert (Row_Scan (pgxRowAdapter row) (mkWorld c1 k1 s1) = (Ret (vs, e'), w')) as Ha.
  { simpl. unfold bind. rewrite Hs. simpl. unfold e'. by destruct (Is e pgx_ErrNoRows). }
  assert (pgxProviderAdapter_QueryRow drv (src_of pl t) ctx sql args (mkWorld c k s) =
          (Ret (pgxRowAdapter row), mkWorld c1 k1 s1)) as Hr.
  { unfold pgxProviderAdapter_QueryRow, bind. by rewrite Hq. }
  split; [|split].
  - unfold query_row. simpl. by run Hr.
  - assert (QueryRow (txProviderAdapter drv rd) t ctx sql args (mkWorld c k (mkConn (Some pl) s))
      = (Ret (on_driver_row (pgxRowAdapter row)), mkWorld c1 k1 (mkConn (Some pl) s1))) as Hd.
    { destruct t; simpl in *.
      - unfold db_queryRow, bind, mget. simpl. erewrite on_driver_Ret by exact Hq. done.
      - erewrite bind_Ret; [|erewrite on_driver_Ret by exact Hr; reflexivity]. done. }
    unfold query_row. run Hd. cbn [on_driver_row Row_Scan].
    erewrite on_driver_Ret by exact Ha. done.
  - done.
Qed.

Lemma query_row_errors_witness :
  query_row (NewPoolProvider sample_pgx 1) Pool Background "SELECT" []
    (mkWorld 0 [] (driver (heap (sample_pg_world [])))) =
  (Ret ([], Some (Sentinel ErrNoRows)), mkWorld 0 [] (driver (heap (sample_pg_world [])))).
Proof.
  apply (query_row_errors sample_pgx None 1 Pool Background "SELECT" []
    (driver (heap (sample_pg_world []))) 0 [] [] (Some (Sentinel pgx_ErrNoRows))).
  reflexivity.
Defined.
