(* ===== verification/Cache.v ===== *)
(** * cachekit: the cache interface, RedisCache and the in-memory cache

    cachekit/cache.go, cachekit/generics.go and cachekit/memcache/memcache.go.
    A Go value of any type is an element of [V]; a destination pointer is the
    value it points to, passed in and handed back. go-redis is the record [redis]
    of operations of its client; the codec [DefaultCodec] is an argument, which
    JsonStruct instantiates with [JSONCodec].

    [CacheLaws] states what a cache promises its clients: it may lose entries,
    never invent or resurrect them. Both implementations discharge it, and the
    clients' theorems are proved from it. *)

From stdpp Require Import base list strings gmap sets.
From Stdlib Require Import ZArith Lia Ascii.
From S2P Require Import Prelude Errors Runtime Retry Connect Health.

(** ** Interfaces *)

Record Codec (V : Type) : Type := mkCodec {
  Marshal : V → string + error;
  Unmarshal : string → V → V * option error
}.
Arguments mkCodec {V}.
Arguments Marshal {V}.
Arguments Unmarshal {V}.

Record Cache (S V : Type) : Type := mkCache {
  Cache_Get : Context → string → V → M S (V * option error);
  Cache_Set : Context → string → V → Z → M S (option error);
  Cache_Delete : Context → string → M S (option error);
  Cache_Exists : Context → string → M S (bool * option error)
}.
Arguments mkCache {S V}.
Arguments Cache_Get {S V}.
Arguments Cache_Set {S V}.
Arguments Cache_Delete {S V}.
Arguments Cache_Exists {S V}.

(** The typed helpers of generics.go; [zero] is the zero value of the type. *)
Definition Get {S V} (ctx : Context) (c : Cache S V) (key : string) (zero : V) :
    M S (V * option error) :=
  Cache_Get c ctx key zero.

Definition Set_ {S V} (ctx : Context) (c : Cache S V) (key : string) (value : V) (ttl : Z) :
    M S (option error) :=
  Cache_Set c ctx key value ttl.

(** The error of a miss, [fmt.Errorf("%s: %w", key, ErrCacheMiss)]. *)
Definition miss_error (key : string) : error :=
  Errorf_w (key +:+ ": ") (Sentinel ErrCacheMiss).

(** ** RedisCache *)

Record RedisOptions : Type := mkRedisOptions {
  Addr : string; Username : string; Password : string; DB : Z }.

(** The fields fixed at construction ([Lifecycle] and [client] apart). *)
Record RedisCache (V : Type) : Type := mkRedisCache {
  r_options : RedisOptions;
  r_codec : option (Codec V);
  r_name : string;
  r_logger : bool;
  r_retryAttempts : Z;
  r_retryBackoff : Z
}.
Arguments mkRedisCache {V}.
Arguments r_options {V}.
Arguments r_codec {V}.
Arguments r_name {V}.
Arguments r_logger {V}.
Arguments r_retryAttempts {V}.
Arguments r_retryBackoff {V}.

(** The client of go-redis: clients are handles. *)
Record redis (S : Type) : Type := mkRedis {
  NewClient : RedisOptions → M S nat;
  client_Ping : nat → Context → M S (option error);
  client_Close : nat → M S (option error);
  client_Set : nat → Context → string → string → Z → M S (option error);
  client_Get : nat → Context → string → M S (string + error);
  client_Del : nat → Context → string → M S (option error);
  client_Exists : nat → Context → string → M S (Z * option error)
}.
Arguments mkRedis {S}.
Arguments NewClient {S}.
Arguments client_Ping {S}.
Arguments client_Close {S}.
Arguments client_Set {S}.
Arguments client_Get {S}.
Arguments client_Del {S}.
Arguments client_Exists {S}.

Section RedisOptions.
Context {V : Type}.
Notation R := (RedisCache V).

Definition set_options (f : RedisOptions → RedisOptions) (r : R) : R :=
  mkRedisCache (f (r_options r)) (r_codec r) (r_name r) (r_logger r) (r_retryAttempts r)
    (r_retryBackoff r).

Definition WithName (n : string) (r : R) : R :=
  mkRedisCache (r_options r) (r_codec r) n (r_logger r) (r_retryAttempts r) (r_retryBackoff r).

Definition WithLogger (l : bool) (r : R) : R :=
  mkRedisCache (r_options r) (r_codec r) (r_name r) l (r_retryAttempts r) (r_retryBackoff r).

Definition WithConnectRetry (attempts backoff : Z) (r : R) : R :=
  if (attempts >? 0)%Z && (backoff >? 0)%Z then
    mkRedisCache (r_options r) (r_codec r) (r_name r) (r_logger r) attempts backoff
  else r.

Definition WithPassword (p : string) : R → R :=
  set_options (λ o, mkRedisOptions (Addr o) (Username o) p (DB o)).

Definition WithDB (db : Z) : R → R :=
  set_options (λ o, mkRedisOptions (Addr o) (Username o) (Password o) db).

Definition WithUsername (u : string) : R → R :=
  set_options (λ o, mkRedisOptions (Addr o) u (Password o) (DB o)).

Definition WithCodec (codec : option (Codec V)) (r : R) : R :=
  match codec with
  | Some c => mkRedisCache (r_options r) (Some c) (r_name r) (r_logger r) (r_retryAttempts r)
                (r_retryBackoff r)
  | None => r
  end.

(** Without the [Lifecycle], whose [Connect] is [connect] below. *)
Definition NewRedisCache (addr : string) (options : list (R → R)) : R + error :=
  if String.eqb addr "" then inr (ErrorString "redis address cannot be empty")
  else inl (foldl (λ r o, o r)
         (mkRedisCache (mkRedisOptions addr "" "" 0) None "redis-cache" false 0 0) options).
End RedisOptions.

Section RedisCache.
Context {S V : Type} (cl : redis S) (DefaultCodec : Codec V) (rnd : Z → Z → option Z).
Context (r : RedisCache V).

Definition codecOrDefault : Codec V := default DefaultCodec (r_codec r).

(** The function given to [retry.Do]; the error of [Close] is dropped. *)
Definition connect_attempt (ctx : Context) : M (Conn S * option nat) (option error) :=
  dial_attempt (c <- NewClient cl (r_options r) ;; ret (inl c))%go
    (λ c, client_Ping cl c ctx) (λ c, (_ <- client_Close cl c ;; ret tt)%go).

(** The stop closure reads the field when it runs. *)
Definition cache_stop (ctx : Context) : M (Conn S) (option error) :=
  (s <- mget ;;
   match conn s with
   | None => mpanic nil_panic
   | Some c => on_driver (client_Close cl c)
   end)%go.

Definition connect (ctx : Context) :
    M (Conn S) ((Context → M (Conn S) (option error)) + error) :=
  (let attempts := if (r_retryAttempts r <=? 0)%Z then 1%Z else r_retryAttempts r in
   res <- with_local None (Do (rand_Int rnd) ctx attempts (r_retryBackoff r) connect_attempt) ;;
   match res.1 with
   | Some e => ret (inr (Errorf_w "failed to connect to Redis: " e))
   | None => _ <- mmodify (λ s, mkConn res.2 (driver s)) ;; ret (inl cache_stop)
   end)%go.

(** The methods use [r.client] without a guard: before [Connect] has set it they
    dereference nil. *)
Definition on_client {A} (m : nat → M S A) : M (Conn S) A :=
  (s <- mget ;;
   match conn s with
   | None => mpanic nil_panic
   | Some c => on_driver (m c)
   end)%go.

Definition RedisCache_Set (ctx : Context) (key : string) (value : V) (expiration : Z) :
    M (Conn S) (option error) :=
  match Marshal codecOrDefault value with
  | inr e => ret (Some e)
  | inl b => on_client (λ c, client_Set cl c ctx key b expiration)
  end.

Definition RedisCache_Get (ctx : Context) (key : string) (dest : V) :
    M (Conn S) (V * option error) :=
  (res <- on_client (λ c, client_Get cl c ctx key) ;;
   match res with
   | inr e =>
       if errors_Is e redis_Nil then ret (dest, Some (miss_error key)) else ret (dest, Some e)
   | inl str => ret (Unmarshal codecOrDefault str dest)
   end)%go.

Definition RedisCache_Delete (ctx : Context) (key : string) : M (Conn S) (option error) :=
  on_client (λ c, client_Del cl c ctx key).

Definition RedisCache_Exists (ctx : Context) (key : string) : M (Conn S) (bool * option error) :=
  (res <- on_client (λ c, client_Exists cl c ctx key) ;;
   ret ((res.1 >? 0)%Z, res.2))%go.

Definition redis_cache : Cache (Conn S) V :=
  mkCache RedisCache_Get RedisCache_Set RedisCache_Delete RedisCache_Exists.

Definition RedisCache_HealthChecks (client_at : Z → option nat)
    (ping : nat → Context → Z → Result (Z * option error)) : list Check :=
  StandardChecks (r_name r) (λ ctx t,
    match client_at t with
    | None => Ret (t, Some (ErrorString "redis client is not initialized"))
    | Some c => ping c ctx t
    end).
End RedisCache.

(** ** MemoryCache *)

Record MemoryCache (V : Type) : Type := mkMemoryCache {
  data : gmap string string;
  codec : option (Codec V)
}.
Arguments mkMemoryCache {V}.
Arguments data {V}.
Arguments codec {V}.

Section MemoryCache.
Context {V : Type} (DefaultCodec : Codec V).
Notation C := (MemoryCache V).

Definition mem_WithCodec (codec : option (Codec V)) (c : C) : C :=
  match codec with Some k => mkMemoryCache (data c) (Some k) | None => c end.

Definition New (opts : list (C → C)) : C := foldl (λ c o, o c) (mkMemoryCache ∅ None) opts.

Definition mem_codecOrDefault (c : C) : Codec V := default DefaultCodec (codec c).

(** Each method runs under the mutex: one step. *)
Definition MemoryCache_Get (ctx : Context) (key : string) (dest : V) : M C (V * option error) :=
  (c <- mget ;;
   match data c !! key with
   | None => ret (dest, Some (miss_error key))
   | Some v => ret (Unmarshal (mem_codecOrDefault c) v dest)
   end)%go.

Definition MemoryCache_Set (ctx : Context) (key : string) (value : V) (expiration : Z) :
    M C (option error) :=
  (c <- mget ;;
   match Marshal (mem_codecOrDefault c) value with
   | inr e => ret (Some e)
   | inl b => _ <- mput (mkMemoryCache (<[key := b]> (data c)) (codec c)) ;; ret None
   end)%go.

Definition MemoryCache_Delete (ctx : Context) (key : string) : M C (option error) :=
  (c <- mget ;;
   _ <- mput (mkMemoryCache (delete key (data c)) (codec c)) ;; ret None)%go.

Definition MemoryCache_Exists (ctx : Context) (key : string) : M C (bool * option error) :=
  (c <- mget ;;
   ret (match data c !! key with Some _ => true | None => false end, None))%go.

Definition MemoryCache_Reset : M C unit :=
  (c <- mget ;; mput (mkMemoryCache ∅ (codec c)))%go.

Definition memory_cache : Cache C V :=
  mkCache MemoryCache_Get MemoryCache_Set MemoryCache_Delete MemoryCache_Exists.
End MemoryCache.

(** ** What a cache promises

    [contents] is the encoded entries. Every call returns and may lose entries;
    a [Get] that succeeds has decoded the entry; after a successful [Set] the key
    has the new entry or none; after a failed one the old, the new or none; after
    a successful [Delete] none. [Exists] reports true only for an entry. [inv]
    holds of the states in which the cache may be used. *)
Class CacheLaws {S V : Type} (c : Cache S V) (cd : Codec V) (inv : S → Prop)
    (contents : S → gmap string string) : Prop := {
  law_get ctx key dest w : inv (heap w) →
    ∃ v e w', Cache_Get c ctx key dest w = (Ret (v, e), w') ∧ inv (heap w') ∧
      contents (heap w') ⊆ contents (heap w) ∧
      (e = None → ∃ b, contents (heap w) !! key = Some b ∧ Unmarshal cd b dest = (v, None));
  law_set ctx key value ttl w : inv (heap w) →
    ∃ e w', Cache_Set c ctx key value ttl w = (Ret e, w') ∧ inv (heap w') ∧
      match Marshal cd value with
      | inl b =>
          contents (heap w') ⊆ <[key := b]> (contents (heap w)) ∨
          (e ≠ None ∧ contents (heap w') ⊆ contents (heap w))
      | inr _ => e ≠ None ∧ contents (heap w') ⊆ contents (heap w)
      end;
  law_delete ctx key w : inv (heap w) →
    ∃ e w', Cache_Delete c ctx key w = (Ret e, w') ∧ inv (heap w') ∧
      contents (heap w') ⊆
        (if e then contents (heap w) else delete key (contents (heap w)));
  law_exists ctx key w : inv (heap w) →
    ∃ b e w', Cache_Exists c ctx key w = (Ret (b, e), w') ∧ inv (heap w') ∧
      contents (heap w') ⊆ contents (heap w) ∧
      (b = true → e = None → is_Some (contents (heap w) !! key))
}.

(** The client of go-redis, connected: the same of the strings it stores; the
    clients, as connections. *)
Class RedisLaws {S : Type} (cl : redis S) (contents : S → gmap string string)
    (clients : S → gset nat) : Prop := {
  redis_dial opts ctx ::
    DialLaws (c <- NewClient cl opts ;; ret (inl c))%go (λ c, client_Ping cl c ctx)
      (λ c, (_ <- client_Close cl c ;; ret tt)%go) clients;
  redis_get c ctx key w :
    ∃ r w', client_Get cl c ctx key w = (Ret r, w') ∧
      contents (heap w') ⊆ contents (heap w) ∧
      match r with inl str => contents (heap w) !! key = Some str | inr _ => True end;
  redis_set c ctx key b ttl w :
    ∃ e w', client_Set cl c ctx key b ttl w = (Ret e, w') ∧
      (contents (heap w') ⊆ <[key := b]> (contents (heap w)) ∨
       (e ≠ None ∧ contents (heap w') ⊆ contents (heap w)));
  redis_del c ctx key w :
    ∃ e w', client_Del cl c ctx key w = (Ret e, w') ∧
      contents (heap w') ⊆ (if e then contents (heap w) else delete key (contents (heap w)));
  redis_exists c ctx key w :
    ∃ n e w', client_Exists cl c ctx key w = (Ret (n, e), w') ∧
      contents (heap w') ⊆ contents (heap w) ∧
      ((0 < n)%Z → e = None → is_Some (contents (heap w) !! key))
}.

(** ** The implementations keep the promise *)

#[global] Instance memory_cache_laws {V} (dc : Codec V) (k : option (Codec V)) :
  CacheLaws (memory_cache dc) (default dc k) (λ c, codec c = k) data.
Proof.
  split.
  - intros ctx key dest w Hk. simpl. unfold MemoryCache_Get, bind, mget, mem_codecOrDefault.
    destruct (data (heap w) !! key) as [b|] eqn:Hb.
    + rewrite Hk. destruct (Unmarshal (default dc k) b dest) as [v e] eqn:Hu.
      eexists v, e, w. split_and!; [by unfold ret; rewrite <-Hu|done|done|]. intros ->. eauto.
    + eexists _, _, w. by split_and!.
  - intros ctx key value ttl w Hk. simpl. unfold MemoryCache_Set, bind, mget, mem_codecOrDefault.
    rewrite Hk. destruct (Marshal (default dc k) value) as [b|e].
    + eexists _, _. split_and!; [reflexivity|done|]. by left.
    + eexists _, w. by split_and!.
  - intros ctx key w Hk. eexists _, _. by split_and!.
  - intros ctx key w Hk. eexists _, _, w. split_and!; [reflexivity|done|done|].
    destruct (data (heap w) !! key); [by eexists|done].
Qed.

Section RedisLaws.
Context {S V : Type} (cl : redis S) (dc : Codec V) (r : RedisCache V)
  (contents : S → gmap string string) (clients : S → gset nat).
Context `{RL : !RedisLaws cl contents clients}.

(** A call on a connected cache. *)
Lemma on_client_Ret {A} (m : nat → M S A) c (w : World (Conn S)) x w1 :
  conn (heap w) = Some c →
  m c (mkWorld (clock w) (coins w) (driver (heap w))) = (Ret x, w1) →
  on_client m w = (Ret x, mkWorld (clock w1) (coins w1) (mkConn (Some c) (heap w1))).
Proof.
  intros Hc Hm. unfold on_client, bind, mget. rewrite Hc, (on_driver_Ret _ _ _ _ Hm). by rewrite Hc.
Qed.

#[global] Instance redis_cache_laws :
  CacheLaws (redis_cache cl dc r) (codecOrDefault dc r) (λ s, is_Some (conn s))
    (λ s, contents (driver s)).
Proof.
  split.
  - intros ctx key dest w [c Hc]. simpl. unfold RedisCache_Get.
    destruct (redis_get (RedisLaws := RL) c ctx key (mkWorld (clock w) (coins w) (driver (heap w))))
      as (x & w1 & Hg & Hsub & Hx).
    run (on_client_Ret _ _ _ _ _ Hc Hg).
    destruct x as [str|e]; [|destruct (errors_Is e redis_Nil); by eexists _, _, _].
    destruct (Unmarshal (codecOrDefault dc r) str dest) as [v e] eqn:Hu.
    eexists v, e, _. split_and!; [reflexivity|by eexists|done|]. intros ->. eauto.
  - intros ctx key value ttl w [c Hc]. simpl. unfold RedisCache_Set.
    destruct (Marshal (codecOrDefault dc r) value) as [b|e]; [|by eexists _, w].
    destruct (redis_set (RedisLaws := RL) c ctx key b ttl
      (mkWorld (clock w) (coins w) (driver (heap w)))) as (x & w1 & Hg & Hx).
    rewrite (on_client_Ret _ _ _ _ _ Hc Hg). eexists _, _. split_and!; [reflexivity|by eexists|done].
  - intros ctx key w [c Hc]. simpl. unfold RedisCache_Delete.
    destruct (redis_del (RedisLaws := RL) c ctx key
      (mkWorld (clock w) (coins w) (driver (heap w)))) as (x & w1 & Hg & Hx).
    rewrite (on_client_Ret _ _ _ _ _ Hc Hg). eexists _, _. split_and!; [reflexivity|by eexists|done].
  - intros ctx key w [c Hc]. simpl. unfold RedisCache_Exists.
    destruct (redis_exists (RedisLaws := RL) c ctx key
      (mkWorld (clock w) (coins w) (driver (heap w)))) as (n & e & w1 & Hg & Hsub & Hx).
    run (on_client_Ret _ _ _ _ _ Hc Hg).
    eexists _, _, _. split_and!; [reflexivity|by eexists|done|]. simpl.
    intros Hn%Z.gtb_lt. by apply Hx.
Qed.
End RedisLaws.

(** ** A cache as a lossy map

    Sequences of operations and their results. *)
Inductive cop (V : Type) : Type :=
| CGet (key : string) (dest : V)
| CSet (key : string) (value : V) (ttl : Z)
| CDelete (key : string)
| CExists (key : string).
Arguments CGet {V}.
Arguments CSet {V}.
Arguments CDelete {V}.
Arguments CExists {V}.

Inductive cout (V : Type) : Type :=
| OutGet (v : V) (e : option error)
| OutErr (e : option error)
| OutExists (b : bool) (e : option error).
Arguments OutGet {V}.
Arguments OutErr {V}.
Arguments OutExists {V}.

Section Lossy.
Context {S V : Type} (c : Cache S V).

Definition cache_op (ctx : Context) (o : cop V) : M S (cout V) :=
  match o with
  | CGet k dest => (r <- Get ctx c k dest ;; ret (OutGet r.1 r.2))%go
  | CSet k v ttl => (e <- Set_ ctx c k v ttl ;; ret (OutErr e))%go
  | CDelete k => (e <- Cache_Delete c ctx k ;; ret (OutErr e))%go
  | CExists k => (r <- Cache_Exists c ctx k ;; ret (OutExists r.1 r.2))%go
  end.

Fixpoint cache_ops (ctx : Context) (os : list (cop V)) : M S (list (cop V * cout V)) :=
  match os with
  | [] => ret []
  | o :: os' =>
      (x <- cache_op ctx o ;;
       xs <- cache_ops ctx os' ;;
       ret ((o, x) :: xs))%go
  end.

(** The values that may be found under each key: after a successful [Set] only
    the new one, after a failed one also the new one, after a successful
    [Delete] none. *)
Definition track (m : gmap string (list V)) (o : cop V) (x : cout V) : gmap string (list V) :=
  match o, x with
  | CSet k v _, OutErr None => <[k := [v]]> m
  | CSet k v _, OutErr (Some _) => <[k := v :: default [] (m !! k)]> m
  | CDelete k, OutErr None => delete k m
  | _, _ => m
  end.

(** What a result may be. *)
Definition allowed (m : gmap string (list V)) (o : cop V) (x : cout V) : Prop :=
  match o, x with
  | CGet k _, OutGet v e => e = None → v ∈ default [] (m !! k)
  | CExists k, OutExists b e => b = true → e = None → default [] (m !! k) ≠ []
  | CSet _ _ _, OutErr _ | CDelete _, OutErr _ => True
  | _, _ => False
  end.

Fixpoint coherent (m : gmap string (list V)) (t : list (cop V * cout V)) : Prop :=
  match t with
  | [] => True
  | (o, x) :: t' => allowed m o x ∧ coherent (track m o x) t'
  end.

Context (cd : Codec V) (inv : S → Prop) (contents : S → gmap string string).
Context `{CL : !CacheLaws c cd inv contents}.

(** Every entry is the encoding of one of the values tracked for its key. *)
Definition encodes (m : gmap string (list V)) (d : gmap string string) : Prop :=
  ∀ k b, d !! k = Some b → ∃ v, v ∈ default [] (m !! k) ∧ Marshal cd v = inl b.

Lemma encodes_sub m d d' : encodes m d → d' ⊆ d → encodes m d'.
Proof. intros H Hs k b Hb. apply H. by eapply lookup_weaken. Qed.

Lemma encodes_set m d k b v vs :
  encodes m d → Marshal cd v = inl b → v ∈ vs → encodes (<[k := vs]> m) (<[k := b]> d).
Proof.
  intros H Hm Hv k' b' Hb. destruct (decide (k = k')) as [<-|Hne].
  - rewrite lookup_insert_eq in Hb. simplify_eq. exists v. by rewrite lookup_insert_eq.
  - rewrite lookup_insert_ne in Hb by done. rewrite lookup_insert_ne by done. by apply H.
Qed.

Lemma encodes_more m d k v : encodes m d → encodes (<[k := v :: default [] (m !! k)]> m) d.
Proof.
  intros H k' b Hb. destruct (H k' b Hb) as (v' & Hin & Hm). exists v'. split; [|done].
  destruct (decide (k = k')) as [<-|Hne].
  - rewrite lookup_insert_eq. simpl. by apply list_elem_of_further.
  - by rewrite lookup_insert_ne.
Qed.

Lemma encodes_delete m d k : encodes m d → encodes (delete k m) (delete k d).
Proof.
  intros H k' b Hb. apply lookup_delete_Some in Hb as [Hne Hb].
  rewrite lookup_delete_ne by done. by apply H.
Qed.

(** The type of the values under each key: [Get]s and [Set]s of a key agree on
    it, and its values survive the codec. *)
Context (typed : string → V → Prop).
Hypothesis codec_roundtrip : ∀ k v dest b,
  typed k v → typed k dest → Marshal cd v = inl b → Unmarshal cd b dest = (v, None).

Definition op_typed (o : cop V) : Prop :=
  match o with CGet k v => typed k v | CSet k v _ => typed k v | _ => True end.

Definition all_typed (m : gmap string (list V)) : Prop :=
  ∀ k v, v ∈ default [] (m !! k) → typed k v.

Lemma track_typed m o x : op_typed o → all_typed m → all_typed (track m o x).
Proof.
  intros Ho Hm k v. destruct o as [k0 d|k0 v0 ttl|k0|k0], x as [?|[e|]|]; simpl; try apply Hm;
    (destruct (decide (k0 = k)) as [<-|Hne];
     [rewrite ?lookup_insert_eq, ?lookup_delete_eq; simpl
     |rewrite ?lookup_insert_ne, ?lookup_delete_ne by done; apply Hm]).
  - intros [->|Hv]%elem_of_cons; [done|by apply Hm].
  - intros ->%list_elem_of_singleton. done.
  - by intros ?%elem_of_nil.
Qed.

Lemma cache_op_spec ctx o m w :
  inv (heap w) → op_typed o → all_typed m → encodes m (contents (heap w)) →
  ∃ x w', cache_op ctx o w = (Ret x, w') ∧ inv (heap w') ∧ allowed m o x ∧
    encodes (track m o x) (contents (heap w')).
Proof.
  intros Hi Ho Hm He. destruct o as [k d|k v ttl|k|k]; simpl.
  - destruct (law_get (CacheLaws := CL) ctx k d w Hi) as (v & e & w' & Hg & Hi' & Hs & Hv).
    unfold Get. run Hg. eexists _, w'. split_and!; [reflexivity|done| |].
    + simpl. intros ->. destruct (Hv eq_refl) as (b & Hb & Hu).
      destruct (He k b Hb) as (v' & Hin & Hmar).
      rewrite (codec_roundtrip k v' d b) in Hu; [|by apply Hm|done|done]. by simplify_eq.
    + by eapply encodes_sub.
  - destruct (law_set (CacheLaws := CL) ctx k v ttl w Hi) as (e & w' & Hg & Hi' & Hs).
    unfold Set_. run Hg. eexists _, w'. split_and!; [reflexivity|done|done|].
    simpl. destruct (Marshal cd v) as [b|] eqn:Hb.
    + destruct Hs as [Hs|[Hne Hs]]; (destruct e as [e|]; [|try done]).
      * eapply encodes_sub; [|exact Hs]. eapply encodes_set; [done..|constructor].
      * eapply encodes_sub; [|exact Hs]. eapply encodes_set; [done..|constructor].
      * eapply encodes_sub; [|exact Hs]. by apply encodes_more.
    + destruct Hs as [Hne Hs]. destruct e as [e|]; [|done].
      eapply encodes_sub; [|exact Hs]. by apply encodes_more.
  - destruct (law_delete (CacheLaws := CL) ctx k w Hi) as (e & w' & Hg & Hi' & Hs).
    run Hg. eexists _, w'. split_and!; [reflexivity|done|done|].
    simpl. destruct e; (eapply encodes_sub; [|exact Hs]); [done|by apply encodes_delete].
  - destruct (law_exists (CacheLaws := CL) ctx k w Hi) as (b & e & w' & Hg & Hi' & Hs & Hx).
    run Hg. eexists _, w'. split_and!; [reflexivity|done| |].
    + simpl. intros Hb He'. destruct (Hx Hb He') as [str Hstr].
      destruct (He k str Hstr) as (v & Hv & _). intros Hnil. rewrite Hnil in Hv. by apply elem_of_nil in Hv.
    + by eapply encodes_sub.
Qed.

Lemma cache_ops_coherent ctx os m w :
  inv (heap w) → Forall op_typed os → all_typed m → encodes m (contents (heap w)) →
  ∃ t w', cache_ops ctx os w = (Ret t, w') ∧ map fst t = os ∧ coherent m t.
Proof.
  intros Hi Hos. revert m w Hi. induction Hos as [|o os Ho _ IH]; intros m w Hi Hm He; simpl.
  { by eexists _, w. }
  destruct (cache_op_spec ctx o m w Hi Ho Hm He) as (x & w1 & Hx & Hi1 & Hal & He1).
  run Hx.
  destruct (IH (track m o x) w1) as (t & w2 & Ht & Hfst & Hco); [done|by apply track_typed|done|].
  run Ht. eexists _, w2. split_and!; [reflexivity| |done].
  simpl. by rewrite Hfst.
Qed.
End Lossy.

(** ** The in-memory cache as an exact map *)

Section Exact.
Context {V : Type} (dc : Codec V) (typed : string → V → Prop).

Definition exact_op (m : gmap string V) (o : cop V) : cout V * gmap string V :=
  match o with
  | CGet k d =>
      (match m !! k with Some v => OutGet v None | None => OutGet d (Some (miss_error k)) end, m)
  | CSet k v _ => (OutErr None, <[k := v]> m)
  | CDelete k => (OutErr None, delete k m)
  | CExists k => (OutExists (match m !! k with Some _ => true | None => false end) None, m)
  end.

Fixpoint exact_ops (m : gmap string V) (os : list (cop V)) : list (cop V * cout V) :=
  match os with
  | [] => []
  | o :: os' => (o, (exact_op m o).1) :: exact_ops (exact_op m o).2 os'
  end.

(** The map [d] of encoded values represents [m]. *)
Definition represents (cd : Codec V) (m : gmap string V) (d : gmap string string) : Prop :=
  ∀ k, match m !! k with
       | Some v => typed k v ∧ ∃ b, d !! k = Some b ∧ Marshal cd v = inl b
       | None => d !! k = None
       end.

Context (cd : Codec V).
Hypothesis marshals : ∀ k v, typed k v → ∃ b, Marshal cd v = inl b.
Hypothesis codec_roundtrip : ∀ k v dest b,
  typed k v → typed k dest → Marshal cd v = inl b → Unmarshal cd b dest = (v, None).

Lemma represents_set m d k v b :
  represents cd m d → typed k v → Marshal cd v = inl b →
  represents cd (<[k := v]> m) (<[k := b]> d).
Proof.
  intros H Ht Hb k'. destruct (decide (k = k')) as [<-|Hne].
  - rewrite !lookup_insert_eq. eauto.
  - rewrite !lookup_insert_ne by done. apply H.
Qed.

Lemma represents_delete m d k : represents cd m d → represents cd (delete k m) (delete k d).
Proof.
  intros H k'. destruct (decide (k = k')) as [<-|Hne].
  - by rewrite !lookup_delete_eq.
  - rewrite !lookup_delete_ne by done. apply H.
Qed.

Lemma memory_op_exact ctx o m w :
  mem_codecOrDefault dc (heap w) = cd → op_typed typed o → represents cd m (data (heap w)) →
  ∃ w', cache_op (memory_cache dc) ctx o w = (Ret (exact_op m o).1, w') ∧
    mem_codecOrDefault dc (heap w') = cd ∧ represents cd (exact_op m o).2 (data (heap w')).
Proof.
  intros Hcd Ho Hr. destruct o as [k d|k v ttl|k|k]; simpl.
  - unfold Get. simpl. unfold MemoryCache_Get, bind, mget. specialize (Hr k) as Hk.
    destruct (m !! k) as [v|].
    + destruct Hk as (Hv & b & Hb & Hm). rewrite Hb, Hcd, (codec_roundtrip k v d b); eauto.
    + rewrite Hk. eauto.
  - destruct (marshals k v Ho) as [b Hb]. unfold Set_. simpl. unfold MemoryCache_Set, bind, mget.
    rewrite Hcd, Hb. eexists. split_and!; [reflexivity|done|]. simpl. by apply represents_set.
  - eexists. split_and!; [reflexivity|done|]. simpl. by apply represents_delete.
  - unfold bind. simpl. specialize (Hr k) as Hk. destruct (m !! k) as [v|].
    + destruct Hk as (Hv & b & Hb & Hm). rewrite Hb. eauto.
    + rewrite Hk. eauto.
Qed.

Lemma memory_ops_exact ctx os m w :
  mem_codecOrDefault dc (heap w) = cd → Forall (op_typed typed) os →
  represents cd m (data (heap w)) →
  ∃ w', cache_ops (memory_cache dc) ctx os w = (Ret (exact_ops m os), w').
Proof.
  intros Hcd Hos. revert m w Hcd. induction Hos as [|o os Ho _ IH]; intros m w Hcd Hr; simpl.
  { by eexists. }
  destruct (memory_op_exact ctx o m w Hcd Ho Hr) as (w1 & Hx & Hcd1 & Hr1).
  run Hx. destruct (IH _ _ Hcd1 Hr1) as [w2 Ht].
  run Ht. by eexists.
Qed.
End Exact.

(** ** A sample codec and a sample server *)

(** Values are strings, stored with a tag in front; anything without the tag is
    refused. *)
Definition tag_codec : Codec string :=
  mkCodec (λ v, inl ("s" +:+ v))
    (λ b dest, match b with
               | String "s"%char v => (v, None)
               | _ => (dest, Some (ErrorString "bad tag"))
               end).

Lemma tag_codec_roundtrip (k v dest b : string) :
  True → True → Marshal tag_codec v = inl b → Unmarshal tag_codec b dest = (v, None).
Proof. intros _ _ [= <-]. done. Qed.

Record RedisServer : Type := mkRedisServer {
  store : gmap string string; redis_clients : gset nat; redis_pings : list (option error) }.

Definition new_client (s : RedisServer) : nat := S (list_max (elements (redis_clients s))).

Definition server_op {A} (f : RedisServer → A * RedisServer) : M RedisServer A := λ w,
  (Ret (f (heap w)).1, mkWorld (clock w) (coins w) (f (heap w)).2).

Definition sample_redis : redis RedisServer :=
  mkRedis
    (λ _, server_op (λ s, (new_client s,
       mkRedisServer (store s) ({[new_client s]} ∪ redis_clients s) (redis_pings s))))
    (λ _ _, server_op (λ s, (default None (head (redis_pings s)),
       mkRedisServer (store s) (redis_clients s) (tail (redis_pings s)))))
    (λ c, server_op (λ s, (None, mkRedisServer (store s) (redis_clients s ∖ {[c]}) (redis_pings s))))
    (λ _ _ k b _, server_op (λ s, (None,
       mkRedisServer (<[k := b]> (store s)) (redis_clients s) (redis_pings s))))
    (λ _ _ k, server_op (λ s, (match store s !! k with
                              | Some b => inl b | None => inr (Sentinel redis_Nil) end, s)))
    (λ _ _ k, server_op (λ s, (None,
       mkRedisServer (delete k (store s)) (redis_clients s) (redis_pings s))))
    (λ _ _ k, server_op (λ s, ((match store s !! k with Some _ => 1 | None => 0 end)%Z, None, s))).

#[global] Instance sample_redis_laws : RedisLaws sample_redis store redis_clients.
Proof.
  split.
  - intros opts ctx. split.
    + intros w. eexists _, _. split; [reflexivity|]. split; [|done].
      simpl. rewrite <-elem_of_elements. intros Hin%list_elem_of_In. unfold new_client in Hin.
      apply list_max_ge in Hin. lia.
    + intros p w. by eexists _, _.
    + intros p w. by eexists.
  - intros c ctx k w. eexists _, _. split_and!; [reflexivity|done|]. simpl.
    by destruct (store (heap w) !! k).
  - intros c ctx k b ttl w. eexists _, _. split; [reflexivity|]. by left.
  - intros c ctx k w. by eexists _, _.
  - intros c ctx k w. eexists _, _, _. split_and!; [reflexivity|done|]. simpl.
    destruct (store (heap w) !! k); intros; [by eexists|lia].
Qed.

Definition sample_redis_world (o : option nat) (ps : list (option error)) : World (Conn RedisServer) :=
  mkWorld 0 [] (mkConn o (mkRedisServer ∅ ∅ ps)).

Definition sample_redis_cache : RedisCache string :=
  mkRedisCache (mkRedisOptions "localhost:6379" "" "" 0) None "redis-cache" false 3 Second.

Definition sample_ops : list (cop string) :=
  [CSet "a" "1" 0; CSet "a" "2" 0; CGet "a" ""; CDelete "a"; CGet "a" ""; CExists "a"].

(** ** Theorems *)

(** A cache is a lossy map. For every cache that keeps [CacheLaws], from an
    empty one, in every sequence of operations whose values survive the codec:
    every call returns; a successful [Get] returns the value of the last
    successful [Set] of that key, or of a later [Set] that reported an error, and
    never a value from before the last successful [Set] or [Delete]; [Exists]
    reports true only if there is such a value. *)
Theorem cache_is_lossy_map {S V} (c : Cache S V) cd inv contents (typed : string → V → Prop) ctx os w :
  CacheLaws c cd inv contents →
  (∀ k v dest b, typed k v → typed k dest → Marshal cd v = inl b → Unmarshal cd b dest = (v, None)) →
  inv (heap w) → contents (heap w) = ∅ → Forall (op_typed typed) os →
  ∃ t w', cache_ops c ctx os w = (Ret t, w') ∧ map fst t = os ∧ coherent ∅ t.
Proof.
  intros CL Hrt Hi He Hos. eapply cache_ops_coherent; try done.
  - intros k v. rewrite lookup_empty. by intros ?%elem_of_nil.
  - rewrite He. intros k b. by rewrite lookup_empty.
Qed.

Lemma cache_is_lossy_map_witness :
  ∃ t w', cache_ops (memory_cache tag_codec) Background sample_ops (mkWorld 0 [] (New [])) = (Ret t, w') ∧
    map fst t = sample_ops ∧ coherent ∅ t.
Proof.
  apply (cache_is_lossy_map (memory_cache tag_codec) tag_codec (λ c, codec c = None) data (λ _ _, True)
    Background sample_ops (mkWorld 0 [] (New []))).
  - apply (memory_cache_laws tag_codec None).
  - intros k. apply (tag_codec_roundtrip k).
  - reflexivity.
  - reflexivity.
  - repeat constructor.
Defined.

(** C23. RedisCache is a lossy map. Take a [RedisCache] whose client is connected to
    a server that keeps [RedisLaws] (entries may expire, calls may fail and a failed
    [SET] may have taken effect), a codec that gives back every value of the type kept under
    a key, and a sequence of operations that keep to these types. Started with no
    entry on the server, every call returns; a successful [Get] returns the value
    of the last successful [Set] of that key, or of a later [Set] that reported an
    error, and never one from before the last successful [Set] or [Delete];
    [Exists] reports true only if there is such a value. And [Get] loses nothing of
    itself: whenever the server answers with the encoding of a value of the key's
    type it returns that value and nil; when the server answers redis.Nil it
    returns the miss error that names the key, on any other error that error, and
    leaves the destination alone. *)
Theorem redis_cache_is_lossy_map {S V} (cl : redis S) (dc : Codec V) r contents clients (typed : string → V → Prop) ctx os w :
  RedisLaws cl contents clients →
  (∀ k v dest b, typed k v → typed k dest → Marshal (codecOrDefault dc r) v = inl b →
     Unmarshal (codecOrDefault dc r) b dest = (v, None)) →
  is_Some (conn (heap w)) → contents (driver (heap w)) = ∅ → Forall (op_typed typed) os →
  (∃ t w', cache_ops (redis_cache cl dc r) ctx os w = (Ret t, w') ∧ map fst t = os ∧ coherent ∅ t) ∧
  ∀ k dest c (w : World (Conn S)) x w1, typed k dest → conn (heap w) = Some c →
    client_Get cl c ctx k (mkWorld (clock w) (coins w) (driver (heap w))) = (Ret x, w1) →
    ∃ out w', RedisCache_Get cl dc r ctx k dest w = (Ret out, w') ∧
      match x with
      | inl b => ∀ v, typed k v → Marshal (codecOrDefault dc r) v = inl b → out = (v, None)
      | inr e => out = (dest, Some (if errors_Is e redis_Nil then miss_error k else e))
      end.
Proof.
  intros RL Hrt Hi He Hos. split.
  - eapply (cache_ops_coherent (redis_cache cl dc r) (codecOrDefault dc r) (λ s, is_Some (conn s))
      (λ s, contents (driver s))); try done.
    + intros k v. rewrite lookup_empty. by intros ?%elem_of_nil.
    + rewrite He. intros k b. by rewrite lookup_empty.
  - intros k dest c w0 x w1 Hd Hc Hg. unfold RedisCache_Get. run (on_client_Ret _ _ _ _ _ Hc Hg).
    destruct x as [b|e]; [|destruct (errors_Is e redis_Nil); by eexists _, _].
    eexists _, _. split; [reflexivity|]. intros v Hv Hb. by apply (Hrt k).
Qed.

Lemma redis_cache_is_lossy_map_witness :
  ∃ t w', cache_ops (redis_cache sample_redis tag_codec sample_redis_cache) Background sample_ops
            (sample_redis_world (Some 1) []) = (Ret t, w') ∧
    map fst t = sample_ops ∧ coherent ∅ t.
Proof.
  eapply (redis_cache_is_lossy_map sample_redis tag_codec sample_redis_cache store redis_clients
    (λ _ _, True) Background sample_ops (sample_redis_world (Some 1) [])).
  - apply sample_redis_laws.
  - intros k. apply (tag_codec_roundtrip k).
  - eexists. reflexivity.
  - reflexivity.
  - repeat constructor.
Defined.

(** C35. MemoryCache is exactly a map. A fresh [MemoryCache], with the default or a
    custom codec under which the values survive, answers every sequence of
    operations as a plain map from keys to values does: [Get] returns the last
    value set and not deleted since, or a cache-miss error naming the key;
    [Exists] agrees with [Get]; expirations are ignored. *)
Theorem memory_cache_is_map {V} (dc : Codec V) (k : option (Codec V)) (typed : string → V → Prop) ctx os t0 cs :
  let cd := default dc k in
  (∀ k v, typed k v → ∃ b, Marshal cd v = inl b) →
  (∀ k v dest b, typed k v → typed k dest → Marshal cd v = inl b → Unmarshal cd b dest = (v, None)) →
  Forall (op_typed typed) os →
  ∃ w', cache_ops (memory_cache dc) ctx os (mkWorld t0 cs (New [mem_WithCodec k])) =
        (Ret (exact_ops ∅ os), w').
Proof.
  intros cd Hm Hrt Hos. apply (memory_ops_exact dc typed cd Hm Hrt); [|done|].
  - by destruct k.
  - intros k'. rewrite lookup_empty. simpl. by destruct k.
Qed.

Lemma memory_cache_is_map_witness :
  ∃ w', cache_ops (memory_cache tag_codec) Background sample_ops
          (mkWorld 0 [] (New [mem_WithCodec None])) = (Ret (exact_ops ∅ sample_ops), w').
Proof.
  apply (memory_cache_is_map tag_codec None (λ _ _, True) Background sample_ops 0 []).
  - intros k v _. eexists. reflexivity.
  - intros k. apply (tag_codec_roundtrip k).
  - repeat constructor.
Defined.

(** Connecting leaks no client. [Connect] of a [RedisCache] always returns; if
    it fails, every client it created has been closed and the client field is
    untouched; if it succeeds, exactly one more client is open, the one in the
    field, and the stop closure closes it. *)
Theorem connect_leaks_no_client {S V} (cl : redis S) contents clients rnd (r : RedisCache V) ctx w :
  RedisLaws cl contents clients →
  ∃ res w', connect cl rnd r ctx w = (Ret res, w') ∧
    match res with
    | inr _ => clients (driver (heap w')) = clients (driver (heap w)) ∧ conn (heap w') = conn (heap w)
    | inl stop =>
        ∃ c, conn (heap w') = Some c ∧ c ∉ clients (driver (heap w)) ∧
          clients (driver (heap w')) = {[c]} ∪ clients (driver (heap w)) ∧
          ∀ shCtx, ∃ e w2, stop shCtx w' = (Ret e, w2) ∧
            clients (driver (heap w2)) = clients (driver (heap w))
    end.
Proof.
  intros RL. unfold connect.
  set (n := if (r_retryAttempts r <=? 0)%Z then 1%Z else r_retryAttempts r).
  destruct (dial_retry_spec rnd (λ ctx, (c <- NewClient cl (r_options r) ;; ret (inl c))%go)
    (λ ctx c, client_Ping cl c ctx) (λ c, (_ <- client_Close cl c ;; ret tt)%go) clients
    ctx n (r_retryBackoff r) w) as ([x v] & w1 & Hrun & Hr).
  unfold connect_attempt. run Hrun. simpl in *.
  destruct x as [e|]; [by eexists _, w1|].
  destruct Hr as (c & Hv & Hc & Hcl & Ho). simpl in Hv. subst v. eexists _, _. split; [reflexivity|].
  exists c. split_and!; simpl in *; try done. intros shCtx.
  unfold cache_stop, bind, mget. simpl.
  destruct (dial_close (DialLaws := redis_dial (r_options r) ctx) c
    (mkWorld (clock w1) (coins w1) (driver (heap w1)))) as (w2 & Hclose & Hpc).
  apply bind_Ret_inv in Hclose as (e & w3 & Hclose & [= <-]).
  erewrite on_driver_Ret by exact Hclose. eexists _, _. split; [reflexivity|]. simpl in *.
  rewrite Hpc, Hcl. set_solver.
Qed.

Lemma connect_leaks_no_client_witness :
  let w := sample_redis_world None [Some (ErrorString "refused"); None] in
  ∃ res w', connect sample_redis (λ _ _, None) sample_redis_cache Background w = (Ret res, w') ∧
    match res with
    | inr _ => redis_clients (driver (heap w')) = redis_clients (driver (heap w)) ∧
               conn (heap w') = conn (heap w)
    | inl stop =>
        ∃ c, conn (heap w') = Some c ∧ c ∉ redis_clients (driver (heap w)) ∧
          redis_clients (driver (heap w')) = {[c]} ∪ redis_clients (driver (heap w)) ∧
          ∀ shCtx, ∃ e w2, stop shCtx w' = (Ret e, w2) ∧
            redis_clients (driver (heap w2)) = redis_clients (driver (heap w))
    end.
Proof.
  intros w.
  apply (connect_leaks_no_client sample_redis store redis_clients (λ _ _, None) sample_redis_cache
    Background w). apply sample_redis_laws.
Defined.
