(* ===== verification/Worker.v ===== *)
(** * workerkit: enqueueing background tasks and the worker server

    workerkit/enqueuer.go, client.go, server.go, health.go and
    memqueue/memqueue.go. asynq is outside the repository: its options, tasks and
    infos are data, its client and server are records of operations.

    [EnqueuerLaws] states what an enqueuer promises; the asynq client and the
    in-memory client discharge it. A [time.Time] is an [option Z] whose [None] is
    the zero time. *)

From stdpp Require Import base list strings pretty gmap.
From Stdlib Require Import ZArith Lia.
From S2P Require Import Prelude Errors Runtime Lifecycle Health Runner.

(** ** Data *)

Record RedisConfig : Type := mkRedisConfig {
  rc_Addr : string; rc_Password : string; rc_DB : Z; rc_Username : string; rc_TLSConfig : option nat }.

Record Task : Type := mkTask { Type_ : string; Payload : string }.

Record ServerConfig : Type := mkServerConfig {
  Concurrency : Z;
  Queues : list (string * Z);
  StrictPriority : bool;
  ShutdownTimeout : Z;
  RetryDelayFunc : option (Z → error → Task → Z)
}.

(** [type Handler func(ctx, task) error], run in state [S]. *)
Definition TaskHandler (S : Type) : Type := Context → Task → M S (option error).

Record TaskInfo : Type := mkTaskInfo {
  ti_ID : string; ti_Type : string; ti_Queue : string; ti_State : string;
  ti_NextProcessAt : option Z; ti_Retention : Z; ti_CompletedAt : option Z;
  ti_Result : string; ti_LastErr : string; ti_LastFailedAt : option Z
}.

Record EnqueueOptions : Type := mkEnqueueOptions {
  Queue : string;
  MaxRetry : option Z;
  Deadline : option Z;
  ProcessIn : Z;
  ProcessAt : option Z;
  Unique : Z;
  TaskTimeout : Z;
  Retention : Z;
  Group : string
}.

Definition no_options : EnqueueOptions := mkEnqueueOptions "" None None 0 None 0 0 0 "".

(** ** Enqueue options *)

Notation EnqueueOption := (EnqueueOptions → EnqueueOptions) (only parsing).

Definition WithQueue (name : string) : EnqueueOption := λ o,
  mkEnqueueOptions name (MaxRetry o) (Deadline o) (ProcessIn o) (ProcessAt o) (Unique o)
    (TaskTimeout o) (Retention o) (Group o).
Definition WithMaxRetry (n : Z) : EnqueueOption := λ o,
  mkEnqueueOptions (Queue o) (Some n) (Deadline o) (ProcessIn o) (ProcessAt o) (Unique o)
    (TaskTimeout o) (Retention o) (Group o).
Definition WithDeadline (t : option Z) : EnqueueOption := λ o,
  mkEnqueueOptions (Queue o) (MaxRetry o) t (ProcessIn o) (ProcessAt o) (Unique o)
    (TaskTimeout o) (Retention o) (Group o).
Definition WithProcessIn (d : Z) : EnqueueOption := λ o,
  mkEnqueueOptions (Queue o) (MaxRetry o) (Deadline o) d None (Unique o)
    (TaskTimeout o) (Retention o) (Group o).
Definition WithProcessAt (t : option Z) : EnqueueOption := λ o,
  mkEnqueueOptions (Queue o) (MaxRetry o) (Deadline o) 0 t (Unique o)
    (TaskTimeout o) (Retention o) (Group o).
Definition WithUnique (ttl : Z) : EnqueueOption := λ o,
  mkEnqueueOptions (Queue o) (MaxRetry o) (Deadline o) (ProcessIn o) (ProcessAt o) ttl
    (TaskTimeout o) (Retention o) (Group o).
Definition WithTaskTimeout (d : Z) : EnqueueOption := λ o,
  mkEnqueueOptions (Queue o) (MaxRetry o) (Deadline o) (ProcessIn o) (ProcessAt o) (Unique o)
    d (Retention o) (Group o).
Definition WithRetention (d : Z) : EnqueueOption := λ o,
  mkEnqueueOptions (Queue o) (MaxRetry o) (Deadline o) (ProcessIn o) (ProcessAt o) (Unique o)
    (TaskTimeout o) d (Group o).
Definition WithGroup (name : string) : EnqueueOption := λ o,
  mkEnqueueOptions (Queue o) (MaxRetry o) (Deadline o) (ProcessIn o) (ProcessAt o) (Unique o)
    (TaskTimeout o) (Retention o) name.

(** [for _, fn := range opts { fn(o) }] from the zero options. *)
Definition apply_opts (opts : list EnqueueOption) : EnqueueOptions :=
  foldl (λ o fn, fn o) no_options opts.

(** ** asynq *)

Inductive asynqOption : Type :=
| asynq_Queue (name : string) | asynq_MaxRetry (n : Z) | asynq_Deadline (t : Z)
| asynq_ProcessIn (d : Z) | asynq_ProcessAt (t : Z) | asynq_Unique (ttl : Z)
| asynq_Timeout (d : Z) | asynq_Retention (d : Z) | asynq_Group (name : string).

(** [asynq.RedisClientOpt] and [asynq.Config]. *)
Record RedisClientOpt : Type := mkRedisClientOpt {
  ao_Addr : string; ao_Password : string; ao_DB : Z; ao_Username : string; ao_TLSConfig : option nat }.

Record asynqTask : Type := mkAsynqTask { task_Type : string; task_Payload : string }.

Record asynqConfig : Type := mkAsynqConfig {
  ac_Concurrency : Z; ac_Queues : list (string * Z); ac_StrictPriority : bool;
  ac_ShutdownTimeout : Z; ac_RetryDelayFunc : option (Z → error → asynqTask → Z) }.

(** [asynq.TaskInfo], its [State] with its text. *)
Record asynqInfo : Type := mkAsynqInfo {
  ai_ID : string; ai_Type : string; ai_Queue : string; ai_State : Z; ai_NextProcessAt : option Z;
  ai_Retention : Z; ai_CompletedAt : option Z; ai_Result : string; ai_LastErr : string;
  ai_LastFailedAt : option Z }.

Record asynq (S : Type) : Type := mkAsynq {
  aq_Enqueue : asynqTask → list asynqOption → M S (asynqInfo + error);
  aq_EnqueueContext : Context → asynqTask → list asynqOption → M S (asynqInfo + error);
  aq_Close : M S (option error);
  aq_State_String : Z → string;
  srv_Start : M S (option error);
  srv_Shutdown : Z → Signal;       (* when a Shutdown begun at an instant is done *)
  srv_Stop : M S unit
}.
Arguments mkAsynq {S}.
Arguments aq_Enqueue {S}.
Arguments aq_EnqueueContext {S}.
Arguments aq_Close {S}.
Arguments aq_State_String {S}.
Arguments srv_Start {S}.
Arguments srv_Shutdown {S}.
Arguments srv_Stop {S}.

(** ** Mapping to asynq *)

Definition RedisConfig_toAsynqOpt (rc : RedisConfig) : RedisClientOpt :=
  mkRedisClientOpt (rc_Addr rc) (rc_Password rc) (rc_DB rc) (rc_Username rc) (rc_TLSConfig rc).

Definition toAsynqConfig (sc : ServerConfig) : asynqConfig :=
  mkAsynqConfig (Concurrency sc) (Queues sc) (StrictPriority sc)
    (if (ShutdownTimeout sc >? 0)%Z then ShutdownTimeout sc else 0)
    ((λ f n err (t : asynqTask), f n err (mkTask (task_Type t) (task_Payload t)))
       <$> RetryDelayFunc sc).

Definition toAsynqOpts (opts : list EnqueueOption) : list asynqOption :=
  let o := apply_opts opts in
  (if String.eqb (Queue o) "" then [] else [asynq_Queue (Queue o)]) ++
  match MaxRetry o with Some n => [asynq_MaxRetry n] | None => [] end ++
  match Deadline o with Some t => [asynq_Deadline t] | None => [] end ++
  (if (ProcessIn o >? 0)%Z then [asynq_ProcessIn (ProcessIn o)] else []) ++
  match ProcessAt o with Some t => [asynq_ProcessAt t] | None => [] end ++
  (if (Unique o >? 0)%Z then [asynq_Unique (Unique o)] else []) ++
  (if (TaskTimeout o >? 0)%Z then [asynq_Timeout (TaskTimeout o)] else []) ++
  (if (Retention o >? 0)%Z then [asynq_Retention (Retention o)] else []) ++
  (if String.eqb (Group o) "" then [] else [asynq_Group (Group o)]).

(** ** The enqueuer interface *)

Record Enqueuer (S : Type) : Type := mkEnqueuer {
  Enqueue : Task → list EnqueueOption → M S (TaskInfo + error);
  EnqueueContext : Context → Task → list EnqueueOption → M S (TaskInfo + error)
}.
Arguments mkEnqueuer {S}.
Arguments Enqueue {S}.
Arguments EnqueueContext {S}.

(** ** AsynqClient and AsynqServer *)

Section Asynq.
Context {S : Type} (aq : asynq S).

Definition fromAsynqInfo (i : asynqInfo) : TaskInfo :=
  mkTaskInfo (ai_ID i) (ai_Type i) (ai_Queue i) (aq_State_String aq (ai_State i))
    (ai_NextProcessAt i) (ai_Retention i) (ai_CompletedAt i) (ai_Result i) (ai_LastErr i)
    (ai_LastFailedAt i).

(** [Connect] of the client only hands out the closure that closes it. *)
Definition client_connect (ctx : Context) : M S ((Context → M S (option error)) + error) :=
  ret (inl (λ _, aq_Close aq)).

(** [select { case <-c.Ready(): default: }]. *)
Definition is_ready (rd : Signal) (t : Z) : bool :=
  match rd with Some t0 => (t0 <=? t)%Z | None => false end.

Definition AsynqClient_Enqueue (rd : Signal) (task : Task) (opts : list EnqueueOption) :
    M S (TaskInfo + error) :=
  (t <- now ;;
   if is_ready rd t then
     r <- aq_Enqueue aq (mkAsynqTask (Type_ task) (Payload task)) (toAsynqOpts opts) ;;
     match r with
     | inr e => ret (inr e)
     | inl i => ret (inl (fromAsynqInfo i))
     end
   else ret (inr (ErrorString "client not ready")))%go.

Definition AsynqClient_EnqueueContext (rd : Signal) (ctx : Context) (task : Task)
    (opts : list EnqueueOption) : M S (TaskInfo + error) :=
  (err <- WaitReady ctx rd ;;
   match err with
   | Some e => ret (inr (Errorf_w "client not ready: " e))
   | None =>
       r <- aq_EnqueueContext aq ctx (mkAsynqTask (Type_ task) (Payload task)) (toAsynqOpts opts) ;;
       match r with
       | inr e => ret (inr e)
       | inl i => ret (inl (fromAsynqInfo i))
       end
   end)%go.

Definition asynq_enqueuer (rd : Signal) : Enqueuer S :=
  mkEnqueuer (AsynqClient_Enqueue rd) (AsynqClient_EnqueueContext rd).

(** The stop closure of the server: [Shutdown] in a goroutine against the
    shutdown context, and [Stop] when the context wins. *)
Definition server_stop (shutdownCtx : Context) : M S (option error) :=
  (t <- now ;;
   b <- select2 (srv_Shutdown aq t) (Done shutdownCtx) ;;
   if (b : bool) then ret None
   else
     _ <- srv_Stop aq ;;
     e <- ctx_Err shutdownCtx ;;
     ret (Errorf_w "asynq server shutdown timed out: " <$> e))%go.

Definition server_connect (ctx : Context) : M S ((Context → M S (option error)) + error) :=
  (err <- srv_Start aq ;;
   match err with
   | Some e => ret (inr (Errorf_w "failed to start asynq server: " e))
   | None => ret (inl server_stop)
   end)%go.

(** What [HandleFunc] registers on asynq's mux for a handler. *)
Definition HandleFunc (handler : TaskHandler S) : Context → asynqTask → M S (option error) :=
  λ ctx t, handler ctx (mkTask (task_Type t) (task_Payload t)).
End Asynq.

(** Readiness of both is that of the lifecycle. *)
Definition asynqHealthChecks (name : string) (rd : Signal) : list Check :=
  StandardChecks name (λ ctx t,
    match WaitReady ctx rd (mkWorld t [] tt) with
    | (Ret e, w) => Ret (clock w, e)
    | (Panic m, _) => Panic m
    | (Block, _) => Block
    end).

(** What the constructors fix, without the [Lifecycle]s: the Redis and the server
    options handed to asynq, and the handlers registered on its mux, in order. *)
Record AsynqClient : Type := mkAsynqClient { client_name : string; client_redis : RedisClientOpt }.

Definition NewAsynqClient (name : string) (redisCfg : RedisConfig) : AsynqClient :=
  mkAsynqClient name (RedisConfig_toAsynqOpt redisCfg).

Definition AsynqClient_HealthChecks (c : AsynqClient) (rd : Signal) : list Check :=
  asynqHealthChecks (client_name c) rd.

Record AsynqServer (S : Type) : Type := mkAsynqServer {
  server_name : string; server_redis : RedisClientOpt; server_config : asynqConfig;
  Mux : list (string * (Context → asynqTask → M S (option error))) }.
Arguments mkAsynqServer {S}.
Arguments server_name {S}.
Arguments server_redis {S}.
Arguments server_config {S}.
Arguments Mux {S}.

Definition NewAsynqServer {S} (name : string) (redisCfg : RedisConfig) (cfg : ServerConfig) : AsynqServer S :=
  mkAsynqServer name (RedisConfig_toAsynqOpt redisCfg) (toAsynqConfig cfg) [].

Definition AsynqServer_HandleFunc {S} (pattern : string) (handler : TaskHandler S) (s : AsynqServer S) :
    AsynqServer S :=
  mkAsynqServer (server_name s) (server_redis s) (server_config s) (Mux s ++ [(pattern, HandleFunc handler)]).

Definition AsynqServer_HealthChecks {S} (s : AsynqServer S) (rd : Signal) : list Check :=
  asynqHealthChecks (server_name s) rd.

(** ** memqueue *)

Record EnqueuedTask : Type := mkEnqueuedTask {
  et_Task : Task; et_Options : EnqueueOptions; et_EnqueuedAt : Z }.

Record InMemoryClient : Type := mkInMemoryClient { tasks : list EnqueuedTask }.

Definition mem_New : InMemoryClient := mkInMemoryClient [].

Definition Tasks : M InMemoryClient (list EnqueuedTask) :=
  (c <- mget ;; ret (tasks c))%go.

Definition Reset : M InMemoryClient unit := mput (mkInMemoryClient []).

Definition mem_enqueue (task : Task) (opts : EnqueueOptions) : M InMemoryClient TaskInfo :=
  (c <- mget ;;
   t <- now ;;
   let c' := mkInMemoryClient (tasks c ++ [mkEnqueuedTask task opts t]) in
   _ <- mput c' ;;
   ret (mkTaskInfo ("mem-" +:+ sprint_d (Z.of_nat (length (tasks c')))) (Type_ task) "" "pending"
          None 0 None "" "" None))%go.

Definition mem_Enqueue (task : Task) (opts : list EnqueueOption) :
    M InMemoryClient (TaskInfo + error) :=
  (i <- mem_enqueue task (apply_opts opts) ;; ret (inl i))%go.

Definition mem_EnqueueContext (ctx : Context) (task : Task) (opts : list EnqueueOption) :
    M InMemoryClient (TaskInfo + error) :=
  (e <- ctx_Err ctx ;;
   match e with
   | Some e' => ret (inr e')
   | None => i <- mem_enqueue task (apply_opts opts) ;; ret (inl i)
   end)%go.

Definition mem_enqueuer : Enqueuer InMemoryClient := mkEnqueuer mem_Enqueue mem_EnqueueContext.

(** ** Options: the last one wins *)

(** The options of the package, as data. *)
Inductive enqueue_option : Type :=
| E_Queue (n : string) | E_MaxRetry (n : Z) | E_Deadline (t : option Z)
| E_ProcessIn (d : Z) | E_ProcessAt (t : option Z) | E_Unique (d : Z)
| E_Timeout (d : Z) | E_Retention (d : Z) | E_Group (n : string).

Definition eval_option (o : enqueue_option) : EnqueueOptions → EnqueueOptions :=
  match o with
  | E_Queue n => WithQueue n | E_MaxRetry n => WithMaxRetry n | E_Deadline t => WithDeadline t
  | E_ProcessIn d => WithProcessIn d | E_ProcessAt t => WithProcessAt t | E_Unique d => WithUnique d
  | E_Timeout d => WithTaskTimeout d | E_Retention d => WithRetention d | E_Group n => WithGroup n
  end.

(** What the options say about one setting; [ProcessIn] and [ProcessAt] are one
    setting, the schedule. *)
Definition queue_of o := match o with E_Queue n => Some n | _ => None end.
Definition retry_of o := match o with E_MaxRetry n => Some n | _ => None end.
Definition deadline_of o := match o with E_Deadline t => Some t | _ => None end.
Definition schedule_of o : option (Z + option Z) :=
  match o with E_ProcessIn d => Some (inl d) | E_ProcessAt t => Some (inr t) | _ => None end.
Definition unique_of o := match o with E_Unique d => Some d | _ => None end.
Definition timeout_of o := match o with E_Timeout d => Some d | _ => None end.
Definition retention_of o := match o with E_Retention d => Some d | _ => None end.
Definition group_of o := match o with E_Group n => Some n | _ => None end.

(** The asynq option of the last setting. *)
Definition from_last {X} (f : enqueue_option → option X) (g : X → list asynqOption)
    (opts : list enqueue_option) : list asynqOption :=
  match last (omap f opts) with Some x => g x | None => [] end.

Definition named (g : string → asynqOption) (n : string) : list asynqOption :=
  if String.eqb n "" then [] else [g n].
Definition positive_d (g : Z → asynqOption) (d : Z) : list asynqOption :=
  if (d >? 0)%Z then [g d] else [].
Definition at_time (g : Z → asynqOption) (t : option Z) : list asynqOption :=
  match t with Some t' => [g t'] | None => [] end.

(** One setting of the evaluated options is that of the last option for it. *)
Lemma apply_last {X Y} (field : EnqueueOptions → Y) (f : enqueue_option → option X) (h : X → Y) opts :
  (∀ o e, field (eval_option o e) = match f o with Some x => h x | None => field e end) →
  field (apply_opts (map eval_option opts)) =
  match last (omap f opts) with Some x => h x | None => field no_options end.
Proof.
  intros Hf. unfold apply_opts. induction opts as [|o opts IH] using rev_ind; [done|].
  rewrite map_app, foldl_app, omap_app. simpl. rewrite Hf. destruct (f o) as [x|].
  - by rewrite last_snoc.
  - by rewrite app_nil_r.
Qed.

(** Enqueue options. However the options of an [Enqueue] are combined, what is
    handed to asynq is, for each setting in a fixed order, the option of the last
    one given for it, and none if that one is empty, zero or not positive; a delay
    and an absolute time are one setting, so that asynq never gets both. *)
Theorem toAsynqOpts_last_wins opts :
  toAsynqOpts (map eval_option opts) =
  from_last queue_of (named asynq_Queue) opts ++
  from_last retry_of (λ n, [asynq_MaxRetry n]) opts ++
  from_last deadline_of (at_time asynq_Deadline) opts ++
  from_last schedule_of (λ s, match s with
     | inl d => positive_d asynq_ProcessIn d
     | inr t => at_time asynq_ProcessAt t end) opts ++
  from_last unique_of (positive_d asynq_Unique) opts ++
  from_last timeout_of (positive_d asynq_Timeout) opts ++
  from_last retention_of (positive_d asynq_Retention) opts ++
  from_last group_of (named asynq_Group) opts.
Proof.
  unfold toAsynqOpts, from_last.
  rewrite (apply_last Queue queue_of id), (apply_last MaxRetry retry_of Some),
    (apply_last Deadline deadline_of id), (apply_last Unique unique_of id),
    (apply_last TaskTimeout timeout_of id), (apply_last Retention retention_of id),
    (apply_last Group group_of id),
    (apply_last ProcessIn schedule_of (λ s, match s with inl d => d | inr _ => 0%Z end)),
    (apply_last ProcessAt schedule_of (λ s, match s with inl _ => None | inr t => t end))
    by (by intros []).
  f_equal; [by destruct (last (omap queue_of opts))|].
  f_equal; [by destruct (last (omap retry_of opts))|].
  f_equal; [by destruct (last (omap deadline_of opts))|].
  rewrite app_assoc. f_equal.
  { destruct (last (omap schedule_of opts)) as [[d|t]|]; simpl; by rewrite ?app_nil_r. }
  f_equal; [by destruct (last (omap unique_of opts))|].
  f_equal; [by destruct (last (omap timeout_of opts))|].
  f_equal; [by destruct (last (omap retention_of opts))|].
  by destruct (last (omap group_of opts)).
Qed.

(** ** What an enqueuer promises

    [log] is the tasks accepted so far with their evaluated options. A call for
    which [usable] holds returns; if it succeeds the task has been accepted, once,
    under its type; if it fails, at most once. *)
Class EnqueuerLaws {S O : Type} (e : Enqueuer S) (usable : Context → Prop)
    (eval : list (EnqueueOptions → EnqueueOptions) → O) (log : S → list (Task * O)) : Prop := {
  law_Enqueue task opts w :
    ∃ r w', Enqueue e task opts w = (Ret r, w') ∧
      match r with
      | inl i => ti_Type i = Type_ task ∧ log (heap w') = log (heap w) ++ [(task, eval opts)]
      | inr _ => log (heap w') = log (heap w) ∨ log (heap w') = log (heap w) ++ [(task, eval opts)]
      end;
  law_EnqueueContext ctx task opts w : usable ctx →
    ∃ r w', EnqueueContext e ctx task opts w = (Ret r, w') ∧
      match r with
      | inl i => ti_Type i = Type_ task ∧ log (heap w') = log (heap w) ++ [(task, eval opts)]
      | inr _ => log (heap w') = log (heap w) ∨ log (heap w') = log (heap w) ++ [(task, eval opts)]
      end
}.

Definition mem_log (c : InMemoryClient) : list (Task * EnqueueOptions) :=
  map (λ t, (et_Task t, et_Options t)) (tasks c).

Lemma mem_enqueue_log task o w :
  ∃ i w', mem_enqueue task o w = (Ret i, w') ∧ ti_Type i = Type_ task ∧
    mem_log (heap w') = mem_log (heap w) ++ [(task, o)].
Proof.
  unfold mem_enqueue, bind, mget, now, mput, ret. cbv beta iota zeta.
  eexists _, _. split_and!; [reflexivity|done|]. unfold mem_log. simpl. by rewrite map_app.
Qed.

#[global] Instance mem_enqueuer_laws :
  EnqueuerLaws mem_enqueuer (λ _, True) apply_opts mem_log.
Proof.
  split.
  - intros task opts w. destruct (mem_enqueue_log task (apply_opts opts) w) as (i & w' & Hi & ? & ?).
    simpl. unfold mem_Enqueue. run Hi. by eexists _, w'.
  - intros ctx task opts w _. simpl. unfold mem_EnqueueContext.
    rewrite (bind_Ret (ctx_Err ctx) _ w _ _ eq_refl). destruct (Err_at ctx (clock w)).
    { eexists _, w. split; [reflexivity|]. by left. }
    destruct (mem_enqueue_log task (apply_opts opts) w) as (i & w' & Hi & ? & ?).
    run Hi. by eexists _, w'.
Qed.

(** The client of asynq: the same of its own tasks and options. *)
Class AsynqLaws {S : Type} (aq : asynq S) (alog : S → list (asynqTask * list asynqOption)) : Prop := {
  asynq_law_enqueue t opts w :
    ∃ r w', aq_Enqueue aq t opts w = (Ret r, w') ∧
      match r with
      | inl i => ai_Type i = task_Type t ∧ alog (heap w') = alog (heap w) ++ [(t, opts)]
      | inr _ => alog (heap w') = alog (heap w) ∨ alog (heap w') = alog (heap w) ++ [(t, opts)]
      end;
  asynq_law_enqueue_ctx ctx t opts w :
    ∃ r w', aq_EnqueueContext aq ctx t opts w = (Ret r, w') ∧
      match r with
      | inl i => ai_Type i = task_Type t ∧ alog (heap w') = alog (heap w) ++ [(t, opts)]
      | inr _ => alog (heap w') = alog (heap w) ∨ alog (heap w') = alog (heap w) ++ [(t, opts)]
      end
}.

(** The tasks as the framework sees them. *)
Definition framework_log {O} (l : list (asynqTask * O)) : list (Task * O) :=
  map (λ x, (mkTask (task_Type x.1) (task_Payload x.1), x.2)) l.

#[global] Instance asynq_enqueuer_laws {S} (aq : asynq S) alog rd `{!AsynqLaws aq alog} :
  EnqueuerLaws (asynq_enqueuer aq rd) (λ ctx, rd ≠ None ∨ ctx_done ctx ≠ None) toAsynqOpts
    (λ s, framework_log (alog s)).
Proof.
  unfold framework_log. split.
  - intros [ty pl] opts w. simpl. unfold AsynqClient_Enqueue.
    rewrite (bind_Ret now _ w _ _ eq_refl). destruct (is_ready rd (clock w)).
    2:{ eexists _, w. split; [reflexivity|]. by left. }
    destruct (asynq_law_enqueue (mkAsynqTask ty pl) (toAsynqOpts opts) w) as (r & w' & Hr & Hl).
    simpl. run Hr.
    destruct r as [i|e]; (eexists _, w'; split; [reflexivity|]); simpl in *.
    + destruct Hl as [? ->]. by rewrite map_app.
    + destruct Hl as [->| ->]; [by left|right; by rewrite map_app].
  - intros ctx [ty pl] opts w Hu. simpl. unfold AsynqClient_EnqueueContext.
    destruct (WaitReady_returns ctx rd w) as (r & w1 & Hw & Hh); [intros ->; by destruct Hu|].
    run Hw. rewrite <-Hh. destruct r as [e|].
    { eexists _, w1. split; [reflexivity|]. by left. }
    destruct (asynq_law_enqueue_ctx ctx (mkAsynqTask ty pl) (toAsynqOpts opts) w1) as (r & w' & Hr & Hl).
    simpl. run Hr.
    destruct r as [i|e]; (eexists _, w'; split; [reflexivity|]); simpl in *.
    + destruct Hl as [? ->]. by rewrite map_app.
    + destruct Hl as [->| ->]; [by left|right; by rewrite map_app].
Qed.

(** ** A sample asynq: accepts everything and keeps a log *)
Definition sample_asynq : asynq (list (asynqTask * list asynqOption)) :=
  let enq t opts := (_ <- mmodify (λ l, l ++ [(t, opts)]) ;;
                     ret (inl (mkAsynqInfo "1" (task_Type t) "default" 1 None 0 None "" "" None)))%go in
  mkAsynq enq (λ _, enq) (ret None) (λ _, "pending") (ret None)
    (λ t, Some (t + 10 * Second)%Z) (ret tt).

#[global] Instance sample_asynq_laws : AsynqLaws sample_asynq id.
Proof.
  split.
  - intros t opts w. by eexists _, _.
  - intros ctx t opts w. by eexists _, _.
Qed.

(** ** Theorems *)

(** C40. The client's gate. Before the client is ready, [Enqueue] fails at once, and
    [EnqueueContext] fails when the context ends, with its error; neither reaches
    asynq. Once it is ready, and whenever the context ends eventually,
    [EnqueueContext] returns, and if it succeeds asynq has accepted exactly one
    more task, with the type, payload and options given. *)
Theorem asynq_client_gate {S} (aq : asynq S) alog rd ctx task opts w :
  AsynqLaws aq alog →
  let e := asynq_enqueuer aq rd in
  (is_ready rd (clock w) = false →
     Enqueue e task opts w = (Ret (inr (ErrorString "client not ready")), w)) ∧
  (∀ d err, ctx_done ctx = Some (d, err) →
     match rd with Some t => (Z.max (clock w) d < t)%Z | None => True end →
     EnqueueContext e ctx task opts w =
       (Ret (inr (Errorf_w "client not ready: " err)), advance_to d w)) ∧
  (rd ≠ None ∨ ctx_done ctx ≠ None →
     ∃ r w', EnqueueContext e ctx task opts w = (Ret r, w') ∧
       ∀ i, r = inl i → ti_Type i = Type_ task ∧
         framework_log (alog (heap w')) =
         framework_log (alog (heap w)) ++ [(task, toAsynqOpts opts)]).
Proof.
  intros AL e. split_and!.
  - intros Hn. simpl. unfold AsynqClient_Enqueue. rewrite (bind_Ret now _ w _ _ eq_refl).
    by rewrite Hn.
  - intros d err Hd Hr. simpl. unfold AsynqClient_EnqueueContext.
    by run (WaitReady_too_late ctx rd w d err Hd Hr).
  - intros Hu. destruct (law_EnqueueContext (EnqueuerLaws := asynq_enqueuer_laws aq alog rd)
      ctx task opts w Hu) as (r & w' & Hr & Hl).
    exists r, w'. split; [done|]. intros i ->. done.
Qed.

Lemma asynq_client_gate_witness :
  ∃ r w', EnqueueContext (asynq_enqueuer sample_asynq (Some 5%Z)) Background
            (mkTask "order:created" "42") [WithMaxRetry 3] (mkWorld 0 [] []) = (Ret r, w') ∧
    ∀ i, r = inl i → ti_Type i = "order:created" ∧
      framework_log (heap w') = framework_log [] ++
        [(mkTask "order:created" "42", toAsynqOpts [WithMaxRetry 3])].
Proof.
  apply (asynq_client_gate sample_asynq id (Some 5%Z) Background (mkTask "order:created" "42")
    [WithMaxRetry 3] (mkWorld 0 [] [])).
  - apply sample_asynq_laws.
  - left. discriminate.
Defined.

(** Stopping the worker server keeps the runner's contract. If forcing asynq to
    stop is immediate, the stop closure returns by the time its context is done,
    however long asynq's own shutdown would take: with nil exactly when that
    shutdown was over first, and otherwise with the context's error, after forcing
    the stop. *)
Theorem server_stop_bounded {S} (aq : asynq S) name ready checks :
  (∀ w, ∃ w', srv_Stop aq w = (Ret tt, w') ∧ clock w' = clock w) →
  stop_respects (mkComponent name (server_stop aq) ready checks) ∧
  (∀ ctx w r w', server_stop aq ctx w = (Ret r, w') →
     match r with
     | None => ∃ t, srv_Shutdown aq (clock w) = Some t ∧ clock w' = Z.max (clock w) t ∧ heap w' = heap w
     | Some err => ∃ e w1, Err_at ctx (clock w') = Some e ∧ (∀ t, errors_Is err t = errors_Is e t) ∧
         heap w1 = heap w ∧ srv_Stop aq w1 = (Ret tt, w')
     end).
Proof.
  intros Hstop. split.
  - intros ctx w d e Hd. simpl. unfold server_stop. rewrite (bind_Ret now _ w _ _ eq_refl).
    destruct (select2_returns (srv_Shutdown aq (clock w)) (Done ctx) w) as (b & w1 & Hs).
    { right. unfold Done. by rewrite Hd. }
    run Hs.
    apply select2_cases in Hs as (_ & Hm & t & Ht & Hck & Ho). unfold Done in *. rewrite Hd in *.
    destruct b; simplify_eq/=.
    + eexists _, w1. split; [reflexivity|lia].
    + destruct (Hstop w1) as (w2 & Hw2 & Hc2). run Hw2.
      eexists _, w2. split; [reflexivity|lia].
  - intros ctx w r w' H. unfold server_stop in H. rewrite (bind_Ret now _ w _ _ eq_refl) in H.
    apply bind_Ret_inv in H as (b & w1 & Hs & H).
    apply select2_cases in Hs as (Hh & Hm & t & Ht & Hck & Ho). destruct b.
    + injection H as <- <-. exists t. by rewrite Hck.
    + destruct (Hstop w1) as (w2 & Hw2 & Hc2). run Hw2 in H.
      unfold Done in Ht. destruct (ctx_done ctx) as [[d e]|] eqn:Hd; [|done]. injection Ht as ->.
      assert (Err_at ctx (clock w2) = Some e) as He.
      { unfold Err_at. rewrite Hd, Hc2. by destruct (Z.leb_spec t (clock w1)); [|lia]. }
      unfold bind, ctx_Err in H. rewrite He in H. injection H as <- <-.
      exists e, w1. split_and!; try done. intros t'. by autorewrite with go_errors.
Qed.

Lemma server_stop_bounded_witness :
  stop_respects (mkComponent "worker" (server_stop sample_asynq) true None).
Proof.
  apply (server_stop_bounded sample_asynq "worker" true None). intros w. by eexists.
Defined.

(** Enqueueing a list of tasks, one after the other. *)
Fixpoint enqueue_all {S} (e : Enqueuer S) (l : list (Task * list enqueue_option)) :
    M S (list (TaskInfo + error)) :=
  match l with
  | [] => ret []
  | (t, opts) :: l' =>
      (r <- Enqueue e t (map eval_option opts) ;;
       rs <- enqueue_all e l' ;;
       ret (r :: rs))%go
  end.

Definition mem_id (n : nat) : string := "mem-" +:+ sprint_d (Z.of_nat n).

#[global] Instance mem_id_inj : Inj (=) (=) mem_id.
Proof.
  intros n m H. unfold mem_id, sprint_d in H. apply (inj (String.append "mem-")) in H.
  apply (inj (pretty (A := Z))) in H. lia.
Qed.

Definition mem_info (n : nat) (t : Task) : TaskInfo :=
  mkTaskInfo (mem_id n) (Type_ t) "" "pending" None 0 None "" "" None.

Lemma mem_enqueue_all l w :
  ∃ infos w', enqueue_all mem_enqueuer l w = (Ret (map inl infos), w') ∧
    infos = imap (λ i x, mem_info (length (tasks (heap w)) + i + 1) x.1) l ∧
    mem_log (heap w') = mem_log (heap w) ++ map (λ x, (x.1, apply_opts (map eval_option x.2))) l.
Proof.
  revert w. induction l as [|[t opts] l IH]; intros w; simpl.
  { exists [], w. by rewrite app_nil_r. }
  set (w1 := mkWorld (clock w) (coins w) (mkInMemoryClient (tasks (heap w) ++
    [mkEnqueuedTask t (apply_opts (map eval_option opts)) (clock w)]))).
  assert (mem_Enqueue t (map eval_option opts) w =
    (Ret (inl (mem_info (length (tasks (heap w)) + 0 + 1) t)), w1)) as Hr.
  { unfold mem_Enqueue, mem_enqueue, bind, mget, now, mput, ret, mem_info, mem_id. cbv beta iota zeta.
    cbn [heap tasks]. rewrite length_app. cbn [length]. by rewrite Nat.add_0_r. }
  run Hr. destruct (IH w1) as (infos & w' & Hrun & Hinfos & Hlog).
  run Hrun.
  exists (mem_info (length (tasks (heap w)) + 0 + 1) t :: infos), w'. split_and!; [reflexivity| |].
  - f_equal. rewrite Hinfos. apply imap_ext. intros i x _. simpl. rewrite length_app. simpl.
    f_equal. lia.
  - rewrite Hlog. unfold w1, mem_log. simpl. by rewrite map_app, <-app_assoc.
Qed.

(** The in-memory queue. Enqueueing any tasks on a fresh [InMemoryClient] always
    succeeds; [Tasks] then returns exactly those tasks, in order, each with its
    options evaluated; the ids handed out are pairwise different; and [Reset]
    forgets them all. *)
Theorem memqueue_in_order l t0 cs :
  ∃ infos w', enqueue_all mem_enqueuer l (mkWorld t0 cs mem_New) = (Ret (map inl infos), w') ∧
    map ti_Type infos = map (λ x, Type_ x.1) l ∧ NoDup (map ti_ID infos) ∧
    (∃ ts, Tasks w' = (Ret ts, w') ∧
       map (λ x, (et_Task x, et_Options x)) ts =
       map (λ x, (x.1, apply_opts (map eval_option x.2))) l) ∧
    (∃ w2, Reset w' = (Ret tt, w2) ∧ Tasks w2 = (Ret [], w2)).
Proof.
  destruct (mem_enqueue_all l (mkWorld t0 cs mem_New)) as (infos & w' & Hrun & Hinfos & Hlog).
  exists infos, w'. split; [done|]. simpl in *. split_and!.
  - subst infos. apply list_eq. intros i. rewrite !list_lookup_fmap, list_lookup_imap.
    by destruct (l !! i).
  - subst infos. apply NoDup_alt. intros i j x Hi Hj.
    rewrite list_lookup_fmap, list_lookup_imap in Hi. rewrite list_lookup_fmap, list_lookup_imap in Hj.
    destruct (l !! i), (l !! j); simplify_eq/=; lia.
  - by eexists.
  - by eexists.
Qed.
