(* ===== verification/Strconv.v ===== *)
(** * strconv.ParseInt and the decimal text of integers

    [strconv.ParseInt(s, 10, 64)], which reads path parameters and JSON numbers, and
    that it reads back what formatting an int64 in decimal writes. *)

From stdpp Require Import base list strings pretty.
From Stdlib Require Import ZArith Lia Ascii.
From S2P Require Import Prelude.

(** [strconv.ParseInt(s, 10, 64)]: an optional sign and decimal digits, in the
    range of int64. *)
Definition digit_of (c : Ascii.ascii) : option Z :=
  let n := Z.of_nat (Ascii.nat_of_ascii c) in
  if (48 <=? n)%Z && (n <=? 57)%Z then Some (n - 48)%Z else None.

Fixpoint digits (acc : Z) (s : string) : option Z :=
  match s with
  | EmptyString => Some acc
  | String c s' => match digit_of c with Some n => digits (10 * acc + n) s' | None => None end
  end.

Definition ParseInt (s : string) : option Z :=
  let in_range z := if (min_int64 <=? z)%Z && (z <=? max_int64)%Z then Some z else None in
  match s with
  | EmptyString => None
  | String c s' =>
      if Ascii.eqb c "-" then
        match s' with EmptyString => None | _ => digits 0 s' ≫= λ z, in_range (- z)%Z end
      else if Ascii.eqb c "+" then
        match s' with EmptyString => None | _ => digits 0 s' ≫= in_range end
      else digits 0 s ≫= in_range
  end.

Lemma digits_char n a s : (n < 10)%N →
  digits a (String (pretty_N_char n) s) = digits (10 * a + Z.of_N n) s.
Proof.
  intros Hn. assert (n = 0 ∨ n = 1 ∨ n = 2 ∨ n = 3 ∨ n = 4 ∨ n = 5 ∨ n = 6 ∨ n = 7 ∨ n = 8 ∨ n = 9)%N as H
    by lia.
  by destruct_or! H; subst.
Qed.

Lemma digits_pretty_N_go n s : digits 0 (pretty_N_go n s) = digits (Z.of_N n) s.
Proof.
  revert s. induction (N.lt_wf_0 n) as [n _ IH]; intros s.
  destruct (decide (n = 0)%N) as [->|Hn]; [done|].
  rewrite pretty_N_go_step by lia. rewrite IH by (apply N.div_lt; lia).
  rewrite digits_char by (apply N.mod_lt; lia). f_equal.
  pose proof (N.div_mod' n 10). lia.
Qed.

Lemma digits_pretty_N n : digits 0 (pretty n) = Some (Z.of_N n).
Proof.
  unfold pretty, pretty_N. destruct (decide (n = 0)%N) as [->|]; [done|]. by rewrite digits_pretty_N_go.
Qed.

(** A decimal numeral has a digit first, so it is not read as signed. *)
Lemma ParseInt_unsigned s z :
  digits 0 s = Some z → s ≠ "" → in_int64 z → ParseInt s = Some z.
Proof.
  intros Hd Hs [Hlo Hhi]. destruct s as [|c s]; [done|]. unfold ParseInt.
  apply Z.leb_le in Hlo, Hhi.
  destruct (Ascii.eqb_spec c "-") as [->|_]; [done|].
  destruct (Ascii.eqb_spec c "+") as [->|_]; [done|].
  rewrite Hd. simpl. by rewrite Hlo, Hhi.
Qed.

Lemma pretty_N_nonempty (n : N) : pretty n ≠ "".
Proof.
  intros H. pose proof (digits_pretty_N n) as Hd. rewrite H in Hd. injection Hd as Hd.
  assert (n = 0%N) as -> by lia. done.
Qed.

Lemma ParseInt_sprint z : in_int64 z → ParseInt (sprint_d z) = Some z.
Proof.
  intros Hz. unfold sprint_d, pretty, pretty_Z. destruct z as [|n|n]; [done|..].
  - apply ParseInt_unsigned; [apply (digits_pretty_N (Npos n))|apply (pretty_N_nonempty (Npos n))|done].
  - pose proof (digits_pretty_N (Npos n)) as Hd. pose proof (pretty_N_nonempty (Npos n)) as Hn.
    destruct Hz as [Hlo Hhi]. apply Z.leb_le in Hlo, Hhi.
    change (ParseInt (String "-" (pretty (Npos n))) = Some (Z.neg n)). unfold ParseInt.
    rewrite Ascii.eqb_refl. destruct (pretty (Npos n)) as [|c s]; [done|]. rewrite Hd.
    cbn [mbind option_bind]. change (- Z.of_N (Npos n))%Z with (Z.neg n). by rewrite Hlo, Hhi.
Qed.

Lemma ParseInt_range s z : ParseInt s = Some z → in_int64 z.
Proof.
  unfold ParseInt. destruct s as [|c s]; [done|].
  repeat case_match; intros Hz; try done;
    apply bind_Some in Hz as (j & _ & Hz); case_match eqn:Hb; simplify_eq;
    apply andb_true_iff in Hb as [?%Z.leb_le ?%Z.leb_le]; by split.
Qed.
