(* ===== verification/Utf8.v ===== *)
(** * UTF-8, as unicode/utf8 decodes it

    A Go string is a sequence of bytes. [chunks] splits it the way
    [utf8.DecodeRune] does: well-formed encodings of one code point each, and
    single bytes that belong to none. [sanitize] replaces the latter by U+FFFD. *)

From stdpp Require Import base list strings.
From Stdlib Require Import Arith Lia Ascii NArith.
From S2P Require Import Prelude.

Definition byte_in (lo hi : nat) (c : ascii) : bool :=
  (lo <=? nat_of_ascii c) && (nat_of_ascii c <=? hi).

Definition ascii_byte : ascii → bool := byte_in 0 127.
Definition continuation : ascii → bool := byte_in 128 191.

(** The leading bytes: of two-byte encodings; of three-byte encodings with their
    second byte (neither overlong nor a surrogate); of four-byte encodings with
    their second byte (neither overlong nor above U+10FFFF). *)
Definition lead2 : ascii → bool := byte_in 194 223.

Definition lead3 (a b : ascii) : bool :=
  byte_in 224 224 a && byte_in 160 191 b || byte_in 225 236 a && continuation b ||
  byte_in 237 237 a && byte_in 128 159 b || byte_in 238 239 a && continuation b.

Definition lead4 (a b : ascii) : bool :=
  byte_in 240 240 a && byte_in 144 191 b || byte_in 241 243 a && continuation b ||
  byte_in 244 244 a && byte_in 128 143 b.

(** The encoding of one code point. *)
Definition is_rune (k : string) : bool :=
  match k with
  | String a "" => ascii_byte a
  | String a (String b "") => lead2 a && continuation b
  | String a (String b (String c "")) => lead3 a b && continuation c
  | String a (String b (String c (String d ""))) => lead4 a b && continuation c && continuation d
  | _ => false
  end.

Fixpoint chunks (s : string) : list (option string) :=
  match s with
  | EmptyString => []
  | String a s1 =>
      if ascii_byte a then Some (String a "") :: chunks s1
      else match s1 with
      | String b s2 =>
          if lead2 a && continuation b then Some (String a (String b "")) :: chunks s2
          else match s2 with
          | String c s3 =>
              if lead3 a b && continuation c then Some (String a (String b (String c ""))) :: chunks s3
              else match s3 with
              | String d s4 =>
                  if lead4 a b && continuation c && continuation d
                  then Some (String a (String b (String c (String d "")))) :: chunks s4
                  else None :: chunks s1
              | EmptyString => None :: chunks s1
              end
          | EmptyString => None :: chunks s1
          end
      | EmptyString => None :: chunks s1
      end
  end.

Fixpoint all_bytes (f : ascii → bool) (s : string) : bool :=
  match s with EmptyString => true | String a s' => f a && all_bytes f s' end.

(** U+FFFD. *)
Definition replacement : string := String "239" (String "191" (String "189" "")).

Definition join (ks : list (option string)) : string :=
  foldr (λ k s, default replacement k +:+ s) "" ks.

Definition sanitize (s : string) : string := join (chunks s).

Definition valid_utf8 (s : string) : bool := forallb (λ k, match k with Some _ => true | None => false end) (chunks s).

(** ** Lemmas *)

Lemma byte_in_true lo hi c : byte_in lo hi c = true ↔ lo ≤ nat_of_ascii c ≤ hi.
Proof. unfold byte_in. by rewrite andb_true_iff, !Nat.leb_le. Qed.

Lemma byte_in_false lo hi c : byte_in lo hi c = false ↔ nat_of_ascii c < lo ∨ hi < nat_of_ascii c.
Proof. unfold byte_in. rewrite andb_false_iff, !Nat.leb_gt. lia. Qed.

Lemma rune_lead a b :
  (lead2 a = true → ascii_byte a = false) ∧
  (lead3 a b = true → ascii_byte a = false ∧ lead2 a = false) ∧
  (lead4 a b = true → ascii_byte a = false ∧ lead2 a = false ∧ ∀ c, lead3 a c = false).
Proof.
  assert (lead3 a b = true → 224 ≤ nat_of_ascii a ≤ 239) as H3.
  { intros H. unfold lead3 in H. rewrite !orb_true_iff, !andb_true_iff, !byte_in_true in H. lia. }
  assert (lead4 a b = true → 240 ≤ nat_of_ascii a) as H4.
  { intros H. unfold lead4 in H. rewrite !orb_true_iff, !andb_true_iff, !byte_in_true in H. lia. }
  unfold lead2, ascii_byte. rewrite byte_in_true, !byte_in_false. split_and!; [lia|intros ?%H3; lia|].
  intros ?%H4. split; [lia|]. split; [lia|]. intros c. apply not_true_iff_false. intros Hc.
  unfold lead3 in Hc. rewrite !orb_true_iff, !andb_true_iff, !byte_in_true in Hc. lia.
Qed.

Lemma chunks_rune k s : is_rune k = true → chunks (k +:+ s) = Some k :: chunks s.
Proof.
  destruct k as [|a [|b [|c [|d [|]]]]]; simpl; try done; intros H.
  - by rewrite H.
  - destruct (rune_lead a b) as (H2 & _). pose proof H as [Ha _]%andb_true_iff.
    by rewrite (H2 Ha), H.
  - destruct (rune_lead a b) as (_ & H3 & _). pose proof H as [Ha _]%andb_true_iff.
    destruct (H3 Ha) as [-> ->]. simpl. by rewrite H.
  - destruct (rune_lead a b) as (_ & _ & H4). pose proof H as [[Ha _]%andb_true_iff _]%andb_true_iff.
    destruct (H4 Ha) as (-> & -> & H3). rewrite H3. simpl. by rewrite H.
Qed.

(** The first chunk of a string. *)
Lemma chunks_view s :
  s = "" ∨ (∃ k s', is_rune k = true ∧ s = k +:+ s' ∧ chunks s = Some k :: chunks s') ∨
  (∃ a s', s = String a s' ∧ chunks s = None :: chunks s').
Proof.
  destruct s as [|a s1]; [by left|right]. simpl.
  destruct (ascii_byte a) eqn:Ha; [left; by exists (String a "")%string, s1|].
  destruct s1 as [|b s2]; [right; eauto|].
  destruct (lead2 a && continuation b) eqn:H2; [left; by exists (String a (String b ""))%string, s2|].
  destruct s2 as [|c s3]; [right; eauto|].
  destruct (lead3 a b && continuation c) eqn:H3; [left; by exists (String a (String b (String c "")))%string, s3|].
  destruct s3 as [|d s4]; [right; eauto|].
  destruct (lead4 a b && continuation c && continuation d) eqn:H4; [|right; eauto].
  left. by exists (String a (String b (String c (String d ""))))%string, s4.
Qed.

Lemma length_append (s t : string) : String.length (s +:+ t) = String.length s + String.length t.
Proof. induction s as [|a s IH]; simpl; [done|]. by rewrite IH. Qed.

Lemma append_assoc (s t u : string) : s +:+ (t +:+ u) = (s +:+ t) +:+ u.
Proof. induction s as [|a s IH]; [done|]. exact (f_equal (String a) IH). Qed.

Lemma append_nil_r (s : string) : s +:+ "" = s.
Proof. induction s as [|a s IH]; [done|]. exact (f_equal (String a) IH). Qed.

Lemma length_rune k s : is_rune k = true → String.length s < String.length (k +:+ s).
Proof. destruct k as [|a k]; [done|]. intros _. simpl. rewrite length_append. lia. Qed.

Lemma chunks_ind (P : string → Prop) :
  P "" → (∀ k s, is_rune k = true → chunks (k +:+ s) = Some k :: chunks s → P s → P (k +:+ s)) →
  (∀ a s, chunks (String a s) = None :: chunks s → P s → P (String a s)) → ∀ s, P s.
Proof.
  intros H0 H1 H2 s. remember (String.length s) as n eqn:Hn. revert s Hn.
  induction (lt_wf n) as [n _ IH]. intros s ->.
  destruct (chunks_view s) as [->|[(k & s' & Hk & -> & Hc)|(a & s' & -> & Hc)]]; [done|..].
  - apply H1; [done|done|]. eapply IH; [|done]. by apply length_rune.
  - apply H2; [done|]. eapply IH; [|done]. simpl. lia.
Qed.

Definition rune_or_bad (k : option string) : Prop := ∀ r, k = Some r → is_rune r = true.

Lemma chunks_runes s : Forall rune_or_bad (chunks s).
Proof.
  induction s as [|k s Hk -> IH|a s -> IH] using chunks_ind; [constructor|..]; constructor; try done.
  by intros r [= <-].
Qed.

Lemma replacement_rune : is_rune replacement = true.
Proof. reflexivity. Qed.

Lemma chunks_join ks :
  Forall rune_or_bad ks → chunks (join ks) = map (λ k, Some (default replacement k)) ks.
Proof.
  induction 1 as [|k ks Hk _ IH]; [done|]. simpl. rewrite chunks_rune; [by rewrite <-IH|].
  destruct k as [r|]; simpl; [by apply Hk|done].
Qed.

Lemma sanitize_valid s : valid_utf8 s = true → sanitize s = s.
Proof.
  unfold valid_utf8, sanitize. induction s as [|k s Hk Hc IH|a s Hc IH] using chunks_ind; [done|..]; rewrite Hc; simpl;
    [|done]. intros Hv. by rewrite IH.
Qed.

(** What [sanitize] gives is well formed, so sanitizing it again changes nothing. *)
Lemma valid_sanitize s : valid_utf8 (sanitize s) = true.
Proof.
  unfold valid_utf8, sanitize. rewrite chunks_join by apply chunks_runes. by induction (chunks s).
Qed.

Lemma sanitize_idem s : sanitize (sanitize s) = sanitize s.
Proof. apply sanitize_valid, valid_sanitize. Qed.

Lemma valid_ascii s : all_bytes ascii_byte s = true → valid_utf8 s = true.
Proof.
  unfold valid_utf8. induction s as [|a s IH]; [done|]. simpl. intros [-> Hs]%andb_true_iff. by apply IH.
Qed.

Example sanitize_e_acute :
  sanitize (String "195" (String "169" "")) = String "195" (String "169" "") ∧
  sanitize (String "195" "a") = replacement +:+ "a".
Proof. by vm_compute. Qed.
