(* ===== verification/Json.v ===== *)
(** * encoding/json: the text of JSON values

    What the code uses of encoding/json. [value] reads a value the way the scanner
    of the package does (strings and numbers by its automata, nesting up to its
    limit), [print] writes it compactly, [escape] and [unquote] are the contents of
    string literals: UTF-8 with invalid bytes replaced, the quote, the backslash,
    control characters, the three characters that are special in HTML and the two
    line separators of JavaScript escaped. *)

From stdpp Require Import base list strings pretty.
From Stdlib Require Import ZArith Lia Ascii.
From S2P Require Import Prelude Strconv Utf8.

(** ** Reading a prefix of the input *)

(** A value and what follows it; text that starts no value; a prefix of a value
    at the end of the input; or no fuel. *)
Inductive parsed (A : Type) : Type :=
| Parsed (a : A) (rest : string) | Invalid | Truncated | Exhausted.
Arguments Parsed {A}.
Arguments Invalid {A}.
Arguments Truncated {A}.
Arguments Exhausted {A}.

Definition pbind {A B} (p : parsed A) (f : A → string → parsed B) : parsed B :=
  match p with
  | Parsed a r => f a r
  | Invalid => Invalid
  | Truncated => Truncated
  | Exhausted => Exhausted
  end.

Definition pmap {A B} (f : A → B) (p : parsed A) : parsed B := pbind p (λ a r, Parsed (f a) r).

Notation "'let?' ( x , r ) := m 'in' k" := (pbind m (λ x r, k))
  (at level 200, x name, r name, m at level 100, k at level 200) : go_scope.

(** The next byte, which must be there. *)
Definition next {A} (s : string) (f : ascii → string → parsed A) : parsed A :=
  match s with EmptyString => Truncated | String c s' => f c s' end.

(** ** String literals: writing *)

Definition hex_digit (n : nat) : ascii :=
  match n with
  | 0 => "0" | 1 => "1" | 2 => "2" | 3 => "3" | 4 => "4" | 5 => "5" | 6 => "6" | 7 => "7"
  | 8 => "8" | 9 => "9" | 10 => "a" | 11 => "b" | 12 => "c" | 13 => "d" | 14 => "e" | _ => "f"
  end%char.

Definition quote_char : ascii := "034"%char.
Definition backslash : ascii := "092"%char.

(** The two-character escapes: the letter after the backslash. *)
Definition short_escape (c : ascii) : option ascii :=
  match nat_of_ascii c with
  | 8 => Some "b" | 12 => Some "f" | 10 => Some "n" | 13 => Some "r" | 9 => Some "t"
  | 34 => Some quote_char | 92 => Some backslash
  | _ => None
  end%char.

(** Characters written as [\u00xx]. *)
Definition hex_escaped (c : ascii) : bool :=
  let n := nat_of_ascii c in
  (n <? 32) || (n =? 38) || (n =? 60) || (n =? 62).

Definition escape_char (c : ascii) (s : string) : string :=
  match short_escape c with
  | Some e => String backslash (String e s)
  | None =>
      if hex_escaped c then
        let n := nat_of_ascii c in
        String backslash (String "u" (String "0" (String "0"
          (String (hex_digit (n / 16)) (String (hex_digit (n mod 16)) s)))))
      else String c s
  end.

(** U+2028 and U+2029. *)
Definition line_separator : string := String "226" (String "128" (String "168" "")).
Definition paragraph_separator : string := String "226" (String "128" (String "169" "")).

Definition u_escape (hex : string) : string := String backslash (String "u" hex).

(** An invalid byte is written as the escape of U+FFFD. *)
Definition escape_chunk (k : option string) (s : string) : string :=
  match k with
  | None => u_escape "fffd" +:+ s
  | Some (String c "") => escape_char c s
  | Some r =>
      if String.eqb r line_separator then u_escape "2028" +:+ s
      else if String.eqb r paragraph_separator then u_escape "2029" +:+ s
      else r +:+ s
  end.

Definition escape (s : string) : string := foldr escape_chunk "" (chunks s).

(** ** String literals: reading *)

Definition hex_value (c : ascii) : option N :=
  let n := N_of_ascii c in
  if (48 <=? n)%N && (n <=? 57)%N then Some (n - 48)%N
  else if (97 <=? n)%N && (n <=? 102)%N then Some (n - 87)%N
  else if (65 <=? n)%N && (n <=? 70)%N then Some (n - 55)%N
  else None.

Definition short_unescape (c : ascii) : option ascii :=
  match nat_of_ascii c with
  | 98 => Some (ascii_of_nat 8) | 102 => Some (ascii_of_nat 12) | 110 => Some (ascii_of_nat 10)
  | 114 => Some (ascii_of_nat 13) | 116 => Some (ascii_of_nat 9)
  | 34 => Some quote_char | 92 => Some backslash | 47 => Some "/"%char
  | _ => None
  end.

(** The states of the scanner inside a literal: in the text, after a backslash,
    and in the four digits of [\u], with [k] more to come after this one. *)
Inductive sstate : Type := InString | InStringEsc | InStringEscU (k : nat).

(** The raw text of a literal up to its closing quote. *)
Fixpoint scan_string (st : sstate) (s : string) : parsed string :=
  match s with
  | EmptyString => Truncated
  | String c s' =>
      match st with
      | InString =>
          if Ascii.eqb c quote_char then Parsed "" s'
          else if Ascii.eqb c backslash then pmap (String c) (scan_string InStringEsc s')
          else if nat_of_ascii c <? 32 then Invalid
          else pmap (String c) (scan_string InString s')
      | InStringEsc =>
          if Ascii.eqb c "u" then pmap (String c) (scan_string (InStringEscU 3) s')
          else match short_unescape c with
               | Some _ => pmap (String c) (scan_string InString s')
               | None => Invalid
               end
      | InStringEscU k =>
          match hex_value c with
          | Some _ => pmap (String c) (scan_string (match k with 0 => InString | S k' => InStringEscU k' end) s')
          | None => Invalid
          end
      end
  end.

(** The UTF-8 encoding of a code point; surrogates have none. *)
Definition utf8_encode (n : N) : string :=
  let b x := ascii_of_N x in
  (if n <? 128 then String (b n) ""
   else if n <? 2048 then String (b (192 + n / 64)) (String (b (128 + n mod 64)) "")
   else if ((55296 <=? n) && (n <? 57344)) || (1114111 <? n) then replacement
   else if n <? 65536 then
     String (b (224 + n / 4096)) (String (b (128 + n / 64 mod 64)) (String (b (128 + n mod 64)) ""))
   else
     String (b (240 + n / 262144)) (String (b (128 + n / 4096 mod 64))
       (String (b (128 + n / 64 mod 64)) (String (b (128 + n mod 64)) ""))))%N.

Definition getu4 (a b c d : ascii) : option N :=
  match hex_value a, hex_value b, hex_value c, hex_value d with
  | Some x, Some y, Some z, Some w => Some (4096 * x + 256 * y + 16 * z + w)%N
  | _, _, _, _ => None
  end.

Definition is_surrogate (r : N) : bool := ((55296 <=? r) && (r <? 57344))%N.

(** The code point of a surrogate pair. *)
Definition surrogate_pair (r r1 : N) : option N :=
  if ((55296 <=? r) && (r <? 56320) && (56320 <=? r1) && (r1 <? 57344))%N
  then Some ((r - 55296) * 1024 + (r1 - 56320) + 65536)%N else None.

(** The text of a literal; bytes outside of escapes are kept as they are. A lone
    half of a surrogate pair becomes U+FFFD. *)
Fixpoint unescape (s : string) : option string :=
  match s with
  | EmptyString => Some ""
  | String c s1 =>
      if Ascii.eqb c backslash then
        match s1 with
        | String e s2 =>
            if Ascii.eqb e "u" then
              match s2 with
              | String a (String b (String x (String y s3))) =>
                  match getu4 a b x y with
                  | Some r =>
                      if is_surrogate r then
                        match s3 with
                        | String p (String q (String a' (String b' (String x' (String y' s4))))) =>
                            match (if Ascii.eqb p backslash && Ascii.eqb q "u"
                                   then getu4 a' b' x' y' ≫= surrogate_pair r else None) with
                            | Some v => String.append (utf8_encode v) <$> unescape s4
                            | None => String.append replacement <$> unescape s3
                            end
                        | _ => String.append replacement <$> unescape s3
                        end
                      else String.append (utf8_encode r) <$> unescape s3
                  | None => None
                  end
              | _ => None
              end
            else match short_unescape e with
                 | Some d => String d <$> unescape s2
                 | None => None
                 end
        | EmptyString => None
        end
      else if Ascii.eqb c quote_char || (nat_of_ascii c <? 32) then None
      else String c <$> unescape s1
  end.

(** Invalid bytes of the literal become U+FFFD. (What escapes give starts with a
    leading byte, so it completes no encoding begun outside of them.) *)
Definition unquote (raw : string) : option string := sanitize <$> unescape raw.

(** ** Numbers *)

(** The states of the scanner in a number. *)
Inductive nstate : Type := NStart | NNeg | N0 | N1 | NDot | NDot0 | NE | NESign | NE0.

Definition is_digit (c : ascii) : bool := byte_in 48 57 c.
Definition is_exp (c : ascii) : bool := Ascii.eqb c "e" || Ascii.eqb c "E".

Definition nstep (st : nstate) (c : ascii) : option nstate :=
  match st with
  | NStart => if Ascii.eqb c "-" then Some NNeg else if Ascii.eqb c "0" then Some N0
              else if is_digit c then Some N1 else None
  | NNeg => if Ascii.eqb c "0" then Some N0 else if is_digit c then Some N1 else None
  | N0 => if Ascii.eqb c "." then Some NDot else if is_exp c then Some NE else None
  | N1 => if is_digit c then Some N1
          else if Ascii.eqb c "." then Some NDot else if is_exp c then Some NE else None
  | NDot => if is_digit c then Some NDot0 else None
  | NDot0 => if is_digit c then Some NDot0 else if is_exp c then Some NE else None
  | NE => if Ascii.eqb c "+" || Ascii.eqb c "-" then Some NESign
          else if is_digit c then Some NE0 else None
  | NESign => if is_digit c then Some NE0 else None
  | NE0 => if is_digit c then Some NE0 else None
  end.

Definition nfinal (st : nstate) : bool :=
  match st with N0 | N1 | NDot0 | NE0 => true | _ => false end.

Fixpoint scan_number (st : nstate) (s : string) : parsed string :=
  match s with
  | EmptyString => if nfinal st then Parsed "" "" else Truncated
  | String c s' =>
      match nstep st c with
      | Some st' => pmap (String c) (scan_number st' s')
      | None => if nfinal st then Parsed "" s else Invalid
      end
  end.

(** ** Values *)

(** Numbers and strings, the keys of objects included, are kept as their text. *)
Inductive json : Type :=
| JNull | JBool (b : bool) | JNumber (text : string) | JString (raw : string)
| JArray (l : list json) | JObject (m : list (string * json)).

Definition is_space (c : ascii) : bool :=
  Ascii.eqb c " " || Ascii.eqb c "009" || Ascii.eqb c "010" || Ascii.eqb c "013".

Fixpoint skip (s : string) : string :=
  match s with
  | String c s' => if is_space c then skip s' else s
  | EmptyString => EmptyString
  end.

Fixpoint keyword (w s : string) : parsed unit :=
  match w, s with
  | EmptyString, _ => Parsed tt s
  | _, EmptyString => Truncated
  | String a w', String b s' => if Ascii.eqb a b then keyword w' s' else Invalid
  end.

Definition maxNestingDepth : Z := 10000%Z.

(** A value at nesting [d]; the elements of an array and the members of an object,
    of which there is at least one, up to the closing bracket. *)
Fixpoint value (fuel : nat) (d : Z) (s : string) : parsed json :=
  match fuel with
  | 0 => Exhausted
  | S n => next (skip s) (λ c s',
      if Ascii.eqb c quote_char then pmap JString (scan_string InString s')
      else if Ascii.eqb c "[" then
        if (d <? maxNestingDepth)%Z then next (skip s') (λ c1 s1,
          if Ascii.eqb c1 "]" then Parsed (JArray []) s1
          else pmap JArray (elements n (d + 1) s'))
        else Invalid
      else if Ascii.eqb c "{" then
        if (d <? maxNestingDepth)%Z then next (skip s') (λ c1 s1,
          if Ascii.eqb c1 "}" then Parsed (JObject []) s1
          else pmap JObject (members n (d + 1) s'))
        else Invalid
      else if Ascii.eqb c "t" then pmap (λ _, JBool true) (keyword "rue" s')
      else if Ascii.eqb c "f" then pmap (λ _, JBool false) (keyword "alse" s')
      else if Ascii.eqb c "n" then pmap (λ _, JNull) (keyword "ull" s')
      else pmap JNumber (scan_number NStart (String c s')))
  end
with elements (fuel : nat) (d : Z) (s : string) : parsed (list json) :=
  match fuel with
  | 0 => Exhausted
  | S n => (let? (v, r) := value n d s in
      next (skip r) (λ c r',
        if Ascii.eqb c "," then pmap (cons v) (elements n d r')
        else if Ascii.eqb c "]" then Parsed [v] r' else Invalid))%go
  end
with members (fuel : nat) (d : Z) (s : string) : parsed (list (string * json)) :=
  match fuel with
  | 0 => Exhausted
  | S n => next (skip s) (λ c s',
      if Ascii.eqb c quote_char then
        (let? (k, r) := scan_string InString s' in
         next (skip r) (λ c1 r1,
           if Ascii.eqb c1 ":" then
             let? (v, r2) := value n d r1 in
             next (skip r2) (λ c2 r3,
               if Ascii.eqb c2 "," then pmap (cons (k, v)) (members n d r3)
               else if Ascii.eqb c2 "}" then Parsed [(k, v)] r3 else Invalid)
           else Invalid))%go
      else Invalid)
  end.

(** The value at the front of the input: two calls per byte are enough. *)
Definition parse (s : string) : parsed json := value (2 * String.length s + 2) 0 s.

(** ** Writing *)

Section Items.
Context {A : Type} (item : A → string → string).

(** The items, separated by commas, before [k]. *)
Fixpoint items (l : list A) (k : string) : string :=
  match l with
  | [] => k
  | [x] => item x k
  | x :: l' => item x (String "," (items l' k))
  end.
End Items.

Definition literal (raw k : string) : string := String quote_char (raw +:+ String quote_char k).

(** The compact text of a value, before [k]. *)
Fixpoint print (j : json) (k : string) : string :=
  match j with
  | JNull => "null" +:+ k
  | JBool true => "true" +:+ k
  | JBool false => "false" +:+ k
  | JNumber t => t +:+ k
  | JString raw => literal raw k
  | JArray l => String "[" (items print l (String "]" k))
  | JObject m => String "{" (items (λ x k', literal x.1 (String ":" (print x.2 k'))) m (String "}" k))
  end.

(** A string as a literal. *)
Definition jstring (s : string) : json := JString (escape s).
Definition jint (z : Z) : json := JNumber (sprint_d z).

(** ** Well-formed trees *)

Definition wf_raw (raw : string) : bool :=
  match scan_string InString (raw +:+ String quote_char "") with
  | Parsed r "" => String.eqb r raw
  | _ => false
  end.

Definition wf_number (t : string) : bool :=
  match scan_number NStart t with Parsed r "" => String.eqb r t | _ => false end.

Fixpoint wf_json (j : json) : bool :=
  match j with
  | JNull | JBool _ => true
  | JNumber t => wf_number t
  | JString raw => wf_raw raw
  | JArray l => forallb wf_json l
  | JObject m => forallb (λ x, wf_raw x.1 && wf_json x.2) m
  end.

Fixpoint nesting (j : json) : Z :=
  match j with
  | JArray l => 1 + foldr (λ x, Z.max (nesting x)) 0 l
  | JObject m => 1 + foldr (λ x, Z.max (nesting x.2)) 0 m
  | _ => 0
  end%Z.

(** Only a number does not tell where it ends. *)
Definition open_ended (j : json) : bool := match j with JNumber _ => true | _ => false end.

(** What may follow a number. *)
Definition delimited (k : string) : Prop :=
  ∀ st, nfinal st = true → match k with EmptyString => True | String c _ => nstep st c = None end.

(** ** Induction on values *)

Section JsonInd.
Context (P : json → Prop).
Hypothesis (Hnull : P JNull) (Hbool : ∀ b, P (JBool b)) (Hnum : ∀ t, P (JNumber t))
  (Hstr : ∀ s, P (JString s)) (Harr : ∀ l, Forall P l → P (JArray l))
  (Hobj : ∀ m, Forall (λ x, P x.2) m → P (JObject m)).

Fixpoint json_nested_ind (j : json) : P j :=
  match j with
  | JNull => Hnull
  | JBool b => Hbool b
  | JNumber t => Hnum t
  | JString s => Hstr s
  | JArray l => Harr l ((fix go l : Forall P l := match l with
      | [] => Forall_nil_2 _ | x :: l' => Forall_cons_2 _ _ _ (json_nested_ind x) (go l') end) l)
  | JObject m => Hobj m ((fix go m : Forall (λ x, P x.2) m := match m with
      | [] => Forall_nil_2 _ | x :: m' => Forall_cons_2 _ _ _ (json_nested_ind x.2) (go m') end) m)
  end.
End JsonInd.

(** ** Lemmas: reading uses up input and needs no more fuel than it has *)

Lemma pmap_Parsed {A B} (f : A → B) p b r :
  pmap f p = Parsed b r → ∃ a, p = Parsed a r ∧ b = f a.
Proof. destruct p; simpl; intros [=]; subst. eauto. Qed.

Lemma length_skip s : String.length (skip s) ≤ String.length s.
Proof. induction s as [|c s IH]; simpl; [done|]. case_match; simpl; lia. Qed.

Lemma scan_string_rest st s raw r :
  scan_string st s = Parsed raw r → String.length r < String.length s.
Proof.
  revert st raw. induction s as [|c s IH]; intros st raw; simpl; [done|].
  repeat case_match; intros Hp; simplify_eq; try lia; try done;
    apply pmap_Parsed in Hp as (? & Hp%IH & _); lia.
Qed.

Lemma scan_number_rest st s t r :
  scan_number st s = Parsed t r → String.length r ≤ String.length s ∧ (nfinal st = false → String.length r < String.length s).
Proof.
  revert st t. induction s as [|c s IH]; intros st t; simpl; [by case_match; intros Hp; simplify_eq|].
  repeat case_match; intros Hp; simplify_eq; try (simpl; split; [lia|done]); try done.
  apply pmap_Parsed in Hp as (? & (? & _)%IH & _). lia.
Qed.

Lemma keyword_rest w s r : keyword w s = Parsed tt r → String.length r ≤ String.length s.
Proof.
  revert s. induction w as [|a w IH]; intros [|b s]; simpl; intros H; simplify_eq; try done.
  case_match; [|done]. apply IH in H. lia.
Qed.

Lemma scan_string_fuel st s : scan_string st s ≠ Exhausted.
Proof.
  revert st. induction s as [|c s IH]; intros st; simpl; [done|].
  repeat case_match; try done;
    match goal with |- pmap _ (scan_string ?st s) ≠ _ => specialize (IH st); by destruct (scan_string st s) end.
Qed.

Lemma scan_number_fuel st s : scan_number st s ≠ Exhausted.
Proof.
  revert st. induction s as [|c s IH]; intros st; simpl; [by case_match|].
  repeat case_match; try done.
  match goal with |- pmap _ (scan_number ?st s) ≠ _ => specialize (IH st); by destruct (scan_number st s) end.
Qed.

Lemma keyword_fuel w s : keyword w s ≠ Exhausted.
Proof. revert s. induction w as [|a w IH]; intros [|b s]; simpl; try done. case_match; [apply IH|done]. Qed.

Lemma next_Parsed {A} s (f : ascii → string → parsed A) a r :
  next s f = Parsed a r → ∃ c s', s = String c s' ∧ f c s' = Parsed a r.
Proof. destruct s; simpl; [done|]. eauto. Qed.

Lemma pbind_Parsed {A B} p (f : A → string → parsed B) b r :
  pbind p f = Parsed b r → ∃ a r', p = Parsed a r' ∧ f a r' = Parsed b r.
Proof. destruct p; simpl; [|done..]. eauto. Qed.

(** The bytes left after a byte that was skipped to. *)
Lemma skip_String s c s' : skip s = String c s' → String.length s' < String.length s.
Proof. intros H. pose proof (length_skip s) as Hl. rewrite H in Hl. simpl in Hl. lia. Qed.

(** Take apart how a reader got its result. *)
Ltac inv_parsed :=
  repeat match goal with
  | H : next _ _ = Parsed _ _ |- _ => apply next_Parsed in H as (? & ? & ? & H)
  | H : pmap _ _ = Parsed _ _ |- _ => apply pmap_Parsed in H as (? & H & ?)
  | H : pbind _ _ = Parsed _ _ |- _ => apply pbind_Parsed in H as (? & ? & ? & H)
  | H : (if ?b then _ else _) = Parsed _ _ |- _ => destruct b
  | H : Parsed _ _ = Parsed _ _ |- _ => injection H as ? ?
  | H : Invalid = Parsed _ _ |- _ => discriminate H
  | H : skip _ = String _ _ |- _ => apply skip_String in H
  | H : scan_string _ _ = Parsed _ _ |- _ => apply scan_string_rest in H
  | H : scan_number _ _ = Parsed _ _ |- _ => apply scan_number_rest in H as [? H]; specialize (H eq_refl)
  | H : keyword _ _ = Parsed ?u _ |- _ => destruct u; apply keyword_rest in H
  end; subst.

Lemma value_rest n :
  (∀ d s j r, value n d s = Parsed j r → String.length r < String.length s) ∧
  (∀ d s l r, elements n d s = Parsed l r → String.length r < String.length s) ∧
  (∀ d s m r, members n d s = Parsed m r → String.length r < String.length s).
Proof.
  induction n as [|n (IHv & IHe & IHm)]; [by split_and!|].
  split_and!; intros d s x r H; cbn [value elements members] in H; inv_parsed;
    repeat match goal with
    | H : value n _ _ = Parsed _ _ |- _ => apply IHv in H
    | H : elements n _ _ = Parsed _ _ |- _ => apply IHe in H
    | H : members n _ _ = Parsed _ _ |- _ => apply IHm in H
    end; simpl in *; lia.
Qed.

Lemma next_fuel {A} s (f : ascii → string → parsed A) :
  (∀ c s', s = String c s' → f c s' ≠ Exhausted) → next s f ≠ Exhausted.
Proof. destruct s; simpl; [done|]. eauto. Qed.

Lemma pmap_fuel {A B} (f : A → B) p : p ≠ Exhausted → pmap f p ≠ Exhausted.
Proof. by destruct p. Qed.

Lemma pbind_fuel {A B} p (f : A → string → parsed B) :
  p ≠ Exhausted → (∀ a r, p = Parsed a r → f a r ≠ Exhausted) → pbind p f ≠ Exhausted.
Proof. destruct p; simpl; eauto. Qed.

Ltac enough_fuel :=
  repeat match goal with
  | |- next _ _ ≠ _ => apply next_fuel; intros ? ? ?%skip_String
  | |- pmap _ _ ≠ _ => apply pmap_fuel
  | |- pbind _ _ ≠ _ => apply pbind_fuel; [|intros ? ? ?]
  | |- (if ?b then _ else _) ≠ _ => destruct b
  | |- scan_string _ _ ≠ _ => apply scan_string_fuel
  | |- scan_number _ _ ≠ _ => apply scan_number_fuel
  | |- keyword _ _ ≠ _ => apply keyword_fuel
  | |- Parsed _ _ ≠ _ => discriminate
  | |- Invalid ≠ _ => discriminate
  end.

Lemma value_fuel n :
  (∀ d s, 2 * String.length s + 1 ≤ n → value n d s ≠ Exhausted) ∧
  (∀ d s, 2 * String.length s + 2 ≤ n → elements n d s ≠ Exhausted) ∧
  (∀ d s, 2 * String.length s + 2 ≤ n → members n d s ≠ Exhausted).
Proof.
  induction n as [|n (IHv & IHe & IHm)]; [split_and!; intros; lia|].
  split_and!; intros d s Hn; cbn [value elements members]; enough_fuel;
    repeat match goal with
    | H : value n _ _ = Parsed _ _ |- _ => apply value_rest in H
    | H : scan_string _ _ = Parsed _ _ |- _ => apply scan_string_rest in H
    end; first [apply IHv | apply IHe | apply IHm]; lia.
Qed.

(** The parser always has an answer. *)
Lemma parse_total s : parse s ≠ Exhausted.
Proof. unfold parse. apply value_fuel. lia. Qed.

(** ** Lemmas: what is written is read back *)

Lemma scan_string_app st raw k :
  scan_string st (raw +:+ String quote_char "") = Parsed raw "" →
  scan_string st (raw +:+ String quote_char k) = Parsed raw k.
Proof.
  revert st. induction raw as [|c raw IH]; intros st; simpl.
  - by destruct st.
  - repeat case_match; try done; intros (? & Hs & [= ->])%pmap_Parsed; by rewrite (IH _ Hs).
Qed.

Lemma scan_literal raw k : wf_raw raw = true → scan_string InString (raw +:+ String quote_char k) = Parsed raw k.
Proof.
  unfold wf_raw. destruct (scan_string InString (raw +:+ String quote_char "")) as [r [|]| | |] eqn:H; try done.
  intros ->%String.eqb_eq. by apply scan_string_app.
Qed.

Lemma scan_number_app st t k :
  scan_number st t = Parsed t "" → delimited k → scan_number st (t +:+ k) = Parsed t k.
Proof.
  revert st. induction t as [|c t IH]; intros st; simpl.
  - destruct (nfinal st) eqn:Hf; [|done]. intros _ Hk. specialize (Hk st Hf).
    destruct k as [|c k]; simpl; [by rewrite Hf|]. by rewrite Hk, Hf.
  - destruct (nstep st c) as [st'|]; [|by destruct (nfinal st)].
    intros (a & Ha & [= ->])%pmap_Parsed Hk. by rewrite (IH _ Ha Hk).
Qed.

Lemma scan_numeral t k : wf_number t = true → delimited k → scan_number NStart (t +:+ k) = Parsed t k.
Proof.
  unfold wf_number. destruct (scan_number NStart t) as [r [|]| | |] eqn:H; try done.
  intros ->%String.eqb_eq. by apply scan_number_app.
Qed.

(** A number starts with a byte that starts nothing else. *)
Lemma number_head t : wf_number t = true →
  ∃ c t', t = String c t' ∧ is_space c = false ∧
    forallb (λ x, negb (Ascii.eqb c x)) [quote_char; "["; "]"; "{"; "}"; "t"; "f"; "n"]%char = true.
Proof.
  destruct t as [|c t]; [done|]. unfold wf_number. simpl. intros H. exists c, t. split; [done|].
  destruct c as [[] [] [] [] [] [] [] []]; try (split; reflexivity); discriminate H.
Qed.

Lemma print_head j k : wf_json j = true →
  ∃ c s, print j k = String c s ∧ is_space c = false ∧ Ascii.eqb c "]" = false.
Proof.
  destruct j as [|[]|t|raw|l|m]; simpl; try (by eexists _, _).
  intros (c & t' & -> & Hs & H)%number_head. exists c, (t' +:+ k). split; [done|]. split; [done|].
  simpl in H. rewrite !andb_true_iff, !negb_true_iff in H. tauto.
Qed.

Lemma skip_print j k : wf_json j = true → skip (print j k) = print j k.
Proof. intros (c & s & -> & Hs & _)%(print_head j k). simpl. by rewrite Hs. Qed.

Lemma skip_nonspace c s : is_space c = false → skip (String c s) = String c s.
Proof. simpl. by intros ->. Qed.

Lemma delimited_byte c k :
  forallb (λ st, match nstep st c with None => true | Some _ => false end) [N0; N1; NDot0; NE0] = true →
  delimited (String c k).
Proof.
  cbn [forallb]. intros H st. rewrite !andb_true_iff in H. destruct H as (H1 & H2 & H3 & H4 & _).
  change (nfinal st = true → nstep st c = None).
  destruct st; intros Hf; try discriminate Hf;
    match goal with |- nstep ?st c = None => by destruct (nstep st c) end.
Qed.

Lemma delimited_nil : delimited "".
Proof. by intros st _. Qed.

(** Reading what was written gives it back, or runs out of fuel. *)
Definition reads_back {A} (p : parsed A) (a : A) (k : string) : Prop := p = Parsed a k ∨ p = Exhausted.

Lemma reads_pmap {A B} (f : A → B) p a k : reads_back p a k → reads_back (pmap f p) (f a) k.
Proof. intros [->| ->]; [by left|by right]. Qed.

Lemma reads_pbind {A B} p a k (f : A → string → parsed B) b k' :
  reads_back p a k → reads_back (f a k) b k' → reads_back (pbind p f) b k'.
Proof. intros [->| ->] H; [done|by right]. Qed.

Lemma items_cons2 {A} (item : A → string → string) x y l k :
  items item (x :: y :: l) k = item x (String "," (items item (y :: l) k)).
Proof. reflexivity. Qed.

Definition readable (j : json) : Prop :=
  wf_json j = true → ∀ n d k, (d + nesting j ≤ maxNestingDepth)%Z →
  (open_ended j = true → delimited k) → reads_back (value n d (print j k)) j k.

Lemma elements_print l n d k :
  l ≠ [] → Forall readable l → forallb wf_json l = true →
  (d + foldr (λ x, Z.max (nesting x)) 0 l ≤ maxNestingDepth)%Z →
  reads_back (elements n d (items print l (String "]" k))) l k.
Proof.
  revert n. induction l as [|x l IH]; intros n Hne Hl Hwf Hd; [done|].
  destruct n as [|n]; [by right|]. inversion Hl as [|? ? Hx Hl']; subst. simpl in Hwf, Hd.
  apply andb_true_iff in Hwf as [Hwx Hwl].
  cbn [elements]. destruct l as [|y l].
  - eapply reads_pbind; [apply Hx; [done|lia|intros _; by apply delimited_byte]|]. by left.
  - rewrite items_cons2. eapply reads_pbind; [apply Hx; [done|lia|intros _; by apply delimited_byte]|].
    simpl. apply (reads_pmap (cons x)). apply IH; try done. simpl in *. lia.
Qed.

Definition print_member (x : string * json) (k : string) : string := literal x.1 (String ":" (print x.2 k)).

Lemma members_print m n d k :
  m ≠ [] → Forall (λ x, readable x.2) m → forallb (λ x, wf_raw x.1 && wf_json x.2) m = true →
  (d + foldr (λ x, Z.max (nesting x.2)) 0 m ≤ maxNestingDepth)%Z →
  reads_back (members n d (items print_member m (String "}" k))) m k.
Proof.
  revert n. induction m as [|x m IH]; intros n Hne Hl Hwf Hd; [done|].
  destruct n as [|n]; [by right|]. inversion Hl as [|? ? Hx Hl']; subst. simpl in Hwf, Hd.
  apply andb_true_iff in Hwf as [[Hrx Hwx]%andb_true_iff Hwl].
  destruct m as [|y m].
  - cbn [members items print_member literal]. simpl. rewrite (scan_literal _ _ Hrx). simpl.
    eapply reads_pbind; [apply Hx; [done|lia|intros _; by apply delimited_byte]|]. left. by destruct x.
  - rewrite items_cons2. unfold print_member at 1. cbn [members literal]. simpl. rewrite (scan_literal _ _ Hrx).
    simpl. eapply reads_pbind; [apply Hx; [done|lia|intros _; by apply delimited_byte]|].
    simpl. destruct x as [kx vx]. apply (reads_pmap (cons (kx, vx))). apply IH; try done. simpl in *. lia.
Qed.

Lemma foldr_max_nonneg {A} (f : A → Z) l : (0 ≤ foldr (λ x, Z.max (f x)) 0 l)%Z.
Proof. induction l; simpl; lia. Qed.

Lemma print_readable j : readable j.
Proof.
  induction j as [|b|t|raw|l IH|m IH] using json_nested_ind; intros Hwf n d k Hd Hk;
    (destruct n as [|n]; [by right|]).
  - by left.
  - left. by destruct b.
  - left. destruct (number_head t Hwf) as (c & t' & -> & Hs & H).
    cbn [forallb] in H. rewrite !andb_true_iff, !negb_true_iff in H.
    destruct H as (H1 & H2 & _ & H4 & _ & H6 & H7 & H8 & _).
    cbn [value print]. change (String c t' +:+ k) with (String c (t' +:+ k)).
    rewrite (skip_nonspace _ _ Hs). cbn [next]. rewrite H1, H2, H4, H6, H7, H8.
    change (String c (t' +:+ k)) with (String c t' +:+ k). by rewrite (scan_numeral _ _ Hwf (Hk eq_refl)).
  - left. cbn [value print literal]. simpl. by rewrite (scan_literal _ _ Hwf).
  - simpl in Hwf, Hd. pose proof (foldr_max_nonneg nesting l) as Hpos.
    cbn [value print]. rewrite skip_nonspace by done. simpl.
    destruct (Z.ltb_spec d maxNestingDepth) as [_|?]; [|lia].
    destruct l as [|x l]; [by left|].
    assert (wf_json x = true) as Hx by by apply andb_true_iff in Hwf as [? _].
    assert (∃ k', items print (x :: l) (String "]" k) = print x k') as [k' Hk'] by (destruct l; eexists; reflexivity).
    destruct (print_head x k' Hx) as (c & s & Hc & Hs & Hb).
    pose proof (elements_print (x :: l) n (d + 1) k) as Hel.
    rewrite Hk', Hc in Hel |- *. rewrite (skip_nonspace _ _ Hs). simpl. rewrite Hb. apply reads_pmap.
    apply Hel; try done. simpl in *. lia.
  - simpl in Hwf, Hd. pose proof (foldr_max_nonneg (λ x : string * json, nesting x.2) m) as Hpos.
    cbn [value print]. rewrite skip_nonspace by done. simpl.
    destruct (Z.ltb_spec d maxNestingDepth) as [_|?]; [|lia].
    destruct m as [|x m]; [by left|].
    pose proof (members_print (x :: m) n (d + 1) k) as Hel.
    assert (∃ s, items print_member (x :: m) (String "}" k) = String quote_char s) as [s Hs]
      by (destruct m; eexists; reflexivity).
    change (items (λ x k', literal x.1 (String ":" (print x.2 k'))) (x :: m) (String "}" k))
      with (items print_member (x :: m) (String "}" k)).
    rewrite Hs in Hel |- *. simpl. apply reads_pmap. apply Hel; try done. simpl in *. lia.
Qed.

Lemma parse_print j k :
  wf_json j = true → (nesting j ≤ maxNestingDepth)%Z → (open_ended j = true → delimited k) →
  parse (print j k) = Parsed j k.
Proof.
  intros Hwf Hd Hk. destruct (print_readable j Hwf (2 * String.length (print j k) + 2) 0%Z k) as [H|H];
    [lia|done|exact H|]. by destruct (parse_total (print j k)).
Qed.

Lemma items_app {A} (item : A → string → string) l k t :
  Forall (λ x, ∀ k, item x (k +:+ t) = item x k +:+ t) l → items item l (k +:+ t) = items item l k +:+ t.
Proof.
  induction 1 as [|x l Hx Hl IH]; [done|]. destruct l as [|y l]; [apply Hx|].
  rewrite !items_cons2, IH. apply (Hx (String "," (items item (y :: l) k))).
Qed.

Lemma literal_app raw k t : literal raw (k +:+ t) = literal raw k +:+ t.
Proof. unfold literal. exact (f_equal (String quote_char) (append_assoc raw (String quote_char k) t)). Qed.

(** The text before [k] does not depend on it. *)
Lemma print_app j k t : print j (k +:+ t) = print j k +:+ t.
Proof.
  revert k. induction j as [|b|n|raw|l IH|m IH] using json_nested_ind; intros k; cbn [print].
  - apply append_assoc.
  - destruct b; apply append_assoc.
  - apply append_assoc.
  - apply literal_app.
  - exact (f_equal (String "[") (items_app print l (String "]" k) t IH)).
  - apply (f_equal (String "{")).
    apply (items_app (λ x k', literal x.1 (String ":" (print x.2 k'))) m (String "}" k) t).
    eapply Forall_impl; [exact IH|]. intros [r v] Hv k'. cbn [fst snd] in *. rewrite Hv.
    exact (literal_app r (String ":" (print v k')) t).
Qed.

(** ** Lemmas: the contents of strings *)

(** An ASCII byte, checked for all of them: how it is scanned and what it is read as. *)
Definition escape_ok (c : ascii) : bool :=
  match short_escape c with
  | Some e =>
      negb (Ascii.eqb e "u") &&
      match short_unescape e with Some d => Ascii.eqb d c | None => false end
  | None =>
      if hex_escaped c then
        match getu4 "0" "0" (hex_digit (nat_of_ascii c / 16)) (hex_digit (nat_of_ascii c mod 16)) with
        | Some r => negb (is_surrogate r) && (negb (ascii_byte c) || String.eqb (utf8_encode r) (String c ""))
        | None => false
        end
      else negb (Ascii.eqb c quote_char) && negb (Ascii.eqb c backslash) && negb (nat_of_ascii c <? 32)
  end.

Lemma escape_ok_all c : escape_ok c = true.
Proof. by destruct c as [[] [] [] [] [] [] [] []]. Qed.

Lemma high_byte_plain c : ascii_byte c = false →
  Ascii.eqb c quote_char = false ∧ Ascii.eqb c backslash = false ∧ (nat_of_ascii c <? 32) = false.
Proof. by destruct c as [[] [] [] [] [] [] [] []]. Qed.

Lemma lead_second a b : lead3 a b = true ∨ lead4 a b = true → ascii_byte b = false.
Proof.
  unfold lead3, lead4, continuation, ascii_byte.
  rewrite !orb_true_iff, !andb_true_iff, !byte_in_true, byte_in_false. lia.
Qed.

(** All bytes of an encoding that is not ASCII are above ASCII. *)
Lemma rune_bytes r : is_rune r = true →
  (∃ c, r = String c "" ∧ ascii_byte c = true) ∨ all_bytes (λ c, negb (ascii_byte c)) r = true.
Proof.
  assert (∀ c, continuation c = true → ascii_byte c = false) as Hc.
  { intros c. unfold continuation, ascii_byte. rewrite byte_in_true, byte_in_false. lia. }
  destruct r as [|a [|b [|c [|d [|]]]]]; cbn [is_rune all_bytes]; try done; intros H; rewrite ?andb_true_iff in H; [eauto|right..];
    destruct (rune_lead a b) as (H2 & H3 & H4); pose proof (lead_second a b) as H5.
  - destruct H as [Ha Hb]. by rewrite (H2 Ha), (Hc b Hb).
  - destruct H as [Ha Hb]. destruct (H3 Ha) as [-> _]. by rewrite (H5 (or_introl Ha)), (Hc c Hb).
  - destruct H as [[Ha Hb] Hd]. destruct (H4 Ha) as [-> _].
    by rewrite (H5 (or_intror Ha)), (Hc c Hb), (Hc d Hd).
Qed.

Lemma scan_high r s : all_bytes (λ c, negb (ascii_byte c)) r = true →
  scan_string InString (r +:+ s) = pmap (String.append r) (scan_string InString s).
Proof.
  induction r as [|c r IH]; [change ("" +:+ s) with s; by destruct (scan_string InString s)|].
  change (String c r +:+ s) with (String c (r +:+ s)). simpl.
  intros [(H1 & H2 & H3)%negb_true_iff%high_byte_plain Hr]%andb_true_iff. rewrite H1, H2, H3, (IH Hr).
  by destruct (scan_string InString s).
Qed.

Lemma unescape_high r s : all_bytes (λ c, negb (ascii_byte c)) r = true →
  unescape (r +:+ s) = String.append r <$> unescape s.
Proof.
  induction r as [|c r IH]; [change ("" +:+ s) with s; by destruct (unescape s)|].
  change (String c r +:+ s) with (String c (r +:+ s)). simpl.
  intros [(H1 & H2 & H3)%negb_true_iff%high_byte_plain Hr]%andb_true_iff. rewrite H2, H1, H3. simpl.
  rewrite (IH Hr). by destruct (unescape s).
Qed.

(** How a chunk is written: a byte, or an escape of four digits, or as it is. *)
Lemma escape_chunk_view k : rune_or_bad k →
  (∃ c, k = Some (String c "") ∧ ascii_byte c = true) ∨
  (∃ a b x y r, (∀ s, escape_chunk k s = String backslash (String "u" (String a (String b (String x (String y s)))))) ∧
     getu4 a b x y = Some r ∧ is_surrogate r = false ∧ utf8_encode r = default replacement k) ∨
  (∃ r, k = Some r ∧ all_bytes (λ c, negb (ascii_byte c)) r = true ∧ ∀ s, escape_chunk k s = r +:+ s).
Proof.
  intros Hk. destruct k as [r|].
  2:{ right; left. by exists "f"%char, "f"%char, "f"%char, "d"%char, 65533%N. }
  destruct (rune_bytes r (Hk r eq_refl)) as [(c & -> & Hc)|Hhigh]; [left; eauto|right].
  destruct (String.eqb_spec r line_separator) as [->|H1].
  { left. by exists "2"%char, "0"%char, "2"%char, "8"%char, 8232%N. }
  destruct (String.eqb_spec r paragraph_separator) as [->|H2].
  { left. by exists "2"%char, "0"%char, "2"%char, "9"%char, 8233%N. }
  right. exists r. split; [done|]. split; [done|]. intros s.
  apply String.eqb_neq in H1, H2. specialize (Hk r eq_refl).
  destruct r as [|c [|c' r]]; cbn [escape_chunk]; rewrite ?H1, ?H2; try done.
  simpl in Hhigh, Hk. by rewrite Hk in Hhigh.
Qed.

Lemma scan_u4 a b x y s : is_Some (getu4 a b x y) →
  scan_string InString (String backslash (String "u" (String a (String b (String x (String y s)))))) =
  pmap (λ t, String backslash (String "u" (String a (String b (String x (String y t)))))) (scan_string InString s).
Proof.
  intros [r Hr]. unfold getu4 in Hr. cbn [scan_string]. change (Ascii.eqb backslash quote_char) with false.
  change (Ascii.eqb backslash backslash) with true. change (Ascii.eqb "u" "u") with true. cbv iota.
  destruct (hex_value a), (hex_value b), (hex_value x), (hex_value y); try done.
  by destruct (scan_string InString s).
Qed.

Lemma escape_chunk_app k s t : escape_chunk k (s +:+ t) = escape_chunk k s +:+ t.
Proof.
  destruct k as [[|c [|c' r]]|]; cbn [escape_chunk]; [done| |repeat case_match; apply append_assoc|done].
  unfold escape_char. by repeat case_match.
Qed.

(** One chunk is scanned as a whole. *)
Lemma scan_escape_chunk k s : rune_or_bad k →
  scan_string InString (escape_chunk k s) = pmap (escape_chunk k) (scan_string InString s).
Proof.
  intros [(c & -> & _)|[(a & b & x & y & r & He & Hu & _)|(r & _ & Hr & He)]]%escape_chunk_view.
  - pose proof (escape_ok_all c) as Hok. unfold escape_ok in Hok.
    change (scan_string InString (escape_char c s) = pmap (escape_char c) (scan_string InString s)).
    unfold escape_char. destruct (short_escape c) as [e|].
    + cbn [scan_string]. apply andb_true_iff in Hok as [->%negb_true_iff Hd].
      destruct (short_unescape e); [|done]. by destruct (scan_string InString s).
    + destruct (hex_escaped c).
      * rewrite scan_u4; [done|]. by destruct (getu4 _ _ _ _).
      * rewrite !andb_true_iff, !negb_true_iff in Hok. destruct Hok as ((H1 & H2) & H3).
        cbn [scan_string]. by rewrite H1, H2, H3.
  - rewrite He, scan_u4 by by rewrite Hu. destruct (scan_string InString s); simpl; by rewrite ?He.
  - rewrite He, (scan_high _ _ Hr). destruct (scan_string InString s); simpl; by rewrite ?He.
Qed.

(** And it is read as what it stands for. *)
Lemma unescape_escape_chunk k s : rune_or_bad k →
  unescape (escape_chunk k s) = String.append (default replacement k) <$> unescape s.
Proof.
  intros [(c & -> & Hc)|[(a & b & x & y & r & He & Hu & Hs & Hr)|(r & -> & Hr & He)]]%escape_chunk_view.
  - pose proof (escape_ok_all c) as Hok. unfold escape_ok in Hok. cbn [escape_chunk]. unfold escape_char.
    destruct (short_escape c) as [e|].
    + simpl. apply andb_true_iff in Hok as [->%negb_true_iff Hd].
      destruct (short_unescape e); [|done]. by apply Ascii.eqb_eq in Hd as ->.
    + destruct (hex_escaped c).
      * cbn [unescape]. change (Ascii.eqb backslash backslash) with true. change (Ascii.eqb "u" "u") with true.
        cbv iota. destruct (getu4 _ _ _ _) as [r|]; [|done]. rewrite Hc in Hok.
        apply andb_true_iff in Hok as [->%negb_true_iff ->%String.eqb_eq]. done.
      * rewrite !andb_true_iff, !negb_true_iff in Hok. destruct Hok as ((H1 & H2) & H3).
        cbn [unescape]. by rewrite H1, H2, H3.
  - rewrite He. cbn [unescape]. change (Ascii.eqb backslash backslash) with true.
    change (Ascii.eqb "u" "u") with true. cbv iota. by rewrite Hu, Hs, Hr.
  - rewrite He. by apply unescape_high.
Qed.

(** The text written for a string is one literal, and is read back as the string
    with its invalid bytes replaced. *)
Lemma wf_escape s : wf_raw (escape s) = true.
Proof.
  unfold wf_raw, escape. pose proof (chunks_runes s) as Hk.
  assert (scan_string InString (foldr escape_chunk "" (chunks s) +:+ String quote_char "") =
          Parsed (foldr escape_chunk "" (chunks s)) "") as ->; [|by rewrite String.eqb_refl].
  induction Hk as [|k ks Hk _ IH]; [done|]. simpl.
  rewrite <-escape_chunk_app. by rewrite (scan_escape_chunk _ _ Hk), IH.
Qed.

Lemma unquote_escape s : unquote (escape s) = Some (sanitize s).
Proof.
  unfold unquote, escape. pose proof (chunks_runes s) as Hk.
  assert (unescape (foldr escape_chunk "" (chunks s)) = Some (sanitize s)) as ->; [|simpl; by rewrite sanitize_idem].
  unfold sanitize. induction Hk as [|k ks Hk _ IH]; [done|]. simpl. by rewrite (unescape_escape_chunk _ _ Hk), IH.
Qed.

(** What the scanner accepts as a literal can be unquoted. *)
Lemma scan_cons st s c raw r :
  scan_string st s = Parsed (String c raw) r → ∃ s' st', s = String c s' ∧ scan_string st' s' = Parsed raw r ∧
    match st with
    | InString => st' = if Ascii.eqb c backslash then InStringEsc else InString
    | InStringEsc => st' = (if Ascii.eqb c "u" then InStringEscU 3 else InString) ∧
        (Ascii.eqb c "u" = false → is_Some (short_unescape c))
    | InStringEscU k => st' = match k with 0 => InString | S k' => InStringEscU k' end ∧ is_Some (hex_value c)
    end.
Proof.
  destruct s as [|c' s']; [done|]. simpl. destruct st.
  - destruct (Ascii.eqb c' quote_char); [done|]. destruct (Ascii.eqb c' backslash) eqn:Hb.
    + intros (? & ? & [= -> ->])%pmap_Parsed. eexists _, _. split; [done|]. split; [eassumption|]. by rewrite Hb.
    + destruct (nat_of_ascii c' <? 32); [done|]. intros (? & ? & [= -> ->])%pmap_Parsed.
      eexists _, _. split; [done|]. split; [eassumption|]. by rewrite Hb.
  - destruct (Ascii.eqb c' "u") eqn:Hu.
    + intros (? & ? & [= -> ->])%pmap_Parsed. eexists _, _. split; [done|]. split; [eassumption|]. by rewrite Hu.
    + destruct (short_unescape c') eqn:Hs; [|done]. intros (? & ? & [= -> ->])%pmap_Parsed.
      eexists _, _. split; [done|]. split; [eassumption|]. rewrite Hu, Hs. eauto.
  - destruct (hex_value c') eqn:Hh; [|done]. intros (? & ? & [= -> ->])%pmap_Parsed.
    eexists _, _. split; [done|]. split; [eassumption|]. by rewrite Hh.
Qed.

Lemma scan_no_end st s r : st ≠ InString → scan_string st s ≠ Parsed "" r.
Proof.
  intros Hst. destruct s as [|c s]; [done|]. destruct st; simpl; [done|..];
    repeat case_match; try done; by intros (? & ? & ?)%pmap_Parsed.
Qed.

(** After the backslash and the [u] there are four digits, and more literal. *)
Lemma scan_hex4 s raw r :
  scan_string (InStringEscU 3) s = Parsed raw r → ∃ a b x y raw' s',
    raw = String a (String b (String x (String y raw'))) ∧ is_Some (getu4 a b x y) ∧
    scan_string InString s' = Parsed raw' r.
Proof.
  intros H. destruct raw as [|a raw]; [by apply scan_no_end in H|].
  apply scan_cons in H as (s1 & st1 & _ & H & -> & [va Ha]).
  destruct raw as [|b raw]; [by apply scan_no_end in H|].
  apply scan_cons in H as (s2 & st2 & _ & H & -> & [vb Hb]).
  destruct raw as [|x raw]; [by apply scan_no_end in H|].
  apply scan_cons in H as (s3 & st3 & _ & H & -> & [vx Hx]).
  destruct raw as [|y raw]; [by apply scan_no_end in H|].
  apply scan_cons in H as (s4 & st4 & _ & H & -> & [vy Hy]).
  exists a, b, x, y, raw, s4. split; [done|]. unfold getu4. rewrite Ha, Hb, Hx, Hy. eauto.
Qed.

Lemma scan_unescape s raw r : scan_string InString s = Parsed raw r → is_Some (unescape raw).
Proof.
  remember (String.length raw) as n eqn:Hn. revert s raw Hn.
  induction (lt_wf n) as [n _ IH]. intros s raw -> H.
  assert (∀ s' raw', String.length raw' < String.length raw → scan_string InString s' = Parsed raw' r →
    is_Some (unescape raw')) as IH' by eauto. clear IH.
  destruct raw as [|c raw]; [by eexists|].
  pose proof H as (s1 & st1 & -> & H1 & ->)%scan_cons. simpl in H. cbn [unescape].
  destruct (Ascii.eqb c backslash).
  2:{ destruct (Ascii.eqb c quote_char); [done|]. destruct (nat_of_ascii c <? 32); [done|]. simpl.
      destruct (IH' s1 raw) as [t ->]; [simpl; lia|done|by eexists]. }
  destruct raw as [|e raw]; [by apply scan_no_end in H1|].
  apply scan_cons in H1 as (s2 & st2 & -> & H2 & -> & He).
  destruct (Ascii.eqb e "u").
  2:{ destruct (He eq_refl) as [d ->]. destruct (IH' s2 raw) as [t ->]; [simpl; lia|done|by eexists]. }
  destruct (scan_hex4 _ _ _ H2) as (a & b & x & y & raw3 & s3 & -> & [u ->] & H3).
  destruct (IH' s3 raw3) as [t Ht]; [simpl; lia|done|].
  destruct (is_surrogate u); [|rewrite Ht; by eexists].
  destruct raw3 as [|p [|q [|a' [|b' [|x' [|y' raw4]]]]]]; try (rewrite Ht; by eexists).
  destruct (Ascii.eqb_spec p backslash) as [->|]; [|rewrite Ht; by eexists].
  destruct (Ascii.eqb_spec q "u") as [->|]; [|rewrite Ht; by eexists].
  destruct (getu4 a' b' x' y' ≫= surrogate_pair u) as [v|] eqn:Hv; [|simpl in *; rewrite Ht; by eexists].
  simpl in *.
  apply scan_cons in H3 as (s4 & ? & -> & H4 & ->). simpl in H4.
  apply scan_cons in H4 as (s5 & ? & -> & H5 & -> & _). simpl in H5.
  destruct (scan_hex4 _ _ _ H5) as (? & ? & ? & ? & ? & s6 & [= <- <- <- <- <-] & _ & H6).
  destruct (IH' s6 raw4) as [t' ->]; [simpl; lia|done|by eexists].
Qed.

(** ** Lemmas: integers *)

Lemma scan_digits t : all_bytes is_digit t = true → scan_number N1 t = Parsed t "".
Proof.
  induction t as [|c t IH]; [done|]. simpl. intros [-> Ht]%andb_true_iff. by rewrite (IH Ht).
Qed.

(** A positive number has a first digit that is not zero. *)
Lemma pretty_N_go_digits n s : (0 < n)%N → all_bytes is_digit s = true →
  ∃ c s', pretty_N_go n s = String c s' ∧ is_digit c = true ∧ Ascii.eqb c "0" = false ∧
    Ascii.eqb c "-" = false ∧ all_bytes is_digit s' = true.
Proof.
  revert s. induction (N.lt_wf_0 n) as [n _ IH]. intros s Hn Hs.
  assert (∀ m, (m < 10)%N → is_digit (pretty_N_char m) = true ∧ Ascii.eqb (pretty_N_char m) "-" = false ∧
    ((0 < m)%N → Ascii.eqb (pretty_N_char m) "0" = false)) as Hchar.
  { intros m Hm. assert (m = 0 ∨ m = 1 ∨ m = 2 ∨ m = 3 ∨ m = 4 ∨ m = 5 ∨ m = 6 ∨ m = 7 ∨ m = 8 ∨ m = 9)%N as H
      by lia. by destruct_or! H; subst. }
  rewrite pretty_N_go_step by done.
  destruct (Hchar (n `mod` 10)%N) as (H1 & H2 & H3); [apply N.mod_lt; lia|].
  destruct (decide (n < 10)%N) as [Hlt|Hge].
  - rewrite N.div_small by done. eexists _, s. split; [reflexivity|].
    rewrite (N.mod_small n 10) in H1, H2, H3 |- * by done. auto.
  - apply IH; [apply N.div_lt; lia| |simpl; by rewrite H1].
    apply N.div_str_pos. lia.
Qed.

Lemma wf_sprint_d z : wf_number (sprint_d z) = true.
Proof.
  unfold wf_number. assert (scan_number NStart (sprint_d z) = Parsed (sprint_d z) "") as ->;
    [|by rewrite String.eqb_refl].
  destruct z as [|n|n]; [done|..];
    destruct (pretty_N_go_digits (Npos n) "") as (c & s & Hp & Hc & H0 & Hm & Hs); try done;
    assert (pretty (Npos n) = String c s) as Hpp by exact Hp.
  - change (scan_number NStart (pretty (Npos n)) = Parsed (pretty (Npos n)) ""). rewrite Hpp. simpl.
    rewrite Hm, H0, Hc. by rewrite (scan_digits s Hs).
  - change (scan_number NStart (String "-" (pretty (Npos n))) = Parsed (String "-" (pretty (Npos n))) "").
    rewrite Hpp. simpl. rewrite H0, Hc. by rewrite (scan_digits s Hs).
Qed.

(** ** Looking into values *)

(** The first member of an object with a name. *)
Definition member (name : string) (j : json) : option json :=
  match j with
  | JObject m => snd <$> List.find (λ x, bool_decide (unquote x.1 = Some name)) m
  | _ => None
  end.

Definition text (j : json) : option string :=
  match j with JString raw => unquote raw | _ => None end.
