(* ===== verification/Rfc3339.v ===== *)
(** * The JSON text of times: RFC 3339

    [Time.MarshalJSON] and [Time.UnmarshalJSON] of package time, on the text between
    the quotes. A time is the nanoseconds since the zero time, 1 January of year 1
    in UTC; the location is its offset from UTC in minutes. *)

From stdpp Require Import base list strings.
From Stdlib Require Import ZArith Lia Ascii.
From S2P Require Import Prelude Strconv Utf8 Json Errors.

(** ** The calendar *)

Definition leap (y : Z) : bool :=
  (y mod 4 =? 0)%Z && (negb (y mod 100 =? 0)%Z || (y mod 400 =? 0)%Z).

(** The days before 1 January of year [y], from 1 January of year 1. *)
Definition days_before_year (y : Z) : Z :=
  (365 * (y - 1) + (y - 1) / 4 - (y - 1) / 100 + (y - 1) / 400)%Z.

(** The days before the first of month [m]. *)
Definition days_before_month (lp : bool) (m : Z) : Z :=
  let b := (if lp && (2 <? m)%Z then 1 else 0)%Z in
  (match m with
   | 1 => 0 | 2 => 31 | 3 => 59 | 4 => 90 | 5 => 120 | 6 => 151 | 7 => 181 | 8 => 212
   | 9 => 243 | 10 => 273 | 11 => 304 | 12 => 334 | _ => 365
   end + b)%Z.

Definition days_in (y m : Z) : Z := (days_before_month (leap y) (m + 1) - days_before_month (leap y) m)%Z.

(** The year of a day, and the day of the year from 0: cycles of 400, 100, 4 years
    and one year; the last of four is longer. *)
Definition year_of (d : Z) : Z * Z :=
  let n400 := (d / 146097)%Z in
  let d1 := (d mod 146097)%Z in
  let n100 := Z.min 3 (d1 / 36524) in
  let d2 := (d1 - 36524 * n100)%Z in
  let n4 := (d2 / 1461)%Z in
  let d3 := (d2 mod 1461)%Z in
  let n1 := Z.min 3 (d3 / 365) in
  ((400 * n400 + 100 * n100 + 4 * n4 + n1 + 1)%Z, (d3 - 365 * n1)%Z).

Fixpoint month_of (fuel : nat) (lp : bool) (yday m : Z) : Z :=
  match fuel with
  | 0 => m
  | S n => if (yday <? days_before_month lp (m + 1))%Z then m else month_of n lp yday (m + 1)
  end.

(** Year, month and day of the month. *)
Definition date (d : Z) : Z * Z * Z :=
  let '(y, yday) := year_of d in
  let m := month_of 11 (leap y) yday 1 in
  (y, m, (yday - days_before_month (leap y) m + 1)%Z).

Definition days_of (y m d : Z) : Z := (days_before_year y + days_before_month (leap y) m + d - 1)%Z.

(** ** Decimal fields *)

Definition digit_char (z : Z) : ascii := ascii_of_N (48 + Z.to_N z).

(** [z] in [k] digits, before [rest]. *)
Fixpoint pad (k : nat) (z : Z) (rest : string) : string :=
  match k with
  | 0 => rest
  | S k' => pad k' (z / 10) (String (digit_char (z mod 10)) rest)
  end.

(** Exactly [k] digits. *)
Fixpoint fixed (k : nat) (acc : Z) (s : string) : option (Z * string) :=
  match k with
  | 0 => Some (acc, s)
  | S k' => match s with
            | String c s' => match digit_of c with Some n => fixed k' (10 * acc + n) s' | None => None end
            | EmptyString => None
            end
  end.

(** A field of [k] digits between bounds. *)
Definition field_in (k : nat) (lo hi : Z) (s : string) : option (Z * string) :=
  match fixed k 0 s with
  | Some (z, r) => if (lo <=? z)%Z && (z <=? hi)%Z then Some (z, r) else None
  | None => None
  end.

Definition expect (c : ascii) (s : string) : option string :=
  match s with String c' s' => if Ascii.eqb c c' then Some s' else None | EmptyString => None end.

(** Fractions: without trailing zeros, and not at all when zero. *)
Fixpoint fraction (k : nat) (z : Z) (rest : string) : string :=
  match k with
  | 0 => rest
  | S k' => if (z mod 10 =? 0)%Z then fraction k' (z / 10) rest else String "." (pad k z rest)
  end.

(** All digits at the front: how many, their value, and the rest. *)
Fixpoint many_digits (n : nat) (acc : Z) (s : string) : nat * Z * string :=
  match s with
  | String c s' => match digit_of c with
                   | Some d => many_digits (S n) (10 * acc + d) s'
                   | None => (n, acc, s)
                   end
  | EmptyString => (n, acc, s)
  end.

(** A period with digits after it; digits after the ninth are dropped. *)
Definition parse_fraction (s : string) : Z * string :=
  match expect "." s with
  | Some s' =>
      match many_digits 0 0 s' with
      | (0, _, _) => (0%Z, s)
      | (n, v, r) => (if n <=? 9 then (v * 10 ^ Z.of_nat (9 - n))%Z else (v / 10 ^ Z.of_nat (n - 9))%Z, r)
      end
  | None => (0%Z, s)
  end.

(** ** Writing *)

Definition day_seconds : Z := 86400%Z.

Definition write_zone (off : Z) : string :=
  if (off =? 0)%Z then "Z"
  else String (if (off <? 0)%Z then "-" else "+")
         (pad 2 (Z.abs off / 60) (String ":" (pad 2 (Z.abs off mod 60) ""))).

(** The date and time of day of a number of seconds. *)
Definition write_seconds (s : Z) (rest : string) : string :=
  let '(y, m, d) := date (s / day_seconds) in
  let c := (s mod day_seconds)%Z in
  pad 4 y (String "-" (pad 2 m (String "-" (pad 2 d (String "T"
    (pad 2 (c / 3600) (String ":" (pad 2 (c / 60 mod 60) (String ":" (pad 2 (c mod 60) rest)))))))))).

Definition time_err (msg : string) : error := ErrorString ("Time.MarshalJSON: " +:+ msg).

(** The year has four digits and the hours of the offset two, at most 23. *)
Definition MarshalTime (zone : Z → Z) (t : Z) : string + error :=
  let off := zone t in
  let s := (t / Second + 60 * off)%Z in
  let '(y, _, _) := date (s / day_seconds) in
  if (y <? 0)%Z || (9999 <? y)%Z then inr (time_err "year outside of range [0,9999]")
  else if (24 <=? Z.abs off / 60)%Z then inr (time_err "timezone hour outside of range [0,23]")
  else inl (write_seconds s (fraction 9 (t mod Second) (write_zone off))).

(** ** Reading *)

Notation "'let*' p := m 'in' k" := (match m with Some p => k | None => None end)
  (at level 200, p pattern, m at level 100, k at level 200) : go_scope.

Definition read_seconds (s : string) : option (Z * string) :=
  (let* (y, s) := field_in 4 0 9999 s in let* s := expect "-" s in
   let* (m, s) := field_in 2 1 12 s in let* s := expect "-" s in
   let* (d, s) := field_in 2 1 (days_in y m) s in let* s := expect "T" s in
   let* (hh, s) := field_in 2 0 23 s in let* s := expect ":" s in
   let* (mm, s) := field_in 2 0 59 s in let* s := expect ":" s in
   let* (ss, s) := field_in 2 0 59 s in
   Some ((day_seconds * days_of y m d + 3600 * hh + 60 * mm + ss)%Z, s))%go.

(** The offset in minutes. *)
Definition read_zone (s : string) : option Z :=
  (if String.eqb s "Z" then Some 0%Z
   else match s with
        | String c s =>
            let* (hh, s) := field_in 2 0 23 s in let* s := expect ":" s in
            let* (mm, s) := field_in 2 0 59 s in
            if String.eqb s "" then
              if Ascii.eqb c "-" then Some (- (60 * hh + mm))%Z
              else if Ascii.eqb c "+" then Some (60 * hh + mm)%Z else None
            else None
        | EmptyString => None
        end)%go.

Definition UnmarshalTime (raw : string) : option Z :=
  (let* (secs, s) := read_seconds raw in
   let '(ns, s) := parse_fraction s in
   let* off := read_zone s in
   Some ((secs - 60 * off) * Second + ns)%Z)%go.

Example time_text :
  MarshalTime (λ _, 120%Z) (63876405600 * Second + 120000000) = inl "2025-03-01T08:00:00.12+02:00" ∧
  UnmarshalTime "2025-03-01T08:00:00.12+02:00" = Some (63876405600 * Second + 120000000)%Z ∧
  UnmarshalTime "2025-02-29T08:00:00Z" = None ∧ MarshalTime (λ _, 0%Z) 0 = inl "0001-01-01T00:00:00Z".
Proof. vm_compute. auto. Qed.

(** ** Lemmas: the calendar *)

(** The year of a day, from its cycles. *)
Lemma year_cycles d : ∃ a b c e r,
  year_of d = (400 * a + 100 * b + 4 * c + e + 1, r)%Z ∧
  d = (146097 * a + 36524 * b + 1461 * c + 365 * e + r)%Z ∧
  (0 ≤ b ≤ 3)%Z ∧ (0 ≤ c ≤ 24)%Z ∧ (0 ≤ e ≤ 3)%Z ∧ (0 ≤ r ≤ 365)%Z ∧
  (r = 365 → e = 3 ∧ (c = 24 → b = 3))%Z.
Proof.
  unfold year_of. eexists _, _, _, _, _. split; [reflexivity|].
  pose proof (Z.div_mod d 146097). pose proof (Z.mod_pos_bound d 146097).
  set (d1 := (d mod 146097)%Z) in *. set (n100 := Z.min 3 (d1 / 36524)).
  assert (36524 * n100 ≤ d1 ∧ (n100 = 3 ∨ d1 < 36524 * n100 + 36524) ∧ 0 ≤ n100 ≤ 3)%Z as (? & ? & ?).
  { unfold n100. pose proof (Z.div_mod d1 36524). pose proof (Z.mod_pos_bound d1 36524). lia. }
  set (d2 := (d1 - 36524 * n100)%Z) in *.
  pose proof (Z.div_mod d2 1461). pose proof (Z.mod_pos_bound d2 1461).
  set (d3 := (d2 mod 1461)%Z) in *. set (n1 := Z.min 3 (d3 / 365)).
  assert (365 * n1 ≤ d3 ∧ (n1 = 3 ∨ d3 < 365 * n1 + 365) ∧ 0 ≤ n1 ≤ 3)%Z as (? & ? & ?).
  { unfold n1. pose proof (Z.div_mod d3 365). pose proof (Z.mod_pos_bound d3 365). lia. }
  lia.
Qed.

(** The divisions of a year given by cycles. *)
Lemma cycle_div a b c e : (0 ≤ b ≤ 3)%Z → (0 ≤ c ≤ 24)%Z → (0 ≤ e ≤ 3)%Z →
  let y := (400 * a + 100 * b + 4 * c + e)%Z in
  (y / 4 = 100 * a + 25 * b + c ∧ y / 100 = 4 * a + b ∧ y / 400 = a)%Z.
Proof.
  intros Hb Hc He. split_and!; symmetry;
    [apply (Z.div_unique_pos _ _ _ e)|apply (Z.div_unique_pos _ _ _ (4 * c + e))
    |apply (Z.div_unique_pos _ _ _ (100 * b + 4 * c + e))]; lia.
Qed.

Lemma leap_cycles a b c e : (0 ≤ b ≤ 3)%Z → (0 ≤ c ≤ 24)%Z → (0 ≤ e ≤ 3)%Z →
  leap (400 * a + 100 * b + 4 * c + e + 1) = (e =? 3)%Z && (negb (c =? 24)%Z || (b =? 3)%Z).
Proof.
  intros Hb Hc He. set (y := (400 * a + 100 * b + 4 * c + e + 1)%Z). unfold leap.
  pose proof (Z.div_mod y 4). pose proof (Z.mod_pos_bound y 4).
  pose proof (Z.div_mod y 100). pose proof (Z.mod_pos_bound y 100).
  pose proof (Z.div_mod y 400). pose proof (Z.mod_pos_bound y 400).
  destruct (Z.eqb_spec (y mod 4) 0), (Z.eqb_spec (y mod 100) 0), (Z.eqb_spec (y mod 400) 0),
    (Z.eqb_spec e 3), (Z.eqb_spec c 24), (Z.eqb_spec b 3); simpl; lia.
Qed.

Lemma year_of_spec d : let '(y, r) := year_of d in
  d = (days_before_year y + r)%Z ∧ (0 ≤ r)%Z ∧ (r < if leap y then 366 else 365)%Z.
Proof.
  destruct (year_cycles d) as (a & b & c & e & r & -> & -> & Hb & Hc & He & Hr & Hlast).
  rewrite leap_cycles by done. unfold days_before_year.
  destruct (cycle_div a b c e Hb Hc He) as (H4 & H100 & H400).
  replace (400 * a + 100 * b + 4 * c + e + 1 - 1)%Z with (400 * a + 100 * b + 4 * c + e)%Z by lia.
  rewrite H4, H100, H400. split; [lia|]. split; [lia|].
  destruct (Z.eqb_spec e 3), (Z.eqb_spec c 24), (Z.eqb_spec b 3); simpl; lia.
Qed.

(** The month of a day of the year. *)
Lemma month_of_spec (lp : bool) r : (0 ≤ r)%Z → (r < if lp then 366 else 365)%Z →
  let m := month_of 11 lp r 1 in
  (1 ≤ m ≤ 12)%Z ∧ (days_before_month lp m ≤ r < days_before_month lp (m + 1))%Z.
Proof.
  intros H0 H1. simpl month_of.
  destruct lp; unfold days_before_month; simpl;
    repeat match goal with |- context [(?x <? ?y)%Z] => destruct (Z.ltb_spec x y); simpl end; lia.
Qed.

Lemma date_spec n : let '(y, m, d) := date n in
  days_of y m d = n ∧ (1 ≤ m ≤ 12)%Z ∧ (1 ≤ d ≤ days_in y m)%Z.
Proof.
  unfold date. pose proof (year_of_spec n) as Hy. destruct (year_of n) as [y r]. destruct Hy as (Hn & H0 & H1).
  destruct (month_of_spec (leap y) r H0 H1) as (Hm & Hlo & Hhi). unfold days_of, days_in. lia.
Qed.

(** ** Lemmas: the texts *)

Lemma digit_char_cases (P : Z → Prop) :
  P 0%Z → P 1%Z → P 2%Z → P 3%Z → P 4%Z → P 5%Z → P 6%Z → P 7%Z → P 8%Z → P 9%Z → ∀ z, (0 ≤ z < 10)%Z → P z.
Proof.
  intros. assert (z = 0 ∨ z = 1 ∨ z = 2 ∨ z = 3 ∨ z = 4 ∨ z = 5 ∨ z = 6 ∨ z = 7 ∨ z = 8 ∨ z = 9)%Z as Hz by lia.
  by destruct_or! Hz; subst.
Qed.

Lemma digit_of_char z : (0 ≤ z < 10)%Z → digit_of (digit_char z) = Some z.
Proof. revert z. by apply digit_char_cases. Qed.

Lemma digit_char_range z : (0 ≤ z mod 10 < 10)%Z.
Proof. apply Z.mod_pos_bound. lia. Qed.

(** A field that was padded to [k] digits is read back, [m] more digits to come. *)
Lemma fixed_pad k m acc z rest : (0 ≤ z < 10 ^ Z.of_nat k)%Z →
  fixed (k + m) acc (pad k z rest) = fixed m (acc * 10 ^ Z.of_nat k + z) rest.
Proof.
  revert m z rest. induction k as [|k IH]; intros m z rest Hz.
  - simpl in *. f_equal. lia.
  - rewrite Nat2Z.inj_succ, Z.pow_succ_r in * by lia.
    pose proof (Z.div_mod z 10). pose proof (digit_char_range z).
    simpl pad. replace (S k + m) with (k + S m) by lia. rewrite IH.
    + simpl. rewrite digit_of_char by apply digit_char_range. f_equal. lia.
    + split; [apply Z.div_pos; lia|]. apply Z.div_lt_upper_bound; lia.
Qed.

Lemma field_in_pad k lo hi z rest : (0 ≤ z < 10 ^ Z.of_nat k)%Z → (lo ≤ z ≤ hi)%Z →
  field_in k lo hi (pad k z rest) = Some (z, rest).
Proof.
  intros Hz [Hlo Hhi]. unfold field_in. rewrite <-(Nat.add_0_r k) at 1. rewrite fixed_pad by done.
  rewrite Z.mul_0_l, Z.add_0_l. cbn [fixed]. apply Z.leb_le in Hlo, Hhi. by rewrite Hlo, Hhi.
Qed.

Lemma field_in_2 lo hi z rest : (0 ≤ z < 100)%Z → (lo ≤ z ≤ hi)%Z → field_in 2 lo hi (pad 2 z rest) = Some (z, rest).
Proof. by apply (field_in_pad 2). Qed.

Lemma field_in_4 lo hi z rest : (0 ≤ z < 10000)%Z → (lo ≤ z ≤ hi)%Z → field_in 4 lo hi (pad 4 z rest) = Some (z, rest).
Proof. by apply (field_in_pad 4). Qed.

Lemma expect_cons c s : expect c (String c s) = Some s.
Proof. simpl. by rewrite Ascii.eqb_refl. Qed.

Lemma many_digits_pad k n acc z rest : (0 ≤ z < 10 ^ Z.of_nat k)%Z →
  many_digits n acc (pad k z rest) = many_digits (n + k) (acc * 10 ^ Z.of_nat k + z) rest.
Proof.
  revert n z rest. induction k as [|k IH]; intros n z rest Hz.
  - simpl in *. f_equal; lia.
  - rewrite Nat2Z.inj_succ, Z.pow_succ_r in * by lia.
    pose proof (Z.div_mod z 10). pose proof (digit_char_range z).
    simpl pad. rewrite IH.
    + simpl. rewrite digit_of_char by apply digit_char_range. f_equal; lia.
    + split; [apply Z.div_pos; lia|]. apply Z.div_lt_upper_bound; lia.
Qed.

(** What follows the fraction is no digit. *)
Definition no_digit (s : string) : Prop :=
  match s with EmptyString => True | String c _ => digit_of c = None ∧ Ascii.eqb "." c = false end.

Lemma many_digits_end n acc s : no_digit s → many_digits n acc s = (n, acc, s).
Proof. destruct s as [|c s]; [done|]. simpl. by intros [-> _]. Qed.

Lemma parse_fraction_write k z rest : k ≤ 9 → (0 ≤ z < 10 ^ Z.of_nat k)%Z → no_digit rest →
  parse_fraction (fraction k z rest) = ((z * 10 ^ Z.of_nat (9 - k))%Z, rest).
Proof.
  revert z. induction k as [|k IH]; intros z Hk Hz Hr.
  - simpl in *. assert (z = 0)%Z as -> by lia. unfold parse_fraction.
    destruct rest as [|c s]; [done|]. destruct Hr as [_ Hr]. unfold expect. by rewrite Hr.
  - cbn [fraction]. destruct (Z.eqb_spec (z mod 10) 0) as [H0|Hne].
    + pose proof (Z.div_mod z 10). rewrite Nat2Z.inj_succ, Z.pow_succ_r in Hz by lia.
      rewrite IH; [|lia|split; [apply Z.div_pos; lia|apply Z.div_lt_upper_bound; lia]|done].
      f_equal. replace (9 - k) with (S (9 - S k)) by lia. rewrite Nat2Z.inj_succ, Z.pow_succ_r by lia. lia.
    + unfold parse_fraction. rewrite expect_cons, (many_digits_pad (S k) 0 0 z rest Hz), (many_digits_end _ _ _ Hr).
      cbn [Nat.add]. destruct (Nat.leb_spec (S k) 9); [|lia]. done.
Qed.

Lemma write_zone_no_digit off : no_digit (write_zone off).
Proof. unfold write_zone. destruct (off =? 0)%Z; [done|]. by destruct (off <? 0)%Z. Qed.

Lemma read_write_zone off : (Z.abs off / 60 < 24)%Z → read_zone (write_zone off) = Some off.
Proof.
  intros H. unfold write_zone. destruct (Z.eqb_spec off 0) as [->|Hne]; [done|].
  assert (0 ≤ Z.abs off / 60)%Z as H0 by (apply Z.div_pos; lia).
  pose proof (Z.mod_pos_bound (Z.abs off) 60). pose proof (Z.div_mod (Z.abs off) 60).
  unfold read_zone. destruct (String.eqb_spec (String (if (off <? 0)%Z then "-" else "+")%char
    (pad 2 (Z.abs off / 60) (String ":" (pad 2 (Z.abs off mod 60) "")))) "Z") as [Heq|_]; [by destruct (off <? 0)%Z|].
  rewrite field_in_2, expect_cons, field_in_2 by lia. simpl.
  destruct (Z.ltb_spec off 0); simpl; f_equal; lia.
Qed.

Lemma read_write_seconds s rest :
  let '(y, _, _) := date (s / day_seconds) in
  (0 ≤ y ≤ 9999)%Z → read_seconds (write_seconds s rest) = Some (s, rest).
Proof.
  unfold write_seconds. pose proof (date_spec (s / day_seconds)) as Hd.
  destruct (date (s / day_seconds)) as [[y m] d]. intros Hy. destruct Hd as (Hdays & Hm & Hdm).
  assert (days_in y m ≤ 31)%Z as Hmax.
  { unfold days_in, days_before_month. assert (m = 1 ∨ m = 2 ∨ m = 3 ∨ m = 4 ∨ m = 5 ∨ m = 6 ∨ m = 7 ∨ m = 8 ∨ m = 9
      ∨ m = 10 ∨ m = 11 ∨ m = 12)%Z as H by lia. destruct (leap y); by destruct_or! H; subst. }
  pose proof (Z.mod_pos_bound s day_seconds) as Hc. pose proof (Z.div_mod s day_seconds) as Hs.
  unfold day_seconds in *. set (c := (s mod 86400)%Z) in *.
  assert (0 ≤ c / 3600 ≤ 23)%Z by (split; [apply Z.div_pos; lia|apply Z.lt_succ_r, Z.div_lt_upper_bound; lia]).
  pose proof (Z.mod_pos_bound (c / 60) 60). pose proof (Z.mod_pos_bound c 60).
  unfold read_seconds, day_seconds.
  rewrite field_in_4, expect_cons, field_in_2, expect_cons, field_in_2, expect_cons,
    field_in_2, expect_cons, field_in_2, expect_cons, field_in_2 by lia.
  rewrite Hdays. do 2 f_equal.
  pose proof (Z.div_mod c 60). pose proof (Z.div_mod (c / 60) 60).
  assert (c / 3600 = c / 60 / 60)%Z as -> by by rewrite Z.div_div. lia.
Qed.

Lemma UnmarshalTime_parts raw secs s ns s' off :
  read_seconds raw = Some (secs, s) → parse_fraction s = (ns, s') → read_zone s' = Some off →
  UnmarshalTime raw = Some ((secs - 60 * off) * Second + ns)%Z.
Proof. unfold UnmarshalTime. intros -> -> ->. done. Qed.

(** A time that can be written is read back: the same instant. *)
Lemma UnmarshalTime_Marshal zone t raw : MarshalTime zone t = inl raw → UnmarshalTime raw = Some t.
Proof.
  unfold MarshalTime. pose proof (read_write_seconds (t / Second + 60 * zone t)) as Hs.
  destruct (date ((t / Second + 60 * zone t) / day_seconds)) as [[y m] d].
  destruct (Z.ltb_spec y 0) as [|Hy0]; [done|]. destruct (Z.ltb_spec 9999 y) as [|Hy]; [done|].
  destruct (Z.leb_spec 24 (Z.abs (zone t) / 60)) as [|Hz]; [done|]. intros [= <-].
  pose proof (Z.mod_pos_bound t Second) as Ht. pose proof (Z.div_mod t Second) as Hd.
  erewrite UnmarshalTime_parts;
    [|apply Hs; lia|apply (parse_fraction_write 9); [done| |apply write_zone_no_digit]|by apply read_write_zone].
  - f_equal. change (10 ^ Z.of_nat (9 - 9))%Z with 1%Z. unfold Second, Millisecond in *. lia.
  - change (10 ^ Z.of_nat 9)%Z with Second. apply Ht. done.
Qed.

(** The text needs no escape. *)
Definition plain_byte (c : ascii) : bool :=
  negb (Ascii.eqb c quote_char) && negb (Ascii.eqb c backslash) && negb (nat_of_ascii c <? 32).

Lemma plain_raw s : all_bytes plain_byte s = true → wf_raw s = true.
Proof.
  intros Hs. unfold wf_raw.
  assert (scan_string InString (s +:+ String quote_char "") = Parsed s "") as ->; [|by rewrite String.eqb_refl].
  induction s as [|c s IH]; [done|]. simpl in Hs. apply andb_true_iff in Hs as [Hc Hs].
  change (String c s +:+ String quote_char "") with (String c (s +:+ String quote_char "")). cbn [scan_string].
  unfold plain_byte in Hc. rewrite !andb_true_iff, !negb_true_iff in Hc. destruct Hc as ((-> & ->) & ->).
  by rewrite (IH Hs).
Qed.

Lemma plain_pad k z rest : all_bytes plain_byte rest = true → all_bytes plain_byte (pad k z rest) = true.
Proof.
  revert z rest. induction k as [|k IH]; intros z rest Hr; [done|]. simpl pad. apply IH.
  cbn [all_bytes]. rewrite Hr, andb_true_r.
  pose proof (digit_char_range z) as Hz. revert Hz. generalize (z mod 10)%Z. by apply digit_char_cases.
Qed.

Lemma plain_cons c s : plain_byte c = true → all_bytes plain_byte s = true → all_bytes plain_byte (String c s) = true.
Proof. cbn [all_bytes]. by intros -> ->. Qed.

Lemma plain_fraction k z rest : all_bytes plain_byte rest = true → all_bytes plain_byte (fraction k z rest) = true.
Proof.
  revert z. induction k as [|k IH]; intros z Hr; [done|]. cbn [fraction]. case_match; [by apply IH|].
  apply plain_cons; [done|]. by apply plain_pad.
Qed.

Lemma plain_zone off : all_bytes plain_byte (write_zone off) = true.
Proof.
  unfold write_zone. case_match; [done|]. apply plain_cons; [by destruct (off <? 0)%Z|].
  apply plain_pad, plain_cons, plain_pad; done.
Qed.

Lemma plain_seconds s rest : all_bytes plain_byte rest = true → all_bytes plain_byte (write_seconds s rest) = true.
Proof.
  intros Hr. unfold write_seconds. destruct (date _) as [[y m] d].
  do 5 (apply plain_pad, plain_cons; [done|]). by apply plain_pad.
Qed.

Lemma MarshalTime_raw zone t raw : MarshalTime zone t = inl raw → wf_raw raw = true.
Proof.
  pose proof (plain_seconds (t / Second + 60 * zone t) _ (plain_fraction 9 (t mod Second) _ (plain_zone (zone t)))) as Hp.
  unfold MarshalTime. destruct (date _) as [[y m] d].
  destruct ((y <? 0)%Z || (9999 <? y)%Z); [done|]. destruct (24 <=? Z.abs (zone t) / 60)%Z; [done|].
  intros [= <-]. by apply plain_raw.
Qed.
