(* ===== verification/JsonStruct.v ===== *)
(** * encoding/json: values of Go types

    How encoding/json reads a value into a struct and writes a struct: fields by
    name (exactly, else ignoring case), what a null, a value of another type, a
    duplicate and an unknown member do, which error is reported. [json.Unmarshal],
    [Decoder.Decode] and cachekit's [JSONCodec] over them. The texts of the errors
    of encoding/json are an argument, [json_text]. *)

From stdpp Require Import base list strings pretty.
From Stdlib Require Import ZArith Lia Ascii.
From S2P Require Import Prelude Strconv Utf8 Json Rfc3339 Errors Runtime Cache.

(** ** Errors *)

Inductive json_error : Type :=
| SyntaxError                       (* an unexpected byte *)
| UnexpectedEnd                     (* of the data of [Unmarshal] *)
| EOF | ErrUnexpectedEOF            (* of the input of a decoder *)
| UnmarshalTypeError (field : string)
| UnknownField (name : string)
| UnmarshalerError (field : string).  (* of the [UnmarshalJSON] of a field *)

(** ** Structs *)

(** Storing a value into a field: done; not done, with an error that is reported
    when the whole value has been read; or an error that ends the reading. *)
Inductive stored (T : Type) : Type :=
| Stored (t : T) | SavedError (t : T) (e : json_error) | Aborted (t : T) (e : json_error).
Arguments Stored {T}.
Arguments SavedError {T}.
Arguments Aborted {T}.

Record field (T : Type) : Type := mkField { f_name : string; f_store : json → T → stored T }.
Arguments mkField {T}.
Arguments f_name {T}.
Arguments f_store {T}.

(** The folded name, for comparison with names in ASCII: lower-case letters become
    upper-case, and so do the two other code points that fold to a letter, U+017F
    and U+212A. *)
Definition fold_byte (c : ascii) : ascii :=
  if byte_in 97 122 c then ascii_of_nat (nat_of_ascii c - 32) else c.

Definition fold_chunk (k : option string) : string :=
  match k with
  | Some (String c "") => String (fold_byte c) ""
  | Some r =>
      if String.eqb r (String "197" (String "191" "")) then "S"
      else if String.eqb r (String "226" (String "132" (String "170" ""))) then "K"
      else r
  | None => replacement
  end.

Definition foldName (s : string) : string := foldr (λ k t, fold_chunk k +:+ t) "" (chunks s).

Section Struct.
Context {T : Type} (fs : list (field T)).

Definition find_field (key : string) : option (field T) :=
  match List.find (λ f, String.eqb (f_name f) key) fs with
  | Some f => Some f
  | None => List.find (λ f, String.eqb (foldName (f_name f)) (foldName key)) fs
  end.

(** The first error saved is the one reported. *)
Definition save (saved : option json_error) (e : json_error) : option json_error :=
  match saved with Some _ => saved | None => Some e end.

(** The members of an object in the order of the text. *)
Fixpoint store_members (disallowUnknown : bool) (ms : list (string * json)) (t : T)
    (saved : option json_error) : T * option json_error :=
  match ms with
  | [] => (t, saved)
  | (raw, v) :: ms' =>
      let key := default "" (unquote raw) in
      match find_field key with
      | None => store_members disallowUnknown ms' t
                  (if disallowUnknown then save saved (UnknownField key) else saved)
      | Some f =>
          match f_store f v t with
          | Stored t' => store_members disallowUnknown ms' t' saved
          | SavedError t' e => store_members disallowUnknown ms' t' (save saved e)
          | Aborted t' e => (t', Some e)
          end
      end
  end.

Definition store_struct (disallowUnknown : bool) (v : json) (t : T) : T * option json_error :=
  match v with
  | JNull => (t, None)
  | JObject ms => store_members disallowUnknown ms t None
  | _ => (t, Some (UnmarshalTypeError ""))
  end.
End Struct.

(** Fields of type string and int64. *)
Definition string_field {T} (name : string) (set : string → T → T) : field T :=
  mkField name (λ v t,
    match v with
    | JString raw => Stored (set (default "" (unquote raw)) t)
    | JNull => Stored t
    | _ => SavedError t (UnmarshalTypeError name)
    end).

Definition int64_field {T} (name : string) (set : Z → T → T) : field T :=
  mkField name (λ v t,
    match v with
    | JNumber n => match ParseInt n with
                   | Some z => Stored (set z t)
                   | None => SavedError t (UnmarshalTypeError name)
                   end
    | JNull => Stored t
    | _ => SavedError t (UnmarshalTypeError name)
    end).

(** A field of type [time.Time], by its [UnmarshalJSON]; a text that cannot be
    parsed leaves the zero time. *)
Definition time_field {T} (name : string) (set : Z → T → T) : field T :=
  mkField name (λ v t,
    match v with
    | JString raw => match UnmarshalTime raw with
                     | Some z => Stored (set z t)
                     | None => Aborted (set 0%Z t) (UnmarshalerError name)
                     end
    | JNull => Stored t
    | _ => Aborted t (UnmarshalerError name)
    end).

(** ** Types that encoding/json can write and read *)

Class ToJson (V : Type) : Type := to_json : V → json + error.

(** With [DisallowUnknownFields] or not, into a value. *)
Class FromJson (V : Type) : Type := from_json : bool → json → V → V * option json_error.

Definition json_Marshal {V} `{!ToJson V} (v : V) : string + error :=
  match to_json v with inl j => inl (print j "") | inr e => inr e end.

(** The bytes of a reader, up to its end or up to an error of it. *)
Record Body : Type := mkBody { b_data : string; b_err : option error }.

(** The end of an object or an array is seen at its closing bracket, the end of
    any other value only at the next byte or the end of the input. *)
Definition self_delimiting (j : json) : bool :=
  match j with JArray _ | JObject _ => true | _ => false end.

Section Encoding.
Context {V : Type} `{!FromJson V} (json_text : string → json_error → string).

Definition json_err (data : string) (e : json_error) : error := ErrorString (json_text data e).

(** The data is one value, with white space around it. *)
Definition json_Unmarshal (data : string) (dest : V) : V * option error :=
  match parse data with
  | Parsed j rest =>
      if String.eqb (skip rest) "" then
        let r := from_json false j dest in (r.1, json_err data <$> r.2)
      else (dest, Some (json_err data SyntaxError))
  | Truncated => (dest, Some (json_err data UnexpectedEnd))
  | _ => (dest, Some (json_err data SyntaxError))
  end.

(** The first value of the input; what follows it is not looked at. *)
Definition Decoder_Decode (disallowUnknown : bool) (b : Body) (dest : V) : V * option error :=
  match parse (b_data b) with
  | Parsed j rest =>
      let r := from_json disallowUnknown j dest in
      match b_err b with
      | Some e => if negb (self_delimiting j) && String.eqb rest "" then (dest, Some e)
                  else (r.1, json_err (b_data b) <$> r.2)
      | None => (r.1, json_err (b_data b) <$> r.2)
      end
  | Truncated =>
      match b_err b with
      | Some e => (dest, Some e)
      | None => (dest, Some (json_err (b_data b)
                   (if String.eqb (skip (b_data b)) "" then EOF else ErrUnexpectedEOF)))
      end
  | _ => (dest, Some (json_err (b_data b) SyntaxError))
  end.

(** ** cachekit's default codec *)
Definition JSONCodec `{!ToJson V} : Codec V := mkCodec json_Marshal json_Unmarshal.
End Encoding.

(** ** What a type promises: its values in [good] are read back as they were *)

Class JsonLaws (V : Type) `{!ToJson V, !FromJson V} (good : V → Prop) : Prop := {
  law_wf v j : to_json v = inl j → wf_json j = true ∧ (nesting j ≤ maxNestingDepth)%Z;
  law_roundtrip v j b dest : good v → to_json v = inl j → from_json b j dest = (v, None)
}.

(** ** Lemmas *)

Section StructLemmas.
Context {T : Type} (fs : list (field T)).

Lemma store_members_field b raw v ms t saved f t' :
  find_field fs (default "" (unquote raw)) = Some f → f_store f v t = Stored t' →
  store_members fs b ((raw, v) :: ms) t saved = store_members fs b ms t' saved.
Proof. simpl. by intros -> ->. Qed.

(** An invariant of the fields is an invariant of the struct, errors or not. *)
Definition keeps (P : T → Prop) (f : field T) : Prop :=
  ∀ v t, P t → match f_store f v t with Stored t' | SavedError t' _ | Aborted t' _ => P t' end.

Lemma find_field_fold key f : find_field fs key = Some f → f ∈ fs ∧ foldName (f_name f) = foldName key.
Proof.
  unfold find_field. destruct (List.find _ fs) as [f'|] eqn:Hf.
  - intros [= <-]. apply find_some in Hf as [? ->%String.eqb_eq]. split; [by apply list_elem_of_In|done].
  - intros [? ?%String.eqb_eq]%find_some. split; [by apply list_elem_of_In|done].
Qed.

Lemma store_members_inv (P : T → Prop) b ms t saved :
  Forall (keeps P) fs → P t → P (store_members fs b ms t saved).1.
Proof.
  intros Hfs. revert t saved. induction ms as [|[raw v] ms IH]; intros t saved Ht; [done|]. simpl.
  destruct (find_field fs _) as [f|] eqn:Hf; [|by apply IH].
  assert (keeps P f) as Hk by (rewrite Forall_forall in Hfs; by eapply Hfs, find_field_fold).
  specialize (Hk v t Ht). destruct (f_store f v t); [by apply IH..|done].
Qed.

Lemma store_struct_inv (P : T → Prop) b v t :
  Forall (keeps P) fs → P t → P (store_struct fs b v t).1.
Proof. intros Hfs Ht. destruct v; try done. simpl. by apply store_members_inv. Qed.

(** Strict reading accepts no member that is not a field, and nothing but objects
    and null. *)
Lemma store_members_saved b ms t e : ∃ e', (store_members fs b ms t (Some e)).2 = Some e'.
Proof.
  revert t e. induction ms as [|[raw v] ms IH]; intros t e; simpl; [eauto|].
  repeat case_match; simpl; eauto.
Qed.

Lemma store_members_strict ms t : (store_members fs true ms t None).2 = None →
  Forall (λ m, is_Some (find_field fs (default "" (unquote m.1)))) ms.
Proof.
  revert t. induction ms as [|[raw v] ms IH]; intros t; simpl; [constructor|].
  destruct (find_field fs _) as [f|] eqn:Hf.
  - destruct (f_store f v t) as [t'|t' e|t' e]; simpl; [|by destruct (store_members_saved true ms t' e) as [? ->]|done].
    intros H. constructor; [by eexists|]. by eapply IH.
  - simpl. by destruct (store_members_saved true ms t (UnknownField (default "" (unquote raw)))) as [? ->].
Qed.
End StructLemmas.

(** What is stored in a field of type string is UTF-8, in one of type int64 in range. *)
Lemma unquote_valid raw : valid_utf8 (default "" (unquote raw)) = true.
Proof. unfold unquote. destruct (unescape raw); [apply valid_sanitize|done]. Qed.

Lemma wf_raw_unquote raw : wf_raw raw = true → ∃ s, unquote raw = Some s.
Proof.
  intros H. apply scan_literal with (k := "") in H. apply scan_unescape in H as [s Hs].
  exists (sanitize s). unfold unquote. by rewrite Hs.
Qed.

Lemma string_field_keeps {T} (P : T → Prop) name set :
  (∀ s t, valid_utf8 s = true → P t → P (set s t)) → keeps P (string_field name set).
Proof. intros H v t Ht. destruct v; try done. by apply H, Ht; apply unquote_valid. Qed.

Lemma int64_field_keeps {T} (P : T → Prop) name set :
  (∀ z t, in_int64 z → P t → P (set z t)) → keeps P (int64_field name set).
Proof.
  intros H v t Ht. destruct v as [| |n| | |]; try done. simpl. destruct (ParseInt n) as [z|] eqn:Hz; [|done].
  apply H; [|done]. by eapply ParseInt_range.
Qed.

(** What a decoder gives has every property that reading keeps, errors or not. *)
Lemma Decoder_Decode_inv {V} `{!FromJson V} json_text (P : V → Prop) b bd dest :
  (∀ v t, P t → P (from_json b v t).1) → P dest → P (Decoder_Decode json_text b bd dest).1.
Proof.
  intros Hf Hd. unfold Decoder_Decode. destruct (parse (b_data bd)); [|done| |done];
    destruct (b_err bd); try done; simpl; repeat case_match; simpl; auto.
Qed.

(** Nothing after an object is looked at, neither text nor an error. *)
Lemma Decoder_Decode_object {V} `{!FromJson V} json_text b j k e dest :
  wf_json j = true → (nesting j ≤ maxNestingDepth)%Z → self_delimiting j = true →
  Decoder_Decode json_text b (mkBody (print j k) e) dest =
  ((from_json b j dest).1, json_err json_text (print j k) <$> (from_json b j dest).2).
Proof.
  intros Hwf Hn Hs. unfold Decoder_Decode. simpl. rewrite parse_print; [|done|done|by destruct j].
  rewrite Hs. by destruct e.
Qed.

(** ** The codec *)

Section CodecLemmas.
Context {V : Type} `{!ToJson V, !FromJson V} (good : V → Prop) `{JL : !JsonLaws V good}.
Context (json_text : string → json_error → string).

Lemma parse_Marshal v b k : json_Marshal v = inl b →
  delimited k → ∃ j, to_json v = inl j ∧ parse (b +:+ k) = Parsed j k.
Proof.
  unfold json_Marshal. destruct (to_json v) as [j|] eqn:Hj; [|done]. intros [= <-] Hk. exists j. split; [done|].
  destruct (law_wf (JsonLaws := JL) v j Hj) as (Hwf & Hn). rewrite <-print_app. by apply parse_print.
Qed.

(** Text with white space after it is read back too. *)
Lemma Unmarshal_Marshal v b k dest : good v → json_Marshal v = inl b → delimited k → skip k = "" →
  json_Unmarshal json_text (b +:+ k) dest = (v, None).
Proof.
  intros Hg Hb Hk Hs. destruct (parse_Marshal v b k Hb Hk) as (j & Hj & Hp).
  unfold json_Unmarshal. rewrite Hp, Hs. simpl. by rewrite (law_roundtrip (JsonLaws := JL) v j false dest Hg Hj).
Qed.

Lemma JSONCodec_law v b dest :
  good v → Marshal (JSONCodec json_text) v = inl b → Unmarshal (JSONCodec json_text) b dest = (v, None).
Proof.
  intros Hg Hb. simpl in *. rewrite <-(append_nil_r b). apply Unmarshal_Marshal; [done|done|apply delimited_nil|done].
Qed.
End CodecLemmas.

(** Strings and integers as values of their own. *)
#[global] Instance string_to_json : ToJson string := λ s, inl (jstring s).
#[global] Instance string_from_json : FromJson string := λ _ v t,
  match v with
  | JString raw => (default "" (unquote raw), None)
  | JNull => (t, None)
  | _ => (t, Some (UnmarshalTypeError ""))
  end.
#[global] Instance int64_to_json : ToJson Z := λ z, inl (jint z).
#[global] Instance int64_from_json : FromJson Z := λ _ v t,
  match v with
  | JNumber n => match ParseInt n with Some z => (z, None) | None => (t, Some (UnmarshalTypeError "")) end
  | JNull => (t, None)
  | _ => (t, Some (UnmarshalTypeError ""))
  end.

#[global] Instance string_json_laws : JsonLaws string (λ s, valid_utf8 s = true).
Proof.
  split.
  - intros v j [= <-]. split; [apply wf_escape|done].
  - intros v j b dest Hv [= <-].
    change ((default "" (unquote (escape v)), @None json_error) = (v, None)).
    rewrite unquote_escape. unfold default, id. by rewrite sanitize_valid.
Qed.

#[global] Instance int64_json_laws : JsonLaws Z in_int64.
Proof.
  split.
  - intros v j [= <-]. split; [apply wf_sprint_d|done].
  - intros v j b dest Hv [= <-]. unfold from_json, int64_from_json, jint. by rewrite ParseInt_sprint.
Qed.
