(* ===== verification/Server.v ===== *)
(** * serverkit/server.go: the HTTP server component and the default router

    The options, the construction of the server and of the router, the [Connect]
    closure with its stop closure, and the JSON error responses. net, net/http and
    chi enter as arguments: the listener and the shutdown of the server, the CIDR
    parser; the router is the list of what the code registers on it, in order. *)

From stdpp Require Import base list strings gmap.
From Stdlib Require Import ZArith Lia Ascii.
From S2P Require Import Prelude Errors Runtime Utf8 Json JsonStruct Health Runner.

(** ** HTTPServer *)

Definition defaultReadHeaderTimeout : Z := (5 * Second)%Z.
Definition defaultReadTimeout : Z := (15 * Second)%Z.
Definition defaultWriteTimeout : Z := (15 * Second)%Z.
Definition defaultIdleTimeout : Z := (60 * Second)%Z.
Definition defaultMaxHeaderBytes : Z := Z.shiftl 1 20.

(** The fields fixed at construction; a handler is named by a number. *)
Record HTTPServer : Type := mkHTTPServer {
  hs_name : string;
  hs_addr : string;
  hs_handler : nat;
  hs_logger : bool;              (* s.logger != nil *)
  readHeaderTimeout : Z;
  readTimeout : Z;
  writeTimeout : Z;
  idleTimeout : Z;
  maxHeaderBytes : Z
}.

(** The [http.Server] it is turned into. *)
Record http_Server : Type := mkHttpServer {
  Srv_Addr : string; Srv_Handler : nat; Srv_ReadHeaderTimeout : Z; Srv_ReadTimeout : Z;
  Srv_WriteTimeout : Z; Srv_IdleTimeout : Z; Srv_MaxHeaderBytes : Z }.

Notation HTTPServerOption := (HTTPServer → HTTPServer) (only parsing).

Definition WithLogger (l : bool) : HTTPServerOption := λ s,
  mkHTTPServer (hs_name s) (hs_addr s) (hs_handler s) l (readHeaderTimeout s) (readTimeout s)
    (writeTimeout s) (idleTimeout s) (maxHeaderBytes s).
Definition WithReadHeaderTimeout (d : Z) : HTTPServerOption := λ s,
  if (d >? 0)%Z then
    mkHTTPServer (hs_name s) (hs_addr s) (hs_handler s) (hs_logger s) d (readTimeout s)
      (writeTimeout s) (idleTimeout s) (maxHeaderBytes s)
  else s.
Definition WithReadTimeout (d : Z) : HTTPServerOption := λ s,
  if (d >? 0)%Z then
    mkHTTPServer (hs_name s) (hs_addr s) (hs_handler s) (hs_logger s) (readHeaderTimeout s) d
      (writeTimeout s) (idleTimeout s) (maxHeaderBytes s)
  else s.
Definition WithWriteTimeout (d : Z) : HTTPServerOption := λ s,
  if (d >? 0)%Z then
    mkHTTPServer (hs_name s) (hs_addr s) (hs_handler s) (hs_logger s) (readHeaderTimeout s)
      (readTimeout s) d (idleTimeout s) (maxHeaderBytes s)
  else s.
Definition WithIdleTimeout (d : Z) : HTTPServerOption := λ s,
  if (d >? 0)%Z then
    mkHTTPServer (hs_name s) (hs_addr s) (hs_handler s) (hs_logger s) (readHeaderTimeout s)
      (readTimeout s) (writeTimeout s) d (maxHeaderBytes s)
  else s.
Definition WithMaxHeaderBytes (n : Z) : HTTPServerOption := λ s,
  if (n >? 0)%Z then
    mkHTTPServer (hs_name s) (hs_addr s) (hs_handler s) (hs_logger s) (readHeaderTimeout s)
      (readTimeout s) (writeTimeout s) (idleTimeout s) n
  else s.

Definition NewHTTPServer (name addr : string) (handler : option nat)
    (options : list HTTPServerOption) : (HTTPServer * http_Server) + error :=
  if String.eqb addr "" then inr (ErrorString "http server address cannot be empty")
  else match handler with
       | None => inr (ErrorString "http server handler cannot be nil")
       | Some h =>
           let srv := foldl (λ s o, o s)
             (mkHTTPServer name addr h true defaultReadHeaderTimeout defaultReadTimeout
                defaultWriteTimeout defaultIdleTimeout defaultMaxHeaderBytes) options in
           inl (srv, mkHttpServer addr h (readHeaderTimeout srv) (readTimeout srv)
                       (writeTimeout srv) (idleTimeout srv) (maxHeaderBytes srv))
       end.

(** net and net/http, over a state [S]: binding a listener yields its address;
    [Serve] runs in its own goroutine; [Shutdown]. *)
Record net (S : Type) : Type := mkNet {
  Listen : Context → string → M S (string + error);
  GoServe : M S unit;
  Shutdown : Context → M S (option error)
}.
Arguments mkNet {S}.
Arguments Listen {S}.
Arguments GoServe {S}.
Arguments Shutdown {S}.

(** The messages logged and the state of the network; [s_bound] is the address
    the server is bound to. *)
Record SState (S : Type) : Type := mkSState {
  s_log : list string; s_bound : option string; s_net : S }.
Arguments mkSState {S}.
Arguments s_log {S}.
Arguments s_bound {S}.
Arguments s_net {S}.

Section HTTPServer.
Context {S : Type} (nt : net S) (srv : HTTPServer).

Definition on_net {A} (m : M S A) : M (SState S) A :=
  zoom s_net (λ n s, mkSState (s_log s) (s_bound s) n) m.

(** A call on the logger, which may be nil. *)
Definition log_msg (msg : string) : M (SState S) unit :=
  if hs_logger srv
  then mmodify (λ s, mkSState (s_log s ++ [msg]) (s_bound s) (s_net s))
  else mpanic "invalid memory address or nil pointer dereference".

Definition http_stop (stopCtx : Context) : M (SState S) (option error) :=
  (_ <- log_msg "Stopping HTTP server" ;;
   shutdownErr <- on_net (Shutdown nt stopCtx) ;;
   match shutdownErr with
   | Some e => _ <- log_msg "Error shutting down HTTP server" ;; ret (Some e)
   | None => _ <- log_msg "HTTP server stopped" ;; ret None
   end)%go.

Definition http_connect (ctx : Context) :
    M (SState S) ((Context → M (SState S) (option error)) + error) :=
  (_ <- log_msg "Starting HTTP server" ;;
   l <- on_net (Listen nt ctx (hs_addr srv)) ;;
   match l with
   | inr e => ret (inr (Errorf_w "failed to create listener: " e))
   | inl addr =>
       _ <- mmodify (λ s, mkSState (s_log s) (Some addr) (s_net s)) ;;
       _ <- on_net (GoServe nt) ;;
       _ <- log_msg "HTTP server ready" ;;
       ret (inl http_stop)
   end)%go.

(** Readiness: a look at the ready channel, which does not wait. *)
Definition HTTPServer_HealthChecks (rd : Signal) : list Check :=
  StandardChecks (hs_name srv) (λ ctx t,
    match rd with
    | Some t0 => if (t0 <=? t)%Z then Ret (t, None)
                 else Ret (t, Some (ErrorString "server not ready"))
    | None => Ret (t, Some (ErrorString "server not ready"))
    end).
End HTTPServer.

(** ** The router *)

(** A middleware the code installs; a custom one is named by a number. *)
Inductive mw : Type :=
| RequestLogger | RequestID
| ClientIPFromXFF (prefixes : list string) | ClientIPFromRemoteAddr
| CustomMiddleware (n : nat)
| TimeoutMiddleware (d : Z).

Record RouterOptions : Type := mkRouterOptions {
  RouterTimeout : Z; TrustedProxies : list string; Middlewares : list nat }.

(** What has been registered on a router: middlewares in order, [GET] routes with
    the kind of health check they serve, and the two fallbacks. *)
Record Router : Type := mkRouter {
  uses : list mw;
  gets : list (string * Z);
  NotFound : option Response;
  MethodNotAllowed : option Response
}.

Section Router.
(** [net.ParseCIDR]'s error, and the quoting of [%q]. *)
Context (ParseCIDR : string → option error) (quoted : string → string).

(** An option may panic. *)
Notation RouterOption := (RouterOptions → Result RouterOptions) (only parsing).

Definition WithRouterTimeout (d : Z) : RouterOption := λ o,
  Ret (if (d >? 0)%Z then mkRouterOptions d (TrustedProxies o) (Middlewares o) else o).

Definition WithMiddleware (ms : list nat) : RouterOption := λ o,
  Ret (mkRouterOptions (RouterTimeout o) (TrustedProxies o) (Middlewares o ++ ms)).

Definition cidr_panic (p : string) (e : error) : string :=
  "serverkit: invalid trusted proxy CIDR " +:+ quoted p +:+ ": " +:+ Error e.

(** The first prefix that does not parse. *)
Fixpoint first_invalid (prefixes : list string) : option (string * error) :=
  match prefixes with
  | [] => None
  | p :: ps => match ParseCIDR p with Some e => Some (p, e) | None => first_invalid ps end
  end.

Definition WithTrustedProxies (prefixes : list string) : RouterOption := λ o,
  match first_invalid prefixes with
  | Some (p, e) => Panic (cidr_panic p e)
  | None => Ret (mkRouterOptions (RouterTimeout o) (TrustedProxies o ++ prefixes) (Middlewares o))
  end.

Fixpoint apply_router_options (opts : list RouterOption) (o : RouterOptions) : Result RouterOptions :=
  match opts with
  | [] => Ret o
  | f :: fs =>
      match f o with
      | Ret o' => apply_router_options fs o'
      | Panic m => Panic m
      | Block => Block
      end
  end.

Definition Use (m : mw) (r : Router) : Router :=
  mkRouter (uses r ++ [m]) (gets r) (NotFound r) (MethodNotAllowed r).
Definition GetRoute (path : string) (k : Z) (r : Router) : Router :=
  mkRouter (uses r) (gets r ++ [(path, k)]) (NotFound r) (MethodNotAllowed r).

Definition MountHealthRoutes (health : bool) (r : Router) : Router :=
  if health then
    GetRoute "/health" Liveness
      (GetRoute "/health/startup" Startup
         (GetRoute "/health/readiness" Readiness
            (GetRoute "/health/liveness" Liveness r)))
  else r.

(** The error response: an object in an object, the keys of the maps in order. *)
Definition error_json (code message : string) : json :=
  JObject [("error", JObject [("code", jstring code); ("message", jstring message)])].

Definition error_body (code message : string) : string := print (error_json code message) "".

Definition error_map_to_json : ToJson (string * string) := λ x, inl (error_json x.1 x.2).

(** What is written if the error cannot be marshalled. *)
Definition internal_body : string :=
  "{" +:+ literal "error" (":{" +:+ literal "code" (":" +:+ literal "INTERNAL" ("," +:+
    literal "message" (":" +:+ literal "failed to encode error response" "}}")))).

Definition writeJSONError (st : Z) (code message : string) : Response :=
  mkResponse st "application/json"
    (match @json_Marshal _ error_map_to_json (code, message) with
     | inl payload => payload
     | inr _ => internal_body
     end).

Definition NewDefaultRouter (health : bool) (opts : list RouterOption) : Result Router :=
  match apply_router_options opts (mkRouterOptions (60 * Second) [] []) with
  | Panic m => Panic m
  | Block => Block
  | Ret o =>
      let r0 := mkRouter [] [] None None in
      let r1 := Use RequestID (Use RequestLogger r0) in
      let r2 := match TrustedProxies o with
                | [] => Use ClientIPFromRemoteAddr r1
                | ps => Use (ClientIPFromXFF ps) r1
                end in
      let r3 := foldl (λ r n, Use (CustomMiddleware n) r) r2 (Middlewares o) in
      let r4 := MountHealthRoutes health (Use (TimeoutMiddleware (RouterTimeout o)) r3) in
      Ret (mkRouter (uses r4) (gets r4)
             (Some (writeJSONError 404 "NOT_FOUND" "Resource not found"))
             (Some (writeJSONError 405 "METHOD_NOT_ALLOWED" "Method not allowed")))
  end.

(** Which requests the request logger leaves out. *)
Definition skip_log (path : string) (respStatus : Z) : bool :=
  String.prefix "/health" path && (respStatus <? 500)%Z.
End Router.

(** ** Lemmas *)

(** The options of the server, as data: one of the five limits, or the logger. *)
Inductive server_option : Type :=
| H_Logger (l : bool) | H_ReadHeader (d : Z) | H_Read (d : Z) | H_Write (d : Z) | H_Idle (d : Z)
| H_MaxHeader (n : Z).

Definition eval_server_option (o : server_option) : HTTPServer → HTTPServer :=
  match o with
  | H_Logger l => WithLogger l | H_ReadHeader d => WithReadHeaderTimeout d
  | H_Read d => WithReadTimeout d | H_Write d => WithWriteTimeout d
  | H_Idle d => WithIdleTimeout d | H_MaxHeader n => WithMaxHeaderBytes n
  end.

Definition readheader_of o := match o with H_ReadHeader d => Some d | _ => None end.
Definition read_of o := match o with H_Read d => Some d | _ => None end.
Definition write_of o := match o with H_Write d => Some d | _ => None end.
Definition idle_of o := match o with H_Idle d => Some d | _ => None end.
Definition maxheader_of o := match o with H_MaxHeader d => Some d | _ => None end.

Lemma server_options_limit (field : HTTPServer → Z) f opts s :
  (∀ o s, field (eval_server_option o s) =
          match f o with Some d => if (d >? 0)%Z then d else field s | None => field s end) →
  field (foldl (λ s o, o s) s (map eval_server_option opts)) =
  last_positive (field s) (omap f opts).
Proof.
  intros Hf. revert s. induction opts as [|o opts IH]; intros s; simpl; [done|].
  rewrite IH, Hf. by destruct (f o).
Qed.

Ltac server_field := intros [] ?; simpl;
  unfold WithReadHeaderTimeout, WithReadTimeout, WithWriteTimeout, WithIdleTimeout, WithMaxHeaderBytes;
  try destruct (_ >? _)%Z; done.

(** Server limits. [NewHTTPServer] fails exactly on an empty address or a nil
    handler; otherwise, whatever the options, each of the four timeouts and the
    header limit of the [http.Server] it builds is the last positive value given
    for it or else the default, hence positive. *)
Theorem NewHTTPServer_limits name addr handler opts :
  match NewHTTPServer name addr handler (map eval_server_option opts) with
  | inr e => (addr = "" ∧ e = ErrorString "http server address cannot be empty") ∨
      (addr ≠ "" ∧ handler = None ∧ e = ErrorString "http server handler cannot be nil")
  | inl (srv, s) =>
      addr ≠ "" ∧ handler = Some (Srv_Handler s) ∧ Srv_Addr s = addr ∧
      Srv_ReadHeaderTimeout s = last_positive (5 * Second) (omap readheader_of opts) ∧
      Srv_ReadTimeout s = last_positive (15 * Second) (omap read_of opts) ∧
      Srv_WriteTimeout s = last_positive (15 * Second) (omap write_of opts) ∧
      Srv_IdleTimeout s = last_positive (60 * Second) (omap idle_of opts) ∧
      Srv_MaxHeaderBytes s = last_positive (2 ^ 20) (omap maxheader_of opts) ∧
      Forall (λ d, 0 < d)%Z [Srv_ReadHeaderTimeout s; Srv_ReadTimeout s; Srv_WriteTimeout s;
                             Srv_IdleTimeout s; Srv_MaxHeaderBytes s]
  end.
Proof.
  unfold NewHTTPServer. destruct (String.eqb_spec addr "") as [->|Hne]; [by left|].
  destruct handler as [h|]; [|by right].
  cbv zeta. cbn [Srv_Handler Srv_Addr Srv_ReadHeaderTimeout Srv_ReadTimeout Srv_WriteTimeout
    Srv_IdleTimeout Srv_MaxHeaderBytes].
  rewrite (server_options_limit readHeaderTimeout readheader_of),
    (server_options_limit readTimeout read_of), (server_options_limit writeTimeout write_of),
    (server_options_limit idleTimeout idle_of), (server_options_limit maxHeaderBytes maxheader_of)
    by server_field.
  split_and!; try done.
  repeat constructor; by apply last_positive_pos.
Qed.

(** ** The router *)

Inductive router_option : Type :=
| R_Timeout (d : Z) | R_Middleware (ms : list nat) | R_Proxies (ps : list string).

Definition rtimeout_of o := match o with R_Timeout d => Some d | _ => None end.
Definition middleware_of o := match o with R_Middleware l => l | _ => [] end.
Definition proxies_of o := match o with R_Proxies l => l | _ => [] end.

Section RouterLemmas.
Context (ParseCIDR : string → option error) (quoted : string → string).

Definition eval_router_option (o : router_option) : RouterOptions → Result RouterOptions :=
  match o with
  | R_Timeout d => WithRouterTimeout d
  | R_Middleware ms => WithMiddleware ms
  | R_Proxies ps => WithTrustedProxies ParseCIDR quoted ps
  end.

Lemma first_invalid_app l1 l2 :
  first_invalid ParseCIDR (l1 ++ l2) =
  match first_invalid ParseCIDR l1 with Some x => Some x | None => first_invalid ParseCIDR l2 end.
Proof. induction l1 as [|p l1 IH]; simpl; [done|]. by destruct (ParseCIDR p). Qed.

Lemma apply_router_options_eq opts o :
  apply_router_options (map eval_router_option opts) o =
  match first_invalid ParseCIDR (flat_map proxies_of opts) with
  | Some (p, e) => Panic (cidr_panic quoted p e)
  | None => Ret (mkRouterOptions (last_positive (RouterTimeout o) (omap rtimeout_of opts))
                   (TrustedProxies o ++ flat_map proxies_of opts)
                   (Middlewares o ++ flat_map middleware_of opts))
  end.
Proof.
  revert o. induction opts as [|x opts IH]; intros o; simpl.
  { rewrite !app_nil_r. by destruct o. }
  rewrite first_invalid_app. destruct x as [d|ms|ps]; simpl.
  - rewrite IH. unfold WithRouterTimeout. by destruct (d >? 0)%Z.
  - rewrite IH. simpl. by rewrite <-app_assoc.
  - unfold WithTrustedProxies. destruct (first_invalid ParseCIDR ps) as [[p e]|]; [done|].
    rewrite IH. simpl. by rewrite <-app_assoc.
Qed.

Lemma first_invalid_None l :
  first_invalid ParseCIDR l = None ↔ Forall (λ p, ParseCIDR p = None) l.
Proof.
  clear quoted. induction l as [|p l IH]; simpl; [done|]. rewrite Forall_cons.
  destruct (ParseCIDR p); [naive_solver|]. rewrite IH. naive_solver.
Qed.
End RouterLemmas.

Lemma uses_customs ms r :
  foldl (λ r n, Use (CustomMiddleware n) r) r ms =
  mkRouter (uses r ++ map CustomMiddleware ms) (gets r) (NotFound r) (MethodNotAllowed r).
Proof.
  revert r. induction ms as [|n ms IH]; intros r; simpl.
  - rewrite app_nil_r. by destruct r.
  - rewrite IH. simpl. by rewrite <-app_assoc.
Qed.

(** The default router. With any options, [NewDefaultRouter] panics exactly when
    some trusted proxy prefix does not parse. Otherwise the middlewares are the
    request logger, the request id, the client IP resolver, the custom ones in the
    order given, and the timeout, which is positive; the resolver reads
    X-Forwarded-For only if trusted proxies were configured, and then with exactly
    those; and the four health routes are there exactly when there is an
    aggregator. *)
Theorem NewDefaultRouter_correct ParseCIDR quoted health opts :
  let proxies := flat_map proxies_of opts in
  match NewDefaultRouter health (map (eval_router_option ParseCIDR quoted) opts) with
  | Panic _ => ¬ Forall (λ p, ParseCIDR p = None) proxies
  | Block => False
  | Ret r =>
      Forall (λ p, ParseCIDR p = None) proxies ∧
      (∃ ip t, (0 < t)%Z ∧ t = last_positive (60 * Second) (omap rtimeout_of opts) ∧
         uses r = [RequestLogger; RequestID; ip] ++
                  map CustomMiddleware (flat_map middleware_of opts) ++ [TimeoutMiddleware t] ∧
         (proxies = [] → ip = ClientIPFromRemoteAddr) ∧
         (proxies ≠ [] → ip = ClientIPFromXFF proxies)) ∧
      gets r = (if health then [("/health/liveness", Liveness); ("/health/readiness", Readiness);
                                ("/health/startup", Startup); ("/health", Liveness)] else [])
  end.
Proof.
  intros proxies. unfold NewDefaultRouter. rewrite apply_router_options_eq. fold proxies.
  destruct (first_invalid ParseCIDR proxies) as [[p e]|] eqn:Hinv.
  { intros Hall%first_invalid_None. congruence. }
  cbv zeta. cbn [RouterTimeout TrustedProxies Middlewares]. rewrite !uses_customs.
  split; [by apply first_invalid_None|]. split.
  - eexists _, (last_positive (60 * Second) (omap rtimeout_of opts)).
    split; [by apply last_positive_pos|]. split; [done|]. split.
    + instantiate (1 := match proxies with [] => ClientIPFromRemoteAddr | _ => ClientIPFromXFF proxies end).
      destruct health, proxies; simpl; done.
    + split; [by intros ->|by destruct proxies].
  - destruct health, proxies; simpl; done.
Qed.

(** ** The component *)

(** The stop closure does what [Shutdown] does, and logs. *)
Lemma http_stop_Ret {S} (nt : net S) srv ctx w e w1 :
  hs_logger srv = true →
  Shutdown nt ctx (mkWorld (clock w) (coins w) (s_net (heap w))) = (Ret e, w1) →
  ∃ log, http_stop nt srv ctx w = (Ret e, mkWorld (clock w1) (coins w1)
           (mkSState (s_log (heap w) ++ log) (s_bound (heap w)) (heap w1))).
Proof.
  intros Hl Hs. unfold http_stop, log_msg, bind, mmodify, on_net, zoom. rewrite Hl. simpl. rewrite Hs.
  destruct e; simpl; eexists [_; _]; by rewrite <-app_assoc.
Qed.

(** The server as a component. With a logger: if binding the address fails,
    [Connect] reports it and serves nothing; if it succeeds, the server is bound
    when [Connect] returns, and the stop closure returns what the graceful
    shutdown of net/http returns; if that shutdown returns by the time its context
    is done, the component keeps the runner's contract for [Stop]. With a nil
    logger [Connect] panics. *)
Theorem http_component {S} (nt : net S) srv ctx w r w1 :
  Listen nt ctx (hs_addr srv) (mkWorld (clock w) (coins w) (s_net (heap w))) = (Ret r, w1) →
  (∀ w, ∃ w', GoServe nt w = (Ret tt, w') ∧ clock w' = clock w) →
  (hs_logger srv = false → ∃ m, http_connect nt srv ctx w = (Panic m, w)) ∧
  (hs_logger srv = true →
   ∃ w', http_connect nt srv ctx w =
     (Ret match r with
          | inr e => inr (Errorf_w "failed to create listener: " e)
          | inl _ => inl (http_stop nt srv)
          end, w') ∧
     match r with
     | inr _ => s_bound (heap w') = s_bound (heap w) ∧ s_net (heap w') = heap w1
     | inl addr => s_bound (heap w') = Some addr
     end) ∧
  (hs_logger srv = true →
   (∀ c w d e, ctx_done c = Some (d, e) → ∃ e' w', Shutdown nt c w = (Ret e', w') ∧
      (clock w ≤ clock w' ≤ Z.max (clock w) d)%Z) →
   stop_respects (mkComponent (hs_name srv) (http_stop nt srv) true None)).
Proof.
  intros Hlisten Hserve. split_and!.
  - intros Hl. unfold http_connect, log_msg. rewrite Hl. by eexists.
  - intros Hl. unfold http_connect, log_msg, bind, mmodify, on_net, zoom. rewrite Hl. simpl.
    rewrite Hlisten. destruct r as [addr|e]; simpl; [|by eexists].
    destruct (Hserve w1) as (w2 & Hw2 & _).
    destruct w1 as [c1 k1 n1]. simpl. rewrite Hw2. simpl. by eexists.
  - intros Hl Hsh c w0 d e Hd. simpl.
    destruct (Hsh c (mkWorld (clock w0) (coins w0) (s_net (heap w0))) d e Hd) as (e' & w' & Hs & Hck).
    destruct (http_stop_Ret nt srv c w0 e' w' Hl Hs) as [log Hstop]. rewrite Hstop.
    eexists _, _. split; [reflexivity|]. exact Hck.
Qed.

Definition sample_net : net (list string) :=
  mkNet (λ _ a, ret (inl a)) (mmodify (λ l, l ++ ["serving"]))
    (λ ctx, (t <- now ;; b <- select2 (Some (t + Second)%Z) (Done ctx) ;;
             if (b : bool) then ret None else ctx_Err ctx)%go).

Definition sample_http : HTTPServer :=
  mkHTTPServer "api" ":8080" 0 true Second Second Second Second 1024.

Lemma http_component_witness :
  ∃ w', http_connect sample_net sample_http Background (mkWorld 0 [] (mkSState [] None [])) =
    (Ret (inl (http_stop sample_net sample_http)), w') ∧ s_bound (heap w') = Some ":8080".
Proof.
  apply (http_component sample_net sample_http Background (mkWorld 0 [] (mkSState [] None []))
    (inl ":8080") (mkWorld 0 [] [])).
  - reflexivity.
  - intros w. by eexists.
  - reflexivity.
Defined.

(** ** Error responses *)

(** The two texts of an error response. *)
Definition error_texts (j : json) : option (string * string) :=
  match member "error" j with
  | Some e => match member "code" e ≫= text, member "message" e ≫= text with
              | Some c, Some m => Some (c, m)
              | _, _ => None
              end
  | None => None
  end.

Lemma parse_error_json code message k :
  parse (print (error_json code message) k) = Parsed (error_json code message) k.
Proof. apply parse_print; [|done|done]. simpl. by rewrite !wf_escape. Qed.

Lemma error_texts_json code message :
  error_texts (error_json code message) = Some (sanitize code, sanitize message).
Proof.
  change (error_texts (error_json code message)) with
    (match unquote (escape code), unquote (escape message) with
     | Some c, Some m => Some (c, m) | _, _ => None end).
  by rewrite !unquote_escape.
Qed.

(** C39. Error responses are read back. Whatever its texts contain, the body that
    [writeJSONError] sends is one JSON value, whose code and message are the given
    texts with invalid UTF-8 replaced, and exactly the given texts when they are
    UTF-8: quotes, backslashes, control characters and all other code points
    included. *)
Theorem writeJSONError_roundtrip st code message :
  status (writeJSONError st code message) = st ∧
  (∃ j, parse (body (writeJSONError st code message)) = Parsed j "" ∧
     error_texts j = Some (sanitize code, sanitize message)) ∧
  (valid_utf8 code = true → valid_utf8 message = true →
   sanitize code = code ∧ sanitize message = message).
Proof.
  split; [done|]. split; [|by split; apply sanitize_valid].
  exists (error_json code message). split; [apply parse_error_json|apply error_texts_json].
Qed.

Lemma writeJSONError_roundtrip_witness :
  let code := "NOT_FOUND" in
  let message := (String "034" (String "226" (String "130" (String "172" (String "255" "<")))))%string in
  ∃ j, parse (body (writeJSONError 404 code message)) = Parsed j "" ∧
    error_texts j = Some (code, String "034" (String "226" (String "130" (String "172" (replacement +:+ "<"))))).
Proof. exact (proj1 (proj2 (writeJSONError_roundtrip 404 _ _))). Defined.
