(* ===== verification/Orders.v ===== *)
(** * examples/orders: the order service over the components

    examples/orders/order.go, repository.go, service.go, config.go and
    worker.go. The repositories issue their SQL through the transaction manager;
    what PostgreSQL does with these statements over the schema of
    migrations/0001_init.sql is the pair of relations [shop_exec] and
    [shop_query]; they are sequential, so the row lock of FOR UPDATE has no effect
    in them. The service runs on the state of the database, the state of the
    cache and the log. *)

From stdpp Require Import base list strings pretty gmap.
From Stdlib Require Import ZArith Lia Ascii.
From S2P Require Import Prelude Strconv Utf8 Json Rfc3339 JsonStruct Errors Runtime Lifecycle TxManager Cache Health Server Worker.

(** ** Domain *)

Record Product : Type := mkProduct {
  p_CreatedAt : Z; p_Name : string; p_ID : Z; Price : Z; Stock : Z }.

Record Order : Type := mkOrder {
  o_CreatedAt : Z; o_ID : Z; ProductID : Z; Quantity : Z; Total : Z }.

Definition zeroProduct : Product := mkProduct 0 "" 0 0 0.
Definition zeroOrder : Order := mkOrder 0 0 0 0 0.

(** What fits the columns: BIGINT and TEXT. *)
Definition storable_product (p : Product) : Prop :=
  valid_utf8 (p_Name p) = true ∧ in_int64 (p_ID p) ∧ in_int64 (Price p) ∧ in_int64 (Stock p).

Definition storable_order (o : Order) : Prop :=
  in_int64 (o_ID o) ∧ in_int64 (ProductID o) ∧ in_int64 (Quantity o) ∧ in_int64 (Total o).

#[global] Instance storable_product_dec p : Decision (storable_product p).
Proof. unfold storable_product, in_int64. solve_decision. Defined.

#[global] Instance storable_order_dec o : Decision (storable_order o).
Proof. unfold storable_order, in_int64. solve_decision. Defined.

(** ** Their JSON, by the tags of the fields *)

Definition product_fields : list (field Product) :=
  [time_field "created_at" (λ t p, mkProduct t (p_Name p) (p_ID p) (Price p) (Stock p));
   string_field "name" (λ n p, mkProduct (p_CreatedAt p) n (p_ID p) (Price p) (Stock p));
   int64_field "id" (λ i p, mkProduct (p_CreatedAt p) (p_Name p) i (Price p) (Stock p));
   int64_field "price_cents" (λ c p, mkProduct (p_CreatedAt p) (p_Name p) (p_ID p) c (Stock p));
   int64_field "stock" (λ st p, mkProduct (p_CreatedAt p) (p_Name p) (p_ID p) (Price p) st)].

Definition order_fields : list (field Order) :=
  [time_field "created_at" (λ t o, mkOrder t (o_ID o) (ProductID o) (Quantity o) (Total o));
   int64_field "id" (λ i o, mkOrder (o_CreatedAt o) i (ProductID o) (Quantity o) (Total o));
   int64_field "product_id" (λ p o, mkOrder (o_CreatedAt o) (o_ID o) p (Quantity o) (Total o));
   int64_field "quantity" (λ q o, mkOrder (o_CreatedAt o) (o_ID o) (ProductID o) q (Total o));
   int64_field "total_cents" (λ c o, mkOrder (o_CreatedAt o) (o_ID o) (ProductID o) (Quantity o) c)].

#[global] Instance product_from_json : FromJson Product := store_struct product_fields.
#[global] Instance order_from_json : FromJson Order := store_struct order_fields.

(** Times are written at the offset of the local time zone, [zone]. *)
Definition product_to_json (zone : Z → Z) : ToJson Product := λ p,
  match MarshalTime zone (p_CreatedAt p) with
  | inl t => inl (JObject [("created_at", JString t); ("name", jstring (p_Name p)); ("id", jint (p_ID p));
                           ("price_cents", jint (Price p)); ("stock", jint (Stock p))])
  | inr e => inr e
  end.

Definition order_to_json (zone : Z → Z) : ToJson Order := λ o,
  match MarshalTime zone (o_CreatedAt o) with
  | inl t => inl (JObject [("created_at", JString t); ("id", jint (o_ID o)); ("product_id", jint (ProductID o));
                           ("quantity", jint (Quantity o)); ("total_cents", jint (Total o))])
  | inr e => inr e
  end.

(** The columns in the order of the statements, and [Scan] into the fields. *)
Definition product_row (p : Product) : list Value :=
  [VInt (p_ID p); VString (p_Name p); VInt (Price p); VInt (Stock p); VInt (p_CreatedAt p)].

Definition order_row (o : Order) : list Value :=
  [VInt (o_ID o); VInt (ProductID o); VInt (Quantity o); VInt (Total o); VInt (o_CreatedAt o)].

Definition scan_product (vs : list Value) : Product :=
  match vs with
  | [VInt i; VString n; VInt pr; VInt st; VInt t] => mkProduct t n i pr st
  | _ => zeroProduct
  end.

Definition scan_order (vs : list Value) : Order :=
  match vs with
  | [VInt i; VInt p; VInt q; VInt tot; VInt t] => mkOrder t i p q tot
  | _ => zeroOrder
  end.

(** ** Repositories *)

Definition insert_product_sql : string :=
  "INSERT INTO products (name, price_cents, stock) VALUES ($1, $2, $3) RETURNING id, name, price_cents, stock, created_at".
Definition select_product_sql : string :=
  "SELECT id, name, price_cents, stock, created_at FROM products WHERE id = $1".
Definition decrement_sql : string := "UPDATE products SET stock = stock - $1 WHERE id = $2".
Definition insert_order_sql : string :=
  "INSERT INTO orders (product_id, quantity, total_cents) VALUES ($1, $2, $3) RETURNING id, product_id, quantity, total_cents, created_at".
Definition select_order_sql : string :=
  "SELECT id, product_id, quantity, total_cents, created_at FROM orders WHERE id = $1".

Section Repositories.
Context {S : Type} (p : TxProvider S).

(** [q.QueryRow(ctx, sql, args...).Scan(...)]. *)
Definition query_scan (q : Querier S) (ctx : Context) (sql : string) (args : list Value) :
    M S (list Value * option error) :=
  (r <- Q_QueryRow q ctx sql args ;; Row_Scan r)%go.

Definition product_Create (ctx : Context) (name : string) (price stock : Z) :
    M S (Product * option error) :=
  (let q := QuerierFromContext p ctx in
   r <- query_scan q ctx insert_product_sql [VString name; VInt price; VInt stock] ;;
   match r.2 with
   | Some e => ret (zeroProduct, Some (Errorf_w "insert product: " e))
   | None => ret (scan_product r.1, None)
   end)%go.

Definition scanProduct (ctx : Context) (q : Querier S) (id : Z) (forUpdate : bool) :
    M S (Product * option error) :=
  (let sql := if forUpdate then select_product_sql +:+ " FOR UPDATE" else select_product_sql in
   r <- query_scan q ctx sql [VInt id] ;;
   if Is r.2 ErrNoRows then ret (zeroProduct, Some (Sentinel ErrNotFound))
   else match r.2 with
        | Some e => ret (zeroProduct, Some (Errorf_w "select product: " e))
        | None => ret (scan_product r.1, None)
        end)%go.

Definition product_GetByID (ctx : Context) (id : Z) : M S (Product * option error) :=
  scanProduct ctx (QuerierFromContext p ctx) id false.

Definition GetForUpdate (ctx : Context) (id : Z) : M S (Product * option error) :=
  scanProduct ctx (QuerierFromContext p ctx) id true.

Definition DecrementStock (ctx : Context) (id quantity : Z) : M S (option error) :=
  (r <- Q_Exec (QuerierFromContext p ctx) ctx decrement_sql [VInt quantity; VInt id] ;;
   ret (Errorf_w "decrement stock: " <$> r.2))%go.

Definition order_Create (ctx : Context) (productID quantity total : Z) :
    M S (Order * option error) :=
  (let q := QuerierFromContext p ctx in
   r <- query_scan q ctx insert_order_sql [VInt productID; VInt quantity; VInt total] ;;
   match r.2 with
   | Some e => ret (zeroOrder, Some (Errorf_w "insert order: " e))
   | None => ret (scan_order r.1, None)
   end)%go.

Definition order_GetByID (ctx : Context) (id : Z) : M S (Order * option error) :=
  (let q := QuerierFromContext p ctx in
   r <- query_scan q ctx select_order_sql [VInt id] ;;
   if Is r.2 ErrNoRows then ret (zeroOrder, Some (Sentinel ErrNotFound))
   else match r.2 with
        | Some e => ret (zeroOrder, Some (Errorf_w "select order: " e))
        | None => ret (scan_order r.1, None)
        end)%go.
End Repositories.

(** ** The service *)

(** The databases' states and the warnings and errors logged. *)
Record Svc (S C : Type) : Type := mkSvc { sv_db : S; sv_cache : C; sv_log : list string }.
Arguments mkSvc {S C}.
Arguments sv_db {S C}.
Arguments sv_cache {S C}.
Arguments sv_log {S C}.

Definition productCacheTTL : Z := (60 * Second)%Z.

Definition productCacheKey (id : Z) : string := "product:" +:+ sprint_d id.

Definition insufficient (stock quantity : Z) : error :=
  WrapError (sentinel_text ErrInsufficientStock +:+ ": have " +:+ sprint_d stock +:+ ", want " +:+
             sprint_d quantity) [Sentinel ErrInsufficientStock].

Section Service.
Context {S C : Type} (p : TxProvider S) (c : Cache C Product).

Definition on_db {A} (m : M S A) : M (Svc S C) A :=
  zoom sv_db (λ s t, mkSvc s (sv_cache t) (sv_log t)) m.
Definition on_cache {A} (m : M C A) : M (Svc S C) A :=
  zoom sv_cache (λ s t, mkSvc (sv_db t) s (sv_log t)) m.
Definition warn (msg : string) : M (Svc S C) unit :=
  mmodify (λ s, mkSvc (sv_db s) (sv_cache s) (sv_log s ++ [msg])).

Definition log_error : string → M (Svc S C) unit := warn.

Definition CreateProduct (ctx : Context) (name : string) (price stock : Z) :
    M (Svc S C) (Product * option error) :=
  on_db (product_Create p ctx name price stock).

(** [GetProduct] after a miss: read the row and populate the cache. *)
Definition GetProduct_load (ctx : Context) (id : Z) : M (Svc S C) (Product * option error) :=
  (q <- on_db (product_GetByID p ctx id) ;;
   match q.2 with
   | Some e => ret (zeroProduct, Some e)
   | None =>
       setErr <- on_cache (Cache_Set c ctx (productCacheKey id) q.1 productCacheTTL) ;;
       _ <- match setErr with Some _ => warn "failed to populate product cache" | None => ret tt end ;;
       ret (q.1, None)
   end)%go.

Definition GetProduct (ctx : Context) (id : Z) : M (Svc S C) (Product * option error) :=
  (let key := productCacheKey id in
   r <- on_cache (Cache_Get c ctx key zeroProduct) ;;
   match r.2 with
   | None => ret (r.1, None)
   | Some err =>
       _ <- (if String.eqb (Error err) "redis: nil" || String.eqb (Error err) ("cache miss: " +:+ key)
             then ret tt else warn "cache error or malformed entry") ;;
       GetProduct_load ctx id
   end)%go.

Definition GetOrder (ctx : Context) (id : Z) : M (Svc S C) (Order * option error) :=
  on_db (order_GetByID p ctx id).

(** The function passed to [WithTx]; it assigns the captured [order]. *)
Definition place_order (productID quantity : Z) (ctx : Context) : M (S * Order) (option error) :=
  (let p' := local_provider p in
   r <- GetForUpdate p' ctx productID ;;
   match r.2 with
   | Some e => ret (Some e)
   | None =>
       let product := r.1 in
       if (Stock product <? quantity)%Z then ret (Some (insufficient (Stock product) quantity))
       else
         e <- DecrementStock p' ctx productID quantity ;;
         match e with
         | Some e' => ret (Some e')
         | None =>
             let total := mul64 (Price product) quantity in
             o <- order_Create p' ctx productID quantity total ;;
             _ <- mmodify (λ x, (x.1, o.1)) ;;
             match o.2 with
             | Some e' => ret (Some e')
             | None => ret None
             end
         end
   end)%go.

Definition CreateOrder (ctx : Context) (productID quantity : Z) : M (Svc S C) (Order * option error) :=
  (r <- on_db (with_local zeroOrder
          (WithTx (local_provider p) ctx (place_order productID quantity))) ;;
   match r.1 with
   | Some e => ret (zeroOrder, Some e)
   | None =>
       delErr <- on_cache (Cache_Delete c ctx (productCacheKey productID)) ;;
       _ <- match delErr with Some _ => warn "failed to invalidate product cache" | None => ret tt end ;;
       ret (r.2, None)
   end)%go.
End Service.

(** ** Configuration and the background worker *)

Record AppConfig : Type := mkAppConfig {
  DBConnStr : string; RedisAddr : string; RedisPassword : string; HTTPAddr : string }.

(** The environment; [os.Getenv] of an unset variable is empty. *)
Definition envOrDefault (env : string → string) (key fallback : string) : string :=
  if String.eqb (env key) "" then fallback else env key.

Definition LoadConfig (env : string → string) : AppConfig + error :=
  let cfg := mkAppConfig (env "DB_CONN_STR") (envOrDefault env "REDIS_ADDR" "localhost:6379")
               (env "REDIS_PASSWORD") (envOrDefault env "HTTP_ADDR" ":8080") in
  if String.eqb (DBConnStr cfg) "" then inr (ErrorString "DB_CONN_STR is required") else inl cfg.

(** [NotificationProcessor.Process], on a log. *)
Definition Process (ctx : Context) (t : Task) : M (list string) (option error) :=
  (_ <- mmodify (λ l, l ++ ["sending notification"]) ;;
   t0 <- now ;;
   b <- select2 (Some (t0 + 100 * Millisecond)%Z) (Done ctx) ;;
   if (b : bool) then
     _ <- mmodify (λ l, l ++ ["notification sent successfully"]) ;; ret None
   else ctx_Err ctx)%go.

(** ** The database

    The two tables. *)
Record Shop : Type := mkShop { products : gmap Z Product; orders : gmap Z Order }.

Definition set_stock (st : Z) (p : Product) : Product :=
  mkProduct (p_CreatedAt p) (p_Name p) (p_ID p) (Price p) st.

(** An error of the driver or the server is none of the errors that the
    repositories and the service give a meaning to. *)
Definition foreign (e : error) : Prop :=
  errors_Is e ErrNoRows = false ∧ errors_Is e ErrNotFound = false ∧
  errors_Is e ErrInsufficientStock = false.

(** What PostgreSQL may do with an UPDATE of the stock: the CHECK constraint on
    the new stock holds, or there is no such row, or the statement fails. *)
Inductive shop_exec : string → list Value → Shop → Z * option error → Shop → Prop :=
| X_decrement q id d pr :
    products d !! id = Some pr → (0 ≤ Stock pr - q ≤ max_int64)%Z →
    shop_exec decrement_sql [VInt q; VInt id] d (1%Z, None)
      (mkShop (<[id := set_stock (Stock pr - q) pr]> (products d)) (orders d))
| X_decrement_none q id d :
    products d !! id = None → shop_exec decrement_sql [VInt q; VInt id] d (0%Z, None) d
| X_fail sql args d e : foreign e → shop_exec sql args d (0%Z, Some e) d.

(** And with the queries: a row, no row, or an error; the inserted rows satisfy
    the constraints of the schema and have a new key. *)
Inductive shop_query : string → list Value → Shop → list Value * option error → Shop → Prop :=
| Q_product sql id d pr :
    sql = select_product_sql ∨ sql = select_product_sql +:+ " FOR UPDATE" →
    products d !! id = Some pr → shop_query sql [VInt id] d (product_row pr, None) d
| Q_product_none sql id d :
    sql = select_product_sql ∨ sql = select_product_sql +:+ " FOR UPDATE" →
    products d !! id = None → shop_query sql [VInt id] d ([], Some (Sentinel ErrNoRows)) d
| Q_insert_product n pr st id t d :
    products d !! id = None → (0 ≤ pr)%Z → (0 ≤ st)%Z → storable_product (mkProduct t n id pr st) →
    shop_query insert_product_sql [VString n; VInt pr; VInt st] d
      (product_row (mkProduct t n id pr st), None)
      (mkShop (<[id := mkProduct t n id pr st]> (products d)) (orders d))
| Q_insert_order pid q tot id t d :
    orders d !! id = None → is_Some (products d !! pid) → (0 < q)%Z → (0 ≤ tot)%Z →
    storable_order (mkOrder t id pid q tot) →
    shop_query insert_order_sql [VInt pid; VInt q; VInt tot] d
      (order_row (mkOrder t id pid q tot), None)
      (mkShop (products d) (<[id := mkOrder t id pid q tot]> (orders d)))
| Q_order id d o :
    orders d !! id = Some o → shop_query select_order_sql [VInt id] d (order_row o, None) d
| Q_order_none id d :
    orders d !! id = None →
    shop_query select_order_sql [VInt id] d ([], Some (Sentinel ErrNoRows)) d
| Q_fail sql args d e : foreign e → shop_query sql args d ([], Some e) d.

(** The contents that the schema allows: keys match, stocks and totals are not
    negative. *)
Definition shop_wf (d : Shop) : Prop :=
  map_Forall (λ id pr, p_ID pr = id ∧ (0 ≤ Stock pr)%Z) (products d) ∧
  map_Forall (λ id o, o_ID o = id ∧ (0 < Quantity o)%Z ∧ (0 ≤ Total o)%Z) (orders d).

(** Placing an order, on the tables. *)
Definition placed (pid q : Z) (pr : Product) (o : Order) (d : Shop) : Shop :=
  mkShop (<[pid := set_stock (Stock pr - q) pr]> (products d)) (<[o_ID o := o]> (orders d)).

(** ** Lemmas *)

Lemma product_json_laws zone : @JsonLaws Product (product_to_json zone) _ storable_product.
Proof.
  split.
  - intros v j. unfold to_json, product_to_json. destruct (MarshalTime zone (p_CreatedAt v)) as [raw|] eqn:Ht; [|done].
    intros [= <-]. split; [|done]. unfold jstring, jint. cbn [wf_json forallb fst snd].
    by rewrite (MarshalTime_raw _ _ _ Ht), wf_escape, !wf_sprint_d.
  - intros v j b dest (Hn & Hi & Hp & Hs). unfold to_json, product_to_json.
    destruct (MarshalTime zone (p_CreatedAt v)) as [raw|] eqn:Ht; [|done]. intros [= <-].
    unfold from_json, product_from_json, store_struct.
    erewrite store_members_field;
      [|reflexivity|cbn [f_store time_field]; rewrite (UnmarshalTime_Marshal _ _ _ Ht); reflexivity].
    erewrite store_members_field;
      [|reflexivity|cbn [f_store string_field]; unfold jstring; rewrite unquote_escape; reflexivity].
    do 3 (erewrite store_members_field;
      [|reflexivity|cbn [f_store int64_field]; unfold jint; rewrite ParseInt_sprint by done; reflexivity]).
    destruct v as [t n i pr st]. cbn -[sanitize]. unfold default, id. by rewrite (sanitize_valid n Hn).
Qed.

Lemma order_json_laws zone : @JsonLaws Order (order_to_json zone) _ storable_order.
Proof.
  split.
  - intros v j. unfold to_json, order_to_json. destruct (MarshalTime zone (o_CreatedAt v)) as [raw|] eqn:Ht; [|done].
    intros [= <-]. split; [|done]. unfold jint. cbn [wf_json forallb fst snd].
    by rewrite (MarshalTime_raw _ _ _ Ht), !wf_sprint_d.
  - intros v j b dest (Hi & Hp & Hq & Hs). unfold to_json, order_to_json.
    destruct (MarshalTime zone (o_CreatedAt v)) as [raw|] eqn:Ht; [|done]. intros [= <-].
    unfold from_json, order_from_json, store_struct.
    erewrite store_members_field;
      [|reflexivity|cbn [f_store time_field]; rewrite (UnmarshalTime_Marshal _ _ _ Ht); reflexivity].
    do 4 (erewrite store_members_field;
      [|reflexivity|cbn [f_store int64_field]; unfold jint; rewrite ParseInt_sprint by done; reflexivity]).
    by destruct v.
Qed.

Lemma scan_product_row pr : scan_product (product_row pr) = pr.
Proof. by destruct pr. Qed.

Lemma scan_order_row o : scan_order (order_row o) = o.
Proof. by destruct o. Qed.

#[global] Instance productCacheKey_inj : Inj (=) (=) productCacheKey.
Proof.
  intros x y H. unfold productCacheKey, sprint_d in H. apply (inj (String.append "product:")) in H.
  by apply (inj (pretty (A := Z))) in H.
Qed.

Lemma storable_set_stock pr q :
  (0 < q ≤ Stock pr)%Z → storable_product pr → storable_product (set_stock (Stock pr - q) pr).
Proof. intros Hq (? & ? & ? & Hs). unfold storable_product. simpl. split_and!; try done. int64. Qed.

Lemma foreign_Errorf_w m e : foreign e → foreign (Errorf_w m e).
Proof. unfold foreign. by autorewrite with go_errors. Qed.

(** The texts of the statements tell them apart. *)
Lemma sql_distinct :
  select_product_sql ≠ insert_product_sql ∧ select_product_sql ≠ insert_order_sql ∧
  select_product_sql ≠ select_order_sql ∧
  select_product_sql +:+ " FOR UPDATE" ≠ insert_product_sql ∧
  select_product_sql +:+ " FOR UPDATE" ≠ insert_order_sql ∧
  select_product_sql +:+ " FOR UPDATE" ≠ select_order_sql ∧
  insert_product_sql ≠ insert_order_sql ∧ insert_product_sql ≠ select_order_sql ∧
  insert_order_sql ≠ select_order_sql.
Proof. by split_and!. Qed.

#[local] Opaque select_product_sql insert_product_sql decrement_sql insert_order_sql select_order_sql.

Section RepositoryLemmas.
Context {lossy : bool} {S : Type} (p : TxProvider S) (abs : S → Abs Shop).
Context `{TL : !TxLaws lossy p abs shop_exec} `{QL : !QueryLaws p abs shop_query}.

(** A single-row query runs on the innermost level, unless the gate refuses it. *)
Lemma query_scan_spec ctx sql args w :
  gate_ok p ctx → ctx_target ctx = top (abs (heap w)) →
  ∃ r w' d', query_scan (QuerierFromContext p ctx) ctx sql args w = (Ret r, w') ∧
    abs (heap w') = set_cur d' (abs (heap w)) ∧
    (shop_query sql args (cur (abs (heap w))) r d' ∨
     (in_tx ctx = false ∧ d' = cur (abs (heap w)) ∧
      ∃ c, r = ([], Some (Errorf_w "pool not ready: " c)))).
Proof.
  intros Hg Ht. unfold query_scan, QuerierFromContext, ctx_target, in_tx in *.
  destruct (TxFromContext ctx) as [h|].
  - simpl. rewrite Ht. destruct (law_query (QueryLaws := QL) ctx sql args w) as (r & w' & d' & ? & ? & ?).
    eauto 10.
  - destruct (Readyable p) eqn:Hr; simpl.
    + destruct (readyQuerier_wait_returns p ctx w Hg) as (r & w1 & Hw & Hh & He).
      unfold readyQuerier_QueryRow. rewrite bind_assoc, (bind_Ret _ _ _ _ _ Hw). destruct r as [e|].
      * destruct He as [c ->]. eexists _, w1, _. split; [reflexivity|].
        rewrite Hh. split; [symmetry; apply set_cur_cur|]. right. eauto.
      * rewrite Ht, <-Hh.
        destruct (law_query (QueryLaws := QL) ctx sql args w1) as (r & w' & d' & ? & ? & ?). eauto 10.
    + rewrite Ht. destruct (law_query (QueryLaws := QL) ctx sql args w) as (r & w' & d' & ? & ? & ?).
      eauto 10.
Qed.

(** Reading a product changes nothing; in a transaction, not found means that
    there is none. *)
Lemma scanProduct_spec ctx id b w :
  gate_ok p ctx → ctx_target ctx = top (abs (heap w)) →
  ∃ r w', scanProduct ctx (QuerierFromContext p ctx) id b w = (Ret r, w') ∧ abs (heap w') = abs (heap w) ∧
    match r with
    | (pr, None) => products (cur (abs (heap w))) !! id = Some pr
    | (pr, Some e) => pr = zeroProduct ∧
        (in_tx ctx = true →
           errors_Is e ErrInsufficientStock = false ∧
           (errors_Is e ErrNotFound = true → products (cur (abs (heap w))) !! id = None))
    end.
Proof.
  intros Hg Ht. unfold scanProduct.
  set (sql := if b then select_product_sql +:+ " FOR UPDATE" else select_product_sql).
  assert (sql = select_product_sql ∨ sql = select_product_sql +:+ " FOR UPDATE") as Hsql.
  { unfold sql. destruct b; auto. }
  destruct (query_scan_spec ctx sql [VInt id] w Hg Ht) as (r & w' & d' & Hq & Ha & Hs).
  run Hq. destruct Hs as [Hs|(Hin & -> & c & ->)].
  2:{ rewrite set_cur_cur in Ha. rewrite Hin. simpl. rewrite orb_false_r.
      destruct (errors_Is c ErrNoRows); eexists _, w'; (split; [reflexivity|]); split; done. }
  clearbody sql. destruct sql_distinct as (D1 & D2 & D3 & D4 & D5 & D6 & _).
  inversion Hs; subst; simpl; try (by destruct Hsql as [?|?]; congruence).
  - eexists _, w'. split; [reflexivity|]. rewrite Ha, set_cur_cur. split; [done|]. by destruct pr.
  - eexists _, w'. split; [reflexivity|]. by rewrite Ha, set_cur_cur.
  - destruct H as (H1 & H2 & H3). rewrite H1. eexists _, w'. split; [reflexivity|].
    rewrite Ha, set_cur_cur. split; [done|]. split; [done|]. intros _. simpl. by rewrite H2, H3.
Qed.

(** Decrementing a stock in a transaction. *)
Lemma DecrementStock_spec ctx id q w :
  in_tx ctx = true → gate_ok p ctx → ctx_target ctx = top (abs (heap w)) →
  ∃ r w' d', DecrementStock p ctx id q w = (Ret r, w') ∧ abs (heap w') = set_cur d' (abs (heap w)) ∧
    match r with
    | None => ∀ pr, products (cur (abs (heap w))) !! id = Some pr →
        d' = mkShop (<[id := set_stock (Stock pr - q) pr]> (products (cur (abs (heap w)))))
               (orders (cur (abs (heap w)))) ∧ (0 ≤ Stock pr - q)%Z
    | Some e => foreign e
    end.
Proof.
  intros Hin Hg Ht. unfold DecrementStock.
  destruct (exec_refines p abs shop_exec ctx decrement_sql [VInt q; VInt id] w Hg Ht)
    as (r & w' & d' & Hx & Ha & [Hs|(Hn & _)]); [|congruence].
  run Hx. eexists _, w', d'. split; [reflexivity|]. split; [done|].
  inversion Hs; subst; simpl.
  - intros pr0 Hpr0. simplify_eq. split; [done|lia].
  - intros pr0 Hpr0. by simplify_eq.
  - by apply foreign_Errorf_w.
Qed.

(** Inserting an order in a transaction. *)
Lemma order_Create_spec ctx pid q tot w :
  in_tx ctx = true → gate_ok p ctx → ctx_target ctx = top (abs (heap w)) →
  ∃ r w' d', order_Create p ctx pid q tot w = (Ret r, w') ∧ abs (heap w') = set_cur d' (abs (heap w)) ∧
    match r with
    | (o, None) => orders (cur (abs (heap w))) !! o_ID o = None ∧ ProductID o = pid ∧ Quantity o = q ∧
        Total o = tot ∧ (0 < q)%Z ∧ (0 ≤ tot)%Z ∧ storable_order o ∧
        d' = mkShop (products (cur (abs (heap w)))) (<[o_ID o := o]> (orders (cur (abs (heap w)))))
    | (_, Some e) => foreign e
    end.
Proof.
  intros Hin Hg Ht. unfold order_Create.
  destruct (query_scan_spec ctx insert_order_sql [VInt pid; VInt q; VInt tot] w Hg Ht)
    as (r & w' & d' & Hx & Ha & [Hs|(Hn & _)]); [|congruence].
  run Hx. destruct sql_distinct as (_ & D2 & _ & _ & D5 & _ & D7 & _ & D9).
  inversion Hs; subst; simpl; try congruence.
  - eexists _, w', _. split; [reflexivity|]. split; [exact Ha|]. by split_and!.
  - eexists _, w', _. split; [reflexivity|]. split; [exact Ha|].
    by apply foreign_Errorf_w.
Qed.

(** Inserting a product adds a row under a new key. *)
Lemma product_Create_spec ctx n price stock w :
  gate_ok p ctx → ctx_target ctx = top (abs (heap w)) →
  ∃ r w' d', product_Create p ctx n price stock w = (Ret r, w') ∧
    abs (heap w') = set_cur d' (abs (heap w)) ∧
    match r with
    | (pr, None) => products (cur (abs (heap w))) !! p_ID pr = None ∧ p_Name pr = n ∧ Price pr = price ∧
        Stock pr = stock ∧ storable_product pr ∧
        d' = mkShop (<[p_ID pr := pr]> (products (cur (abs (heap w))))) (orders (cur (abs (heap w))))
    | (_, Some _) => d' = cur (abs (heap w))
    end.
Proof.
  intros Hg Ht. unfold product_Create.
  destruct (query_scan_spec ctx insert_product_sql [VString n; VInt price; VInt stock] w Hg Ht)
    as (r & w' & d' & Hx & Ha & [Hs|(_ & -> & e & ->)]); run Hx;
    [|by eexists _, w', _].
  destruct sql_distinct as (D1 & _ & _ & D4 & _ & _ & D7 & D8 & _).
  inversion Hs; subst; simpl; try congruence.
  - eexists _, w', _. split; [reflexivity|]. split; [exact Ha|]. by split_and!.
  - eexists _, w', _. split; [reflexivity|]. split; [exact Ha|]. done.
Qed.

(** Reading an order changes nothing. *)
Lemma order_GetByID_spec ctx id w :
  gate_ok p ctx → ctx_target ctx = top (abs (heap w)) →
  ∃ r w', order_GetByID p ctx id w = (Ret r, w') ∧ abs (heap w') = abs (heap w) ∧
    match r with
    | (o, None) => orders (cur (abs (heap w))) !! id = Some o
    | (o, Some _) => o = zeroOrder
    end.
Proof.
  intros Hg Ht. unfold order_GetByID.
  destruct (query_scan_spec ctx select_order_sql [VInt id] w Hg Ht)
    as (r & w' & d' & Hx & Ha & [Hs|(_ & -> & e & ->)]); run Hx.
  2:{ simpl. rewrite orb_false_r.
      destruct (errors_Is e ErrNoRows); eexists _, w'; (split; [reflexivity|]); by rewrite Ha, set_cur_cur. }
  destruct sql_distinct as (_ & _ & D3 & _ & _ & D6 & _ & D8 & D9).
  inversion Hs; subst; simpl; try congruence;
    try (match goal with H : _ ∨ _ |- _ => destruct H; congruence end);
    rewrite set_cur_cur in Ha.
  - eexists _, w'. split; [reflexivity|]. split; [done|]. by destruct o.
  - by eexists _, w'.
  - match goal with H : foreign _ |- _ => destruct H as (-> & _) end. by eexists _, w'.
Qed.
End RepositoryLemmas.

(** ** Placing an order *)

Section PlaceOrder.
Context {lossy : bool} {S : Type} (p : TxProvider S) (abs : S → Abs Shop).
Context `{TL : !TxLaws lossy p abs shop_exec} `{QL : !QueryLaws p abs shop_query}.

Notation abs' := (λ x : S * Order, abs x.1).

(** What [o] is when the order for [q] of product [pid] has been placed. *)
Definition order_placed (pid q : Z) (d : Shop) (o : Order) (d' : Shop) : Prop :=
  ∃ pr, products d !! pid = Some pr ∧ (q ≤ Stock pr)%Z ∧
    orders d !! o_ID o = None ∧ ProductID o = pid ∧ Quantity o = q ∧ Total o = mul64 (Price pr) q ∧
    (0 < q)%Z ∧ (0 ≤ Total o)%Z ∧ storable_order o ∧ d' = placed pid q pr o d.

Definition placed_by (pid q : Z) (d d' : Shop) : Prop := ∃ o, order_placed pid q d o d'.

(** What the domain errors mean. *)
Definition order_refused (pid q : Z) (d : Shop) (e : error) : Prop :=
  (errors_Is e ErrInsufficientStock = true → ∃ pr, products d !! pid = Some pr ∧ (Stock pr < q)%Z) ∧
  (errors_Is e ErrNotFound = true → products d !! pid = None).

Lemma foreign_refused pid q d e : foreign e → order_refused pid q d e.
Proof. intros (_ & H1 & H2). split; congruence. Qed.

Lemma place_order_spec pid q ctx w :
  in_tx ctx = true → gate_ok p ctx → ctx_target ctx = top (abs (heap w).1) →
  ∃ res w1 d1, place_order p pid q ctx w = (Ret res, w1) ∧
    abs (heap w1).1 = set_cur d1 (abs (heap w).1) ∧
    match res with
    | None => order_placed pid q (cur (abs (heap w).1)) (heap w1).2 d1
    | Some e => order_refused pid q (cur (abs (heap w).1)) e
    end.
Proof.
  intros Hin Hg Ht. unfold place_order.
  destruct (scanProduct_spec (local_provider p) abs' ctx pid true w Hg Ht) as ([pr e] & w1 & H1 & Ha1 & Hr).
  unfold GetForUpdate. run H1. simpl in *. destruct e as [e|].
  { eexists _, w1, _. split; [reflexivity|]. rewrite Ha1, set_cur_cur. split; [done|].
    destruct Hr as [_ Hr]. destruct (Hr Hin) as [Hs Hn]. split; [congruence|done]. }
  destruct (Z.ltb_spec (Stock pr) q) as [Hlt|Hge].
  { eexists _, w1, _. split; [reflexivity|]. rewrite Ha1, set_cur_cur. split; [done|].
    split; [eauto|]. simpl. done. }
  rewrite <-Ha1 in Ht.
  destruct (DecrementStock_spec (local_provider p) abs' ctx pid q w1 Hin Hg Ht)
    as (e & w2 & d2 & H2 & Ha2 & Hr2).
  run H2. simpl in *. rewrite Ha1 in Ha2, Hr2.
  destruct e as [e|].
  { eexists _, w2, d2. split; [reflexivity|]. split; [done|]. by apply foreign_refused. }
  destruct (Hr2 pr Hr) as [-> Hpos].
  destruct (order_Create_spec (local_provider p) abs' ctx pid q (mul64 (Price pr) q) w2 Hin Hg)
    as ([o e] & w3 & d3 & H3 & Ha3 & Hr3).
  { by rewrite Ha2, top_set_cur, <-Ha1. }
  run H3. simpl in *. rewrite Ha2 in Ha3, Hr3.
  rewrite cur_set_cur in Hr3. rewrite set_cur_set_cur in Ha3.
  destruct e as [e|].
  { eexists _, _, d3. split; [reflexivity|]. split; [done|]. by apply foreign_refused. }
  destruct Hr3 as (Hfresh & Hpid & Hq & Htot & Hq0 & Ht0 & Hst & ->).
  eexists _, _, _. split; [reflexivity|]. split; [exact Ha3|]. exists pr. simpl in *.
  split_and!; try done. by rewrite Htot.
Qed.

(** The whole transaction, with the captured variable. *)
Lemma order_tx_spec pid q ctx w :
  gate_ok p ctx → ctx_target ctx = top (abs (heap w)) →
  ∃ e o w', with_local zeroOrder (WithTx (local_provider p) ctx (place_order p pid q)) w = (Ret (e, o), w') ∧
    match e with
    | None => ∃ d', abs (heap w') = set_cur d' (abs (heap w)) ∧ order_placed pid q (cur (abs (heap w))) o d'
    | Some e => ∃ d', abs (heap w') = set_cur d' (abs (heap w)) ∧
        tx_failed lossy (in_tx ctx) (cur (abs (heap w))) e (placed_by pid q (cur (abs (heap w)))) d'
    end.
Proof.
  intros Hg Ht. unfold with_local, WithTx.
  set (w0 := mkWorld (clock w) (coins w) (heap w, zeroOrder)).
  destruct (WithTx_begin_refines (local_provider p) abs' shop_exec ctx w0 Hg Ht) as (r & w1 & Hb & Hr).
  run Hb. destruct r as [h|e].
  2:{ simpl. eexists _, _, _. split; [reflexivity|]. simpl. destruct Hr as [_ ->].
      exists (cur (abs (heap w))). split; [by rewrite set_cur_cur|by left]. }
  destruct Hr as [Hh Ha].
  destruct (place_order_spec pid q (WithTxValue ctx h) w1) as (res & w2 & d2 & Hfn & Ha2 & Hr2);
    [done|done|by rewrite Ha|].
  pose proof (WithTx_body_local p ctx h _ _ _ _ Hfn) as Hlocal.
  rewrite Ha in Ha2, Hr2.
  destruct (WithTx_body_refines (local_provider p) abs' shop_exec ctx h _ _ _ _ _ d2 Ha Hh Hfn)
    as (r & w3 & d' & Hbody & Hw3 & Hcase); [done|done|].
  rewrite Hbody in Hlocal |- *. simpl in Hlocal. rewrite Hlocal.
  assert (∃ e, r = Ret e) as [e ->].
  { destruct res as [e|]; simpl in Hcase; [destruct Hcase as [[-> _]|[[re ->] _]]|destruct Hcase as [[-> _]|[[e ->] _]]];
      by eexists. }
  eexists e, _, _. split; [reflexivity|]. destruct e as [e|]; exists d'; (split; [done|]).
  - eapply (block_failed (abs (heap w)) d2); [exact Hcase|by rewrite <-(inside_in_tx _ _ Ht)|].
    intros [= ->]. by eexists.
  - destruct res as [e|]; simpl in Hcase.
    + by destruct Hcase as [[? _]|[[? ?] _]].
    + by destruct Hcase as [[_ ->]|[[? ?] _]].
Qed.
End PlaceOrder.

(** ** The service: database, cache and log together *)

Inductive service_call : Type :=
| S_CreateProduct (name : string) (price stock : Z)
| S_GetProduct (id : Z)
| S_CreateOrder (pid q : Z)
| S_GetOrder (id : Z).

Inductive service_result : Type :=
| R_Product (pr : Product) (e : option error)
| R_Order (o : Order) (e : option error).

Section ServiceLemmas.
Context {lossy : bool} {S C : Type} (p : TxProvider S) (abs : S → Abs Shop) (c : Cache C Product)
  (cd : Codec Product) (inv : C → Prop) (contents : C → gmap string string).
Context `{TL : !TxLaws lossy p abs shop_exec} `{QL : !QueryLaws p abs shop_query}
  `{CL : !CacheLaws c cd inv contents}.

Definition service_do (ctx : Context) (o : service_call) : M (Svc S C) service_result :=
  match o with
  | S_CreateProduct n pr st => (r <- CreateProduct p ctx n pr st ;; ret (R_Product r.1 r.2))%go
  | S_GetProduct id => (r <- GetProduct p c ctx id ;; ret (R_Product r.1 r.2))%go
  | S_CreateOrder pid q => (r <- CreateOrder p c ctx pid q ;; ret (R_Order r.1 r.2))%go
  | S_GetOrder id => (r <- GetOrder p ctx id ;; ret (R_Order r.1 r.2))%go
  end.

Lemma on_db_Ret {A} (m : M S A) (w : World (Svc S C)) r w1 :
  m (mkWorld (clock w) (coins w) (sv_db (heap w))) = (Ret r, w1) →
  on_db m w = (Ret r, mkWorld (clock w1) (coins w1) (mkSvc (heap w1) (sv_cache (heap w)) (sv_log (heap w)))).
Proof. unfold on_db, zoom. by intros ->. Qed.

Lemma on_cache_Ret {A} (m : M C A) (w : World (Svc S C)) r w1 :
  m (mkWorld (clock w) (coins w) (sv_cache (heap w))) = (Ret r, w1) →
  on_cache m w = (Ret r, mkWorld (clock w1) (coins w1) (mkSvc (sv_db (heap w)) (heap w1) (sv_log (heap w)))).
Proof. unfold on_cache, zoom. by intros ->. Qed.

Definition failed_invalidation : string := "failed to invalidate product cache".

Lemma CreateOrder_spec ctx pid q w :
  gate_ok p ctx → ctx_target ctx = top (abs (sv_db (heap w))) → inv (sv_cache (heap w)) →
  ∃ o e w', CreateOrder p c ctx pid q w = (Ret (o, e), w') ∧ inv (sv_cache (heap w')) ∧
    match e with
    | Some err => o = zeroOrder ∧ sv_cache (heap w') = sv_cache (heap w) ∧ sv_log (heap w') = sv_log (heap w) ∧
        ∃ d', abs (sv_db (heap w')) = set_cur d' (abs (sv_db (heap w))) ∧
          tx_failed lossy (in_tx ctx) (cur (abs (sv_db (heap w)))) err
            (placed_by pid q (cur (abs (sv_db (heap w))))) d'
    | None => ∃ d', abs (sv_db (heap w')) = set_cur d' (abs (sv_db (heap w))) ∧
        order_placed pid q (cur (abs (sv_db (heap w)))) o d' ∧
        contents (sv_cache (heap w')) ⊆ contents (sv_cache (heap w)) ∧
        ((sv_log (heap w') = sv_log (heap w) ∧
          contents (sv_cache (heap w')) !! productCacheKey pid = None) ∨
         sv_log (heap w') = sv_log (heap w) ++ [failed_invalidation])
    end.
Proof.
  intros Hg Ht Hi. unfold CreateOrder.
  destruct (order_tx_spec p abs pid q ctx (mkWorld (clock w) (coins w) (sv_db (heap w))) Hg Ht)
    as (e & o & w1 & Htx & Hr).
  run (on_db_Ret _ _ _ _ Htx). simpl in *.
  destruct e as [e|]; [eexists _, _, _; split; [reflexivity|]; by split_and!|].
  destruct Hr as (d' & Ha & Ho).
  set (w2 := mkWorld (clock w1) (coins w1) (mkSvc (heap w1) (sv_cache (heap w)) (sv_log (heap w)))).
  destruct (law_delete (CacheLaws := CL) ctx (productCacheKey pid)
    (mkWorld (clock w2) (coins w2) (sv_cache (heap w2))) Hi) as (de & w3 & Hdel & Hi3 & Hsub).
  run (on_cache_Ret _ w2 _ _ Hdel). simpl in *.
  destruct de as [de|]; (eexists _, _, _; split; [reflexivity|]; split; [done|]; simpl; exists d').
  - split_and!; try done. by right.
  - split_and!; try done.
    + etrans; [exact Hsub|]. apply delete_subseteq.
    + left. split; [done|]. eapply lookup_weaken_None; [|exact Hsub]. apply lookup_delete_eq.
Qed.

(** Every cached product is the row in the table. *)
Definition cache_current (d : Shop) (m : gmap string string) : Prop :=
  ∀ id b, m !! productCacheKey id = Some b →
    ∃ pr, products d !! id = Some pr ∧ Marshal cd pr = inl b.

Lemma cache_current_sub d m m' : cache_current d m → m' ⊆ m → cache_current d m'.
Proof. intros H Hs id b Hb. apply H. by eapply lookup_weaken. Qed.

Lemma cache_current_set d m id pr b :
  cache_current d m → products d !! id = Some pr → Marshal cd pr = inl b →
  cache_current d (<[productCacheKey id := b]> m).
Proof.
  intros H Hp Hb id' b' Hb'. destruct (decide (id = id')) as [<-|Hne].
  - rewrite lookup_insert_eq in Hb'. simplify_eq. eauto.
  - rewrite lookup_insert_ne in Hb'; [by apply H|]. by intros ?%(inj productCacheKey).
Qed.

(** Changing one row keeps the other entries current. *)
Lemma cache_current_insert d m id pr os :
  cache_current d m → m !! productCacheKey id = None →
  cache_current (mkShop (<[id := pr]> (products d)) os) m.
Proof.
  intros H Hn id' b Hb. simpl. destruct (decide (id = id')) as [<-|Hne]; [congruence|].
  rewrite lookup_insert_ne by done. by apply H.
Qed.

Hypothesis codec_roundtrip : ∀ pr dest b,
  storable_product pr → Marshal cd pr = inl b → Unmarshal cd b dest = (pr, None).

(** The state between calls, outside of transactions. *)
Definition settled (w : World (Svc S C)) : Prop :=
  opened (abs (sv_db (heap w))) = [] ∧ inv (sv_cache (heap w)) ∧
  map_Forall (λ _, storable_product) (products (cur (abs (sv_db (heap w))))) ∧
  cache_current (cur (abs (sv_db (heap w)))) (contents (sv_cache (heap w))).

(** What [GetProduct] may do from a settled state. *)
Definition read_ok (id : Z) (w : World (Svc S C)) (pr : Product) (e : option error)
    (w' : World (Svc S C)) : Prop :=
  settled w' ∧ abs (sv_db (heap w')) = abs (sv_db (heap w)) ∧
  (∃ l, sv_log (heap w') = sv_log (heap w) ++ l ∧ failed_invalidation ∉ l) ∧
  (e = None → products (cur (abs (sv_db (heap w)))) !! id = Some pr).

Lemma log_nothing (l : list string) : ∃ l', l = l ++ l' ∧ failed_invalidation ∉ l'.
Proof. exists []. rewrite app_nil_r. split; [done|]. by intros ?%elem_of_nil. Qed.

Lemma log_other (l : list string) m :
  m ≠ failed_invalidation → ∃ l', l ++ [m] = l ++ l' ∧ failed_invalidation ∉ l'.
Proof. intros Hm. exists [m]. split; [done|]. intros H%list_elem_of_singleton. by apply Hm. Qed.

Lemma settled_target ctx w :
  TxFromContext ctx = None → settled w → ctx_target ctx = top (abs (sv_db (heap w))).
Proof. intros Hn [Ho _]. unfold ctx_target, top. by rewrite Hn, Ho. Qed.

Lemma GetProduct_load_spec ctx id w :
  gate_ok p ctx → TxFromContext ctx = None → settled w →
  ∃ pr e w', GetProduct_load p c ctx id w = (Ret (pr, e), w') ∧ read_ok id w pr e w'.
Proof.
  intros Hg Hn Hset. pose proof (settled_target ctx w Hn Hset) as Ht.
  destruct Hset as (Ho & Hi & Hst & Hcur). unfold GetProduct_load, product_GetByID.
  destruct (scanProduct_spec p abs ctx id false (mkWorld (clock w) (coins w) (sv_db (heap w))) Hg Ht)
    as ([pr e] & w1 & Hq & Ha & Hr).
  run (on_db_Ret _ _ _ _ Hq). simpl in *. destruct e as [e|].
  { eexists _, _, _. split; [reflexivity|]. unfold read_ok, settled. simpl. rewrite Ha.
    split_and!; try done. apply log_nothing. }
  set (w2 := mkWorld (clock w1) (coins w1) (mkSvc (heap w1) (sv_cache (heap w)) (sv_log (heap w)))).
  destruct (law_set (CacheLaws := CL) ctx (productCacheKey id) pr productCacheTTL
    (mkWorld (clock w2) (coins w2) (sv_cache (heap w2))) Hi) as (e & w3 & Hs & Hi3 & Hsub).
  run (on_cache_Ret _ w2 _ _ Hs). simpl in *.
  assert (cache_current (cur (abs (sv_db (heap w)))) (contents (heap w3))) as Hc3.
  { destruct (Marshal cd pr) as [b|] eqn:Hm; [destruct Hsub as [Hsub|[_ Hsub]]|destruct Hsub as [_ Hsub]];
      (eapply cache_current_sub; [|exact Hsub]); [|done..]. by eapply cache_current_set. }
  destruct e as [e|]; (eexists _, _, _; split; [reflexivity|]); unfold read_ok, settled; simpl; rewrite Ha;
    (split_and!; try done); [by apply log_other|apply log_nothing].
Qed.

Lemma GetProduct_spec ctx id w :
  gate_ok p ctx → TxFromContext ctx = None → settled w →
  ∃ pr e w', GetProduct p c ctx id w = (Ret (pr, e), w') ∧ read_ok id w pr e w'.
Proof.
  intros Hg Hn (Ho & Hi & Hst & Hcur). unfold GetProduct.
  destruct (law_get (CacheLaws := CL) ctx (productCacheKey id) zeroProduct
    (mkWorld (clock w) (coins w) (sv_cache (heap w))) Hi) as (v & e & w1 & Hget & Hi1 & Hsub & Hv).
  run (on_cache_Ret _ _ _ _ Hget). simpl in *.
  destruct e as [err|].
  2:{ eexists _, _, _. split; [reflexivity|]. unfold read_ok, settled. simpl. split_and!; try done.
      - by eapply cache_current_sub.
      - apply log_nothing.
      - intros _. destruct (Hv eq_refl) as (b & Hb & Hu). destruct (Hcur id b Hb) as (pr & Hp & Hm).
        rewrite (codec_roundtrip pr zeroProduct b (Hst id pr Hp) Hm) in Hu. by simplify_eq. }
  set (quiet := String.eqb (Error err) "redis: nil" || _).
  set (w2 := mkWorld (clock w1) (coins w1) (mkSvc (sv_db (heap w)) (heap w1)
    (sv_log (heap w) ++ if quiet then [] else ["cache error or malformed entry"]))).
  assert ((if quiet then ret tt else warn "cache error or malformed entry")
    (mkWorld (clock w1) (coins w1) (mkSvc (sv_db (heap w)) (heap w1) (sv_log (heap w)))) = (Ret tt, w2)) as Hw2.
  { unfold w2. destruct quiet; [by rewrite app_nil_r|done]. }
  run Hw2.
  destruct (GetProduct_load_spec ctx id w2 Hg Hn) as (pr & e & w3 & Hl & Hset & Ha & (l & Hlog & Hl') & Hp).
  { split_and!; try done. by eapply cache_current_sub. }
  exists pr, e, w3. split; [done|]. split; [done|]. split; [done|]. split; [|done].
  exists ((if quiet then [] else ["cache error or malformed entry"]) ++ l). split.
  { rewrite Hlog. simpl. by rewrite <-app_assoc. }
  rewrite elem_of_app. intros [H|H]; [|done].
  destruct quiet; [by apply elem_of_nil in H|by apply list_elem_of_singleton in H].
Qed.

(** A failed commit: the caller cannot know whether the order has been placed. *)
Definition unknown_outcome (r : service_result) : Prop :=
  match r with R_Order _ (Some e) => ∃ ce, e = commit_failed ce | _ => False end.

(** While no invalidation has failed, and no order has ended in an unknown outcome,
    a settled state stays settled. *)
Lemma service_do_settled ctx o w :
  gate_ok p ctx → TxFromContext ctx = None → settled w →
  ∃ r w', service_do ctx o w = (Ret r, w') ∧
    (failed_invalidation ∉ sv_log (heap w') → (lossy = true → ¬ unknown_outcome r) → settled w') ∧
    (∃ l, sv_log (heap w') = sv_log (heap w) ++ l) ∧
    match o, r with
    | S_GetProduct id, R_Product pr e =>
        e = None → products (cur (abs (sv_db (heap w)))) !! id = Some pr
    | _, _ => True
    end.
Proof.
  intros Hg Hn Hset. pose proof (settled_target ctx w Hn Hset) as Ht.
  destruct Hset as (Ho & Hi & Hst & Hcur). set (w0 := mkWorld (clock w) (coins w) (sv_db (heap w))).
  destruct o as [n price stock|id|pid q|id]; simpl.
  - destruct (product_Create_spec p abs ctx n price stock w0 Hg Ht) as ([pr e] & w1 & d' & Hq & Ha & Hr).
    unfold CreateProduct. run (on_db_Ret _ _ _ _ Hq).
    eexists _, _. split; [reflexivity|]. split; [|split; [by exists []; rewrite app_nil_r|done]].
    intros _ _. unfold settled. simpl in *. rewrite Ha. unfold cur, set_cur in *. rewrite Ho in *. simpl.
    destruct e; [by rewrite Hr|]. destruct Hr as (Hnew & _ & _ & _ & Hok & ->).
    split_and!; [done|done|by apply map_Forall_insert_2|].
    apply cache_current_insert; [done|].
    destruct (contents (sv_cache (heap w)) !! productCacheKey (p_ID pr)) as [b|] eqn:Hb; [|done].
    destruct (Hcur _ _ Hb) as (pr' & Hp' & _). congruence.
  - destruct (GetProduct_spec ctx id w Hg Hn) as (pr & e & w1 & Hq & Hset & Ha & (l & Hl & _) & Hp);
      [done|].
    run Hq. eexists _, _. split; [reflexivity|]. eauto.
  - destruct (CreateOrder_spec ctx pid q w Hg Ht Hi) as (ord & e & w1 & Hq & Hi1 & Hr).
    run Hq. eexists _, _. split; [reflexivity|]. destruct e as [e|]; simpl.
    { destruct Hr as (_ & Hc & Hl & d' & Ha & Hf). unfold settled. rewrite Ha, Hc, Hl.
      split; [|split; [by exists []; rewrite app_nil_r|done]]. intros _ Hu.
      destruct Hf as [->|[(? & ? & _)|(_ & Hin & _)]]; [by rewrite set_cur_cur|by destruct Hu|].
      unfold in_tx in Hin. by rewrite Hn in Hin. }
    destruct Hr as (d' & Ha & (pr & Hp & Hq' & _ & _ & _ & _ & Hq0 & _ & _ & ->) & Hsub & Hl).
    destruct Hl as [[Hl Hkey]|Hl]; rewrite Hl.
    + split; [|split; [by exists []; rewrite app_nil_r|done]]. intros _ _. unfold settled. rewrite Ha.
      unfold cur, set_cur in *. rewrite Ho in *. simpl in *.
      split_and!; [done|done|apply map_Forall_insert_2; [apply storable_set_stock; [lia|by apply (Hst pid)]|done]|].
      apply (cache_current_insert (base (abs (sv_db (heap w))))); [by eapply cache_current_sub|done].
    + split; [|split; [by eexists|done]]. intros Hnot _. exfalso. apply Hnot, elem_of_app. right.
      by apply list_elem_of_singleton.
  - destruct (order_GetByID_spec p abs ctx id w0 Hg Ht) as ([ord e] & w1 & Hq & Ha & _).
    unfold GetOrder. run (on_db_Ret _ _ _ _ Hq).
    eexists _, _. split; [reflexivity|]. unfold settled. simpl in *. rewrite Ha.
    split; [done|]. split; [by exists []; rewrite app_nil_r|done].
Qed.

(** A sequence of calls in which, while no invalidation has failed (and, if [unsure],
    no commit has), every successful read returns the row that is in the table at
    that moment. *)
Fixpoint reads_current (unsure : bool) (ctx : Context) (os : list service_call) (w : World (Svc S C)) : Prop :=
  match os with
  | [] => True
  | o :: os' =>
      match service_do ctx o w with
      | (Ret r, w') =>
          (failed_invalidation ∉ sv_log (heap w) →
           match o, r with
           | S_GetProduct id, R_Product pr e =>
               e = None → products (cur (abs (sv_db (heap w)))) !! id = Some pr
           | _, _ => True
           end) ∧
          (failed_invalidation ∉ sv_log (heap w') → (unsure = true → ¬ unknown_outcome r) →
           reads_current unsure ctx os' w')
      | _ => False
      end
  end.

Lemma reads_current_settled ctx os w :
  gate_ok p ctx → TxFromContext ctx = None → settled w → reads_current lossy ctx os w.
Proof.
  intros Hg Hn. revert w. induction os as [|o os IH]; intros w Hset; [done|].
  simpl. destruct (service_do_settled ctx o w Hg Hn Hset) as (r & w' & Hr & Hset' & _ & Hread).
  rewrite Hr. split; [done|]. intros Hok Hu. apply IH. by apply Hset'.
Qed.
End ServiceLemmas.


(** ** A sample database and cache *)

Definition sql_error (m : string) : error := ErrorString m.

(** One past the largest key. *)
Definition next_key {A} (m : gmap Z A) : Z :=
  (1 + foldr Z.max 0 (map fst (map_to_list m)))%Z.

Definition shop_exec_fn (sql : string) (args : list Value) (d : Shop) : (Z * option error) * Shop :=
  match args with
  | [VInt q; VInt id] =>
      if String.eqb sql decrement_sql then
        match products d !! id with
        | Some pr =>
            if (0 <=? Stock pr - q)%Z && (Stock pr - q <=? max_int64)%Z then
              ((1%Z, None), mkShop (<[id := set_stock (Stock pr - q) pr]> (products d)) (orders d))
            else ((0%Z, Some (sql_error "violates check constraint")), d)
        | None => ((0%Z, None), d)
        end
      else ((0%Z, Some (sql_error "syntax error")), d)
  | _ => ((0%Z, Some (sql_error "syntax error")), d)
  end.

Definition shop_query_fn (sql : string) (args : list Value) (d : Shop) :
    (list Value * option error) * Shop :=
  match args with
  | [VInt id] =>
      if String.eqb sql select_product_sql || String.eqb sql (select_product_sql +:+ " FOR UPDATE") then
        match products d !! id with
        | Some pr => ((product_row pr, None), d)
        | None => (([], Some (Sentinel ErrNoRows)), d)
        end
      else if String.eqb sql select_order_sql then
        match orders d !! id with
        | Some o => ((order_row o, None), d)
        | None => (([], Some (Sentinel ErrNoRows)), d)
        end
      else (([], Some (sql_error "syntax error")), d)
  | [VString n; VInt pr; VInt st] =>
      let row := mkProduct 0 n (next_key (products d)) pr st in
      if String.eqb sql insert_product_sql && (0 <=? pr)%Z && (0 <=? st)%Z &&
         bool_decide (storable_product row) then
        ((product_row row, None), mkShop (<[p_ID row := row]> (products d)) (orders d))
      else (([], Some (sql_error "violates check constraint")), d)
  | [VInt pid; VInt q; VInt tot] =>
      let row := mkOrder 0 (next_key (orders d)) pid q tot in
      if String.eqb sql insert_order_sql && (0 <? q)%Z && (0 <=? tot)%Z &&
         bool_decide (is_Some (products d !! pid)) && bool_decide (storable_order row) then
        ((order_row row, None), mkShop (products d) (<[o_ID row := row]> (orders d)))
      else (([], Some (sql_error "violates check constraint")), d)
  | _ => (([], Some (sql_error "syntax error")), d)
  end.

(** The reference database of the transaction manager, over the shop; an injected
    fault reaches the client as a driver error with its text. *)
Definition driver_error (e : error) : error := ErrorString (Error e).

Definition shop_Exec (t : target) (ctx : Context) (sql : string) (args : list Value) :
    M (StackDB Shop) (Z * option error) :=
  db_op t (λ e, (0%Z, Some (driver_error e))) (λ _, id) (λ a,
    ((shop_exec_fn sql args (cur a)).1, set_cur (shop_exec_fn sql args (cur a)).2 a)).

Definition shop_QueryRow (t : target) (ctx : Context) (sql : string) (args : list Value) :
    M (StackDB Shop) (Row (StackDB Shop)) :=
  ret (mkRow (db_op t (λ e, ([], Some (driver_error e))) (λ _, id) (λ a,
    ((shop_query_fn sql args (cur a)).1, set_cur (shop_query_fn sql args (cur a)).2 a)))).

Definition shop_db (lossy : bool) (rd : option Signal) : TxProvider (StackDB Shop) :=
  mkTxProvider shop_Exec (λ _ _ _ _, ret (inr (ErrorString "unsupported"))) shop_QueryRow
    sdb_Begin (sdb_Commit lossy) (sdb_Rollback lossy) rd.

Lemma next_key_fresh {A} (m : gmap Z A) : m !! next_key m = None.
Proof.
  destruct (m !! next_key m) as [x|] eqn:H; [|done]. exfalso.
  apply elem_of_map_to_list in H. unfold next_key in H.
  assert (∀ k l, k ∈ map fst l → (k ≤ foldr Z.max 0 (map (fst (A := Z) (B := A)) l))%Z) as Hmax.
  { intros k l. induction l as [|y l IH]; simpl; [by intros ?%elem_of_nil|].
    intros [->|Hk]%elem_of_cons; [lia|]. specialize (IH Hk). lia. }
  assert ((1 + foldr Z.max 0 (map fst (map_to_list m)))%Z ∈ map fst (map_to_list m)) as Hin.
  { by apply (list_elem_of_fmap_2 fst) in H. }
  apply Hmax in Hin. lia.
Qed.

#[local] Opaque select_product_sql insert_product_sql decrement_sql insert_order_sql select_order_sql.

Lemma shop_exec_fn_ok sql args d :
  shop_exec sql args d (shop_exec_fn sql args d).1 (shop_exec_fn sql args d).2.
Proof.
  unfold shop_exec_fn.
  repeat (case_match; simpl; try (by apply X_fail)); simpl in *.
  - match goal with H : String.eqb _ _ = true |- _ => apply String.eqb_eq in H as -> end.
    match goal with H : (_ && _)%bool = true |- _ => apply andb_true_iff in H as [?%Z.leb_le ?%Z.leb_le] end.
    by apply X_decrement.
  - match goal with H : String.eqb _ _ = true |- _ => apply String.eqb_eq in H as -> end.
    by apply X_decrement_none.
Qed.

Lemma shop_query_fn_ok sql args d :
  shop_query sql args d (shop_query_fn sql args d).1 (shop_query_fn sql args d).2.
Proof.
  unfold shop_query_fn.
  repeat (case_match; simpl; try (by apply Q_fail)); simpl in *;
    repeat match goal with
    | H : (_ && _)%bool = true |- _ => apply andb_true_iff in H as [? ?]
    | H : (_ || _)%bool = true |- _ => apply orb_true_iff in H
    | H : String.eqb _ _ = true |- _ => apply String.eqb_eq in H
    | H : bool_decide _ = true |- _ => apply bool_decide_eq_true in H
    end.
  - match goal with H : _ ∨ _ |- _ => rewrite !String.eqb_eq in H end. by apply Q_product.
  - match goal with H : _ ∨ _ |- _ => rewrite !String.eqb_eq in H end. by apply Q_product_none.
  - subst. by apply Q_order.
  - subst. by apply Q_order_none.
  - subst. apply Q_insert_order; [apply next_key_fresh|done|lia|lia|done].
  - subst. apply Q_insert_product; [apply next_key_fresh|lia|lia|done].
Qed.

#[global] Instance shop_db_laws lossy rd : TxLaws lossy (shop_db lossy rd) sdb shop_exec.
Proof.
  pose proof (stackdb_laws lossy shop_exec_fn rd) as L. split; [|apply (law_begin (TxLaws := L))
    |apply (law_commit (TxLaws := L))|apply (law_rollback (TxLaws := L))
    |apply (law_rollback_closed (TxLaws := L))].
  intros ctx sql args w.
  edestruct (db_op_open (D := Shop) (A := Z * option error)) as (r & w' & Hop & Hr); [apply is_open_top|].
  destruct Hr as [(e & -> & Hs)|Hs]; eexists _, w', _; (split; [exact Hop|]).
  - split; [by apply X_fail|]. by rewrite Hs, set_cur_cur.
  - injection Hs as -> Hs. split; [apply shop_exec_fn_ok|done].
Qed.

#[global] Instance shop_db_query_laws lossy rd : QueryLaws (shop_db lossy rd) sdb shop_query.
Proof.
  split. intros ctx sql args w.
  edestruct (db_op_open (D := Shop) (A := list Value * option error)) as (r & w' & Hop & Hr);
    [apply is_open_top|].
  destruct Hr as [(e & -> & Hs)|Hs]; eexists _, w', _; (split; [exact Hop|]).
  - split; [by apply Q_fail|]. by rewrite Hs, set_cur_cur.
  - injection Hs as -> Hs. split; [apply shop_query_fn_ok|done].
Qed.

(** The default codec of the caches, on products. *)
Definition product_codec (zone : Z → Z) (json_text : string → json_error → string) : Codec Product :=
  JSONCodec (V := Product) json_text (ToJson0 := product_to_json zone).

Lemma product_codec_roundtrip zone json_text pr dest b :
  storable_product pr → Marshal (product_codec zone json_text) pr = inl b →
  Unmarshal (product_codec zone json_text) b dest = (pr, None).
Proof. apply (@JSONCodec_law Product (product_to_json zone) _ storable_product (product_json_laws zone)). Qed.

(** What the codec makes of the text of a product and whatever follows it. *)
Lemma product_codec_text zone json_text pr b k dest :
  storable_product pr → Marshal (product_codec zone json_text) pr = inl b →
  Unmarshal (product_codec zone json_text) (b +:+ k) dest =
    if String.eqb (skip k) "" then (pr, None) else (dest, Some (json_err json_text (b +:+ k) SyntaxError)).
Proof.
  intros Hpr Hb. simpl in *. unfold json_Marshal in Hb.
  destruct (@to_json Product (product_to_json zone) pr) as [j|] eqn:Hj; [|done]. injection Hb as <-.
  destruct (law_wf (JsonLaws := product_json_laws zone) pr j Hj) as [Hwf Hn].
  unfold json_Unmarshal. rewrite <-print_app, parse_print; [|done|done|].
  2:{ unfold to_json, product_to_json in Hj. destruct (MarshalTime _ _); by simplify_eq. }
  change ("" +:+ k) with k. destruct (String.eqb (skip k) ""); [|done].
  by rewrite (law_roundtrip (JsonLaws := product_json_laws zone) pr j false dest Hpr Hj).
Qed.

Definition sample_text (data : string) (e : json_error) : string := "json: malformed".
Definition sample_codec : Codec Product := product_codec (λ _, 0%Z) sample_text.

Definition widget : Product := mkProduct 0 "widget" 1 250 10.

Definition shop_world (d : Shop) (fs : list (option error)) :
    World (Svc (StackDB Shop) (MemoryCache Product)) :=
  mkWorld 0 [] (mkSvc (mkStackDB (mkAbs d []) fs) (New []) []).

Definition one_widget : Shop := mkShop {[1%Z := widget]} ∅.

Definition sample_cache : Cache (MemoryCache Product) Product := memory_cache sample_codec.
Definition sample_db : TxProvider (StackDB Shop) := shop_db false (Some (Some 0%Z)).

Lemma shop_world_settled d fs :
  map_Forall (λ _, storable_product) (products d) →
  settled sdb sample_codec (λ c, codec c = None) data (shop_world d fs).
Proof. intros Hd. split_and!; [done|done|done|]. intros id b Hb. simpl in Hb. by rewrite lookup_empty in Hb. Qed.

Lemma one_widget_storable : map_Forall (λ _, storable_product) (products one_widget).
Proof. apply map_Forall_singleton. by vm_compute. Qed.

(** A read fills the cache; the order takes the stock down and drops the cached
    copy; the next read sees the new stock. *)
Example service_runs :
  let '(r1, w1) := GetProduct sample_db sample_cache Background 1 (shop_world one_widget []) in
  let '(r2, w2) := CreateOrder sample_db sample_cache Background 1 3 w1 in
  let '(r3, w3) := GetProduct sample_db sample_cache Background 1 w2 in
  r1 = Ret (widget, None) ∧ size (data (sv_cache (heap w1))) = 1 ∧
  r2 = Ret (mkOrder 0 1 1 3 750, None) ∧ size (data (sv_cache (heap w2))) = 0 ∧
  r3 = Ret (set_stock 7 widget, None).
Proof. vm_compute. auto 10. Qed.

Example order_insufficient :
  let '(r, w) := CreateOrder sample_db sample_cache Background 1 11 (shop_world one_widget []) in
  r = Ret (zeroOrder, Some (insufficient 10 11)) ∧ base (sdb (sv_db (heap w))) = one_widget.
Proof. vm_compute. auto. Qed.

(** ** Theorems *)



(** C13. An order is placed entirely or not at all. Over any transaction provider,
    query provider and cache that keep their promises, a readiness gate that does
    not wait forever and outside of other calls, [CreateOrder] returns; on success
    the product existed with enough stock, its stock is lower by the quantity,
    exactly one order row under a new key is added, with the product, the quantity
    and the wrapped product of price and quantity, and the cached product is gone or
    the failed invalidation is logged; on an error the cache and the log are as
    before, and so is the database, except where failures of the provider are lossy:
    then a failed commit may have placed the order entirely, and inside another
    transaction the failed rollback of the savepoint may leave changes in it. *)
Theorem CreateOrder_correct lossy {S C} (p : TxProvider S) (abs : S → Abs Shop) (c : Cache C Product) cd inv
    contents ctx pid q w :
  TxLaws lossy p abs shop_exec → QueryLaws p abs shop_query → CacheLaws c cd inv contents →
  gate_ok p ctx → ctx_target ctx = top (abs (sv_db (heap w))) → inv (sv_cache (heap w)) →
  ∃ o e w', CreateOrder p c ctx pid q w = (Ret (o, e), w') ∧ inv (sv_cache (heap w')) ∧
    match e with
    | Some err => o = zeroOrder ∧ sv_cache (heap w') = sv_cache (heap w) ∧ sv_log (heap w') = sv_log (heap w) ∧
        ∃ d', abs (sv_db (heap w')) = set_cur d' (abs (sv_db (heap w))) ∧
          tx_failed lossy (in_tx ctx) (cur (abs (sv_db (heap w)))) err
            (placed_by pid q (cur (abs (sv_db (heap w))))) d'
    | None => ∃ d', abs (sv_db (heap w')) = set_cur d' (abs (sv_db (heap w))) ∧
        order_placed pid q (cur (abs (sv_db (heap w)))) o d' ∧
        contents (sv_cache (heap w')) ⊆ contents (sv_cache (heap w)) ∧
        ((sv_log (heap w') = sv_log (heap w) ∧
          contents (sv_cache (heap w')) !! productCacheKey pid = None) ∨
         sv_log (heap w') = sv_log (heap w) ++ [failed_invalidation])
    end.
Proof. intros TL QL CL. by apply (CreateOrder_spec p abs c cd inv contents). Qed.

Lemma CreateOrder_correct_witness :
  ∃ o e w', CreateOrder sample_db sample_cache Background 1 3 (shop_world one_widget []) = (Ret (o, e), w') ∧
    e = None ∧ Total o = 750%Z.
Proof.
  pose proof (CreateOrder_correct false sample_db sdb sample_cache sample_codec (λ c, codec c = None) data
    Background 1 3 (shop_world one_widget []) (shop_db_laws _ _) (shop_db_query_laws _ _)
    (memory_cache_laws sample_codec None) I eq_refl eq_refl) as (o & e & w' & Hr & _).
  exists o, e, w'. split; [exact Hr|]. vm_compute in Hr. by injection Hr as <- <- _.
Defined.

(** C18. Reads are current. Over providers and caches that keep their promises, a
    readiness gate that does not wait forever and a codec that round-trips, outside
    of transactions and for calls that do not overlap: from a state in which every
    cached product is its row, through any sequence of calls of the service in which
    no invalidation fails, and, where failures are lossy, no commit of an order,
    every product [GetProduct] returns is the row the table has at that moment; hits,
    misses, database errors and cache errors included. *)
Theorem service_reads_current lossy {S C} (p : TxProvider S) (abs : S → Abs Shop) (c : Cache C Product) cd inv
    contents ctx os w :
  TxLaws lossy p abs shop_exec → QueryLaws p abs shop_query → CacheLaws c cd inv contents →
  (∀ pr dest b, storable_product pr → Marshal cd pr = inl b → Unmarshal cd b dest = (pr, None)) →
  gate_ok p ctx → TxFromContext ctx = None → settled abs cd inv contents w →
  reads_current p abs c lossy ctx os w.
Proof. intros TL QL CL H. by apply (reads_current_settled p abs c cd inv contents). Qed.

Lemma service_reads_current_witness :
  reads_current sample_db sdb sample_cache false Background
    [S_GetProduct 1; S_CreateOrder 1 3; S_GetProduct 1; S_CreateProduct "gadget" 5 2; S_GetOrder 1;
     S_GetProduct 2]
    (shop_world one_widget []).
Proof.
  apply (service_reads_current false sample_db sdb sample_cache sample_codec (λ c, codec c = None) data).
  - apply shop_db_laws.
  - apply shop_db_query_laws.
  - apply (memory_cache_laws sample_codec None).
  - apply product_codec_roundtrip.
  - exact I.
  - reflexivity.
  - apply shop_world_settled, one_widget_storable.
Defined.


(** Eight units at 2^62 cents each are ordered for nothing. *)
Definition gold : Product := mkProduct 0 "gold" 1 (2 ^ 62) 10.


(** An order whose commit is reported lost although it took effect: the stock is
    taken, and a cached copy of the product is out of date. *)
Example lost_commit_leaves_stale_cache :
  let db := shop_db true (Some (Some 0%Z)) in
  let w1 := (GetProduct db sample_cache Background 1 (shop_world one_widget
              [None; None; None; None; None; Some (ErrorString "connection reset")])).2 in
  let '(r2, w2) := CreateOrder db sample_cache Background 1 3 w1 in
  let '(r3, w3) := GetProduct db sample_cache Background 1 w2 in
  r2 = Ret (zeroOrder, Some (commit_failed (ErrorString "connection reset"))) ∧
  Stock <$> products (base (sdb (sv_db (heap w2)))) !! 1%Z = Some 7%Z ∧ r3 = Ret (widget, None).
Proof. vm_compute. auto. Qed.

(** ** An interleaving of a read and an order *)

(** [GetProduct] on a miss, with a whole [CreateOrder] of another goroutine
    between its read of the row and its filling of the cache; then a read. *)
Definition race {S C} (p : TxProvider S) (c : Cache C Product) (ctx : Context) (id q : Z) :
    M (Svc S C) ((Order * option error) * (Product * option error)) :=
  (_ <- on_cache (Cache_Get c ctx (productCacheKey id) zeroProduct) ;;
   x <- on_db (product_GetByID p ctx id) ;;
   o <- CreateOrder p c ctx id q ;;
   _ <- on_cache (Cache_Set c ctx (productCacheKey id) x.1 productCacheTTL) ;;
   y <- GetProduct p c ctx id ;;
   ret (o, y))%go.

(** Reads that overlap an order can stay stale. When an order commits and
    invalidates between the read of the row by [GetProduct] and its filling of the
    cache, nothing fails, no invalidation is missed, and yet later reads return
    the stock from before the order. *)
Theorem stale_read_after_race :
  ∃ o pr w', race sample_db sample_cache Background 1 3 (shop_world one_widget []) = (Ret ((o, None), (pr, None)), w') ∧
    failed_invalidation ∉ sv_log (heap w') ∧
    Stock pr = 10%Z ∧ Stock <$> products (base (sdb (sv_db (heap w')))) !! 1%Z = Some 7%Z.
Proof. eexists _, _, _. split; [vm_compute; reflexivity|]. split; [by apply not_elem_of_nil|done]. Qed.

(** ** The logged miss *)

(** Every ordinary miss is logged as an error. When the cache reports a miss
    the way [RedisCache] and [MemoryCache] do, [GetProduct] warns of a cache error
    or malformed entry before it reads the database: the two texts it compares
    with are never the text of that error. *)
Theorem miss_is_logged_as_error {S C} (p : TxProvider S) (c : Cache C Product) ctx id w v w1 :
  Cache_Get c ctx (productCacheKey id) zeroProduct (mkWorld (clock w) (coins w) (sv_cache (heap w)))
    = (Ret (v, Some (miss_error (productCacheKey id))), w1) →
  GetProduct p c ctx id w =
    (_ <- warn "cache error or malformed entry" ;; GetProduct_load p c ctx id)%go
      (mkWorld (clock w1) (coins w1) (mkSvc (sv_db (heap w)) (heap w1) (sv_log (heap w)))).
Proof. intros H. unfold GetProduct. by run (on_cache_Ret _ _ _ _ H). Qed.

Lemma miss_is_logged_as_error_witness :
  GetProduct sample_db sample_cache Background 1 (shop_world one_widget []) =
  (_ <- warn "cache error or malformed entry" ;; GetProduct_load sample_db sample_cache Background 1)%go
    (shop_world one_widget []).
Proof.
  apply (miss_is_logged_as_error sample_db sample_cache Background 1 (shop_world one_widget []) zeroProduct
    (mkWorld 0 [] (New []))).
  reflexivity.
Defined.
