(* ===== verification/Handlers.v ===== *)
(** * examples/orders/handler.go: the HTTP handlers

    The handlers over the service of Orders: from the bytes of a request body or the
    path parameter to the response, with the decoding of requests and the encoding
    of responses. *)

From stdpp Require Import base list strings pretty gmap.
From Stdlib Require Import ZArith Lia Ascii.
From S2P Require Import Prelude Strconv Utf8 Json Rfc3339 JsonStruct Errors Runtime TxManager Cache Health Server Orders.

(** ** Handlers *)

(** [pathID], given the URL parameter. *)
Definition pathID (param : string) : option Z :=
  match ParseInt param with
  | Some id => if (id <=? 0)%Z then None else Some id
  | None => None
  end.

Record createProductRequest : Type := mkCPR { cp_Name : string; cp_PriceCents : Z; cp_Stock : Z }.
Record createOrderRequest : Type := mkCOR { co_ProductID : Z; co_Quantity : Z }.

#[global] Instance createProductRequest_from_json : FromJson createProductRequest := store_struct
  [string_field "name" (λ n r, mkCPR n (cp_PriceCents r) (cp_Stock r));
   int64_field "price_cents" (λ c r, mkCPR (cp_Name r) c (cp_Stock r));
   int64_field "stock" (λ st r, mkCPR (cp_Name r) (cp_PriceCents r) st)].

#[global] Instance createOrderRequest_from_json : FromJson createOrderRequest := store_struct
  [int64_field "product_id" (λ p r, mkCOR p (co_Quantity r));
   int64_field "quantity" (λ q r, mkCOR (co_ProductID r) q)].

Record errorBody : Type := mkErrorBody { Code : string; Message : string }.
Record errorEnvelope : Type := mkErrorEnvelope { env_Error : errorBody }.

#[global] Instance errorEnvelope_to_json : ToJson errorEnvelope := λ e,
  inl (JObject [("error", JObject [("code", jstring (Code (env_Error e)));
                                   ("message", jstring (Message (env_Error e)))])]).

Section Handlers.
Context {S C : Type} (p : TxProvider S) (c : Cache C Product).
(** The local time zone and the texts of encoding/json's errors. *)
Context (zone : Z → Z) (json_text : string → json_error → string).

Definition decodeJSON {R} `{!FromJson R} (b : Body) (dst : R) : R * option error :=
  Decoder_Decode json_text true b dst.

(** The encoder writes nothing if it fails, else ends its output with a newline. *)
Definition writeJSON {V} (enc : ToJson V) (st : Z) (payload : V) : M (Svc S C) Response :=
  match json_Marshal payload with
  | inl b => ret (mkResponse st "application/json" (b +:+ newline))
  | inr _ => (_ <- log_error "failed to encode response" ;; ret (mkResponse st "application/json" ""))%go
  end.

Definition writeError (st : Z) (code message : string) : M (Svc S C) Response :=
  writeJSON errorEnvelope_to_json st (mkErrorEnvelope (mkErrorBody code message)).

Definition renderServiceError (e : error) : M (Svc S C) Response :=
  if errors_Is e ErrNotFound then writeError 404 "not_found" "resource not found"
  else if errors_Is e ErrInsufficientStock then writeError 409 "insufficient_stock" (Error e)
  else (_ <- log_error "unhandled service error" ;;
        writeError 500 "internal_error" "an unexpected error occurred")%go.

Definition createProduct (ctx : Context) (b : Body) : M (Svc S C) Response :=
  match decodeJSON b (mkCPR "" 0 0) with
  | (_, Some e) => writeError 400 "invalid_request" (Error e)
  | (r, None) =>
      if String.eqb (cp_Name r) "" then writeError 400 "invalid_request" "name is required"
      else if (cp_PriceCents r <? 0)%Z then
        writeError 400 "invalid_request" "price_cents must not be negative"
      else if (cp_Stock r <? 0)%Z then
        writeError 400 "invalid_request" "stock must not be negative"
      else
        (x <- CreateProduct p ctx (cp_Name r) (cp_PriceCents r) (cp_Stock r) ;;
         match x.2 with
         | Some e => renderServiceError e
         | None => writeJSON (product_to_json zone) 201 x.1
         end)%go
  end.

Definition getProduct (ctx : Context) (param : string) : M (Svc S C) Response :=
  match pathID param with
  | None => writeError 400 "invalid_request" "id must be a positive integer"
  | Some id =>
      (x <- GetProduct p c ctx id ;;
       match x.2 with
       | Some e => renderServiceError e
       | None => writeJSON (product_to_json zone) 200 x.1
       end)%go
  end.

Definition createOrder (ctx : Context) (b : Body) : M (Svc S C) Response :=
  match decodeJSON b (mkCOR 0 0) with
  | (_, Some e) => writeError 400 "invalid_request" (Error e)
  | (r, None) =>
      if (co_ProductID r <=? 0)%Z then writeError 400 "invalid_request" "product_id is required"
      else if (co_Quantity r <=? 0)%Z then
        writeError 400 "invalid_request" "quantity must be greater than zero"
      else
        (x <- CreateOrder p c ctx (co_ProductID r) (co_Quantity r) ;;
         match x.2 with
         | Some e => renderServiceError e
         | None => writeJSON (order_to_json zone) 201 x.1
         end)%go
  end.

Definition getOrder (ctx : Context) (param : string) : M (Svc S C) Response :=
  match pathID param with
  | None => writeError 400 "invalid_request" "id must be a positive integer"
  | Some id =>
      (x <- GetOrder p ctx id ;;
       match x.2 with
       | Some e => renderServiceError e
       | None => writeJSON (order_to_json zone) 200 x.1
       end)%go
  end.
End Handlers.

(** ** Lemmas and theorems *)

(** The {id} of a path is read back: for the decimal text of an int64, [pathID]
    gives the number if it is positive and refuses it otherwise, and whatever it
    accepts is positive and in range. *)
Theorem pathID_roundtrip z param :
  (in_int64 z → pathID (sprint_d z) = if (0 <? z)%Z then Some z else None) ∧
  (pathID param = Some z → (0 < z)%Z ∧ in_int64 z).
Proof.
  unfold pathID. split.
  - intros Hz. rewrite (ParseInt_sprint z Hz). rewrite Z.leb_antisym. by destruct (0 <? z)%Z.
  - destruct (ParseInt param) as [i|] eqn:Hp; [|done]. destruct (Z.leb_spec i 0); [done|].
    intros [= <-]. split; [done|]. by eapply ParseInt_range.
Qed.

(** The checks of the order handler. *)
Definition valid_order (r : createOrderRequest) : bool :=
  (0 <? co_ProductID r)%Z && (0 <? co_Quantity r)%Z.

Section HandlerLemmas.
Context {S C : Type}.
Implicit Types w : World (Svc S C).

(** Error responses have the body of serverkit's, and a newline; nothing fails. *)
Lemma writeError_spec st code message w :
  writeError st code message w = (Ret (mkResponse st "application/json" (error_body code message +:+ newline)), w).
Proof. reflexivity. Qed.

(** The status of a service error; only the unexpected ones are logged. *)
Lemma renderServiceError_spec e w :
  ∃ resp w', renderServiceError e w = (Ret resp, w') ∧
    status resp = (if errors_Is e ErrNotFound then 404
                   else if errors_Is e ErrInsufficientStock then 409 else 500)%Z ∧
    sv_db (heap w') = sv_db (heap w) ∧ sv_cache (heap w') = sv_cache (heap w) ∧
    sv_log (heap w') = sv_log (heap w) ++ (if (status resp =? 500)%Z then ["unhandled service error"] else []).
Proof.
  unfold renderServiceError.
  destruct (errors_Is e ErrNotFound); [|destruct (errors_Is e ErrInsufficientStock)];
    eexists _, _; (split; [reflexivity|]); simpl; by rewrite ?app_nil_r.
Qed.

(** A value that can be marshalled is the body, and is read back from it. *)
Lemma writeJSON_spec {V} (enc : ToJson V) `{dec : !FromJson V} (good : V → Prop) `{JL : !JsonLaws V good}
    (json_text : string → json_error → string) st v w :
  ∃ resp w', writeJSON enc st v w = (Ret resp, w') ∧ status resp = st ∧
    sv_db (heap w') = sv_db (heap w) ∧ sv_cache (heap w') = sv_cache (heap w) ∧
    (∀ b, json_Marshal v = inl b →
       w' = w ∧ body resp = b +:+ newline ∧
       (good v → ∀ dest, json_Unmarshal json_text (body resp) dest = (v, None))).
Proof.
  unfold writeJSON. destruct (json_Marshal v) as [b|e] eqn:Hm; eexists _, _; (split; [reflexivity|]); simpl;
    (split_and!; [done..|]); [|done].
  intros b' [= <-]. split_and!; [done..|]. intros Hg dest.
  apply (Unmarshal_Marshal good); [done|done| |done]. by apply delimited_byte.
Qed.
End HandlerLemmas.

(** C37. What the order endpoint answers. Over providers and caches that keep their
    promises, and a readiness gate that does not wait forever, [createOrder] always
    answers, for every body: 400 and no effect at all for one that does not decode,
    or with a product id or a quantity that is not positive; else 201 only when the
    order has been placed, with a body from which a client reads the order back if
    its time can be written; else 404, 409 or 500, with the cache as before, only the
    unexpected error logged, and the database as before, except where failures of the
    provider are lossy: then the order may have been placed entirely, or, inside
    another transaction, have left changes in it. *)
Theorem createOrder_answers lossy {S C} (p : TxProvider S) (abs : S → Abs Shop) (c : Cache C Product) cd inv
    contents zone json_text ctx b w :
  TxLaws lossy p abs shop_exec → QueryLaws p abs shop_query → CacheLaws c cd inv contents →
  gate_ok p ctx → ctx_target ctx = top (abs (sv_db (heap w))) → inv (sv_cache (heap w)) →
  ∃ resp w', createOrder p c zone json_text ctx b w = (Ret resp, w') ∧
    match decodeJSON json_text b (mkCOR 0 0) with
    | (_, Some _) => status resp = 400%Z ∧ w' = w
    | (r, None) =>
        if valid_order r then
          (status resp = 201%Z ∧ ∃ o d',
             abs (sv_db (heap w')) = set_cur d' (abs (sv_db (heap w))) ∧
             order_placed (co_ProductID r) (co_Quantity r) (cur (abs (sv_db (heap w)))) o d' ∧
             ∀ t dest, MarshalTime zone (o_CreatedAt o) = inl t → json_Unmarshal json_text (body resp) dest = (o, None)) ∨
          (status resp ∈ [404; 409; 500]%Z ∧
             (abs (sv_db (heap w')) = abs (sv_db (heap w)) ∨
              (lossy = true ∧ ∃ d', abs (sv_db (heap w')) = set_cur d' (abs (sv_db (heap w))) ∧
                 (placed_by (co_ProductID r) (co_Quantity r) (cur (abs (sv_db (heap w)))) d' ∨ in_tx ctx = true))) ∧
             sv_cache (heap w') = sv_cache (heap w) ∧
             sv_log (heap w') = sv_log (heap w) ++ (if (status resp =? 500)%Z then ["unhandled service error"] else []))
        else status resp = 400%Z ∧ w' = w
    end.
Proof.
  intros TL QL CL Hg Ht Hi. unfold createOrder.
  destruct (decodeJSON json_text b (mkCOR 0 0)) as [r [e|]]; [by eexists _, w|].
  unfold valid_order. rewrite !Z.leb_antisym.
  destruct (0 <? co_ProductID r)%Z; [simpl|by eexists _, w].
  destruct (0 <? co_Quantity r)%Z; [simpl|by eexists _, w].
  destruct (CreateOrder_spec p abs c cd inv contents ctx (co_ProductID r) (co_Quantity r) w Hg Ht Hi)
    as (o & e & w1 & Hr & _ & He).
  run Hr. destruct e as [e|]; simpl.
  - destruct (renderServiceError_spec e w1) as (resp & w2 & Hresp & Hst & Hdb & Hca & Hlog).
    exists resp, w2. split; [done|]. right. destruct He as (_ & Hc & Hl & d' & Ha & Hf). rewrite Hdb, Hca, Hlog, Hl, Hc.
    split_and!; [rewrite Hst; repeat case_match; set_solver| |done..].
    destruct Hf as [->|[(Hlo & _ & Hp)|(Hlo & Hin & _)]]; [left; by rewrite Ha, set_cur_cur|right..]; eauto.
  - destruct (writeJSON_spec (order_to_json zone) storable_order (JL := order_json_laws zone) json_text 201 o w1)
      as (resp & w2 & Hresp & Hst & Hdb & _ & Hbody).
    exists resp, w2. split; [done|]. left. split; [done|]. destruct He as (d' & Ha & Ho & _). exists o, d'.
    rewrite Hdb. split; [done|]. split; [done|]. intros t dest Htime.
    destruct Ho as (pr & Ho). assert (storable_order o) as Hs by tauto.
    eapply Hbody; [|done]. unfold json_Marshal, to_json, order_to_json. by rewrite Htime.
Qed.

Definition order_body : Body :=
  mkBody ("{" +:+ literal "product_id" (": 1, " +:+ literal "Quantity" ":3} trailing")) None.

Lemma createOrder_answers_witness :
  ∃ resp w', createOrder sample_db sample_cache (λ _, 0%Z) sample_text Background order_body
               (shop_world one_widget []) = (Ret resp, w') ∧ status resp = 201%Z.
Proof.
  destruct (createOrder_answers false sample_db sdb sample_cache sample_codec (λ c, codec c = None) data
    (λ _, 0%Z) sample_text Background order_body (shop_world one_widget [])
    (shop_db_laws _ _) (shop_db_query_laws _ _) (memory_cache_laws sample_codec None) I eq_refl eq_refl)
    as (resp & w' & Hr & _).
  exists resp, w'. split; [exact Hr|]. vm_compute in Hr. by injection Hr as <- _.
Defined.

Lemma pathID_roundtrip_witness :
  pathID "42" = Some 42%Z ∧ (0 < 42)%Z ∧ in_int64 42.
Proof.
  assert (in_int64 42) as H by by split.
  split; [exact (proj1 (pathID_roundtrip 42 "42") H)|]. exact (proj2 (pathID_roundtrip 42 "42") eq_refl).
Defined.


(** ** Request bodies *)

Definition typed_product_request (r : createProductRequest) : Prop :=
  valid_utf8 (cp_Name r) = true ∧ in_int64 (cp_PriceCents r) ∧ in_int64 (cp_Stock r).

Definition typed_order_request (r : createOrderRequest) : Prop :=
  in_int64 (co_ProductID r) ∧ in_int64 (co_Quantity r).

Lemma product_request_typed b v r : typed_product_request r → typed_product_request (from_json b v r).1.
Proof.
  apply store_struct_inv. repeat constructor;
    [apply string_field_keeps|apply int64_field_keeps..]; intros x t Hx (? & ? & ?); by split_and!.
Qed.

Lemma order_request_typed b v r : typed_order_request r → typed_order_request (from_json b v r).1.
Proof.
  apply store_struct_inv. repeat constructor; apply int64_field_keeps; intros x t Hx (? & ?); by split_and!.
Qed.

(** Whatever the bytes of a request body, and also when decoding reports an error
    part of the way, the name that [decodeJSON] leaves in a product request is UTF-8
    and every number in a request is an int64. *)
Lemma decodeJSON_typed json_text b :
  typed_product_request (decodeJSON json_text b (mkCPR "" 0 0)).1 ∧
  typed_order_request (decodeJSON json_text b (mkCOR 0 0)).1.
Proof.
  unfold decodeJSON. split; [apply (Decoder_Decode_inv json_text typed_product_request)
    |apply (Decoder_Decode_inv json_text typed_order_request)];
    [intros ? ?; apply product_request_typed|done|intros ? ?; apply order_request_typed|done].
Qed.

(** The bodies that a client sends. *)
Definition product_request (r : createProductRequest) : json :=
  JObject [("name", jstring (cp_Name r)); ("price_cents", jint (cp_PriceCents r)); ("stock", jint (cp_Stock r))].

Definition order_request (r : createOrderRequest) : json :=
  JObject [("product_id", jint (co_ProductID r)); ("quantity", jint (co_Quantity r))].

Lemma product_request_read b r dst : typed_product_request r → from_json b (product_request r) dst = (r, None).
Proof.
  intros (Hn & Hp & Hs). unfold product_request, from_json, createProductRequest_from_json, store_struct.
  erewrite store_members_field;
    [|reflexivity|cbn [f_store string_field]; unfold jstring; rewrite unquote_escape; reflexivity].
  do 2 (erewrite store_members_field;
    [|reflexivity|cbn [f_store int64_field]; unfold jint; rewrite ParseInt_sprint by done; reflexivity]).
  destruct r as [n p st]. cbn -[sanitize]. unfold default, id. by rewrite (sanitize_valid n Hn).
Qed.

Lemma order_request_read b r dst : typed_order_request r → from_json b (order_request r) dst = (r, None).
Proof.
  intros (Hp & Hq). unfold order_request, from_json, createOrderRequest_from_json, store_struct.
  do 2 (erewrite store_members_field;
    [|reflexivity|cbn [f_store int64_field]; unfold jint; rewrite ParseInt_sprint by done; reflexivity]).
  by destruct r.
Qed.

(** Reading an object: a member whose name, without regard to case, is none of the
    fields' is an error. *)
Lemma decodeJSON_unknown {T} (fs : list (field T)) json_text m k e dst :
  wf_json (JObject m) = true → (nesting (JObject m) ≤ maxNestingDepth)%Z →
  (decodeJSON (FromJson0 := store_struct fs) json_text (mkBody (print (JObject m) k) e) dst).2 = None →
  Forall (λ x, ∃ name f, unquote x.1 = Some name ∧ f ∈ fs ∧ foldName (f_name f) = foldName name) m.
Proof.
  intros Hwf Hn. unfold decodeJSON. rewrite (Decoder_Decode_object (FromJson0 := store_struct fs)) by done. cbn [snd].
  intros Hok. assert ((store_struct fs true (JObject m) dst).2 = None) as Hnone
    by (unfold from_json in Hok; by destruct (store_struct fs true (JObject m) dst).2).
  apply store_members_strict in Hnone. apply Forall_forall. intros x Hx.
  rewrite Forall_forall in Hnone. destruct (Hnone x Hx) as [f [Hf Hfold]%find_field_fold].
  assert (wf_raw x.1 = true) as Hraw.
  { simpl in Hwf. rewrite forallb_forall in Hwf. apply list_elem_of_In in Hx.
    by apply Hwf, andb_true_iff in Hx as [? _]. }
  destruct (wf_raw_unquote _ Hraw) as [name Hname]. rewrite Hname in Hfold. eauto.
Qed.

(** C38. Requests are read as they were sent, and strictly. The name, price and stock
    of a product request and the product and quantity of an order request, a name in
    UTF-8 and numbers in int64, are decoded as they were from the object a client
    sends, without error and whatever follows the object in the body, more text or an
    error of the connection; and a well-formed object with a member that, up to case,
    is not a field of the request is never accepted. *)
Theorem decodeJSON_strict json_text k e :
  let sent j := mkBody (print j k) e in
  (∀ r, typed_product_request r → decodeJSON json_text (sent (product_request r)) (mkCPR "" 0 0) = (r, None)) ∧
  (∀ r, typed_order_request r → decodeJSON json_text (sent (order_request r)) (mkCOR 0 0) = (r, None)) ∧
  (∀ m x, wf_json (JObject m) = true → (nesting (JObject m) ≤ maxNestingDepth)%Z → x ∈ m →
     let name := foldName (default "" (unquote x.1)) in
     (name ∉ ["NAME"; "PRICE_CENTS"; "STOCK"] → (decodeJSON json_text (sent (JObject m)) (mkCPR "" 0 0)).2 ≠ None) ∧
     (name ∉ ["PRODUCT_ID"; "QUANTITY"] → (decodeJSON json_text (sent (JObject m)) (mkCOR 0 0)).2 ≠ None)).
Proof.
  intros sent. split_and!.
  - intros r Hr. unfold decodeJSON, sent. rewrite Decoder_Decode_object, product_request_read; [done|done| |done|done].
    unfold product_request, jstring, jint. cbn [wf_json forallb fst snd]. by rewrite wf_escape, !wf_sprint_d.
  - intros r Hr. unfold decodeJSON, sent. rewrite Decoder_Decode_object, order_request_read; [done|done| |done|done].
    unfold order_request, jint. cbn [wf_json forallb fst snd]. by rewrite !wf_sprint_d.
  - intros m x Hwf Hn Hx name. split; intros Hname Hok; apply Hname;
      (apply decodeJSON_unknown in Hok; [|done..]); rewrite Forall_forall in Hok;
      destruct (Hok x Hx) as (s & f & Hs & Hf & Hfold); unfold name; rewrite Hs; unfold default, id; rewrite <-Hfold;
      clear - Hf; rewrite !elem_of_cons, elem_of_nil in Hf; repeat destruct Hf as [->|Hf]; try done;
      vm_compute; set_solver.
Qed.

Lemma decodeJSON_strict_witness :
  decodeJSON sample_text (mkBody (print (product_request (mkCPR "gadget" 5 2)) " {") None) (mkCPR "" 0 0) =
    (mkCPR "gadget" 5 2, None) ∧
  (decodeJSON sample_text (mkBody (print (JObject [("price", jint 5)]) " {") None) (mkCPR "" 0 0)).2 ≠ None.
Proof.
  destruct (decodeJSON_strict sample_text " {" None) as (H1 & _ & H2). split.
  - apply H1. by vm_compute.
  - apply (H2 [("price", jint 5)] ("price", jint 5)); [reflexivity|discriminate|by left|].
    vm_compute. set_solver.
Defined.

(** The checks of the product handler. *)
Definition valid_product (r : createProductRequest) : bool :=
  negb (String.eqb (cp_Name r) "") && (0 <=? cp_PriceCents r)%Z && (0 <=? cp_Stock r)%Z.


Definition product_body : Body :=
  mkBody (print (JObject [("name", jstring "gadget"); ("price_cents", jint 5); ("stock", jint 2)]) "") None.

