(* ===== verification/Trace.v ===== *)
(** * core/trace_handler.go: trace identifiers on log records

    [TraceHandler] is an slog.Handler around another one. What it is around is any
    type with the four methods of slog.Handler, the class [SlogHandler]; the span
    of a context is a parameter of the functions that look at it. *)

From stdpp Require Import base list strings.
From Stdlib Require Import ZArith Lia.
From S2P Require Import Prelude Errors.

Definition Attr : Type := (string * string)%type.

(** slog.Handler; [Handle] gives what the handler does with the record and its
    error, as an outcome of type [O]. *)
Class SlogHandler (H Ctx Rec O : Type) : Type := {
  slog_Enabled : H → Ctx → Z → bool;
  slog_Handle : H → Ctx → Rec → O;
  slog_WithAttrs : H → list Attr → H;
  slog_WithGroup : H → string → H
}.

Record handlerOp : Type := mkHandlerOp { isGroup : bool; op_name : string; op_attrs : list Attr }.

Record TraceHandler (H : Type) : Type := mkTraceHandler { t_base : H; ops : list handlerOp }.
Arguments mkTraceHandler {H}.
Arguments t_base {H}.
Arguments ops {H}.

(** A span context: its identifiers, as the hexadecimal texts. *)
Record SpanContext : Type := mkSpan { TraceID : string; SpanID : string; IsValid : bool }.

Section TraceHandler.
Context {H Ctx Rec O : Type} `{SH : !SlogHandler H Ctx Rec O} (SpanContextFromContext : Ctx → SpanContext).

Definition NewTraceHandler (base : H) : TraceHandler H := mkTraceHandler base [].

Definition Trace_Enabled (h : TraceHandler H) (ctx : Ctx) (level : Z) : bool :=
  slog_Enabled (t_base h) ctx level.

(** The attributes added at the root. *)
Definition trace_attrs (ctx : Ctx) (handler : H) : H :=
  let spanCtx := SpanContextFromContext ctx in
  if IsValid spanCtx then
    slog_WithAttrs handler [("trace_id", TraceID spanCtx); ("span_id", SpanID spanCtx)]
  else handler.

(** One turn of the loop over the operations. *)
Definition replay (handler : H) (op : handlerOp) : H :=
  if isGroup op then slog_WithGroup handler (op_name op) else slog_WithAttrs handler (op_attrs op).

Definition Trace_Handle (h : TraceHandler H) (ctx : Ctx) (r : Rec) : O :=
  slog_Handle (foldl replay (trace_attrs ctx (t_base h)) (ops h)) ctx r.

(** Both copy the operations before they append. *)
Definition Trace_WithAttrs (h : TraceHandler H) (attrs : list Attr) : TraceHandler H :=
  mkTraceHandler (t_base h) (ops h ++ [mkHandlerOp false "" attrs]).

Definition Trace_WithGroup (h : TraceHandler H) (name : string) : TraceHandler H :=
  mkTraceHandler (t_base h) (ops h ++ [mkHandlerOp true name []]).

(** A [TraceHandler] is an slog.Handler. *)
Definition TraceHandler_SlogHandler : SlogHandler (TraceHandler H) Ctx Rec O := {|
  slog_Enabled := Trace_Enabled;
  slog_Handle := Trace_Handle;
  slog_WithAttrs := Trace_WithAttrs;
  slog_WithGroup := Trace_WithGroup |}.
End TraceHandler.

(** ** Deriving handlers *)

(** What client code does with a handler: [slog.Logger.With] and [WithGroup]. *)
Inductive derivation : Type := D_Attrs (attrs : list Attr) | D_Group (name : string).

Definition derive1 {H Ctx Rec O} {SH : SlogHandler H Ctx Rec O} (h : H) (d : derivation) : H :=
  match d with
  | D_Attrs a => slog_WithAttrs h a
  | D_Group n => slog_WithGroup h n
  end.

Definition derive {H Ctx Rec O} {SH : SlogHandler H Ctx Rec O} (h : H) (ds : list derivation) : H :=
  foldl derive1 h ds.

(** ** A handler that prints

    The built-in handlers: an attribute is printed under the groups open when it
    was added, the attributes of the record under all of them; a group without a
    name is ignored. A line is the list of attributes with their groups. *)
Record Printer : Type := mkPrinter { open_groups : list string; printed : list (list string * Attr) }.

#[global] Instance Printer_SlogHandler {Ctx} : SlogHandler Printer Ctx (list Attr) (list (list string * Attr)) := {|
  slog_Enabled _ _ _ := true;
  slog_Handle p _ r := printed p ++ map (pair (open_groups p)) r;
  slog_WithAttrs p a := mkPrinter (open_groups p) (printed p ++ map (pair (open_groups p)) a);
  slog_WithGroup p n := if String.eqb n "" then p else mkPrinter (open_groups p ++ [n]) (printed p) |}.

(** ** Lemmas *)

Section TraceLemmas.
Context {H Ctx Rec O : Type} `{SH : !SlogHandler H Ctx Rec O} (span : Ctx → SpanContext).

Definition op_of (d : derivation) : handlerOp :=
  match d with
  | D_Attrs a => mkHandlerOp false "" a
  | D_Group n => mkHandlerOp true n []
  end.

Lemma derive_trace (h : TraceHandler H) ds :
  foldl (derive1 (SH := TraceHandler_SlogHandler span)) h ds =
  mkTraceHandler (t_base h) (ops h ++ map op_of ds).
Proof.
  revert h. induction ds as [|d ds IH]; intros h; simpl; [by destruct h; rewrite app_nil_r|].
  rewrite IH. by destruct d; simpl; rewrite <-app_assoc.
Qed.

Lemma replay_derive (h : H) ds : foldl replay h (map op_of ds) = derive h ds.
Proof. revert h. induction ds as [|d ds IH]; intros h; [done|]. simpl. rewrite IH. by destruct d. Qed.
End TraceLemmas.

(** Under the printer, deriving only adds at the end. *)
Lemma derive_prefix {Ctx} (gs : list string) post ds :
  ∃ gs' out, ∀ pre, derive (SH := Printer_SlogHandler (Ctx := Ctx)) (mkPrinter gs (pre ++ post)) ds =
    mkPrinter gs' (pre ++ out).
Proof.
  revert gs post. induction ds as [|d ds IH]; intros gs post; [by eexists _, _|].
  destruct d as [a|n]; unfold derive in *; simpl.
  - destruct (IH gs (post ++ map (pair gs) a)) as (gs' & out & Ho). exists gs', out. intros pre.
    rewrite <-!app_assoc. apply Ho.
  - destruct (String.eqb n ""); [apply IH|apply (IH (gs ++ [n]) post)].
Qed.

(** ** Theorems *)

(** A derived [TraceHandler] is the base handler derived the same way, with the
    trace identifiers added first. For every base handler, every sequence of
    [WithAttrs] and [WithGroup] on the [TraceHandler], every context and record:
    [Handle] does what the base handler does after adding trace_id and span_id, if
    the span is valid, and then the same sequence; and [Enabled] is that of the
    base. *)
Theorem TraceHandler_is_base {H Ctx Rec O} {SH : SlogHandler H Ctx Rec O} (span : Ctx → SpanContext)
    (base : H) ds ctx r level :
  let h := derive (SH := TraceHandler_SlogHandler span) (NewTraceHandler base) ds in
  Trace_Handle span h ctx r = slog_Handle (derive (trace_attrs span ctx base) ds) ctx r ∧
  Trace_Enabled h ctx level = slog_Enabled base ctx level.
Proof. unfold derive at 1, Trace_Handle. rewrite derive_trace. simpl. by rewrite replay_derive. Qed.

(** The identifiers are at the root of the line. Around a handler that prints
    attributes under their groups, whatever attributes and groups were added to
    the [TraceHandler], a record in a valid span is printed with trace_id and
    span_id first, outside of every group, and then exactly as the base prints it
    alone; without a valid span, only the latter. *)
Theorem TraceHandler_root_ids {Ctx} (span : Ctx → SpanContext) ds ctx r :
  let P := Printer_SlogHandler (Ctx := Ctx) in
  Trace_Handle (SH := P) span
    (derive (SH := TraceHandler_SlogHandler (SH := P) span) (NewTraceHandler (mkPrinter [] [])) ds) ctx r =
  (if IsValid (span ctx) then [([], ("trace_id", TraceID (span ctx))); ([], ("span_id", SpanID (span ctx)))]
   else []) ++ slog_Handle (SlogHandler := P) (derive (SH := P) (mkPrinter [] []) ds) ctx r.
Proof.
  intros P. unfold derive at 1, Trace_Handle. rewrite derive_trace. simpl t_base. simpl ops.
  rewrite replay_derive. unfold trace_attrs, P.
  destruct (derive_prefix (Ctx := Ctx) [] [] ds) as (gs & out & Ho).
  pose proof (Ho []) as Hnil. simpl in Hnil. rewrite Hnil.
  destruct (IsValid (span ctx)); [|by rewrite Hnil].
  exact (f_equal (λ h, slog_Handle (SlogHandler := P) h ctx r)
    (Ho [([], ("trace_id", TraceID (span ctx))); ([], ("span_id", SpanID (span ctx)))])).
Qed.

Example trace_line :
  let P := Printer_SlogHandler (Ctx := unit) in
  let span := λ _ : unit, mkSpan "t1" "s1" true in
  Trace_Handle (SH := P) span
    (derive (SH := TraceHandler_SlogHandler (SH := P) span) (NewTraceHandler (mkPrinter [] []))
       [D_Attrs [("svc", "api")]; D_Group "http"; D_Attrs [("path", "/")]]) tt [("status", "200")] =
  [([], ("trace_id", "t1")); ([], ("span_id", "s1")); ([], ("svc", "api"));
   (["http"], ("path", "/")); (["http"], ("status", "200"))].
Proof. reflexivity. Qed.
