(* ===== verification/Flight.v ===== *)
(** * core/healthkit/health.go: concurrent evaluations

    [Health] runs evaluations one after the other. Here any number of goroutines
    call [evaluate] at the same time, for any of the kinds, while others register
    checks and set the hook: a labelled transition system over the aggregator, the
    singleflight group and one program counter per goroutine. The group is a
    parameter, the class [Singleflight], with the documented behaviour of
    golang.org/x/sync/singleflight as the laws of [SingleflightLaws]. The results of
    calls are related to the labels of the run: which checks were registered when,
    what they answered and what the clock was. *)

From stdpp Require Import base list strings pretty gmap.
From Stdlib Require Import ZArith Lia.
From S2P Require Import Prelude Errors Runtime Hooks Health.

(** ** The group

    A call of [Do] is known by the goroutine that makes it. [sf_Do key i] is what
    happens when [i] enters [Do]: it gives the goroutine that runs the function,
    [i] itself or the one it waits for. [sf_return key i err] is what happens when
    the function run by [i] has returned; [sf_result l] is the result of the call
    run by [l], once there is one. *)
Class Singleflight (G : Type) : Type := {
  sf_Do : string → nat → G → nat * G;
  sf_return : string → nat → option error → G → G;
  sf_result : nat → G → option (option error)
}.

(** Only one function runs per key at a time; a duplicate caller waits for the
    one in flight and receives its result. *)
Class SingleflightLaws (G : Type) `{!Singleflight G} (inflight : G → gmap string nat) : Prop := {
  sf_idle key i g : inflight g !! key = None →
    (sf_Do key i g).1 = i ∧ inflight (sf_Do key i g).2 = <[key := i]> (inflight g) ∧
    ∀ j, sf_result j (sf_Do key i g).2 = sf_result j g;
  sf_busy key i l g : inflight g !! key = Some l →
    (sf_Do key i g).1 = l ∧ inflight (sf_Do key i g).2 = inflight g ∧
    ∀ j, sf_result j (sf_Do key i g).2 = sf_result j g;
  sf_done key i err g : inflight g !! key = Some i →
    inflight (sf_return key i err g) = delete key (inflight g) ∧
    ∀ j, sf_result j (sf_return key i err g) = if decide (j = i) then Some err else sf_result j g
}.

(** ** State *)

(** Where a call of [evaluate] is. [t0] is its [now]. *)
Inductive fpc : Type :=
| FNow                                                   (* about to read the clock *)
| FLoad (t0 : Z)                                         (* about to load the cached result *)
| FDo (t0 : Z)                                           (* about to call a.flight.Do *)
| FWait (t0 : Z) (l : nat)                               (* in Do, waiting for goroutine l *)
| FSnap (t0 : Z)                                         (* runs the function: about to copy the checks *)
| FRun (t0 : Z) (snap todo : list Check) (ran : list (Check * option error))
                                                         (* in wg.Wait *)
| FStamp (t0 : Z) (snap : list Check) (ran : list (Check * option error))
                                                         (* about to read the clock again *)
| FStore (t0 : Z) (snap : list Check) (ran : list (Check * option error)) (t1 : Z)
                                                         (* about to store the result *)
| FReturn (t0 : Z) (err : option error)                  (* about to return from the function *)
| FHook (t0 : Z) (err : option error)                    (* out of Do *)
| FDone (t0 : Z) (err : option error)                    (* returned *)
| FCrash.                                                (* panic *)

(** An evaluation that has stored its result. *)
Record Eval : Type := mkEval {
  ev_kind : Kind; ev_by : nat; ev_snap : list Check; ev_ran : list (Check * option error); ev_at : Z }.

(** What the goroutines sent on the channel, in the order of their arrival. *)
Definition ran_errors (ran : list (Check * option error)) : list error :=
  omap (λ x, Errorf_w (Name x.1 +:+ ": ") <$> x.2) ran.

Definition ev_err (ev : Eval) : option error := errors_Join (ran_errors (ev_ran ev)).

Record FState (G : Type) : Type := mkFState {
  f_clock : Z;
  f_agg : Aggregator;
  f_group : G;
  f_threads : list (Kind * fpc);
  f_events : list Event;          (* what the hook has emitted *)
  f_evals : list Eval;            (* the evaluations stored so far *)
  f_pub : gmap nat Z              (* when the function run by a goroutine returned *)
}.
Arguments mkFState {G}.
Arguments f_clock {G}.
Arguments f_agg {G}.
Arguments f_group {G}.
Arguments f_threads {G}.
Arguments f_events {G}.
Arguments f_evals {G}.
Arguments f_pub {G}.

(** Who moves: a goroutine, a check of an evaluation that returns, time, a
    registration, a change of the hook. *)
Inductive flabel : Type :=
| FGo (i : nat)
| FCheck (i j : nat) (e : option error)
| FTick (d : Z)
| FRegister (cs : list Check)
| FSetHook (h : option (Kind → Z → option error → list Event)).

Definition flight_key (k : Kind) : string := sprint_d k.

Section Flight.
Context {G : Type} `{!Singleflight G}.

Definition set_thread (i : nat) (k : Kind) (p : fpc) (s : FState G) : FState G :=
  mkFState (f_clock s) (f_agg s) (f_group s) (<[i := (k, p)]> (f_threads s)) (f_events s) (f_evals s) (f_pub s).

Definition set_fagg (a : Aggregator) (s : FState G) : FState G :=
  mkFState (f_clock s) a (f_group s) (f_threads s) (f_events s) (f_evals s) (f_pub s).

Definition set_group (g : G) (s : FState G) : FState G :=
  mkFState (f_clock s) (f_agg s) g (f_threads s) (f_events s) (f_evals s) (f_pub s).

Definition add_eval (ev : Eval) (s : FState G) : FState G :=
  mkFState (f_clock s) (f_agg s) (f_group s) (f_threads s) (f_events s) (ev :: f_evals s) (f_pub s).

Definition add_pub (i : nat) (s : FState G) : FState G :=
  mkFState (f_clock s) (f_agg s) (f_group s) (f_threads s) (f_events s) (f_evals s) (<[i := f_clock s]> (f_pub s)).

Definition add_events (es : list Event) (s : FState G) : FState G :=
  mkFState (f_clock s) (f_agg s) (f_group s) (f_threads s) (f_events s ++ es) (f_evals s) (f_pub s).

(** One step of goroutine [i], which evaluates [k]. *)
Definition fgo (i : nat) (k : Kind) (p : fpc) (s : FState G) : option (FState G) :=
  match p with
  | FNow => Some (set_thread i k (FLoad (f_clock s)) s)
  | FLoad t0 =>
      match cache_hit k t0 (f_agg s) with
      | Ret (Some res) => Some (set_thread i k (FDone t0 (cr_err res)) s)
      | Ret None => Some (set_thread i k (FDo t0) s)
      | _ => Some (set_thread i k FCrash s)
      end
  | FDo t0 =>
      let '(l, g) := sf_Do (flight_key k) i (f_group s) in
      Some (set_thread i k (if Nat.eqb l i then FSnap t0 else FWait t0 l) (set_group g s))
  | FWait t0 l =>
      match sf_result l (f_group s) with
      | Some err => Some (set_thread i k (FHook t0 err) s)
      | None => None
      end
  | FSnap t0 =>
      let cs := default [] (checks (f_agg s) !! k) in Some (set_thread i k (FRun t0 cs cs []) s)
  | FRun t0 snap [] ran => Some (set_thread i k (FStamp t0 snap ran) s)
  | FRun _ _ (_ :: _) _ => None
  | FStamp t0 snap ran => Some (set_thread i k (FStore t0 snap ran (f_clock s)) s)
  | FStore t0 snap ran t1 =>
      let finalErr := errors_Join (ran_errors ran) in
      match cache_index k with
      | None => Some (set_thread i k FCrash s)
      | Some idx =>
          Some (set_thread i k (FReturn t0 finalErr)
                 (add_eval (mkEval k i snap ran t1)
                   (set_fagg (cache_put idx (mkCached finalErr t1) (f_agg s)) s)))
      end
  | FReturn t0 err =>
      Some (set_thread i k (FHook t0 err)
             (add_pub i (set_group (sf_return (flight_key k) i err (f_group s)) s)))
  | FHook t0 err =>
      Some (set_thread i k (FDone t0 err)
             (add_events (match hook (f_agg s) with
                          | Some h => h k (sat64 (f_clock s - t0)) err
                          | None => []
                          end) s))
  | FDone _ _ | FCrash => None
  end.

(** Check [j] of those still running for goroutine [i] returns [e]. *)
Definition fcheck (i : nat) (k : Kind) (p : fpc) (j : nat) (e : option error) (s : FState G) :
    option (FState G) :=
  match p with
  | FRun t0 snap todo ran =>
      match todo !! j with
      | Some c => Some (set_thread i k (FRun t0 snap (delete j todo) (ran ++ [(c, e)])) s)
      | None => None
      end
  | _ => None
  end.

Definition fstep (l : flabel) (s : FState G) : option (FState G) :=
  if existsb (λ x, match x.2 with FCrash => true | _ => false end) (f_threads s) then None else
  match l with
  | FGo i =>
      match f_threads s !! i with Some (k, p) => fgo i k p s | None => None end
  | FCheck i j e =>
      match f_threads s !! i with Some (k, p) => fcheck i k p j e s | None => None end
  | FTick d =>
      if (0 <=? d)%Z then
        Some (mkFState (f_clock s + d) (f_agg s) (f_group s) (f_threads s) (f_events s) (f_evals s) (f_pub s))
      else None
  | FRegister cs => Some (set_fagg (Register cs (f_agg s)) s)
  | FSetHook h => Some (set_fagg (SetHook h (f_agg s)) s)
  end.

Definition finitial (ttl t : Z) (g : G) (ks : list Kind) : FState G :=
  mkFState t (NewAggregator ttl) g (map (λ k, (k, FNow)) ks) [] [] ∅.
End Flight.

(** ** What holds in every reachable state *)

(** Goroutines that run the function; goroutines that are out of [Do]. *)
Definition leading (p : fpc) : bool :=
  match p with FSnap _ | FRun _ _ _ _ | FStamp _ _ _ | FStore _ _ _ _ | FReturn _ _ => true | _ => false end.

Definition past (p : fpc) : bool :=
  match p with FHook _ _ | FDone _ _ => true | _ => false end.

(** Every check of the snapshot has run exactly once. *)
Definition ev_ok (ev : Eval) : Prop := map fst (ev_ran ev) ≡ₚ ev_snap ev.

Section FlightInvariant.
Context {G : Type} `{!Singleflight G} (inflight : G → gmap string nat) `{!SingleflightLaws G inflight}.

Definition logged (s : FState G) (l : nat) (k : Kind) (err : option error) : Prop :=
  ∃ ev, ev ∈ f_evals s ∧ ev_by ev = l ∧ ev_kind ev = k ∧ ev_err ev = err.

(** A result for a call of [evaluate] that began at [t0] comes from an evaluation
    that was still in flight at [t0] or later, or from a result that was younger
    than the TTL. *)
Definition justified (s : FState G) (k : Kind) (t0 : Z) (err : option error) : Prop :=
  ∃ ev, ev ∈ f_evals s ∧ ev_kind ev = k ∧ ev_err ev = err ∧
    ((∃ pub, f_pub s !! ev_by ev = Some pub ∧ (t0 ≤ pub)%Z) ∨
     (0 < cacheTTL (f_agg s) ∧ sat64 (t0 - ev_at ev) < cacheTTL (f_agg s))%Z).

Definition thread_ok (s : FState G) (i : nat) (k : Kind) (p : fpc) : Prop :=
  match p with
  | FNow => True
  | FLoad t0 | FDo t0 | FSnap t0 => (t0 ≤ f_clock s)%Z
  | FWait t0 l => (t0 ≤ f_clock s)%Z ∧
      (inflight (f_group s) !! flight_key k = Some l ∨
       ∃ err pub, sf_result l (f_group s) = Some err ∧ f_pub s !! l = Some pub ∧ (t0 ≤ pub)%Z ∧
         logged s l k err)
  | FRun t0 snap todo ran => (t0 ≤ f_clock s)%Z ∧ map fst ran ++ todo ≡ₚ snap
  | FStamp t0 snap ran | FStore t0 snap ran _ => (t0 ≤ f_clock s)%Z ∧ map fst ran ≡ₚ snap
  | FReturn t0 err => (t0 ≤ f_clock s)%Z ∧ logged s i k err
  | FHook t0 err | FDone t0 err => justified s k t0 err
  | FCrash => False
  end.

Record finv (s : FState G) : Prop := mkFinv {
  fi_lead k i : inflight (f_group s) !! flight_key k = Some i ↔
    ∃ p, f_threads s !! i = Some (k, p) ∧ leading p = true;
  fi_past l : is_Some (sf_result l (f_group s)) ∨ is_Some (f_pub s !! l) →
    ∃ k p, f_threads s !! l = Some (k, p) ∧ past p = true;
  fi_cache idx r : cache_get (f_agg s) idx = Some r →
    ∃ ev, ev ∈ f_evals s ∧ ev_kind ev = Z.of_nat idx ∧ ev_err ev = cr_err r ∧ ev_at ev = cr_at r;
  fi_evals : Forall ev_ok (f_evals s);
  fi_len : length (cache (f_agg s)) = 3;
  fi_threads i k p : f_threads s !! i = Some (k, p) → (0 ≤ k < 3)%Z ∧ thread_ok s i k p
}.

(** What later states keep of earlier ones. *)
Record fext (s s' : FState G) : Prop := mkFext {
  fe_clock : (f_clock s ≤ f_clock s')%Z;
  fe_evals ev : ev ∈ f_evals s → ev ∈ f_evals s';
  fe_pub l x : f_pub s !! l = Some x → f_pub s' !! l = Some x;
  fe_res l e : sf_result l (f_group s) = Some e → sf_result l (f_group s') = Some e;
  fe_ttl : cacheTTL (f_agg s') = cacheTTL (f_agg s);
  fe_flight k l : inflight (f_group s) !! flight_key k = Some l →
    inflight (f_group s') !! flight_key k = Some l ∨
    ∃ err, sf_result l (f_group s') = Some err ∧ f_pub s' !! l = Some (f_clock s) ∧ logged s' l k err
}.

#[global] Instance flight_key_inj : Inj (=) (=) flight_key.
Proof. intros x y H. by apply (inj (pretty (A := Z))) in H. Qed.

Lemma logged_ext s s' l k err : fext s s' → logged s l k err → logged s' l k err.
Proof. intros E (ev & Hin & ?). exists ev. split; [by apply (fe_evals _ _ E)|done]. Qed.

Lemma justified_ext s s' k t0 err : fext s s' → justified s k t0 err → justified s' k t0 err.
Proof.
  intros E (ev & Hin & Hk & He & Hj). exists ev. split; [by apply (fe_evals _ _ E)|]. split; [done|]. split; [done|].
  rewrite (fe_ttl _ _ E). destruct Hj as [(pub & ? & ?)|?]; [left|by right].
  exists pub. split; [by apply (fe_pub _ _ E)|done].
Qed.

Lemma thread_ok_ext s s' i k p : fext s s' → thread_ok s i k p → thread_ok s' i k p.
Proof.
  intros E. pose proof (fe_clock _ _ E).
  destruct p as [|t0|t0|t0 l|t0|t0 snap todo ran|t0 snap ran|t0 snap ran t1|t0 err|t0 err|t0 err|]; simpl;
    try (intros; lia); try (by apply justified_ext); intros [Ht Hw]; (split; [lia|]); try done.
  - destruct Hw as [Hw|(err & pub & Hr & Hp & Hle & Hlog)].
    + destruct (fe_flight _ _ E _ _ Hw) as [?|(err & ? & ? & ?)]; [by left|]. right. eauto 10.
    + right. exists err, pub. split; [by apply (fe_res _ _ E)|]. split; [by apply (fe_pub _ _ E)|].
      split; [done|]. by eapply logged_ext.
  - by eapply logged_ext.
Qed.

(** A step of one goroutine that leaves the group alone. *)
Lemma finv_local s s' i k p p' :
  finv s → f_threads s !! i = Some (k, p) →
  f_group s' = f_group s → f_threads s' = <[i := (k, p')]> (f_threads s) → f_pub s' = f_pub s →
  f_clock s' = f_clock s → cacheTTL (f_agg s') = cacheTTL (f_agg s) →
  (∀ ev, ev ∈ f_evals s → ev ∈ f_evals s') →
  leading p' = leading p → (past p = true → past p' = true) →
  (∀ idx r, cache_get (f_agg s') idx = Some r →
     ∃ ev, ev ∈ f_evals s' ∧ ev_kind ev = Z.of_nat idx ∧ ev_err ev = cr_err r ∧ ev_at ev = cr_at r) →
  Forall ev_ok (f_evals s') → length (cache (f_agg s')) = 3 →
  thread_ok s' i k p' → finv s'.
Proof.
  intros [Hl Hp Hc He Hn Ht] Hi Hg Hth Hpub Hck Httl Hev Hlead Hpast Hc' He' Hn' Hok.
  assert (fext s s') as E.
  { split; rewrite ?Hg, ?Hpub, ?Hck, ?Httl; auto; lia. }
  split; rewrite ?Hg, ?Hth, ?Hpub; try done.
  - intros k' i'. rewrite Hl. destruct (decide (i' = i)) as [->|Hne].
    + rewrite list_lookup_insert_eq by (by eapply lookup_lt_Some). rewrite Hi. split.
      * intros (q & [= <- <-] & Hq). exists p'. split; [done|congruence].
      * intros (q & [= <- <-] & Hq). exists p. split; [done|congruence].
    + by rewrite list_lookup_insert_ne by done.
  - intros l Hr. destruct (Hp l Hr) as (k' & q & Hq & Hpq). destruct (decide (l = i)) as [->|Hne].
    + rewrite list_lookup_insert_eq by (by eapply lookup_lt_Some). simplify_eq. eauto.
    + rewrite list_lookup_insert_ne by done. eauto.
  - intros i' k' q Hq. destruct (decide (i' = i)) as [->|Hne].
    + rewrite list_lookup_insert_eq in Hq by (by eapply lookup_lt_Some). simplify_eq.
      split; [by apply (Ht i k' p)|done].
    + rewrite list_lookup_insert_ne in Hq by done. destruct (Ht _ _ _ Hq). split; [done|].
      by eapply thread_ok_ext.
Qed.

(** A step that touches no goroutine and not the cache. *)
Lemma finv_env s s' :
  finv s → f_group s' = f_group s → f_threads s' = f_threads s → f_pub s' = f_pub s →
  (f_clock s ≤ f_clock s')%Z → cacheTTL (f_agg s') = cacheTTL (f_agg s) → cache (f_agg s') = cache (f_agg s) →
  f_evals s' = f_evals s → finv s'.
Proof.
  intros [Hl Hp Hc He Hn Ht] Hg Hth Hpub Hck Httl Hca Hev.
  assert (fext s s') as E.
  { split; rewrite ?Hg, ?Hpub, ?Httl, ?Hev; auto. }
  split; rewrite ?Hg, ?Hth, ?Hpub, ?Hca, ?Hev; try done.
  - intros idx r. unfold cache_get. rewrite Hca. apply Hc.
  - intros i k p Hi. destruct (Ht _ _ _ Hi). split; [done|]. by eapply thread_ok_ext.
Qed.

Lemma set_thread_lookup i k p (s : FState G) j :
  f_threads s !! i ≠ None →
  f_threads (set_thread i k p s) !! j = if decide (j = i) then Some (k, p) else f_threads s !! j.
Proof.
  intros Hi. simpl. destruct (decide (j = i)) as [->|Hne].
  - apply list_lookup_insert_eq, lookup_lt_is_Some. by destruct (f_threads s !! i).
  - by rewrite list_lookup_insert_ne.
Qed.

(** Not in [Do] and out of it: no result, nothing published. *)
Lemma not_past s i k p :
  finv s → f_threads s !! i = Some (k, p) → past p = false →
  sf_result i (f_group s) = None ∧ f_pub s !! i = None.
Proof.
  intros I Hi Hp. rewrite !eq_None_not_Some.
  split; intros H; destruct (fi_past s I i) as (k' & q & Hq & Hpq); auto; simplify_eq; congruence.
Qed.

(** Other goroutines keep what they had. *)
Lemma finv_threads s s' i k p' :
  finv s → fext s s' → f_threads s !! i ≠ None →
  f_threads s' = f_threads (set_thread i k p' s) → (0 ≤ k < 3)%Z → thread_ok s' i k p' →
  ∀ i' k' q, f_threads s' !! i' = Some (k', q) → (0 ≤ k' < 3)%Z ∧ thread_ok s' i' k' q.
Proof.
  intros I E Hi Hth Hk Hok i' k' q. rewrite Hth, set_thread_lookup by done.
  destruct (decide (i' = i)) as [->|Hne]; [by intros [= <- <-]|]. intros Hq.
  destruct (fi_threads s I _ _ _ Hq). split; [done|]. by eapply thread_ok_ext.
Qed.

(** Entering [Do]. *)
Lemma finv_do s i k t0 :
  finv s → f_threads s !! i = Some (k, FDo t0) →
  let '(l, g) := sf_Do (flight_key k) i (f_group s) in
  finv (set_thread i k (if Nat.eqb l i then FSnap t0 else FWait t0 l) (set_group g s)).
Proof.
  intros I Hi. destruct (fi_threads s I _ _ _ Hi) as [Hk Ht0]. simpl in Ht0.
  assert (f_threads s !! i ≠ None) as Hi' by congruence.
  destruct (sf_Do (flight_key k) i (f_group s)) as [l g] eqn:Hdo.
  destruct (inflight (f_group s) !! flight_key k) as [l0|] eqn:Hfl.
  - destruct (sf_busy (flight_key k) i l0 (f_group s) Hfl) as (Hl & Hin & Hres).
    rewrite Hdo in Hl, Hin, Hres. simpl in *. subst l0.
    assert (l ≠ i) as Hne.
    { intros ->. apply (fi_lead s I) in Hfl as (q & Hq & Hlead). by simplify_eq. }
    rewrite (proj2 (Nat.eqb_neq l i) Hne).
    assert (fext s (set_thread i k (FWait t0 l) (set_group g s))) as E.
    { split; simpl; auto; [lia|intros ??; by rewrite Hres|intros k' l'; rewrite Hin; auto]. }
    split; try apply I; simpl.
    + intros k' i'. rewrite Hin, (fi_lead s I).
      change (<[i := (k, FWait t0 l)]> (f_threads s)) with (f_threads (set_thread i k (FWait t0 l) s)).
      rewrite set_thread_lookup by done.
      destruct (decide (i' = i)) as [->|]; [|done]. rewrite Hi.
      split; intros (q & [= <- <-] & ?); done.
    + intros l'. rewrite Hres. intros Hr. destruct (fi_past s I l' Hr) as (k' & q & Hq & Hpq).
      exists k', q. split; [|done]. rewrite list_lookup_insert_ne; [done|]. intros ->. by simplify_eq.
    + apply (finv_threads s _ i k (FWait t0 l) I E Hi' eq_refl Hk). split; [done|]. left. simpl. by rewrite Hin.
  - destruct (sf_idle (flight_key k) i (f_group s) Hfl) as (Hl & Hin & Hres).
    rewrite Hdo in Hl, Hin, Hres. simpl in *. subst l. rewrite Nat.eqb_refl.
    assert (fext s (set_thread i k (FSnap t0) (set_group g s))) as E.
    { split; simpl; auto; [lia|intros ??; by rewrite Hres|].
      intros k' l' Hl'. left. rewrite Hin, lookup_insert_ne; [done|]. congruence. }
    split; try apply I; simpl.
    + intros k' i'. rewrite Hin.
      change (<[i := (k, FSnap t0)]> (f_threads s)) with (f_threads (set_thread i k (FSnap t0) s)).
      rewrite set_thread_lookup by done. destruct (decide (k' = k)) as [->|Hkk].
      * rewrite lookup_insert_eq. destruct (decide (i' = i)) as [->|Hne].
        { split; [intros _; eauto|done]. }
        split; [congruence|]. intros Hq. apply (fi_lead s I) in Hq. congruence.
      * rewrite lookup_insert_ne by (by intros ?%(inj flight_key)). rewrite (fi_lead s I).
        destruct (decide (i' = i)) as [->|Hne]; [|done]. rewrite Hi.
        split; intros (q & Hq & ?); congruence.
    + intros l'. rewrite Hres. intros Hr. destruct (fi_past s I l' Hr) as (k' & q & Hq & Hpq).
      exists k', q. split; [|done]. rewrite list_lookup_insert_ne; [done|]. intros ->. by simplify_eq.
    + by apply (finv_threads s _ i k (FSnap t0) I E Hi' eq_refl Hk).
Qed.

(** Returning from the function. *)
Lemma finv_return s i k t0 err :
  finv s → f_threads s !! i = Some (k, FReturn t0 err) →
  finv (set_thread i k (FHook t0 err)
          (add_pub i (set_group (sf_return (flight_key k) i err (f_group s)) s))).
Proof.
  intros I Hi. destruct (fi_threads s I _ _ _ Hi) as [Hk [Ht0 Hlog]].
  assert (f_threads s !! i ≠ None) as Hi' by congruence.
  assert (inflight (f_group s) !! flight_key k = Some i) as Hfl.
  { apply (fi_lead s I). eauto. }
  destruct (not_past s i k _ I Hi eq_refl) as [Hnr Hnp].
  destruct (sf_done (flight_key k) i err (f_group s) Hfl) as [Hin Hres].
  set (s' := set_thread i k (FHook t0 err) _).
  assert (fext s s') as E.
  { split; simpl; auto; [lia| | |].
    - intros l x Hx. rewrite lookup_insert_ne; [done|congruence].
    - intros l e He. rewrite Hres. destruct (decide (l = i)); [congruence|done].
    - intros k' l Hl. rewrite Hin. destruct (decide (k' = k)) as [->|Hne].
      + right. assert (l = i) as -> by congruence. exists err. rewrite Hres, decide_True by done.
        split; [done|]. split; [apply lookup_insert_eq|done].
      + left. rewrite lookup_delete_ne; [done|]. by intros ?%(inj flight_key). }
  assert (f_threads s' = f_threads (set_thread i k (FHook t0 err) s)) as Hth by done.
  split; try apply I.
  - intros k' i'. rewrite Hth, set_thread_lookup by done. simpl. rewrite Hin.
    destruct (decide (k' = k)) as [->|Hkk].
    + rewrite lookup_delete_eq. split; [done|]. intros (q & Hq & Hlead).
      destruct (decide (i' = i)) as [->|Hne]; [by simplify_eq|].
      assert (inflight (f_group s) !! flight_key k = Some i') as Hx by (apply (fi_lead s I); eauto). congruence.
    + rewrite lookup_delete_ne by (by intros ?%(inj flight_key)). rewrite (fi_lead s I).
      destruct (decide (i' = i)) as [->|Hne]; [|done]. rewrite Hi.
      split; intros (q & Hq & ?); congruence.
  - intros l. rewrite Hth, set_thread_lookup by done. simpl. rewrite Hres.
    destruct (decide (l = i)) as [->|Hne]; [by eauto|]. rewrite lookup_insert_ne by done.
    apply (fi_past s I).
  - apply (finv_threads s _ i k (FHook t0 err) I E Hi' eq_refl Hk). destruct Hlog as (ev & ? & ? & ? & ?). exists ev.
    split_and!; try done. left. exists (f_clock s). split; [|done]. simpl. subst i. apply lookup_insert_eq.
Qed.

Lemma cache_index_valid k : (0 ≤ k < 3)%Z → cache_index k = Some (Z.to_nat k).
Proof. intros Hk. unfold cache_index. by rewrite (proj2 (Z.leb_le 0 k)), (proj2 (Z.ltb_lt k 3)) by lia. Qed.

(** A hit is justified by the evaluation that stored it. *)
Lemma finv_hit s k t0 res :
  finv s → (0 ≤ k < 3)%Z → cache_hit k t0 (f_agg s) = Ret (Some res) → justified s k t0 (cr_err res).
Proof.
  intros I Hk. unfold cache_hit. rewrite cache_index_valid by done.
  destruct (Z.gtb_spec (cacheTTL (f_agg s)) 0) as [Httl|]; [|done].
  destruct (cache_get (f_agg s) (Z.to_nat k)) as [r|] eqn:Hr; [|done].
  destruct (Z.ltb_spec (sat64 (t0 - cr_at r)) (cacheTTL (f_agg s))); [|done]. intros [= <-].
  destruct (fi_cache s I _ _ Hr) as (ev & Hin & Hev & He & Hat). exists ev.
  rewrite Z2Nat.id in Hev by lia. split_and!; try done. right. split; [lia|]. by rewrite Hat.
Qed.

Lemma cache_hit_valid k t a : (0 ≤ k < 3)%Z → ∃ r, cache_hit k t a = Ret r.
Proof.
  intros Hk. unfold cache_hit. rewrite cache_index_valid by done.
  repeat case_match; eauto.
Qed.

(** Storing the result of an evaluation. *)
Lemma finv_store s i k t0 snap ran t1 :
  finv s → f_threads s !! i = Some (k, FStore t0 snap ran t1) →
  finv (set_thread i k (FReturn t0 (errors_Join (ran_errors ran)))
         (add_eval (mkEval k i snap ran t1)
           (set_fagg (cache_put (Z.to_nat k) (mkCached (errors_Join (ran_errors ran)) t1) (f_agg s)) s))).
Proof.
  intros I Hi. destruct (fi_threads s I _ _ _ Hi) as [Hk [Ht0 Hperm]].
  eapply (finv_local s _ i k); try done; simpl.
  - intros ev. by constructor.
  - intros idx r. unfold cache_get. simpl. destruct (decide (idx = Z.to_nat k)) as [->|Hne].
    + rewrite list_lookup_insert_eq by (rewrite (fi_len s I); lia). intros [= <-].
      exists (mkEval k i snap ran t1). split_and!; [by constructor| |done|done]. simpl. lia.
    + rewrite list_lookup_insert_ne by done. intros Hr. destruct (fi_cache s I idx r Hr) as (ev & ? & ?).
      exists ev. split; [by constructor|done].
  - constructor; [done|]. apply I.
  - rewrite length_insert. apply I.
  - split; [done|]. exists (mkEval k i snap ran t1). split_and!; [by constructor|done..].
Qed.

Lemma finv_step l s s' : finv s → fstep l s = Some s' → finv s'.
Proof.
  intros I. unfold fstep. destruct (existsb _ _); [done|].
  destruct l as [i|i j e|d|cs|h].
  - destruct (f_threads s !! i) as [[k p]|] eqn:Hi; [|done].
    destruct (fi_threads s I _ _ _ Hi) as [Hk Hok].
    destruct p as [|t0|t0|t0 l|t0|t0 snap [|? ?] ran|t0 snap ran|t0 snap ran t1|t0 err|t0 err|t0 err|]; simpl;
      try done.
    + intros [= <-]. eapply (finv_local s _ i k); try done; try apply I. simpl. lia.
    + destruct (cache_hit_valid k t0 (f_agg s) Hk) as [[r|] Hr]; rewrite Hr; intros [= <-];
        (eapply (finv_local s _ i k); try done; try apply I).
      by apply (finv_hit s).
    + pose proof (finv_do s i k t0 I Hi) as H. destruct (sf_Do _ _ _) as [l g]. by intros [= <-].
    + destruct (sf_result l (f_group s)) as [err|] eqn:Hr; [|done]. intros [= <-].
      eapply (finv_local s _ i k); try done; try apply I. destruct Hok as [Ht0 [Hfl|(err' & pub & ? & ? & ? & Hlog)]].
      * exfalso. apply (fi_lead s I) in Hfl as (q & Hq & Hlead).
        destruct (fi_past s I l) as (k' & q' & Hq' & Hp'); [eauto|]. simplify_eq. by destruct q.
      * destruct Hlog as (ev & ? & <- & ? & ?). exists ev. simplify_eq. split_and!; try done. left. eauto.
    + intros [= <-]. eapply (finv_local s _ i k); try done; try apply I.
    + intros [= <-]. eapply (finv_local s _ i k); try done; try apply I.
      destruct Hok as [? Hp]. split; [done|]. by rewrite app_nil_r in Hp.
    + intros [= <-]. eapply (finv_local s _ i k); try done; try apply I.
    + rewrite cache_index_valid by done. intros [= <-]. by apply finv_store.
    + intros [= <-]. by apply finv_return.
    + intros [= <-]. eapply (finv_local s _ i k); try done; try apply I.
  - destruct (f_threads s !! i) as [[k p]|] eqn:Hi; [|done].
    destruct (fi_threads s I _ _ _ Hi) as [Hk Hok]. destruct p as [| | | | |t0 snap todo ran| | | | | |]; try done.
    simpl. destruct (todo !! j) as [c|] eqn:Hj; [|done]. intros [= <-].
    eapply (finv_local s _ i k); try done; try apply I. destruct Hok as [? Hp]. split; [done|].
    rewrite map_app, <-app_assoc. simpl. rewrite <-Hp. f_equiv. symmetry. by apply delete_Permutation.
  - destruct (Z.leb_spec 0 d); [|done]. intros [= <-]. apply (finv_env s); try done. simpl. lia.
  - intros [= <-]. destruct (Register_frame cs (f_agg s)) as (? & ? & ?). by apply (finv_env s).
  - intros [= <-]. by apply (finv_env s).
Qed.

Definition sf_empty (g : G) : Prop := inflight g = ∅ ∧ ∀ l, sf_result l g = None.

Lemma finv_initial ttl t g ks :
  sf_empty g → Forall (λ k, 0 ≤ k < 3)%Z ks → finv (finitial ttl t g ks).
Proof.
  intros [Hg Hr] Hks.
  assert (∀ i k p, f_threads (finitial ttl t g ks) !! i = Some (k, p) → p = FNow ∧ (0 ≤ k < 3)%Z) as Hth.
  { intros i k p Hi. simpl in Hi. apply list_lookup_fmap_Some in Hi as (k' & [= -> ->] & Hk').
    split; [done|]. by eapply Forall_lookup_1 in Hks. }
  split; simpl; try done.
  - intros k i. rewrite Hg, lookup_empty. split; [done|]. intros (p & Hi & Hp).
    by destruct (Hth _ _ _ Hi) as [-> _].
  - intros l. rewrite Hr, lookup_empty. intros [[? ?]|[? ?]]; done.
  - intros idx r. unfold cache_get. simpl. do 3 (destruct idx as [|idx]; [done|]). done.
  - intros i k p Hi. destruct (Hth _ _ _ Hi) as [-> ?]. done.
Qed.

Lemma finv_reachable ttl t g ks s :
  sf_empty g → Forall (λ k, 0 ≤ k < 3)%Z ks → reachable fstep (finitial ttl t g ks) s → finv s.
Proof. intros Hg Hks. apply invariant_reachable; [by apply finv_initial|]. intros. by eapply finv_step. Qed.

(** ** Termination *)

(** The steps of the goroutines and of their checks. *)
Definition internal (l : flabel) : bool :=
  match l with FGo _ | FCheck _ _ _ => true | _ => false end.

Definition fint (l : flabel) (s : FState G) : option (FState G) :=
  if internal l then fstep l s else None.

(** How many steps a goroutine has left. *)
Definition frank (a : Aggregator) (x : Kind * fpc) : nat :=
  let n := length (bucket a x.1) in
  match x.2 with
  | FNow => n + 10 | FLoad _ => n + 9 | FDo _ => n + 8 | FSnap _ => n + 7
  | FRun _ _ todo _ => length todo + 6 | FStamp _ _ _ => 5 | FStore _ _ _ _ => 4 | FReturn _ _ => 3
  | FWait _ _ => 2 | FHook _ _ => 1 | FDone _ _ | FCrash => 0
  end.

Definition fmeasure (s : FState G) : nat := list_sum (map (frank (f_agg s)) (f_threads s)).

Lemma fmeasure_thread s s' i x x' :
  f_threads s !! i = Some x → f_threads s' = <[i := x']> (f_threads s) →
  checks (f_agg s') = checks (f_agg s) → frank (f_agg s) x' < frank (f_agg s) x → fmeasure s' < fmeasure s.
Proof.
  intros Hi Hth Hc Hlt. unfold fmeasure. rewrite Hth.
  assert (map (frank (f_agg s')) (<[i := x']> (f_threads s)) = map (frank (f_agg s)) (<[i := x']> (f_threads s))) as ->.
  { apply map_ext. intros y. unfold frank, bucket. by rewrite Hc. }
  by eapply list_sum_insert_lt.
Qed.

Lemma fint_decreases l s s' : fint l s = Some s' → fmeasure s' < fmeasure s.
Proof.
  unfold fint, fstep. destruct (internal l) eqn:Hl; [|done]. destruct (existsb _ _); [done|].
  destruct l as [i|i j e|d|cs|h]; try done.
  - destruct (f_threads s !! i) as [[k p]|] eqn:Hi; [|done].
    destruct p as [|t0|t0|t0 l|t0|t0 snap [|? ?] ran|t0 snap ran|t0 snap ran t1|t0 err|t0 err|t0 err|]; simpl;
      try done; repeat case_match; try done; intros [= <-];
      (eapply (fmeasure_thread s); [done|reflexivity|done|]); unfold frank, bucket; simpl; try lia.
  - destruct (f_threads s !! i) as [[k p]|] eqn:Hi; [|done].
    destruct p as [| | | | |t0 snap todo ran| | | | | |]; try done. simpl.
    destruct (todo !! j) as [c|] eqn:Hj; [|done]. intros [= <-].
    eapply (fmeasure_thread s); [done|reflexivity|done|]. unfold frank. simpl.
    apply lookup_lt_Some in Hj as Hlt. rewrite length_delete by done. lia.
Qed.

Lemma finv_no_crash s :
  finv s → existsb (λ x, match x.2 with FCrash => true | _ => false end) (f_threads s) = false.
Proof.
  intros I. apply not_true_is_false. intros H. apply existsb_exists in H as ([k p] & Hin & Hp).
  apply list_elem_of_In, list_elem_of_lookup in Hin as [i Hi].
  destruct (fi_threads s I _ _ _ Hi) as [_ Hok]. by destruct p.
Qed.

(** A goroutine that runs the function can always go on, if its checks return. *)
Lemma leading_progress s i k p :
  finv s → f_threads s !! i = Some (k, p) → leading p = true →
  ∃ l s', internal l = true ∧ fstep l s = Some s'.
Proof.
  intros I Hi Hp. destruct (fi_threads s I _ _ _ Hi) as [Hk _]. unfold fstep. rewrite finv_no_crash by done.
  destruct p as [| | | |t0|t0 snap [|c todo] ran|t0 snap ran|t0 snap ran t1|t0 err| | |]; try done;
    [exists (FGo i)..|exists (FCheck i 0 None)|exists (FGo i)|exists (FGo i)|exists (FGo i)]; rewrite Hi; simpl;
    rewrite ?cache_index_valid by done; eexists; done.
Qed.

Lemma flight_progress s i k p :
  finv s → f_threads s !! i = Some (k, p) → (∀ t0 err, p ≠ FDone t0 err) →
  ∃ l s', internal l = true ∧ fstep l s = Some s'.
Proof.
  intros I Hi Hp. destruct (leading p) eqn:Hlead; [by eapply leading_progress|].
  destruct (fi_threads s I _ _ _ Hi) as [Hk Hok].
  assert ((∃ s', fgo i k p s = Some s') → ∃ l s', internal l = true ∧ fstep l s = Some s') as Hgo.
  { intros [s' Hs']. exists (FGo i), s'. split; [done|]. unfold fstep. by rewrite finv_no_crash, Hi by done. }
  destruct p as [|t0|t0|t0 l|t0|t0 snap todo ran|t0 snap ran|t0 snap ran t1|t0 err|t0 err|t0 err|]; try done;
    try (apply Hgo; simpl; by eexists).
  - apply Hgo. simpl. repeat case_match; eauto.
  - apply Hgo. simpl. destruct (sf_Do _ _ _). eauto.
  - destruct Hok as [_ [Hfl|(err & pub & Hr & _)]].
    + apply (fi_lead s I) in Hfl as (q & Hq & Hlq). by eapply leading_progress.
    + apply Hgo. simpl. rewrite Hr. eauto.
  - by destruct (Hp t0 err).
Qed.
End FlightInvariant.

(** ** History

    What the run that led to a state says about it. [ls] are the labels of the run
    from the initial state [s0]. *)

(** What the checks run by goroutine [i] returned, in order. *)
Definition answer (i : nat) (l : flabel) : option (option error) :=
  match l with FCheck j _ e => if Nat.eqb j i then Some e else None | _ => None end.

Section History.
Context {G : Type} `{!Singleflight G} (s0 : FState G).

(** The run was in [s1] after the labels [ls1]. *)
Definition went_through (ls ls1 : list flabel) (s1 : FState G) : Prop :=
  ∃ rest, ls = ls1 ++ rest ∧ run_labels fstep ls1 s0 = Some s1.

(** The call of goroutine [i] began at [t0]. *)
Definition began (ls : list flabel) (i : nat) (k : Kind) (t0 : Z) : Prop :=
  ∃ ls1 s1, went_through ls ls1 s1 ∧ f_threads s1 !! i = Some (k, FNow) ∧ f_clock s1 = t0.

(** Goroutine [i] copied the checks registered at that moment, and [ran] is what has
    returned since. *)
Definition snapped (ls : list flabel) (i : nat) (k : Kind) (snap : list Check) (ran : list (Check * option error)) :
    Prop :=
  ∃ ls1 ls2 s1 t, ls = ls1 ++ ls2 ∧ run_labels fstep ls1 s0 = Some s1 ∧ f_threads s1 !! i = Some (k, FSnap t) ∧
    snap = bucket (f_agg s1) k ∧ map snd ran = omap (answer i) ls2.

(** Goroutine [i] evaluated the checks and read the clock, [t1], when all had
    returned. *)
Definition evaluated (ls : list flabel) (i : nat) (k : Kind) (snap : list Check) (ran : list (Check * option error))
    (t1 : Z) : Prop :=
  ∃ ls1 ls2 s1 s2 t t', went_through ls ls1 s1 ∧ f_threads s1 !! i = Some (k, FSnap t) ∧
    went_through ls (ls1 ++ ls2) s2 ∧ f_threads s2 !! i = Some (k, FStamp t' snap ran) ∧
    snap = bucket (f_agg s1) k ∧ map snd ran = omap (answer i) ls2 ∧ t1 = f_clock s2.

(** The function run by goroutine [i] returned at [t]. *)
Definition published (ls : list flabel) (i : nat) (t : Z) : Prop :=
  ∃ ls1 s1 k t0 err, went_through ls ls1 s1 ∧ f_threads s1 !! i = Some (k, FReturn t0 err) ∧ f_clock s1 = t.

Definition thread_hist (ls : list flabel) (i : nat) (x : Kind * fpc) : Prop :=
  match x.2 with
  | FNow | FCrash => True
  | FLoad t0 | FDo t0 | FSnap t0 | FWait t0 _ | FReturn t0 _ | FHook t0 _ | FDone t0 _ => began ls i x.1 t0
  | FRun t0 snap _ ran | FStamp t0 snap ran => began ls i x.1 t0 ∧ snapped ls i x.1 snap ran
  | FStore t0 snap ran t1 => began ls i x.1 t0 ∧ evaluated ls i x.1 snap ran t1
  end.

Definition eval_hist (ls : list flabel) (ev : Eval) : Prop :=
  evaluated ls (ev_by ev) (ev_kind ev) (ev_snap ev) (ev_ran ev) (ev_at ev).

Record hist (ls : list flabel) (s : FState G) : Prop := mkHist {
  h_run : run_labels fstep ls s0 = Some s;
  h_threads i x : f_threads s !! i = Some x → thread_hist ls i x;
  h_evals ev : ev ∈ f_evals s → eval_hist ls ev;
  h_pub i t : f_pub s !! i = Some t → published ls i t
}.

Lemma went_through_end ls s : run_labels fstep ls s0 = Some s → went_through ls ls s.
Proof. intros H. exists []. by rewrite app_nil_r. Qed.

Lemma went_through_snoc ls l ls1 s1 : went_through ls ls1 s1 → went_through (ls ++ [l]) ls1 s1.
Proof. intros (rest & -> & ?). exists (rest ++ [l]). by rewrite app_assoc. Qed.

Lemma began_snoc ls l i k t0 : began ls i k t0 → began (ls ++ [l]) i k t0.
Proof. intros (ls1 & s1 & H & ?). exists ls1, s1. split; [by apply went_through_snoc|done]. Qed.

Lemma evaluated_snoc ls l i k snap ran t1 : evaluated ls i k snap ran t1 → evaluated (ls ++ [l]) i k snap ran t1.
Proof.
  intros (ls1 & ls2 & s1 & s2 & t & t' & H1 & ? & H2 & ?). exists ls1, ls2, s1, s2, t, t'.
  split; [by apply went_through_snoc|]. split; [done|]. split; [by apply went_through_snoc|done].
Qed.

Lemma published_snoc ls l i t : published ls i t → published (ls ++ [l]) i t.
Proof.
  intros (ls1 & s1 & k & t0 & err & H & ?). exists ls1, s1, k, t0, err. split; [by apply went_through_snoc|done].
Qed.

Lemma snapped_snoc ls l i k snap ran :
  answer i l = None → snapped ls i k snap ran → snapped (ls ++ [l]) i k snap ran.
Proof.
  intros Ha (ls1 & ls2 & s1 & t & -> & ? & ? & ? & Hr). exists ls1, (ls2 ++ [l]), s1, t. rewrite app_assoc.
  split_and!; try done. rewrite omap_app, Hr. simpl. by rewrite Ha, app_nil_r.
Qed.

Lemma thread_hist_snoc ls l i x : answer i l = None → thread_hist ls i x → thread_hist (ls ++ [l]) i x.
Proof.
  intros Ha. unfold thread_hist. destruct x as [k []]; simpl; try done; try apply began_snoc;
    intros [? ?]; split; auto using began_snoc, snapped_snoc, evaluated_snoc.
Qed.

(** A step of goroutine [i]. *)
Lemma hist_local ls l s s' i k p p' :
  hist ls s → fstep l s = Some s' → f_threads s !! i = Some (k, p) →
  f_threads s' = <[i := (k, p')]> (f_threads s) → (∀ j, j ≠ i → answer j l = None) →
  thread_hist (ls ++ [l]) i (k, p') →
  (∀ ev, ev ∈ f_evals s' → ev ∈ f_evals s ∨ eval_hist (ls ++ [l]) ev) →
  (∀ j t, f_pub s' !! j = Some t → f_pub s !! j = Some t ∨ published (ls ++ [l]) j t) →
  hist (ls ++ [l]) s'.
Proof.
  intros [Hr Ht He Hp] Hs Hi Hth Ha Hp' Hev Hpub. split.
  - rewrite run_labels_app, Hr. simpl. by rewrite Hs.
  - intros j x Hj. rewrite Hth in Hj. destruct (decide (j = i)) as [->|Hne].
    + rewrite list_lookup_insert_eq in Hj by (by eapply lookup_lt_Some). by simplify_eq.
    + rewrite list_lookup_insert_ne in Hj by done. by apply thread_hist_snoc; [apply Ha|apply Ht].
  - intros ev Hin. destruct (Hev ev Hin) as [?|?]; [by apply evaluated_snoc, He|done].
  - intros j t Hj. destruct (Hpub j t Hj) as [?|?]; [by apply published_snoc, Hp|done].
Qed.

(** A step of the environment. *)
Lemma hist_env ls l s s' :
  hist ls s → fstep l s = Some s' → (∀ j, answer j l = None) →
  f_threads s' = f_threads s → f_evals s' = f_evals s → f_pub s' = f_pub s → hist (ls ++ [l]) s'.
Proof.
  intros [Hr Ht He Hp] Hs Ha Hth Hev Hpub. split.
  - rewrite run_labels_app, Hr. simpl. by rewrite Hs.
  - rewrite Hth. intros j x Hj. by apply thread_hist_snoc; [apply Ha|apply Ht].
  - rewrite Hev. intros ev Hin. by apply evaluated_snoc, He.
  - rewrite Hpub. intros j t Hj. by apply published_snoc, Hp.
Qed.

Lemma hist_go ls s s' i k p :
  hist ls s → fstep (FGo i) s = Some s' → f_threads s !! i = Some (k, p) → fgo i k p s = Some s' →
  hist (ls ++ [FGo i]) s'.
Proof.
  intros HI Hs Hi Hgo. pose proof (h_threads _ _ HI _ _ Hi) as Hok. pose proof (went_through_end _ _ (h_run _ _ HI)) as Hend.
  pose proof (λ p', hist_local ls (FGo i) s s' i k p p' HI Hs Hi) as Hl.
  assert (∀ t0, began ls i k t0 → began (ls ++ [FGo i]) i k t0) as Hb by (intros; by apply began_snoc).
  unfold thread_hist in Hok.
  destruct p as [|t0|t0|t0 l|t0|t0 snap [|? ?] ran|t0 snap ran|t0 snap ran t1|t0 err|t0 err|t0 err|]; simpl in Hgo, Hok;
    try discriminate Hgo.
  - injection Hgo as <-. eapply Hl; [reflexivity|done| |by left|by left].
    exists ls, s. split; [by apply went_through_snoc|done].
  - repeat case_match; injection Hgo as <-; (eapply Hl; [reflexivity|done| |by left|by left]); [by apply Hb..|done|done].
  - destruct (sf_Do _ _ _) as [l g]. injection Hgo as <-. eapply Hl; [reflexivity|done| |by left|by left].
    unfold thread_hist. destruct (Nat.eqb l i); by apply Hb.
  - case_match; [|done]. injection Hgo as <-. eapply Hl; [reflexivity|done| |by left|by left]. by apply Hb.
  - injection Hgo as <-. eapply Hl; [reflexivity|done| |by left|by left]. split; [by apply Hb|].
    exists ls, [FGo i], s, t0. split_and!; [done|apply (h_run _ _ HI)|done..].
  - injection Hgo as <-. eapply Hl; [reflexivity|done| |by left|by left]. destruct Hok. split; [by apply Hb|].
    by apply snapped_snoc.
  - injection Hgo as <-. destruct Hok as [? (ls1 & ls2 & s1 & t & -> & Hr1 & Ht1 & Hsn & Hans)].
    eapply Hl; [reflexivity|done| |by left|by left]. split; [by apply Hb|]. exists ls1, ls2, s1, s, t, t0.
    split_and!; [|done|by apply went_through_snoc|done..]. exists (ls2 ++ [FGo i]). by rewrite app_assoc.
  - destruct Hok as [? Hev]. case_match; injection Hgo as <-; (eapply Hl; [reflexivity|done| | |by left]);
      [by apply Hb| |done|by left].
    intros ev [->|?]%elem_of_cons; [right; by apply evaluated_snoc|by left].
  - injection Hgo as <-. eapply Hl; [reflexivity|done|by apply Hb|by left|]. intros j t. simpl.
    destruct (decide (i = j)) as [<-|Hne]; [|rewrite lookup_insert_ne by done; by left].
    rewrite lookup_insert_eq. intros [= <-]. right. exists ls, s, k, t0, err.
    split_and!; [by apply went_through_snoc|done..].
  - injection Hgo as <-. eapply Hl; [reflexivity|done| |by left|by left]. by apply Hb.
Qed.

Lemma hist_step ls l s s' : hist ls s → fstep l s = Some s' → hist (ls ++ [l]) s'.
Proof.
  intros HI Hs. pose proof Hs as Hs'. unfold fstep in Hs. destruct (existsb _ _); [done|].
  destruct l as [i|i j e|d|cs|h].
  - destruct (f_threads s !! i) as [[k p]|] eqn:Hi; [|done]. by eapply hist_go.
  - destruct (f_threads s !! i) as [[k p]|] eqn:Hi; [|done]. pose proof (h_threads _ _ HI _ _ Hi) as Hok.
    destruct p as [| | | | |t0 snap todo ran| | | | | |]; try done. simpl in Hs.
    destruct (todo !! j) as [c|]; [|done]. injection Hs as <-.
    eapply (hist_local ls _ s _ i k); [done|done|done|reflexivity| |..]; eauto.
    + intros i' Hne. simpl. by destruct (Nat.eqb_spec i i').
    + destruct Hok as [? (ls1 & ls2 & s1 & t & -> & ? & ? & ? & Hans)]. split; [by apply began_snoc|].
      exists ls1, (ls2 ++ [FCheck i j e]), s1, t. rewrite app_assoc. split_and!; try done.
      rewrite map_app, omap_app, Hans. simpl. by rewrite Nat.eqb_refl.
  - destruct (0 <=? d)%Z; [|done]. injection Hs as <-. by eapply hist_env.
  - injection Hs as <-. by eapply hist_env.
  - injection Hs as <-. by eapply hist_env.
Qed.

Lemma hist_run ls s :
  (∀ i x, f_threads s0 !! i = Some x → x.2 = FNow) → f_evals s0 = [] → f_pub s0 = ∅ →
  run_labels fstep ls s0 = Some s → hist ls s.
Proof.
  intros Ht He Hp. revert s. induction ls as [|l ls IH] using rev_ind; intros s.
  - intros [= <-]. split; [done|..].
    + intros i [k p] Hi. unfold thread_hist. by rewrite (Ht _ _ Hi).
    + rewrite He. by intros ev ?%elem_of_nil.
    + rewrite Hp. intros i t. by rewrite lookup_empty.
  - rewrite run_labels_app. destruct (run_labels fstep ls s0) as [s1|]; [|done]. simpl.
    destruct (fstep l s1) as [s2|] eqn:Hs; [|done]. intros [= <-]. eapply hist_step; [by apply IH|done].
Qed.
End History.

(** ** A sample group *)

Definition sample_group : Type := (gmap string nat * gmap nat (option error))%type.

#[global] Instance sample_singleflight : Singleflight sample_group := {|
  sf_Do key i g := match g.1 !! key with
                   | Some l => (l, g)
                   | None => (i, (<[key := i]> g.1, g.2))
                   end;
  sf_return key i err g := (delete key g.1, <[i := err]> g.2);
  sf_result l g := g.2 !! l |}.

#[global] Instance sample_singleflight_laws : SingleflightLaws sample_group fst.
Proof.
  split.
  - intros key i g Hg. simpl. by rewrite Hg.
  - intros key i l g Hg. simpl. by rewrite Hg.
  - intros key i err g Hg. split; [done|]. intros j. simpl. destruct (decide (j = i)) as [->|Hne].
    + apply lookup_insert_eq.
    + by rewrite lookup_insert_ne.
Qed.

Lemma sample_group_empty : sf_empty fst ((∅, ∅) : sample_group).
Proof. split; [done|]. intros l. apply lookup_empty. Qed.

Definition ping : Check := mkCheck (λ _ t, Ret (t, None)) "db" Readiness Second.

(** Three readiness probes: the second joins the first, the third comes later and
    is served from the cache. *)
Definition sample_run : list flabel :=
  [FRegister [ping]; FGo 0; FGo 0; FGo 0; FGo 1; FGo 1; FGo 1; FGo 0; FTick 5;
   FCheck 0 0 (Some (ErrorString "down")); FGo 0; FGo 0; FGo 0; FGo 0; FGo 1; FTick 1; FGo 2; FGo 2; FGo 0; FGo 1].

Definition down : error := Errorf_w "db: " (ErrorString "down").

Example sample_run_ends :
  f_threads <$> run_labels fstep sample_run (finitial 0 0 ((∅, ∅) : sample_group) [1; 1; 1]%Z) =
  Some [(1%Z, FDone 0 (errors_Join [down])); (1%Z, FDone 0 (errors_Join [down]));
        (1%Z, FDone 6 (errors_Join [down]))].
Proof. vm_compute. reflexivity. Qed.

Example sample_run_joins :
  f_threads <$> run_labels fstep (take 8 sample_run) (finitial 0 0 ((∅, ∅) : sample_group) [1; 1; 1]%Z) =
  Some [(1%Z, FRun 0 [ping] [ping] []); (1%Z, FWait 0 0); (1%Z, FNow)].
Proof. vm_compute. reflexivity. Qed.

(** ** Theorems *)

(** C10. At most one evaluation of a kind is in flight. Whatever the goroutines
    that call [evaluate], the registrations, the hooks and the passing of time,
    two goroutines that run the checks of the same kind are the same. *)
Theorem flight_single {G} `{!Singleflight G} inflight ttl t g ks s k i j p q :
  SingleflightLaws G inflight → sf_empty inflight g → Forall (λ k, 0 ≤ k < 3)%Z ks →
  reachable fstep (finitial ttl t g ks) s →
  f_threads s !! i = Some (k, p) → f_threads s !! j = Some (k, q) →
  leading p = true → leading q = true → i = j.
Proof.
  intros L Hg Hks Hr Hi Hj Hp Hq. pose proof (finv_reachable inflight ttl t g ks s Hg Hks Hr) as I.
  assert (inflight (f_group s) !! flight_key k = Some i) as Hki by (apply (fi_lead _ s I); eauto).
  assert (inflight (f_group s) !! flight_key k = Some j) as Hkj by (apply (fi_lead _ s I); eauto).
  congruence.
Qed.

Lemma flight_single_witness :
  ∃ s, run_labels fstep (take 8 sample_run) (finitial 0 0 ((∅, ∅) : sample_group) [1; 1; 1]%Z) = Some s ∧
    ∀ j q, f_threads s !! j = Some (1%Z, q) → leading q = true → 0 = j.
Proof.
  destruct (run_labels fstep (take 8 sample_run) (finitial 0 0 ((∅, ∅) : sample_group) [1; 1; 1]%Z))
    as [s|] eqn:Hrun; [|by vm_compute in Hrun].
  exists s. split; [done|]. intros j q Hj Hq.
  apply run_labels_reachable in Hrun as Hr.
  assert (∃ p, f_threads s !! 0 = Some (1%Z, p) ∧ leading p = true) as (p & Hp & Hlead).
  { pose proof sample_run_joins as H. rewrite Hrun in H. injection H as ->. eexists. split; reflexivity. }
  eapply (flight_single fst 0 0 ((∅, ∅) : sample_group) [1; 1; 1]%Z s 1 0 j p q).
  - apply sample_singleflight_laws.
  - apply sample_group_empty.
  - repeat constructor; done.
  - exact Hr.
  - exact Hp.
  - exact Hj.
  - exact Hlead.
  - exact Hq.
Defined.

(** C11. Concurrent probes get true and fresh results. In every run of goroutines
    that call [evaluate] for one of the three kinds, checks that return,
    registrations, hook changes and the passing of time, from an aggregator without
    checks and with no call in flight: when goroutine [i] has returned [err] from a call of kind [k]
    that began at [t0], some goroutine [l] copied the checks of kind [k] that were
    registered at that moment and ran each of them exactly once, and [err] joins the
    errors they returned in that time, under their names; and either [l] was still
    evaluating at [t0] or later, or caching is on and the evaluation was younger than
    the TTL at [t0], by the clock when its last check had returned. *)
Theorem flight_fresh {G} `{!Singleflight G} inflight ttl t g ks ls s i k t0 err :
  SingleflightLaws G inflight → sf_empty inflight g → Forall (λ k, 0 ≤ k < 3)%Z ks →
  let s0 := finitial ttl t g ks in
  run_labels fstep ls s0 = Some s → f_threads s !! i = Some (k, FDone t0 err) →
  (∃ ls1 s1, went_through s0 ls ls1 s1 ∧ f_threads s1 !! i = Some (k, FNow) ∧ f_clock s1 = t0) ∧
  ∃ l ls1 ls2 s1 s2 t1 t2 snap ran,
    went_through s0 ls ls1 s1 ∧ f_threads s1 !! l = Some (k, FSnap t1) ∧
    went_through s0 ls (ls1 ++ ls2) s2 ∧ f_threads s2 !! l = Some (k, FStamp t2 snap ran) ∧
    map fst ran ≡ₚ bucket (f_agg s1) k ∧ map snd ran = omap (answer l) ls2 ∧
    err = errors_Join (omap (λ x, Errorf_w (Name x.1 +:+ ": ") <$> x.2) ran) ∧
    ((∃ ls3 s3 k' t3 e, went_through s0 ls ls3 s3 ∧ f_threads s3 !! l = Some (k', FReturn t3 e) ∧ (t0 ≤ f_clock s3)%Z) ∨
     (0 < cacheTTL (f_agg s) ∧ sat64 (t0 - f_clock s2) < cacheTTL (f_agg s))%Z).
Proof.
  intros L Hg Hks s0 Hrun Hi.
  pose proof (finv_reachable inflight ttl t g ks s Hg Hks (run_labels_reachable _ _ _ _ Hrun)) as I.
  assert (hist s0 ls s) as H.
  { apply hist_run; try done. intros j x Hj. simpl in Hj. by apply list_lookup_fmap_Some in Hj as (k' & -> & _). }
  split; [exact (h_threads _ _ _ H _ _ Hi)|].
  destruct (fi_threads _ s I _ _ _ Hi) as [_ (ev & Hin & Hk & He & Hj)].
  pose proof (proj1 (Forall_forall _ _) (fi_evals _ s I) ev Hin) as Hok.
  destruct (h_evals _ _ _ H ev Hin) as (ls1 & ls2 & s1 & s2 & t1 & t2 & H1 & Ht1 & H2 & Ht2 & Hsn & Hans & Hat).
  rewrite Hk in *. unfold ev_ok in Hok. rewrite Hsn in Hok.
  exists (ev_by ev), ls1, ls2, s1, s2, t1, t2, (ev_snap ev), (ev_ran ev). rewrite <-Hat. split_and!; try done.
  destruct Hj as [(pub & Hp & Hle)|?]; [left|by right].
  destruct (h_pub _ _ _ H _ _ Hp) as (ls3 & s3 & k' & t3 & e & ? & ? & <-). by exists ls3, s3, k', t3, e.
Qed.

Lemma flight_fresh_witness :
  let s0 := finitial 0 0 ((∅, ∅) : sample_group) [1; 1; 1]%Z in
  ∃ s, run_labels fstep sample_run s0 = Some s ∧
  ∃ l ls1 ls2 s1 s2 t1 t2 snap ran,
    went_through s0 sample_run ls1 s1 ∧ f_threads s1 !! l = Some (1%Z, FSnap t1) ∧
    went_through s0 sample_run (ls1 ++ ls2) s2 ∧ f_threads s2 !! l = Some (1%Z, FStamp t2 snap ran) ∧
    map fst ran ≡ₚ bucket (f_agg s1) 1%Z ∧ map snd ran = omap (answer l) ls2.
Proof.
  intros s0. destruct (run_labels fstep sample_run s0) as [s|] eqn:Hrun; [|by vm_compute in Hrun].
  exists s. split; [done|].
  destruct (flight_fresh fst 0 0 ((∅, ∅) : sample_group) [1; 1; 1]%Z sample_run s 2 1 6 (errors_Join [down]))
    as [_ (l & ls1 & ls2 & s1 & s2 & t1 & t2 & snap & ran & H)].
  - apply sample_singleflight_laws.
  - apply sample_group_empty.
  - repeat constructor; done.
  - exact Hrun.
  - pose proof sample_run_ends as H. fold s0 in H. rewrite Hrun in H. injection H as H. exact (f_equal (λ l, l !! 2) H).
  - exists l, ls1, ls2, s1, s2, t1, t2, snap, ran. destruct H as (H1 & H2 & H3 & H4 & H5 & H6 & _).
    exact (conj H1 (conj H2 (conj H3 (conj H4 (conj H5 H6))))).
Defined.

(** C32. Every probe is answered. From any reachable state, the goroutines and
    their checks can make only so many steps, and once none of them can move,
    every call of [evaluate] has returned: no goroutine waits for a flight that
    nobody runs. *)
Theorem flight_terminates {G} `{!Singleflight G} inflight ttl t g ks s ls s' :
  SingleflightLaws G inflight → sf_empty inflight g → Forall (λ k, 0 ≤ k < 3)%Z ks →
  reachable fstep (finitial ttl t g ks) s → run_labels fint ls s = Some s' →
  length ls ≤ fmeasure s ∧
  ((∀ l, fint l s' = None) → ∀ i k p, f_threads s' !! i = Some (k, p) → ∃ t0 err, p = FDone t0 err).
Proof.
  intros L Hg Hks Hr Hrun. split.
  { pose proof (run_labels_measure _ fmeasure ls s s' fint_decreases Hrun). lia. }
  assert (reachable fstep (finitial ttl t g ks) s') as Hr'.
  { apply run_labels_reachable in Hrun. induction Hrun as [|s1 l s2 _ IH Hs]; [done|].
    apply (reach_step _ _ s1 l); [done|]. unfold fint in Hs. by destruct (internal l). }
  pose proof (finv_reachable inflight ttl t g ks s' Hg Hks Hr') as I. intros Hstuck i k p Hi.
  destruct p as [| | | | | | | | | |t0 err|]; eauto;
    (destruct (flight_progress inflight s' i k _ I Hi) as (lb & s2 & Hl & Hs2); [done|]);
    specialize (Hstuck lb); unfold fint in Hstuck; rewrite Hl in Hstuck; congruence.
Qed.

Lemma flight_terminates_witness :
  ∃ s, run_labels fint (drop 1 (take 8 sample_run))
         (finitial 0 0 ((∅, ∅) : sample_group) [1; 1; 1]%Z) = Some s ∧ 7 ≤ 30 ∧
    ((∀ l, fint l s = None) → ∀ i k p, f_threads s !! i = Some (k, p) → ∃ t0 err, p = FDone t0 err).
Proof.
  destruct (run_labels fint (drop 1 (take 8 sample_run)) (finitial 0 0 ((∅, ∅) : sample_group) [1; 1; 1]%Z))
    as [s|] eqn:Hrun; [|by vm_compute in Hrun].
  exists s. split; [done|].
  apply (flight_terminates fst 0 0 ((∅, ∅) : sample_group) [1; 1; 1]%Z
    (finitial 0 0 ((∅, ∅) : sample_group) [1; 1; 1]%Z) (drop 1 (take 8 sample_run)) s).
  - apply sample_singleflight_laws.
  - apply sample_group_empty.
  - repeat constructor; done.
  - constructor.
  - exact Hrun.
Defined.

(** There is no second look at the cache inside [Do]: a goroutine that missed
    before the first evaluation stored its result starts another one after it,
    although the stored result is fresh. *)
Example reevaluation_within_ttl :
  (λ s, map ev_at (f_evals s)) <$>
    run_labels fstep [FGo 0; FGo 1; FGo 0; FGo 1; FGo 0; FGo 0; FGo 0; FGo 0; FGo 0; FGo 0;
                      FGo 1; FGo 1; FGo 1; FGo 1; FGo 1]
      (finitial 0 0 ((∅, ∅) : sample_group) [1; 1]%Z) = Some [0%Z; 0%Z].
Proof. vm_compute. reflexivity. Qed.
