(* ===== verification/Stack.v ===== *)
(** * The order service on PostgresDB and RedisCache

    The stack that examples/orders/main.go puts together: the service over the
    transaction provider of a [PostgresDB] and over a [RedisCache]. What pgx does
    with single-row queries is one more class of laws; from the laws of pgx and of
    go-redis follow the interfaces the service is proved against, so its theorems
    hold of the whole stack. *)

From stdpp Require Import base list strings gmap.
From Stdlib Require Import ZArith Lia.
From S2P Require Import Prelude Errors Runtime Connect TxManager Database Cache Orders.

(** ** Single-row queries of pgx *)

Class PgxQueryLaws {S CommandTag D : Type} (drv : pgx S CommandTag) (pl : nat) (abs : S → Abs D)
    (qsem : string → list Value → D → list Value * option error → D → Prop) : Prop := {
  pgx_law_query ctx sql args w :
    ∃ r w' d', (row <- pgx_QueryRow drv (src_of pl (top (abs (heap w)))) ctx sql args ;; Row_Scan row)%go w
        = (Ret r, w') ∧
      qsem sql args (cur (abs (heap w))) r d' ∧ abs (heap w') = set_cur d' (abs (heap w))
}.

(** The error as the framework reports it. *)
Definition framework_error (e : option error) : option error :=
  if Is e pgx_ErrNoRows then Some (Sentinel ErrNoRows) else e.

(** The meaning of a query through the adapters of a [PostgresDB]. *)
Definition framework_query {D} (qsem : string → list Value → D → list Value * option error → D → Prop)
    (sql : string) (args : list Value) (d : D) (r : list Value * option error) (d' : D) : Prop :=
  (∃ e, qsem sql args d (r.1, e) d' ∧ r.2 = framework_error e) ∨
  (r = ([], Some err_no_pool) ∧ d' = d).

Section QueryAdapter.
Context {S CommandTag D : Type} (drv : pgx S CommandTag) (abs : S → Abs D)
  (qsem : string → list Value → D → list Value * option error → D → Prop).

(** A row of the framework, on the state with the pool field. *)
Lemma row_adapter row c1 k1 (s1 : S) o vs e w' :
  Row_Scan row (mkWorld c1 k1 s1) = (Ret (vs, e), w') →
  Row_Scan (on_driver_row (pgxRowAdapter row)) (mkWorld c1 k1 (mkConn o s1)) =
  (Ret (vs, framework_error e), mkWorld (clock w') (coins w') (mkConn o (heap w'))).
Proof.
  intros Hs. cbn [on_driver_row Row_Scan].
  assert (Row_Scan (pgxRowAdapter row) (mkWorld c1 k1 s1) = (Ret (vs, framework_error e), w')) as Ha.
  { simpl. unfold bind. rewrite Hs. simpl. unfold framework_error. by destruct (Is e pgx_ErrNoRows). }
  by erewrite on_driver_Ret by exact Ha.
Qed.

#[global] Instance txProviderAdapter_query_laws rd `{QL : !∀ pl, PgxQueryLaws drv pl abs qsem} :
  QueryLaws (txProviderAdapter drv rd) (λ s, abs (driver s)) (framework_query qsem).
Proof.
  split. intros ctx sql args [c k [o s]]. simpl.
  set (pl := default 0 o).
  destruct (pgx_law_query (PgxQueryLaws := QL pl) ctx sql args (mkWorld c k s)) as ([vs e] & w' & d' & Hr & Hs & Ha).
  simpl in *. apply bind_Ret_inv in Hr as (row & [c1 k1 s1] & Hq & Hscan).
  destruct (top (abs s)) as [|h] eqn:Ht; [destruct o as [p|]|]; simpl in *.
  - eexists (vs, framework_error e), _, d'. split; [|split; [left; eauto|]].
    + erewrite bind_Ret.
      2:{ unfold db_queryRow, bind, mget. simpl. erewrite on_driver_Ret by exact Hq. reflexivity. }
      by apply row_adapter.
    + done.
  - eexists _, _, (cur (abs s)). split; [reflexivity|]. split; [by right|]. simpl. by rewrite set_cur_cur.
  - eexists (vs, framework_error e), _, d'. split; [|split; [left; eauto|]].
    + erewrite bind_Ret.
      2:{ erewrite bind_Ret; [reflexivity|]. erewrite on_driver_Ret; [reflexivity|].
          unfold pgxProviderAdapter_QueryRow, bind. simpl. by rewrite Hq. }
      by apply row_adapter.
    + done.
Qed.
End QueryAdapter.

(** ** Weaker meanings *)

Lemma TxLaws_weaken lossy {S D} (p : TxProvider S) (abs : S → Abs D) sem sem' :
  TxLaws lossy p abs sem → (∀ sql args d r d', sem sql args d r d' → sem' sql args d r d') → TxLaws lossy p abs sem'.
Proof.
  intros [H1 H2 H3 H4 H5] Hw. split; auto. intros ctx sql args w.
  destruct (H1 ctx sql args w) as (r & w' & d' & ? & ? & ?). eauto 10.
Qed.

Lemma QueryLaws_weaken {S D} (p : TxProvider S) (abs : S → Abs D) sem sem' :
  QueryLaws p abs sem → (∀ sql args d r d', sem sql args d r d' → sem' sql args d r d') → QueryLaws p abs sem'.
Proof.
  intros [H] Hw. split. intros ctx sql args w.
  destruct (H ctx sql args w) as (r & w' & d' & ? & ? & ?). eauto 10.
Qed.

(** ** The shop behind pgx *)

Section Shop.
Context {S CommandTag : Type} (drv : pgx S CommandTag) (abs : S → Abs Shop).

(** The statements on the tables, with pgx's command tags and no-rows error. *)
Definition pgx_shop_exec (sql : string) (args : list Value) (d : Shop) (r : CommandTag * option error)
    (d' : Shop) : Prop :=
  shop_exec sql args d (RowsAffected drv r.1, r.2) d'.

Definition pgx_shop_query (sql : string) (args : list Value) (d : Shop) (r : list Value * option error)
    (d' : Shop) : Prop :=
  shop_query sql args d (r.1, framework_error r.2) d'.

Lemma no_pool_foreign : foreign err_no_pool.
Proof. done. Qed.

#[global] Instance shop_tx_laws rd `{PL : !∀ pl, PgxLaws drv pl abs pgx_shop_exec} :
  TxLaws true (txProviderAdapter drv rd) (λ s, abs (driver s)) shop_exec.
Proof.
  eapply TxLaws_weaken; [by apply txProviderAdapter_laws|]. intros sql args d [n e] d' [(tag & Hn & Hs)|[[= -> ->] ->]].
  - simpl in *. by subst n.
  - apply X_fail, no_pool_foreign.
Qed.

#[global] Instance shop_query_laws rd `{QL : !∀ pl, PgxQueryLaws drv pl abs pgx_shop_query} :
  QueryLaws (txProviderAdapter drv rd) (λ s, abs (driver s)) shop_query.
Proof.
  eapply QueryLaws_weaken; [by apply txProviderAdapter_query_laws|].
  intros sql args d [vs e] d' [(e0 & Hs & He)|[[= -> ->] ->]].
  - simpl in *. by subst e.
  - apply Q_fail, no_pool_foreign.
Qed.
End Shop.

(** A cache that has not connected has no client: the service's reads of products
    panic until it has. *)
Lemma GetProduct_before_connect {Sd Sr} (p : TxProvider Sd) (cl : redis Sr) dc (r : RedisCache Product) ctx id w :
  conn (sv_cache (heap w)) = None →
  GetProduct p (redis_cache cl dc r) ctx id w = (Panic nil_panic, w).
Proof.
  destruct w as [c k [d [o s] l]]. simpl. intros ->. reflexivity.
Qed.

(** ** A sample stack *)

(** pgx over the sample database; its rows report pgx's own no-rows error. *)
Definition pgx_row_error (e : option error) : option error :=
  if Is e ErrNoRows then Some (Sentinel pgx_ErrNoRows) else e.

Definition shop_pgx : pgx (StackDB Shop) Z :=
  mkPgx id
    (λ src ctx sql args, shop_Exec (of_src src) ctx sql args)
    (λ _ _ _ _, ret (inr (ErrorString "unsupported")))
    (λ src ctx sql args, (row <- shop_QueryRow (of_src src) ctx sql args ;;
       ret (mkRow (r <- Row_Scan row ;; ret (r.1, pgx_row_error r.2))))%go)
    (λ src ctx, sdb_Begin (of_src src) ctx)
    (λ h ctx, sdb_Commit true h ctx)
    (λ h ctx, (r <- sdb_Rollback true h ctx ;; ret (pgx_closed r))%go)
    (λ s, inl (mkConfig 4 0 s))
    (λ _ _, ret (inl 1)) (λ _ _, ret None) (λ _, ret tt).

#[global] Instance shop_pgx_laws pl : PgxLaws shop_pgx pl sdb (pgx_shop_exec shop_pgx).
Proof.
  pose proof (shop_db_laws true None) as [H1 H2 H3 H4 H5]. split.
  - intros ctx sql args w. simpl. rewrite of_src_of.
    destruct (H1 ctx sql args w) as ([n e] & w' & d' & ? & ? & ?). by exists (n, e), w', d'.
  - intros ctx w. simpl. rewrite of_src_of. apply (H2 ctx w).
  - intros ctx w h Ht. destruct (H3 ctx w h Ht) as (r & w' & Hr & Ha). exists r, w'. split; [done|].
    destruct r; [|done]. destruct Ha as [?|[?|[_ ?]]]; auto.
  - intros ctx w h Ht. destruct (sdb_Rollback_open true ctx w h Ht) as (r & w' & Hr & Ha). eexists _, w'.
    split; [simpl; by run Hr|]. destruct Ha as [?|(_ & ? & ? & e & -> & He)]; [by left|]. right. unfold pgx_closed. simpl.
    assert (errors_Is e ErrTxClosed = false) as -> by (by apply orb_false_iff in He as [? _]).
    split_and!; [done..|]. by exists e.
  - intros ctx w h Hh. destruct (H5 ctx w h Hh) as (r & w' & Hr & Ha & He). eexists _, w'.
    split; [simpl; by run Hr|]. split; [done|]. unfold pgx_closed.
    destruct r as [e|]; simpl; [by rewrite He|done].
Qed.

(** What the adapter makes of the driver's rows: no-rows for no-rows. *)
Lemma shop_row_error sql args d vs e d' :
  shop_query sql args d (vs, e) d' → (∀ e', e = Some e' → errors_Is e' pgx_ErrNoRows = false) →
  shop_query sql args d (vs, framework_error (pgx_row_error e)) d'.
Proof.
  intros Hq Hn. unfold pgx_row_error, framework_error. destruct e as [e|]; [|done]. simpl.
  destruct (errors_Is e ErrNoRows) eqn:He; simpl.
  - assert (e = Sentinel ErrNoRows) as ->; [|done]. inversion Hq; subst; try done.
    by match goal with H : foreign _ |- _ => destruct H; congruence end.
  - by rewrite (Hn e eq_refl).
Qed.

Lemma shop_query_fn_error sql args d e :
  (shop_query_fn sql args d).1.2 = Some e → errors_Is e pgx_ErrNoRows = false.
Proof.
  unfold shop_query_fn. repeat (case_match; simpl; try (by intros [= <-])).
Qed.

#[global] Instance shop_pgx_query_laws pl : PgxQueryLaws shop_pgx pl sdb pgx_shop_query.
Proof.
  split. intros ctx sql args w. simpl. rewrite of_src_of.
  destruct (db_op_open (top (sdb (heap w))) (λ e, ([], Some (driver_error e))) (λ _, id) (λ a,
    ((shop_query_fn sql args (cur a)).1, set_cur (shop_query_fn sql args (cur a)).2 a)) w)
    as (r & w' & Hop & Hr); [apply is_open_top|].
  set (q := cur (sdb (heap w))).
  assert (∃ d', shop_query sql args q r d' ∧ sdb (heap w') = set_cur d' (sdb (heap w)) ∧
    ∀ e', r.2 = Some e' → errors_Is e' pgx_ErrNoRows = false) as (d' & Hs & Ha & Hn).
  { destruct Hr as [(e & -> & Hs)|Hs].
    - exists q. split; [by apply (Q_fail sql args q (driver_error e))|]. split; [unfold q; by rewrite Hs, set_cur_cur|].
      by intros e' [= <-].
    - injection Hs as -> Hs. exists (shop_query_fn sql args q).2. split; [apply shop_query_fn_ok|].
      split; [done|]. apply shop_query_fn_error. }
  exists (r.1, pgx_row_error r.2), w', d'. split; [|split; [|done]].
  - rewrite bind_assoc. erewrite bind_Ret; [|reflexivity]. rewrite bind_ret_l. simpl.
    by erewrite bind_Ret by exact Hop.
  - destruct r as [vs e]. by apply shop_row_error.
Qed.

Definition stack_world (d : Shop) : World (Svc (Conn (StackDB Shop)) (Conn RedisServer)) :=
  mkWorld 0 [] (mkSvc (mkConn (Some 1) (mkStackDB (mkAbs d []) []))
                      (mkConn (Some 1) (mkRedisServer ∅ {[1]} [])) []).

Definition stack_cache : RedisCache Product :=
  mkRedisCache (mkRedisOptions "localhost:6379" "" "" 0) None "redis-cache" true 0 0.

(** ** Theorems *)

(** C15. The order service on PostgreSQL and Redis. If pgx and go-redis keep their
    contracts, then for the service over the provider of a [PostgresDB] and a
    connected [RedisCache] with the default JSON codec, outside of transactions, with
    a database that is or becomes ready or a context that ends, and from a state in
    which the cached products are the rows: [CreateOrder] returns, with the order
    placed entirely and the stock taken if it returns nil, with the tables as before
    if it returns an error, unless the error is that of the commit: then the order
    may also have been placed entirely, but never in part. And through any sequence
    of calls in which no invalidation and no commit of an order fails, every product
    read is the row that is in the table. *)
Theorem orders_stack_correct {Sd CommandTag Sr} (drv : pgx Sd CommandTag) (abs : Sd → Abs Shop) (cl : redis Sr)
    contents clients zone json_text (r : RedisCache Product) rd ctx pid q os w :
  let p := txProviderAdapter drv rd in
  let dc := product_codec zone json_text in
  let c := redis_cache cl dc r in
  let tables (w : World (Svc (Conn Sd) (Conn Sr))) := abs (driver (sv_db (heap w))) in
  (∀ pl, PgxLaws drv pl abs (pgx_shop_exec drv)) → (∀ pl, PgxQueryLaws drv pl abs pgx_shop_query) →
  RedisLaws cl contents clients →
  r_codec r = None → rd ≠ None ∨ ctx_done ctx ≠ None → TxFromContext ctx = None →
  settled (λ s, abs (driver s)) dc (λ s, is_Some (conn s)) (λ s, contents (driver s)) w →
  (∃ o e w', CreateOrder p c ctx pid q w = (Ret (o, e), w') ∧
     match e with
     | None => ∃ d', tables w' = set_cur d' (tables w) ∧ order_placed pid q (cur (tables w)) o d'
     | Some err => tables w' = tables w ∨
         ((∃ ce, err = commit_failed ce) ∧
          ∃ d', tables w' = set_cur d' (tables w) ∧ placed_by pid q (cur (tables w)) d')
     end) ∧
  reads_current p (λ s, abs (driver s)) c true ctx os w.
Proof.
  intros p dc c tables PL QL RL Hcd Hg Hn Hset.
  assert (codecOrDefault dc r = dc) as Hdc by (unfold codecOrDefault; by rewrite Hcd).
  rewrite <-Hdc in Hset.
  assert (gate_ok p ctx) as Hgate.
  { unfold gate_ok. simpl. destruct rd; [done|]. by destruct Hg. }
  split.
  - destruct (CreateOrder_spec p (λ s, abs (driver s)) c (codecOrDefault dc r) (λ s, is_Some (conn s))
      (λ s, contents (driver s)) ctx pid q w Hgate) as (o & e & w' & Hr & _ & He);
      [exact (settled_target _ _ _ _ ctx w Hn Hset)|by destruct Hset as (_ & ? & _)|].
    exists o, e, w'. split; [done|]. destruct e as [err|]; [|destruct He as (d' & ? & ? & _); eauto].
    destruct He as (_ & _ & _ & d' & Ha & [->|[(_ & Hc & Hp)|(_ & Hin & _)]]).
    + left. unfold tables. by rewrite Ha, set_cur_cur.
    + right. eauto.
    + unfold in_tx in Hin. by rewrite Hn in Hin.
  - apply (reads_current_settled p (λ s, abs (driver s)) c (codecOrDefault dc r) (λ s, is_Some (conn s))
      (λ s, contents (driver s))); [|done..].
    rewrite Hdc. apply product_codec_roundtrip.
Qed.

Lemma orders_stack_correct_witness :
  let p := txProviderAdapter shop_pgx (Some 0%Z) in
  let c := redis_cache sample_redis sample_codec stack_cache in
  (∃ o e w', CreateOrder p c Background 1 3 (stack_world one_widget) = (Ret (o, e), w') ∧
     match e with
     | None => ∃ d', sdb (driver (sv_db (heap w'))) = set_cur d' (mkAbs one_widget []) ∧
         order_placed 1 3 one_widget o d'
     | Some err => sdb (driver (sv_db (heap w'))) = mkAbs one_widget [] ∨
         ((∃ ce, err = commit_failed ce) ∧
          ∃ d', sdb (driver (sv_db (heap w'))) = set_cur d' (mkAbs one_widget []) ∧ placed_by 1 3 one_widget d')
     end) ∧
  reads_current p (λ s, sdb (driver s)) c true Background [S_GetProduct 1; S_CreateOrder 1 3; S_GetProduct 1]
    (stack_world one_widget).
Proof.
  apply (orders_stack_correct shop_pgx sdb sample_redis store redis_clients (λ _, 0%Z) sample_text stack_cache (Some 0%Z)
    Background 1 3 [S_GetProduct 1; S_CreateOrder 1 3; S_GetProduct 1] (stack_world one_widget)).
  - apply shop_pgx_laws.
  - apply shop_pgx_query_laws.
  - apply sample_redis_laws.
  - reflexivity.
  - left. discriminate.
  - reflexivity.
  - split; [reflexivity|]. split; [by eexists|]. split; [apply one_widget_storable|]. intros id b Hb. simpl in Hb. by rewrite lookup_empty in Hb.
Defined.

Example stack_order :
  (CreateOrder (txProviderAdapter shop_pgx (Some 0%Z)) (redis_cache sample_redis sample_codec stack_cache)
     Background 1 3 (stack_world one_widget)).1 = Ret (mkOrder 0 1 1 3 750, None).
Proof. vm_compute. reflexivity. Qed.
