(* ===== verification/System.v ===== *)
(** * The runner and its components together

    core/runner.go supervising components that embed the [Lifecycle] of
    core/lifecycle.go: a transition system whose state is the supervisor's, one
    [Lifecycle] per service, and how far the shutdown is. The start goroutine of
    a service runs [Start] of its [Lifecycle] under the service's context; any
    number of goroutines wait for its readiness; once every goroutine of the group
    has returned, the services are stopped from the last to the first, each when
    the [Stop] of the one after it has returned. *)

From stdpp Require Import base list strings.
From Stdlib Require Import ZArith Lia.
From S2P Require Import Prelude Errors Runtime Lifecycle Hooks Runner.

(** ** The goroutines of one service *)

(** [Start] by the supervisor, [Stop] by the shutdown, and [k] readers of its
    readiness (the watcher's channel, health checks, gated queries). *)
Definition calls (k : nat) : list pc := SInit :: PLock :: replicate k RInit.

Definition starter (p : pc) : bool := match p with Finished _ | Crashed => true | _ => is_start p end.
Definition stopper (p : pc) : bool :=
  match p with PLock | PHeld | PRun _ | Finished _ => true | _ => false end.
Definition reader (p : pc) : bool := match p with RInit | RWait | Finished _ => true | _ => false end.
Definition aborting (p : pc) : bool := match p with SAbort _ => true | _ => false end.

(** As long as [Stop] has not taken the lock, nothing has been released. *)
Definition under_runner (s : State) : Prop :=
  ∃ p0 p1 rs, threads s = p0 :: p1 :: rs ∧ starter p0 = true ∧
    stopper p1 = true ∧ Forall (λ p, reader p = true) rs ∧
    (p1 = PLock → stopped (lc s) = false ∧ invoked s = [] ∧ aborting p0 = false).

Lemma under_runner_initial k : under_runner (initial true (calls k)).
Proof.
  eexists _, _, _. split_and!; [reflexivity|done|done| |done].
  by apply Forall_replicate.
Qed.

Lemma under_runner_step l s s' : under_runner s → step l s = Some s' → under_runner s'.
Proof.
  destruct l as [i a]. intros (p0 & p1 & rs & Ht & H0 & H1 & Hr & Hn) H.
  destruct i as [|[|i]].
  - step_cases H; rewrite Ht in Hp; injection Hp as ->; simpl in *;
      (eexists _, p1, rs; split; [by rewrite Ht|]; split_and!; try done);
      intros ->; destruct (Hn eq_refl) as (Hs & Hi & Ha); simpl; try (by split_and!); try congruence.
    all: unfold initReady; by destruct (ready _).
  - step_cases H; rewrite Ht in Hp; injection Hp as ->; simpl in *; try done;
      (eexists p0, _, rs; split; [by rewrite Ht|]; split_and!; try done).
  - assert (threads s !! (2 + i) = rs !! i) as Hlk by (by rewrite Ht).
    step_cases H; simpl in Hlk; rewrite Hlk in Hp; pose proof (Forall_lookup_1 _ _ _ _ Hr Hp) as Hrd; simpl in *; try done;
      (eexists p0, p1, _; split; [by rewrite Ht|]; split_and!; try done).
    all: try (by apply Forall_insert).
    intros Hp1. destruct (Hn Hp1) as (? & ? & ?). simpl. unfold initReady. by destruct (ready _).
Qed.

(** Facts about one service, whatever its goroutines have done. *)
Record service_ok (k : nat) (x : State) : Prop := mkServiceOk {
  so_reachable : reachable step (initial true (calls k)) x;
  so_calls : under_runner x
}.

Lemma service_ok_initial k : service_ok k (initial true (calls k)).
Proof. split; [constructor|apply under_runner_initial]. Qed.

Lemma service_ok_step k l x x' : service_ok k x → step l x = Some x' → service_ok k x'.
Proof.
  intros [Hr Hu] H. split; [by eapply reach_step|by eapply under_runner_step].
Qed.

Lemma calls_entry k : Forall entry (calls k).
Proof. repeat constructor. by apply Forall_replicate. Qed.

Lemma calls_single k : count is_start (calls k) ≤ 1.
Proof.
  unfold count, calls. simpl. induction k as [|k IH]; simpl in *; [lia|done].
Qed.

Lemma readers_own_nothing rs : Forall (λ p, reader p = true) rs → flat_map owned rs = [].
Proof. induction 1 as [|p rs Hp _ IH]; simpl; [done|]. rewrite IH. by destruct p. Qed.

Section Service.
Context {k : nat} {x : State} (Hok : service_ok k x).

Lemma service_not_crashed : crashed x = false.
Proof.
  eapply inv_single_not_crashed, inv_single_reachable; [apply calls_entry|apply calls_single|].
  exact (so_reachable _ _ Hok).
Qed.

(** When [Start] and [Stop] have returned, exactly the closures [Connect] gave
    have been run. *)
Lemma service_released e0 e1 :
  threads x !! 0 = Some (Finished e0) → threads x !! 1 = Some (Finished e1) →
  NoDup (invoked x) ∧ ∀ c, c ∈ invoked x ↔ connects x !! c = Some true.
Proof.
  intros H0 H1. destruct Hok as [Hr (p0 & p1 & rs & Ht & _ & _ & Hrs & _)].
  rewrite Ht in H0, H1. simplify_eq/=.
  destruct (inv_places_reachable _ _ _ (calls_entry k) Hr) as [Hnd Hall].
  destruct (inv_single_reachable _ _ _ (calls_entry k) (calls_single k) Hr) as (_ & _ & Hpl & _).
  assert (inv_stops (calls k) x) as Hst.
  { revert Hr. apply invariant_reachable; [right; simpl; auto|]. intros ???; apply inv_stops_step. }
  assert (stopped (lc x) = true) as Hstop.
  { destruct Hst as [?|Hst]; [done|]. destruct (Hst 1 eq_refl) as [H|H]; by rewrite Ht in H. }
  assert (places x = invoked x) as Heq.
  { unfold places, held. rewrite Hstop, Ht. simpl. by rewrite readers_own_nothing. }
  rewrite Heq in Hnd, Hall. rewrite Forall_forall in Hall.
  split; [done|]. intros c. split; [auto|]. rewrite <-Heq. auto.
Qed.

(** Nobody but [Stop] ever holds the lock. *)
Lemma service_mu j : mu (lc x) = Some j → j = 1.
Proof.
  intros Hm. destruct Hok as [Hr (p0 & p1 & rs & Ht & H0 & _ & Hrs & _)].
  apply (inv_mu_reachable _ _ _ (calls_entry k) Hr) in Hm as (p & Hp & Hh). rewrite Ht in Hp.
  destruct j as [|[|j]]; [|done|]; simpl in Hp.
  - simplify_eq. by destruct p.
  - eapply Forall_lookup_1 in Hrs; [|exact Hp]. by destruct p.
Qed.
End Service.

(** ** The system *)

Inductive Phase : Type :=
| Starting                (* in eg.Wait *)
| Stopping (n : nat).     (* services 0 .. n-1 have not been stopped; n-1 is next *)

Record Sys : Type := mkSys {
  y_sup : Sup;
  y_lcs : list State;     (* the Lifecycle of each service *)
  y_phase : Phase
}.

Inductive ylabel : Type :=
| YLife (i j : nat) (a : answer)    (* goroutine [j] of service [i] moves *)
| YCtxDone (i : nat) (b : bool)     (* its Start sees the end of its context: of the
                                       group's, or by its own cancelSvc *)
| YStartReturns (i : nat) (d : Z)   (* the start goroutine goes on after [d] *)
| YReady (i : nat)                  (* the closed ready channel is seen *)
| YWatchReady (i : nat)             (* the watcher of the service moves *)
| YWatchTimeout (i : nat)
| YWatchCtx (i : nat)
| YParentDone (e : error)           (* a signal, or the caller's context *)
| YShutdown                         (* eg.Wait has returned *)
| YNext.                            (* a Stop has returned: on to the next service *)

(** [svcCtx.Err()] as the start goroutine may see it. *)
Definition svc_ctx_err (s : Sup) (v : svc) (b : bool) : option error :=
  if b then gctx s else if s_cancel v then Some (Sentinel Canceled) else None.

#[global] Instance sup_done_dec s : Decision (sup_done s).
Proof. unfold sup_done. apply _. Defined.

Definition is_ctx_done (a : answer) : bool := match a with CtxDone _ => true | _ => false end.

Section System.
Context (hk : Hooks) (deadline_text : string).

Definition set_lc (i : nat) (x : State) (s : Sys) : Sys :=
  mkSys (y_sup s) (<[i := x]> (y_lcs s)) (y_phase s).

(** Whether goroutine [j] of service [i] may move: [Start] while the group is
    waited for, with the end of its context apart; [Stop] when it is its turn; the
    readers always. *)
Definition may_move (i j : nat) (a : answer) (ph : Phase) : bool :=
  match j, ph with
  | 0, Starting => negb (is_ctx_done a)
  | 0, Stopping _ => false
  | 1, Starting => false
  | 1, Stopping n => Nat.eqb n (S i)
  | _, _ => true
  end.

Definition life (i j : nat) (a : answer) (s : Sys) : option Sys :=
  match y_lcs s !! i with
  | Some x => match step (j, a) x with Some x' => Some (set_lc i x' s) | None => None end
  | None => None
  end.

Definition sup (l : slabel) (s : Sys) : option Sys :=
  match y_phase s, sup_step hk deadline_text l (y_sup s) with
  | Starting, Some t => Some (mkSys t (y_lcs s) Starting)
  | _, _ => None
  end.

Definition ystep (l : ylabel) (s : Sys) : option Sys :=
  if existsb crashed (y_lcs s) then None else
  match l with
  | YLife i j a => if may_move i j a (y_phase s) then life i j a s else None
  | YCtxDone i b =>
      match y_phase s, svcs (y_sup s) !! i with
      | Starting, Some v =>
          match svc_ctx_err (y_sup s) v b with Some e => life i 0 (CtxDone e) s | None => None end
      | _, _ => None
      end
  | YStartReturns i d =>
      match y_lcs s !! i ≫= (λ x, threads x !! 0) with
      | Some (Finished e) => sup (StartReturns i e d) s
      | _ => None
      end
  | YReady i =>
      match y_lcs s !! i with
      | Some x => match ready (lc x) with Some true => sup (BecomesReady i) s | _ => None end
      | None => None
      end
  | YWatchReady i => sup (WatchReady i) s
  | YWatchTimeout i => sup (WatchTimeout i) s
  | YWatchCtx i => sup (WatchCtx i) s
  | YParentDone e => sup (ParentDone e) s
  | YShutdown =>
      match y_phase s with
      | Starting =>
          if decide (sup_done (y_sup s)) then Some (mkSys (y_sup s) (y_lcs s) (Stopping (length (y_lcs s))))
          else None
      | _ => None
      end
  | YNext =>
      match y_phase s with
      | Stopping (S n) =>
          match y_lcs s !! n ≫= (λ x, threads x !! 1) with
          | Some (Finished _) => Some (mkSys (y_sup s) (y_lcs s) (Stopping n))
          | _ => None
          end
      | _ => None
      end
  end.
End System.

(** The services of [r], each with its number of readers. *)
Definition sys_initial {S} (r : ApplicationRunner S) (ks : list nat) : Sys :=
  mkSys (sup_initial r) (map (λ k, initial true (calls k)) ks) Starting.

(** ** What holds in every reachable state *)

Definition stop_is (i : nat) (P : pc → Prop) (s : Sys) : Prop :=
  ∀ x, y_lcs s !! i = Some x → ∃ p, threads x !! 1 = Some p ∧ P p.

Definition is_finished (p : pc) : Prop := ∃ e, p = Finished e.

(** Who has been stopped. *)
Definition phase_ok (s : Sys) : Prop :=
  match y_phase s with
  | Starting => ∀ i, stop_is i (λ p, p = PLock) s
  | Stopping n =>
      n ≤ length (y_lcs s) ∧ sup_done (y_sup s) ∧
      ∀ i, (S i < n → stop_is i (λ p, p = PLock) s) ∧ (n ≤ i → stop_is i is_finished s)
  end.

Section SystemInvariant.
Context {S : Type} (hk : Hooks) (dtext : string) (r : ApplicationRunner S).
Notation ystep := (ystep hk dtext).

Record yinv (s : Sys) : Prop := mkYinv {
  yi_sup : reachable (sup_step hk dtext) (sup_initial r) (y_sup s);
  yi_len : length (y_lcs s) = length (svcs (y_sup s));
  yi_ok i x : y_lcs s !! i = Some x → ∃ k, service_ok k x;
  yi_started i v x e : svcs (y_sup s) !! i = Some v → y_lcs s !! i = Some x →
    s_start v = Some e → threads x !! 0 = Some (Finished e);
  yi_phase : phase_ok s
}.

(** A step of one goroutine leaves the others where they are, and one that has
    returned makes none. *)
Lemma step_others j a x x' j' :
  step (j, a) x = Some x' → j' ≠ j → threads x' !! j' = threads x !! j'.
Proof. intros (p & s1 & p' & _ & _ & _ & ->)%step_inv Hne. simpl. by rewrite list_lookup_insert_ne. Qed.

Lemma step_finished j a x x' j' e :
  step (j, a) x = Some x' → threads x !! j' = Some (Finished e) → threads x' !! j' = Some (Finished e).
Proof.
  intros H Hf. destruct (decide (j' = j)) as [->|Hne]; [|by rewrite (step_others j a x x' j')].
  exfalso. by apply step_inv in H as (p & s1 & p' & _ & Hp & Hst & _); simplify_eq.
Qed.

#[local] Arguments group_return : simpl never.

(** The supervisor never loses or adds a service. *)
Lemma sup_step_length l t t' : sup_step hk dtext l t = Some t' → length (svcs t') = length (svcs t).
Proof.
  intros H. destruct l; simpl in H; destruct_matches_in H; simpl;
    rewrite ?group_return_svcs; simpl; by rewrite ?length_insert.
Qed.

(** It records the return of [Start] only when told so. *)
Lemma sup_step_started l t t' i v' :
  sup_step hk dtext l t = Some t' → svcs t' !! i = Some v' →
  (∃ v, svcs t !! i = Some v ∧ s_start v' = s_start v) ∨
  (∃ e d, l = StartReturns i e d ∧ s_start v' = Some e).
Proof.
  intros H Hi. destruct l as [i0 e d|i0|i0|i0|i0|e]; simpl in H; destruct_matches_in H;
    simpl in Hi; rewrite ?group_return_svcs in Hi; simpl in Hi; try (left; by exists v').
  all: destruct (decide (i = i0)) as [->|Hne];
    [rewrite list_lookup_insert_eq in Hi by (by eapply lookup_lt_Some); simplify_eq/=|
     rewrite list_lookup_insert_ne in Hi by done; left; by exists v'].
  all: try (left; eexists; split; [done|done]).
  right. eauto.
Qed.

Lemma stop_is_life i j a x x' (P : pc → Prop) s i' :
  y_lcs s !! i = Some x → step (j, a) x = Some x' →
  (i' = i → j = 1 → ∀ p, threads x !! 1 = Some p → P p → ∃ p', threads x' !! 1 = Some p' ∧ P p') →
  stop_is i' P s → stop_is i' P (set_lc i x' s).
Proof.
  intros Hx Hs Hj H y Hy. simpl in Hy. destruct (decide (i' = i)) as [->|Hne].
  - rewrite list_lookup_insert_eq in Hy by (by eapply lookup_lt_Some). simplify_eq.
    destruct (H x Hx) as (p & Hp & HP). destruct (decide (j = 1)) as [->|Hj1]; [eauto|].
    exists p. by rewrite (step_others j a x y 1).
  - rewrite list_lookup_insert_ne in Hy by done. by apply H.
Qed.

(** A goroutine of a service moves, when it may. *)
Lemma yinv_life s s' i j a :
  yinv s → life i j a s = Some s' → (j = 1 → y_phase s = Stopping (Datatypes.S i)) → yinv s'.
Proof.
  intros [Hsup Hlen Hok Hst Hph] H Hj. unfold life in H.
  destruct (y_lcs s !! i) as [x|] eqn:Hx; [|done]. destruct (step (j, a) x) as [x'|] eqn:Hs; [|done].
  injection H as <-. split; simpl.
  - done.
  - by rewrite length_insert.
  - intros i' y Hy. destruct (decide (i' = i)) as [->|Hne].
    + rewrite list_lookup_insert_eq in Hy by (by eapply lookup_lt_Some). simplify_eq.
      destruct (Hok i x Hx) as [k Hk]. exists k. by eapply service_ok_step.
    + rewrite list_lookup_insert_ne in Hy by done. eauto.
  - intros i' v y e Hv Hy He. destruct (decide (i' = i)) as [->|Hne].
    + rewrite list_lookup_insert_eq in Hy by (by eapply lookup_lt_Some). simplify_eq.
      eapply step_finished; eauto.
    + rewrite list_lookup_insert_ne in Hy by done. eauto.
  - unfold phase_ok in *. simpl. destruct (y_phase s) as [|n].
    + intros i'. eapply stop_is_life; [done|done|by intros _ ?; specialize (Hj ltac:(done))|done].
    + destruct Hph as (Hn & Hd & Hi). split; [by rewrite length_insert|]. split; [done|].
      intros i'. destruct (Hi i') as [Hlt Hge]. split; intros Hc.
      * eapply stop_is_life; [done|done| |by apply Hlt]. intros -> Hj1. specialize (Hj Hj1). simplify_eq. lia.
      * eapply stop_is_life; [done|done| |by apply Hge]. intros -> Hj1. specialize (Hj Hj1). simplify_eq. lia.
Qed.

(** The supervisor moves; [Start] is recorded as returned when it has. *)
Lemma yinv_sup s s' l :
  yinv s → sup hk dtext l s = Some s' →
  (∀ i e d, l = StartReturns i e d → ∃ x, y_lcs s !! i = Some x ∧ threads x !! 0 = Some (Finished e)) →
  yinv s'.
Proof.
  intros [Hsup Hlen Hok Hst Hph] H Hl. unfold sup in H.
  destruct (y_phase s) eqn:Ep; [|done]. destruct (sup_step hk dtext l (y_sup s)) as [t|] eqn:Ht; [|done].
  injection H as <-. split; simpl.
  - by eapply reach_step.
  - by rewrite (sup_step_length _ _ _ Ht).
  - done.
  - intros i v x e Hv Hx He. destruct (sup_step_started l _ _ i v Ht Hv) as [(v0 & Hv0 & Heq)|(e' & d & -> & Heq)].
    + rewrite Heq in He. eauto.
    + destruct (Hl _ _ _ eq_refl) as (x0 & Hx0 & Hf). simplify_eq. congruence.
  - unfold phase_ok in *. rewrite Ep in Hph. done.
Qed.

Lemma yinv_shutdown s :
  yinv s → y_phase s = Starting → sup_done (y_sup s) →
  yinv (mkSys (y_sup s) (y_lcs s) (Stopping (length (y_lcs s)))).
Proof.
  intros [Hsup Hlen Hok Hst Hph] Ep Hd. split; try done. unfold phase_ok in *. rewrite Ep in Hph. simpl.
  split; [done|]. split; [done|]. intros i. split; intros Hi; [apply Hph|].
  intros x Hx. simpl in Hx. apply lookup_lt_Some in Hx. lia.
Qed.

Lemma yinv_next s n e :
  yinv s → y_phase s = Stopping (Datatypes.S n) →
  (∃ x, y_lcs s !! n = Some x ∧ threads x !! 1 = Some (Finished e)) →
  yinv (mkSys (y_sup s) (y_lcs s) (Stopping n)).
Proof.
  intros [Hsup Hlen Hok Hst Hph] Ep (x & Hx & Hf). split; try done. unfold phase_ok in *. rewrite Ep in Hph.
  destruct Hph as (Hn & Hd & Hi). split; [simpl; lia|]. split; [done|]. intros i. destruct (Hi i) as [Hlt Hge].
  split; intros Hc; [apply Hlt; lia|]. destruct (decide (i = n)) as [->|Hne]; [|apply Hge; lia].
  intros y Hy. simpl in Hy. simplify_eq. exists (Finished e). split; [done|by eexists].
Qed.

Lemma yinv_step l s s' : yinv s → ystep l s = Some s' → yinv s'.
Proof.
  intros I. unfold ystep. destruct (existsb crashed (y_lcs s)); [done|].
  destruct l as [i j a|i b|i d|i|i|i|i|e| |].
  - destruct (may_move i j a (y_phase s)) eqn:Hm; [|done]. intros H. eapply yinv_life; [done..|].
    intros ->. unfold may_move in Hm. destruct (y_phase s); [done|]. by apply Nat.eqb_eq in Hm as ->.
  - destruct (y_phase s); [|done]. destruct (svcs (y_sup s) !! i) as [v|]; [|done].
    destruct (svc_ctx_err (y_sup s) v b) as [e|]; [|done]. intros H. by eapply yinv_life.
  - destruct (y_lcs s !! i ≫= _) as [p|] eqn:Hp; [|done]. destruct p; try done.
    apply bind_Some in Hp as (x & Hx & Hp). intros H. eapply yinv_sup; [done..|].
    intros i' e d' [= <- <- <-]. eauto.
  - destruct (y_lcs s !! i) as [x|]; [|done]. destruct (ready (lc x)) as [[]|]; try done.
    intros H. by eapply yinv_sup.
  - intros H. by eapply yinv_sup.
  - intros H. by eapply yinv_sup.
  - intros H. by eapply yinv_sup.
  - intros H. by eapply yinv_sup.
  - destruct (y_phase s) eqn:Ep; [|done]. destruct (decide _); [|done]. intros [= <-]. by apply yinv_shutdown.
  - destruct (y_phase s) as [|[|n]] eqn:Ep; try done.
    destruct (y_lcs s !! n ≫= _) as [p|] eqn:Hp; [|done]. destruct p; try done. intros [= <-].
    apply bind_Some in Hp as (x & Hx & Hp). by eapply yinv_next; eauto.
Qed.

Lemma yinv_initial ks : length ks = length (services r) → yinv (sys_initial r ks).
Proof.
  intros Hl. split; simpl.
  - constructor.
  - by rewrite !length_map.
  - intros i x (k & -> & _)%list_lookup_fmap_Some. exists k. apply service_ok_initial.
  - intros i v x e (c & -> & _)%list_lookup_fmap_Some. done.
  - intros i x (k & -> & _)%list_lookup_fmap_Some. by eexists.
Qed.

Lemma yinv_reachable ks s :
  length ks = length (services r) → reachable ystep (sys_initial r ks) s → yinv s.
Proof. intros Hl. apply invariant_reachable; [by apply yinv_initial|]. intros. by eapply yinv_step. Qed.

Lemma yinv_not_crashed s : yinv s → existsb crashed (y_lcs s) = false.
Proof.
  intros I. apply not_true_iff_false. rewrite existsb_elem. intros (x & [i Hi]%list_elem_of_lookup & Hx).
  destruct (yi_ok s I i x Hi) as [k Hk]. by rewrite (service_not_crashed Hk) in Hx.
Qed.

(** When the group is done, every [Start] has returned. *)
Lemma yinv_all_started s i x :
  yinv s → sup_done (y_sup s) → y_lcs s !! i = Some x → ∃ e, threads x !! 0 = Some (Finished e).
Proof.
  intros I Hd Hx. destruct (lookup_lt_is_Some_2 (svcs (y_sup s)) i) as [v Hv].
  { rewrite <-(yi_len s I). by eapply lookup_lt_Some. }
  destruct (Forall_lookup_1 _ _ _ _ Hd Hv) as [[e He] _]. exists e. by eapply yi_started.
Qed.

(** ** Termination *)

Definition phase_work (s : Sys) : nat :=
  match y_phase s with Starting => Datatypes.S (length (y_lcs s)) | Stopping n => n end.

Definition ymeasure (s : Sys) : nat :=
  list_sum (map measure (y_lcs s)) + sup_work (y_sup s) + phase_work s.

Lemma life_decreases i j a s s' : life i j a s = Some s' → ymeasure s' < ymeasure s.
Proof.
  unfold life. destruct (y_lcs s !! i) as [x|] eqn:Hx; [|done].
  destruct (step (j, a) x) as [x'|] eqn:Hs; [|done]. intros [= <-].
  unfold ymeasure, phase_work. simpl. rewrite length_insert. apply step_decreases in Hs.
  pose proof (list_sum_insert_lt measure (y_lcs s) i x x' Hx Hs). lia.
Qed.

Lemma sup_decreases l s s' : sup hk dtext l s = Some s' → ymeasure s' < ymeasure s.
Proof.
  unfold sup. destruct (y_phase s) eqn:Ep; [|done].
  destruct (sup_step hk dtext l (y_sup s)) as [t|] eqn:Ht; [|done]. intros [= <-].
  apply sup_step_work in Ht. unfold ymeasure, phase_work. rewrite Ep. simpl. lia.
Qed.

Lemma ystep_decreases l s s' : ystep l s = Some s' → ymeasure s' < ymeasure s.
Proof.
  unfold ystep. destruct (existsb crashed (y_lcs s)); [done|]. intros H.
  destruct l as [i j a|i b|i d|i|i|i|i|e| |]; destruct_matches_in H;
    eauto using life_decreases, sup_decreases; unfold ymeasure, phase_work; simpl;
    repeat match goal with E : y_phase s = _ |- _ => rewrite E end; lia.
Qed.

(** ** Progress *)

(** A [Start] that has not returned can go on once its context is done. *)
Lemma start_progress s i x v p :
  yinv s → y_phase s = Starting → y_lcs s !! i = Some x → svcs (y_sup s) !! i = Some v →
  threads x !! 0 = Some p → unfinished p = true → svc_ctx_done (y_sup s) v = true →
  ∃ l s', ystep l s = Some s'.
Proof.
  intros I Ep Hx Hv Hp Hu Hctx. destruct (yi_ok s I i x Hx) as [k Hk].
  pose proof (service_not_crashed Hk) as Hc.
  assert (mu (lc x) = None) as Hmu.
  { destruct (mu (lc x)) as [j|] eqn:Hm; [|done]. exfalso. pose proof (service_mu Hk j Hm) as ->.
    apply (inv_mu_reachable _ _ _ (calls_entry k) (so_reachable _ _ Hk)) in Hm as (q & Hq & Hh).
    pose proof (yi_phase s I) as Hph. unfold phase_ok in Hph. rewrite Ep in Hph.
    destruct (Hph i x Hx) as (q' & Hq' & ->). by simplify_eq. }
  destruct (enabled_unless_locked x 0 p Hc Hp Hu (or_introl Hmu)) as (a & x' & Hs).
  assert (starter p = true) as Hsp.
  { destruct (so_calls _ _ Hk) as (p0 & p1 & rs & Ht & H0 & _). rewrite Ht in Hp. by simplify_eq/=. }
  destruct (waiting p) eqn:Hw; [assert (p = SWait) as -> by (by destruct p)|].
  - assert (∃ b e, svc_ctx_err (y_sup s) v b = Some e) as (b & e & Hb).
    { unfold svc_ctx_done in Hctx. apply orb_true_iff in Hctx as [Hc'|Hc'].
      - exists false. unfold svc_ctx_err. rewrite Hc'. eauto.
      - exists true. simpl. destruct (gctx (y_sup s)); [eauto|done]. }
    exists (YCtxDone i b). unfold ystep. rewrite (yinv_not_crashed s I), Ep, Hv, Hb. unfold life. rewrite Hx.
    unfold step. rewrite Hc, Hp. simpl. eauto.
  - exists (YLife i 0 a). unfold ystep. rewrite (yinv_not_crashed s I), Ep. simpl.
    assert (is_ctx_done a = false) as ->.
    { apply step_inv in Hs as (q & ? & ? & _ & Hq & Hst & _). rewrite Hp in Hq. injection Hq as <-.
      destruct a; try done. destruct p; try done; by destruct stop. }
    simpl. unfold life. rewrite Hx, Hs. eauto.
Qed.

(** As long as the group is waited for, something can happen: at the latest the
    end of the context. *)
Lemma starting_progress s :
  yinv s → y_phase s = Starting → ∃ l s', ystep l s = Some s'.
Proof.
  intros I Ep. pose proof (yinv_not_crashed s I) as Hc.
  assert (∀ l t, sup_step hk dtext l (y_sup s) = Some t →
    sup hk dtext l s = Some (mkSys t (y_lcs s) Starting)) as Hsup.
  { intros l t Ht. unfold sup. by rewrite Ep, Ht. }
  destruct (parent (y_sup s)) as [pe|] eqn:Hpar.
  2:{ exists (YParentDone (Sentinel Canceled)). unfold ystep. rewrite Hc. erewrite Hsup; [eauto|]. simpl.
      by rewrite Hpar. }
  destruct (decide (sup_done (y_sup s))) as [Hd|Hd].
  { exists YShutdown. unfold ystep. rewrite Hc, Ep, decide_True by done. eauto. }
  assert (∃ i v, svcs (y_sup s) !! i = Some v ∧ (s_start v = None ∨ s_watch v = Watching)) as (i & v & Hv & Hw).
  { unfold sup_done in Hd. apply not_Forall_Exists in Hd; [|apply _].
    apply Exists_exists in Hd as (v & [i Hv]%list_elem_of_lookup & Hn). exists i, v. split; [done|].
    destruct (s_start v) eqn:Hsv; [|by left]. right. destruct (decide (s_watch v = Watching)); [done|].
    exfalso. apply Hn. split; [by rewrite Hsv|done]. }
  destruct Hw as [Hs|Hw].
  2:{ exists (YWatchTimeout i). unfold ystep. rewrite Hc. erewrite Hsup; [eauto|]. simpl.
      by rewrite Hv, decide_True by done. }
  destruct (lookup_lt_is_Some_2 (y_lcs s) i) as [x Hx].
  { rewrite (yi_len s I). by eapply lookup_lt_Some. }
  destruct (yi_ok s I i x Hx) as [k Hk]. destruct (so_calls _ _ Hk) as (p0 & p1 & rs & Ht & H0 & _).
  assert (threads x !! 0 = Some p0) as Hp by (by rewrite Ht).
  destruct (unfinished p0) eqn:Hu.
  - eapply start_progress; eauto. unfold svc_ctx_done.
    destruct (ig_parent _ _ (sup_reachable_inv _ _ _ _ (yi_sup s I))) as [ge ->]; [by rewrite Hpar|].
    by rewrite orb_true_r.
  - destruct p0 as [| | | | | | | | | | | |e|]; try done.
    + exists (YStartReturns i 0). unfold ystep. rewrite Hc, Hx. simpl. rewrite Hp. erewrite Hsup; [eauto|].
      simpl. by rewrite Hv, Hs.
    + pose proof (service_not_crashed Hk) as Hnc. unfold crashed in Hnc. by rewrite Ht in Hnc.
Qed.

(** While services are being stopped, the current [Stop] can go on or has
    returned. *)
Lemma stopping_progress s n :
  yinv s → y_phase s = Stopping (Datatypes.S n) → ∃ l s', ystep l s = Some s'.
Proof.
  intros I Ep. pose proof (yinv_not_crashed s I) as Hc. pose proof (yi_phase s I) as Hph.
  unfold phase_ok in Hph. rewrite Ep in Hph. destruct Hph as (Hn & Hd & _).
  destruct (lookup_lt_is_Some_2 (y_lcs s) n) as [x Hx]; [lia|].
  destruct (yi_ok s I n x Hx) as [k Hk]. destruct (so_calls _ _ Hk) as (p0 & p1 & rs & Ht & _ & H1 & _).
  assert (threads x !! 1 = Some p1) as Hp by (by rewrite Ht).
  destruct (unfinished p1) eqn:Hu.
  - pose proof (service_not_crashed Hk) as Hnc.
    assert (mu (lc x) = None ∨ holds p1 = true) as Hmu.
    { destruct (mu (lc x)) as [j|] eqn:Hm; [|by left]. right. pose proof (service_mu Hk j Hm) as ->.
      apply (inv_mu_reachable _ _ _ (calls_entry k) (so_reachable _ _ Hk)) in Hm as (q & Hq & Hh). by simplify_eq. }
    destruct (enabled_unless_locked x 1 p1 Hnc Hp Hu Hmu) as (a & x' & Hs).
    exists (YLife n 1 a). unfold ystep. rewrite Hc, Ep. simpl. rewrite Nat.eqb_refl. unfold life.
    rewrite Hx, Hs. eauto.
  - destruct p1 as [| | | | | | | | | | | |e|]; try done.
    exists YNext. unfold ystep. rewrite Hc, Ep, Hx. simpl. rewrite Hp. eauto.
Qed.
End SystemInvariant.

Lemma ymeasure_initial {S} (r : ApplicationRunner S) ks :
  length ks = length (services r) →
  ymeasure (sys_initial r ks) ≤ 13 * length (services r) + 2 * list_sum ks + 2.
Proof.
  intros Hl. unfold ymeasure, phase_work. simpl. rewrite length_map.
  pose proof (sup_initial_work r) as Hw. rewrite map_map.
  assert (list_sum (map (λ k, measure (initial true (calls k))) ks) = 9 * length ks + 2 * list_sum ks) as ->.
  { clear. assert (∀ k, measure (initial true (calls k)) = 9 + 2 * k) as Hk.
    { intros k. unfold measure, list_sum. simpl. do 9 f_equal.
      induction k as [|k IHk]; [done|]. simpl in *. lia. }
    induction ks as [|k ks IH]; [done|]. unfold list_sum in *. cbn [map foldr length]. rewrite Hk, IH. lia. }
  lia.
Qed.

(** ** A sample run

    Two services under a start deadline; the second one fails to connect. *)
Definition quiet (n : string) : Component unit := mkComponent n (λ _, ret None) true None.

Definition sample_runner : ApplicationRunner unit :=
  NewApplicationRunner [WithServices [quiet "db"; quiet "http"]; WithStartDeadline Second].

Definition sample_schedule : list ylabel :=
  [YLife 0 0 Go; YLife 0 2 Go; YLife 1 0 Go; YLife 0 0 Go; YLife 1 0 Go; YLife 0 0 (ConnectOk true); YLife 0 0 Go;
   YLife 1 0 (ConnectErr (ErrorString "port in use")); YLife 0 0 Go; YReady 0; YLife 0 2 Go;
   YStartReturns 1 5; YWatchReady 0; YWatchCtx 1; YCtxDone 0 true; YStartReturns 0 7; YShutdown;
   YLife 1 1 Go; YLife 1 1 Go; YNext; YLife 0 1 Go; YLife 0 1 Go; YLife 0 1 (ClosureRet None); YNext].

Example sample_schedule_runs :
  (λ s, (y_phase s, map invoked (y_lcs s), gerr (y_sup s))) <$>
    run_labels (ystep NoOpHooks "1s") sample_schedule (sys_initial sample_runner [1; 0]) =
  Some (Stopping 0, [[0]; []], Some (Errorf_w "http: " (ErrorString "port in use"))).
Proof. vm_compute. reflexivity. Qed.

(** ** Theorems *)

(** C6. Run leaks nothing. For a runner over components with a [Lifecycle], in
    every interleaving of the supervisor, the watchers, the starting and stopping
    of all services, readers of their readiness, connection failures, deadlines
    and cancellation: when the last [Stop] has returned, every stop closure that
    any [Connect] returned has been run, exactly once. *)
Theorem system_releases_all {S} hk dtext (r : ApplicationRunner S) ks s i x :
  length ks = length (services r) → reachable (ystep hk dtext) (sys_initial r ks) s →
  y_phase s = Stopping 0 → y_lcs s !! i = Some x →
  NoDup (invoked x) ∧ ∀ c, c ∈ invoked x ↔ connects x !! c = Some true.
Proof.
  intros Hl Hr Ep Hx. pose proof (yinv_reachable hk dtext r ks s Hl Hr) as I.
  pose proof (yi_phase _ _ _ s I) as Hph. unfold phase_ok in Hph. rewrite Ep in Hph.
  destruct Hph as (_ & Hd & Hi). destruct (Hi i) as [_ Hge].
  destruct (Hge (Nat.le_0_l i) x Hx) as (p & Hp & [e1 ->]).
  destruct (yinv_all_started _ _ _ s i x I Hd Hx) as [e0 H0].
  destruct (yi_ok _ _ _ s I i x Hx) as [k Hk]. by eapply service_released.
Qed.

Lemma system_releases_all_witness :
  ∃ s x, run_labels (ystep NoOpHooks "1s") sample_schedule (sys_initial sample_runner [1; 0]) = Some s ∧
    y_lcs s !! 0 = Some x ∧ invoked x = [0] ∧
    NoDup (invoked x) ∧ ∀ c, c ∈ invoked x ↔ connects x !! c = Some true.
Proof.
  destruct (run_labels (ystep NoOpHooks "1s") sample_schedule (sys_initial sample_runner [1; 0])) as [s|] eqn:Hrun;
    [|by vm_compute in Hrun].
  pose proof sample_schedule_runs as H. rewrite Hrun in H. injection H as Hph Hinv _.
  destruct (y_lcs s) as [|x xs] eqn:Hx; [done|]. simpl in Hinv. injection Hinv as Hinv _.
  exists s, x. split; [done|]. split; [by rewrite Hx|]. split; [done|].
  apply (system_releases_all NoOpHooks "1s" sample_runner [1; 0] s 0 x).
  - reflexivity.
  - by apply run_labels_reachable in Hrun.
  - exact Hph.
  - by rewrite Hx.
Defined.

(** C19. Services are released in reverse order, after every [Start]. Once anything
    of a service has been released, the start goroutines and watchers of all
    services have returned, and the [Stop] of every service after it has returned:
    a service outlives those registered after it. *)
Theorem system_stop_order {S} hk dtext (r : ApplicationRunner S) ks s i x :
  length ks = length (services r) → reachable (ystep hk dtext) (sys_initial r ks) s →
  y_lcs s !! i = Some x → invoked x ≠ [] →
  sup_done (y_sup s) ∧
  ∀ j y, i < j → y_lcs s !! j = Some y → ∃ e, threads y !! 1 = Some (Finished e).
Proof.
  intros Hl Hr Hx Hinv. pose proof (yinv_reachable hk dtext r ks s Hl Hr) as I.
  destruct (yi_ok _ _ _ s I i x Hx) as [k Hk].
  assert (∀ p, threads x !! 1 = Some p → p ≠ PLock) as Hnl.
  { intros p Hp ->. destruct (so_calls _ _ Hk) as (p0 & p1 & rs & Ht & _ & _ & _ & Hn).
    rewrite Ht in Hp. simplify_eq/=. destruct (Hn eq_refl) as (_ & ? & _). congruence. }
  pose proof (yi_phase _ _ _ s I) as Hph. unfold phase_ok in Hph. destruct (y_phase s) as [|n].
  - destruct (Hph i x Hx) as (p & Hp & ->). by destruct (Hnl _ Hp).
  - destruct Hph as (_ & Hd & Hi). split; [done|]. intros j y Hij Hy.
    assert (n ≤ j) as Hnj.
    { destruct (decide (Datatypes.S i < n)) as [Hlt|]; [|lia].
      destruct (proj1 (Hi i) Hlt x Hx) as (p & Hp & ->). by destruct (Hnl _ Hp). }
    destruct (proj2 (Hi j) Hnj y Hy) as (p & Hp & [e ->]). eauto.
Qed.

Lemma system_stop_order_witness :
  ∃ s x, run_labels (ystep NoOpHooks "1s") sample_schedule (sys_initial sample_runner [1; 0]) = Some s ∧
    y_lcs s !! 0 = Some x ∧ sup_done (y_sup s) ∧
    ∀ j y, 0 < j → y_lcs s !! j = Some y → ∃ e, threads y !! 1 = Some (Finished e).
Proof.
  destruct (run_labels (ystep NoOpHooks "1s") sample_schedule (sys_initial sample_runner [1; 0])) as [s|] eqn:Hrun;
    [|by vm_compute in Hrun].
  pose proof sample_schedule_runs as H. rewrite Hrun in H. injection H as Hph Hinv _.
  destruct (y_lcs s) as [|x xs] eqn:Hx; [done|]. simpl in Hinv. injection Hinv as Hinv _.
  exists s, x. split; [done|]. split; [by rewrite Hx|].
  apply (system_stop_order NoOpHooks "1s" sample_runner [1; 0] s 0 x).
  - reflexivity.
  - by apply run_labels_reachable in Hrun.
  - by rewrite Hx.
  - by rewrite Hinv.
Defined.

(** C27. Run ends. Every interleaving of a runner over [n] services with a
    [Lifecycle] has a bounded number of steps, and it stops only when every
    service has been stopped: no goroutine of the runner waits for ever, whatever
    fails, if connecting and releasing return and the context ends. *)
Theorem system_terminates {S} hk dtext (r : ApplicationRunner S) ks ls s :
  length ks = length (services r) → run_labels (ystep hk dtext) ls (sys_initial r ks) = Some s →
  length ls ≤ 13 * length (services r) + 2 * list_sum ks + 2 ∧
  ((∀ l, ystep hk dtext l s = None) → y_phase s = Stopping 0).
Proof.
  intros Hl Hrun. split.
  - pose proof (run_labels_measure _ ymeasure ls _ s (ystep_decreases hk dtext) Hrun).
    pose proof (ymeasure_initial r ks Hl). lia.
  - intros Hstuck. pose proof (yinv_reachable hk dtext r ks s Hl (run_labels_reachable _ _ _ _ Hrun)) as I.
    destruct (y_phase s) as [|[|n]] eqn:Ep; [|done|].
    + destruct (starting_progress hk dtext r s I Ep) as (l & s' & H). by rewrite Hstuck in H.
    + destruct (stopping_progress hk dtext r s n I Ep) as (l & s' & H). by rewrite Hstuck in H.
Qed.

Lemma system_terminates_witness :
  ∃ s, run_labels (ystep NoOpHooks "1s") sample_schedule (sys_initial sample_runner [1; 0]) = Some s ∧
    24 ≤ 30 ∧ ((∀ l, ystep NoOpHooks "1s" l s = None) → y_phase s = Stopping 0).
Proof.
  destruct (run_labels (ystep NoOpHooks "1s") sample_schedule (sys_initial sample_runner [1; 0])) as [s|] eqn:Hrun;
    [|by vm_compute in Hrun].
  exists s. split; [done|].
  apply (system_terminates NoOpHooks "1s" sample_runner [1; 0] sample_schedule s); [reflexivity|exact Hrun].
Defined.
