(* ===== verification/App.v ===== *)
(** * examples/orders/main.go and tracing.go: the program

    [build] wires the components, the service, the routes and the runner in the
    order of main.go; [setupTracing] is tracing.go over the OpenTelemetry SDK;
    [run_app] is the function run: configuration, tracing, wiring, [Run] of the
    runner, and the deferred flush of the traces; it is a relation that covers every
    way in which [Run] can end. What the process is made of
    besides (lifecycles, pings, the SDK, the log output) is the record
    [Machinery]. *)

From stdpp Require Import base list strings gmap.
From Stdlib Require Import ZArith Lia.
From S2P Require Import Prelude Json JsonStruct Errors Runtime Hooks Health Trace Runner Connect TxManager Database Cache Worker Server Orders Handlers Stack.

Definition serviceName : string := "orders-example".

(** ** The service and its routes *)

(** The repositories are made of the resolver they query through; the manager of
    the provider it begins transactions on. *)
Record OrderService (S C : Type) : Type := mkOrderService {
  os_txManager : TxProvider S; os_products : TxProvider S; os_orders : TxProvider S;
  os_cache : Cache C Product; os_logger : bool }.
Arguments mkOrderService {S C}.
Arguments os_txManager {S C}.
Arguments os_products {S C}.
Arguments os_orders {S C}.
Arguments os_cache {S C}.
Arguments os_logger {S C}.

Definition NewTxManager {S} (p : TxProvider S) : TxProvider S := p.
Definition NewProductRepository {S} (resolver : TxProvider S) : TxProvider S := resolver.
Definition NewOrderRepository {S} (resolver : TxProvider S) : TxProvider S := resolver.

(** A nil logger is replaced by the default one. *)
Definition orDefault (logger : bool) : bool := if logger then logger else true.

Definition NewOrderService {S C} (txManager products orders : TxProvider S) (cache : Cache C Product)
    (logger : bool) : OrderService S C :=
  mkOrderService txManager products orders cache (orDefault logger).

Record Handler (S C : Type) : Type := mkHandler { h_service : OrderService S C; h_logger : bool }.
Arguments mkHandler {S C}.
Arguments h_service {S C}.
Arguments h_logger {S C}.

Definition NewHandler {S C} (service : OrderService S C) (logger : bool) : Handler S C :=
  mkHandler service (orDefault logger).

Inductive endpoint : Type := CreateProductEndpoint | GetProductEndpoint | CreateOrderEndpoint | GetOrderEndpoint.

(** The default router and the routes registered on it: the method, the path, and the
    handler with the method of it that serves them. *)
Record AppRouter (S C : Type) : Type := mkAppRouter {
  base_router : Router; routes : list (string * string * (Handler S C * endpoint)) }.
Arguments mkAppRouter {S C}.
Arguments base_router {S C}.
Arguments routes {S C}.

Definition Routes {S C} (h : Handler S C) (r : AppRouter S C) : AppRouter S C :=
  mkAppRouter (base_router r) (routes r ++
    [("POST", "/products", (h, CreateProductEndpoint)); ("GET", "/products/{id}", (h, GetProductEndpoint));
     ("POST", "/orders", (h, CreateOrderEndpoint)); ("GET", "/orders/{id}", (h, GetOrderEndpoint))]).

(** What serves a route, given the body of the request and its {id}. *)
Definition serve {S C} (zone : Z → Z) (json_text : string → json_error → string) (h : Handler S C) (e : endpoint)
    (ctx : Context) (b : Body) (param : string) : M (Svc S C) Response :=
  let s := h_service h in
  match e with
  | CreateProductEndpoint => createProduct (os_products s) zone json_text ctx b
  | GetProductEndpoint => getProduct (os_products s) (os_cache s) zone ctx param
  | CreateOrderEndpoint => createOrder (os_txManager s) (os_cache s) zone json_text ctx b
  | GetOrderEndpoint => getOrder (os_orders s) zone ctx param
  end.

(** ** The process *)

(** The lifecycles of the components, by position: their [Stop] and their ready
    channels; the pool and the client as their fields hold them over time, with
    their pings; the OpenTelemetry SDK; the log. *)
Record Machinery (S : Type) : Type := mkMachinery {
  lc_Stop : nat → Context → M S (option error);
  lc_Ready : nat → Signal;
  pool_at : Z → option nat;
  pool_Ping : nat → Context → Z → Result (Z * option error);
  client_at : Z → option nat;
  redis_Ping : nat → Context → Z → Result (Z * option error);
  stdouttrace_New : option error;
  resource_Merge : string → option error;
  SetTracerProvider : M S unit;
  tp_Shutdown : Context → M S (option error);
  log_line : string → M S unit }.
Arguments mkMachinery {S}.
Arguments lc_Stop {S}.
Arguments lc_Ready {S}.
Arguments pool_at {S}.
Arguments pool_Ping {S}.
Arguments client_at {S}.
Arguments redis_Ping {S}.
Arguments stdouttrace_New {S}.
Arguments resource_Merge {S}.
Arguments SetTracerProvider {S}.
Arguments tp_Shutdown {S}.
Arguments log_line {S}.

(** What [build] makes. *)
Record App (S Sd Sr : Type) : Type := mkApp {
  app_db : PostgresDB * Config;
  app_cache : RedisCache Product;
  app_handler : Handler (Conn Sd) (Conn Sr);
  app_client : AsynqClient;
  app_worker : AsynqServer (list string);
  app_router : AppRouter (Conn Sd) (Conn Sr);
  app_server : HTTPServer * http_Server;
  app_runner : ApplicationRunner S }.
Arguments mkApp {S Sd Sr}.
Arguments app_db {S Sd Sr}.
Arguments app_cache {S Sd Sr}.
Arguments app_handler {S Sd Sr}.
Arguments app_client {S Sd Sr}.
Arguments app_worker {S Sd Sr}.
Arguments app_router {S Sd Sr}.
Arguments app_server {S Sd Sr}.
Arguments app_runner {S Sd Sr}.

Section Main.
Context {S Sd CommandTag Sr : Type} (drv : pgx Sd CommandTag) (cl : redis Sr).
(** The local time zone, the texts of encoding/json's errors, and otelhttp.NewHandler. *)
Context (zone : Z → Z) (json_text : string → json_error → string).
Context (otelhttp_NewHandler : AppRouter (Conn Sd) (Conn Sr) → string → nat).
Context (m : Machinery S).

Definition setupTracing (name : string) : M S ((Context → M S (option error)) + error) :=
  match stdouttrace_New m with
  | Some e => ret (inr (Errorf_w "create stdout trace exporter: " e))
  | None =>
      match resource_Merge m name with
      | Some e => ret (inr (Errorf_w "build resource: " e))
      | None => (_ <- SetTracerProvider m ;; ret (inl (tp_Shutdown m)))%go
      end
  end.

(** The trace-correlated logger: every record carries the service's name. *)
Definition newLogger {H Ctx Rec O} {SH : SlogHandler H Ctx Rec O} (base : H) : TraceHandler H :=
  Trace_WithAttrs (NewTraceHandler base) [("service.name", serviceName)].

(** The components, as the runner sees them; all of them embed a [Lifecycle]. *)
Definition component (i : nat) (name : string) (checks : list Check) : Component S :=
  mkComponent name (lc_Stop m i) true (Some checks).

Definition build (cfg : AppConfig) : Result (App S Sd Sr + error) :=
  match NewPostgresDB drv (DBConnStr cfg) [Database.WithLogger true] with
  | inr e => Ret (inr e)
  | inl db =>
      match NewRedisCache (RedisAddr cfg) [WithPassword (RedisPassword cfg); Cache.WithLogger true] with
      | inr e => Ret (inr e)
      | inl cache =>
          let txManager := NewTxManager (txProviderAdapter drv (lc_Ready m 0)) in
          let productRepo := NewProductRepository txManager in
          let orderRepo := NewOrderRepository txManager in
          let service := NewOrderService txManager productRepo orderRepo
            (redis_cache cl (product_codec zone json_text) cache) true in
          let handler := NewHandler service true in
          let workerRedis := mkRedisConfig (RedisAddr cfg) (RedisPassword cfg) 0 "" None in
          let asyncClient := NewAsynqClient "notification-client" workerRedis in
          let asyncServer := AsynqServer_HandleFunc "notification:send" Process
            (NewAsynqServer "notification-worker" workerRedis (mkServerConfig 5 [] false 0 None)) in
          let runner := NewApplicationRunner
            [Runner.WithLogger true;
             WithServices
               [component 0 (db_name db.1) (PostgresDB_HealthChecks db.1 (pool_at m) (pool_Ping m));
                component 1 (r_name cache) (RedisCache_HealthChecks cache (client_at m) (redis_Ping m));
                component 2 (client_name asyncClient) (AsynqClient_HealthChecks asyncClient (lc_Ready m 2));
                component 3 (server_name asyncServer) (AsynqServer_HealthChecks asyncServer (lc_Ready m 3))]] in
          match NewDefaultRouter (bool_decide (is_Some (HealthAggregator runner))) [] with
          | Ret r =>
              let router := Routes handler (mkAppRouter r []) in
              let otelHandler := otelhttp_NewHandler router "http.server" in
              match NewHTTPServer serviceName (HTTPAddr cfg) (Some otelHandler) [Server.WithLogger true] with
              | inr e => Ret (inr e)
              | inl server =>
                  Ret (inl (mkApp db cache handler asyncClient asyncServer router server
                    (WithServices [component 4 (hs_name server.1) (HTTPServer_HealthChecks server.1 (lc_Ready m 4))]
                       runner)))
              end
          | Panic msg => Panic msg
          | Block => Block
          end
      end
  end.

(** The deferred function. *)
Definition flushTracer (shutdownTracer : Context → M S (option error)) : M S unit :=
  (t <- now ;;
   let shCtx := WithTimeout Background t (5 * Second) in
   err <- shutdownTracer shCtx ;;
   match err with
   | Some _ => log_line m "failed to flush traces"
   | None => ret tt
   end)%go.

(** How a function ends whose deferred call ended with [d]. *)
Definition after_defer {A} (d : Result unit) (r : Result A) : Result A :=
  match d with Ret _ => r | Panic msg => Panic msg | Block => Block end.

(** The goroutine of [main] leaves [Run]: it does once every goroutine of the group
    has returned, or when the wiring of the health checks panics. A panic of a
    service's goroutine ends the process instead. *)
Definition unwinds (r : ApplicationRunner S) (sup : Sup) : Prop :=
  sup_done sup ∨ ∃ msg, healthWiring r = Panic msg.

(** [run()], on the state of the process and the events of the runner; a signal
    arrives at [sig], or never; [starts] is what the services' [Start] calls do. The
    supervisor of the services ends in [Some sup], if it was reached. The deferred
    call is made when [Run] returns and when it panics, but not when it blocks or
    when another goroutine ends the process. *)
Inductive run_app (dtext : string) (starts : S → S → Prop) (env : string → string) (sig : Signal)
    (w : World (RState (S := S))) : option Sup → Result (option error) → World (RState (S := S)) → Prop :=
| run_no_config e : LoadConfig env = inr e → run_app dtext starts env sig w None (Ret (Some e)) w
| run_no_tracing cfg e w1 :
    LoadConfig env = inl cfg →
    call_component (setupTracing serviceName) w = (Ret (inr e), w1) →
    run_app dtext starts env sig w None (Ret (Some e)) w1
| run_not_built cfg sh w1 e d w2 :
    LoadConfig env = inl cfg →
    call_component (setupTracing serviceName) w = (Ret (inl sh), w1) →
    build cfg = Ret (inr e) →
    call_component (flushTracer sh) w1 = (d, w2) →
    run_app dtext starts env sig w None (after_defer d (Ret (Some e))) w2
| run_runs cfg sh w1 a w2 sup res w3 d w4 :
    LoadConfig env = inl cfg →
    call_component (setupTracing serviceName) w = (Ret (inl sh), w1) →
    build cfg = Ret (inl a) →
    call_component (log_line m "starting orders example") w1 = (Ret tt, w2) →
    Run dtext starts (app_runner a) sig Background w2 sup res w3 →
    unwinds (app_runner a) sup → res ≠ Block →
    call_component (flushTracer sh) w3 = (d, w4) →
    run_app dtext starts env sig w (Some sup) (after_defer d res) w4
| run_stuck cfg sh w1 a w2 sup res w3 :
    LoadConfig env = inl cfg →
    call_component (setupTracing serviceName) w = (Ret (inl sh), w1) →
    build cfg = Ret (inl a) →
    call_component (log_line m "starting orders example") w1 = (Ret tt, w2) →
    Run dtext starts (app_runner a) sig Background w2 sup res w3 →
    ¬ unwinds (app_runner a) sup ∨ res = Block →
    run_app dtext starts env sig w (Some sup) res w3.
End Main.

(** The exit status of main: 2 is Go's for a panic. *)
Definition exit_status (r : Result (option error)) : option Z :=
  match r with Ret None => Some 0%Z | Ret (Some _) => Some 1%Z | Panic _ => Some 2%Z | Block => None end.

(** ** Lemmas *)

(** What the program logs goes to the base handler with the identifiers of the span
    and then the name of the service. *)
Lemma newLogger_handles {H Ctx Rec O} {SH : SlogHandler H Ctx Rec O} (span : Ctx → SpanContext) (base : H) ctx r :
  Trace_Handle span (newLogger base) ctx r =
  slog_Handle (slog_WithAttrs (trace_attrs span ctx base) [("service.name", serviceName)]) ctx r.
Proof. reflexivity. Qed.

Lemma envOrDefault_nonempty env key fallback : fallback ≠ "" → envOrDefault env key fallback ≠ "".
Proof. unfold envOrDefault. destruct (String.eqb_spec (env key) ""); congruence. Qed.

Lemma LoadConfig_inl env cfg : LoadConfig env = inl cfg →
  env "DB_CONN_STR" ≠ "" ∧ DBConnStr cfg = env "DB_CONN_STR" ∧ RedisAddr cfg ≠ "" ∧ HTTPAddr cfg ≠ "" ∧
  HTTPAddr cfg = envOrDefault env "HTTP_ADDR" ":8080".
Proof.
  unfold LoadConfig. destruct (String.eqb_spec (env "DB_CONN_STR") "") as [He|He]; [by rewrite He|].
  simpl. destruct (String.eqb_spec (env "DB_CONN_STR") ""); [done|]. intros [= <-]. simpl.
  split_and!; [done|done|by apply envOrDefault_nonempty..|done].
Qed.

(** The health routes of the default router. *)
Definition health_paths : list string :=
  ["/health/liveness"; "/health/readiness"; "/health/startup"; "/health"].

Section BuildLemmas.
Context {S Sd CommandTag Sr : Type} (drv : pgx Sd CommandTag) (cl : redis Sr).
Context (zone : Z → Z) (json_text : string → json_error → string)
  (oh : AppRouter (Conn Sd) (Conn Sr) → string → nat) (m : Machinery S).

(** The runner that is built. *)
Definition app_components (db : PostgresDB) (cache : RedisCache Product) (srv : HTTPServer) : list (Component S) :=
  [component m 0 (db_name db) (PostgresDB_HealthChecks db (pool_at m) (pool_Ping m));
   component m 1 (r_name cache) (RedisCache_HealthChecks cache (client_at m) (redis_Ping m));
   component m 2 "notification-client" (asynqHealthChecks "notification-client" (lc_Ready m 2));
   component m 3 "notification-worker" (asynqHealthChecks "notification-worker" (lc_Ready m 3));
   component m 4 (hs_name srv) (HTTPServer_HealthChecks srv (lc_Ready m 4))].

(** The service and the routes that are built. *)
Definition app_service (a : App S Sd Sr) : OrderService (Conn Sd) (Conn Sr) :=
  let p := txProviderAdapter drv (lc_Ready m 0) in
  mkOrderService p p p (redis_cache cl (product_codec zone json_text) (app_cache a)) true.

Definition app_routes (h : Handler (Conn Sd) (Conn Sr)) : list (string * string * (Handler (Conn Sd) (Conn Sr) * endpoint)) :=
  [("POST", "/products", (h, CreateProductEndpoint)); ("GET", "/products/{id}", (h, GetProductEndpoint));
   ("POST", "/orders", (h, CreateOrderEndpoint)); ("GET", "/orders/{id}", (h, GetOrderEndpoint))].

Lemma build_spec cfg : RedisAddr cfg ≠ "" → HTTPAddr cfg ≠ "" → DBConnStr cfg ≠ "" →
  match ParseConfig drv (DBConnStr cfg) with
  | inr e => build drv cl zone json_text oh m cfg = Ret (inr (Errorf_w "failed to parse connection string: " e))
  | inl _ => ∃ a, build drv cl zone json_text oh m cfg = Ret (inl a) ∧
      app_runner a = mkRunner true (app_components (app_db a).1 (app_cache a) (app_server a).1)
        (Some (NewAggregator 0)) 0 (15 * Second) NoOpHooks ∧
      db_name (app_db a).1 = "postgres-db" ∧ r_name (app_cache a) = "redis-cache" ∧
      hs_name (app_server a).1 = serviceName ∧ r_codec (app_cache a) = None ∧
      map fst (gets (base_router (app_router a))) = health_paths ∧
      h_service (app_handler a) = app_service a ∧ routes (app_router a) = app_routes (app_handler a) ∧
      Srv_Handler (app_server a).2 = oh (app_router a) "http.server" ∧ Srv_Addr (app_server a).2 = HTTPAddr cfg ∧
      Mux (app_worker a) = [("notification:send", HandleFunc Process)]
  end.
Proof.
  intros H1%String.eqb_neq H2%String.eqb_neq H3%String.eqb_neq.
  unfold build, NewPostgresDB, NewRedisCache, NewHTTPServer, buildPoolConfig. rewrite H1, H2, H3.
  simpl. destruct (ParseConfig drv (DBConnStr cfg)) as [c|e]; [|done].
  eexists. split; [reflexivity|]. by split_and!.
Qed.
End BuildLemmas.

(** ** Observing what is released

    The machinery that notes the [Stop] calls of the components at their positions,
    and the shutdown of the tracer at position 5. *)

Definition noted {S} (i : nat) (stop : Context → M S (option error)) : Context → M (S * list StopCall) (option error) :=
  Component_Stop (probe i (mkComponent "" stop true None)).

Definition on_process {S A} (x : M S A) : M (S * list StopCall) A := zoom fst (λ s t, (s, t.2)) x.

Definition probed {S} (m : Machinery S) : Machinery (S * list StopCall) :=
  mkMachinery (λ i, noted i (lc_Stop m i)) (lc_Ready m) (pool_at m) (pool_Ping m) (client_at m) (redis_Ping m)
    (stdouttrace_New m) (resource_Merge m) (on_process (SetTracerProvider m)) (noted 5 (tp_Shutdown m))
    (λ s, on_process (log_line m s)).

(** The calls the program relies on to return: [Stop] of a lifecycle, the SDK, the log. *)
Record returns {S} (m : Machinery S) : Prop := {
  ret_stop i ctx w : ∃ e w', lc_Stop m i ctx w = (Ret e, w') ∧ (clock w ≤ clock w')%Z;
  ret_set w : ∃ w', SetTracerProvider m w = (Ret tt, w');
  ret_shutdown ctx w : ∃ e w', tp_Shutdown m ctx w = (Ret e, w');
  ret_log s w : ∃ w', log_line m s w = (Ret tt, w')
}.

Lemma probed_components {S} (m : Machinery S) db cache srv :
  app_components (probed m) db cache srv = imap probe (app_components m db cache srv).
Proof. reflexivity. Qed.

Lemma components_return {S} (m : Machinery S) db cache srv :
  returns m → Forall stop_returns (app_components m db cache srv).
Proof. intros Hm. unfold stop_returns. repeat constructor; intros ctx w; apply (ret_stop m Hm). Qed.

Lemma call_component_Ret {S A} (x : M S A) (w : World (RState (S := S))) a w1 :
  x (mkWorld (clock w) (coins w) (comps (heap w))) = (Ret a, w1) →
  call_component x w = (Ret a, mkWorld (clock w1) (coins w1) (mkRState (heap w1) (events (heap w)))).
Proof. unfold call_component, zoom. by intros ->. Qed.

Lemma on_process_Ret {S A} (x : M S A) (w : World (S * list StopCall)) a w1 :
  x (mkWorld (clock w) (coins w) (heap w).1) = (Ret a, w1) →
  on_process x w = (Ret a, mkWorld (clock w1) (coins w1) (heap w1, (heap w).2)).
Proof. unfold on_process, zoom. by intros ->. Qed.

Lemma noted_Ret {S} i (stop : Context → M S (option error)) ctx w e w1 :
  stop ctx (mkWorld (clock w) (coins w) (heap w).1) = (Ret e, w1) →
  noted i stop ctx w =
    (Ret e, mkWorld (clock w1) (coins w1) (heap w1, (heap w).2 ++ [mkStopCall i ctx (clock w) (clock w1) e])).
Proof.
  intros H. unfold noted, probe. cbn [Component_Stop]. unfold bind at 1, now at 1. unfold bind at 1, zoom.
  by rewrite H.
Qed.

Lemma call_log {S} (m : Machinery S) s (w : World (RState (S := S * list StopCall))) : returns m →
  ∃ w', call_component (log_line (probed m) s) w = (Ret tt, w') ∧ (comps (heap w')).2 = (comps (heap w)).2.
Proof.
  intros Hm. destruct (ret_log m Hm s (mkWorld (clock w) (coins w) (comps (heap w)).1)) as [w1 H1].
  eexists. split; [apply call_component_Ret; by apply (on_process_Ret _ (mkWorld (clock w) (coins w) (comps (heap w))))|].
  done.
Qed.

(** The deferred call shuts the tracer down once, with five seconds to flush. *)
Lemma flush_once {S} (m : Machinery S) (w : World (RState (S := S * list StopCall))) : returns m →
  ∃ w' f, call_component (flushTracer (probed m) (tp_Shutdown (probed m))) w = (Ret tt, w') ∧
    (comps (heap w')).2 = (comps (heap w)).2 ++ [f] ∧ sc_index f = 5 ∧
    sc_ctx f = WithTimeout Background (clock w) (5 * Second) ∧ sc_start f = clock w.
Proof.
  intros Hm. set (ctx := WithTimeout Background (clock w) (5 * Second)).
  set (w0 := mkWorld (clock w) (coins w) (comps (heap w))).
  destruct (ret_shutdown m Hm ctx (mkWorld (clock w) (coins w) (comps (heap w)).1)) as (e & w1 & H1).
  pose proof (noted_Ret 5 (tp_Shutdown m) ctx w0 e w1 H1) as Hn.
  set (w2 := mkWorld (clock w1) (coins w1)
    (heap w1, (heap w0).2 ++ [mkStopCall 5 ctx (clock w0) (clock w1) e])) in Hn.
  destruct (ret_log m Hm "failed to flush traces" (mkWorld (clock w2) (coins w2) (heap w2).1)) as [w3 H3].
  assert (∃ w4, flushTracer (probed m) (tp_Shutdown (probed m)) w0 = (Ret tt, w4) ∧ (heap w4).2 = (heap w2).2)
    as (w4 & H4 & Hh).
  { unfold flushTracer. unfold bind at 1, now at 1. cbn [clock w0]. fold ctx.
    rewrite (bind_Ret _ _ _ _ _ Hn). destruct e as [e|]; [|by eexists].
    eexists. split; [by apply (on_process_Ret _ w2)|done]. }
  eexists _, _. split; [by apply call_component_Ret|]. simpl. rewrite Hh. by split_and!.
Qed.

(** Setting up tracing notes nothing, and fails only with the SDK. *)
Lemma setup_once {S} (m : Machinery S) name (w : World (RState (S := S * list StopCall))) : returns m →
  ∃ r w', call_component (setupTracing (probed m) name) w = (Ret r, w') ∧
    (comps (heap w')).2 = (comps (heap w)).2 ∧
    match r with
    | inl sh => sh = tp_Shutdown (probed m)
    | inr _ => is_Some (stdouttrace_New m) ∨ is_Some (resource_Merge m name)
    end.
Proof.
  intros Hm. unfold setupTracing. cbn [stdouttrace_New resource_Merge probed].
  destruct (stdouttrace_New m); [eexists _, _; split; [reflexivity|]; eauto|].
  destruct (resource_Merge m name); [eexists _, _; split; [reflexivity|]; eauto|].
  destruct (ret_set m Hm (mkWorld (clock w) (coins w) (comps (heap w)).1)) as [w1 H1].
  eexists _, _. split.
  - apply call_component_Ret.
    rewrite (bind_Ret _ _ _ _ _ (on_process_Ret _ (mkWorld (clock w) (coins w) (comps (heap w))) _ _ H1)). reflexivity.
  - done.
Qed.

Lemma LoadConfig_inr env e : LoadConfig env = inr e → env "DB_CONN_STR" = "".
Proof. unfold LoadConfig. simpl. by destruct (String.eqb_spec (env "DB_CONN_STR") ""). Qed.

Definition service_names : list string :=
  ["postgres-db"; "redis-cache"; "notification-client"; "notification-worker"; serviceName].

(** The errors of the services' stops, as the runner reports them. *)
Definition service_errors (calls : list StopCall) : list error :=
  omap (λ c, match service_names !! sc_index c with
             | Some n => shutdown_err n <$> sc_err c
             | None => None
             end) calls.

Lemma service_errors_spec {S} (cs : list (Component S)) calls :
  map Component_Name cs = service_names → call_errors cs calls = service_errors calls.
Proof.
  intros H. unfold service_errors. rewrite <-H. induction calls as [|c calls IH]; [done|]. simpl. rewrite IH.
  rewrite (list_lookup_fmap Component_Name cs). by destruct (cs !! sc_index c).
Qed.

Lemma exit_zero e : exit_status (Ret e) = Some 0%Z ↔ Ret e = Ret None.
Proof. by destruct e. Qed.

Lemma built_runner {S Sd CommandTag Sr} (m : Machinery S) (drv : pgx Sd CommandTag) (cl : redis Sr) zone json_text oh cfg a :
  RedisAddr cfg ≠ "" → HTTPAddr cfg ≠ "" → DBConnStr cfg ≠ "" →
  build drv cl zone json_text oh (probed m) cfg = Ret (inl a) →
  ∃ db cache srv, services (app_runner a) = imap probe (app_components m db cache srv) ∧
    is_Some (healthAggregator (app_runner a)) ∧ map Component_Name (app_components m db cache srv) = service_names.
Proof.
  intros H1 H2 H3 Hb. pose proof (build_spec drv cl zone json_text oh (probed m) cfg H1 H2 H3) as Hbs. rewrite Hb in Hbs.
  destruct (ParseConfig drv (DBConnStr cfg)); [|done].
  destruct Hbs as (a' & [= <-] & Hr & Hdb & Hca & Hsrv & _).
  exists (app_db a).1, (app_cache a), (app_server a).1. rewrite Hr. split; [apply probed_components|].
  split; [by eexists|]. simpl. by rewrite Hdb, Hca, Hsrv.
Qed.

Lemma unwinds_done {S} (r : ApplicationRunner S) sup :
  is_Some (healthAggregator r) → unwinds r sup ↔ sup_done sup.
Proof.
  intros [agg Hagg]. split; [|by left]. intros [|[msg H]]; [done|].
  unfold healthWiring in H. by rewrite Hagg in H.
Qed.

(** The program once it has been built: the runner runs, and then the tracer is the
    one that was set up. *)
Lemma runner_outcome {S Sd CommandTag Sr} (m : Machinery S) (drv : pgx Sd CommandTag) (cl : redis Sr) zone json_text oh
    dtext starts env sig w cfg sh w1 a w2 sup res w3 :
  returns m → LoadConfig env = inl cfg →
  call_component (setupTracing (probed m) serviceName) w = (Ret (inl sh), w1) →
  build drv cl zone json_text oh (probed m) cfg = Ret (inl a) →
  call_component (log_line (probed m) "starting orders example") w1 = (Ret tt, w2) →
  Run dtext (unnoted starts) (app_runner a) sig Background w2 sup res w3 →
  sh = tp_Shutdown (probed m) ∧ (unwinds (app_runner a) sup ↔ sup_done sup) ∧
  ((sup_done sup ∧ ∃ calls, (comps (heap w3)).2 = (comps (heap w)).2 ++ calls ∧ map sc_index calls = [4; 3; 2; 1; 0] ∧
      res = Ret (errors_Join (option_list (gerr sup) ++ service_errors calls)) ∧
      (res = Ret None ↔ gerr sup = None ∧ Forall (λ c, sc_err c = None) calls)) ∨
   (¬ sup_done sup ∧ (comps (heap w3)).2 = (comps (heap w)).2 ∧ ∀ e, res ≠ Ret e)).
Proof.
  intros Hm Hcfg Hset Hb Hlog HR.
  destruct (setup_once m serviceName w Hm) as (r & w5 & Hs & Hl & Hr). rewrite Hset in Hs. injection Hs as <- <-.
  destruct (call_log m "starting orders example" w1 Hm) as (w6 & Hc & Hl6). rewrite Hlog in Hc. injection Hc as <-.
  destruct (LoadConfig_inl env cfg Hcfg) as (Hne & Hcs & Hra & Hha & _). rewrite <-Hcs in Hne.
  destruct (built_runner m drv cl zone json_text oh cfg a Hra Hha Hne Hb) as (db & cache & srv & Hsv & Hagg & Hnames).
  destruct (Run_spec (app_components m db cache srv) dtext starts (app_runner a) sig Background w2 sup res w3
    Hsv (components_return m db cache srv Hm) Hagg HR) as [_ Ho].
  split; [done|]. split; [apply unwinds_done, Hagg|]. unfold run_outcome in Ho. rewrite Hl6, Hl in Ho.
  destruct Ho as [(Hd & calls & Hl3 & Hidx & Hres & Hnil)|Ho]; [|by right]. left. split; [done|]. exists calls.
  rewrite (service_errors_spec _ calls Hnames) in Hres. by split_and!.
Qed.

(** ** Theorems *)


(** The shutdown of the tracer: once, with five seconds. *)
Definition tracer_flush (f : StopCall) : Prop :=
  sc_index f = 5 ∧ sc_ctx f = WithTimeout Background (sc_start f) (5 * Second).

(** C16. What the program leaves behind. As long as every [Stop], the tracer and the
    log return, and no [Start] calls [Stop]: if the configuration or the tracing
    cannot be set up, or the connection string cannot be parsed, the program returns
    an error, with no service stopped and the tracer, if it was set up, shut down
    once. Else it runs the services under a supervisor, and if every [Start] returns
    it has, when it returns, stopped every service exactly once, the HTTP server
    first, then the worker, the client, the cache and the database, and after that
    shut the tracer down exactly once, with five seconds; it returns the join of the
    supervisor's error and of the errors of the stops, and the exit status is 0 iff
    there is neither. If a [Start] panics or never returns, the program does not
    return and stops nothing. *)
Theorem run_releases {S Sd CommandTag Sr} (drv : pgx Sd CommandTag) (cl : redis Sr) zone json_text oh
    (m : Machinery S) dtext starts env sig w osup res w' :
  returns m →
  run_app drv cl zone json_text oh (probed m) dtext (unnoted starts) env sig w osup res w' →
  let log (v : World (RState (S := S * list StopCall))) := (comps (heap v)).2 in
  match osup with
  | None => ∃ e, res = Ret (Some e) ∧
      ((log w' = log w ∧
        (env "DB_CONN_STR" = "" ∨ is_Some (stdouttrace_New m) ∨ is_Some (resource_Merge m serviceName))) ∨
       ∃ f e', log w' = log w ++ [f] ∧ tracer_flush f ∧ ParseConfig drv (env "DB_CONN_STR") = inr e' ∧
         e = Errorf_w "failed to parse connection string: " e')
  | Some sup =>
      (sup_done sup ∧ ∃ calls f, log w' = log w ++ calls ++ [f] ∧ tracer_flush f ∧
         map sc_index calls = [4; 3; 2; 1; 0] ∧
         res = Ret (errors_Join (option_list (gerr sup) ++ service_errors calls)) ∧
         (exit_status res = Some 0%Z ↔ gerr sup = None ∧ Forall (λ c, sc_err c = None) calls)) ∨
      (¬ sup_done sup ∧ log w' = log w ∧ ∀ e, res ≠ Ret e)
  end.
Proof.
  intros Hm HR log.
  destruct HR as [e Hcfg|cfg e w1 Hcfg Hset|cfg sh w1 e d w2 Hcfg Hset Hb Hfl
    |cfg sh w1 a w2 sup res w3 d w4 Hcfg Hset Hb Hlog HR Hun Hbl Hfl|cfg sh w1 a w2 sup res w3 Hcfg Hset Hb Hlog HR Hne].
  - exists e. split; [done|]. left. split; [done|]. left. by apply LoadConfig_inr in Hcfg.
  - exists e. split; [done|]. left. destruct (setup_once m serviceName w Hm) as (r & w2 & Hs & Hl & Hr).
    rewrite Hset in Hs. injection Hs as <- <-. split; [done|]. by right.
  - destruct (setup_once m serviceName w Hm) as (r & w3 & Hs & Hl & Hr).
    rewrite Hset in Hs. injection Hs as <- <-. rewrite Hr in Hfl.
    destruct (flush_once m w1 Hm) as (w4 & f & Hf & Hl4 & Hi & Hctx & Hst). rewrite Hf in Hfl. injection Hfl as <- <-.
    exists e. split; [done|]. right. destruct (LoadConfig_inl env cfg Hcfg) as (Hne & Hcs & Hra & Hha & _).
    rewrite <-Hcs in Hne |- *. pose proof (build_spec drv cl zone json_text oh (probed m) cfg Hra Hha Hne) as Hbs.
    destruct (ParseConfig drv (DBConnStr cfg)) as [c|e'].
    { destruct Hbs as (a & Ha & _). by rewrite Ha in Hb. }
    rewrite Hbs in Hb. injection Hb as <-. exists f, e'. unfold log. rewrite Hl4, Hl.
    split_and!; try done. unfold tracer_flush. by rewrite Hst.
  - destruct (runner_outcome m drv cl zone json_text oh dtext starts env sig w cfg sh w1 a w2 sup _ w3 Hm Hcfg Hset Hb Hlog HR)
      as (Hsh & Hiff & [(Hd & calls & Hl & Hidx & Hres & Hnil)|(Hn & _)]); [|by destruct Hn; apply Hiff].
    subst sh res. destruct (flush_once m w3 Hm) as (w5 & f & Hf & Hl5 & Hi & Hctx & Hst).
    rewrite Hf in Hfl. injection Hfl as <- <-. left. split; [done|]. exists calls, f. unfold log. simpl.
    rewrite Hl5, Hl, <-app_assoc. split_and!; try done; [unfold tracer_flush; by rewrite Hst|].
    rewrite <-Hnil. apply exit_zero.
  - destruct (runner_outcome m drv cl zone json_text oh dtext starts env sig w cfg sh w1 a w2 sup _ w3 Hm Hcfg Hset Hb Hlog HR)
      as (_ & Hiff & [(Hd & calls & _ & _ & Hres & _)|Hn]); [|by right].
    destruct Hne as [Hne| ->]; [by destruct Hne; apply Hiff|done].
Qed.

(** A process in which everything returns at once. *)
Definition sample_machinery : Machinery unit :=
  mkMachinery (λ _ _, ret None) (λ _, Some 0%Z) (λ _, Some 1) (λ _ _ t, Ret (t, None)) (λ _, Some 1)
    (λ _ _ t, Ret (t, None)) None (λ _, None) (ret tt) (λ _, ret None) (λ _, ret tt).

Lemma sample_machinery_returns : returns sample_machinery.
Proof.
  split; intros; [by eexists _, w|by exists w|by eexists _, w|by exists w].
Qed.

Definition sample_env (key : string) : string :=
  if String.eqb key "DB_CONN_STR" then "postgres://localhost/orders" else "".

(** A signal ends a run in which every service had started. *)
Definition signalled : list slabel :=
  ParentDone (Sentinel Canceled) :: map (λ i, StartReturns i None 1) (seq 0 5).

Definition main_world (t : Z) : World (RState (S := unit * list StopCall)) := mkWorld t [] (mkRState (tt, []) []).

Notation sample_main_run := (run_app shop_pgx sample_redis (λ _, 0%Z) sample_text (λ _ _, 0) (probed sample_machinery)
  "0s" (unnoted anything) sample_env (Some 10%Z) (main_world 0)).

Lemma sample_main : ∃ sup res w', sample_main_run (Some sup) res w' ∧ sup_done sup ∧
  exit_status res = Some 0%Z ∧ map sc_index (comps (heap w')).2 = [4; 3; 2; 1; 0; 5].
Proof.
  assert (∃ sup, run_labels (sup_step NoOpHooks "0s") signalled (mkSup
      (map (λ n, Runner.mkSvc n None false false NoWatch) service_names) None None None []) = Some sup ∧
      sup_done sup ∧ parent sup = Some (Sentinel Canceled) ∧ gerr sup = None ∧ sup_events sup = [])
    as (sup & Hrun & Hd & Hp & Hg & Hev).
  { eexists. split_and!; [vm_compute; reflexivity|repeat (apply Forall_cons_2; [by split; [eexists|]|]); apply Forall_nil_2
      |reflexivity..]. }
  eexists sup, _, _. split; [|split; [exact Hd|split]].
  - eapply (run_runs _ _ _ _ _ _ _ _ _ _ _ _ _ _ _ _ _ (Ret None)); [reflexivity..| |by left|done|].
    + eapply (Run_returns _ _ _ _ _ _ _ _ (main_world 10)).
      * reflexivity.
      * split; [by eapply (run_labels_reachable _ signalled)|vm_compute; discriminate|done|done|by rewrite Hev].
      * exact Hd.
      * rewrite Hg. vm_compute. reflexivity.
    + vm_compute. reflexivity.
  - reflexivity.
  - reflexivity.
Qed.

Lemma run_releases_witness :
  ∃ sup res w', sample_main_run (Some sup) res w' ∧
    ∃ calls f, (comps (heap w')).2 = [] ++ calls ++ [f] ∧ tracer_flush f ∧ map sc_index calls = [4; 3; 2; 1; 0] ∧
      res = Ret (errors_Join (option_list (gerr sup) ++ service_errors calls)).
Proof.
  destruct sample_main as (sup & res & w' & H & Hd & _). exists sup, res, w'. split; [exact H|].
  destruct (run_releases shop_pgx sample_redis (λ _, 0%Z) sample_text (λ _ _, 0) sample_machinery "0s" anything sample_env
    (Some 10%Z) (main_world 0) (Some sup) res w' sample_machinery_returns H)
    as [(_ & calls & f & H1 & H2 & H3 & H4 & _)|(Hn & _)].
  - exists calls, f. by split_and!.
  - by destruct Hn.
Defined.
